(* ===== verification/_CoqProject ===== *)
-Q . S2P
Prelude.v
Bytes.v
PathUtil.v
Reach.v
HeaderClaims.v
ParallelPolicy.v
ParallelRunner.v
DependencyPlanner.v
IncludeGraph.v
IncludeCycles.v
Transforms.v
Utf8.v
Json.v
JsonMin.v
Hashing.v
FactIdentity.v
TuFactCache.v
FactWire.v
FactRecords.v
FactCodec.v
FactBatch.v
FactMaps.v
FactArtifact.v
SpillIndex.v
SpillBuffer.v
FactHandles.v
FactRecorder.v
RecorderLaws.v
OwnedHeaders.v
PassPorts.v
PassRegistry.v
Extraction.v
CleanupPlan.v
Tables.v
CompileDb.v
IncludeStore.v
IncludeFacts.v
IncludePublish.v
IncludeReach.v
Validator.v
Analysis.v
Planner.v
Executor.v
DiffSyntax.v
DiffMatch.v
DiffConfig.v
DiffVerdict.v
DiffSelect.v
