(* ===== verification/Prelude.v ===== *)
(** * A verification library for cidx, the C++ indexer of this repository

    cidx indexes C and C++ projects into a SQLite database, answers queries over
    it, proposes and applies the removal of needless [#include] directives, and
    compares two versions of a file.  The library models the parts of [src/src/]
    that hold the program's own logic and states what makes them correct.  Names
    follow the source; every definition says what it stands for.

    ** Parts and files

    Foundations.  [Prelude]: the type [result] of computations that may throw,
    orders as boolean functions, sorting, [std::ranges::unique] and
    [set_difference], loops that may throw.  [Bytes]: [std::string] as a list of
    bytes.  [Utf8]: code points and hexadecimal digits.  [Reach]: reachability by
    edges.  [Tables]: SQL tables with unique keys, upserts and generated ids.

    Paths and text.  [PathUtil] is util/pathutil.cpp: normpath, abspath, relpath,
    join, expanduser, expandvars, label expansion; the working directory, the
    environment and the password database are arguments.  [Json] is
    cli/json_out.cpp and util/json_read.cpp, [JsonMin] is util/json_min.cpp.
    [Hashing] is util/hashing.cpp: SHA-256 in full; MD5 and SHA-1 are arguments.

    Build configuration.  [CompileDb] is compiledb/compiledb.cpp: stripping and
    healing of compile flags, label encoding of include paths, version keys, the
    normalised configuration.

    Indexing.  [HeaderClaims] is index/header_claims.cpp: the oracle that decides
    which worker extracts a header, as a state machine whose steps the workers
    interleave.  [ParallelPolicy] is index/parallel_policy.cpp: workers and
    budgets.  [ParallelRunner] is index/parallel_runner_impl.hpp: the workers, the
    publisher and the reorder buffer as interleaved events over the interface
    [RunnerPort], which [RunnerGate] implements by the header claims, as
    index/parallel_index.cpp does.  [DependencyPlanner] is
    storage/tu_dependency_planner.cpp: which cached translation units a change
    invalidates.  [TuFactCache] is storage/tu_fact_cache.cpp: what a cache entry is
    published from and read back as, and the planning over the entries that
    application/tu_fact_cache_service.cpp asks for; what the artifact store reports
    about an entry is an argument.  [Transforms] is storage/transforms.cpp up to the
    execution order of the registered transforms.

    Facts.  What a worker extracts from a translation unit reaches the writer as a
    fact batch.  [FactIdentity] is ast/fact_identity.cpp: the stable strings of the
    identities and the index of their handles.  [FactRecords] holds the records of
    ast/fact_records.hpp and its siblings, [FactBatch] the keys, the canonical
    layout and the building of a batch of ast/fact_batch.cpp.  The artifact format
    of ast/fact_batch_artifact.cpp is [FactWire] (primitive fields, the law of a
    codec), [FactCodec] (one codec per record), [FactMaps] (maps, partitions,
    information) and [FactArtifact] (the envelope, encoding and decoding).  The two
    stores that extraction spills to disk are [SpillIndex]
    (ast/spillable_identity_index.cpp: a map) and [SpillBuffer]
    (ast/spillable_fact_buffer.cpp: a list, over the class [SpillCodec], with the
    codec of symbol records of ast/fact_batch.cpp as its instance).  The class
    [FactBatchRecorder] of ast/fact_batch.cpp is [FactHandles] (the identities: a
    cache in front of the class [IdentityStore], which [SpillIndex] implements) and
    [FactRecorder] (every operation, as a computation over the recorder's members);
    [RecorderLaws] states its invariant and what the batch of a recorder is.

    Extraction.  [OwnedHeaders] is ast/owned_header_plan.cpp: which unit extracts each
    owned header.  [PassPorts] holds the ports of ast/fact_emitters.hpp as records of
    computations and the budgeted ports of ast/pass_registry.cpp, which charge a
    pass's metrics; [PassRegistry] is the rest of that file, descriptors, plans and
    runs.  [Extraction] is ast/fact_extraction.cpp: it gives a run the recorder as its
    ports and returns the recorder's batch.

    Include hygiene, over the include tier of the database.  [IncludeStore] is
    storage/storage_include.cpp on [Tables], with the invalidation and the deletion
    of a file (storage/storage_files.cpp, storage/storage_repo.cpp).  The tier is
    written by [IncludeFacts], the persisting half of ast/include_facts.cpp, and by
    [IncludePublish], the statements of storage/fact_batch_writer.cpp that publish
    the includes of a batch; [IncludeReach] puts every writer into one step
    relation.  [IncludeGraph] and [IncludeCycles]
    are include_hygiene/graph.cpp.  [Analysis] is analysis.cpp, whose view of the
    symbol tables is the class [SymbolStore].  [Validator] is validator.cpp: the
    compilation of edited buffers, with Clang as an argument.  [Planner] is
    planner.cpp, which turns findings into a plan, [CleanupPlan] is plan.cpp, the
    plan as a JSON artifact, and [Executor] is executor.cpp, which applies it to a
    disk.  Findings flow from [Analysis] to [Planner], are proved by [Validator],
    travel as a [CleanupPlan] and reach the disk through [Executor].

    Diff.  [DiffConfig] is diff/target.cpp: the configuration delta.  [DiffSelect]
    is the Clang-free end of diff/analyze.cpp.  [DiffSyntax], [DiffMatch] and
    [DiffVerdict] are diff/compare.cpp: the edit script, the matching of entities
    and the verdicts.

    ** What the theorems show

    Safety of the cleanup: a removable directive is removable in every occurrence
    ([removable_sound], on the stores that [reachable_stores_sound] describes); the
    validator compiles every unit an edit may affect
    ([affected_exact]) on exactly the edited bytes ([removals_exact]); an accepted
    item was compiled out, alone and with the others ([accepted_proved]); and the
    disk changes only after every check, by the proved buffers
    ([writes_are_proved], [replacement_atomic], [proved_plan_applied]); an error can
    leave a temporary sibling under a new name, when [::unlink] fails as well
    ([temporary_left_behind]).

    Concurrency: every interleaving of the workers answers as the serial run does,
    and none is stuck ([claims_deterministic]); the parallel runner publishes in
    order ([published_in_order]) within its bounds ([buffer_bounded]) and comes to
    its end if every unit claims or releases ([gated_run_terminates]); a run with a
    unit that leaves early and stalls is [leaving_unit_stalls].

    The store: whatever the writers of the include tier do, it keeps its keys and
    references, and the count of an edge covers its sites
    ([reachable_stores_sound]); a publication replaces what it owns
    ([publish_exact]), a deletion removes what it should ([delete_exact]).

    Graph algorithms: the iterative Tarjan finds the cyclic components
    ([cycles_exact]), the searches are exact and shortest ([transitive_exact],
    [shortest_path_minimal]), the reverse walk misses no dependent
    ([plan_never_misses], [plan_affected_exact]), and validation of the
    transforms decides acyclicity ([validate_decides_cycles]).

    The cache: planning over published entries keeps no stale unit and trusts no
    dependency without a content hash ([cached_plan_never_misses]), which publishing
    sees to and the planner does not ([planner_ignores_hashes]); a hit gives back
    what was published ([lookup_published]).

    The diff: a verdict of equivalence has a one-to-one correspondence of equal
    entities behind it ([equivalent_sound]), a verdict of difference a row that
    names it ([different_exact]); the matching is exact, the alignment longest and
    the script complete up to its cap.

    Facts: equal stable strings come from equal identities
    ([stable_strings_exact]), equal handles from equal keys ([handles_exact]);
    whatever sequence of operations a recorder went through, its batch has the
    canonical layout ([recorder_batch_canonical]) and lossless identity maps
    ([recorder_identities_exact]), its records lie in the buckets of their identities
    ([recorder_buckets_exact]) and a mint owns its record ([mint_owns_record]);
    extraction turns a plan that [run_completes] admits into such a batch or names
    what failed ([extraction_exact], [run_report_exact]), a pass adds no more facts
    than its budget ([emission_budget_bounds]), and each header has one owner
    ([plan_exact]), whose route extraction accepts ([planned_route_valid]);
    an artifact is decoded to the batch it encodes ([artifact_round_trip]), nothing
    but an encoding is decoded ([decode_sound]), and one family is decoded as the
    whole is ([decode_family_agrees]).  The spilling stores refine a finite map and
    a list ([index_refines_map], [buffer_refines_list]) and accept whatever the
    limits have room for ([index_accepts], [buffer_accepts]).

    Encodings: what is printed is read back ([json_round_trip], [plan_round_trip]
    for plans whose texts are UTF-8, [label_round_trip]) and hashes are those of the whole
    input, whatever the pieces ([sha256_is_fold], [prefix_digest_exact]).

    ** Conventions and bounds

    A byte is an [ascii]; a string a list of bytes, so no bound on its length is
    modelled.  Integers are [Z] or [nat]; where the code relies on a width (the
    words of SHA-256, 64-bit counters and version numbers, JSON integers, budgets)
    the wrap-around or the range check is written out.  A throw is [Err] with the
    message.  Recursion that is not structural takes fuel, and a theorem shows the
    fuel given is enough: the number of nodes or edges for graph searches, the
    length of the text for the JSON reader, the depth of an entity for the
    verdicts, the sum of the two lengths for the walk over an alignment table.  The
    attempts of [identity_handle] have no bound in the code: a theorem about it holds
    for every number of them, and more attempts give the same handle
    ([handle_loop_enough]).
    [std::set] and [std::map] iterate in key order, as sorted lists.

    ** Not modelled

    A pass is a visitor over the Clang AST: [Extraction] takes any that touch the
    recorder through their ports ([port_pass]).  The global list of pass providers is
    left out.  The directory of a spilling store is a map from names to contents that does not
    fail, and the state that a recorder or a store is left in by an exception is not
    modelled.  The count of a relation is an unbounded integer, since its overflow is
    undefined.  Clang, clang-format, the SQLite engine, Souffle and the operating
    system are not code of the repository: a theorem that depends on one takes it as
    an argument, with what the code relies on as a hypothesis.  The file system of
    [Executor] answers each system call, short writes and interruptions included;
    an endless stream of interruptions is not represented, nor are owner, mode and
    extended attributes.  The Clang visitors (ast/, extract/, most of
    diff/analyze.cpp), the SQL of the symbol and edge tables (most of storage/),
    query execution, the printers of cli/, graph/ and ui/ and the processes of
    application/ are outside the library.  Clocks and log lines are left out. *)

From stdpp Require Export prelude gmap sorting strings list.
From Stdlib Require Export Ascii.

(** ** Errors

    The C++ code reports expected failures by throwing [CidxError] (or
    [std::invalid_argument]) with a message; a computation that may throw is a
    value of [result], whose error carries the message bytes. *)

Inductive result (A : Type) : Type :=
| Ok (a : A)
| Err (msg : list ascii).
Arguments Ok {A} _.
Arguments Err {A} _.

Definition rbind {A B} (m : result A) (k : A → result B) : result B :=
  match m with
  | Ok a => k a
  | Err e => Err e
  end.

Definition is_ok {A} (m : result A) : bool :=
  match m with Ok _ => true | Err _ => false end.

Declare Scope cidx_scope.
Delimit Scope cidx_scope with cidx.
Notation "'let!' x ':=' m 'in' k" := (rbind m (λ x, k))
  (at level 200, x pattern, m at level 100, k at level 200, right associativity) : cidx_scope.
Notation "'throw' e" := (Err e) (at level 10, e at level 9) : cidx_scope.
Open Scope cidx_scope.

(** [if (b) throw std::invalid_argument(msg)]. *)
Definition throw_if (b : bool) (msg : list ascii) : result unit :=
  if b then Err msg else Ok tt.

(** ** Tactics *)

(** Splits every boolean conjunction, disjunction and test of the context. *)
Ltac bool_split :=
  repeat match goal with
  | H : (_ && _)%bool = true |- _ => apply andb_true_iff in H as [? ?]
  | H : (_ && _)%bool = false |- _ => apply andb_false_iff in H
  | H : (_ || _)%bool = true |- _ => apply orb_true_iff in H
  | H : (_ || _)%bool = false |- _ => apply orb_false_iff in H as [? ?]
  | H : negb _ = true |- _ => apply negb_true_iff in H
  | H : negb _ = false |- _ => apply negb_false_iff in H
  | H : bool_decide _ = true |- _ => apply bool_decide_eq_true in H
  | H : bool_decide _ = false |- _ => apply bool_decide_eq_false in H
  end.

(** Case analysis on the scrutinee of the first [match] of the goal, keeping
    its equation. *)
Ltac case_on :=
  match goal with
  | |- context [match ?x with _ => _ end] =>
      lazymatch x with
      | context [match _ with _ => _ end] => fail
      | _ => let E := fresh "E" in destruct x eqn:E
      end
  end.

Ltac case_on_hyp H :=
  match type of H with
  | context [match ?x with _ => _ end] =>
      lazymatch x with
      | context [match _ with _ => _ end] => fail
      | _ => let E := fresh "E" in destruct x eqn:E
      end
  end.

(** Inversion of a successful sequence of [result] computations. *)
Ltac ok_inv :=
  repeat match goal with
  | H : rbind ?m _ = Ok _ |- _ =>
      let E := fresh "E" in destruct m eqn:E; [cbn [rbind] in H | discriminate H]
  | H : throw_if ?b _ = Ok _ |- _ =>
      let E := fresh "E" in destruct b eqn:E; [discriminate H|clear H]
  | H : Ok _ = Ok _ |- _ => injection H as H; try subst
  | H : Err _ = Ok _ |- _ => discriminate H
  end.

(** A closed decidable goal, by computation. *)
Ltac decided := refine (bool_decide_eq_true_1 _ _); vm_compute; reflexivity.

(** Concatenations to the right-nested form. *)
Ltac app_norm :=
  repeat first [rewrite <-app_assoc | rewrite <-app_comm_cons | rewrite app_nil_r | rewrite app_nil_l].

(** The length of a concatenation. *)
Ltac len_app := repeat first [rewrite length_app | rewrite length_cons].

(** ** Lists *)

Section lists.
Context {A : Type}.
Implicit Types (l : list A).

(** [list_prefix_while p l] is the longest prefix whose elements satisfy [p]. *)
Fixpoint take_while (p : A → bool) l : list A :=
  match l with
  | [] => []
  | x :: l' => if p x then x :: take_while p l' else []
  end.

Fixpoint drop_while (p : A → bool) l : list A :=
  match l with
  | [] => []
  | x :: l' => if p x then drop_while p l' else l
  end.

Lemma take_drop_while p l : take_while p l ++ drop_while p l = l.
Proof. induction l as [|x l IH]; simpl; [done|]. destruct (p x); [|done]. by rewrite <-app_comm_cons, IH. Qed.

Lemma Forall_take_while p l : Forall (λ x, p x = true) (take_while p l).
Proof. induction l as [|x l IH]; simpl; [constructor|]. destruct (p x) eqn:?; eauto. Qed.

Lemma length_take_while p l : length (take_while p l) ≤ length l.
Proof. rewrite <-(take_drop_while p l) at 2. rewrite length_app. lia. Qed.

Lemma drop_while_head p l x l' : drop_while p l = x :: l' → p x = false.
Proof. induction l as [|y l IH]; simpl; [done|]. destruct (p y) eqn:?; [done|]. congruence. Qed.

Lemma drop_while_id p l : Forall (λ x, p x = false) l → drop_while p l = l.
Proof. by destruct 1 as [|x l Hx _]; simpl; [|rewrite Hx]. Qed.

Lemma drop_while_all p l : Forall (λ x, p x = true) l → drop_while p l = [].
Proof. induction 1 as [|x l Hx _ IH]; simpl; [done|]. by rewrite Hx. Qed.

Lemma drop_while_app p l1 l2 :
  Forall (λ x, p x = true) l1 → drop_while p (l1 ++ l2) = drop_while p l2.
Proof. induction 1 as [|x l Hx _ IH]; simpl; [done|]. by rewrite Hx. Qed.

Lemma StronglySorted_impl_elem (R R' : relation A) l :
  (∀ x y, x ∈ l → y ∈ l → R x y → R' x y) → StronglySorted R l → StronglySorted R' l.
Proof.
  intros HR Hs. induction Hs as [|x l _ IH Hf]; constructor.
  - apply IH. intros y z ??. apply HR; by right.
  - apply Forall_forall. intros y Hy. apply HR; [by left|by right|].
    by eapply Forall_forall in Hf.
Qed.

Lemma removelast_snoc l x : removelast (l ++ [x]) = l.
Proof. apply removelast_last. Qed.

Lemma Forall_app_l (P : A → Prop) l1 l2 : Forall P (l1 ++ l2) → Forall P l1.
Proof. by intros [? _]%Forall_app. Qed.

Lemma filter_all (P : A → Prop) `{∀ x, Decision (P x)} l : Forall P l → filter P l = l.
Proof. induction 1; [done|]. rewrite filter_cons_True by done. congruence. Qed.

Lemma snoc_cases l : l = [] ∨ ∃ l' x, l = l' ++ [x].
Proof. destruct l as [|x l'] using rev_ind; eauto. Qed.

(** Adjacent duplicates removed, as [std::ranges::unique] does. *)
Fixpoint unique `{EqDecision A} l : list A :=
  match l with
  | x :: (y :: _) as l' => if decide (x = y) then unique l' else x :: unique l'
  | _ => l
  end.
End lists.

#[export] Hint Rewrite @removelast_snoc @last_snoc @take_drop_while : cidx_list.

Lemma NoDup_fmap_inj {A B} (f : A → B) (l : list A) x y :
  NoDup (f <$> l) → x ∈ l → y ∈ l → f x = f y → x = y.
Proof.
  induction l as [|a l IH]; [by intros _ ?%elem_of_nil|]. rewrite fmap_cons.
  intros [Hn Hd]%NoDup_cons [->|Hx]%elem_of_cons [->|Hy]%elem_of_cons E; [done| | |by apply IH];
    destruct Hn; [rewrite E|rewrite <- E]; by apply list_elem_of_fmap_2.
Qed.

Lemma filter_none {A} (P : A → Prop) `{!∀ x, Decision (P x)} (l : list A) : Forall (λ x, ¬ P x) l → filter P l = [].
Proof. induction 1; [done|]. by rewrite filter_cons_False. Qed.

(** [std::unique] with equality of a key: the first of every run stays. *)
Fixpoint unique_by {A K} `{EqDecision K} (key : A → K) (l : list A) : list A :=
  match l with
  | [] => []
  | x :: l =>
      match unique_by key l with
      | y :: t => if decide (key x = key y) then x :: t else x :: y :: t
      | [] => [x]
      end
  end.

(** ** Orders

    A C++ strict order [a < b] as a boolean function.  [LtbOrder] is what
    [std::sort], [std::set] and [std::map] rely on (a strict weak order), with
    equivalent elements equal, so that a sorted range is determined by its
    elements. *)

Class LtbOrder {A} (ltb : A → A → bool) : Prop := {
  ltb_irrefl a : ltb a a = false;
  ltb_trans a b c : ltb a b = true → ltb b c = true → ltb a c = true;
  ltb_total a b : ltb a b = false → ltb b a = false → a = b
}.

Definition ltb_le {A} (ltb : A → A → bool) (a b : A) : Prop := ltb b a = false.

#[export] Instance ltb_le_dec {A} (ltb : A → A → bool) : RelDecision (ltb_le ltb).
Proof. intros a b. unfold ltb_le. apply _. Defined.

(** [std::ranges::sort]. *)
Definition sort {A} (ltb : A → A → bool) : list A → list A := merge_sort (ltb_le ltb).

(** [std::ranges::sort] followed by erasing [std::ranges::unique]; also the
    elements of a [std::set] in iteration order. *)
Definition sort_unique {A} `{EqDecision A} (ltb : A → A → bool) (l : list A) : list A :=
  unique (sort ltb l).

Section order.
Context {A : Type} (ltb : A → A → bool) `{!LtbOrder ltb}.
Implicit Types (x : A) (l : list A).

Lemma ltb_asym a b : ltb a b = true → ltb b a = false.
Proof.
  intros Hab. destruct (ltb b a) eqn:Hba; [|done].
  by rewrite <-(ltb_irrefl a), (ltb_trans _ _ _ Hab Hba).
Qed.

#[export] Instance ltb_le_trans : Transitive (ltb_le ltb).
Proof.
  unfold ltb_le. intros s t u Hst Htu. destruct (ltb u s) eqn:E; [|done].
  destruct (ltb t u) eqn:E2.
  - by rewrite (ltb_trans _ _ _ E2 E) in Hst.
  - by rewrite (ltb_total _ _ E2 Htu) in Hst; rewrite Hst in E.
Qed.

#[export] Instance ltb_le_antisymm : AntiSymm (=) (ltb_le ltb).
Proof. unfold ltb_le. intros s t ??. by apply ltb_total. Qed.

#[export] Instance ltb_le_total : Total (ltb_le ltb).
Proof.
  unfold ltb_le. intros s t. destruct (ltb t s) eqn:E; [|by left]. right. by apply ltb_asym.
Qed.

#[export] Instance ltb_le_refl : Reflexive (ltb_le ltb).
Proof. intros s. apply ltb_irrefl. Qed.

Lemma ltb_le_iff a b : ltb_le ltb a b ↔ ltb a b = true ∨ a = b.
Proof.
  unfold ltb_le. split.
  - intros H. destruct (ltb a b) eqn:E; [by left|]. right. by apply ltb_total.
  - intros [?| ->]; [by apply ltb_asym|apply ltb_irrefl].
Qed.

Lemma sort_perm l : sort ltb l ≡ₚ l.
Proof. apply merge_sort_Permutation. Qed.

Lemma sort_sorted l : StronglySorted (ltb_le ltb) (sort ltb l).
Proof. apply StronglySorted_merge_sort; apply _. Qed.

Lemma elem_of_sort x l : x ∈ sort ltb l ↔ x ∈ l.
Proof. by rewrite sort_perm. Qed.

(** Sorting depends on the elements only, not on their order. *)
Lemma sort_proper l l' : l ≡ₚ l' → sort ltb l = sort ltb l'.
Proof.
  intros Hp. apply (StronglySorted_unique (ltb_le ltb)); [apply sort_sorted..|].
  by rewrite !sort_perm.
Qed.

Lemma sort_id l : StronglySorted (ltb_le ltb) l → sort ltb l = l.
Proof.
  intros Hs. apply (StronglySorted_unique (ltb_le ltb)); [apply sort_sorted|done|apply sort_perm].
Qed.

Context `{EqDecision A}.

Lemma elem_of_unique x l : x ∈ unique l ↔ x ∈ l.
Proof.
  induction l as [|a [|b l] IH]; [done|done|]. simpl unique.
  case_decide as Hab.
  - rewrite IH. subst. rewrite !elem_of_cons. tauto.
  - rewrite (elem_of_cons _ x a), IH, (elem_of_cons (b :: l)). tauto.
Qed.

Lemma unique_strict l :
  StronglySorted (ltb_le ltb) l → StronglySorted (λ a b, ltb a b = true) (unique l).
Proof.
  induction l as [|a [|b l] IH]; intros Hs; [constructor|repeat constructor|].
  apply StronglySorted_inv in Hs as [Hs Hf].
  specialize (IH Hs). change (unique (a :: b :: l)) with
    (if decide (a = b) then unique (b :: l) else a :: unique (b :: l)).
  case_decide as Hab; [done|].
  constructor; [done|]. apply Forall_forall. intros x Hx. rewrite elem_of_unique in Hx.
  inversion Hf as [|? ? Hab' _]; subst. apply ltb_le_iff in Hab' as [Hab'|]; [|done].
  apply elem_of_cons in Hx as [->|Hx]; [done|].
  apply StronglySorted_inv in Hs as [_ Hf']. eapply Forall_forall in Hf'; [|done].
  apply ltb_le_iff in Hf' as [|<-]; [by eapply ltb_trans|done].
Qed.

Lemma strict_NoDup l : StronglySorted (λ a b, ltb a b = true) l → NoDup l.
Proof.
  induction 1 as [|a l _ IH Hf]; constructor; [|done].
  intros Ha. eapply Forall_forall in Hf; [|done]. by rewrite ltb_irrefl in Hf.
Qed.

Lemma sorted_strict l :
  StronglySorted (ltb_le ltb) l → NoDup l → StronglySorted (λ a b, ltb a b = true) l.
Proof.
  induction 1 as [|a l _ IH Hf]; [constructor|]. intros [Ha Hnd]%NoDup_cons.
  constructor; [by apply IH|]. apply Forall_forall. intros b Hb.
  eapply Forall_forall in Hf; [|exact Hb]. apply ltb_le_iff in Hf as [?|<-]; done.
Qed.

Lemma strict_sorted l :
  StronglySorted (λ a b, ltb a b = true) l → StronglySorted (ltb_le ltb) l.
Proof.
  induction 1 as [|a l _ IH Hf]; constructor; [done|].
  eapply Forall_impl; [done|]. intros b Hb. by apply ltb_asym.
Qed.

Lemma elem_of_sort_unique x l : x ∈ sort_unique ltb l ↔ x ∈ l.
Proof. unfold sort_unique. by rewrite elem_of_unique, elem_of_sort. Qed.

Lemma sort_unique_strict l : StronglySorted (λ a b, ltb a b = true) (sort_unique ltb l).
Proof. apply unique_strict, sort_sorted. Qed.

Lemma NoDup_sort_unique l : NoDup (sort_unique ltb l).
Proof. apply strict_NoDup, sort_unique_strict. Qed.

(** A [std::set] is determined by its elements. *)
Lemma strict_unique l l' :
  StronglySorted (λ a b, ltb a b = true) l → StronglySorted (λ a b, ltb a b = true) l' →
  (∀ x, x ∈ l ↔ x ∈ l') → l = l'.
Proof.
  intros Hl Hl' Heq. apply (StronglySorted_unique (ltb_le ltb)); [by apply strict_sorted..|].
  apply NoDup_Permutation; [by apply strict_NoDup..|done].
Qed.

Lemma sort_unique_proper l l' :
  (∀ x, x ∈ l ↔ x ∈ l') → sort_unique ltb l = sort_unique ltb l'.
Proof.
  intros Heq. apply strict_unique; [apply sort_unique_strict..|].
  intros x. by rewrite !elem_of_sort_unique.
Qed.

Lemma sort_unique_id l :
  StronglySorted (λ a b, ltb a b = true) l → sort_unique ltb l = l.
Proof.
  intros Hl. apply strict_unique; [apply sort_unique_strict|done|].
  intros x. apply elem_of_sort_unique.
Qed.

(** An order pulled back along an injective key. *)
Lemma key_order {B} (key : B → A) `{!Inj (=) (=) key} : LtbOrder (λ a b, ltb (key a) (key b)).
Proof.
  split.
  - intros. apply ltb_irrefl.
  - intros a b c. apply ltb_trans.
  - intros a b ??. apply (inj key). by apply ltb_total.
Qed.

(** The lexicographic order of [std::vector::operator<] and [std::tie]. *)
Fixpoint lex_ltb (s t : list A) : bool :=
  match s, t with
  | [], [] => false
  | [], _ :: _ => true
  | _ :: _, [] => false
  | a :: s', b :: t' => if ltb a b then true else if ltb b a then false else lex_ltb s' t'
  end.

Lemma lex_ltb_cons a b s t :
  lex_ltb (a :: s) (b :: t) = true ↔ ltb a b = true ∨ a = b ∧ lex_ltb s t = true.
Proof.
  simpl. destruct (ltb a b) eqn:E1; [naive_solver|].
  destruct (ltb b a) eqn:E2.
  - split; [done|]. intros [?|[-> _]]; [done|]. by rewrite ltb_irrefl in E2.
  - rewrite (ltb_total _ _ E1 E2). naive_solver.
Qed.

#[export] Instance lex_order : LtbOrder lex_ltb.
Proof.
  split.
  - intros s. induction s as [|a s IH]; simpl; [done|]. by rewrite ltb_irrefl.
  - intros s. induction s as [|a s IH]; intros [|b t] [|c u]; try done.
    rewrite !lex_ltb_cons. intros [?|[-> ?]] [?|[-> ?]];
      [left; by eapply ltb_trans|by left|by left|right; eauto].
  - intros s. induction s as [|a s IH]; intros [|b t]; try done.
    rewrite <-!not_true_iff_false, !lex_ltb_cons. intros H1 H2.
    assert (a = b) as -> by (apply ltb_total; apply not_true_iff_false; naive_solver).
    f_equal. apply IH; apply not_true_iff_false; naive_solver.
Qed.

(** [std::ranges::set_difference] of two sorted ranges. *)
Fixpoint set_difference (s : list A) : list A → list A :=
  fix go (t : list A) : list A :=
    match s, t with
    | [], _ => []
    | _, [] => s
    | a :: s', b :: t' =>
        if ltb a b then a :: set_difference s' t
        else if ltb b a then go t'
        else set_difference s' t'
    end.

Lemma set_difference_nil_r s : set_difference s [] = s.
Proof. by destruct s. Qed.

Lemma set_difference_nil_l t : set_difference [] t = [].
Proof. by destruct t. Qed.

Lemma set_difference_cons a s b t :
  set_difference (a :: s) (b :: t) =
  if ltb a b then a :: set_difference s (b :: t)
  else if ltb b a then set_difference (a :: s) t
  else set_difference s t.
Proof. done. Qed.

(** The two differences of sorted ranges split them into a shared part and
    parts without a common element: the multiset differences. *)
Lemma set_difference_split s t :
  StronglySorted (ltb_le ltb) s → StronglySorted (ltb_le ltb) t →
  (∃ common, s ≡ₚ set_difference s t ++ common ∧ t ≡ₚ set_difference t s ++ common)
  ∧ (∀ x, x ∈ set_difference s t → x ∉ set_difference t s).
Proof.
  revert t. induction s as [|a s IHs].
  { intros t _ _. rewrite set_difference_nil_r, set_difference_nil_l.
    split; [exists []; by rewrite !app_nil_r|]. by intros x ?%not_elem_of_nil. }
  intros t Hs. induction t as [|b t IHt]; intros Ht.
  { rewrite set_difference_nil_r, set_difference_nil_l.
    split; [exists []; by rewrite !app_nil_r|]. intros x _. apply not_elem_of_nil. }
  apply StronglySorted_inv in Hs as Hs'. destruct Hs' as [Hs' Has].
  apply StronglySorted_inv in Ht as Ht'. destruct Ht' as [Ht' Hbt].
  rewrite !set_difference_cons. destruct (ltb a b) eqn:Eab.
  - rewrite (ltb_asym _ _ Eab). destruct (IHs (b :: t)) as [(c & Hc1 & Hc2) Hd]; [done..|].
    split; [exists c; split; [by rewrite <-app_comm_cons, <-Hc1|done]|].
    intros x [->|Hx]%elem_of_cons; [|by apply Hd]. intros Ha.
    assert (a ∈ b :: t) as Ha' by (rewrite Hc2; apply elem_of_app; by left).
    apply elem_of_cons in Ha' as [->|Ha']; [by rewrite ltb_irrefl in Eab|].
    eapply Forall_forall in Hbt; [|exact Ha']. unfold ltb_le in Hbt. congruence.
  - destruct (ltb b a) eqn:Eba.
    + destruct IHt as [(c & Hc1 & Hc2) Hd]; [done|]. split.
      { exists c. split; [done|]. by rewrite <-app_comm_cons, <-Hc2. }
      intros x Hx [->|Hx']%elem_of_cons; [|by apply (Hd x)].
      assert (b ∈ a :: s) as Hb by (rewrite Hc1; apply elem_of_app; by left).
      apply elem_of_cons in Hb as [->|Hb]; [by rewrite ltb_irrefl in Eba|].
      eapply Forall_forall in Has; [|exact Hb]. unfold ltb_le in Has. congruence.
    + rewrite (ltb_total _ _ Eab Eba). destruct (IHs t) as [(c & Hc1 & Hc2) Hd]; [done..|].
      split; [|done]. exists (b :: c). split.
      * by rewrite <-Permutation_middle, <-Hc1.
      * by rewrite <-Permutation_middle, <-Hc2.
Qed.

(** Two unsorted ranges with no difference hold the same elements. *)
Lemma set_difference_nil s t :
  set_difference (sort ltb s) (sort ltb t) = [] → set_difference (sort ltb t) (sort ltb s) = [] →
  s ≡ₚ t.
Proof.
  intros H1 H2. destruct (set_difference_split (sort ltb s) (sort ltb t)) as [(c & Hc1 & Hc2) _];
    [apply sort_sorted..|].
  rewrite H1 in Hc1. rewrite H2 in Hc2. simpl in *.
  by rewrite <-(sort_perm s), <-(sort_perm t), Hc1, Hc2.
Qed.

Lemma set_difference_self s : set_difference s s = [].
Proof. induction s as [|a s IH]; [done|]. by rewrite set_difference_cons, ltb_irrefl. Qed.
End order.

(** *** Runs of equal keys *)

Lemma elem_of_unique_by {A K} `{EqDecision K} (key : A → K) (l : list A) x :
  x ∈ unique_by key l → x ∈ l.
Proof.
  revert x. induction l as [|a l IH]; intros x; simpl; [done|].
  destruct (unique_by key l) as [|y t] eqn:E; [by intros ->%list_elem_of_singleton; left|].
  case_decide; rewrite !elem_of_cons; intros Hx; [|naive_solver set_solver].
  destruct Hx as [->|Hx]; [by left|right]. apply IH. by right.
Qed.

Lemma unique_by_key {A K} `{EqDecision K} (key : A → K) (l : list A) x :
  x ∈ l → ∃ y, y ∈ unique_by key l ∧ key y = key x.
Proof.
  induction l as [|a l IH]; simpl; [by intros ?%elem_of_nil|].
  intros Hx. assert (∃ y, (y = a ∨ y ∈ unique_by key l) ∧ key y = key x) as (y & Hy & Hk).
  { apply elem_of_cons in Hx as [->|Hx]; [by exists a; split; [left|]|].
    destruct (IH Hx) as (y & ? & ?). exists y. auto. }
  destruct (unique_by key l) as [|z t]; [exists a; set_solver|]. case_decide as Hz.
  - destruct Hy as [->|[->|Hy]%elem_of_cons]; [exists a; set_solver|exists a|exists y; set_solver].
    split; [by left|congruence].
  - exists y. set_solver.
Qed.

Lemma unique_by_strict {A K} `{EqDecision K} (key : A → K) (ltb : K → K → bool) `{!LtbOrder ltb} l :
  StronglySorted (λ a b, ltb (key b) (key a) = false) l →
  StronglySorted (λ a b, ltb (key a) (key b) = true) (unique_by key l).
Proof.
  induction 1 as [|a l _ IH Hf]; simpl; [constructor|].
  destruct (unique_by key l) as [|y t] eqn:E; [repeat constructor|].
  apply StronglySorted_inv in IH as [Ht Hy]. case_decide as Hk.
  - constructor; [done|]. eapply Forall_impl; [exact Hy|]. simpl. intros z. by rewrite Hk.
  - assert (ltb (key a) (key y) = true) as Hay.
    { assert (y ∈ l) as Hin by (apply (elem_of_unique_by key); rewrite E; by left).
      rewrite Forall_forall in Hf. destruct (ltb (key a) (key y)) eqn:Hlt; [done|].
      destruct Hk. by apply ltb_total; [|apply Hf]. }
    constructor; [by constructor|]. constructor; [done|]. eapply Forall_impl; [exact Hy|].
    simpl. intros z Hz. by eapply ltb_trans.
Qed.

(** *** Lists sorted by a key *)

Section by_key.
Context {A K : Type} (key : A → K) (ltb : K → K → bool) `{!LtbOrder ltb}.

Definition key_lt (a b : A) : Prop := ltb (key a) (key b) = true.

Lemma strict_keys l : StronglySorted key_lt l ↔ StronglySorted (λ a b, ltb a b = true) (key <$> l).
Proof.
  induction l as [|a l IH]; [by split; constructor|]. cbn. rewrite !StronglySorted_cons, IH.
  by rewrite Forall_fmap.
Qed.

Lemma merge_sort_keys (R : relation A) `{!RelDecision R} l :
  (∀ a b, R a b ↔ ltb (key b) (key a) = false) → NoDup (key <$> l) →
  StronglySorted key_lt (merge_sort R l).
Proof.
  intros HR Hnd. assert (StronglySorted R (merge_sort R l)) as Hs.
  { apply StronglySorted_merge_sort.
    - intros a b c. rewrite !HR. apply (ltb_le_trans ltb).
    - intros a b. rewrite !HR. apply (ltb_le_total ltb). }
  rewrite <-(merge_sort_Permutation R l) in Hnd.
  induction Hs as [|a l' _ IH Ha]; constructor; [apply IH; by apply NoDup_cons in Hnd as [_ ?]|].
  apply NoDup_cons in Hnd as [Hn _]. rewrite Forall_forall in Ha |- *. intros b Hb.
  unfold key_lt. destruct (ltb (key a) (key b)) eqn:E; [done|]. destruct Hn.
  apply list_elem_of_fmap. exists b. split; [|done]. apply (ltb_total (ltb := ltb)); [done|].
  by apply HR, Ha.
Qed.

Lemma strict_keys_unique l l' :
  StronglySorted key_lt l → StronglySorted key_lt l' → l ≡ₚ l' → l = l'.
Proof.
  intros Hl Hl'. apply (StronglySorted_unique_strong key_lt); [|done..].
  intros a b _ _ Hab Hba. unfold key_lt in *. apply (ltb_asym ltb) in Hab. congruence.
Qed.
End by_key.

(** The elements of a [std::map] in iteration order. *)
Section sorted_entries.
Context `{Countable K} {V : Type} (ltb : K → K → bool).
Implicit Types (m : gmap K V) (l : list (K * V)).

Definition entry_le (a b : K * V) : Prop := ltb b.1 a.1 = false.
#[export] Instance entry_le_dec : RelDecision entry_le.
Proof. intros a b. unfold entry_le. apply _. Defined.

Definition sorted_entries m : list (K * V) := merge_sort entry_le (map_to_list m).

Lemma sorted_entries_perm m : sorted_entries m ≡ₚ map_to_list m.
Proof. apply merge_sort_Permutation. Qed.

Lemma sorted_entries_length m : length (sorted_entries m) = size m.
Proof. rewrite (Permutation_length (sorted_entries_perm m)). apply length_map_to_list. Qed.

Lemma elem_of_sorted_entries m k v : (k, v) ∈ sorted_entries m ↔ m !! k = Some v.
Proof. by rewrite sorted_entries_perm, elem_of_map_to_list. Qed.

Lemma map_of_sorted_entries m : list_to_map (sorted_entries m) = m.
Proof.
  rewrite <-(list_to_map_to_list m) at 2. apply list_to_map_proper; [|apply sorted_entries_perm].
  rewrite sorted_entries_perm. apply NoDup_fst_map_to_list.
Qed.

Context `{!LtbOrder ltb}.

Lemma sorted_entries_strict m : StronglySorted (key_lt fst ltb) (sorted_entries m).
Proof. apply (merge_sort_keys fst ltb); [done|]. apply NoDup_fst_map_to_list. Qed.

Lemma sorted_entries_of_list l :
  StronglySorted (key_lt fst ltb) l → sorted_entries (list_to_map l) = l.
Proof.
  intros Hl. apply (strict_keys_unique fst ltb); [apply sorted_entries_strict|done|].
  rewrite sorted_entries_perm. apply map_to_list_to_map.
  apply (strict_NoDup ltb). exact (proj1 (strict_keys fst ltb l) Hl).
Qed.
End sorted_entries.

(** ** Composed orders

    [std::pair::operator<], [std::optional::operator<] (an empty optional comes
    first) and the defaulted comparison of a structure, member by member. *)

Definition pair_ltb {A B} (la : A → A → bool) (lb : B → B → bool) (x y : A * B) : bool :=
  if la x.1 y.1 then true else if la y.1 x.1 then false else lb x.2 y.2.

Definition option_ltb {A} (la : A → A → bool) (x y : option A) : bool :=
  match x, y with
  | None, Some _ => true
  | Some a, Some b => la a b
  | _, None => false
  end.

#[export] Instance pair_order {A B} (la : A → A → bool) (lb : B → B → bool) :
  LtbOrder la → LtbOrder lb → LtbOrder (pair_ltb la lb).
Proof.
  intros Ha Hb. unfold pair_ltb. split.
  - intros [a b]. simpl. by rewrite !ltb_irrefl.
  - intros [a1 b1] [a2 b2] [a3 b3]. simpl. intros H12 H23.
    destruct (la a1 a2) eqn:E12; [|destruct (la a2 a1) eqn:E21; [done|]].
    + destruct (la a2 a3) eqn:E23; [by rewrite (ltb_trans _ _ _ E12 E23)|].
      destruct (la a3 a2) eqn:E32; [done|]. rewrite <-(ltb_total _ _ E23 E32). by rewrite E12.
    + rewrite (ltb_total _ _ E12 E21). destruct (la a2 a3); [done|]. destruct (la a3 a2); [done|].
      by eapply ltb_trans.
  - intros [a1 b1] [a2 b2]. simpl. intros H1 H2.
    destruct (la a1 a2) eqn:E12; [done|]. destruct (la a2 a1) eqn:E21; [done|].
    f_equal; [by apply ltb_total|by apply ltb_total].
Qed.

#[export] Instance option_order {A} (la : A → A → bool) : LtbOrder la → LtbOrder (option_ltb la).
Proof.
  intros Ha. split.
  - intros [a|]; [apply (ltb_irrefl (ltb := la))|done].
  - intros [a|] [b|] [c|]; try done. apply (ltb_trans (ltb := la)).
  - intros [a|] [b|]; try done. simpl. intros. f_equal. by apply (ltb_total (ltb := la)).
Qed.

#[export] Instance N_order : LtbOrder N.ltb.
Proof.
  split.
  - apply N.ltb_irrefl.
  - intros a b c. rewrite !N.ltb_lt. lia.
  - intros a b. rewrite !N.ltb_ge. lia.
Qed.

#[export] Instance Z_order : LtbOrder Z.ltb.
Proof.
  split.
  - apply Z.ltb_irrefl.
  - intros a b c. rewrite !Z.ltb_lt. lia.
  - intros a b. rewrite !Z.ltb_ge. lia.
Qed.


(** ** Fallible loops *)

Section results.
Context {A B : Type}.

Fixpoint mapR (f : A → result B) (l : list A) : result (list B) :=
  match l with
  | [] => Ok []
  | a :: l => let! b := f a in let! bs := mapR f l in Ok (b :: bs)
  end.

(** A loop over [l] whose body may throw. *)
Fixpoint foldR (f : B → A → result B) (b : B) (l : list A) : result B :=
  match l with
  | [] => Ok b
  | a :: l => let! b' := f b a in foldR f b' l
  end.

(** An invariant of a loop that ends, with the elements already seen. *)
Lemma foldR_inv (f : B → A → result B) (I : list A → B → Prop) l b b' :
  (∀ pre a b b', I pre b → f b a = Ok b' → a ∈ l → I (pre ++ [a]) b') →
  I [] b → foldR f b l = Ok b' → I l b'.
Proof.
  intros Hf Hb. assert (∀ pre rest b, l = pre ++ rest → I pre b → foldR f b rest = Ok b' → I l b')
    as Hgo; [|by apply (Hgo [] l b)].
  clear b Hb. intros pre rest. revert pre. induction rest as [|a rest IH]; intros pre b Hl Hb; simpl.
  - intros [= <-]. by rewrite Hl, app_nil_r.
  - destruct (f b a) as [b1|] eqn:E; [|done]. simpl. apply (IH (pre ++ [a])).
    + by rewrite <-app_assoc.
    + eapply Hf; [done|done|]. rewrite Hl. apply elem_of_app. right. by left.
Qed.

(** Every element's body ran without throwing. *)
Lemma foldR_each (f : B → A → result B) l b b' a :
  foldR f b l = Ok b' → a ∈ l → ∃ b1 b2, f b1 a = Ok b2.
Proof.
  revert b. induction l as [|x l IH]; intros b; simpl; [by intros _ ?%elem_of_nil|].
  destruct (f b x) as [b1|] eqn:E; [|done]. simpl. intros Hl [->|Ha]%elem_of_cons; eauto.
Qed.

Lemma mapR_ok (f : A → result B) (g : A → B) l :
  (∀ a, a ∈ l → f a = Ok (g a)) → mapR f l = Ok (g <$> l).
Proof.
  induction l as [|a l IH]; intros Hf; simpl; [done|].
  rewrite Hf by by left. simpl. by rewrite IH by (intros; apply Hf; by right).
Qed.
Lemma mapR_Forall2 (f : A → result B) l l' :
  mapR f l = Ok l' → Forall2 (λ a b, f a = Ok b) l l'.
Proof.
  revert l'. induction l as [|a l IH]; intros l' H; cbn [mapR] in H; ok_inv; [constructor|].
  constructor; [done|]. by apply IH.
Qed.
End results.

Lemma Forall2_elem {A B} (P Q : A → B → Prop) l k :
  Forall2 P l k → (∀ x y, x ∈ l → P x y → Q x y) → Forall2 Q l k.
Proof.
  induction 1 as [|x y l k Hxy _ IH]; intros HQ; constructor.
  - apply HQ; [by left|done].
  - apply IH. intros a b Ha. apply HQ. by right.
Qed.

Lemma rbind_Ok {A B} (m : result A) (k : A → result B) b :
  rbind m k = Ok b → ∃ a, m = Ok a ∧ k a = Ok b.
Proof. destruct m; [eauto|done]. Qed.

(** Invariant of a loop that counts down from [n] to [0]. *)
Lemma foldr_seq_down {A} (P : nat → A → Prop) (f : nat → A → A) a n :
  P n a → (∀ i x, (i < n)%nat → P (S i) x → P i (f i x)) → P 0%nat (foldr f a (seq 0 n)).
Proof.
  intros Ha Hf. assert (∀ k c, (k + c = n)%nat → P k (foldr f a (seq k c))) as Hgo;
    [|by apply (Hgo 0%nat n)].
  intros k c. revert k. induction c as [|c IH]; intros k Hk; simpl.
  - by replace k with n by lia.
  - apply Hf; [lia|]. apply IH. lia.
Qed.
