(* ===== verification/Bytes.v ===== *)
(** * Byte strings

    [std::string] as a list of bytes ([ascii]), with the order of
    [std::string::operator<] (lexicographic on unsigned bytes), the search and
    prefix functions the source uses, and their laws. *)

From S2P Require Export Prelude.
From Stdlib Require Strings.String DecimalString DecimalZ.

Abbreviation bytes := (list ascii).

(** A string literal of the source. *)
Definition bs (s : string) : bytes := Stdlib.Strings.String.list_ascii_of_string s.

(** [std::to_string] of an integer. *)
Definition to_string (z : Z) : bytes := bs (DecimalString.NilZero.string_of_int (Z.to_int z)).

Example to_string_sample : to_string (-120) = bs "-120" ∧ to_string 0 = bs "0".
Proof. done. Qed.

(** *** Decimal digits *)

Lemma string_of_uint_chars d x :
  x ∈ bs (DecimalString.NilEmpty.string_of_uint d) → (48 ≤ N_of_ascii x ≤ 57)%N.
Proof.
  unfold bs. induction d; simpl; rewrite ?elem_of_nil, ?elem_of_cons; [done|..];
    (intros [->|?]; [done|auto]).
Qed.

Lemma to_string_elem z x : x ∈ to_string z → x = "-"%char ∨ (48 ≤ N_of_ascii x ≤ 57)%N.
Proof.
  assert (∀ d, x ∈ bs (DecimalString.NilZero.string_of_uint d) → (48 ≤ N_of_ascii x ≤ 57)%N) as Hd.
  { intros d. destruct d; try apply string_of_uint_chars. by intros ->%list_elem_of_singleton. }
  unfold to_string, DecimalString.NilZero.string_of_int. destruct (Z.to_int z) as [d|d].
  - intros. right. by eapply Hd.
  - unfold bs. simpl. intros [->|?]%elem_of_cons; [by left|right; by eapply Hd].
Qed.

(** A separator is no character of a number. *)
Lemma to_string_sep z c :
  c ≠ "-"%char → ¬ (48 ≤ N_of_ascii c ≤ 57)%N → c ∉ to_string z.
Proof. intros Hc Hd [?|?]%to_string_elem; done. Qed.

#[export] Instance to_string_inj : Inj (=) (=) to_string.
Proof.
  intros a b Hab. unfold to_string, bs in Hab.
  apply (f_equal Stdlib.Strings.String.string_of_list_ascii) in Hab.
  rewrite !Stdlib.Strings.String.string_of_list_ascii_of_string in Hab.
  assert (∀ z, Z.of_int <$> DecimalString.NilZero.int_of_string
    (DecimalString.NilZero.string_of_int (Z.to_int z)) = Some z) as Hz.
  { intros z. pose proof (DecimalZ.of_to z) as Ho. destruct (Z.to_int z) as [d|d].
    - assert (d = Decimal.Nil ∨ d ≠ Decimal.Nil) as [->|Hd] by (destruct d; auto);
        [by rewrite <-Ho|].
      rewrite DecimalString.NilZero.isi by (by intros [= ->]). exact (f_equal Some Ho).
    - assert (d = Decimal.Nil ∨ d ≠ Decimal.Nil) as [->|Hd] by (destruct d; auto);
        [by rewrite <-Ho|].
      rewrite DecimalString.NilZero.isi by (by intros [= ->]). exact (f_equal Some Ho). }
  pose proof (Hz a) as Ha. rewrite Hab, (Hz b) in Ha. congruence.
Qed.

(** A text up to the first separator. *)
Lemma app_sep_inj (c : ascii) (u v s t : bytes) :
  c ∉ u → c ∉ v → u ++ c :: s = v ++ c :: t → u = v ∧ s = t.
Proof.
  revert v. induction u as [|x u IH]; intros [|y v] Hu Hv H; injection H.
  - by intros ->.
  - intros _ <-. destruct Hv. by left.
  - intros _ ->. destruct Hu. by left.
  - intros Huv ->. apply IH in Huv as [-> ->]; [done|..]; intros Hin; [apply Hu|apply Hv]; by right.
Qed.

(** ** Order *)

(** [std::string::compare] on [unsigned char] values. *)
Fixpoint bytes_ltb (s t : bytes) : bool :=
  match s, t with
  | [], [] => false
  | [], _ :: _ => true
  | _ :: _, [] => false
  | a :: s', b :: t' =>
      if N.ltb (N_of_ascii a) (N_of_ascii b) then true
      else if N.ltb (N_of_ascii b) (N_of_ascii a) then false
      else bytes_ltb s' t'
  end.

Lemma N_of_ascii_inj a b : N_of_ascii a = N_of_ascii b → a = b.
Proof. intros H. by rewrite <-(ascii_N_embedding a), H, ascii_N_embedding. Qed.

Lemma bytes_ltb_cons a b s t :
  bytes_ltb (a :: s) (b :: t) = true ↔
  (N_of_ascii a < N_of_ascii b)%N ∨ a = b ∧ bytes_ltb s t = true.
Proof.
  simpl. destruct (N.ltb_spec (N_of_ascii a) (N_of_ascii b)) as [|Hge]; [naive_solver|].
  destruct (N.ltb_spec (N_of_ascii b) (N_of_ascii a)) as [|Hge'].
  - split; [done|]. intros [?|[-> _]]; lia.
  - assert (a = b) as -> by (apply N_of_ascii_inj; lia). split; [by right|].
    intros [?|[_ ?]]; [lia|done].
Qed.

Lemma bytes_ltb_irrefl s : bytes_ltb s s = false.
Proof. induction s as [|a s IH]; simpl; [done|]. by rewrite N.ltb_irrefl. Qed.

Lemma bytes_ltb_trans s t u :
  bytes_ltb s t = true → bytes_ltb t u = true → bytes_ltb s u = true.
Proof.
  revert t u. induction s as [|a s IH]; intros [|b t] [|c u]; try done.
  rewrite !bytes_ltb_cons. intros [?|[-> ?]] [?|[-> ?]]; [left; lia|by left|by left|right; eauto].
Qed.

Lemma bytes_ltb_total s t :
  bytes_ltb s t = false → bytes_ltb t s = false → s = t.
Proof.
  revert t. induction s as [|a s IH]; intros [|b t]; try done.
  rewrite <-!not_true_iff_false, !bytes_ltb_cons. intros H1 H2.
  assert (a = b) as -> by (apply N_of_ascii_inj; lia).
  f_equal. apply IH; apply not_true_iff_false; naive_solver.
Qed.

#[export] Instance bytes_order : LtbOrder bytes_ltb.
Proof.
  split; [apply bytes_ltb_irrefl|apply bytes_ltb_trans|apply bytes_ltb_total].
Qed.

Abbreviation bytes_lt := (λ s t, bytes_ltb s t = true).

(** The elements of a [std::set<std::string>] or the keys of a
    [std::map<std::string, _>] in iteration order. *)
Definition set_list (X : gset bytes) : list bytes := sort bytes_ltb (elements X).

Lemma elem_of_set_list x X : x ∈ set_list X ↔ x ∈ X.
Proof. unfold set_list. by rewrite elem_of_sort, elem_of_elements. Qed.

Lemma set_list_strict X : StronglySorted bytes_lt (set_list X).
Proof.
  apply sorted_strict; [apply _|apply sort_sorted, _|]. unfold set_list.
  rewrite (sort_perm bytes_ltb). apply NoDup_elements.
Qed.

Lemma length_set_list X : length (set_list X) = size X.
Proof. unfold set_list. by rewrite (sort_perm bytes_ltb). Qed.

Lemma NoDup_set_list X : NoDup (set_list X).
Proof. apply (strict_NoDup bytes_ltb), set_list_strict. Qed.

(** ** Search *)

(** [s.contains(c)]. *)
Definition contains (c : ascii) (s : bytes) : bool := bool_decide (c ∈ s).

(** [s.find(c)]: the bytes before and after the first [c]. *)
Fixpoint break_at (c : ascii) (s : bytes) : option (bytes * bytes) :=
  match s with
  | [] => None
  | x :: s' =>
      if decide (x = c) then Some ([], s')
      else match break_at c s' with
           | Some (u, v) => Some (x :: u, v)
           | None => None
           end
  end.

(** [s.rfind(c)]: the index of the last [c]. *)
Fixpoint rfind (c : ascii) (s : bytes) : option nat :=
  match s with
  | [] => None
  | x :: s' =>
      match rfind c s' with
      | Some i => Some (S i)
      | None => if decide (x = c) then Some 0 else None
      end
  end.

(** [s.starts_with(p)]. *)
Fixpoint starts_with (p s : bytes) : bool :=
  match p, s with
  | [], _ => true
  | a :: p', b :: s' => bool_decide (a = b) && starts_with p' s'
  | _ :: _, [] => false
  end.

(** [s] without its trailing [c]s. *)
Definition strip_trailing (c : ascii) (s : bytes) : bytes :=
  reverse (drop_while (λ x, bool_decide (x = c)) (reverse s)).

(** The bytes a C function sees of [s.c_str()]: everything before the first
    NUL. *)
Definition c_str (s : bytes) : bytes := take_while (λ x, negb (bool_decide (x = "000"%char))) s.

(** [sep.join(parts)]. *)
Fixpoint join_with (sep : bytes) (parts : list bytes) : bytes :=
  match parts with
  | [] => []
  | [p] => p
  | p :: ps => p ++ sep ++ join_with sep ps
  end.

Lemma break_at_Some c s u v : break_at c s = Some (u, v) → s = u ++ c :: v ∧ c ∉ u.
Proof.
  revert u v. induction s as [|x s IH]; simpl; [done|]. intros u v.
  case_decide as Hx; [intros; simplify_eq; split; [done|apply not_elem_of_nil]|].
  destruct (break_at c s) as [[u' v']|]; intros; simplify_eq.
  destruct (IH u' v eq_refl) as [-> ?]. split; [done|].
  by intros [?|?]%elem_of_cons; auto.
Qed.

Lemma break_at_None c s : break_at c s = None → c ∉ s.
Proof.
  induction s as [|x s IH]; simpl; [intros _; apply not_elem_of_nil|].
  case_decide; [done|]. destruct (break_at c s) as [[]|]; [done|].
  intros _ [?|?]%elem_of_cons; [by auto|]. by apply IH.
Qed.

Lemma rfind_None c s : rfind c s = None → c ∉ s.
Proof.
  induction s as [|y s IH]; simpl; [intros _; apply not_elem_of_nil|].
  destruct (rfind c s); [done|]. case_decide; [done|].
  intros _ [?|?]%elem_of_cons; [by auto|]. by apply IH.
Qed.

Lemma rfind_Some c s i :
  rfind c s = Some i → s = take i s ++ c :: drop (S i) s ∧ c ∉ drop (S i) s.
Proof.
  revert i. induction s as [|x s IH]; simpl; [done|]. intros i.
  destruct (rfind c s) as [j|] eqn:E.
  - intros [= <-]. destruct (IH j eq_refl) as [Hs Hc]. simpl. by rewrite <-Hs.
  - case_decide; [|done]. intros [= <-]. simplify_eq/=. rewrite drop_0.
    split; [done|]. by apply rfind_None.
Qed.

Lemma rfind_split c s i :
  rfind c s = Some i →
  ∃ u t, s = u ++ c :: t ∧ take (S i) s = u ++ [c] ∧ drop (S i) s = t ∧ c ∉ t.
Proof.
  intros [Hs Hc]%rfind_Some. exists (take i s), (drop (S i) s). split_and!; [done| |done|done].
  rewrite Hs, cons_middle, app_assoc at 1. apply take_app_length'.
  rewrite length_app, length_take. apply (f_equal length) in Hs.
  rewrite length_app, length_take in Hs. simpl in *. lia.
Qed.

Lemma starts_with_spec p s : starts_with p s = true ↔ ∃ t, s = p ++ t.
Proof.
  revert s. induction p as [|a p IH]; intros s; simpl; [naive_solver|].
  destruct s as [|b s]; [naive_solver|].
  rewrite andb_true_iff, bool_decide_eq_true, IH. split.
  - intros [-> [t ->]]. by exists t.
  - intros [t [= -> ->]]. eauto.
Qed.

Lemma strip_trailing_app c s :
  ∃ k, s = strip_trailing c s ++ replicate k c.
Proof.
  unfold strip_trailing. set (p := λ x, bool_decide (x = c)).
  exists (length (take_while p (reverse s))).
  rewrite <-(reverse_involutive s) at 1.
  rewrite <-(take_drop_while p (reverse s)) at 1. rewrite reverse_app. f_equal.
  assert (Forall (eq c) (reverse (take_while p (reverse s)))) as H.
  { rewrite Forall_reverse. eapply Forall_impl; [apply Forall_take_while|].
    intros x Hx. by apply bool_decide_eq_true in Hx. }
  symmetry. apply replicate_as_Forall. split; [by rewrite length_reverse|].
  eapply Forall_impl; [exact H|]. done.
Qed.

Lemma strip_trailing_last c s : last (strip_trailing c s) ≠ Some c.
Proof.
  unfold strip_trailing. rewrite last_reverse.
  destruct (drop_while _ _) as [|x l] eqn:E; simpl; [done|].
  apply drop_while_head in E. apply bool_decide_eq_false in E. congruence.
Qed.
