(* ===== verification/PathUtil.v ===== *)
(** * Path arithmetic: [src/src/util/pathutil.cpp]

    The [posixpath] semantics every stored path of the index goes through:
    [normpath], [abspath], [relpath], [join], [split], [expanduser],
    [expandvars], [label_expand] and the chain [resolve_fs_path].

    The operating system enters through [host]: the working directory, the
    environment and the password database.  They are arguments of the model. *)

From S2P Require Export Bytes.

(** What the functions read from the process and the system. *)
Record host := Host {
  host_cwd : result bytes;               (* ::getcwd, or the error it throws *)
  host_getenv : bytes → option bytes;    (* std::getenv on a C string *)
  host_uid_home : option bytes;          (* getpwuid(getuid())->pw_dir *)
  host_user_home : bytes → option bytes  (* getpwnam(user)->pw_dir *)
}.

Definition slash : ascii := "/".
Definition dot : bytes := bs ".".
Definition dotdot : bytes := bs "..".

(** [path.split('/')], empty components included. *)
Fixpoint split_components (path : bytes) : list bytes :=
  match path with
  | [] => [[]]
  | c :: rest =>
      if decide (c = slash) then [] :: split_components rest
      else match split_components rest with
           | comp :: comps => (c :: comp) :: comps
           | [] => [[c]]
           end
  end.

Definition isabs (path : bytes) : bool :=
  match path with c :: _ => bool_decide (c = slash) | [] => false end.

(** ** normpath *)

(** POSIX allows one or two initial slashes; three or more count as one. *)
Definition initial_slashes (path : bytes) : nat :=
  match path with
  | c :: rest =>
      if decide (c = slash) then
        match rest with
        | c1 :: rest1 =>
            if decide (c1 = slash) then
              match rest1 with
              | c2 :: _ => if decide (c2 = slash) then 1 else 2
              | [] => 2
              end
            else 1
        | [] => 1
        end
      else 0
  | [] => 0
  end.

(** The body of the loop over the components; [new_comps] is the vector. *)
Definition norm_step (initial : nat) (new_comps : list bytes) (comp : bytes) : list bytes :=
  if bool_decide (comp = []) || bool_decide (comp = dot) then new_comps
  else if bool_decide (comp ≠ dotdot)
          || (bool_decide (initial = 0) && bool_decide (new_comps = []))
          || bool_decide (last new_comps = Some dotdot)
  then new_comps ++ [comp]
  else removelast new_comps.

Definition normpath (path : bytes) : bytes :=
  match path with
  | [] => dot
  | _ =>
      let initial := initial_slashes path in
      let new_comps := foldl (norm_step initial) [] (split_components path) in
      let out := replicate initial slash ++ join_with [slash] new_comps in
      match out with [] => dot | _ => out end
  end.

(** ** join, abspath, relpath *)

(** [detail::join_one]: the body of [posixpath.join]'s loop. *)
Definition join_one (path part : bytes) : bytes :=
  if isabs part then part
  else if bool_decide (path = []) || bool_decide (last path = Some slash)
  then path ++ part
  else path ++ slash :: part.

Definition join (path : bytes) (parts : list bytes) : bytes := foldl join_one path parts.

Definition abspath (h : host) (path : bytes) : result bytes :=
  if isabs path then Ok (normpath path)
  else let! cwd := host_cwd h in Ok (normpath (join cwd [path])).

(** [[x for x in abspath(p).split('/') if x]]. *)
Definition abs_parts (h : host) (path : bytes) : result (list bytes) :=
  let! p := abspath h path in
  Ok (filter (λ c, c ≠ []) (split_components p)).

(** The loop that counts the common prefix. *)
Fixpoint common_prefix (start_list path_list : list bytes) : nat :=
  match start_list, path_list with
  | a :: l, b :: l' => if decide (a = b) then S (common_prefix l l') else 0
  | _, _ => 0
  end.

Definition relpath (h : host) (path start : bytes) : result bytes :=
  match path with
  | [] => throw (bs "relpath: no path specified")
  | _ =>
      let! start_list := abs_parts h start in
      let! path_list := abs_parts h path in
      let common := common_prefix start_list path_list in
      let rel := foldl (λ rel _, join_one rel dotdot) [] (drop common start_list) in
      let rel := foldl join_one rel (drop common path_list) in
      Ok (match rel with [] => dot | _ => rel end)
  end.

(** ** split *)

(** [posixpath.split]: [(head, tail)]; the head keeps no trailing slash unless
    it is all slashes. *)
Definition split (path : bytes) : bytes * bytes :=
  match rfind slash path with
  | None => ([], path)
  | Some i =>
      let head := take (S i) path in
      let tail := drop (S i) path in
      if existsb (λ c, bool_decide (c ≠ slash)) head
      then (strip_trailing slash head, tail)
      else (head, tail)
  end.

Definition dirname (path : bytes) : bytes := (split path).1.
Definition basename (path : bytes) : bytes := (split path).2.

(** ** expanduser *)

Definition expanduser (h : host) (path : bytes) : bytes :=
  match path with
  | c :: rest =>
      if decide (c ≠ "~"%char) then path
      else
        let user := take_while (λ c, bool_decide (c ≠ slash)) rest in
        let tail := drop_while (λ c, bool_decide (c ≠ slash)) rest in
        let userhome :=
          match user with
          | [] => match host_getenv h (bs "HOME") with
                  | Some home => Some home
                  | None => host_uid_home h
                  end
          | _ => host_user_home h (c_str user)
          end in
        match userhome with
        | None => path
        | Some home =>
            let result := strip_trailing slash home ++ tail in
            match result with [] => bs "/" | _ => result end
        end
  | [] => path
  end.

(** ** expandvars *)

(** [[A-Za-z0-9_]]. *)
Definition is_word (c : ascii) : bool :=
  let n := N_of_ascii c in
  ((48 <=? n) && (n <=? 57) || (65 <=? n) && (n <=? 90)
   || (97 <=? n) && (n <=? 122) || (n =? 95))%N.

(** The length of group 1 of the pattern
    [\$([A-Za-z0-9_]+|\{[^}]*\}?)] in the text after a [$]; 0 when the pattern
    does not match there. *)
Definition var_match (s : bytes) : nat :=
  match s with
  | c :: rest =>
      if is_word c then length (take_while is_word s)
      else if decide (c = "{"%char) then
        let body := take_while (λ c, bool_decide (c ≠ "}"%char)) rest in
        match drop (length body) rest with
        | _ :: _ => S (S (length body))
        | [] => S (length body)
        end
      else 0
  | [] => 0
  end.

(** What a match is replaced with; [name] is group 1. *)
Definition expand_match (h : host) (name : bytes) : bytes :=
  let whole := "$"%char :: name in
  match name with
  | c :: inner =>
      if decide (c = "{"%char) then
        if decide (last name = Some "}"%char) then
          match host_getenv h (c_str (removelast inner)) with
          | Some val => val
          | None => whole
          end
        else whole (* unterminated brace *)
      else match host_getenv h (c_str name) with Some val => val | None => whole end
  | [] => whole
  end.

(** The iteration over the matches, leftmost first. *)
Fixpoint expandvars_from (h : host) (fuel : nat) (s : bytes) : bytes :=
  match fuel, s with
  | S fuel, c :: rest =>
      if decide (c = "$"%char) then
        match var_match rest with
        | 0 => c :: expandvars_from h fuel rest
        | n => expand_match h (take n rest) ++ expandvars_from h fuel (drop n rest)
        end
      else c :: expandvars_from h fuel rest
  | _, _ => s
  end.

Definition expandvars (h : host) (path : bytes) : bytes :=
  if contains "$" path then expandvars_from h (length path) path else path.

(** ** label_expand *)

(** [LabelResolver]: the registry lookup, if any, and the autoderive policy. *)
Record LabelResolver := {
  lookup : option (bytes → option bytes);
  autoderive : bool
}.

(** What [<name>] is replaced with. *)
Definition expand_label (labels : LabelResolver) (name : bytes) : bytes :=
  let derived :=
    if autoderive labels && bool_decide (name ≠ [])
    then slash :: map (λ c, if decide (c = "-"%char) then slash else c) name
    else "<"%char :: name ++ [">"%char] in
  match lookup labels with
  | Some lk => match lk name with Some hit => hit | None => derived end
  | None => derived
  end.

Fixpoint label_expand_from (labels : LabelResolver) (fuel : nat) (token : bytes) : bytes :=
  match fuel with
  | 0 => token
  | S fuel =>
      match break_at "<" token with
      | None => token
      | Some (literal, after) =>
          match break_at ">" after with
          | None => literal ++ "<"%char :: after
          | Some (name, rest) =>
              literal ++ expand_label labels name ++ label_expand_from labels fuel rest
          end
      end
  end.

Definition label_expand (token : bytes) (labels : LabelResolver) : bytes :=
  if contains "<" token then label_expand_from labels (length token) token else token.

(** The order is load-bearing: labels, environment, home, normalisation. *)
Definition resolve_fs_path (h : host) (stored : bytes) (labels : LabelResolver) : bytes :=
  let s := label_expand stored labels in
  let s := expandvars h s in
  let s := expanduser h s in
  normpath s.

(** ** Lemmas: components *)

Lemma split_components_cons p : ∃ c cs, split_components p = c :: cs.
Proof.
  destruct p as [|x p]; simpl; [eauto|]. case_decide; [eauto|].
  destruct (split_components p); eauto.
Qed.

Lemma split_components_no_slash p : Forall (λ c, slash ∉ c) (split_components p).
Proof.
  induction p as [|x p IH]; simpl; [repeat constructor; apply not_elem_of_nil|].
  case_decide; [constructor; [apply not_elem_of_nil|done]|].
  destruct (split_components p) as [|c cs]; inversion IH; subst;
    repeat constructor; try done; apply not_elem_of_cons; auto using not_elem_of_nil.
Qed.

Lemma split_components_noslash u : slash ∉ u → split_components u = [u].
Proof.
  induction u as [|x u IH]; simpl; [done|]. rewrite not_elem_of_cons. intros [??].
  case_decide; [congruence|]. by rewrite IH.
Qed.

(** Splitting distributes over a separator. *)
Lemma split_components_slash u v :
  split_components (u ++ slash :: v) = split_components u ++ split_components v.
Proof.
  induction u as [|x u IH]; [done|]. rewrite <-app_comm_cons. simpl. rewrite IH.
  case_decide; [done|].
  destruct (split_components_cons u) as (c & cs & ->). done.
Qed.

Lemma split_components_slashes n v :
  split_components (replicate n slash ++ v) = replicate n [] ++ split_components v.
Proof. induction n as [|n IH]; [done|]. simpl. by rewrite IH. Qed.

Lemma split_components_join cs :
  cs ≠ [] → Forall (λ c, slash ∉ c) cs → split_components (join_with [slash] cs) = cs.
Proof.
  intros Hne Hcs. induction Hcs as [|c cs Hc Hcs IH]; [done|].
  destruct cs as [|d cs]; [by apply split_components_noslash|].
  change (join_with [slash] (c :: d :: cs)) with (c ++ slash :: join_with [slash] (d :: cs)).
  rewrite split_components_slash, split_components_noslash, IH by done. done.
Qed.

(** ** Reference semantics: the directory a path names

    A location is the list of names from the root.  [resolve base p] is the
    location [p] names when it is read from [base]: the specification the
    string functions are compared with. *)

Definition walk_step (dir : list bytes) (comp : bytes) : list bytes :=
  if bool_decide (comp = []) || bool_decide (comp = dot) then dir
  else if bool_decide (comp = dotdot) then removelast dir
  else dir ++ [comp].

Definition walk (dir : list bytes) (comps : list bytes) : list bytes := foldl walk_step dir comps.

Definition resolve (base : list bytes) (p : bytes) : list bytes :=
  walk (if isabs p then [] else base) (split_components p).

(** A component that is a name: not empty, not [.], not [..], no slash. *)
Definition name (c : bytes) : Prop := c ≠ [] ∧ c ≠ dot ∧ c ≠ dotdot ∧ slash ∉ c.

(** The shape of a normalised component vector: a run of [..], only in a
    relative path, then names. *)
Definition normal (initial : nat) (comps : list bytes) : Prop :=
  ∃ k names, comps = replicate k dotdot ++ names ∧ Forall name names ∧ (initial = 0 ∨ k = 0).

Lemma dotdot_ne : dotdot ≠ [] ∧ dotdot ≠ dot ∧ slash ∉ dotdot.
Proof. repeat split; [done..|]. apply (bool_decide_eq_false_1 (slash ∈ dotdot)). done. Qed.

Lemma walk_app dir l1 l2 : walk dir (l1 ++ l2) = walk (walk dir l1) l2.
Proof. apply foldl_app. Qed.

Lemma walk_step_name dir c : name c → walk_step dir c = dir ++ [c].
Proof. intros (?&?&?&?). unfold walk_step. by rewrite !bool_decide_eq_false_2. Qed.

Lemma norm_step_name i cs c : name c → norm_step i cs c = cs ++ [c].
Proof.
  intros (?&?&?&?). unfold norm_step.
  by rewrite (bool_decide_eq_false_2 (c = [])), (bool_decide_eq_false_2 (c = dot)),
    (bool_decide_eq_true_2 (c ≠ dotdot)).
Qed.

Lemma walk_step_dotdot dir : walk_step dir dotdot = removelast dir.
Proof. done. Qed.

Lemma walk_names dir cs : Forall name cs → walk dir cs = dir ++ cs.
Proof.
  intros H. revert dir. induction H as [|c cs Hc _ IH]; intros dir; simpl; [by rewrite app_nil_r|].
  rewrite walk_step_name, IH by done. by rewrite <-app_assoc.
Qed.

Lemma walk_empties dir n : walk dir (replicate n []) = dir.
Proof. by induction n. Qed.

Lemma walk_dotdots pre suf : walk (pre ++ suf) (replicate (length suf) dotdot) = pre.
Proof.
  induction suf as [|x suf IH] using rev_ind; simpl; [by rewrite app_nil_r|].
  rewrite length_app, Nat.add_comm. simpl. rewrite app_assoc.
  rewrite walk_step_dotdot, removelast_snoc. apply IH.
Qed.

Lemma normal_nil i : normal i [].
Proof. exists 0, []. auto. Qed.

Lemma normal_dotdots k : normal 0 (replicate k dotdot).
Proof. exists k, []. rewrite app_nil_r. auto. Qed.

Lemma normal_snoc i cs c : normal i (cs ++ [c]) → normal i cs ∧ norm_step i cs c = cs ++ [c].
Proof.
  intros (k & names & Heq & Hn & Hik).
  destruct (snoc_cases names) as [->|(names' & x & ->)].
  - rewrite app_nil_r in Heq. destruct k as [|k].
    { by destruct cs. }
    rewrite replicate_S_end in Heq. apply app_inj_tail in Heq as [-> ->].
    destruct Hik as [->|]; [|done]. split; [apply normal_dotdots|]. unfold norm_step. simpl.
    destruct k; [done|]. rewrite replicate_S_end, last_snoc.
    by rewrite (bool_decide_eq_true_2 (Some dotdot = _)), orb_true_r by done.
  - rewrite app_assoc in Heq. apply app_inj_tail in Heq as [-> ->].
    apply Forall_app in Hn as [? [? _]%Forall_cons].
    split; [by exists k, names'|]. by apply norm_step_name.
Qed.

Lemma norm_fold_normal i cs : normal i cs → foldl (norm_step i) [] cs = cs.
Proof.
  induction cs as [|c cs IH] using rev_ind; [done|]. intros [Hn Hs]%normal_snoc.
  by rewrite foldl_app, IH.
Qed.

(** One step of the loop keeps the vector normal and means what the reference
    walk means; an absolute path is walked from the root. *)
Lemma norm_step_spec i base cs c :
  normal i cs → slash ∉ c → (i = 0 ∨ base = []) →
  normal i (norm_step i cs c) ∧ walk base (norm_step i cs c) = walk_step (walk base cs) c.
Proof.
  intros (k & names & -> & Hn & Hik) Hc Hb. unfold norm_step.
  destruct (bool_decide (c = []) || bool_decide (c = dot)) eqn:E1.
  { split; [by exists k, names|]. unfold walk_step. by rewrite E1. }
  bool_split.
  destruct (decide (c = dotdot)) as [->|Hdd].
  2:{ rewrite bool_decide_eq_true_2 by done. simpl. rewrite walk_app. split; [|done].
      exists k, (names ++ [c]). rewrite app_assoc. repeat split; [|lia].
      apply Forall_app; split; [done|]. by apply Forall_singleton. }
  rewrite bool_decide_eq_false_2 by naive_solver. simpl.
  destruct (snoc_cases names) as [->|(names' & x & ->)].
  - rewrite app_nil_r. destruct Hik as [->| ->].
    + assert ((bool_decide (0 = 0) && bool_decide (replicate k dotdot = [])
        || bool_decide (last (replicate k dotdot) = Some dotdot))%bool = true) as ->.
      { destruct k; [done|]. rewrite replicate_S_end, last_snoc.
        by rewrite (bool_decide_eq_true_2 (Some dotdot = _)), orb_true_r by done. }
      rewrite walk_app. split; [|done]. rewrite <-replicate_S_end. apply normal_dotdots.
    + simpl. rewrite andb_true_r, orb_false_r. case_bool_decide as Hi.
      * subst i. split; [apply (normal_dotdots 1)|done].
      * destruct Hb as [?| ->]; [done|]. split; [apply normal_nil|done].
  - apply Forall_app in Hn as [Hn' [Hx _]%Forall_cons].
    rewrite app_assoc, last_snoc, removelast_snoc.
    assert ((bool_decide (i = 0) && bool_decide ((replicate k dotdot ++ names') ++ [x] = [])
        || bool_decide (Some x = Some dotdot))%bool = false) as ->.
    { rewrite (bool_decide_eq_false_2 (_ = [])) by (by destruct (replicate k dotdot ++ names')).
      rewrite andb_false_r. apply bool_decide_eq_false. destruct Hx as (?&?&?&?). congruence. }
    split; [by exists k, names'|].
    rewrite (walk_app base (_ ++ _)). simpl. rewrite (walk_step_name _ x) by done.
    by rewrite walk_step_dotdot, removelast_snoc.
Qed.

Lemma norm_fold_spec i base cs :
  Forall (λ c, slash ∉ c) cs → (i = 0 ∨ base = []) →
  normal i (foldl (norm_step i) [] cs) ∧
  walk base (foldl (norm_step i) [] cs) = walk base cs.
Proof.
  intros Hcs Hb. induction cs as [|c cs IH] using rev_ind.
  - split; [apply normal_nil|done].
  - apply Forall_app in Hcs as [? [? _]%Forall_cons]. destruct IH as [IHn IHw]; [done|].
    rewrite !foldl_app, walk_app. simpl. rewrite <-IHw. by apply norm_step_spec.
Qed.

(** ** Lemmas: the rendered path *)

Definition render (i : nat) (comps : list bytes) : bytes :=
  let out := replicate i slash ++ join_with [slash] comps in
  match out with [] => dot | _ => out end.

(** The components [normpath] computes before it renders them. *)
Definition norm_comps (path : bytes) : list bytes :=
  foldl (norm_step (initial_slashes path)) [] (split_components path).

Lemma normpath_render p : p ≠ [] → normpath p = render (initial_slashes p) (norm_comps p).
Proof. by destruct p. Qed.

Lemma isabs_initial p : isabs p = bool_decide (initial_slashes p ≠ 0).
Proof.
  destruct p as [|c [|c1 [|c2 p]]]; simpl; repeat case_decide; try done;
    by rewrite ?bool_decide_eq_true_2, ?bool_decide_eq_false_2 by done.
Qed.

Lemma norm_comps_spec p base :
  normal (initial_slashes p) (norm_comps p) ∧
  walk (if isabs p then [] else base) (norm_comps p) = resolve base p.
Proof.
  apply norm_fold_spec; [apply split_components_no_slash|].
  rewrite isabs_initial. case_bool_decide; [by right|left; lia].
Qed.

Lemma normal_no_slash i cs : normal i cs → Forall (λ c, slash ∉ c) cs.
Proof.
  intros (k & names & -> & Hn & _). apply Forall_app. split.
  - apply Forall_replicate, dotdot_ne.
  - eapply Forall_impl; [exact Hn|]. by intros c (?&?&?&?).
Qed.

Lemma normal_nonempty i cs : normal i cs → Forall (λ c, c ≠ []) cs.
Proof.
  intros (k & names & -> & Hn & _). apply Forall_app. split.
  - by apply Forall_replicate.
  - eapply Forall_impl; [exact Hn|]. by intros c (?&?&?&?).
Qed.

Lemma normal_abs i cs : normal i cs → i ≠ 0 → Forall name cs.
Proof. by intros (k & names & -> & Hn & [?| ->]) ?. Qed.

(** A joined vector of non-empty, slash-free components neither starts nor
    ends with a slash. *)
Lemma join_with_head cs c rest :
  Forall (λ c, c ≠ []) cs → Forall (λ c, slash ∉ c) cs →
  join_with [slash] cs = c :: rest → c ≠ slash.
Proof.
  intros Hne Hns. destruct cs as [|[|x u] cs]; [done|by inversion Hne|].
  apply Forall_cons in Hns as [Hx _]. apply not_elem_of_cons in Hx as [? _].
  destruct cs; simpl; congruence.
Qed.

Lemma join_with_snoc cs c :
  cs ≠ [] → join_with [slash] (cs ++ [c]) = join_with [slash] cs ++ slash :: c.
Proof.
  induction cs as [|d cs IH]; [done|]. intros _. destruct cs as [|e cs]; [done|].
  change (join_with [slash] ((d :: e :: cs) ++ [c])) with (d ++ slash :: join_with [slash] ((e :: cs) ++ [c])).
  rewrite IH by done. simpl. by rewrite <-app_assoc.
Qed.

Lemma join_with_nil cs : Forall (λ c, c ≠ []) cs → join_with [slash] cs = [] → cs = [].
Proof. intros H. destruct cs as [|[|x u] [|d cs]]; simpl; try done. by inversion H. Qed.

Lemma join_with_last cs :
  Forall (λ c, c ≠ []) cs → Forall (λ c, slash ∉ c) cs → last (join_with [slash] cs) ≠ Some slash.
Proof.
  intros Hne Hns. destruct (snoc_cases cs) as [->|(cs' & c & ->)]; [done|].
  apply Forall_app in Hne as [_ [Hc _]%Forall_cons], Hns as [_ [Hc' _]%Forall_cons].
  destruct (snoc_cases c) as [->|(c' & x & ->)]; [done|].
  assert (x ≠ slash) by (intros ->; apply Hc'; apply elem_of_app; right; by apply list_elem_of_singleton).
  destruct (decide (cs' = [])) as [->|]; simpl.
  - rewrite last_snoc. congruence.
  - rewrite join_with_snoc, app_comm_cons, app_assoc, last_snoc by done. congruence.
Qed.

(** [relpath]'s loops rebuild the joined vector. *)
Lemma join_one_comps cs c :
  Forall (λ c, c ≠ []) (cs ++ [c]) → Forall (λ c, slash ∉ c) (cs ++ [c]) →
  join_one (join_with [slash] cs) c = join_with [slash] (cs ++ [c]).
Proof.
  intros [Hne [Hc _]%Forall_cons]%Forall_app [Hns [Hc' _]%Forall_cons]%Forall_app.
  unfold join_one. assert (isabs c = false) as ->.
  { destruct c as [|x c]; [done|]. simpl. apply bool_decide_eq_false_2. intros ->.
    apply Hc'. by left. }
  rewrite (bool_decide_eq_false_2 (last _ = _)) by by apply join_with_last.
  rewrite orb_false_r. case_bool_decide as E.
  - apply join_with_nil in E as ->; [|done]. done.
  - rewrite join_with_snoc; [done|]. by intros ->.
Qed.

Lemma join_fold_comps cs cs' :
  Forall (λ c, c ≠ []) (cs ++ cs') → Forall (λ c, slash ∉ c) (cs ++ cs') →
  foldl join_one (join_with [slash] cs) cs' = join_with [slash] (cs ++ cs').
Proof.
  revert cs. induction cs' as [|c cs' IH]; intros cs; simpl; [by rewrite app_nil_r|].
  rewrite (cons_middle c cs cs'), app_assoc. intros Hne Hns.
  rewrite join_one_comps by (by eapply Forall_app_l).
  by apply IH.
Qed.

Lemma initial_slashes_le p : initial_slashes p ≤ 2.
Proof. destruct p as [|c [|c1 [|c2 p]]]; simpl; repeat case_decide; lia. Qed.

Lemma initial_slashes_app i s :
  i ≤ 2 → (∀ c s', s = c :: s' → c ≠ slash) → initial_slashes (replicate i slash ++ s) = i.
Proof.
  intros Hi Hs. destruct i as [|[|[|i]]]; [| | |lia]; simpl;
    (destruct s as [|c s]; [done|]); simpl;
    by repeat (case_decide; try by edestruct Hs).
Qed.

Lemma render_props i cs :
  i ≤ 2 → normal i cs →
  render i cs ≠ [] ∧ initial_slashes (render i cs) = i ∧ norm_comps (render i cs) = cs.
Proof.
  intros Hi Hcs. pose proof (normal_no_slash _ _ Hcs) as Hns. pose proof (normal_nonempty _ _ Hcs) as Hne.
  destruct (decide (i = 0 ∧ cs = [])) as [[-> ->]|Hn]; [done|].
  assert (render i cs = replicate i slash ++ join_with [slash] cs) as Hr.
  { unfold render. destruct (replicate i slash ++ _) as [|] eqn:E; [|done].
    apply app_eq_nil in E as [E1 E2%join_with_nil]; [|done]. destruct Hn. by destruct i. }
  assert (initial_slashes (render i cs) = i) as Hin.
  { rewrite Hr. apply initial_slashes_app; [done|]. intros c s' E. by eapply join_with_head. }
  split; [unfold render; by destruct (replicate i slash ++ _)|]. split; [done|].
  unfold norm_comps. rewrite Hin, Hr, split_components_slashes.
  assert (∀ l, foldl (norm_step i) [] (replicate i [] ++ l) = foldl (norm_step i) [] l) as Hskip.
  { intros l. clear. generalize i at 2. intros n. induction n as [|n IH]; [done|]. simpl. apply IH. }
  rewrite Hskip. destruct cs as [|c cs]; [done|].
  rewrite split_components_join by done. by apply norm_fold_normal.
Qed.

Lemma normpath_initial p : initial_slashes (normpath p) = initial_slashes p.
Proof.
  destruct (decide (p = [])) as [->|Hp]; [done|]. rewrite normpath_render by done.
  apply render_props; [apply initial_slashes_le|]. apply (norm_comps_spec p []).
Qed.

Lemma normpath_comps p : norm_comps (normpath p) = norm_comps p.
Proof.
  destruct (decide (p = [])) as [->|Hp]; [done|]. rewrite normpath_render by done.
  apply render_props; [apply initial_slashes_le|]. apply (norm_comps_spec p []).
Qed.

Lemma normpath_nonempty p : normpath p ≠ [].
Proof.
  destruct (decide (p = [])) as [->|Hp]; [done|]. rewrite normpath_render by done.
  apply render_props; [apply initial_slashes_le|]. apply (norm_comps_spec p []).
Qed.

Lemma normpath_eq p q :
  initial_slashes p = initial_slashes q → norm_comps p = norm_comps q → normpath p = normpath q.
Proof.
  intros Hi Hc.
  assert (∀ p, normpath p = render (initial_slashes p) (norm_comps p)) as Hr.
  { intros [|c s]; [done|]. by apply normpath_render. }
  by rewrite !Hr, Hi, Hc.
Qed.

Lemma isabs_normpath p : isabs (normpath p) = isabs p.
Proof. by rewrite !isabs_initial, normpath_initial. Qed.

Lemma normpath_idem p : normpath (normpath p) = normpath p.
Proof. apply normpath_eq; [apply normpath_initial|apply normpath_comps]. Qed.

Lemma normpath_sound p base : resolve base (normpath p) = resolve base p.
Proof.
  destruct (norm_comps_spec p base) as [_ <-], (norm_comps_spec (normpath p) base) as [_ <-].
  by rewrite normpath_comps, isabs_normpath.
Qed.

Lemma resolve_abs p base : isabs p = true → resolve base p = resolve [] p.
Proof. unfold resolve. by intros ->. Qed.

(** A normal relative vector is determined by what it does to a long enough
    base of markers that are no names. *)
Lemma normal_walk_inj k1 n1 k2 n2 :
  Forall name n1 → Forall name n2 →
  walk (replicate (k1 + k2) []) (replicate k1 dotdot ++ n1) =
  walk (replicate (k1 + k2) []) (replicate k2 dotdot ++ n2) →
  k1 = k2 ∧ n1 = n2.
Proof.
  intros H1 H2.
  assert (∀ k m n, Forall name n →
    walk (replicate (m + k) []) (replicate k dotdot ++ n) = replicate m [] ++ n) as Hw.
  { intros k m n Hn. rewrite walk_app, replicate_add.
    pose proof (walk_dotdots (replicate m []) (replicate k ([] : bytes))) as Hd.
    rewrite length_replicate in Hd. rewrite Hd. by apply walk_names. }
  rewrite (Nat.add_comm k1 k2) at 1. rewrite !Hw by done. clear Hw.
  revert k2. induction k1 as [|k1 IH]; intros [|k2]; simpl; intros Heq.
  - done.
  - rewrite <-Heq in H2. apply Forall_cons in H2 as [[? _] _]. done.
  - rewrite Heq in H1. apply Forall_cons in H1 as [[? _] _]. done.
  - injection Heq as Heq. apply IH in Heq as [-> ->]. done.
Qed.

Lemma resolve_comps_inj p q :
  initial_slashes p = initial_slashes q → (∀ base, resolve base p = resolve base q) →
  norm_comps p = norm_comps q.
Proof.
  intros Hi Hr.
  destruct (norm_comps_spec p []) as [(k1 & n1 & E1 & Hn1 & Hk1) _].
  destruct (norm_comps_spec q []) as [(k2 & n2 & E2 & Hn2 & Hk2) _].
  rewrite E1, E2. destruct (isabs p) eqn:Hp.
  - pose proof Hp as Hq. rewrite isabs_initial, Hi, <-isabs_initial in Hq.
    rewrite isabs_initial in Hp, Hq. bool_split.
    destruct Hk1 as [?| ->]; [done|]. destruct Hk2 as [?| ->]; [done|]. simpl in *.
    specialize (Hr []).
    destruct (norm_comps_spec p []) as [_ Hrp], (norm_comps_spec q []) as [_ Hrq].
    rewrite <-Hrp, <-Hrq, E1, E2 in Hr.
    assert (∀ b : bool, (if b then [] else []) = ([] : list bytes)) as Hb by by intros [].
    by rewrite !Hb, !walk_names in Hr.
  - specialize (Hr (replicate (k1 + k2) [])).
    destruct (norm_comps_spec p (replicate (k1 + k2) [])) as [_ Hrp].
    destruct (norm_comps_spec q (replicate (k1 + k2) [])) as [_ Hrq].
    pose proof Hp as Hq. rewrite isabs_initial, Hi, <-isabs_initial in Hq.
    rewrite Hp in Hrp. rewrite Hq in Hrq. rewrite <-Hrp, <-Hrq, E1, E2 in Hr.
    apply normal_walk_inj in Hr as [-> ->]; done.
Qed.

(** ** join and split against the reference *)

Lemma isabs_app u v : u ≠ [] → isabs (u ++ v) = isabs u.
Proof. by destruct u. Qed.

Lemma join_one_resolve base a b : resolve base (join_one a b) = resolve (resolve base a) b.
Proof.
  unfold join_one. destruct (isabs b) eqn:Hb.
  { rewrite (resolve_abs b (resolve base a)) by done. by apply resolve_abs. }
  unfold resolve at 2. rewrite Hb.
  destruct (decide (a = [])) as [->|Ha].
  { simpl. unfold resolve. rewrite Hb. done. }
  rewrite bool_decide_eq_false_2 by done. simpl. case_bool_decide as Hl.
  - destruct (snoc_cases a) as [->|(a' & x & ->)]; [done|].
    rewrite last_snoc in Hl. injection Hl as ->.
    unfold resolve. rewrite (isabs_app (a' ++ [slash]) b) by (by destruct a').
    rewrite <-app_assoc. simpl. rewrite !split_components_slash, !walk_app. done.
  - unfold resolve. rewrite (isabs_app a) by done. by rewrite split_components_slash, walk_app.
Qed.

Lemma split_resolve_eq base p :
  resolve base (join_one (split p).1 (split p).2) = resolve base p.
Proof.
  unfold split. destruct (rfind slash p) as [i|] eqn:E.
  2:{ unfold join_one. simpl. by destruct (isabs p). }
  apply rfind_split in E as (u & t & -> & -> & -> & Ht).
  assert (isabs t = false) as Hta.
  { destruct t as [|x t]; [done|]. simpl. apply bool_decide_eq_false_2. intros ->. apply Ht. by left. }
  case_on; simpl.
  2:{ unfold join_one. rewrite Hta, (bool_decide_eq_true_2 (last _ = _)), orb_true_r by apply last_snoc.
      by rewrite <-app_assoc. }
  rewrite join_one_resolve.
  destruct (strip_trailing_app slash (u ++ [slash])) as [k Hk].
  pose proof (strip_trailing_last slash (u ++ [slash])) as Hl.
  set (h := strip_trailing slash (u ++ [slash])) in *. clearbody h.
  assert (h ≠ []) as Hh.
  { intros ->. simpl in Hk. rewrite Hk in E. clear -E. induction k; simpl in *; [done|].
    bool_split. naive_solver. }
  destruct k as [|k].
  { rewrite app_nil_r in Hk. rewrite <-Hk, last_snoc in Hl. done. }
  rewrite cons_middle, app_assoc, Hk, <-app_assoc.
  unfold resolve. rewrite (isabs_app h) by done. rewrite Hta.
  rewrite replicate_S, <-app_comm_cons, split_components_slash, walk_app,
    split_components_slashes, walk_app.
  by rewrite walk_empties.
Qed.

(** ** The parts of an absolute path *)

Definition location (h : host) (p : bytes) : result (list bytes) :=
  let! cwd := host_cwd h in Ok (resolve (resolve [] cwd) p).

Lemma abs_parts_resolve p :
  isabs p = true → filter (λ c, c ≠ []) (split_components (normpath p)) = resolve [] p.
Proof.
  intros Hp. destruct (norm_comps_spec p []) as [Hn Hw]. rewrite Hp in Hw.
  rewrite normpath_render by by intros ->.
  pose proof Hp as Hi. rewrite isabs_initial in Hi. bool_split.
  pose proof (normal_abs _ _ Hn Hi) as Hnames.
  unfold render. destruct (replicate _ _ ++ _) as [|] eqn:E.
  { apply app_eq_nil in E as [E _]. by destruct (initial_slashes p). }
  rewrite <-E. clear E. rewrite split_components_slashes, filter_app.
  assert (∀ n, filter (λ c : bytes, c ≠ []) (replicate n []) = []) as -> by by induction n.
  rewrite <-Hw, walk_names by done. simpl.
  destruct (decide (norm_comps p = [])) as [->|Hne]; [done|].
  rewrite split_components_join by (done || by eapply normal_no_slash).
  apply filter_all. eapply normal_nonempty; eauto.
Qed.

Lemma abs_parts_location h p cwd :
  host_cwd h = Ok cwd → isabs cwd = true → abs_parts h p = location h p.
Proof.
  intros Hcwd Habs. unfold abs_parts, abspath, location. rewrite Hcwd. simpl.
  destruct (isabs p) eqn:Hp; simpl.
  - f_equal. rewrite abs_parts_resolve by done. symmetry. by apply resolve_abs.
  - rewrite abs_parts_resolve.
    + by rewrite join_one_resolve.
    + unfold join_one. rewrite Hp. by destruct cwd; [|case_match].
Qed.

Lemma resolve_names base p : Forall name base → Forall name (resolve base p).
Proof.
  intros Hb. unfold resolve.
  assert (Forall name (if isabs p then [] else base)) as Hb' by (by destruct (isabs p)).
  generalize dependent (if isabs p then [] else base). clear base Hb.
  pose proof (split_components_no_slash p) as Hs.
  induction Hs as [|c cs Hc _ IH]; intros base Hb; [done|]. apply IH. unfold walk_step.
  case_match; [done|]. case_match; bool_split.
  - destruct (snoc_cases base) as [->|(l & x & ->)]; [done|].
    rewrite removelast_snoc. by eapply Forall_app_l.
  - apply Forall_app. split; [done|]. by repeat constructor.
Qed.

(** [common_prefix] splits both lists at their longest common prefix. *)
Lemma common_prefix_spec l l' :
  let n := common_prefix l l' in take n l = take n l' ∧ n ≤ length l.
Proof.
  revert l'. induction l as [|a l IH]; intros [|b l']; simpl; try (split; [done|lia]).
  case_decide; [|split; [done|lia]]. subst. destruct (IH l') as [IH1 IH2].
  simpl. split; [by f_equal|lia].
Qed.

Lemma fold_dotdots (l : list bytes) : foldl (λ rel _, join_one rel dotdot) [] l =
  join_with [slash] (replicate (length l) dotdot).
Proof.
  assert (∀ (l : list bytes) rel,
    foldl (λ rel _, join_one rel dotdot) rel l = foldl join_one rel (replicate (length l) dotdot)) as ->.
  { clear l. intros l. induction l as [|x l IH]; intros rel; [done|]. simpl. apply IH. }
  apply (join_fold_comps []); apply Forall_replicate, dotdot_ne.
Qed.

(** The components [relpath] joins, and the string it returns. *)
Definition rel_comps (start_list path_list : list bytes) : list bytes :=
  let common := common_prefix start_list path_list in
  replicate (length start_list - common) dotdot ++ drop common path_list.

Lemma rel_comps_walk s p :
  Forall name p → walk s (rel_comps s p) = p.
Proof.
  intros Hp. unfold rel_comps. destruct (common_prefix_spec s p) as [Heq Hle].
  set (n := common_prefix s p) in *. rewrite walk_app.
  rewrite <-(take_drop n s) at 1. rewrite <-length_drop, walk_dotdots, Heq.
  rewrite walk_names by (by apply Forall_drop). apply take_drop.
Qed.

Lemma rel_comps_normal s p : Forall name p → normal 0 (rel_comps s p).
Proof. intros Hp. eexists _, _. split; [done|]. split; [by apply Forall_drop|by left]. Qed.

Lemma relpath_eq h path start s p :
  path ≠ [] → abs_parts h start = Ok s → abs_parts h path = Ok p → Forall name p →
  relpath h path start = Ok (render 0 (rel_comps s p)).
Proof.
  intros Hne Hs Hp Hn. unfold relpath. rewrite Hs, Hp. destruct path as [|c path]; [done|]. simpl.
  set (n := common_prefix s p). rewrite fold_dotdots, length_drop.
  pose proof (rel_comps_normal s p Hn) as Hnorm.
  rewrite join_fold_comps; [done| |].
  - by apply normal_nonempty in Hnorm.
  - by apply normal_no_slash in Hnorm.
Qed.

Lemma render_rel cs : normal 0 cs → isabs (render 0 cs) = false ∧ ∀ base, resolve base (render 0 cs) = walk base cs.
Proof.
  intros Hcs. destruct (render_props 0 cs) as (_ & Hi & Hc); [lia|done|].
  assert (isabs (render 0 cs) = false) as Ha by by rewrite isabs_initial, Hi.
  split; [done|]. intros base. destruct (norm_comps_spec (render 0 cs) base) as [_ <-].
  by rewrite Ha, Hc.
Qed.

(** ** Lemmas: variables *)

Lemma var_match_le s : var_match s ≤ length s.
Proof.
  destruct s as [|c s]; simpl; [lia|]. destruct (is_word c); simpl.
  { pose proof (length_take_while is_word s). lia. }
  case_decide; [|lia]. pose proof (length_take_while (λ c, bool_decide (c ≠ "}"%char)) s).
  destruct (drop _ s) eqn:E; [lia|]. apply (f_equal length) in E.
  rewrite length_drop in E. simpl in E. lia.
Qed.

(** The loop's result does not depend on the fuel once it covers the text. *)
Lemma expandvars_fuel h n m s :
  length s ≤ n → length s ≤ m → expandvars_from h n s = expandvars_from h m s.
Proof.
  revert m s. induction n as [|n IH]; intros [|m] [|c s]; simpl; try done; try lia.
  intros Hn Hm. case_decide; [|f_equal; apply IH; lia].
  pose proof (var_match_le s). destruct (var_match s) eqn:E; [f_equal; apply IH; lia|].
  f_equal. apply IH; rewrite length_drop; lia.
Qed.

Lemma expandvars_unfold h s : expandvars h s = expandvars_from h (length s) s.
Proof.
  unfold expandvars, contains. case_bool_decide as Hc; [done|].
  induction s as [|c s IH]; simpl; [done|]. apply not_elem_of_cons in Hc as [? Hc].
  rewrite decide_False by congruence. f_equal. by apply IH.
Qed.

Lemma expandvars_cons h c s : c ≠ "$"%char → expandvars h (c :: s) = c :: expandvars h s.
Proof. intros Hc. rewrite !expandvars_unfold. simpl. by rewrite decide_False by done. Qed.

Lemma expandvars_literal h u s : "$"%char ∉ u → expandvars h (u ++ s) = u ++ expandvars h s.
Proof.
  induction u as [|c u IH]; [done|]. intros [? ?]%not_elem_of_cons. simpl.
  rewrite expandvars_cons, IH by congruence. done.
Qed.

Lemma expandvars_match h s n :
  var_match s = S n →
  expandvars h ("$"%char :: s) = expand_match h (take (S n) s) ++ expandvars h (drop (S n) s).
Proof.
  intros Hn. rewrite !expandvars_unfold. cbn [length expandvars_from].
  rewrite decide_True, Hn by done. f_equal. pose proof (var_match_le s).
  apply expandvars_fuel; rewrite length_drop; lia.
Qed.

Lemma expandvars_dollar h s : var_match s = 0 → expandvars h ("$"%char :: s) = "$"%char :: expandvars h s.
Proof. intros Hn. rewrite !expandvars_unfold. simpl. by rewrite Hn. Qed.

Lemma var_match_braced n v :
  "}"%char ∉ n → var_match ("{"%char :: n ++ "}"%char :: v) = S (S (length n)).
Proof.
  intros Hn. simpl. assert (take_while (λ c, bool_decide (c ≠ "}"%char)) (n ++ "}"%char :: v) = n) as ->.
  { induction n as [|x n IH]; [done|]. apply not_elem_of_cons in Hn as [? ?]. simpl.
    rewrite bool_decide_eq_true_2 by congruence. by rewrite IH. }
  by rewrite drop_app_length.
Qed.

Lemma c_str_id s : "000"%char ∉ s → c_str s = s.
Proof.
  unfold c_str. induction s as [|x s IH]; [done|]. intros [? ?]%not_elem_of_cons. simpl.
  rewrite bool_decide_eq_false_2 by congruence. simpl. by rewrite IH.
Qed.

Lemma expand_match_braced h n :
  expand_match h ("{"%char :: n ++ ["}"%char]) =
  default ("$"%char :: "{"%char :: n ++ ["}"%char]) (host_getenv h (c_str n)).
Proof.
  unfold expand_match. rewrite decide_True by done.
  rewrite app_comm_cons, last_snoc, decide_True by done.
  rewrite removelast_snoc. by destruct (host_getenv h (c_str n)).
Qed.

Lemma expand_match_undefined h name :
  (∀ n, host_getenv h n = None) → expand_match h name = "$"%char :: name.
Proof.
  intros Hu. unfold expand_match. destruct name as [|c name]; [done|].
  repeat case_decide; by rewrite ?Hu.
Qed.

(** ** Properties *)

(** [normpath] computes a canonical form.  Two paths have the same
    [normpath] exactly when they have the same root ([""], ["/"] or ["//"])
    and name the same location from every base directory; so normalisation
    neither changes the file a path means nor distinguishes two spellings of
    the same lexical path. *)
Theorem normpath_canonical p q :
  normpath p = normpath q ↔
  initial_slashes p = initial_slashes q ∧ ∀ base, resolve base p = resolve base q.
Proof.
  split.
  - intros H. split.
    + by rewrite <-(normpath_initial p), H, normpath_initial.
    + intros base. by rewrite <-(normpath_sound p), H, normpath_sound.
  - intros [Hi Hr]. apply normpath_eq; [done|]. by apply resolve_comps_inj.
Qed.

(** The stored form is a normal form: [normpath] is idempotent, its result
    is never empty, stays absolute or relative, and its components are a run of
    [..] (only in a relative path) followed by names. *)
Theorem normpath_normal p :
  normpath (normpath p) = normpath p ∧ normpath p ≠ [] ∧ isabs (normpath p) = isabs p ∧
  normal (initial_slashes p) (norm_comps (normpath p)).
Proof.
  split_and!.
  - apply normpath_idem.
  - apply normpath_nonempty.
  - apply isabs_normpath.
  - rewrite normpath_comps. apply (norm_comps_spec p []).
Qed.

(** [relpath] inverts [join].  In a process whose working directory is an
    absolute path, [relpath path start] is a relative path that, read from the
    location of [start], names the location of [path]. *)
Theorem relpath_inverts_join h cwd path start :
  host_cwd h = Ok cwd → isabs cwd = true → path ≠ [] →
  ∃ r, relpath h path start = Ok r ∧ isabs r = false ∧
    resolve [] (join_one (join_one cwd start) r) = resolve [] (join_one cwd path).
Proof.
  intros Hcwd Habs Hne.
  assert (∀ p, abs_parts h p = Ok (resolve [] (join_one cwd p))) as Hparts.
  { intros p. rewrite (abs_parts_location h p cwd) by done. unfold location.
    rewrite Hcwd. simpl. by rewrite join_one_resolve. }
  eexists. split.
  { apply (relpath_eq _ _ _ _ _ Hne (Hparts start) (Hparts path)). by apply resolve_names. }
  destruct (render_rel (rel_comps (resolve [] (join_one cwd start)) (resolve [] (join_one cwd path))))
    as [Ha Hw]; [apply rel_comps_normal; by apply resolve_names|].
  split; [done|]. rewrite (join_one_resolve _ (join_one cwd start)), Hw.
  apply rel_comps_walk. by apply resolve_names.
Qed.

Definition sample_host : host :=
  Host (Ok (bs "/w")) (λ n, if decide (n = bs "HOME") then Some (bs "/home/u/") else None) None (λ _, None).

Lemma relpath_inverts_join_witness :
  host_cwd sample_host = Ok (bs "/w") ∧
  ∃ r, relpath sample_host (bs "/a/b/../c") (bs "x//y") = Ok r ∧ isabs r = false ∧
    resolve [] (join_one (join_one (bs "/w") (bs "x//y")) r) =
    resolve [] (join_one (bs "/w") (bs "/a/b/../c")).
Proof. split; [done|]. apply (relpath_inverts_join sample_host (bs "/w")); done. Defined.

(** [split] and [join] agree: joining the two halves of a path names the
    location the path names, from every base. *)
Theorem split_join_resolve base p :
  resolve base (join (dirname p) [basename p]) = resolve base p.
Proof. apply split_resolve_eq. Qed.

(** [expandvars] is one pass that leaves text and undefined variables
    literal: a braced reference expands to the variable's value, or to itself
    when the variable is undefined, the value is not scanned again, and the
    rest of the path is expanded independently. *)
Theorem expandvars_braced h u n v :
  "$"%char ∉ u → "}"%char ∉ n → "000"%char ∉ n →
  expandvars h (u ++ bs "${" ++ n ++ bs "}" ++ v) =
  u ++ default (bs "${" ++ n ++ bs "}") (host_getenv h n) ++ expandvars h v.
Proof.
  intros Hu Hn Hz. rewrite expandvars_literal by done. f_equal.
  change (bs "${" ++ n ++ bs "}" ++ v) with ("$"%char :: "{"%char :: n ++ "}"%char :: v).
  rewrite (expandvars_match _ _ (S (length n))) by by apply var_match_braced.
  assert ("{"%char :: n ++ "}"%char :: v = ("{"%char :: n ++ ["}"%char]) ++ v) as Hs
    by by rewrite <-app_comm_cons, <-app_assoc.
  assert (S (S (length n)) = length ("{"%char :: n ++ ["}"%char])) as ->
    by (simpl; rewrite length_app; simpl; lia).
  rewrite Hs, take_app_length, drop_app_length, expand_match_braced, c_str_id by done. done.
Qed.

Lemma expandvars_braced_witness :
  expandvars sample_host (bs "a/" ++ bs "${" ++ bs "HOME" ++ bs "}" ++ bs "/$X") = bs "a//home/u//$X".
Proof.
  rewrite (expandvars_braced sample_host (bs "a/") (bs "HOME") (bs "/$X"));
    [done|apply (bool_decide_unpack _); done..].
Defined.
