(* ===== verification/Reach.v ===== *)
(** * Reachability and breadth-first search

    The walks of a graph given by its successor lists, and the invariant of a
    breadth-first search over it.  The include graph's [reachable] and
    [shortest_path] and the dependency planner's worklist are different loops;
    they share this invariant. *)

From S2P Require Export Prelude.

Lemma rtc_reverse {A} (R R' : relation A) x y :
  (∀ a b, R a b → R' b a) → rtc R x y → rtc R' y x.
Proof.
  intros HR. induction 1 as [|a b c Hab _ IH]; [done|]. eapply rtc_r; [done|]. by apply HR.
Qed.

Lemma nsteps_reverse {A} (R R' : relation A) n x y :
  (∀ a b, R a b → R' b a) → nsteps R n x y → nsteps R' n y x.
Proof.
  intros HR. induction 1 as [|n a b c Hab _ IH]; [constructor|]. eapply nsteps_r; [done|]. by apply HR.
Qed.

(** [chain R x l y]: [l] is a path of [R] from [x] to [y], both included. *)
Inductive chain {A} (R : relation A) : A → list A → A → Prop :=
| chain_one x : chain R x [x] x
| chain_cons x y l z : R x y → chain R y l z → chain R x (x :: l) z.

Lemma chain_nsteps {A} (R : relation A) x l y :
  chain R x l y → ∃ n, length l = S n ∧ nsteps R n x y.
Proof.
  induction 1 as [x|x y l z Hxy _ (n & Hl & Hn)]; [exists 0; split; [done|constructor]|].
  exists (S n). simpl. split; [by f_equal|]. by econstructor.
Qed.

Section fresh.
Context {A : Type} `{Countable A}.

(** The elements of [l] that are not in [seen], each once, in order: what a loop
    [if (seen.insert(x).second) queue.push_back(x)] appends. *)
Fixpoint fresh (seen : gset A) (l : list A) : list A :=
  match l with
  | [] => []
  | x :: l => if decide (x ∈ seen) then fresh seen l else x :: fresh ({[x]} ∪ seen) l
  end.

Lemma fresh_spec seen l :
  NoDup (fresh seen l) ∧ ∀ x, x ∈ fresh seen l ↔ x ∈ l ∧ x ∉ seen.
Proof.
  revert seen. induction l as [|y l IH]; intros seen; simpl.
  { split; [constructor|]. intros x. rewrite elem_of_nil. tauto. }
  case_decide as Hy.
  { destruct (IH seen) as [Hn Hi]. split; [done|]. intros x. rewrite Hi, elem_of_cons. naive_solver. }
  destruct (IH ({[y]} ∪ seen)) as [Hn Hi]. split.
  - constructor; [|done]. rewrite Hi. set_solver.
  - intros x. rewrite !elem_of_cons, Hi. destruct (decide (x = y)) as [->|]; [tauto|]. set_solver.
Qed.

End fresh.

Section reach.
Context {A : Type} `{Countable A}.
Context (succ : A → list A).

Definition edge (x y : A) : Prop := y ∈ succ x.

(** [walk n x y]: there is a walk of [n] edges from [x] to [y]. *)
Definition steps (n : nat) (x y : A) : Prop := nsteps edge n x y.

(** The search invariant: [done] are the processed items (node, depth) in order,
    [queue] those waiting, [seeds] the start nodes and [cut d] holds when an item
    of depth [d] is not expanded. *)
Record bfs_inv (seeds : list A) (cut : nat → bool) (done queue : list (A * nat)) : Prop := {
  bfs_nodup : NoDup (done ++ queue).*1;
  bfs_sorted : StronglySorted le (done ++ queue).*2;
  bfs_bound x d y d' rest : queue = (x, d) :: rest → (y, d') ∈ done ++ queue → d' ≤ S d;
  bfs_seeds x : x ∈ seeds → (x, 0) ∈ done ++ queue;
  bfs_sound x d : (x, d) ∈ done ++ queue →
    ∃ s, s ∈ seeds ∧ steps d s x ∧ ∀ k, k < d → cut k = false;
  bfs_closed x d y : (x, d) ∈ done → cut d = false → edge x y →
    ∃ d', (y, d') ∈ done ++ queue ∧ d' ≤ S d
}.

Lemma bfs_initial seeds cut :
  NoDup seeds → bfs_inv seeds cut [] ((λ s, (s, 0)) <$> seeds).
Proof.
  intros Hnd. split; simpl.
  - rewrite <-list_fmap_compose. simpl. rewrite list_fmap_id. done.
  - rewrite <-list_fmap_compose. clear. induction seeds; simpl; constructor; [done|].
    apply Forall_fmap, Forall_true. intros; simpl; lia.
  - intros x d y d' rest _ (s & [= -> ->] & _)%list_elem_of_fmap. lia.
  - intros x Hx. apply list_elem_of_fmap. eauto.
  - intros x d (s & [= -> ->] & Hs)%list_elem_of_fmap. exists s.
    split; [done|]. split; [constructor|lia].
  - intros x d y ?%elem_of_nil. done.
Qed.

Lemma StronglySorted_snoc_le l n :
  StronglySorted le l → Forall (λ m, m ≤ n) l → ∀ k, StronglySorted le (l ++ replicate k n).
Proof.
  intros Hs Hf k. apply StronglySorted_app. split_and!; [|done|].
  - intros x y Hx [-> _]%elem_of_replicate. by eapply Forall_forall in Hf.
  - clear. induction k as [|k IH]; simpl; constructor; [done|]. by apply Forall_replicate.
Qed.

(** Popping an item that is not expanded. *)
Lemma bfs_skip seeds cut done x d queue :
  bfs_inv seeds cut done ((x, d) :: queue) → (cut d = true ∨ ∀ y, ¬ edge x y) →
  bfs_inv seeds cut (done ++ [(x, d)]) queue.
Proof.
  intros [Hnd Hs Hb Hse Hso Hc] Hcut. split; rewrite <-?app_assoc; simpl; try done.
  - intros z dz y d' rest -> Hy. rewrite fmap_app in Hs. simpl in Hs.
    apply StronglySorted_app in Hs as (_ & _ & Hs). inversion Hs as [|? ? _ HF]; subst.
    inversion HF; subst. specialize (Hb x d y d' _ eq_refl Hy). lia.
  - intros z dz y [Hz|Hz]%elem_of_app Hcz Hzy; [by eapply Hc|].
    apply list_elem_of_singleton in Hz as [= -> ->]. destruct Hcut as [?|Hn]; [congruence|].
    by apply Hn in Hzy.
Qed.

(** Popping an item and appending its unseen successors. *)
Lemma bfs_expand seeds cut done x d queue new :
  bfs_inv seeds cut done ((x, d) :: queue) → cut d = false → NoDup new →
  (∀ y, y ∈ new ↔ edge x y ∧ y ∉ (done ++ (x, d) :: queue).*1) →
  bfs_inv seeds cut (done ++ [(x, d)]) (queue ++ ((λ y, (y, S d)) <$> new)).
Proof.
  intros [Hnd Hs Hb Hse Hso Hc] Hcut Hndn Hnew.
  assert ((done ++ [(x, d)]) ++ queue ++ ((λ y, (y, S d)) <$> new) =
    (done ++ (x, d) :: queue) ++ ((λ y, (y, S d)) <$> new)) as Heq
    by by rewrite <-!app_assoc.
  assert (((λ y, (y, S d)) <$> new).*2 = replicate (length new) (S d)) as Hrep.
  { clear. induction new; simpl; [done|]. by f_equal. }
  assert (∀ y d', (y, d') ∈ done ++ (x, d) :: queue → d' ≤ S d) as Hbd by eauto.
  split; rewrite ?Heq.
  - rewrite fmap_app, <-list_fmap_compose. simpl. rewrite list_fmap_id.
    apply NoDup_app. split_and!; [done| |done]. intros y Hy Hy'. by apply Hnew in Hy' as [_ ?].
  - rewrite fmap_app, Hrep. apply StronglySorted_snoc_le; [done|].
    apply Forall_fmap, Forall_forall. intros [y d'] Hy. by eapply Hbd.
  - intros z dz y d' rest Hq Hy.
    assert (d ≤ dz) as Hdz.
    { destruct queue as [|[z' dz'] queue].
      - destruct new as [|w new]; simplify_eq/=. lia.
      - simplify_eq/=. rewrite fmap_app in Hs. apply StronglySorted_app in Hs as (_ & _ & Hs).
        simpl in Hs. inversion Hs as [|? ? _ HF]; subst. by inversion HF; subst. }
    apply elem_of_app in Hy as [Hy|Hy]; [apply Hbd in Hy; lia|].
    apply list_elem_of_fmap in Hy as (w & [= -> ->] & _). lia.
  - intros z Hz. apply elem_of_app. left. by apply Hse.
  - intros z dz [Hz|Hz]%elem_of_app; [by apply Hso|].
    apply list_elem_of_fmap in Hz as (w & [= -> ->] & [Hw _]%Hnew).
    destruct (Hso x d) as (s & ? & ? & Hk); [apply elem_of_app; right; by left|].
    exists s. split_and!; [done|by eapply nsteps_r|].
    intros k Hkd. destruct (decide (k = d)) as [->|]; [done|]. apply Hk; lia.
  - intros z dz y [Hz|Hz]%elem_of_app Hcz Hzy.
    + destruct (Hc z dz y Hz Hcz Hzy) as (d' & ? & ?). exists d'. rewrite elem_of_app. auto.
    + apply list_elem_of_singleton in Hz as [= -> ->].
      destruct (decide (y ∈ (done ++ (x, d) :: queue).*1)) as [Hin|Hin].
      * apply list_elem_of_fmap in Hin as ([y' d'] & -> & Hin). exists d'.
        rewrite elem_of_app. split; [by left|]. by eapply Hbd.
      * exists (S d). split; [|done]. apply elem_of_app. right. apply list_elem_of_fmap.
        exists y. split; [done|]. by apply Hnew.
Qed.

(** Every node within the depth of the queue's head is already recorded, at a
    depth no larger than its distance; when the queue is empty, every node. *)
Lemma bfs_level seeds cut done queue n s x :
  bfs_inv seeds cut done queue →
  (∀ y d rest, queue = (y, d) :: rest → n ≤ d) →
  s ∈ seeds → steps n s x → (∀ k, k < n → cut k = false) →
  ∃ d, (x, d) ∈ done ++ queue ∧ d ≤ n.
Proof.
  intros [Hnd Hs Hb Hse Hso Hc] Hq Hsd Hst Hcut.
  revert x Hq Hst Hcut. induction n as [|n IH]; intros x Hq Hst Hcut.
  { inversion Hst; subst. exists 0. auto. }
  apply nsteps_inv_r in Hst as (w & Hst & Hwx).
  destruct (IH w) as (d & Hin & Hd); [|done|auto with lia|].
  { intros y d rest E. specialize (Hq _ _ _ E). lia. }
  apply elem_of_app in Hin as [Hin|Hin].
  - destruct (Hc w d x Hin) as (d' & ? & ?); [apply Hcut; lia|done|]. exists d'. split; [done|lia].
  - destruct queue as [|[y dy] rest]; [by apply elem_of_nil in Hin|].
    specialize (Hq _ _ _ eq_refl). rewrite fmap_app in Hs.
    apply StronglySorted_app in Hs as (_ & _ & Hs). simpl in Hs.
    inversion Hs as [|? ? _ HF]; subst. apply elem_of_cons in Hin as [[= -> ->]|Hin]; [lia|].
    rewrite Forall_fmap, Forall_forall in HF. apply HF in Hin. simpl in Hin. lia.
Qed.

(** When the queue is empty, the recorded nodes are exactly those reached by a
    walk no proper prefix of which is cut. *)
Lemma bfs_done seeds cut done x :
  bfs_inv seeds cut done [] →
  x ∈ done.*1 ↔ ∃ s n, s ∈ seeds ∧ steps n s x ∧ ∀ k, k < n → cut k = false.
Proof.
  intros Hinv. split.
  - intros ([y d] & -> & Hin)%list_elem_of_fmap.
    destruct (bfs_sound _ _ _ _ Hinv y d) as (s & ? & ? & ?); [by rewrite app_nil_r|]. eauto.
  - intros (s & n & Hs & Hst & Hcut).
    destruct (bfs_level _ _ _ _ n s x Hinv) as (d & Hin & _); [done|done|done|done|].
    rewrite app_nil_r in Hin. apply list_elem_of_fmap. by exists (x, d).
Qed.

(** A search makes at most one pop per seed and edge target. *)
Lemma bfs_length seeds cut done queue (targets : list A) :
  bfs_inv seeds cut done queue → (∀ x y, edge x y → y ∈ targets) →
  length done + length queue ≤ length seeds + length targets.
Proof.
  intros Hinv Htgt. pose proof (bfs_nodup _ _ _ _ Hinv) as Hnd.
  rewrite <-!length_app, <-(length_fmap fst (done ++ queue)).
  apply submseteq_length, NoDup_submseteq; [done|].
  intros x ([y d] & -> & Hin)%list_elem_of_fmap. apply elem_of_app.
  destruct (bfs_sound _ _ _ _ Hinv _ _ Hin) as (s & Hs & Hst & _). destruct d as [|d].
  - inversion Hst; subst. by left.
  - apply nsteps_inv_r in Hst as (w & _ & Hw). right. by eapply Htgt.
Qed.

Lemma steps_rtc x y : (∃ n, steps n x y) ↔ rtc edge x y.
Proof. symmetry. apply rtc_nsteps. Qed.

End reach.
