(* ===== verification/HeaderClaims.v ===== *)
(** * Owned-header claims: [src/src/index/header_claims.cpp]

    The scheduler-owned oracle that decides which translation unit extracts a
    shared header.  Every method runs under one mutex, so a method call is one
    step; [claim] is a step enabled only when its gate is open.

    The wait times of the metrics (a clock) are not modelled; the counters are
    64-bit and wrap. *)

From S2P Require Export Bytes.

(** ** Data *)

Record HeaderClaimCandidate := Candidate {
  path : bytes;
  parsed_md5 : option bytes;
  already_indexed_in_database : bool
}.

Record Grant := MkGrant {
  grant_md5 : option bytes;
  owner : nat
}.

(** [(header path, configuration identity)]. *)
Abbreviation ClaimKey := (bytes * bytes)%type.

Record HeaderClaimMetrics := Metrics {
  candidates : N;
  granted_count : N;
  denied_already_indexed : N;
  denied_in_flight_owner : N;
  regranted_on_retry : N;
  revoked_after_publish_failure : N
}.

(** [++counter] on [std::uint64_t]. *)
Definition incr (n : N) : N := ((n + 1) mod 2 ^ 64)%N.

Definition count_candidate (m : HeaderClaimMetrics) : HeaderClaimMetrics :=
  Metrics (incr (candidates m)) (granted_count m) (denied_already_indexed m)
    (denied_in_flight_owner m) (regranted_on_retry m) (revoked_after_publish_failure m).
Definition count_granted (m : HeaderClaimMetrics) : HeaderClaimMetrics :=
  Metrics (candidates m) (incr (granted_count m)) (denied_already_indexed m)
    (denied_in_flight_owner m) (regranted_on_retry m) (revoked_after_publish_failure m).
Definition count_already (m : HeaderClaimMetrics) : HeaderClaimMetrics :=
  Metrics (candidates m) (granted_count m) (incr (denied_already_indexed m))
    (denied_in_flight_owner m) (regranted_on_retry m) (revoked_after_publish_failure m).
Definition count_in_flight (m : HeaderClaimMetrics) : HeaderClaimMetrics :=
  Metrics (candidates m) (granted_count m) (denied_already_indexed m)
    (incr (denied_in_flight_owner m)) (regranted_on_retry m) (revoked_after_publish_failure m).
Definition count_retry (m : HeaderClaimMetrics) : HeaderClaimMetrics :=
  Metrics (candidates m) (granted_count m) (denied_already_indexed m)
    (denied_in_flight_owner m) (incr (regranted_on_retry m)) (revoked_after_publish_failure m).
Definition count_revoked (m : HeaderClaimMetrics) : HeaderClaimMetrics :=
  Metrics (candidates m) (granted_count m) (denied_already_indexed m)
    (denied_in_flight_owner m) (regranted_on_retry m) (incr (revoked_after_publish_failure m)).

(** [SequencedHeaderClaimOracle::Impl]. *)
Record oracle := Oracle {
  granted : gmap ClaimKey Grant;
  released : gset nat;
  next_rank : nat;
  cancelled : bool;
  metrics : HeaderClaimMetrics
}.

Definition initial_oracle : oracle := Oracle ∅ ∅ 0 false (Metrics 0 0 0 0 0 0).

(** ** Operations *)

(** [while (released_.erase(next_rank_) != 0) ++next_rank_;] *)
Fixpoint advance (fuel : nat) (rel : gset nat) (next : nat) : gset nat * nat :=
  match fuel with
  | 0 => (rel, next)
  | S fuel => if decide (next ∈ rel) then advance fuel (rel ∖ {[next]}) (S next) else (rel, next)
  end.

Definition release (rank : nat) (st : oracle) : oracle :=
  let rel := released st ∪ {[rank]} in
  let '(rel', next') := advance (size rel) rel (next_rank st) in
  Oracle (granted st) rel' next' (cancelled st) (metrics st).

(** The loop body of [claim]: the decision on one candidate.  The state of the
    loop is the grant map and the counters. *)
Definition claim_one (rank : nat) (cfg : bytes) (g : gmap ClaimKey Grant) (m : HeaderClaimMetrics)
    (c : HeaderClaimCandidate) : gmap ClaimKey Grant * HeaderClaimMetrics * bool :=
  let m := count_candidate m in
  if already_indexed_in_database c then (g, count_already m, false)
  else
    let key := (path c, cfg) in
    let grant := (<[key := MkGrant (parsed_md5 c) rank]> g, count_granted m, true) in
    match g !! key with
    | Some existing =>
        if decide (grant_md5 existing = parsed_md5 c) then
          if decide (owner existing = rank) then (g, count_retry m, true)
          else (g, count_in_flight m, false)
        else grant
    | None => grant
    end.

Fixpoint claim_all (rank : nat) (cfg : bytes) (g : gmap ClaimKey Grant) (m : HeaderClaimMetrics)
    (cs : list HeaderClaimCandidate) : gmap ClaimKey Grant * HeaderClaimMetrics * list bool :=
  match cs with
  | [] => (g, m, [])
  | c :: cs =>
      let '(g, m, b) := claim_one rank cfg g m c in
      let '(g, m, owned) := claim_all rank cfg g m cs in
      (g, m, b :: owned)
  end.

(** The predicate [claim] waits for. *)
Definition gate_open (st : oracle) (rank : nat) : bool :=
  cancelled st || bool_decide (rank ≤ next_rank st).

(** [claim], once its gate is open. *)
Definition claim (rank : nat) (cfg : bytes) (cs : list HeaderClaimCandidate) (st : oracle)
    : oracle * list bool :=
  if cancelled st then (st, replicate (length cs) false)
  else
    let '(g, m, owned) := claim_all rank cfg (granted st) (metrics st) cs in
    (release rank (Oracle g (released st) (next_rank st) (cancelled st) m), owned).

Definition release_unclaimed (rank : nat) (st : oracle) : oracle :=
  if cancelled st || bool_decide (rank < next_rank st) then st else release rank st.

Definition revoke_grants (rank : nat) (st : oracle) : oracle :=
  let dropped := filter (λ kg, owner kg.2 = rank) (granted st) in
  Oracle (filter (λ kg, owner kg.2 ≠ rank) (granted st)) (released st) (next_rank st)
    (cancelled st) (Nat.iter (size dropped) count_revoked (metrics st)).

Definition cancel (st : oracle) : oracle :=
  Oracle (granted st) (released st) (next_rank st) true (metrics st).

(** ** The run: concurrent translation units

    Each of [n] units performs one action, in any order the gate allows. *)

Inductive action :=
| AClaim (cfg : bytes) (cs : list HeaderClaimCandidate)   (* parsed: claims *)
| ARelease.                                              (* will never claim *)

(** The oracle and the answers given so far. *)
Record run := Run {
  st : oracle;
  answers : gmap nat (list bool)
}.

Definition initial_run : run := Run initial_oracle ∅.

Inductive unit_step (act : nat → action) (n : nat) : run → run → Prop :=
| step_claim r cfg cs s owned s' a :
    r < n → a !! r = None → act r = AClaim cfg cs → gate_open s r = true →
    claim r cfg cs s = (s', owned) →
    unit_step act n (Run s a) (Run s' (<[r := owned]> a))
| step_release r s a :
    r < n → a !! r = None → act r = ARelease →
    unit_step act n (Run s a) (Run (release_unclaimed r s) (<[r := []]> a)).

(** The serial reference: unit after unit, with no gate. *)
Definition serial_unit (act : nat → action) (gm : gmap ClaimKey Grant * HeaderClaimMetrics) (r : nat)
    : gmap ClaimKey Grant * HeaderClaimMetrics :=
  match act r with
  | AClaim cfg cs => (claim_all r cfg gm.1 gm.2 cs).1
  | ARelease => gm
  end.

Definition serial (act : nat → action) (r : nat) : gmap ClaimKey Grant * HeaderClaimMetrics :=
  foldl (serial_unit act) (granted initial_oracle, metrics initial_oracle) (seq 0 r).

Definition serial_answer (act : nat → action) (r : nat) : list bool :=
  match act r with
  | AClaim cfg cs => (claim_all r cfg (serial act r).1 (serial act r).2 cs).2
  | ARelease => []
  end.

(** ** Traces of method calls

    Calls in any order, retries, revocations and cancellation included; a
    [claim] returns only once its gate is open. *)

Inductive call :=
| CClaim (rank : nat) (cfg : bytes) (cs : list HeaderClaimCandidate)
| CRelease (rank : nat)
| CRevoke (rank : nat)
| CCancel.

Definition enabled (c : call) (s : oracle) : bool :=
  match c with CClaim rank _ _ => gate_open s rank | _ => true end.

Definition exec (c : call) (s : oracle) : oracle * list bool :=
  match c with
  | CClaim rank cfg cs => claim rank cfg cs s
  | CRelease rank => (release_unclaimed rank s, [])
  | CRevoke rank => (revoke_grants rank s, [])
  | CCancel => (cancel s, [])
  end.

Inductive trace : oracle → list (call * list bool) → oracle → Prop :=
| trace_nil s : trace s [] s
| trace_cons s c s' o tr s'' :
    enabled c s = true → exec c s = (s', o) → trace s' tr s'' → trace s ((c, o) :: tr) s''.

(** Every unit parsed the same bytes of a header under one configuration. *)
Definition consistent_call (digest : ClaimKey → option bytes) (c : call) : Prop :=
  match c with
  | CClaim _ cfg cs => Forall (λ c, parsed_md5 c = digest (path c, cfg)) cs
  | _ => True
  end.

Definition no_revoke (c : call) : Prop := match c with CRevoke _ => False | _ => True end.

(** The counters add up: every candidate is counted under one outcome. *)
Definition accounted (m : HeaderClaimMetrics) : Prop :=
  candidates m = ((granted_count m + denied_already_indexed m + denied_in_flight_owner m
                   + regranted_on_retry m) mod 2 ^ 64)%N.

(** ** Lemmas *)

Lemma serial_S act r : serial act (S r) = serial_unit act (serial act r) r.
Proof. unfold serial. by rewrite seq_S, foldl_app. Qed.

(** The loop stops at the first rank that was not released, having erased every
    rank it passed. *)
Lemma advance_spec fuel rel next rel' next' :
  size rel ≤ fuel → advance fuel rel next = (rel', next') →
  next ≤ next' ∧ next' ∉ rel' ∧ (∀ r, next ≤ r < next' → r ∈ rel) ∧
  (∀ r, r ∈ rel' ↔ r ∈ rel ∧ (r < next ∨ next' ≤ r)).
Proof.
  revert rel next. induction fuel as [|fuel IH]; intros rel next Hsz; simpl.
  { intros [= <- <-]. assert (rel = ∅) as -> by (apply leibniz_equiv, size_empty_inv; lia).
    split_and!; [lia|set_solver|lia|set_solver]. }
  case_decide as Hin.
  2:{ intros [= <- <-]. split_and!; [lia|done|lia|]. intros r. destruct (decide (r < next)); [tauto|].
      split; [|tauto]. intros. split; [done|lia]. }
  intros Ha. apply IH in Ha as (Hle & Hni & Hbet & Hiff).
  2:{ rewrite size_difference, size_singleton by set_solver. lia. }
  split_and!; [lia|done| |].
  - intros r Hr. destruct (decide (r = next)) as [->|]; [done|].
    assert (r ∈ rel ∖ {[next]}) by (apply Hbet; lia). set_solver.
  - intros r. rewrite Hiff, elem_of_difference, elem_of_singleton. intuition lia.
Qed.

Lemma release_spec r s :
  let s' := release r s in
  granted s' = granted s ∧ metrics s' = metrics s ∧ cancelled s' = cancelled s ∧
  next_rank s ≤ next_rank s' ∧ next_rank s' ∉ released s' ∧
  (∀ k, next_rank s ≤ k < next_rank s' → k ∈ released s ∨ k = r) ∧
  (∀ k, k ∈ released s' ↔ (k ∈ released s ∨ k = r) ∧ (k < next_rank s ∨ next_rank s' ≤ k)).
Proof.
  unfold release. simpl.
  destruct (advance _ _ _) as [rel' next'] eqn:E. simpl.
  apply advance_spec in E as (?&?&Hb&Hi); [|done]. split_and!; try done.
  - intros k Hk. apply Hb in Hk. set_solver.
  - intros k. rewrite Hi. set_solver.
Qed.

Lemma serial_skip act r r' :
  r ≤ r' → (∀ k, r ≤ k < r' → act k = ARelease) → serial act r' = serial act r.
Proof.
  intros Hle. induction Hle as [|r' Hle IH]; [done|]. intros Hk.
  rewrite serial_S. unfold serial_unit. rewrite (Hk r') by lia. apply IH. intros; apply Hk; lia.
Qed.

(** The invariant of a run: exactly the ranks below [next_rank] and the
    released ones have acted, a released rank made no claim, and the oracle has
    seen what the serial run has seen after [next_rank] units. *)
Record run_inv (act : nat → action) (n : nat) (x : run) : Prop := {
  inv_cancelled : cancelled (st x) = false;
  inv_bound r : is_Some (answers x !! r) → r < n;
  inv_below r : r < next_rank (st x) → is_Some (answers x !! r);
  inv_next : answers x !! next_rank (st x) = None;
  inv_released r : r ∈ released (st x) ↔ is_Some (answers x !! r) ∧ next_rank (st x) < r;
  inv_release r : r ∈ released (st x) → act r = ARelease;
  inv_serial : (granted (st x), metrics (st x)) = serial act (next_rank (st x));
  inv_answers r l : answers x !! r = Some l → l = serial_answer act r
}.

Lemma run_inv_initial act n : run_inv act n initial_run.
Proof.
  split; simpl; try done; try (intros; lia).
  - intros r [? H]. by rewrite lookup_empty in H.
  - intros r. split; [set_solver|]. intros [[? H] _]. by rewrite lookup_empty in H.
Qed.

(** Releasing a rank that has just acted re-establishes the invariant, if the
    grants are those of the serial run past the released prefix. *)
Lemma run_inv_release act n s a r l :
  run_inv act n (Run s a) → r < n → a !! r = None → l = serial_answer act r →
  ∀ g m, (act r = ARelease ∧ (g, m) = (granted s, metrics s) ∨
          r = next_rank s ∧ (g, m) = serial act (S r)) →
  run_inv act n
    (Run (release r (Oracle g (released s) (next_rank s) (cancelled s) m)) (<[r := l]> a)).
Proof.
  intros [Hc Hb Hlt Hn Hr Hrel Hs Ha] Hrn Har Hl g m Hgm. simpl in *.
  assert (next_rank s ≤ r) as Hle.
  { destruct (decide (r < next_rank s)) as [Hlt'|]; [|lia]. apply Hlt in Hlt' as [? ?]. congruence. }
  pose proof (release_spec r (Oracle g (released s) (next_rank s) (cancelled s) m)) as Hspec.
  destruct Hspec as (Eg & Em & Ec & Hnn & Hni & Hbet & Hiff).
  remember (release _ _) as s'. clear Heqs'. simpl in *.
  assert (∀ k, k = r ∨ k ∈ released s → next_rank s' ≠ k ∨ k < next_rank s) as Hskip.
  { intros k Hk. destruct (decide (next_rank s' = k)) as [<-|]; [|by left].
    destruct Hni. apply Hiff. split; [naive_solver|by right]. }
  split; simpl.
  - congruence.
  - intros k [? Hk]. destruct (decide (k = r)) as [->|]; [done|].
    apply Hb. rewrite lookup_insert_ne in Hk by done. eauto.
  - intros k Hk. destruct (decide (k = r)) as [->|]; [rewrite lookup_insert_eq; eauto|].
    rewrite lookup_insert_ne by done. destruct (decide (k < next_rank s)); [by apply Hlt|].
    destruct (Hbet k) as [Hkr|]; [lia| |done]. by apply Hr.
  - destruct (decide (next_rank s' = r)) as [Heq|].
    { destruct (Hskip r); [by left|done|]. lia. }
    rewrite lookup_insert_ne by done. destruct (decide (next_rank s' = next_rank s)) as [->|]; [done|].
    destruct (a !! next_rank s') eqn:E; [|done]. exfalso.
    destruct (Hskip (next_rank s')); [|done|lia]. right. apply Hr. split; [eauto|lia].
  - intros k. rewrite Hiff, Hr. destruct (decide (k = r)) as [->|].
    + rewrite lookup_insert_eq. destruct (Hskip r); [by left| |lia].
      split; [intros [_ ?]; split; [eauto|lia]|]. intros [_ ?]. split; [by right|right; lia].
    + rewrite lookup_insert_ne by done. split.
      * intros [[[? ?]|?] ?]; [|done]. split; [done|].
        destruct (Hskip k); [right; by apply Hr|lia|lia].
      * intros [? ?]. split; [left; split; [done|lia]|right; lia].
  - intros k. rewrite Hiff. intros [[?| ->] Hk]; [by apply Hrel|].
    destruct Hgm as [[? _]|[-> _]]; [done|].
    destruct (Hskip (next_rank s)); [by left|lia|lia].
  - rewrite Eg, Em.
    destruct Hgm as [[Hact Hgm]|[-> Hgm]].
    + rewrite Hgm, Hs. symmetry. apply serial_skip; [done|]. intros k Hk.
      destruct (Hbet k) as [|]; [done|by apply Hrel|by subst].
    + rewrite Hgm. symmetry. apply serial_skip.
      * destruct (Hskip (next_rank s)); [by left|lia|lia].
      * intros k Hk. destruct (Hbet k) as [|]; [lia|by apply Hrel|lia].
  - intros k l'. destruct (decide (k = r)) as [->|].
    + rewrite lookup_insert_eq. congruence.
    + rewrite lookup_insert_ne by done. apply Ha.
Qed.

Lemma run_inv_step act n x y : run_inv act n x → unit_step act n x y → run_inv act n y.
Proof.
  intros Hinv. destruct 1 as [r cfg cs s owned s' a Hr Ha Hact Hgate Hclaim|r s a Hr Ha Hact].
  - pose proof (inv_cancelled _ _ _ Hinv) as Hc. simpl in Hc.
    unfold gate_open in Hgate. rewrite Hc in Hgate. simpl in Hgate. bool_split.
    assert (r = next_rank s) as Hrn.
    { destruct (decide (r < next_rank s)) as [Hlt|]; [|lia].
      apply (inv_below _ _ _ Hinv) in Hlt as [? ?]. simpl in *. congruence. }
    pose proof (inv_serial _ _ _ Hinv) as Hs. simpl in Hs.
    unfold claim in Hclaim. rewrite Hc in Hclaim.
    destruct (claim_all r cfg (granted s) (metrics s) cs) as [[g m] o] eqn:E.
    injection Hclaim as <- <-. rewrite <-Hc.
    apply (run_inv_release _ _ _ _ _ _ Hinv); [done|done| |].
    + unfold serial_answer. rewrite Hact, Hrn, <-Hs, <-Hrn. simpl. by rewrite E.
    + right. split; [done|]. rewrite serial_S. unfold serial_unit.
      rewrite Hact, Hrn, <-Hs, <-Hrn. simpl. by rewrite E.
  - pose proof (inv_cancelled _ _ _ Hinv) as Hc. simpl in Hc.
    unfold release_unclaimed. rewrite Hc. simpl.
    rewrite bool_decide_eq_false_2.
    2:{ intros Hlt. apply (inv_below _ _ _ Hinv) in Hlt as [? ?]. simpl in *. congruence. }
    destruct s as [g rel nx cc m]. apply (run_inv_release _ _ _ _ _ _ Hinv); [done|done| |by left].
    unfold serial_answer. by rewrite Hact.
Qed.

Lemma run_inv_reachable act n x : rtc (unit_step act n) initial_run x → run_inv act n x.
Proof.
  intros H. assert (∀ y, run_inv act n y → rtc (unit_step act n) y x → run_inv act n x) as Hx.
  { clear H. intros y Hy. induction 1; [done|]. eauto using run_inv_step. }
  by apply (Hx initial_run); [apply run_inv_initial|].
Qed.

(** ** Lemmas: grants *)

Definition grants_consistent (digest : ClaimKey → option bytes) (g : gmap ClaimKey Grant) : Prop :=
  ∀ k x, g !! k = Some x → grant_md5 x = digest k.

Lemma grants_consistent_initial digest : grants_consistent digest (granted initial_oracle).
Proof. intros k x Hk. simpl in Hk. by rewrite lookup_empty in Hk. Qed.

(** The candidate [c] of unit [rank] is owned: it is not current in the
    database and the grant map names [rank]. *)
Definition owns (g : gmap ClaimKey Grant) (rank : nat) (cfg : bytes) (c : HeaderClaimCandidate) : Prop :=
  already_indexed_in_database c = false ∧ owner <$> g !! (path c, cfg) = Some rank.

Lemma claim_one_spec digest rank cfg g m c :
  grants_consistent digest g → parsed_md5 c = digest (path c, cfg) →
  let '(g', _, b) := claim_one rank cfg g m c in
  grants_consistent digest g' ∧ g ⊆ g' ∧ (b = true ↔ owns g' rank cfg c) ∧
  (already_indexed_in_database c = false → is_Some (g' !! (path c, cfg))).
Proof.
  intros Hg Hc. unfold claim_one, owns.
  destruct (already_indexed_in_database c) eqn:E; [split_and!; try done; naive_solver|].
  destruct (g !! (path c, cfg)) as [x|] eqn:Ex.
  - rewrite decide_True by (rewrite (Hg _ _ Ex); done).
    case_decide; split_and!; try done; rewrite Ex; naive_solver.
  - split_and!.
    + intros k y. destruct (decide (k = (path c, cfg))) as [->|].
      * rewrite lookup_insert_eq. by intros [= <-].
      * rewrite lookup_insert_ne by done. apply Hg.
    + by apply insert_subseteq.
    + by rewrite lookup_insert_eq.
    + rewrite lookup_insert_eq. eauto.
Qed.

(** The answer is a function of the final grants: a granted key keeps its owner. *)
Lemma owns_mono g g' rank cfg c :
  g ⊆ g' → is_Some (g !! (path c, cfg)) → owns g rank cfg c ↔ owns g' rank cfg c.
Proof.
  intros Hsub [x Hx]. unfold owns. rewrite Hx, (lookup_weaken _ _ _ _ Hx Hsub). done.
Qed.

Lemma claim_all_spec digest rank cfg g m cs :
  grants_consistent digest g → Forall (λ c, parsed_md5 c = digest (path c, cfg)) cs →
  let '(g', _, owned) := claim_all rank cfg g m cs in
  grants_consistent digest g' ∧ g ⊆ g' ∧
  Forall2 (λ c b, (b = true ↔ owns g' rank cfg c) ∧
    (already_indexed_in_database c = false → is_Some (g' !! (path c, cfg)))) cs owned.
Proof.
  intros Hg Hcs. revert g m Hg. induction Hcs as [|c cs Hc _ IH]; intros g m Hg; simpl; [done|].
  pose proof (claim_one_spec digest rank cfg g m c Hg Hc) as H1.
  destruct (claim_one rank cfg g m c) as [[g1 m1] b]. destruct H1 as (Hg1 & Hs1 & Hb & Hsome).
  specialize (IH g1 m1 Hg1). destruct (claim_all rank cfg g1 m1 cs) as [[g2 m2] owned].
  destruct IH as (Hg2 & Hs2 & HF). split_and!; [done|by etrans|].
  constructor; [|done]. split.
  - rewrite Hb. destruct (already_indexed_in_database c) eqn:E; [unfold owns; rewrite E; split; by intros []|].
    apply owns_mono; auto.
  - intros E. destruct (Hsome E) as [x Hx]. exists x. by eapply lookup_weaken.
Qed.

Lemma release_granted r s : granted (release r s) = granted s.
Proof. apply release_spec. Qed.

(** What one call does to consistent grants. *)
Lemma exec_spec digest c s s' o :
  grants_consistent digest (granted s) → consistent_call digest c → no_revoke c →
  exec c s = (s', o) →
  grants_consistent digest (granted s') ∧ granted s ⊆ granted s' ∧
  match c with
  | CClaim rank cfg cs => Forall2 (λ c b, b = true → owns (granted s') rank cfg c) cs o
  | _ => True
  end.
Proof.
  intros Hg Hc Hr. destruct c as [rank cfg cs|rank|rank|]; simpl in *; try done.
  - unfold claim. destruct (cancelled s).
    { intros [= <- <-]. split_and!; try done. clear. by induction cs; constructor. }
    pose proof (claim_all_spec digest rank cfg (granted s) (metrics s) cs Hg Hc) as Hall.
    destruct (claim_all _ _ _ _ _) as [[g m] owned]. destruct Hall as (?&?&HF).
    intros [= <- <-]. rewrite release_granted. simpl. split_and!; try done.
    eapply Forall2_impl; [exact HF|]. naive_solver.
  - intros [= <- <-]. unfold release_unclaimed. case_match; [done|]. by rewrite release_granted.
  - by intros [= <- <-].
Qed.

Lemma trace_grants digest s tr s' :
  trace s tr s' → grants_consistent digest (granted s) →
  Forall (λ co, consistent_call digest co.1 ∧ no_revoke co.1) tr →
  granted s ⊆ granted s' ∧
  ∀ rank cfg cs o i c, (CClaim rank cfg cs, o) ∈ tr → cs !! i = Some c → o !! i = Some true →
    owns (granted s') rank cfg c.
Proof.
  induction 1 as [s|s c s1 o tr s2 Hen Hex Htr IH]; intros Hg HF.
  { split; [done|]. intros * ?%elem_of_nil. done. }
  apply Forall_cons in HF as [[Hc Hr] HF]. simpl in *.
  destruct (exec_spec _ _ _ _ _ Hg Hc Hr Hex) as (Hg1 & Hs1 & Ho).
  destruct (IH Hg1 HF) as [Hs2 Hown]. split; [by etrans|].
  intros rank cfg cs o' i c' [Heq|Hin]%elem_of_cons Hi Hb; [|by eapply Hown].
  injection Heq as <- <-. simpl in Ho.
  pose proof (Forall2_lookup_lr _ _ _ _ _ _ Ho Hi Hb eq_refl) as Hw.
  refine (proj1 (owns_mono _ _ _ _ _ Hs2 _) Hw). destruct Hw as [_ Hw].
  destruct (granted s1 !! (path c', cfg)); [eauto|done].
Qed.

(** ** Lemmas: counters *)

Lemma incr_mod z w : (w ≤ z)%N → incr (z mod 2 ^ 64) = ((incr w + (z - w)) mod 2 ^ 64)%N.
Proof. intros Hle. unfold incr. rewrite !N.Div0.add_mod_idemp_l. f_equal. lia. Qed.

Lemma accounted_one rank cfg g m c : accounted m → accounted (claim_one rank cfg g m c).1.2.
Proof.
  unfold claim_one, accounted. intros Hm.
  repeat case_match; simpl; rewrite Hm;
    match goal with
    | |- context [incr (granted_count m)] => rewrite (incr_mod _ (granted_count m)) by lia
    | |- context [incr (denied_already_indexed m)] => rewrite (incr_mod _ (denied_already_indexed m)) by lia
    | |- context [incr (denied_in_flight_owner m)] => rewrite (incr_mod _ (denied_in_flight_owner m)) by lia
    | |- context [incr (regranted_on_retry m)] => rewrite (incr_mod _ (regranted_on_retry m)) by lia
    end; f_equal; lia.
Qed.

Lemma accounted_claim_all rank cfg g m cs : accounted m → accounted (claim_all rank cfg g m cs).1.2.
Proof.
  revert g m. induction cs as [|c cs IH]; intros g m Hm; simpl; [done|].
  pose proof (accounted_one rank cfg g m c Hm) as Hm1.
  destruct (claim_one rank cfg g m c) as [[g1 m1] b].
  specialize (IH g1 m1 Hm1). by destruct (claim_all rank cfg g1 m1 cs) as [[g2 m2] o].
Qed.

Lemma accounted_exec c s : accounted (metrics s) → accounted (metrics (exec c s).1).
Proof.
  assert (∀ r s, metrics (release r s) = metrics s) as Hrel by (intros r s'; apply release_spec).
  destruct c as [rank cfg cs|rank|rank|]; simpl; [| | |done].
  - unfold claim. destruct (cancelled s); [done|]. intros Hm.
    pose proof (accounted_claim_all rank cfg (granted s) (metrics s) cs Hm) as H.
    destruct (claim_all _ _ _ _ _) as [[g m] o]. simpl. by rewrite Hrel.
  - unfold release_unclaimed. case_match; [done|]. by rewrite Hrel.
  - intros Hm. generalize (size (filter (λ kg : ClaimKey * Grant, owner kg.2 = rank) (granted s))).
    intros n. induction n as [|n IH]; [done|]. simpl. exact IH.
Qed.

(** ** Properties *)

(** C9: the answers are those of the serial run.  Whatever order the workers
    finish in, each unit that has acted has received the answer the serial,
    rank-after-rank run gives it; the gate never stalls, since some unit can act
    as long as one has not; and once all have acted the grants and counters are
    those of the serial run. *)
Theorem claims_deterministic act n s a :
  rtc (unit_step act n) initial_run (Run s a) →
  (∀ r owned, a !! r = Some owned → owned = serial_answer act r) ∧
  ((∃ r, r < n ∧ a !! r = None) → ∃ x, unit_step act n (Run s a) x) ∧
  ((∀ r, r < n → is_Some (a !! r)) → (granted s, metrics s) = serial act n).
Proof.
  intros Hinv%run_inv_reachable. split_and!.
  - apply (inv_answers _ _ _ Hinv).
  - intros (r & Hr & Har).
    assert (next_rank s ≤ r) as Hle.
    { destruct (decide (r < next_rank s)) as [Hlt|]; [|lia].
      apply (inv_below _ _ _ Hinv) in Hlt as [? ?]. simpl in *. congruence. }
    pose proof (inv_next _ _ _ Hinv) as Hn. simpl in Hn.
    destruct (act (next_rank s)) as [cfg cs|] eqn:Hact.
    + destruct (claim (next_rank s) cfg cs s) as [s' owned] eqn:E.
      eexists. eapply (step_claim _ _ (next_rank s)); [lia|done|done| |done].
      unfold gate_open. case_bool_decide; [apply orb_true_r|lia].
    + eexists. apply (step_release _ _ (next_rank s)); [lia|done|done].
  - intros Hall. pose proof (inv_next _ _ _ Hinv) as Hn. simpl in Hn.
    pose proof (inv_serial _ _ _ Hinv) as Hs. simpl in Hs. rewrite Hs.
    assert (next_rank s = n) as ->; [|done].
    destruct (decide (next_rank s < n)) as [Hlt|Hge].
    { destruct (Hall _ Hlt). congruence. }
    destruct (decide (n < next_rank s)) as [Hlt|]; [|lia].
    apply (inv_below _ _ _ Hinv), (inv_bound _ _ _ Hinv) in Hlt. simpl in Hlt. lia.
Qed.

Definition sample_candidate : HeaderClaimCandidate := Candidate (bs "h.hpp") (Some (bs "d41d")) false.
Definition sample_act (r : nat) : action :=
  if decide (r = 1) then ARelease else AClaim (bs "cfg") [sample_candidate].

(** A run of three units: unit 1 releases first, then 0 and 2 claim. *)
Lemma sample_run : ∃ s a, rtc (unit_step sample_act 3) initial_run (Run s a) ∧ a !! 2 = Some [false].
Proof.
  do 2 eexists. split.
  - eapply rtc_l; [apply (step_release _ _ 1); [lia|done|done]|].
    eapply rtc_l; [eapply (step_claim _ _ 0); [lia|done|done|done|vm_compute; reflexivity]|].
    eapply rtc_l; [eapply (step_claim _ _ 2); [lia|done|done|done|vm_compute; reflexivity]|].
    apply rtc_refl.
  - done.
Qed.

Lemma claims_deterministic_witness :
  ∃ a : gmap nat (list bool), a !! 2 = Some [false] ∧
    (∀ r owned, a !! r = Some owned → owned = serial_answer sample_act r).
Proof.
  destruct sample_run as (s & a & Hrun & H2). exists a. split; [done|].
  apply (claims_deterministic sample_act 3 s a Hrun).
Defined.

(** A header is extracted once.  In a trace of claims, retries, releases
    and cancellation with no failed publication, where the units of one
    configuration parsed the same bytes of a header, two claims granted the same
    header and configuration are claims of the same unit. *)
Theorem header_extracted_once digest tr s r1 r2 cfg cs1 cs2 o1 o2 i1 i2 c1 c2 :
  trace initial_oracle tr s →
  Forall (λ co, consistent_call digest co.1 ∧ no_revoke co.1) tr →
  (CClaim r1 cfg cs1, o1) ∈ tr → cs1 !! i1 = Some c1 → o1 !! i1 = Some true →
  (CClaim r2 cfg cs2, o2) ∈ tr → cs2 !! i2 = Some c2 → o2 !! i2 = Some true →
  path c1 = path c2 → r1 = r2.
Proof.
  intros Htr HF H1 Hc1 Ho1 H2 Hc2 Ho2 Hp.
  destruct (trace_grants digest _ _ _ Htr) as [_ Hown]; [apply grants_consistent_initial|done|].
  destruct (Hown _ _ _ _ _ _ H1 Hc1 Ho1) as [_ E1].
  destruct (Hown _ _ _ _ _ _ H2 Hc2 Ho2) as [_ E2].
  rewrite Hp in E1. congruence.
Qed.

(** Unit 0 claims, claims again after a retry, then unit 1 claims. *)
Definition sample_trace : list (call * list bool) :=
  [(CClaim 0 (bs "cfg") [sample_candidate], [true]);
   (CClaim 0 (bs "cfg") [sample_candidate], [true]);
   (CClaim 1 (bs "cfg") [sample_candidate], [false])].

Definition sample_final : oracle :=
  foldl (λ s co, (exec co.1 s).1) initial_oracle sample_trace.

Lemma sample_trace_runs : trace initial_oracle sample_trace sample_final.
Proof. do 3 (eapply trace_cons; [done|vm_compute; reflexivity|]). apply trace_nil. Qed.

Lemma header_extracted_once_witness :
  trace initial_oracle sample_trace sample_final ∧ 0 = 0.
Proof.
  split; [apply sample_trace_runs|].
  apply (header_extracted_once (λ _, Some (bs "d41d")) sample_trace sample_final 0 0 (bs "cfg")
    [sample_candidate] [sample_candidate] [true] [true] 0 0 sample_candidate sample_candidate);
    try done; [apply sample_trace_runs|by repeat constructor|by left|by right; left].
Defined.

(** No header is lost: when a claim returns without cancellation, each
    header it named is current in the database or owned by some unit, the claim
    is told to extract exactly the headers it owns, and asking again (a retry)
    gives the same answer. *)
Theorem claim_answer_exact digest rank cfg cs s :
  cancelled s = false → grants_consistent digest (granted s) →
  consistent_call digest (CClaim rank cfg cs) →
  let '(s', owned) := claim rank cfg cs s in
  Forall2 (λ c b, (b = true ↔ owns (granted s') rank cfg c) ∧
    (already_indexed_in_database c = false → is_Some (granted s' !! (path c, cfg)))) cs owned ∧
  (claim rank cfg cs s').2 = owned.
Proof.
  intros Hc Hg Hcons. simpl in Hcons.
  pose proof (claim_all_spec digest rank cfg (granted s) (metrics s) cs Hg Hcons) as H1.
  unfold claim at 1. rewrite Hc.
  destruct (claim_all _ _ _ _ _) as [[g m] owned]. destruct H1 as (Hg1 & _ & HF).
  pose proof (claim_all_spec digest rank cfg g m cs Hg1 Hcons) as H2.
  rewrite release_granted. simpl. split; [done|].
  pose proof (release_spec rank (Oracle g (released s) (next_rank s) false m))
    as (Eg & Em & Ec & _).
  unfold claim. rewrite Ec, Eg, Em. simpl.
  destruct (claim_all _ _ _ _ _) as [[g' m'] owned']. destruct H2 as (_ & Hs2 & HF'). simpl.
  clear -Hs2 HF HF'. revert owned' HF'.
  induction HF as [|c b cs owned [Hb Hk] _ IH]; intros owned' HF';
    inversion HF' as [|? b' ? ? [Hb' _]]; subst; [done|]. f_equal; [|by apply IH].
  apply eq_true_iff_eq. rewrite Hb, Hb'.
  destruct (already_indexed_in_database c) eqn:E; [unfold owns; rewrite E; split; by intros []|].
  symmetry. apply owns_mono; auto.
Qed.

Lemma claim_answer_exact_witness :
  (claim 0 (bs "cfg") [sample_candidate] initial_oracle).2 = [true] ∧
  let '(s', owned) := claim 0 (bs "cfg") [sample_candidate] initial_oracle in
  Forall2 (λ c b, (b = true ↔ owns (granted s') 0 (bs "cfg") c) ∧
    (already_indexed_in_database c = false → is_Some (granted s' !! (path c, bs "cfg"))))
    [sample_candidate] owned ∧
  (claim 0 (bs "cfg") [sample_candidate] s').2 = owned.
Proof.
  split; [done|].
  apply (claim_answer_exact (λ _, Some (bs "d41d"))); [done| |].
  - apply grants_consistent_initial.
  - by repeat constructor.
Defined.

(** A failed publication gives its headers back.  After [revoke_grants r]
    no grant of [r] is left and every other grant is kept, so the next unit to
    claim a header [r] owned is told to extract it. *)
Theorem revoked_header_claimable r r' cfg c s x :
  cancelled s = false → granted s !! (path c, cfg) = Some x → owner x = r →
  already_indexed_in_database c = false →
  (∀ k y, granted (revoke_grants r s) !! k = Some y ↔ granted s !! k = Some y ∧ owner y ≠ r) ∧
  (claim r' cfg [c] (revoke_grants r s)).2 = [true].
Proof.
  intros Hc Hx Ho Ha. split.
  - intros k y. unfold revoke_grants. simpl. by rewrite map_lookup_filter_Some.
  - assert (granted (revoke_grants r s) !! (path c, cfg) = None) as Hnone.
    { unfold revoke_grants. simpl. apply map_lookup_filter_None. right. intros y Hy. simpl.
      rewrite Hx in Hy. injection Hy as <-. tauto. }
    unfold claim. simpl. simpl in Hnone. rewrite Hc. unfold claim_one. rewrite Ha, Hnone. done.
Qed.

Lemma revoked_header_claimable_witness :
  let s := (claim 0 (bs "cfg") [sample_candidate] initial_oracle).1 in
  (claim 1 (bs "cfg") [sample_candidate] s).2 = [false] ∧
  (claim 1 (bs "cfg") [sample_candidate] (revoke_grants 0 s)).2 = [true].
Proof.
  intros s. split; [done|].
  apply (revoked_header_claimable 0 1 (bs "cfg") sample_candidate s (MkGrant (Some (bs "d41d")) 0)); done.
Defined.

(** The counters add up: after any trace of calls, the candidates counted
    are the granted, denied and re-granted ones together, modulo the 64-bit
    width of the counters. *)
Theorem counters_accounted tr s : trace initial_oracle tr s → accounted (metrics s).
Proof.
  intros Htr. assert (accounted (metrics initial_oracle)) as H0 by done.
  revert H0. induction Htr as [|s c s1 o tr s2 _ Hex _ IH]; [done|]. intros H0.
  apply IH. replace s1 with (exec c s).1 by by rewrite Hex. by apply accounted_exec.
Qed.

Lemma counters_accounted_witness :
  candidates (metrics sample_final) = 3%N ∧ accounted (metrics sample_final).
Proof. split; [done|]. apply (counters_accounted _ _ sample_trace_runs). Defined.
