(* ===== verification/ParallelPolicy.v ===== *)
(** * Worker and budget selection: [src/src/index/parallel_policy.cpp]

    [plan_parallel_extraction] turns an operator's request and the facts of the
    host into the plan the parallel runner executes.  [std::size_t] counts are
    [nat], byte counts [N]; the default memory share is a product of doubles,
    modelled by the rounding of IEEE 754 to 53 significant bits. *)

From S2P Require Export Prelude.
From S2P Require Import Bytes.
Open Scope nat_scope.

(** ** Data *)

Record ParallelBudgets := mkBudgets {
  jobs : Z;
  budget_queue_bytes : N;
  budget_queue_items : nat;
  budget_memory_bytes : N
}.

Record HostResources := mkHost {
  logical_cores : nat;
  total_memory_bytes : N;
  available_memory_bytes : N
}.

Record ParallelPlan := mkPlan {
  plan_workers : nat;
  max_queue_items : nat;
  max_queue_bytes : N;
  memory_budget_bytes : N;
  reserved_bytes_per_worker : N;
  selection_reason : bytes
}.

Definition kDefaultBytesPerWorker : N := 768 * 1024 * 1024.

(** The significand of [0.60] as a double, whose exponent is [-53]. *)
Definition kDefaultMemoryShare : N := 5404319552844595.

(** ** Doubles *)

(** An integer rounded to 53 significant bits, ties to even: its conversion to
    [double], and the rounding of an exact product. *)
Definition round53 (n : N) : N :=
  let k := (N.log2 n - 52)%N in
  let q := N.shiftr n k in
  let r := (n mod 2 ^ k)%N in
  let up := (2 ^ k <? 2 * r)%N || ((2 ^ k =? 2 * r)%N && N.odd q) in
  N.shiftl (if up then q + 1 else q)%N k.

(** [static_cast<uint64_t>(static_cast<double>(available) * 0.60)]. *)
Definition memory_share (available : N) : N :=
  (round53 (round53 available * kDefaultMemoryShare) / 2 ^ 53)%N.

(** ** The plan *)

Definition nonzero (n : nat) : nat := if n =? 0 then 1 else n.

Definition budget_of (budgets : ParallelBudgets) (host : HostResources) : N :=
  if (budget_memory_bytes budgets =? 0)%N then memory_share (available_memory_bytes host)
  else budget_memory_bytes budgets.

(** The memory-derived ceiling of the automatic mode. *)
Definition memory_workers (cores : nat) (memory_budget reserved : N) : nat :=
  if negb (memory_budget =? 0)%N && negb (reserved =? 0)%N
  then Nat.max (N.to_nat (memory_budget / reserved)) 1 else cores.

(** [plan.workers] and [plan.selection_reason], before the last clamp. *)
Definition select_workers (budgets : ParallelBudgets) (work cores : nat) (memory_budget reserved : N)
    : nat * bytes :=
  if (0 <? jobs budgets)%Z then (Nat.min (Z.to_nat (jobs budgets)) work, bs "explicit --jobs")
  else
    let mw := memory_workers cores memory_budget reserved in
    let workers := Nat.min (Nat.min work cores) mw in
    (workers,
     if (mw <? cores) && (workers =? mw) then bs "automatic (memory-bound)"
     else if (work <? cores) && (workers =? work) then bs "automatic (work-bound)"
     else bs "automatic (core-bound)").

Definition plan_parallel_extraction (budgets : ParallelBudgets) (host : HostResources)
    (pending_translation_units : nat) : ParallelPlan :=
  let work := nonzero pending_translation_units in
  let cores := nonzero (logical_cores host) in
  let reserved := kDefaultBytesPerWorker in
  let memory_budget := budget_of budgets host in
  let '(workers, reason) := select_workers budgets work cores memory_budget reserved in
  let workers := Nat.max workers 1 in
  let items :=
    if budget_queue_items budgets =? 0
    then N.to_nat (N.max ((N.of_nat workers * 2) mod 2 ^ 64) 2) else budget_queue_items budgets in
  let queue_bytes :=
    if (budget_queue_bytes budgets =? 0)%N
    then N.max (memory_budget / 8) (64 * 1024 * 1024) else budget_queue_bytes budgets in
  mkPlan workers items queue_bytes memory_budget reserved reason.

(** ** Lemmas *)

(** Rounding errs by at most one part in [2 ^ 53]. *)
Lemma round53_error n : (2 ^ 53 * round53 n ≤ (2 ^ 53 + 1) * n)%N.
Proof.
  unfold round53. set (k := (N.log2 n - 52)%N). rewrite N.shiftl_mul_pow2, N.shiftr_div_pow2.
  assert (2 ^ k ≠ 0)%N as Hk by (apply N.pow_nonzero; lia).
  pose proof (N.div_mod n (2 ^ k) Hk) as Hdm. pose proof (N.mod_lt n (2 ^ k) Hk) as Hlt.
  set (q := (n / 2 ^ k)%N) in *. set (r := (n mod 2 ^ k)%N) in *.
  destruct (_ || _) eqn:Hup; [|nia].
  assert (2 ^ k ≤ 2 * r)%N as Hr.
  { apply orb_prop in Hup as [?%N.ltb_lt|[?%N.eqb_eq _]%andb_prop]; lia. }
  assert (2 ^ 52 * 2 ^ k ≤ n)%N as Hn; [|change (2 ^ 53)%N with (2 * 2 ^ 52)%N; nia].
  rewrite <-N.pow_add_r. destruct (decide (52 ≤ N.log2 n)%N) as [Hl|Hl].
  - replace (52 + k)%N with (N.log2 n) by lia. apply N.log2_spec.
    destruct (decide (n = 0%N)) as [->|]; [by cbn in Hl|lia].
  - replace k with 0%N in * by lia. cbn in Hr. rewrite N.pow_0_r in Hlt. lia.
Qed.

(** The default share never exceeds the memory it is a share of. *)
Lemma memory_share_le available : (memory_share available ≤ available)%N.
Proof.
  unfold memory_share. pose proof (round53_error available) as H1.
  pose proof (round53_error (round53 available * kDefaultMemoryShare)) as H2.
  apply N.Div0.div_le_upper_bound. unfold kDefaultMemoryShare in *.
  remember (round53 available) as d eqn:Hd. clear Hd.
  remember (round53 (d * 5404319552844595)) as p eqn:Hp. clear Hp. lia.
Qed.

Lemma nonzero_max n : nonzero n = Nat.max n 1.
Proof. unfold nonzero. destruct n; cbn; lia. Qed.

Lemma memory_workers_pos cores b r : 1 ≤ cores → 1 ≤ memory_workers cores b r.
Proof. intros. unfold memory_workers. destruct (_ && _); lia. Qed.

(** The workers selected never reserve more than the budget, if it pays for one. *)
Lemma memory_workers_fit cores b r :
  (0 < r)%N → (r ≤ b)%N → (N.of_nat (memory_workers cores b r) * r ≤ b)%N.
Proof.
  intros Hr Hb. unfold memory_workers.
  rewrite (proj2 (N.eqb_neq b 0)), (proj2 (N.eqb_neq r 0)) by lia. cbn [negb andb].
  assert (1 ≤ b / r)%N by (apply N.div_le_lower_bound; lia).
  replace (N.of_nat (Nat.max (N.to_nat (b / r)) 1)) with (b / r)%N by lia.
  rewrite N.mul_comm. apply N.Div0.mul_div_le.
Qed.

Lemma select_workers_spec budgets work cores b r :
  1 ≤ work → 1 ≤ cores →
  let w := (select_workers budgets work cores b r).1 in
  1 ≤ w ≤ work ∧ ((jobs budgets ≤ 0)%Z → w ≤ cores ∧ w ≤ memory_workers cores b r)
  ∧ ((0 < jobs budgets)%Z → w = Nat.min (Z.to_nat (jobs budgets)) work).
Proof.
  intros Hw Hc. unfold select_workers. pose proof (memory_workers_pos cores b r Hc).
  destruct (0 <? jobs budgets)%Z eqn:Hj; cbn [fst].
  - apply Z.ltb_lt in Hj. lia.
  - apply Z.ltb_ge in Hj. lia.
Qed.

(** A plan is bounded by the work, by the cores and by the memory, whatever the
    request: at least one worker and one queue item, never more workers than
    pending units, an explicit [--jobs] otherwise taken as it is, and an automatic
    count within the cores and within what the budget pays for; the default budget
    is within the available memory, and every queue admits a byte. *)
Theorem plan_bounded budgets host pending :
  let plan := plan_parallel_extraction budgets host pending in
  1 ≤ plan_workers plan ≤ Nat.max pending 1
  ∧ 1 ≤ max_queue_items plan ∧ (1 ≤ max_queue_bytes plan)%N
  ∧ ((0 < jobs budgets)%Z →
       plan_workers plan = Nat.min (Z.to_nat (jobs budgets)) (Nat.max pending 1))
  ∧ ((jobs budgets ≤ 0)%Z → plan_workers plan ≤ Nat.max (logical_cores host) 1
       ∧ ((reserved_bytes_per_worker plan ≤ memory_budget_bytes plan)%N →
            (N.of_nat (plan_workers plan) * reserved_bytes_per_worker plan
               ≤ memory_budget_bytes plan)%N))
  ∧ (budget_memory_bytes budgets = 0%N →
       (memory_budget_bytes plan ≤ available_memory_bytes host)%N).
Proof.
  unfold plan_parallel_extraction. cbn zeta. set (b := budget_of budgets host).
  pose proof (nonzero_max pending) as Hp. pose proof (nonzero_max (logical_cores host)) as Hc.
  pose proof (select_workers_spec budgets (nonzero pending) (nonzero (logical_cores host)) b
    kDefaultBytesPerWorker ltac:(lia) ltac:(lia)) as Hs.
  destruct (select_workers _ _ _ _ _) as [w reason]. cbn [fst] in Hs. destruct Hs as (Hw & Ha & He).
  cbn [plan_workers max_queue_items max_queue_bytes memory_budget_bytes reserved_bytes_per_worker].
  rewrite Nat.max_l by lia. split_and!.
  - lia.
  - lia.
  - destruct (budget_queue_items budgets =? 0) eqn:E; [lia|]. apply Nat.eqb_neq in E. lia.
  - destruct (budget_queue_bytes budgets =? 0)%N eqn:E; [lia|]. apply N.eqb_neq in E. lia.
  - intros Hj. rewrite He by done. by rewrite Hp.
  - intros Hj. destruct (Ha Hj) as [Hw1 Hw2]. split; [lia|]. intros Hfit.
    pose proof (memory_workers_fit (nonzero (logical_cores host)) b kDefaultBytesPerWorker
      ltac:(done) Hfit). nia.
  - intros Hz. unfold b, budget_of. rewrite Hz. apply memory_share_le.
Qed.

(** A host with eight cores and three units to index. *)
Definition sample_host : HostResources := mkHost 8 (16 * 1024 ^ 3) (4 * 1024 ^ 3).
Definition no_budgets : ParallelBudgets := mkBudgets 0 0 0 0.

Example automatic_plan :
  plan_parallel_extraction no_budgets sample_host 20
  = mkPlan 3 6 322122547 2576980377 (768 * 1024 * 1024) (bs "automatic (memory-bound)").
Proof. vm_compute. reflexivity. Qed.

(** A host whose memory is unknown reserves more than its budget: the plan says
    one worker and a budget of zero. *)
Example unknown_memory_plan :
  memory_budget_bytes (plan_parallel_extraction no_budgets (mkHost 1 0 0) 5) = 0%N.
Proof. reflexivity. Qed.
