(* ===== verification/ParallelRunner.v ===== *)
(** * The bounded parallel runner: [src/src/index/parallel_runner_impl.hpp]

    [run_parallel_extraction_windowed] as a state machine: the workers and the
    publisher take turns at the mutex, and every critical section, every
    extraction and every call of the publication callback is one event.
    [perform] executes an event, [step] is the relation it induces, so a run is a
    sequence of events in any interleaving.

    What extraction, publication and abandonment do outside the runner is the
    interface [RunnerPort]: in production, the ordered gate of the header claims
    (see [RunnerGate] below).  Condition variables are the guards of the events;
    the clocks of the metrics are left out. *)

From S2P Require Export Prelude.
From S2P Require Import Bytes ParallelPolicy HeaderClaims.
Open Scope nat_scope.

(** [std::uint64_t] arithmetic. *)
Definition add64 (a b : N) : N := ((a + b) mod 2 ^ 64)%N.
Definition sub64 (a b : N) : N := ((a + 2 ^ 64 - b) mod 2 ^ 64)%N.

(** ** Data *)

Inductive ParallelRunStatus := none | publication_stopped | cancelled.

#[export] Instance ParallelRunStatus_eq_dec : EqDecision ParallelRunStatus.
Proof. solve_decision. Defined.

Record ParallelResult (Payload : Type) := mkResult {
  payload : Payload;
  result_bytes : N;
  error : option bytes
}.
Arguments mkResult {Payload} _ _ _.
Arguments payload {Payload} _.
Arguments result_bytes {Payload} _.
Arguments error {Payload} _.

Record ParallelRunMetrics := mkRunMetrics {
  items_dispatched : nat;
  items_published : nat;
  peak_reorder_items : nat;
  peak_reorder_bytes : N;
  peak_reserved_bytes : N;
  publication_windows : nat;
  peak_publish_window_items : nat;
  peak_publish_window_bytes : N
}.

(** What the runner calls: extraction of a rank, which may have to wait
    ([None]), the publication callback on a window, and [on_abandon]. *)
Class RunnerPort (G Payload : Type) := {
  extract : nat → G → option (G * ParallelResult Payload);
  publish : list (nat * ParallelResult Payload) → G → G;
  on_abandon : nat → G → G
}.

(** Where a worker is: at the head of its loop, in [extract], waiting for
    admission with its result, or gone. *)
Inductive wstate (Payload : Type) :=
| WIdle
| WExtract (rank : nat)
| WWait (rank : nat) (res : ParallelResult Payload)
| WDone.
Arguments WIdle {Payload}.
Arguments WExtract {Payload} _.
Arguments WWait {Payload} _ _.
Arguments WDone {Payload}.

(** Where the publisher is: polling [cancelled()], collecting a window, in the
    callback, leaving the loop, joining the workers, or back at the caller. *)
Inductive pstate (Payload : Type) :=
| PLoop
| PCollect (window : list (nat * ParallelResult Payload)) (window_bytes : N)
| PPublish (window : list (nat * ParallelResult Payload)) (window_bytes : N)
| PUnwind
| PJoin
| PDone.
Arguments PLoop {Payload}.
Arguments PCollect {Payload} _ _.
Arguments PPublish {Payload} _ _.
Arguments PUnwind {Payload}.
Arguments PJoin {Payload}.
Arguments PDone {Payload}.

(** The shared variables; [handed] logs what the callback was given and
    [abandoned] the ranks [on_abandon] was called for. *)
Record runner (G Payload : Type) := mkRunner {
  env : G;
  pool : list (wstate Payload);
  publisher : pstate Payload;
  ready : gmap nat (ParallelResult Payload);
  next_dispatch : nat;
  next_publish : nat;
  buffered_bytes : N;
  in_flight : nat;
  stopping : bool;
  status : ParallelRunStatus;
  metrics : ParallelRunMetrics;
  handed : list (nat * ParallelResult Payload);
  abandoned : list nat
}.
Arguments mkRunner {G Payload} _ _ _ _ _ _ _ _ _ _ _ _ _.
Arguments env {G Payload} _.
Arguments pool {G Payload} _.
Arguments publisher {G Payload} _.
Arguments ready {G Payload} _.
Arguments next_dispatch {G Payload} _.
Arguments next_publish {G Payload} _.
Arguments buffered_bytes {G Payload} _.
Arguments in_flight {G Payload} _.
Arguments stopping {G Payload} _.
Arguments status {G Payload} _.
Arguments metrics {G Payload} _.
Arguments handed {G Payload} _.
Arguments abandoned {G Payload} _.

Inductive event :=
| EvDispatch (i : nat)
| EvLeave (i : nat)
| EvExtracted (i : nat)
| EvAdmit (i : nat)
| EvAbandon (i : nat)
| EvCancel
| EvStart
| EvTake
| EvClose
| EvFinish
| EvPublish (published : nat) (stop : ParallelRunStatus)
| EvGuard
| EvJoin.

(** ** Events *)

Section runner.
Context {G Payload : Type} `{!RunnerPort G Payload}.
Variables (plan : ParallelPlan) (count max_window_items : nat).
Notation R := (runner G Payload).
Notation result := (ParallelResult Payload).

Definition no_metrics : ParallelRunMetrics := mkRunMetrics 0 0 0 0 0 0 0 0.

(** [max(min(plan.workers, count == 0 ? 1 : count), 1)]. *)
Definition worker_count : nat :=
  Nat.max (Nat.min (plan_workers plan) (if count =? 0 then 1 else count)) 1.

Definition initial (g : G) : R :=
  mkRunner g (replicate worker_count WIdle) PLoop ∅ 0 0 0 0 false none no_metrics [] [].

Definition bounded_window_items : nat := Nat.max max_window_items 1.

(** The state of one worker changes. *)
Definition set_worker (i : nat) (w : wstate Payload) (s : R) : R :=
  mkRunner (env s) (<[i := w]> (pool s)) (publisher s) (ready s) (next_dispatch s) (next_publish s)
    (buffered_bytes s) (in_flight s) (stopping s) (status s) (metrics s) (handed s) (abandoned s).

Definition set_publisher (p : pstate Payload) (s : R) : R :=
  mkRunner (env s) (pool s) p (ready s) (next_dispatch s) (next_publish s)
    (buffered_bytes s) (in_flight s) (stopping s) (status s) (metrics s) (handed s) (abandoned s).

Definition set_env (g : G) (s : R) : R :=
  mkRunner g (pool s) (publisher s) (ready s) (next_dispatch s) (next_publish s)
    (buffered_bytes s) (in_flight s) (stopping s) (status s) (metrics s) (handed s) (abandoned s).

(** [rank = next_dispatch++; ++in_flight] with its metrics. *)
Definition dispatch (s : R) : R :=
  let m := metrics s in
  mkRunner (env s) (pool s) (publisher s) (ready s) (S (next_dispatch s)) (next_publish s)
    (buffered_bytes s) (S (in_flight s)) (stopping s) (status s)
    (mkRunMetrics (Nat.max (items_dispatched m) (S (next_dispatch s))) (items_published m)
       (peak_reorder_items m) (peak_reorder_bytes m)
       (N.max (peak_reserved_bytes m)
          ((N.of_nat (S (in_flight s)) * reserved_bytes_per_worker plan) mod 2 ^ 64)%N)
       (publication_windows m) (peak_publish_window_items m) (peak_publish_window_bytes m))
    (handed s) (abandoned s).

(** The predicate of [admit.wait], with the run not stopping. *)
Definition admissible (s : R) (rank : nat) (res : result) : bool :=
  (rank =? next_publish s)
  || ((size (ready s) <? max_queue_items plan)
      && (add64 (buffered_bytes s) (result_bytes res) <=? max_queue_bytes plan)%N).

(** A result enters the reorder buffer. *)
Definition buffer (rank : nat) (res : result) (s : R) : R :=
  let m := metrics s in
  let ready' := <[rank := res]> (ready s) in
  let bytes' := add64 (buffered_bytes s) (result_bytes res) in
  mkRunner (env s) (pool s) (publisher s) ready' (next_dispatch s) (next_publish s)
    bytes' (in_flight s - 1) (stopping s) (status s)
    (mkRunMetrics (items_dispatched m) (items_published m)
       (Nat.max (peak_reorder_items m) (size ready')) (N.max (peak_reorder_bytes m) bytes')
       (peak_reserved_bytes m) (publication_windows m) (peak_publish_window_items m)
       (peak_publish_window_bytes m))
    (handed s) (abandoned s).

(** A worker that finds the run stopping drops its result. *)
Definition abandon (rank : nat) (s : R) : R :=
  mkRunner (on_abandon rank (env s)) (pool s) (publisher s) (ready s) (next_dispatch s)
    (next_publish s) (buffered_bytes s) (in_flight s - 1) (stopping s) (status s) (metrics s)
    (handed s) (abandoned s ++ [rank]).

(** [stopping = true; status = ...]. *)
Definition stop_run (st : ParallelRunStatus) (s : R) : R :=
  mkRunner (env s) (pool s) PUnwind (ready s) (next_dispatch s) (next_publish s)
    (buffered_bytes s) (in_flight s) true st (metrics s) (handed s) (abandoned s).

(** The entry the publisher may add to its window. *)
Definition takeable (s : R) (window : list (nat * result)) (window_bytes : N) : option result :=
  if (length window <? bounded_window_items) && (next_publish s <? count) && negb (stopping s) then
    match ready s !! next_publish s with
    | Some res =>
        if negb (bool_decide (window = [])) && negb (max_queue_bytes plan =? 0)%N
             && (max_queue_bytes plan <? add64 window_bytes (result_bytes res))%N
        then None else Some res
    | None => None
    end
  else None.

Definition take_entry (res : result) (window : list (nat * result)) (window_bytes : N) (s : R) : R :=
  mkRunner (env s) (pool s)
    (PCollect (window ++ [(next_publish s, res)]) (add64 window_bytes (result_bytes res)))
    (delete (next_publish s) (ready s)) (next_dispatch s) (S (next_publish s))
    (sub64 (buffered_bytes s) (result_bytes res)) (in_flight s) (stopping s) (status s) (metrics s)
    (handed s) (abandoned s).

(** The metrics of a window, then the callback. *)
Definition hand_over (window : list (nat * result)) (window_bytes : N) (published : nat) (s : R) : R :=
  let m := metrics s in
  mkRunner (publish window (env s)) (pool s) PLoop (ready s) (next_dispatch s) (next_publish s)
    (buffered_bytes s) (in_flight s) (stopping s) (status s)
    (mkRunMetrics (items_dispatched m) (items_published m + published) (peak_reorder_items m)
       (peak_reorder_bytes m) (peak_reserved_bytes m) (S (publication_windows m))
       (Nat.max (peak_publish_window_items m) (length window))
       (N.max (peak_publish_window_bytes m) window_bytes))
    (handed s ++ window) (abandoned s).

(** After the join: [on_abandon] for what is left, then [ready.clear()]. *)
Definition leftover_ranks (s : R) : list nat :=
  merge_sort (≤) ((map_to_list (ready s)).*1).

Definition drain (s : R) : R :=
  mkRunner (foldl (λ g rank, on_abandon rank g) (env s) (leftover_ranks s)) (pool s) PDone ∅
    (next_dispatch s) (next_publish s) (buffered_bytes s) (in_flight s) (stopping s) (status s)
    (metrics s) (handed s) (abandoned s ++ leftover_ranks s).

Definition is_done (w : wstate Payload) : bool := match w with WDone => true | _ => false end.

Definition worker_event (e : event) (i : nat) (w : wstate Payload) (s : R) : option R :=
  match e, w with
  | EvDispatch _, WIdle =>
      if negb (stopping s) && (next_dispatch s <? count)
      then Some (set_worker i (WExtract (next_dispatch s)) (dispatch s)) else None
  | EvLeave _, WIdle =>
      if stopping s || (count <=? next_dispatch s) then Some (set_worker i WDone s) else None
  | EvExtracted _, WExtract rank =>
      match extract rank (env s) with
      | Some (g, res) => Some (set_worker i (WWait rank res) (set_env g s))
      | None => None
      end
  | EvAdmit _, WWait rank res =>
      if negb (stopping s) && admissible s rank res
      then Some (set_worker i WIdle (buffer rank res s)) else None
  | EvAbandon _, WWait rank res =>
      if stopping s then Some (set_worker i WDone (abandon rank s)) else None
  | _, _ => None
  end.

Definition publisher_event (e : event) (s : R) : option R :=
  match e, publisher s with
  | EvCancel, PLoop => Some (stop_run cancelled s)
  | EvStart, PLoop => Some (set_publisher (PCollect [] 0) s)
  | EvTake, PCollect window wb =>
      match takeable s window wb with
      | Some res => Some (take_entry res window wb s)
      | None => None
      end
  | EvClose, PCollect window wb =>
      if bool_decide (window = []) || negb (bool_decide (takeable s window wb = None)) then None
      else Some (set_publisher (PPublish window wb) s)
  | EvFinish, PCollect [] _ =>
      if stopping s || (count <=? next_publish s) then Some (set_publisher PUnwind s) else None
  | EvPublish published stop, PPublish window wb =>
      let s := hand_over window wb published s in
      Some (if bool_decide (stop = none) then s else stop_run stop s)
  | EvGuard, PUnwind =>
      Some (mkRunner (env s) (pool s) PJoin (ready s) (next_dispatch s) (next_publish s)
              (buffered_bytes s) (in_flight s) true (status s) (metrics s) (handed s) (abandoned s))
  | EvJoin, PJoin => if forallb is_done (pool s) then Some (drain s) else None
  | _, _ => None
  end.

Definition worker_of (e : event) : option nat :=
  match e with
  | EvDispatch i | EvLeave i | EvExtracted i | EvAdmit i | EvAbandon i => Some i
  | _ => None
  end.

(** One event of the run, if it is enabled. *)
Definition perform (e : event) (s : R) : option R :=
  match worker_of e with
  | Some i => w ← pool s !! i; worker_event e i w s
  | None => publisher_event e s
  end.

Definition step (s s' : R) : Prop := ∃ e, perform e s = Some s'.

Definition reachable (g : G) (s : R) : Prop := rtc step (initial g) s.

(** A sequence of events. *)
Fixpoint perform_all (es : list event) (s : R) : option R :=
  match es with
  | [] => Some s
  | e :: es => s ← perform e s; perform_all es s
  end.

(** ** Ranks

    Where the ranks of a run are: held by a worker, in the reorder buffer, in the
    window, handed to the callback, or abandoned. *)

Definition rank_of (w : wstate Payload) : option nat :=
  match w with WExtract r | WWait r _ => Some r | _ => None end.

Definition held (s : R) : list nat := omap rank_of (pool s).

Definition extracting (s : R) : list nat :=
  omap (λ w, match w with WExtract r => Some r | _ => None end) (pool s).

Definition ready_ranks (s : R) : list nat := (map_to_list (ready s)).*1.

Definition window_of (p : pstate Payload) : list (nat * result) :=
  match p with PCollect w _ | PPublish w _ => w | _ => [] end.

(** The publisher has left its loop. *)
Definition unwinding (p : pstate Payload) : bool :=
  match p with PUnwind | PJoin | PDone => true | _ => false end.

Definition joining (p : pstate Payload) : bool :=
  match p with PJoin | PDone => true | _ => false end.

(** The invariant of every run. *)
Record runner_ok (s : R) : Prop := {
  ok_pool : length (pool s) = worker_count;
  ok_le : next_publish s ≤ next_dispatch s ≤ count;
  ok_order : (handed s ++ window_of (publisher s)).*1 = seq 0 (next_publish s);
  ok_split : held s ++ ready_ranks s ++ abandoned s
    ≡ₚ seq (next_publish s) (next_dispatch s - next_publish s);
  ok_unwinding : stopping s = true → unwinding (publisher s) = true;
  ok_joining : joining (publisher s) = true → stopping s = true;
  ok_status : unwinding (publisher s) = true → status s = none → next_publish s = count;
  ok_abandoned : stopping s = false → abandoned s = [];
  ok_gone : WDone ∈ pool s → stopping s = true ∨ next_dispatch s = count;
  ok_final : publisher s = PDone → Forall (λ w, w = WDone) (pool s) ∧ ready s = ∅
}.

(** Replacing one worker replaces its rank. *)
Lemma omap_update {A} (f : wstate Payload → option A) l i w :
  l !! i = Some w →
  ∃ rest, omap f l ≡ₚ option_list (f w) ++ rest
    ∧ ∀ w', omap f (<[i := w']> l) ≡ₚ option_list (f w') ++ rest.
Proof.
  intros Hi. exists (omap f (take i l) ++ omap f (drop (S i) l)).
  assert (∀ w', omap f (take i l ++ w' :: drop (S i) l)
    ≡ₚ option_list (f w') ++ omap f (take i l) ++ omap f (drop (S i) l)) as Hgo.
  { intros w'. rewrite omap_app. csimpl. destruct (f w') as [a|]; simpl; [|done].
    by rewrite <-Permutation_middle. }
  split.
  - rewrite <-Hgo. by rewrite take_drop_middle.
  - intros w'. rewrite <-Hgo. by rewrite insert_take_drop by (by eapply lookup_lt_Some).
Qed.

(** What a change of worker [i] from [w] does to the held ranks. *)
Lemma held_update s i w w' :
  pool s !! i = Some w →
  ∃ rest, held s ≡ₚ option_list (rank_of w) ++ rest
    ∧ omap rank_of (<[i := w']> (pool s)) ≡ₚ option_list (rank_of w') ++ rest.
Proof. intros (rest & H1 & H2)%(omap_update rank_of). exists rest. auto. Qed.

Lemma ok_NoDup s : runner_ok s → NoDup (held s ++ ready_ranks s ++ abandoned s).
Proof. intros Hs. rewrite (ok_split _ Hs). apply NoDup_seq. Qed.

Lemma elem_of_ready_ranks s r : r ∈ ready_ranks s ↔ is_Some (ready s !! r).
Proof.
  unfold ready_ranks. rewrite list_elem_of_fmap. split.
  - intros ([k res] & -> & H%elem_of_map_to_list). by exists res.
  - intros [res H]. exists (r, res). by rewrite elem_of_map_to_list.
Qed.

(** The ranks at or past [next_publish] that were dispatched. *)
Lemma ok_ranks s r :
  runner_ok s → next_publish s ≤ r < next_dispatch s ↔
  r ∈ held s ∨ is_Some (ready s !! r) ∨ r ∈ abandoned s.
Proof.
  intros Hs. rewrite <-elem_of_ready_ranks, <-!elem_of_app, (ok_split _ Hs), elem_of_seq.
  pose proof (ok_le _ Hs). lia.
Qed.

Lemma held_elem s i w r : pool s !! i = Some w → rank_of w = Some r → r ∈ held s.
Proof.
  intros Hi Hr. apply list_elem_of_omap. exists w. split; [by eapply list_elem_of_lookup_2|done].
Qed.

Lemma elem_of_insert_pool (l : list (wstate Payload)) i w :
  WDone ∈ <[i := w]> l → w = WDone ∨ WDone ∈ l.
Proof.
  intros (j & Hj)%list_elem_of_lookup. apply list_lookup_insert_Some in Hj as [(_ & <- & _)|(_ & Hj)];
    [by left|right; by eapply list_elem_of_lookup_2].
Qed.

Lemma initial_ok g : runner_ok (initial g).
Proof.
  split; cbn; try done; try lia.
  - apply length_replicate.
  - assert (∀ n, omap rank_of (replicate n (WIdle : wstate Payload)) = []) as Ho
      by (induction n; [done|done]).
    unfold held. cbn. by rewrite Ho.
  - intros H. apply elem_of_replicate in H as [? _]. done.
Qed.

(** *** Workers keep the invariant *)

Lemma not_stopping_unwinding s : runner_ok s → unwinding (publisher s) = false → stopping s = false.
Proof.
  intros Hs Hu. destruct (stopping s) eqn:E; [|done]. by rewrite (ok_unwinding _ Hs E) in Hu.
Qed.

Lemma final_no_event s i w :
  runner_ok s → pool s !! i = Some w → w ≠ WDone → publisher s ≠ PDone.
Proof.
  intros Hs Hi Hw Hp. destruct (ok_final _ Hs Hp) as [Hd _]. by eapply Forall_lookup_1 in Hd; [|done].
Qed.

Lemma dispatch_ok s i :
  runner_ok s → pool s !! i = Some WIdle → stopping s = false → next_dispatch s < count →
  runner_ok (set_worker i (WExtract (next_dispatch s)) (dispatch s)).
Proof.
  intros Hs Hi Hst Hlt. pose proof (final_no_event _ _ _ Hs Hi ltac:(done)) as Hnf.
  destruct (held_update s i WIdle (WExtract (next_dispatch s)) Hi) as (rest & Hh & Hh').
  destruct Hs. split; cbn; try done; try lia.
  - by rewrite length_insert.
  - unfold held, ready_ranks in *. cbn. rewrite Hh'. cbn [rank_of option_list app] in *. rewrite Hh in ok_split0.
    replace (S (next_dispatch s) - next_publish s) with (S (next_dispatch s - next_publish s)) by lia.
    rewrite seq_S, <-ok_split0. replace (next_publish s + (next_dispatch s - next_publish s))
      with (next_dispatch s) by lia.
    apply (Permutation_cons_append (rest ++ _)).
  - intros [?|Hd]%elem_of_insert_pool; [done|]. apply ok_gone0 in Hd as [?|?]; [congruence|lia].
Qed.

(** A worker that keeps its rank, or has none before and after. *)
Lemma same_rank_ok s i w w' g :
  runner_ok s → pool s !! i = Some w → w ≠ WDone → rank_of w' = rank_of w →
  (w' = WDone → stopping s = true ∨ next_dispatch s = count) →
  runner_ok (set_worker i w' (set_env g s)).
Proof.
  intros Hs Hi Hw Hr Hd. pose proof (final_no_event _ _ _ Hs Hi Hw) as Hnf.
  destruct (held_update s i w w' Hi) as (rest & Hh & Hh').
  destruct Hs. split; cbn; try done.
  - by rewrite length_insert.
  - unfold held, ready_ranks in *. cbn. by rewrite Hh', Hr, <-Hh.
  - intros [?|?]%elem_of_insert_pool; auto.
Qed.

Lemma admit_ok s i rank res :
  runner_ok s → pool s !! i = Some (WWait rank res) → stopping s = false →
  runner_ok (set_worker i WIdle (buffer rank res s)).
Proof.
  intros Hs Hi Hst. pose proof (final_no_event _ _ _ Hs Hi ltac:(done)) as Hnf.
  destruct (held_update s i (WWait rank res) WIdle Hi) as (rest & Hh & Hh').
  assert (ready s !! rank = None) as Hnone.
  { pose proof (ok_NoDup _ Hs) as Hnd. rewrite Hh in Hnd. cbn in Hnd.
    apply NoDup_cons in Hnd as [Hn _]. apply eq_None_not_Some. intros Hin.
    apply Hn. rewrite !elem_of_app, elem_of_ready_ranks. auto. }
  destruct Hs. split; cbn; try done.
  - by rewrite length_insert.
  - unfold held, ready_ranks in *. cbn. rewrite Hh', (map_to_list_insert _ _ _ Hnone). cbn in *.
    rewrite <-ok_split0, Hh. cbn. by rewrite <-Permutation_middle.
  - intros [?|?]%elem_of_insert_pool; [done|auto].
Qed.

Lemma abandon_ok s i rank res :
  runner_ok s → pool s !! i = Some (WWait rank res) → stopping s = true →
  runner_ok (set_worker i WDone (abandon rank s)).
Proof.
  intros Hs Hi Hst. pose proof (final_no_event _ _ _ Hs Hi ltac:(done)) as Hnf.
  destruct (held_update s i (WWait rank res) WDone Hi) as (rest & Hh & Hh').
  destruct Hs. split; cbn; try done; try congruence.
  - by rewrite length_insert.
  - unfold held, ready_ranks in *. cbn. rewrite Hh'. cbn in *. rewrite <-ok_split0, Hh. cbn.
    rewrite !app_assoc. by rewrite <-Permutation_cons_append.
  - intros _. by left.
Qed.

Lemma worker_event_ok e i w s s' :
  runner_ok s → pool s !! i = Some w → worker_event e i w s = Some s' → runner_ok s'.
Proof.
  intros Hs Hi He. destruct e, w; cbn in He; try done.
  - destruct (_ && _) eqn:E; simplify_eq. bool_split. apply dispatch_ok; [done..|by apply Nat.ltb_lt].
  - destruct (_ || _) eqn:E; simplify_eq. apply (same_rank_ok s i WIdle WDone (env s)); try done.
    intros _. bool_split. destruct E as [?|?%Nat.leb_le]; [by left|right].
    pose proof (ok_le _ Hs). lia.
  - destruct (extract _ _) as [[g res]|]; simplify_eq. by eapply same_rank_ok.
  - destruct (_ && _) eqn:E; simplify_eq. bool_split. by eapply admit_ok.
  - destruct (stopping s) eqn:E; simplify_eq. by eapply abandon_ok.
Qed.

(** *** The publisher keeps the invariant *)

Lemma takeable_Some s window wb res :
  takeable s window wb = Some res →
  ready s !! next_publish s = Some res ∧ length window < bounded_window_items
  ∧ next_publish s < count ∧ stopping s = false.
Proof.
  unfold takeable. destruct (_ && _) eqn:E; [|done]. bool_split.
  destruct (ready s !! next_publish s) as [r|]; [|done]. destruct (_ && _ && _); [done|].
  intros [= ->]. split_and!; [done|by apply Nat.ltb_lt|by apply Nat.ltb_lt|done].
Qed.

Lemma take_ok s window wb res :
  runner_ok s → publisher s = PCollect window wb → takeable s window wb = Some res →
  runner_ok (take_entry res window wb s).
Proof.
  intros Hs Hp Ht. apply takeable_Some in Ht as (Hr & Hw & Hlt & Hst).
  assert (next_publish s ≤ next_publish s < next_dispatch s) as Hnd
    by (apply (ok_ranks _ _ Hs); right; left; by exists res).
  destruct Hs. split; cbn; try done; try lia.
  - rewrite Hp in ok_order0. cbn in ok_order0.
    rewrite app_assoc, fmap_app, ok_order0. symmetry. apply (seq_S (next_publish s) 0).
  - unfold held, ready_ranks in *. cbn.
    apply (Permutation_cons_inv (a := next_publish s)).
    replace (next_publish s :: seq (S (next_publish s)) (next_dispatch s - S (next_publish s)))
      with (seq (next_publish s) (next_dispatch s - next_publish s))
      by (by replace (next_dispatch s - next_publish s) with (S (next_dispatch s - S (next_publish s))) by lia).
    rewrite <-ok_split0, Permutation_middle. f_equiv.
    rewrite <-(map_to_list_delete _ _ _ Hr). done.
  - congruence.
Qed.

(** The publisher moves without touching the ranks. *)
Lemma set_publisher_ok s p :
  runner_ok s → window_of p = window_of (publisher s) → joining p = false →
  (stopping s = true → unwinding p = true) → joining (publisher s) = false →
  (unwinding p = true → status s = none → next_publish s = count) →
  runner_ok (set_publisher p s).
Proof.
  intros Hs Hw Hj Hu Hj' Hst. destruct Hs. split; cbn; try done.
  - by rewrite Hw.
  - by rewrite Hj.
  - intros ->. done.
Qed.

Lemma hand_over_ok s window wb n :
  runner_ok s → publisher s = PPublish window wb → runner_ok (hand_over window wb n s).
Proof.
  intros Hs Hp. pose proof (not_stopping_unwinding s Hs ltac:(by rewrite Hp)) as Hst.
  destruct Hs. rewrite Hp in *. split; cbn; try done. by rewrite app_nil_r.
Qed.

Lemma stop_run_ok s st :
  runner_ok s → publisher s = PLoop → st ≠ none → runner_ok (stop_run st s).
Proof.
  intros Hs Hp Hst. destruct Hs. rewrite Hp in *. split; cbn; try done. intros _. by left.
Qed.

Lemma guard_ok s :
  runner_ok s → publisher s = PUnwind →
  runner_ok (mkRunner (env s) (pool s) PJoin (ready s) (next_dispatch s) (next_publish s)
    (buffered_bytes s) (in_flight s) true (status s) (metrics s) (handed s) (abandoned s)).
Proof.
  intros Hs Hp. destruct Hs. rewrite Hp in *. split; cbn; try done.
  intros _. by left.
Qed.

Lemma all_done_held l : Forall (λ w, w = WDone) l → omap rank_of l = [].
Proof. by induction 1 as [|w l -> _ IH]. Qed.

Lemma drain_ok s :
  runner_ok s → publisher s = PJoin → forallb is_done (pool s) = true → runner_ok (drain s).
Proof.
  intros Hs Hp Hd. assert (Forall (λ w, w = WDone) (pool s)) as Hall.
  { rewrite forallb_forall in Hd. apply Forall_forall. intros w Hw%list_elem_of_In.
    specialize (Hd w Hw). by destruct w. }
  pose proof (ok_joining _ Hs ltac:(by rewrite Hp)) as Hst. destruct Hs. rewrite Hp in *.
  split; cbn; try done.
  - rewrite <-ok_split0. unfold held, ready_ranks. cbn. rewrite !(all_done_held _ Hall).
    rewrite map_to_list_empty. cbn. rewrite Permutation_app_comm. f_equiv.
    apply merge_sort_Permutation.
  - congruence.
Qed.

Lemma publisher_event_ok e s s' :
  runner_ok s → publisher_event e s = Some s' → runner_ok s'.
Proof.
  intros Hs He. unfold publisher_event in He.
  destruct e, (publisher s) as [|w b|w b| | |] eqn:Hp; try done.
  - simplify_eq. by apply stop_run_ok.
  - simplify_eq. apply set_publisher_ok; rewrite ?Hp; try done.
    intros Hst. apply (ok_unwinding _ Hs) in Hst. by rewrite Hp in Hst.
  - destruct (takeable s w b) eqn:Ht; simplify_eq. by apply take_ok.
  - destruct (_ || _); simplify_eq. apply set_publisher_ok; rewrite ?Hp; try done.
    intros Hst. apply (ok_unwinding _ Hs) in Hst. by rewrite Hp in Hst.
  - destruct w; [|done]. destruct (_ || _) eqn:E; simplify_eq.
    pose proof (not_stopping_unwinding s Hs ltac:(by rewrite Hp)) as Hst.
    rewrite Hst in E. apply Nat.leb_le in E. pose proof (ok_le _ Hs).
    apply set_publisher_ok; rewrite ?Hp; try done. intros _ _. lia.
  - simplify_eq. pose proof (hand_over_ok _ _ _ published Hs Hp) as Hh.
    case_bool_decide; [done|]. by apply stop_run_ok.
  - simplify_eq. by apply guard_ok.
  - destruct (forallb _ _) eqn:Hd; simplify_eq. by apply drain_ok.
Qed.

Lemma step_ok s s' : runner_ok s → step s s' → runner_ok s'.
Proof.
  intros Hs [e He]. unfold perform in He. destruct (worker_of e) as [i|].
  - apply bind_Some in He as (w & Hi & He). by eapply worker_event_ok.
  - by eapply publisher_event_ok.
Qed.

Lemma reachable_ok g s : reachable g s → runner_ok s.
Proof.
  unfold reachable. generalize (initial_ok g). generalize (initial g).
  intros x Hx H. induction H; eauto using step_ok.
Qed.

(** ** Order and delivery *)

(** C11: whatever the interleaving, the publication callback is handed the ranks
    in order without a gap or a repetition, and what the publisher holds comes
    next; every dispatched rank is in exactly one place; and a finished run has
    handed over or abandoned each dispatched rank once, all of them in order if
    it was not stopped. *)
Theorem published_in_order g s :
  reachable g s →
  (handed s ++ window_of (publisher s)).*1 = seq 0 (next_publish s)
  ∧ held s ++ ready_ranks s ++ abandoned s ≡ₚ seq (next_publish s) (next_dispatch s - next_publish s)
  ∧ (publisher s = PDone →
       (handed s).*1 ++ abandoned s ≡ₚ seq 0 (next_dispatch s)
       ∧ (status s = none → (handed s).*1 = seq 0 count ∧ abandoned s = [])).
Proof.
  intros Hs%reachable_ok. split; [apply Hs|]. split; [apply Hs|]. intros Hp.
  destruct (ok_final _ Hs Hp) as [Hall Hempty]. pose proof (ok_le _ Hs) as Hle.
  pose proof (ok_split _ Hs) as Hsp. unfold held, ready_ranks in Hsp.
  rewrite (all_done_held _ Hall), Hempty, map_to_list_empty in Hsp. cbn in Hsp.
  pose proof (ok_order _ Hs) as Ho. rewrite Hp, app_nil_r in Ho. rewrite Ho. split.
  - rewrite Hsp, <-seq_app. by replace (next_publish s + (next_dispatch s - next_publish s))
      with (next_dispatch s) by lia.
  - intros Hst. pose proof (ok_status _ Hs ltac:(by rewrite Hp) Hst) as Hc.
    replace (next_dispatch s - next_publish s) with 0 in Hsp by lia.
    split; [by rewrite Hc|]. by apply Permutation_nil_r in Hsp.
Qed.

(** ** Bounds *)

Section bounds.
Variable max_result : N.
Hypothesis extract_bounded : ∀ r g g' res,
  extract r g = Some (g', res) → (result_bytes res ≤ max_result)%N.
Hypothesis no_wrap : (max_queue_bytes plan + 2 * max_result < 2 ^ 64)%N.

(** The bytes of the reorder buffer. *)
Definition total (m : gmap nat result) : N := map_fold (λ _ res n, result_bytes res + n)%N 0%N m.

Lemma total_insert m k res :
  m !! k = None → total (<[k := res]> m) = (result_bytes res + total m)%N.
Proof. intros Hk. unfold total. rewrite map_fold_insert_L; [done| |done]. intros. lia. Qed.

Lemma total_delete m k res :
  m !! k = Some res → total m = (result_bytes res + total (delete k m))%N.
Proof.
  intros Hk. rewrite <-(total_insert (delete k m) k) by apply lookup_delete_eq.
  by rewrite insert_delete_id.
Qed.

Lemma total_delete_le m k : (total (delete k m) ≤ total m)%N.
Proof.
  destruct (m !! k) as [res|] eqn:Hk; [rewrite (total_delete _ _ _ Hk); lia|].
  by rewrite delete_id.
Qed.

Lemma size_delete_le (m : gmap nat result) k : size (delete k m) ≤ size m ≤ S (size (delete k m)).
Proof.
  destruct (m !! k) as [res|] eqn:Hk; [rewrite map_size_delete_Some by done|rewrite delete_id by done; lia].
  assert (size m ≠ 0); [|lia]. intros H0. apply map_size_empty_inv in H0. by rewrite H0 in Hk.
Qed.

(** Apart from the rank the publisher waits for, the buffer is within the plan. *)
Definition within_plan (np : nat) (m : gmap nat result) : Prop :=
  size (delete np m) ≤ max_queue_items plan ∧ (total (delete np m) ≤ max_queue_bytes plan)%N
  ∧ ∀ r res, m !! r = Some res → (result_bytes res ≤ max_result)%N.

Lemma within_plan_total np m :
  within_plan np m →
  size m ≤ S (max_queue_items plan) ∧ (total m ≤ max_queue_bytes plan + max_result)%N.
Proof.
  intros (Hs & Ht & Hr). split; [pose proof (size_delete_le m np); lia|].
  destruct (m !! np) as [res|] eqn:Hk.
  - rewrite (total_delete _ _ _ Hk). specialize (Hr _ _ Hk). lia.
  - rewrite delete_id in Ht by done. lia.
Qed.

Lemma within_plan_delete np m np' :
  within_plan np m → within_plan np' (delete np m).
Proof.
  intros (Hs & Ht & Hr). split_and!.
  - pose proof (size_delete_le (delete np m) np'). lia.
  - pose proof (total_delete_le (delete np m) np'). lia.
  - intros r res [_ H]%lookup_delete_Some. eauto.
Qed.

Record bounded (s : R) : Prop := {
  bd_waiting i r res : pool s !! i = Some (WWait r res) → (result_bytes res ≤ max_result)%N;
  bd_ready : within_plan (next_publish s) (ready s);
  bd_bytes : publisher s ≠ PDone → buffered_bytes s = total (ready s);
  bd_flight : in_flight s = length (held s);
  bd_peaks : peak_reorder_items (metrics s) ≤ S (max_queue_items plan)
    ∧ (peak_reorder_bytes (metrics s) ≤ max_queue_bytes plan + max_result)%N
}.

Lemma add64_small a b : (a + b < 2 ^ 64)%N → add64 a b = (a + b)%N.
Proof. intros. unfold add64. by apply N.mod_small. Qed.

Lemma sub64_small a b : (b ≤ a < 2 ^ 64)%N → sub64 a b = (a - b)%N.
Proof.
  intros. unfold sub64. replace (a + 2 ^ 64 - b)%N with (a - b + 1 * 2 ^ 64)%N by lia.
  rewrite N.Div0.mod_add. apply N.mod_small. lia.
Qed.

Lemma pool_waiting (l : list (wstate Payload)) i w j r res :
  <[i := w]> l !! j = Some (WWait r res) → w = WWait r res ∨ l !! j = Some (WWait r res).
Proof. intros [(_ & -> & _)|(_ & ?)]%list_lookup_insert_Some; auto. Qed.

(** The result enters a buffer that may take it. *)
Lemma buffer_within s rank res :
  within_plan (next_publish s) (ready s) → buffered_bytes s = total (ready s) →
  ready s !! rank = None → (result_bytes res ≤ max_result)%N → admissible s rank res = true →
  within_plan (next_publish s) (<[rank := res]> (ready s))
  ∧ add64 (buffered_bytes s) (result_bytes res) = total (<[rank := res]> (ready s)).
Proof.
  intros Hw Hb Hn Hres Ha. pose proof (within_plan_total _ _ Hw) as [_ Htot].
  rewrite total_insert by done. rewrite Hb, add64_small by lia. split; [|lia].
  destruct Hw as (Hs & Ht & Hr). unfold admissible in Ha. rewrite Hb in Ha. split_and!.
  3:{ intros r x [[_ <-]|[_ ?]]%lookup_insert_Some; eauto. }
  - apply orb_true_iff in Ha as [->%Nat.eqb_eq|[Hlt _]%andb_true_iff].
    + by rewrite delete_insert_eq.
    + apply Nat.ltb_lt in Hlt. pose proof (size_delete_le (<[rank:=res]> (ready s)) (next_publish s)) as Hd.
      rewrite map_size_insert_None in Hd by done. lia.
  - apply orb_true_iff in Ha as [->%Nat.eqb_eq|[_ Hle]%andb_true_iff].
    + by rewrite delete_insert_eq.
    + apply N.leb_le in Hle. rewrite add64_small in Hle by lia.
      pose proof (total_delete_le (<[rank:=res]> (ready s)) (next_publish s)) as Hd.
      rewrite total_insert in Hd by done. lia.
Qed.

Lemma worker_event_bounded e i w s s' :
  runner_ok s → bounded s → pool s !! i = Some w → worker_event e i w s = Some s' → bounded s'.
Proof.
  intros Hok [Hw Hr Hb Hf Hp] Hi He.
  destruct e, w as [|rank|rank res|]; cbn in He; try done.
  - destruct (_ && _); simplify_eq. destruct (held_update s i _ (WExtract (next_dispatch s)) Hi) as (rest & Hh & Hh').
    split; cbn; try done.
    + intros j r res [?|?]%pool_waiting; [done|eauto].
    + unfold held. cbn. rewrite Hh', Hf, Hh. done.
  - destruct (_ || _); simplify_eq. destruct (held_update s i _ WDone Hi) as (rest & Hh & Hh').
    split; cbn; try done.
    + intros j r res [?|?]%pool_waiting; [done|eauto].
    + unfold held. cbn. rewrite Hh', Hf, Hh. done.
  - destruct (extract _ _) as [[g res]|] eqn:Hx; simplify_eq.
    destruct (held_update s i _ (WWait rank res) Hi) as (rest & Hh & Hh').
    split; cbn; try done.
    + intros j r res' [[= <- <-]|?]%pool_waiting; eauto.
    + unfold held. cbn. rewrite Hh', Hf, Hh. done.
  - destruct (_ && _) eqn:E; simplify_eq. bool_split.
    destruct (held_update s i _ WIdle Hi) as (rest & Hh & Hh').
    pose proof (final_no_event _ _ _ Hok Hi ltac:(done)) as Hnf.
    assert (ready s !! rank = None) as Hnone.
    { pose proof (ok_NoDup _ Hok) as Hnd. rewrite Hh in Hnd. cbn in Hnd.
      apply NoDup_cons in Hnd as [Hn _]. apply eq_None_not_Some. intros Hin.
      apply Hn. rewrite !elem_of_app, elem_of_ready_ranks. auto. }
    destruct (buffer_within s rank res) as [Hwp Hbt]; [done|by apply Hb|done|by eapply Hw|done|].
    pose proof (within_plan_total _ _ Hwp) as [Hsz Htot].
    split; cbn; try done.
    + intros j r res' [?|?]%pool_waiting; [done|eauto].
    + unfold held. cbn. rewrite Hh', Hf, Hh. cbn. lia.
    + rewrite Hbt. split; [lia|]. apply N.max_lub; [apply Hp|done].
  - destruct (stopping s); simplify_eq. destruct (held_update s i _ WDone Hi) as (rest & Hh & Hh').
    split; cbn; try done.
    + intros j r res' [?|?]%pool_waiting; [done|eauto].
    + unfold held. cbn. rewrite Hh', Hf, Hh. cbn. lia.
Qed.

Lemma publisher_event_bounded e s s' :
  runner_ok s → bounded s → publisher_event e s = Some s' → bounded s'.
Proof.
  intros Hok [Hw Hr Hb Hf Hp] He. unfold publisher_event in He.
  destruct e, (publisher s) as [|w b|w b| | |] eqn:Hpub; try done.
  - simplify_eq. split; cbn; try done. intros _. by apply Hb.
  - simplify_eq. split; cbn; try done. intros _. by apply Hb.
  - destruct (takeable s w b) as [res|] eqn:Ht; simplify_eq.
    apply takeable_Some in Ht as (Hres & _).
    pose proof (within_plan_total _ _ Hr) as [_ Htot].
    rewrite (total_delete _ _ _ Hres) in Htot.
    split; cbn; try done.
    + by apply within_plan_delete.
    + intros _. rewrite Hb by done. rewrite (total_delete _ _ _ Hres), sub64_small by lia. lia.
  - destruct (_ || _); simplify_eq. split; cbn; try done. intros _. by apply Hb.
  - destruct w; [|done]. destruct (_ || _); simplify_eq. split; cbn; try done. intros _. by apply Hb.
  - simplify_eq. case_bool_decide; split; cbn; try done; intros _; by apply Hb.
  - simplify_eq. split; cbn; try done. intros _. by apply Hb.
  - destruct (forallb _ _); simplify_eq. split; cbn; try done.
    split_and!; cbn; [rewrite delete_empty, map_size_empty; lia| |].
    + rewrite delete_empty. unfold total. rewrite map_fold_empty. lia.
    + intros r res H. by rewrite lookup_empty in H.
Qed.

Lemma initial_bounded g : bounded (initial g).
Proof.
  split; cbn; try done.
  - intros i r res H. apply lookup_replicate in H as [? _]. done.
  - split_and!; [rewrite delete_empty, map_size_empty; lia| |].
    + rewrite delete_empty. unfold total. rewrite map_fold_empty. lia.
    + intros r res H. by rewrite lookup_empty in H.
  - unfold held. cbn. by induction worker_count.
  - split; lia.
Qed.

Lemma reachable_bounded g s : reachable g s → runner_ok s ∧ bounded s.
Proof.
  unfold reachable. generalize (conj (initial_ok g) (initial_bounded g)). generalize (initial g).
  intros x Hx H. induction H as [|x y z [e He] _ IH]; [done|]. apply IH. destruct Hx as [Hok Hbd].
  split; [eapply step_ok; [done|by exists e]|]. unfold perform in He. destruct (worker_of e) as [i|].
  - apply bind_Some in He as (w & Hi & He). by eapply worker_event_bounded.
  - by eapply publisher_event_bounded.
Qed.
End bounds.

(** C12: when no result is larger than [max_result] bytes and the sums fit 64 bits,
    the reorder buffer never holds more than one item past the plan's item count
    nor more than one result past its byte budget (the rank the publisher waits
    for is always admitted), its byte counter is exact while the run lasts, and no
    more extractions are in flight than there are workers. *)
Theorem buffer_bounded max_result g s :
  (∀ r g g' res, extract r g = Some (g', res) → (result_bytes res ≤ max_result)%N) →
  (max_queue_bytes plan + 2 * max_result < 2 ^ 64)%N →
  reachable g s →
  size (ready s) ≤ S (max_queue_items plan)
  ∧ (total (ready s) ≤ max_queue_bytes plan + max_result)%N
  ∧ peak_reorder_items (metrics s) ≤ S (max_queue_items plan)
  ∧ (peak_reorder_bytes (metrics s) ≤ max_queue_bytes plan + max_result)%N
  ∧ (publisher s ≠ PDone → buffered_bytes s = total (ready s))
  ∧ in_flight s ≤ worker_count.
Proof.
  intros Hx Hnw Hs. destruct (reachable_bounded max_result Hx Hnw g s Hs) as [Hok [_ Hr Hb Hf [? ?]]].
  destruct (within_plan_total _ Hnw _ _ Hr). split_and!; try done.
  rewrite Hf, <-(ok_pool _ Hok). unfold held. induction (pool s) as [|w l IH]; [done|].
  csimpl. destruct (rank_of w); simpl; lia.
Qed.

(** ** Termination *)

Definition wweight (w : wstate Payload) : nat :=
  match w with WIdle => 1 | WExtract _ => 4 | WWait _ _ => 3 | WDone => 0 end.

Definition pweight (p : pstate Payload) : nat :=
  match p with
  | PLoop => 4
  | PCollect [] _ => 3
  | PCollect _ _ => 6
  | PPublish _ _ => 5
  | PUnwind => 2
  | PJoin => 1
  | PDone => 0
  end.

(** The events a run has left, at most. *)
Definition measure (s : R) : nat :=
  4 * (count - next_dispatch s) + sum_list (wweight <$> pool s)
  + 5 * (count - next_publish s) + pweight (publisher s).

Lemma sum_update (l : list (wstate Payload)) i w w' :
  l !! i = Some w →
  sum_list (wweight <$> <[i := w']> l) + wweight w = sum_list (wweight <$> l) + wweight w'.
Proof.
  revert i. induction l as [|x l IH]; intros [|i] Hi; simplify_eq/=; [lia|].
  specialize (IH i Hi). lia.
Qed.

Lemma step_decreases s s' : step s s' → measure s' < measure s.
Proof.
  intros [e He]. unfold perform in He. destruct (worker_of e) as [i|] eqn:Hw.
  - apply bind_Some in He as (w & Hi & He). unfold measure.
    pose proof (λ w', sum_update (pool s) i w w' Hi) as Hsum.
    destruct e, w as [|rank|rank res|]; cbn in He; try done;
      [destruct (_ && _) eqn:E|destruct (_ || _)|destruct (extract _ _) as [[g res]|]
      |destruct (_ && _)|destruct (stopping s)]; simplify_eq; cbn [pool publisher next_dispatch next_publish
        set_worker dispatch buffer abandon set_env].
    + specialize (Hsum (WExtract (next_dispatch s))). cbn [wweight] in Hsum.
      bool_split. apply Nat.ltb_lt in H0. lia.
    + specialize (Hsum WDone). cbn [wweight] in Hsum. lia.
    + specialize (Hsum (WWait rank res)). cbn [wweight] in Hsum. lia.
    + specialize (Hsum WIdle). cbn [wweight] in Hsum. lia.
    + specialize (Hsum WDone). cbn [wweight] in Hsum. lia.
  - unfold publisher_event in He. unfold measure.
    destruct e, (publisher s) as [|w b|w b| | |] eqn:Hp; try done;
      [| |destruct (takeable s w b) as [res|] eqn:Ht|destruct w; [done|]; destruct (_ || _)
       |destruct w; [|done]; destruct (_ || _)|case_bool_decide| |destruct (forallb _ _)];
      simplify_eq; cbn [pool publisher next_dispatch next_publish stop_run set_publisher take_entry hand_over
        drain pweight]; try lia.
    apply takeable_Some in Ht as (_ & _ & Hlt & _). destruct w; cbn; lia.
Qed.

Lemma nsteps_bounded n s s' : nsteps step n s s' → n ≤ measure s.
Proof.
  induction 1 as [|n x y z Hxy _ IH]; [lia|]. apply step_decreases in Hxy. lia.
Qed.

(** ** Progress *)

(** What the runner asks of the port: over the ranks [P] whose extraction has
    returned, [opened P g] holds, and a rank all of whose predecessors returned
    does not wait. *)
Class PortLaws (opened : (nat → Prop) → G → Prop) : Prop := {
  opened_iff P Q g : (∀ k, P k ↔ Q k) → opened P g → opened Q g;
  opened_extract P r g g' res :
    opened P g → extract r g = Some (g', res) → opened (λ k, P k ∨ k = r) g';
  opened_publish P w g : opened P g → opened P (publish w g);
  opened_abandon P r g : P r → opened P g → opened P (on_abandon r g);
  opened_enter P r g : opened P g → (∀ k, k < r → P k) → is_Some (extract r g)
}.

Section progress.
Context (opened : (nat → Prop) → G → Prop) `{Hlaws : !PortLaws opened}.

(** The ranks whose extraction has returned. *)
Definition passed (s : R) (k : nat) : Prop := k < next_dispatch s ∧ k ∉ extracting s.

Lemma extracting_held s r : r ∈ extracting s → r ∈ held s.
Proof.
  intros (w & Hw & Hr)%list_elem_of_omap. apply list_elem_of_omap. exists w. split; [done|].
  by destruct w.
Qed.

Lemma extracting_update s i w w' :
  runner_ok s → pool s !! i = Some w →
  (∀ k, k ∈ omap (λ w, match w with WExtract r => Some r | _ => None end) (<[i := w']> (pool s)) ↔
     (∃ r, w' = WExtract r ∧ k = r) ∨ (k ∈ extracting s ∧ w ≠ WExtract k)).
Proof.
  intros Hs Hi k. rewrite !list_elem_of_omap. split.
  - intros (x & (j & Hj)%list_elem_of_lookup & Hx).
    destruct x as [|r| |]; simplify_eq.
    apply list_lookup_insert_Some in Hj as [(_ & -> & _)|(Hne & Hj)]; [left; by exists k|right].
    split; [apply list_elem_of_omap; exists (WExtract k); split; [by eapply list_elem_of_lookup_2|done]|].
    intros ->. pose proof (ok_NoDup _ Hs) as Hnd. apply NoDup_app in Hnd as [Hnd _].
    destruct (held_update s i (WExtract k) WIdle Hi) as (rest & Hh & Hh'). cbn in Hh, Hh'.
    rewrite Hh in Hnd. apply NoDup_cons in Hnd as [Hn _]. apply Hn. rewrite <-Hh'.
    apply list_elem_of_omap. exists (WExtract k). split; [|done]. apply list_elem_of_lookup.
    exists j. by rewrite list_lookup_insert_ne.
  - intros [(r & -> & ->)|[(x & (j & Hj)%list_elem_of_lookup & Hx)%list_elem_of_omap Hw]].
    + exists (WExtract r). split; [|done]. apply list_elem_of_lookup. exists i.
      apply list_lookup_insert_eq. by eapply lookup_lt_Some.
    + destruct x as [|r| |]; simplify_eq. exists (WExtract k). split; [|done].
      apply list_elem_of_lookup. exists j. rewrite list_lookup_insert_ne; [done|]. congruence.
Qed.

Lemma held_lt s r : runner_ok s → r ∈ held s → r < next_dispatch s.
Proof. intros Hs Hr. apply (ok_ranks _ r Hs). auto. Qed.

Lemma not_extracting s r :
  runner_ok s → is_Some (ready s !! r) ∨ r ∈ abandoned s → r ∉ extracting s.
Proof.
  intros Hs Hr He%extracting_held. pose proof (ok_NoDup _ Hs) as Hnd.
  apply NoDup_app in Hnd as (_ & Hd & _). apply (Hd r He).
  rewrite elem_of_app, elem_of_ready_ranks. done.
Qed.

Lemma waiting_not_extracting s i r res :
  runner_ok s → pool s !! i = Some (WWait r res) → r ∉ extracting s.
Proof.
  intros Hs Hi He. pose proof (ok_NoDup _ Hs) as Hnd. apply NoDup_app in Hnd as [Hnd _].
  destruct (held_update s i (WWait r res) WIdle Hi) as (rest & Hh & Hh'). cbn in Hh, Hh'.
  rewrite Hh in Hnd. apply NoDup_cons in Hnd as [Hn _]. apply Hn. rewrite <-Hh'.
  apply list_elem_of_omap in He as (x & (j & Hj)%list_elem_of_lookup & Hx).
  apply list_elem_of_omap. exists x. destruct x; simplify_eq. split; [|done].
  apply list_elem_of_lookup. exists j. rewrite list_lookup_insert_ne; [done|]. congruence.
Qed.

(** The port hears of a returned rank. *)
Lemma opened_step s s' :
  runner_ok s → opened (passed s) (env s) → step s s' → opened (passed s') (env s').
Proof.
  intros Hs Ho [e He]. unfold perform in He. destruct (worker_of e) as [i|].
  - apply bind_Some in He as (w & Hi & He).
    pose proof (λ w', extracting_update s i w w' Hs Hi) as Hex.
    destruct e, w as [|rank|rank res|]; cbn in He; try done;
      [destruct (_ && _)|destruct (_ || _)|destruct (extract _ _) as [[g res]|] eqn:Hx
      |destruct (_ && _)|destruct (stopping s)]; simplify_eq; cbn.
    + eapply opened_iff; [|exact Ho]. intros k. unfold passed, extracting at 2. cbn.
      rewrite (Hex (WExtract (next_dispatch s))). split; [intros [? Hk]; split; [lia|]|].
      * intros [(r & [= <-] & ->)|[? _]]; [lia|done].
      * intros [Hlt Hk]. assert (k ≠ next_dispatch s) by (intros ->; apply Hk; left; eauto).
        split; [lia|]. intros Hin. apply Hk. by right.
    + eapply opened_iff; [|exact Ho]. intros k. unfold passed, extracting at 2. cbn.
      rewrite (Hex WDone). naive_solver.
    + eapply opened_iff; [|by eapply opened_extract]. intros k. unfold passed, extracting at 2. cbn.
      rewrite (Hex (WWait rank res)). pose proof (held_lt s rank Hs (held_elem _ _ _ _ Hi eq_refl)).
      destruct (decide (k = rank)) as [->|Hne]; [|naive_solver].
      split; [|by right]. intros _. split; [done|]. intros [(? & ? & _)|[_ ?]]; done.
    + eapply opened_iff; [|exact Ho]. intros k. unfold passed, extracting at 2. cbn.
      rewrite (Hex WIdle). naive_solver.
    + apply opened_abandon.
      { split; [apply (held_lt s rank Hs (held_elem _ _ _ _ Hi eq_refl))|]. unfold extracting. cbn.
        rewrite (Hex WDone). intros [(? & ? & _)|[Hk _]]; [done|].
        by apply (waiting_not_extracting s i rank res Hs Hi). }
      eapply opened_iff; [|exact Ho]. intros k. unfold passed, extracting at 2. cbn.
      rewrite (Hex WDone). naive_solver.
  - unfold publisher_event in He.
    destruct e, (publisher s) as [|w b|w b| | |] eqn:Hp; try done;
      [| |destruct (takeable s w b)|destruct (_ || _)
       |destruct w; [|done]; destruct (_ || _)| | |destruct (forallb _ _)]; simplify_eq; try exact Ho.
    + case_bool_decide; by apply opened_publish.
    + cbn. assert (∀ l g, (∀ r, r ∈ l → passed s r) → opened (passed s) g →
        opened (passed s) (foldl (λ g rank, on_abandon rank g) g l)) as Hgo.
      { intros l. induction l as [|r l IH]; intros g Hl Hg; [done|]. simpl.
        apply IH; [intros; apply Hl; by right|]. apply opened_abandon; [apply Hl; by left|done]. }
      apply Hgo; [|done]. intros r Hr. unfold leftover_ranks in Hr.
      rewrite merge_sort_Permutation in Hr. apply elem_of_ready_ranks in Hr.
      split; [apply (ok_ranks _ r Hs); auto|]. apply not_extracting; auto.
Qed.

Lemma reachable_opened g s :
  opened (λ _, False) g → reachable g s → runner_ok s ∧ opened (passed s) (env s).
Proof.
  intros Hg Hr. assert (opened (passed (initial g)) (env (initial g))) as H0.
  { eapply opened_iff; [|exact Hg]. intros k. unfold passed. cbn. lia. }
  revert Hr. unfold reachable. generalize (conj (initial_ok g) H0). generalize (initial g).
  intros x Hx H. induction H as [|x y z Hxy _ IH]; [done|]. apply IH. destruct Hx.
  split; [by eapply step_ok|by eapply opened_step].
Qed.

Lemma list_min (l : list nat) : l ≠ [] → ∃ r, r ∈ l ∧ ∀ k, k ∈ l → r ≤ k.
Proof.
  induction l as [|x l IH]; [done|]. intros _. destruct l as [|y l].
  - exists x. split; [by left|]. by intros k ->%list_elem_of_singleton.
  - destruct IH as (r & Hr & Hmin); [done|]. destruct (decide (x ≤ r)) as [Hle|Hgt].
    + exists x. split; [by left|]. intros k [->|Hk]%elem_of_cons; [done|]. apply Hmin in Hk. lia.
    + exists r. split; [by right|]. intros k [->|Hk]%elem_of_cons; [lia|by apply Hmin].
Qed.

(** The least rank in extraction can return. *)
Lemma extract_enabled s :
  runner_ok s → opened (passed s) (env s) → extracting s ≠ [] → ∃ s', step s s'.
Proof.
  intros Hs Ho Hne. destruct (list_min _ Hne) as (r & Hr & Hmin).
  destruct (opened_enter (passed s) r (env s) Ho) as [[g res] Hx].
  { intros k Hk. pose proof (held_lt s r Hs (extracting_held s r Hr)). split; [lia|].
    intros Hin. apply Hmin in Hin. lia. }
  apply list_elem_of_omap in Hr as (w & (i & Hi)%list_elem_of_lookup & Hw).
  destruct w; simplify_eq. exists (set_worker i (WWait r res) (set_env g s)), (EvExtracted i).
  unfold perform. cbn. rewrite Hi. cbn. by rewrite Hx.
Qed.

(** A worker event that is enabled. *)
Lemma worker_enabled s i w e s' :
  pool s !! i = Some w → worker_of e = Some i → worker_event e i w s = Some s' → step s s'.
Proof. intros Hi He Hw. exists e. unfold perform. by rewrite He, Hi. Qed.

Lemma joining_progress s :
  runner_ok s → opened (passed s) (env s) → publisher s = PJoin → ∃ s', step s s'.
Proof.
  intros Hs Ho Hp. pose proof (ok_joining _ Hs ltac:(by rewrite Hp)) as Hst.
  destruct (forallb is_done (pool s)) eqn:Hd.
  { exists (drain s), EvJoin. unfold perform. cbn. by rewrite Hp, Hd. }
  destruct (extracting s) as [|r l] eqn:He; [|apply extract_enabled; by rewrite ?He].
  rewrite <-not_true_iff_false, forallb_forall in Hd.
  assert (∃ i w, pool s !! i = Some w ∧ w ≠ WDone) as (i & w & Hi & Hw).
  { destruct (decide (Forall (λ w, is_done w = true) (pool s))) as [Hall|Hex].
    - destruct Hd. intros w Hw. rewrite Forall_forall in Hall. by apply Hall, list_elem_of_In.
    - apply not_Forall_Exists in Hex; [|apply _]. apply Exists_exists in Hex as (w & Hw & Hnd).
      apply list_elem_of_lookup in Hw as [i Hi]. exists i, w. split; [done|]. intros ->. by apply Hnd. }
  destruct w as [|rank|rank res|]; [| | |done].
  - eexists. eapply (worker_enabled s i WIdle (EvLeave i)); [done..|]. cbn. by rewrite Hst.
  - assert (rank ∈ extracting s) as Hin.
    { apply list_elem_of_omap. exists (WExtract rank). split; [by eapply list_elem_of_lookup_2|done]. }
    rewrite He in Hin. by apply not_elem_of_nil in Hin.
  - eexists. eapply (worker_enabled s i (WWait rank res) (EvAbandon i)); [done..|]. cbn. by rewrite Hst.
Qed.

(** The publisher waits for a rank that no worker has brought yet. *)
Lemma waiting_progress s :
  runner_ok s → opened (passed s) (env s) → stopping s = false →
  next_publish s < count → ready s !! next_publish s = None → ∃ s', step s s'.
Proof.
  intros Hs Ho Hst Hlt Hnone.
  destruct (extracting s) as [|r l] eqn:He; [|apply extract_enabled; by rewrite ?He].
  pose proof (ok_le _ Hs) as Hle.
  destruct (decide (next_publish s < next_dispatch s)) as [Hd|Hd].
  - assert (next_publish s ∈ held s) as Hh.
    { destruct (proj1 (ok_ranks _ (next_publish s) Hs)) as [?|[[? ?]|Ha]]; [lia|done|congruence|].
      rewrite (ok_abandoned _ Hs Hst) in Ha. by apply not_elem_of_nil in Ha. }
    apply list_elem_of_omap in Hh as (w & (i & Hi)%list_elem_of_lookup & Hw).
    destruct w as [|rank|rank res|]; simplify_eq/=.
    + assert (next_publish s ∈ extracting s) as Hin.
      { apply list_elem_of_omap. exists (WExtract (next_publish s)).
        split; [by eapply list_elem_of_lookup_2|done]. }
      rewrite He in Hin. by apply not_elem_of_nil in Hin.
    + eexists. eapply (worker_enabled s i (WWait _ res) (EvAdmit i)); [done..|].
      cbn. unfold admissible. by rewrite Hst, Nat.eqb_refl.
  - assert (∃ i w, pool s !! i = Some w) as (i & w & Hi).
    { exists 0. apply lookup_lt_is_Some. rewrite (ok_pool _ Hs). unfold worker_count. lia. }
    assert (∀ r, r ∉ held s) as Hno.
    { intros r Hr. assert (next_publish s ≤ r < next_dispatch s) by (apply (ok_ranks _ r Hs); auto). lia. }
    destruct w as [|rank|rank res|].
    + eexists. eapply (worker_enabled s i WIdle (EvDispatch i)); [done..|].
      cbn -[Nat.ltb]. rewrite Hst.
      assert (next_dispatch s < count) as ->%Nat.ltb_lt by lia. done.
    + destruct (Hno rank). by eapply held_elem.
    + destruct (Hno rank). by eapply held_elem.
    + destruct (ok_gone _ Hs) as [?|?]; [by eapply list_elem_of_lookup_2|congruence|lia].
Qed.

Lemma progress s :
  runner_ok s → opened (passed s) (env s) → publisher s = PDone ∨ ∃ s', step s s'.
Proof.
  intros Hs Ho. destruct (publisher s) as [|w b|w b| | |] eqn:Hp; [| | | | |by left]; right.
  - eexists. exists EvStart. unfold perform. cbn. by rewrite Hp.
  - pose proof (not_stopping_unwinding s Hs ltac:(by rewrite Hp)) as Hst.
    destruct (takeable s w b) as [res|] eqn:Ht.
    { eexists. exists EvTake. unfold perform. cbn. by rewrite Hp, Ht. }
    destruct w as [|x w].
    2:{ eexists. exists EvClose. unfold perform. cbn. rewrite Hp, Ht.
        by rewrite bool_decide_false, bool_decide_true. }
    destruct (decide (count ≤ next_publish s)) as [Hc|Hc].
    { eexists. exists EvFinish. unfold perform. cbn. rewrite Hp.
      by rewrite (proj2 (Nat.leb_le count (next_publish s)) Hc), orb_true_r. }
    apply waiting_progress; [done|done|done|lia|].
    unfold takeable in Ht. rewrite Hst in Ht. cbn [length negb] in Ht.
    rewrite (proj2 (Nat.ltb_lt 0 bounded_window_items)) in Ht by (unfold bounded_window_items; lia).
    rewrite (proj2 (Nat.ltb_lt (next_publish s) count)) in Ht by lia.
    by destruct (ready s !! next_publish s).
  - eexists. exists (EvPublish 0 none). unfold perform. cbn. by rewrite Hp.
  - eexists. exists EvGuard. unfold perform. cbn. by rewrite Hp.
  - by apply joining_progress.
Qed.

(** Over a port that never makes the least outstanding rank wait, a run
    cannot go on forever (the measure bounds its length), is never stuck before the
    end, and from every state it reaches there is a continuation to the end. *)
Lemma run_terminates g s :
  opened (λ _, False) g → reachable g s →
  (∀ n s', nsteps step n s s' → n ≤ measure s)
  ∧ ((∀ s', ¬ step s s') → publisher s = PDone)
  ∧ (∃ s', rtc step s s' ∧ publisher s' = PDone).
Proof.
  intros Hg Hr. destruct (reachable_opened g s Hg Hr) as [Hs Ho]. split_and!.
  - intros n s'. apply nsteps_bounded.
  - intros Hstuck. destruct (progress s Hs Ho) as [?|[s' ?]]; [done|]. by destruct (Hstuck s').
  - remember (measure s) as k eqn:Hk. revert s Hk Hs Ho Hr.
    induction k as [k IH] using lt_wf_ind. intros s -> Hs Ho Hr.
    destruct (progress s Hs Ho) as [Hd|[s' Hs']]; [by exists s|].
    destruct (IH (measure s')) with (s := s') as (t & Ht & Hd); try done.
    + by apply step_decreases.
    + by eapply step_ok.
    + by eapply opened_step.
    + by eapply rtc_r.
    + exists t. split; [by eapply rtc_l|done].
Qed.
End progress.
End runner.

(** ** The port of [parallel_index.cpp]

    [run_parallel_index] connects the runner to the header claims: an extraction
    is the attempts of one rank (the first parse and its retries), the callback
    revokes the grants of the ranks the writer rejected, and [on_abandon] releases
    the rank.  The attempts of one extraction are one event, enabled when the gate
    lets every claim among them pass. *)
Module RunnerGate.

(** What [run_index_one] does with the oracle: it claims its headers, it releases
    its rank without a claim, or it leaves before either (the early [return out]
    of [prepare_front_end_reuse], or an exception). *)
Inductive attempt :=
| Claims (cfg : bytes) (cs : list HeaderClaimCandidate)
| Releases
| Leaves.

Definition run_attempt (rank : nat) (a : attempt) (o : oracle) : option oracle :=
  match a with
  | Claims cfg cs => if gate_open o rank then Some (claim rank cfg cs o).1 else None
  | Releases => Some (release_unclaimed rank o)
  | Leaves => Some o
  end.

Fixpoint run_attempts (rank : nat) (al : list attempt) (o : oracle) : option oracle :=
  match al with
  | [] => Some o
  | a :: al => o ← run_attempt rank a o; run_attempts rank al o
  end.

(** The revocations of one publication window. *)
Definition revoke_rejected {Payload} (rejected : nat → bool)
    (window : list (nat * ParallelResult Payload)) (o : oracle) : oracle :=
  foldl (λ o entry, if rejected entry.1 then revoke_grants entry.1 o else o) o window.

Section gate.
Context {Payload : Type} (attempts : nat → list attempt)
  (outcome : nat → ParallelResult Payload) (rejected : nat → bool).

Definition gated_port : RunnerPort oracle Payload := {|
  extract rank o := o ← run_attempts rank (attempts rank) o; Some (o, outcome rank);
  publish := revoke_rejected rejected;
  on_abandon := release_unclaimed
|}.
#[local] Existing Instance gated_port.

(** The first attempt of a rank claims or releases. *)
Definition speaks (al : list attempt) : bool :=
  match al with Claims _ _ :: _ | Releases :: _ => true | _ => false end.

(** The gate has heard of every rank of [P], and is not cancelled. *)
Definition opened (P : nat → Prop) (o : oracle) : Prop :=
  HeaderClaims.cancelled o = false ∧ next_rank o ∉ released o
  ∧ ∀ k, P k → k < next_rank o ∨ k ∈ released o.

Lemma opened_release P r o : opened P o → opened (λ k, P k ∨ k = r) (release r o).
Proof.
  intros (Hc & _ & HP). destruct (release_spec r o) as (_ & _ & Hc' & Hle & Hn & _ & Hiff).
  split_and!; [congruence|done|]. intros k Hk.
  destruct (decide (k < next_rank (release r o))); [by left|right]. apply Hiff.
  destruct Hk as [[?|?]%HP| ->]; [lia|split; [by left|lia]|split; [by right|lia]].
Qed.

Lemma opened_mono (P Q : nat → Prop) o : (∀ k, Q k → P k) → opened P o → opened Q o.
Proof. intros HPQ (? & ? & HP). split_and!; auto. Qed.

Lemma opened_unclaimed P r o :
  opened P o → opened (λ k, P k ∨ k = r) (release_unclaimed r o).
Proof.
  intros Ho. unfold release_unclaimed. rewrite (proj1 Ho). cbn [orb].
  case_bool_decide as Hlt; [|by apply opened_release].
  destruct Ho as (? & ? & HP). split_and!; [done..|]. intros k [?| ->]; auto.
Qed.

Lemma opened_claim P r cfg cs o :
  opened P o → opened (λ k, P k ∨ k = r) (claim r cfg cs o).1.
Proof.
  intros Ho. unfold claim. rewrite (proj1 Ho).
  destruct (claim_all _ _ _ _ _) as [[g m] owned]. cbn [fst].
  apply opened_release. destruct Ho as (? & ? & ?). by split_and!.
Qed.

(** An attempt never takes a rank away; the first one adds its own. *)
Lemma opened_attempt P r a o o' :
  opened P o → run_attempt r a o = Some o' →
  opened P o' ∧ (a ≠ Leaves → opened (λ k, P k ∨ k = r) o').
Proof.
  intros Ho Ha. assert (∀ o, opened (λ k, P k ∨ k = r) o → opened P o) as Hm
    by (intros ?; apply opened_mono; auto).
  destruct a; cbn in Ha; [destruct (gate_open o r); [|done]| |]; simplify_eq.
  - pose proof (opened_claim P r cfg cs o Ho). auto.
  - pose proof (opened_unclaimed P r o Ho). auto.
  - split; [done|]. by intros [].
Qed.

Lemma opened_attempts P r al o o' :
  opened P o → run_attempts r al o = Some o' → opened P o'.
Proof.
  revert o. induction al as [|a al IH]; intros o Ho Hal; cbn in Hal; [by simplify_eq|].
  apply bind_Some in Hal as (o1 & Ha & Hal). apply opened_attempt with (P := P) in Ha as [? _]; eauto.
Qed.

(** With every earlier rank heard, no claim of the rank waits. *)
Lemma attempts_enter P r al o :
  opened P o → (∀ k, k < r → P k) → is_Some (run_attempts r al o).
Proof.
  revert o. induction al as [|a al IH]; intros o Ho Hr; [done|]. cbn.
  assert (is_Some (run_attempt r a o)) as [o' Ha].
  { destruct a; [|done..]. cbn. unfold gate_open. rewrite bool_decide_true, orb_true_r; [done|].
    destruct (decide (r ≤ next_rank o)) as [?|Hlt]; [done|]. destruct Ho as (_ & Hn & HP).
    destruct (HP (next_rank o)); [apply Hr; lia|lia|done]. }
  rewrite Ha. apply IH; [|done]. by eapply opened_attempt.
Qed.

Lemma opened_revoke P w o : opened P o → opened P (revoke_rejected (Payload := Payload) rejected w o).
Proof.
  revert o. unfold revoke_rejected. induction w as [|e w IH]; intros o Ho; [done|]. simpl.
  apply IH. by destruct (rejected e.1).
Qed.

Lemma gated_laws : (∀ r, speaks (attempts r) = true) → PortLaws opened.
Proof.
  intros Hsp. split.
  - intros P Q o HPQ. apply opened_mono. intros k. apply HPQ.
  - intros P r o o' res Ho (o1 & Hal & Hx)%bind_Some. simplify_eq. specialize (Hsp r).
    destruct (attempts r) as [|a al]; [done|]. apply bind_Some in Hal as (o1 & Ha & Hal).
    apply (opened_attempts _ r al o1 o'); [|exact Hal].
    apply opened_attempt with (P := P) in Ha as [_ Ha]; [|done]. apply Ha. by destruct a.
  - intros P w o. apply opened_revoke.
  - intros P r o Hr Ho. apply (opened_mono (λ k, P k ∨ k = r)); [auto|by apply opened_unclaimed].
  - intros P r o Ho Hr. destruct (attempts_enter P r (attempts r) o Ho Hr) as [o' Ha].
    cbn. rewrite Ha. by eexists.
Qed.

Lemma opened_initial : opened (λ _, False) initial_oracle.
Proof. by split_and!. Qed.

(** C10: a parallel index run whose every unit claims or releases its rank comes to
    its end: no interleaving is longer than the measure of its start, none gets
    stuck before the publisher is back at its caller, and every state reached has
    a continuation that gets there. *)
Theorem gated_run_terminates plan count max_window_items (s : runner oracle Payload) :
  (∀ r, speaks (attempts r) = true) →
  reachable plan count max_window_items initial_oracle s →
  (∀ n s', nsteps (step plan count max_window_items) n s s' → n ≤ measure count s)
  ∧ ((∀ s', ¬ step plan count max_window_items s s') → publisher s = PDone)
  ∧ (∃ s', rtc (step plan count max_window_items) s s' ∧ publisher s' = PDone).
Proof.
  intros Hsp Hr. apply (run_terminates plan count max_window_items opened (Hlaws := gated_laws Hsp)
    initial_oracle s opened_initial Hr).
Qed.

End gate.

(** *** Two units on two workers *)

Definition two_workers : ParallelPlan := mkPlan 2 2 100 100 1 (bs "sample").

Definition sample_header : HeaderClaimCandidate :=
  HeaderClaims.Candidate (bs "a.hpp") (Some (bs "d41d")) false.

Definition sample_outcome (rank : nat) : ParallelResult nat := mkResult rank 60 None.

(** Both units parse and claim the same header. *)
Definition sample_attempts (rank : nat) : list attempt := [Claims (bs "cfg") [sample_header]].

(** Unit 0 leaves before its claim. *)
Definition leaving_attempts (rank : nat) : list attempt :=
  if rank =? 0 then [Leaves] else [Claims (bs "cfg") [sample_header]].

#[export] Instance sample_port : RunnerPort oracle nat :=
  gated_port sample_attempts sample_outcome (λ _, false).

Definition leaving_port : RunnerPort oracle nat :=
  gated_port leaving_attempts sample_outcome (λ _, false).

(** Rank 1 returns only after rank 0 has claimed; it is buffered past the byte
    budget of the window, so each rank is its own window. *)
Definition sample_events : list event :=
  [EvStart; EvDispatch 0; EvDispatch 1; EvExtracted 0; EvExtracted 1; EvAdmit 0; EvTake;
   EvAdmit 1; EvClose; EvPublish 1 none; EvLeave 0].

Definition leaving_events : list event :=
  [EvDispatch 0; EvDispatch 1; EvStart; EvExtracted 0; EvAdmit 0; EvLeave 0; EvTake; EvClose;
   EvPublish 1 none; EvStart].

Definition sample_state : runner oracle nat :=
  default (initial two_workers 2 initial_oracle)
    (perform_all two_workers 2 2 sample_events (initial two_workers 2 initial_oracle)).

Definition stalled_state : runner oracle nat :=
  default (initial two_workers 2 initial_oracle)
    (perform_all (RunnerPort0 := leaving_port) two_workers 2 2 leaving_events
       (initial two_workers 2 initial_oracle)).

Lemma perform_all_rtc {G Payload} `{!RunnerPort G Payload} plan count m es (x y : runner G Payload) :
  perform_all plan count m es x = Some y → rtc (step plan count m) x y.
Proof.
  revert x. induction es as [|e es IH]; intros x H; cbn in H; [by simplify_eq|].
  apply bind_Some in H as (x1 & He & H). eapply rtc_l; [by exists e|by apply IH].
Qed.

Lemma sample_reachable : reachable two_workers 2 2 initial_oracle sample_state.
Proof. apply (perform_all_rtc _ _ _ sample_events). by vm_compute. Qed.

(** A run that stalls because a unit neither claims nor releases its rank.  Unit 0
    leaves early and is published, the worker of unit 1 waits for the gate, the
    publisher waits for unit 1, and no event is enabled: nobody polls
    [cancelled()] any more. *)
Theorem leaving_unit_stalls :
  reachable (RunnerPort0 := leaving_port) two_workers 2 2 initial_oracle stalled_state
  ∧ publisher stalled_state ≠ PDone ∧ (handed stalled_state).*1 = [0]
  ∧ pool stalled_state = [WDone; WExtract 1] ∧ next_rank (env stalled_state) = 0
  ∧ ∀ s', ¬ step (RunnerPort0 := leaving_port) two_workers 2 2 stalled_state s'.
Proof.
  split_and!; [|done..|].
  - apply (perform_all_rtc (RunnerPort0 := leaving_port) _ _ _ leaving_events). by vm_compute.
  - intros s' [e He]. destruct e as [[|[|i]]|[|[|i]]|[|[|i]]|[|[|i]]|[|[|i]]| | | | | | | |];
      by vm_compute in He.
Qed.

Lemma gated_run_terminates_witness :
  ∃ s', rtc (step two_workers 2 2) sample_state s' ∧ publisher s' = PDone.
Proof.
  apply (gated_run_terminates sample_attempts sample_outcome (λ _, false) two_workers 2 2 sample_state);
    [reflexivity|apply sample_reachable].
Defined.

Lemma published_in_order_witness :
  held sample_state ++ ready_ranks sample_state ++ abandoned sample_state ≡ₚ [1].
Proof. apply (published_in_order two_workers 2 2 initial_oracle sample_state sample_reachable). Defined.

Lemma buffer_bounded_witness : (peak_reorder_bytes (metrics sample_state) ≤ 160)%N.
Proof.
  apply (buffer_bounded two_workers 2 2 60 initial_oracle sample_state);
    [|reflexivity|apply sample_reachable].
  intros r g g' res Hx. cbn in Hx. apply bind_Some in Hx as (? & _ & Hx). by simplify_eq.
Defined.

End RunnerGate.
