(* ===== verification/DependencyPlanner.v ===== *)
(** * Reverse-dependency planning: [src/src/storage/tu_dependency_planner.cpp]

    Which cached translation units a set of changed files invalidates.  Paths
    are canonicalised by [canonical_tu_cache_path]
    ([src/src/workspace/tu_fact_cache_identity.cpp]), which may throw when the
    working directory is unavailable. *)

From S2P Require Export PathUtil.
From S2P Require Import Reach.

(** ** Data *)

Inductive DependencyEvidenceState : Type :=
| ev_complete | ev_incomplete | ev_stale | ev_corrupt | ev_unavailable.

Inductive DependencyFallbackReason : Type :=
| reason_none | reason_incomplete_evidence | reason_stale_evidence | reason_corrupt_evidence
| reason_unavailable_evidence | reason_missing_generation | reason_unresolved_dependency.

Inductive TuDependencyKind : Type :=
| kind_include | kind_macro | kind_generated | kind_toolchain.

#[export] Instance DependencyEvidenceState_eq_dec : EqDecision DependencyEvidenceState.
Proof. solve_decision. Defined.
#[export] Instance DependencyFallbackReason_eq_dec : EqDecision DependencyFallbackReason.
Proof. solve_decision. Defined.
#[export] Instance TuDependencyKind_eq_dec : EqDecision TuDependencyKind.
Proof. solve_decision. Defined.

Record TuDependencyEdge := DependencyEdge {
  edge_source : bytes;
  edge_destination : bytes;
  edge_sha256 : bytes;                  (* destination_content_sha256 *)
  edge_context : bytes;                 (* conditional_context *)
  edge_provenance : bytes;
  edge_kind : TuDependencyKind;
  edge_resolved : bool;
  edge_system : bool
}.

#[export] Instance TuDependencyEdge_eq_dec : EqDecision TuDependencyEdge.
Proof. solve_decision. Defined.

Record TranslationUnitDependencyEvidence := Evidence {
  unit_source : bytes;
  unit_configuration : bytes;
  unit_generation : bytes;
  unit_state : DependencyEvidenceState;
  unit_edges : list TuDependencyEdge
}.

Record AffectedTranslationUnit := Affected {
  affected_source : bytes;
  affected_configuration : bytes
}.

#[export] Instance AffectedTranslationUnit_eq_dec : EqDecision AffectedTranslationUnit.
Proof. solve_decision. Defined.

Record TuDependencyPlan := Plan {
  affected : list AffectedTranslationUnit;
  affected_count : nat;
  proven_unaffected_count : nat;
  visited_dependency_nodes : nat;
  visited_dependency_edges : nat;
  complete : bool;
  fallback_reason : DependencyFallbackReason
}.

(** The enumerators' values, which [operator<=>] compares. *)
Definition kind_index (k : TuDependencyKind) : ascii :=
  match k with
  | kind_include => "000" | kind_macro => "001" | kind_generated => "002" | kind_toolchain => "003"
  end%char.
Definition bool_index (b : bool) : ascii := (if b then "001" else "000")%char.

(** The fields in declaration order, as [std::tie] compares them. *)
Definition edge_key (e : TuDependencyEdge) : list bytes :=
  [edge_source e; edge_destination e; edge_sha256 e; edge_context e; edge_provenance e;
   [kind_index (edge_kind e)]; [bool_index (edge_resolved e)]; [bool_index (edge_system e)]].
Definition edge_ltb (a b : TuDependencyEdge) : bool := lex_ltb bytes_ltb (edge_key a) (edge_key b).

Definition target_key (t : AffectedTranslationUnit) : list bytes :=
  [affected_source t; affected_configuration t].
Definition target_ltb (a b : AffectedTranslationUnit) : bool :=
  lex_ltb bytes_ltb (target_key a) (target_key b).

Definition reason_to_string (r : DependencyFallbackReason) : bytes :=
  match r with
  | reason_none => bs "none"
  | reason_incomplete_evidence => bs "incomplete_evidence"
  | reason_stale_evidence => bs "stale_evidence"
  | reason_corrupt_evidence => bs "corrupt_evidence"
  | reason_unavailable_evidence => bs "unavailable_evidence"
  | reason_missing_generation => bs "missing_generation"
  | reason_unresolved_dependency => bs "unresolved_dependency"
  end.

Definition kind_to_string (k : TuDependencyKind) : bytes :=
  match k with
  | kind_include => bs "include"
  | kind_macro => bs "macro"
  | kind_generated => bs "generated"
  | kind_toolchain => bs "toolchain"
  end.

(** ** Operations *)

Definition fallback_for (state : DependencyEvidenceState) : DependencyFallbackReason :=
  match state with
  | ev_complete => reason_none
  | ev_incomplete => reason_incomplete_evidence
  | ev_stale => reason_stale_evidence
  | ev_corrupt => reason_corrupt_evidence
  | ev_unavailable => reason_unavailable_evidence
  end.

Definition canonical_tu_cache_path (h : host) (path : bytes) : result bytes :=
  match path with
  | [] => Ok []
  | _ => let! p := abspath h path in Ok (normpath p)
  end.

Definition target_of (h : host) (unit : TranslationUnitDependencyEvidence) :
    result AffectedTranslationUnit :=
  let! source := canonical_tu_cache_path h (unit_source unit) in
  Ok (Affected source (unit_configuration unit)).

Definition all_targets (h : host) (evidence : list TranslationUnitDependencyEvidence) :
    result (list AffectedTranslationUnit) :=
  let! targets := mapR (target_of h) evidence in Ok (sort_unique target_ltb targets).

Definition fallback_plan (h : host) (evidence : list TranslationUnitDependencyEvidence)
    (reason : DependencyFallbackReason) : result TuDependencyPlan :=
  let! affected := all_targets h evidence in
  Ok (Plan affected (length affected) 0 0 0 false reason).

Definition canonical_edge (h : host) (e : TuDependencyEdge) : result TuDependencyEdge :=
  let! source := canonical_tu_cache_path h (edge_source e) in
  let! destination := canonical_tu_cache_path h (edge_destination e) in
  Ok (DependencyEdge source destination (edge_sha256 e) (edge_context e) (edge_provenance e)
        (edge_kind e) (edge_resolved e) (edge_system e)).

Definition capture_translation_unit_dependency_evidence (h : host)
    (source configuration generation : bytes) (edges : list TuDependencyEdge) (complete : bool) :
    result TranslationUnitDependencyEvidence :=
  let! source := canonical_tu_cache_path h source in
  let! edges := mapR (canonical_edge h) edges in
  let edges := sort_unique edge_ltb edges in
  let all_resolved := forallb edge_resolved edges in
  Ok (Evidence source configuration generation
        (if complete && all_resolved then ev_complete else ev_incomplete) edges).

(** The loop over the evidence that looks for a reason to fall back. *)
Fixpoint fallback_needed (evidence : list TranslationUnitDependencyEvidence) :
    option DependencyFallbackReason :=
  match evidence with
  | [] => None
  | unit :: evidence =>
      if decide (unit_state unit ≠ ev_complete) then Some (fallback_for (unit_state unit))
      else if decide (unit_generation unit = []) then Some reason_missing_generation
      else if existsb (λ e, negb (edge_resolved e)) (unit_edges unit)
      then Some reason_unresolved_dependency
      else fallback_needed evidence
  end.

Abbreviation adjacency := (gmap bytes (list bytes)).

(** [reverse[destination].push_back(source)] for each edge. *)
Fixpoint collect_reverse (h : host) (reverse : adjacency) (edges : list TuDependencyEdge) :
    result adjacency :=
  match edges with
  | [] => Ok reverse
  | e :: edges =>
      let! destination := canonical_tu_cache_path h (edge_destination e) in
      let! source := canonical_tu_cache_path h (edge_source e) in
      collect_reverse h
        (<[destination := default [] (reverse !! destination) ++ [source]]> reverse) edges
  end.

Definition reverse_map (h : host) (edges : list TuDependencyEdge) : result adjacency :=
  let! reverse := collect_reverse h ∅ edges in Ok (sort_unique bytes_ltb <$> reverse).

(** [if (visited.insert(source).second) pending.push_back(source)] over the
    sources of a node. *)
Fixpoint visit_sources (sources : list bytes) (visited : gset bytes) (pending : list bytes) :
    gset bytes * list bytes :=
  match sources with
  | [] => (visited, pending)
  | source :: sources =>
      if decide (source ∈ visited) then visit_sources sources visited pending
      else visit_sources sources ({[source]} ∪ visited) (pending ++ [source])
  end.

(** The state of the worklist loop of one unit. *)
Record worklist := Worklist {
  pending : list bytes;
  index : nat;
  visited : gset bytes;
  nodes_seen : nat;
  edges_seen : nat
}.

(** One iteration, when [index < pending.size()]. *)
Definition worklist_step (reverse : adjacency) (w : worklist) : option worklist :=
  match pending w !! index w with
  | None => None
  | Some node =>
      match reverse !! node with
      | None =>
          Some (Worklist (pending w) (S (index w)) (visited w) (S (nodes_seen w)) (edges_seen w))
      | Some incoming =>
          let '(visited', pending') := visit_sources incoming (visited w) (pending w) in
          Some (Worklist pending' (S (index w)) visited' (S (nodes_seen w))
                  (edges_seen w + length incoming))
      end
  end.

(** The loop; [None] when the fuel runs out, which [worklist_loop_total]
    excludes. *)
Fixpoint worklist_loop (fuel : nat) (reverse : adjacency) (w : worklist) : option worklist :=
  match fuel with
  | O => None
  | S fuel =>
      match worklist_step reverse w with
      | None => Some w
      | Some w' => worklist_loop fuel reverse w'
      end
  end.

(** Every node the loop can append is in [pending] or a source. *)
Definition worklist_fuel (reverse : adjacency) (changed : gset bytes) : nat :=
  S (size changed + length (mjoin (map_to_list reverse).*2)).

(** Marks the units, with the running totals of nodes and edges. *)
Fixpoint plan_units (h : host) (changed : gset bytes)
    (evidence : list TranslationUnitDependencyEvidence)
    (found : list AffectedTranslationUnit) (nodes edges : nat) :
    result (list AffectedTranslationUnit * nat * nat) :=
  match evidence with
  | [] => Ok (found, nodes, edges)
  | unit :: evidence =>
      let! reverse := reverse_map h (unit_edges unit) in
      match worklist_loop (worklist_fuel reverse changed) reverse
              (Worklist (set_list changed) 0 changed nodes edges) with
      | None => throw (bs "out of fuel")
      | Some w =>
          let! source := canonical_tu_cache_path h (unit_source unit) in
          let found := if decide (source ∈ visited w)
                       then Affected source (unit_configuration unit) :: found else found in
          plan_units h changed evidence found (nodes_seen w) (edges_seen w)
      end
  end.

Definition plan_affected_translation_units (h : host) (changed_dependencies : list bytes)
    (evidence : list TranslationUnitDependencyEvidence) : result TuDependencyPlan :=
  match evidence with
  | [] => fallback_plan h evidence reason_unavailable_evidence
  | _ =>
      match fallback_needed evidence with
      | Some reason => fallback_plan h evidence reason
      | None =>
          let! changed := mapR (canonical_tu_cache_path h) changed_dependencies in
          let! marked := plan_units h (list_to_set changed) evidence [] 0 0 in
          let '(found, nodes, edges) := marked in
          let affected := sort_unique target_ltb found in
          let! targets := all_targets h evidence in
          Ok (Plan affected (length affected) (length targets - length affected) nodes edges
                true reason_none)
      end
  end.

(** ** Canonical paths *)

(** [canonical_tu_cache_path] in a process with a working directory. *)
Definition canon (h : host) (p : bytes) : bytes :=
  match canonical_tu_cache_path h p with Ok q => q | Err _ => [] end.

#[export] Instance edge_order : LtbOrder edge_ltb.
Proof.
  assert (Inj (=) (=) edge_key) as Hinj.
  { intros [? ? ? ? ? k r y] [? ? ? ? ? k' r' y'] H. unfold edge_key in H.
    destruct k, k', r, r', y, y'; simplify_eq/=; done. }
  exact (key_order (lex_ltb bytes_ltb) edge_key).
Qed.

#[export] Instance target_order : LtbOrder target_ltb.
Proof.
  assert (Inj (=) (=) target_key) as Hinj by (intros [] [] ?; simplify_eq/=; done).
  exact (key_order (lex_ltb bytes_ltb) target_key).
Qed.

Lemma abspath_abs h cwd p q :
  host_cwd h = Ok cwd → isabs cwd = true → abspath h p = Ok q → isabs q = true.
Proof.
  intros Hcwd Habs. unfold abspath. rewrite Hcwd. simpl.
  destruct (isabs p) eqn:Hp; intros [= <-]; rewrite isabs_normpath; [done|].
  unfold join, join_one. simpl. rewrite Hp.
  assert (cwd ≠ []) by by destruct cwd. case_match; by rewrite isabs_app.
Qed.

Section planner.
Context (h : host) (cwd : bytes).
Context (Hcwd : host_cwd h = Ok cwd) (Habs : isabs cwd = true).

Lemma canonical_ok p : canonical_tu_cache_path h p = Ok (canon h p).
Proof.
  unfold canon, canonical_tu_cache_path. destruct p as [|c p]; [done|].
  unfold abspath. rewrite Hcwd. destruct (isabs (c :: p)); reflexivity.
Qed.

Lemma canon_idem p : canon h (canon h p) = canon h p.
Proof.
  pose proof (canonical_ok p) as Hp. unfold canonical_tu_cache_path in Hp.
  destruct p as [|c p]; [done|].
  destruct (abspath h (c :: p)) as [q|] eqn:Hq; [|done]. simpl in Hp.
  assert (canon h (c :: p) = normpath q) as -> by congruence.
  pose proof (abspath_abs _ _ _ _ Hcwd Habs Hq) as Hqa.
  unfold canon, canonical_tu_cache_path, abspath. rewrite isabs_normpath, Hqa. simpl.
  destruct (normpath q) as [|] eqn:E; [by apply normpath_nonempty in E|].
  by rewrite <-E, !normpath_idem.
Qed.

Definition canon_target (u : TranslationUnitDependencyEvidence) : AffectedTranslationUnit :=
  Affected (canon h (unit_source u)) (unit_configuration u).

Definition canon_edge (e : TuDependencyEdge) : TuDependencyEdge :=
  DependencyEdge (canon h (edge_source e)) (canon h (edge_destination e)) (edge_sha256 e)
    (edge_context e) (edge_provenance e) (edge_kind e) (edge_resolved e) (edge_system e).

Lemma all_targets_ok evidence :
  all_targets h evidence = Ok (sort_unique target_ltb (canon_target <$> evidence)).
Proof.
  unfold all_targets. rewrite (mapR_ok _ canon_target); [done|].
  intros u _. unfold target_of. by rewrite canonical_ok.
Qed.

Lemma fallback_plan_ok evidence reason :
  ∃ targets, all_targets h evidence = Ok targets ∧
    fallback_plan h evidence reason = Ok (Plan targets (length targets) 0 0 0 false reason).
Proof. unfold fallback_plan. rewrite all_targets_ok. eauto. Qed.

(** ** The reverse map *)

(** [u]'s source file [a] directly depends on [b]. *)
Definition direct (edges : list TuDependencyEdge) (a b : bytes) : Prop :=
  ∃ e, e ∈ edges ∧ canon h (edge_source e) = a ∧ canon h (edge_destination e) = b.

Definition succ_of (reverse : adjacency) (x : bytes) : list bytes := default [] (reverse !! x).

Lemma collect_reverse_ok edges r0 :
  ∃ r, collect_reverse h r0 edges = Ok r ∧
    ∀ d s, s ∈ succ_of r d ↔ s ∈ succ_of r0 d ∨ direct edges s d.
Proof.
  revert r0. induction edges as [|e edges IH]; intros r0; simpl.
  { exists r0. split; [done|]. intros d s. split; [by left|]. intros [?|(e & He & _)]; [done|].
    by apply elem_of_nil in He. }
  rewrite !canonical_ok. simpl. edestruct IH as (r & -> & Hr). exists r. split; [done|].
  intros d s. rewrite Hr. unfold succ_of at 1.
  destruct (decide (d = canon h (edge_destination e))) as [->|Hd].
  - rewrite lookup_insert_eq. simpl. unfold succ_of, direct. rewrite elem_of_app, list_elem_of_singleton.
    setoid_rewrite elem_of_cons. naive_solver.
  - rewrite lookup_insert_ne by done. unfold direct. setoid_rewrite elem_of_cons.
    unfold succ_of. naive_solver.
Qed.

Lemma reverse_map_ok edges :
  ∃ r, reverse_map h edges = Ok r ∧ ∀ d s, s ∈ succ_of r d ↔ direct edges s d.
Proof.
  destruct (collect_reverse_ok edges ∅) as (r & E & Hr). unfold reverse_map. rewrite E. simpl.
  eexists. split; [done|]. intros d s.
  specialize (Hr d s). unfold succ_of in *. rewrite lookup_fmap.
  rewrite lookup_empty in Hr. simpl in Hr. rewrite elem_of_nil in Hr.
  destruct (r !! d) as [l|]; simpl in *; [|tauto].
  rewrite elem_of_sort_unique by apply _. tauto.
Qed.
End planner.

(** ** The worklist *)

Section worklist.
Context (reverse : adjacency) (changed : gset bytes).

Abbreviation reach := (rtc (edge (succ_of reverse))).

Record wl_inv (w : worklist) : Prop := {
  wl_nodup : NoDup (pending w);
  wl_visited : visited w = list_to_set (pending w);
  wl_changed : changed ⊆ visited w;
  wl_sound x : x ∈ pending w → ∃ c, c ∈ changed ∧ reach c x;
  wl_closed x y : x ∈ take (index w) (pending w) → edge (succ_of reverse) x y → y ∈ pending w;
  wl_index : index w ≤ length (pending w)
}.

Lemma visit_sources_fresh sources pend :
  visit_sources sources (list_to_set pend) pend =
    (list_to_set (pend ++ fresh (list_to_set pend) sources),
     pend ++ fresh (list_to_set pend) sources).
Proof.
  revert pend. induction sources as [|x sources IH]; intros pend; simpl.
  { by rewrite app_nil_r. }
  case_decide; [apply IH|].
  assert ({[x]} ∪ list_to_set pend = (list_to_set (pend ++ [x]) : gset bytes)) as ->.
  { rewrite list_to_set_app_L. simpl. rewrite union_empty_r_L. apply union_comm_L. }
  rewrite IH. by rewrite <-app_assoc.
Qed.

Lemma wl_initial n e : wl_inv (Worklist (set_list changed) 0 changed n e).
Proof.
  split; simpl.
  - apply NoDup_set_list.
  - apply set_eq. intros x. by rewrite elem_of_list_to_set, elem_of_set_list.
  - done.
  - intros x Hx%elem_of_set_list. eauto using rtc_refl.
  - intros x y Hx. by apply elem_of_nil in Hx.
  - lia.
Qed.

Lemma succ_of_some x l : reverse !! x = Some l → succ_of reverse x = l.
Proof. unfold succ_of. by intros ->. Qed.

Lemma wl_step w w' : wl_inv w → worklist_step reverse w = Some w' →
  wl_inv w' ∧ index w' = S (index w).
Proof.
  intros [Hnd Hv Hc Hs Hcl Hi] Hstep. unfold worklist_step in Hstep.
  destruct (pending w !! index w) as [x|] eqn:Hx; [|done].
  pose proof (take_S_r _ _ _ Hx) as Htake.
  pose proof (lookup_lt_Some _ _ _ Hx) as Hlt.
  destruct (reverse !! x) as [l|] eqn:Hl.
  - rewrite Hv, visit_sources_fresh in Hstep. injection Hstep as <-.
    destruct (fresh_spec (list_to_set (pending w)) l) as [Hfn Hf].
    split; [|done]. split; simpl.
    + apply NoDup_app. split_and!; [done| |done]. intros y Hy [_ Hy']%Hf.
      by rewrite elem_of_list_to_set in Hy'.
    + done.
    + rewrite list_to_set_app_L, <-Hv. set_solver.
    + intros y [Hy|[Hy _]%Hf]%elem_of_app; [by apply Hs|].
      destruct (Hs x) as (c & ? & ?); [by eapply list_elem_of_lookup_2|]. exists c. split; [done|].
      eapply rtc_r; [done|]. unfold edge. by rewrite (succ_of_some _ _ Hl).
    + intros z y Hz Hzy. rewrite take_app_le in Hz by lia. rewrite Htake in Hz.
      apply elem_of_app in Hz as [Hz|Hz%list_elem_of_singleton].
      * apply elem_of_app. left. by eapply Hcl.
      * subst z. unfold edge in Hzy. rewrite (succ_of_some _ _ Hl) in Hzy.
        apply elem_of_app. destruct (decide (y ∈ pending w)); [by left|right].
        apply Hf. by rewrite elem_of_list_to_set.
    + rewrite length_app. lia.
  - injection Hstep as <-. split; [|done]. split; simpl; try done.
    intros z y Hz Hzy. rewrite Htake in Hz.
    apply elem_of_app in Hz as [Hz|Hz%list_elem_of_singleton]; [by eapply Hcl|].
    subst z. unfold edge, succ_of in Hzy. rewrite Hl in Hzy. by apply elem_of_nil in Hzy.
Qed.

(** Every node of the walk is a changed file or a source of the map. *)
Lemma wl_pending_bound w : wl_inv w →
  length (pending w) ≤ size changed + length (mjoin (map_to_list reverse).*2).
Proof.
  intros Hw. set (srcs := mjoin (map_to_list reverse).*2).
  assert (pending w ⊆+ elements changed ++ srcs) as Hsub.
  { apply NoDup_submseteq; [apply Hw|]. intros x Hx. apply elem_of_app.
    destruct (wl_sound _ Hw x Hx) as (c & Hc & Hr).
    apply rtc_inv_r in Hr as [<-|(y & _ & Hyx)]; [left; by apply elem_of_elements|right].
    unfold edge, succ_of in Hyx. destruct (reverse !! y) as [l|] eqn:Hl; simpl in Hyx;
      [|by apply elem_of_nil in Hyx].
    unfold srcs. apply list_elem_of_join. exists l.
    split; [done|]. apply list_elem_of_fmap. exists (y, l). split; [done|]. by apply elem_of_map_to_list. }
  apply submseteq_length in Hsub. by rewrite length_app in Hsub.
Qed.

(** The fuel of the loop is enough, and the visited set is exactly what the
    changed files reach. *)
Lemma worklist_loop_total fuel w : wl_inv w →
  worklist_fuel reverse changed ≤ fuel + index w →
  ∃ w', worklist_loop fuel reverse w = Some w' ∧ wl_inv w' ∧ index w' = length (pending w').
Proof.
  revert w. induction fuel as [|fuel IH]; intros w Hw Hf.
  { pose proof (wl_pending_bound _ Hw). pose proof (wl_index _ Hw). unfold worklist_fuel in Hf. lia. }
  simpl. destruct (worklist_step reverse w) as [w'|] eqn:Hstep.
  - destruct (wl_step _ _ Hw Hstep) as [Hw' Hi]. apply IH; [done|]. lia.
  - exists w. split_and!; [done|done|]. unfold worklist_step in Hstep.
    destruct (pending w !! index w) as [x|] eqn:Hx.
    + destruct (reverse !! x); [|done]. by destruct (visit_sources _ _ _).
    + apply lookup_ge_None in Hx. pose proof (wl_index _ Hw). lia.
Qed.

Lemma worklist_visited w x : wl_inv w → index w = length (pending w) →
  x ∈ visited w ↔ ∃ c, c ∈ changed ∧ reach c x.
Proof.
  intros Hw Hi. rewrite wl_visited, elem_of_list_to_set by done. split; [apply Hw|].
  intros (c & Hc & Hr).
  assert (c ∈ pending w) as Hcp.
  { pose proof (wl_changed _ Hw c Hc) as Hcv.
    by rewrite (wl_visited _ Hw), elem_of_list_to_set in Hcv. }
  clear Hc. induction Hr as [|a b c Hab _ IH]; [done|]. apply IH.
  eapply (wl_closed _ Hw); [|done]. by rewrite Hi, firstn_all.
Qed.
End worklist.

Lemma worklist_run reverse changed n e :
  ∃ w, worklist_loop (worklist_fuel reverse changed) reverse
         (Worklist (set_list changed) 0 changed n e) = Some w ∧
       ∀ x, x ∈ visited w ↔ ∃ c, c ∈ changed ∧ rtc (edge (succ_of reverse)) c x.
Proof.
  destruct (worklist_loop_total reverse changed (worklist_fuel reverse changed)
    (Worklist (set_list changed) 0 changed n e)) as (w & E & Hw & Hi); [apply wl_initial|cbn [index]; lia|].
  exists w. split; [done|]. intros x. by apply worklist_visited.
Qed.

(** ** The plan *)

(** Unit [u] is invalidated by [changed] when its source depends, through its
    edges, on a changed file. *)
Definition invalidated (h : host) (changed : list bytes) (u : TranslationUnitDependencyEvidence) :
    Prop :=
  ∃ d, d ∈ changed ∧ rtc (direct h (unit_edges u)) (canon h (unit_source u)) (canon h d).

(** Evidence the planner works with.  It does not look at
    [destination_content_sha256]; that no evidence of the cache lacks one is what
    [TuFactCache.publish] sees to. *)
Definition usable (u : TranslationUnitDependencyEvidence) : Prop :=
  unit_state u = ev_complete ∧ unit_generation u ≠ [] ∧
  Forall (λ e, edge_resolved e = true) (unit_edges u).

Lemma existsb_unresolved edges :
  existsb (λ e, negb (edge_resolved e)) edges = false ↔ Forall (λ e, edge_resolved e = true) edges.
Proof.
  induction edges as [|e edges IH]; simpl; [by split|].
  rewrite orb_false_iff, IH, Forall_cons, negb_false_iff. done.
Qed.

Lemma fallback_needed_None evidence : fallback_needed evidence = None ↔ Forall usable evidence.
Proof.
  induction evidence as [|u evidence IH]; simpl; [by split|].
  rewrite Forall_cons, <-IH. unfold usable. rewrite <-existsb_unresolved.
  repeat case_decide; destruct (existsb _ _); naive_solver.
Qed.

Lemma fallback_needed_reason evidence reason :
  fallback_needed evidence = Some reason → reason ≠ reason_none.
Proof.
  induction evidence as [|u evidence IH]; simpl; [done|].
  repeat case_decide; [|naive_solver|destruct (existsb _ _); naive_solver].
  intros [= <-]. by destruct (unit_state u).
Qed.

Section plan.
Context (h : host) (cwd : bytes).
Context (Hcwd : host_cwd h = Ok cwd) (Habs : isabs cwd = true).

Lemma direct_rtc edges r a b :
  (∀ d s, s ∈ succ_of r d ↔ direct h edges s d) →
  rtc (edge (succ_of r)) b a ↔ rtc (direct h edges) a b.
Proof.
  intros Hr. split; apply rtc_reverse; intros x y; by apply Hr.
Qed.

Lemma plan_units_ok changed evidence found n e :
  ∃ found' n' e',
    plan_units h (list_to_set (canon h <$> changed)) evidence found n e = Ok (found', n', e') ∧
    ∀ t, t ∈ found' ↔
      t ∈ found ∨ ∃ u, u ∈ evidence ∧ invalidated h changed u ∧ t = canon_target h u.
Proof.
  revert found n e. induction evidence as [|u evidence IH]; intros found n e; cbn [plan_units].
  { exists found, n, e. split; [done|]. intros t. split; [by left|].
    intros [?|(u & Hu & _)]; [done|]. by apply elem_of_nil in Hu. }
  destruct (reverse_map_ok h cwd Hcwd (unit_edges u)) as (r & -> & Hr). cbn [rbind].
  destruct (worklist_run r (list_to_set (canon h <$> changed)) n e) as (w & -> & Hw).
  rewrite (canonical_ok h cwd) by done. cbn [rbind].
  assert (canon h (unit_source u) ∈ visited w ↔ invalidated h changed u) as Hinv.
  { rewrite Hw. unfold invalidated. setoid_rewrite elem_of_list_to_set.
    setoid_rewrite list_elem_of_fmap. split.
    - intros (c & (d & -> & Hd) & Hrt). exists d. split; [done|]. by rewrite <-(direct_rtc _ r).
    - intros (d & Hd & Hrt). exists (canon h d). split; [by eauto|]. by rewrite (direct_rtc (unit_edges u)). }
  edestruct IH as (f' & n' & e' & -> & Hf'). exists f', n', e'. split; [done|].
  intros t. rewrite Hf'. setoid_rewrite elem_of_cons.
  case_decide as Hd; rewrite Hinv in Hd; rewrite ?elem_of_cons; split.
  - intros [[->|?]|(v & ? & ? & ->)]; [|by left|]; right; eauto 6.
  - intros [?|(v & [->|?] & ? & ->)]; [by left; right|by left; left|]. right; eauto.
  - intros [?|(v & ? & ? & ->)]; [by left|]. right; eauto 6.
  - intros [?|(v & [->|?] & ? & ->)]; [by left|done|]. right; eauto.
Qed.

Lemma plan_complete_ok changed evidence :
  evidence ≠ [] → Forall usable evidence →
  ∃ p targets, plan_affected_translation_units h changed evidence = Ok p ∧
    all_targets h evidence = Ok targets ∧
    complete p = true ∧ fallback_reason p = reason_none ∧
    (∀ t, t ∈ affected p ↔ ∃ u, u ∈ evidence ∧ invalidated h changed u ∧ t = canon_target h u) ∧
    StronglySorted (λ a b, target_ltb a b = true) (affected p) ∧
    affected_count p = length (affected p) ∧
    affected_count p + proven_unaffected_count p = length targets.
Proof.
  intros Hne Hus. unfold plan_affected_translation_units.
  destruct evidence as [|u0 ev] eqn:Hev; [done|]. rewrite <-Hev in *. clear Hne.
  apply fallback_needed_None in Hus as ->.
  rewrite (mapR_ok _ (canon h)) by (intros; by apply (canonical_ok h cwd)). simpl.
  destruct (plan_units_ok changed evidence [] 0 0) as (f & n & e & -> & Hf). simpl.
  pose proof (all_targets_ok h cwd Hcwd evidence) as ->. simpl.
  assert (∀ t, t ∈ sort_unique target_ltb f ↔
    ∃ u, u ∈ evidence ∧ invalidated h changed u ∧ t = canon_target h u) as Ht.
  { intros t. rewrite elem_of_sort_unique, Hf by apply _. rewrite elem_of_nil. naive_solver. }
  eexists _, _. split; [done|]. split; [done|]. simpl. split_and!; try done.
  { apply sort_unique_strict, _. }
  enough (length (sort_unique target_ltb f) ≤
    length (sort_unique target_ltb (canon_target h <$> evidence))) by lia.
  apply submseteq_length, NoDup_submseteq; [apply NoDup_sort_unique, _|].
  intros t. rewrite Ht, elem_of_sort_unique by apply _. intros (u & ? & _ & ->).
  by apply list_elem_of_fmap_2.
Qed.

Lemma plan_fallback_ok changed evidence :
  ¬ (evidence ≠ [] ∧ Forall usable evidence) →
  ∃ p targets, plan_affected_translation_units h changed evidence = Ok p ∧
    all_targets h evidence = Ok targets ∧
    complete p = false ∧ fallback_reason p ≠ reason_none ∧
    affected p = targets ∧ affected_count p = length targets ∧ proven_unaffected_count p = 0.
Proof.
  intros Hbad.
  assert (∃ reason, reason ≠ reason_none ∧
    plan_affected_translation_units h changed evidence = fallback_plan h evidence reason) as (r & Hr & ->).
  { unfold plan_affected_translation_units. destruct evidence as [|u ev] eqn:Hev.
    { by exists reason_unavailable_evidence. }
    rewrite <-Hev in *. destruct (fallback_needed evidence) as [r|] eqn:Hr.
    - exists r. split; [by eapply fallback_needed_reason|done].
    - destruct Hbad. split; [by subst|]. by apply fallback_needed_None. }
  destruct (fallback_plan_ok h cwd Hcwd evidence r) as (ts & Hts & ->).
  eexists _, ts. split; [done|]. by rewrite Hts.
Qed.

Lemma usable_dec_cases evidence :
  (evidence ≠ [] ∧ Forall usable evidence) ∨ ¬ (evidence ≠ [] ∧ Forall usable evidence).
Proof.
  rewrite <-fallback_needed_None. destruct evidence; [right; tauto|].
  destruct (fallback_needed _); [right; naive_solver|by left].
Qed.

(** ** Properties *)

(** Over usable evidence the plan is exact: a unit is marked affected
    precisely when its source depends, through the chain of its own recorded
    edges, on a changed file; the list is sorted without duplicates, and the
    affected and proven-unaffected counts (a subtraction on [size_t]) add up to
    the number of distinct units. *)
Theorem plan_affected_exact changed evidence :
  evidence ≠ [] → Forall usable evidence →
  ∃ p targets, plan_affected_translation_units h changed evidence = Ok p ∧
    all_targets h evidence = Ok targets ∧
    complete p = true ∧ fallback_reason p = reason_none ∧
    (∀ t, t ∈ affected p ↔ ∃ u, u ∈ evidence ∧ invalidated h changed u ∧ t = canon_target h u) ∧
    StronglySorted (λ a b, target_ltb a b = true) (affected p) ∧
    affected_count p = length (affected p) ∧
    affected_count p + proven_unaffected_count p = length targets.
Proof. apply plan_complete_ok. Qed.

(** No stale unit is ever kept.  Whatever the evidence, the plan is made,
    and every unit that depends on a changed file is in its affected list; when
    the evidence is empty or one unit's evidence is not usable the plan names a
    reason, is marked incomplete, lists every unit and proves none
    unaffected. *)
Theorem plan_never_misses changed evidence :
  ∃ p, plan_affected_translation_units h changed evidence = Ok p ∧
    (∀ u, u ∈ evidence → invalidated h changed u → canon_target h u ∈ affected p) ∧
    (∀ t, t ∈ affected p → ∃ u, u ∈ evidence ∧ t = canon_target h u) ∧
    (complete p = true ↔ evidence ≠ [] ∧ Forall usable evidence) ∧
    (complete p = false → fallback_reason p ≠ reason_none ∧ proven_unaffected_count p = 0 ∧
       ∀ u, u ∈ evidence → canon_target h u ∈ affected p).
Proof.
  destruct (usable_dec_cases evidence) as [[Hne Hus]|Hbad].
  - destruct (plan_complete_ok changed evidence Hne Hus) as (p & ts & Hp & _ & Hc & _ & Ha & _).
    exists p. split_and!; [done| | |done|by rewrite Hc].
    + intros u Hu Hi. apply Ha. eauto.
    + intros t Ht. apply Ha in Ht. naive_solver.
  - destruct (plan_fallback_ok changed evidence Hbad) as (p & ts & Hp & Hts & Hc & Hr & Ha & _ & H0).
    rewrite (all_targets_ok h cwd) in Hts by done. injection Hts as Hts. subst ts.
    assert (∀ t, t ∈ affected p ↔ ∃ u, t = canon_target h u ∧ u ∈ evidence) as Hall.
    { intros t. rewrite Ha, elem_of_sort_unique, list_elem_of_fmap by apply _. done. }
    exists p. split_and!; [done| | |by rewrite Hc|].
    + intros u Hu _. apply Hall. eauto.
    + intros t Ht. apply Hall in Ht. naive_solver.
    + intros _. split_and!; [done|done|]. intros u Hu. apply Hall. eauto.
Qed.

(** ** Captured evidence *)

Lemma direct_canon edges a b :
  direct h (canon_edge h <$> edges) a b ↔ direct h edges a b.
Proof.
  unfold direct. setoid_rewrite list_elem_of_fmap. split.
  - intros (e & (e' & -> & He) & <- & <-). simpl. rewrite !(canon_idem h cwd) by done. eauto.
  - intros (e & He & <- & <-). exists (canon_edge h e). split; [by eauto|].
    simpl. by rewrite !(canon_idem h cwd).
Qed.

Lemma capture_ok source configuration generation edges cpl :
  capture_translation_unit_dependency_evidence h source configuration generation edges cpl =
  Ok (Evidence (canon h source) configuration generation
    (if cpl && forallb edge_resolved (sort_unique edge_ltb (canon_edge h <$> edges))
     then ev_complete else ev_incomplete)
    (sort_unique edge_ltb (canon_edge h <$> edges))).
Proof.
  unfold capture_translation_unit_dependency_evidence.
  rewrite (canonical_ok h cwd) by done. cbn [rbind].
  rewrite (mapR_ok _ (canon_edge h)); [done|].
  intros e _. unfold canonical_edge. by rewrite !(canonical_ok h cwd).
Qed.

(** Capturing evidence loses no dependency.  The captured edges are
    canonical, sorted and distinct, the evidence is complete exactly when the
    caller said so and every edge was resolved, and for every set of changed
    files the captured unit is invalidated exactly when the raw one is. *)
Theorem capture_preserves_dependencies source configuration generation edges cpl state :
  ∃ u, capture_translation_unit_dependency_evidence h source configuration generation edges cpl = Ok u ∧
    StronglySorted (λ a b, edge_ltb a b = true) (unit_edges u) ∧
    (unit_state u = ev_complete ↔ cpl = true ∧ Forall (λ e, edge_resolved e = true) edges) ∧
    canon_target h u = canon_target h (Evidence source configuration generation state edges) ∧
    ∀ changed, invalidated h changed u ↔
      invalidated h changed (Evidence source configuration generation state edges).
Proof.
  rewrite capture_ok. eexists. split; [done|]. simpl.
  assert (∀ e, e ∈ sort_unique edge_ltb (canon_edge h <$> edges) ↔ e ∈ canon_edge h <$> edges)
    as Hin by (intros e; by rewrite elem_of_sort_unique by apply _).
  split_and!.
  - apply sort_unique_strict, _.
  - assert (forallb edge_resolved (sort_unique edge_ltb (canon_edge h <$> edges)) = true ↔
      Forall (λ e, edge_resolved e = true) edges) as <-.
    { rewrite forallb_forall, Forall_forall. setoid_rewrite <-list_elem_of_In.
      setoid_rewrite Hin. setoid_rewrite list_elem_of_fmap. split.
      - intros H e He. apply (H (canon_edge h e)). eauto.
      - intros H e (e' & -> & He'). by apply H in He'. }
    rewrite <-andb_true_iff. by destruct (_ && _).
  - unfold canon_target. simpl. by rewrite (canon_idem h cwd).
  - intros changed. unfold invalidated. simpl. rewrite (canon_idem h cwd) by done.
    assert (∀ a b, direct h (sort_unique edge_ltb (canon_edge h <$> edges)) a b ↔ direct h edges a b)
      as Hd.
    { intros a b. rewrite <-(direct_canon edges). unfold direct.
      split; intros (e & He & Hab); exists e; (split; [by apply Hin|done]). }
    split; intros (d & Hd' & Hr); exists d; (split; [done|]);
      (eapply rtc_subrel; [|exact Hr]); intros x y; apply Hd.
Qed.
End plan.

(** ** Witnesses *)

Definition sample_unit (gen : bytes) : TranslationUnitDependencyEvidence :=
  Evidence (bs "a.cpp") (bs "cfg") gen ev_complete
    [DependencyEdge (bs "a.cpp") (bs "b.h") (bs "s1") [] [] kind_include true false;
     DependencyEdge (bs "/w/x/../b.h") (bs "c.h") (bs "s2") [] [] kind_include true false].

Definition sample_evidence : list TranslationUnitDependencyEvidence :=
  [sample_unit (bs "g1"); Evidence (bs "d.cpp") (bs "cfg") (bs "g") ev_complete []].

Lemma sample_usable : Forall usable sample_evidence.
Proof. unfold sample_evidence. repeat constructor; done. Qed.

Lemma plan_affected_exact_witness :
  plan_affected_translation_units sample_host [bs "./c.h"]
    sample_evidence =
  Ok (Plan [Affected (bs "/w/a.cpp") (bs "cfg")] 1 1 4 2 true reason_none) ∧
  ∃ p targets, plan_affected_translation_units sample_host [bs "./c.h"]
      sample_evidence = Ok p ∧
    all_targets sample_host
      sample_evidence = Ok targets ∧
    affected_count p + proven_unaffected_count p = length targets.
Proof.
  split; [vm_compute; reflexivity|].
  destruct (plan_affected_exact sample_host (bs "/w") eq_refl [bs "./c.h"] sample_evidence
    ltac:(discriminate) sample_usable) as (p & ts & ? & ? & _ & _ & _ & _ & _ & ?). eauto.
Defined.

Lemma plan_never_misses_witness :
  ∃ p, plan_affected_translation_units sample_host [bs "c.h"]
      [Evidence (bs "d.cpp") (bs "cfg") (bs "g") ev_complete []; sample_unit []] = Ok p ∧
    complete p = false ∧ proven_unaffected_count p = 0.
Proof.
  destruct (plan_never_misses sample_host (bs "/w") eq_refl [bs "c.h"]
    [Evidence (bs "d.cpp") (bs "cfg") (bs "g") ev_complete []; sample_unit []])
    as (p & Hp & _ & _ & _ & Hf).
  exists p. split; [done|]. vm_compute in Hp. injection Hp as <-.
  split; [done|]. by apply Hf.
Defined.

Lemma capture_preserves_dependencies_witness :
  ∃ u, capture_translation_unit_dependency_evidence sample_host (bs "a.cpp") (bs "c") (bs "g")
      (unit_edges (sample_unit [])) true = Ok u ∧ unit_state u = ev_complete.
Proof.
  destruct (capture_preserves_dependencies sample_host (bs "/w") eq_refl eq_refl (bs "a.cpp") (bs "c")
    (bs "g") (unit_edges (sample_unit [])) true ev_complete) as (u & Hu & _ & Hs & _).
  exists u. split; [done|]. apply Hs. split; [done|]. repeat constructor.
Defined.
