(* ===== verification/IncludeGraph.v ===== *)
(** * The include graph: [src/src/include_hygiene/graph.cpp]

    The adjacency maps built from the recorded include edges, and the read-only
    queries over them: bounded reachability, shortest include chain, hotspots.
    Rows of the database are arguments of [load].  [int] depths and [int64]
    counts are unbounded here: a depth is at most the number of nodes. *)

From S2P Require Export Bytes Reach.

(** ** Data *)

(** The columns of [IncludeEdge] ([src/src/storage/records.hpp]) that [load]
    reads. *)
Record IncludeEdge := IncludeEdgeRow {
  edge_id : Z;
  src_file_id : Z;
  row_dst_file_id : option Z;
  row_dst_path : bytes;
  config_id : Z;
  row_is_system : bool;
  row_is_generated : bool;
  row_count : Z
}.

Record GraphEdge := MkGraphEdge {
  src_path : bytes;
  dst_path : bytes;
  dst_file_id : option Z;
  is_system : bool;
  count : Z;
  configs : list bytes
}.

Abbreviation adjacency := (gmap bytes (list GraphEdge)).

Record IncludeGraph := MkIncludeGraph { out_ : adjacency; in_ : adjacency }.

(** ** Loading *)

(** [for (d : e.configs) if (find(x.configs, d) == end) x.configs.push_back(d)]. *)
Fixpoint merge_configs (xs ds : list bytes) : list bytes :=
  match ds with
  | [] => xs
  | d :: ds => merge_configs (if decide (d ∈ xs) then xs else xs ++ [d]) ds
  end.

(** The update of an edge [x] already listed for the pair. *)
Definition merge_edge (x e : GraphEdge) : GraphEdge :=
  MkGraphEdge (src_path x) (dst_path x)
    (match dst_file_id x with Some id => Some id | None => dst_file_id e end)
    (is_system x) (count x + count e)%Z
    (sort bytes_ltb (merge_configs (configs x) (configs e))).

Fixpoint merge_into (l : list GraphEdge) (e : GraphEdge) : list GraphEdge :=
  match l with
  | [] => [e]
  | x :: l =>
      if decide (dst_path x = dst_path e ∧ src_path x = src_path e)
      then merge_edge x e :: l else x :: merge_into l e
  end.

Definition far_end (by_dst : bool) (e : GraphEdge) : bytes :=
  if by_dst then dst_path e else src_path e.

(** The relation [std::ranges::sort] orders the list by. *)
Definition far_le (by_dst : bool) (a b : GraphEdge) : Prop :=
  ltb_le bytes_ltb (far_end by_dst a) (far_end by_dst b).

#[export] Instance far_le_dec by_dst : RelDecision (far_le by_dst).
Proof. intros a b. unfold far_le. apply _. Defined.

Definition sort_by_far_end (l : list GraphEdge) (by_dst : bool) : list GraphEdge :=
  merge_sort (far_le by_dst) l.

(** [map.emplace(key, value)]: the first value stays. *)
Definition emplace {K V} `{Countable K} (m : gmap K V) (k : K) (v : V) : gmap K V :=
  match m !! k with Some _ => m | None => <[k := v]> m end.

Record loading := Loading {
  ld_out : adjacency;
  ld_in : adjacency;
  ld_digests : gmap Z bytes
}.

Definition row_edge (src digest : bytes) (e : IncludeEdge) : GraphEdge :=
  MkGraphEdge src (row_dst_path e) (row_dst_file_id e) (row_is_system e) (row_count e) [digest].

(** [merge_into(g.out_[key], ge)]. *)
Definition merge_at (m : adjacency) (key : bytes) (ge : GraphEdge) : adjacency :=
  <[key := merge_into (default [] (m !! key)) ge]> m.

Definition load_row (paths : gmap Z bytes) (config_by_id : Z → option bytes) (st : loading)
    (e : IncludeEdge) : loading :=
  match paths !! src_file_id e with
  | None => st
  | Some src =>
      let '(digests, digest) :=
        match ld_digests st !! config_id e with
        | Some d => (ld_digests st, d)
        | None =>
            let d := default [] (config_by_id (config_id e)) in
            (<[config_id e := d]> (ld_digests st), d)
        end in
      let ge := row_edge src digest e in
      Loading (merge_at (ld_out st) src ge) (merge_at (ld_in st) (row_dst_path e) ge) digests
  end.

(** [files] are the rows of [db.list_files()], [edges] those of
    [db.all_include_edges(include_system)], [config_by_id] the digest of
    [db.include_config_by_id]. *)
Definition load (files : list (Z * bytes)) (edges : list IncludeEdge)
    (config_by_id : Z → option bytes) : IncludeGraph :=
  let paths := foldl (λ m row, emplace m row.1 row.2) ∅ files in
  let st := foldl (load_row paths config_by_id) (Loading ∅ ∅ ∅) edges in
  MkIncludeGraph ((λ l, sort_by_far_end l true) <$> ld_out st)
    ((λ l, sort_by_far_end l false) <$> ld_in st).

(** ** Queries *)

Definition direct_from (g : IncludeGraph) (path : bytes) : list GraphEdge :=
  default [] (out_ g !! path).
Definition direct_to (g : IncludeGraph) (path : bytes) : list GraphEdge :=
  default [] (in_ g !! path).

(** The loop over the edges of one node in [reachable]. *)
Fixpoint reach_edges (follow_dst : bool) (depth : nat) (edges : list GraphEdge)
    (seen : gset bytes) (queue : list (bytes * nat)) (out : gset bytes) :
    gset bytes * list (bytes * nat) * gset bytes :=
  match edges with
  | [] => (seen, queue, out)
  | e :: edges =>
      let next := far_end follow_dst e in
      if decide (next ∈ seen) then reach_edges follow_dst depth edges seen queue out
      else reach_edges follow_dst depth edges ({[next]} ∪ seen) (queue ++ [(next, S depth)])
             ({[next]} ∪ out)
  end.

Definition depth_cut (max_depth : Z) (depth : nat) : bool :=
  (0 <? max_depth)%Z && (max_depth <=? Z.of_nat depth)%Z.

Fixpoint reach_loop (fuel : nat) (adj : adjacency) (max_depth : Z) (follow_dst : bool)
    (seen : gset bytes) (queue : list (bytes * nat)) (out : gset bytes) : option (gset bytes) :=
  match queue, fuel with
  | [], _ => Some out
  | _ :: _, O => None
  | (path, depth) :: queue, S fuel =>
      if depth_cut max_depth depth then reach_loop fuel adj max_depth follow_dst seen queue out
      else
        match adj !! path with
        | None => reach_loop fuel adj max_depth follow_dst seen queue out
        | Some edges =>
            let '(seen, queue, out) := reach_edges follow_dst depth edges seen queue out in
            reach_loop fuel adj max_depth follow_dst seen queue out
        end
  end.

(** One pop per node: the start and the far ends of the edges. *)
Definition search_fuel (adj : adjacency) : nat := S (length (mjoin (map_to_list adj).*2)).

Definition reachable (adj : adjacency) (start : bytes) (max_depth : Z) (follow_dst : bool) :
    option (list bytes) :=
  set_list <$>
    reach_loop (search_fuel adj) adj max_depth follow_dst {[start]} [(start, 0)] ∅.

Definition transitive_from (g : IncludeGraph) (path : bytes) (max_depth : Z) : option (list bytes) :=
  reachable (out_ g) path max_depth true.
Definition transitive_to (g : IncludeGraph) (path : bytes) (max_depth : Z) : option (list bytes) :=
  reachable (in_ g) path max_depth false.

Definition nodes (g : IncludeGraph) : list bytes := set_list (dom (out_ g) ∪ dom (in_ g)).
Definition has_node (g : IncludeGraph) (path : bytes) : bool :=
  bool_decide (is_Some (out_ g !! path)) || bool_decide (is_Some (in_ g !! path)).

(** *** Shortest path *)

Record path_search := PathSearch {
  ps_parent : gmap bytes bytes;
  ps_seen : gset bytes;
  ps_queue : list bytes;
  ps_found : bool
}.

(** The loop over the adjacency of [cur]; it breaks when [to] is found. *)
Fixpoint path_edges (to cur : bytes) (edges : list GraphEdge) (st : path_search) : path_search :=
  match edges with
  | [] => st
  | e :: edges =>
      if decide (dst_path e ∈ ps_seen st) then path_edges to cur edges st
      else
        let parent := <[dst_path e := cur]> (ps_parent st) in
        let seen := {[dst_path e]} ∪ ps_seen st in
        if decide (dst_path e = to) then PathSearch parent seen (ps_queue st) true
        else path_edges to cur edges (PathSearch parent seen (ps_queue st ++ [dst_path e]) false)
  end.

Fixpoint path_loop (fuel : nat) (out : adjacency) (to : bytes) (st : path_search) :
    option path_search :=
  if ps_found st then Some st
  else
    match ps_queue st, fuel with
    | [], _ => Some st
    | _ :: _, O => None
    | cur :: queue, S fuel =>
        let st := PathSearch (ps_parent st) (ps_seen st) queue false in
        match out !! cur with
        | None => path_loop fuel out to st
        | Some edges => path_loop fuel out to (path_edges to cur edges st)
        end
    end.

(** [for (cur = to; cur != from;) { cur = parent[cur]; chain.push_back(cur); }]. *)
Fixpoint chain_loop (fuel : nat) (parent : gmap bytes bytes) (from cur : bytes)
    (chain : list bytes) : option (list bytes) :=
  if decide (cur = from) then Some chain
  else
    match fuel with
    | O => None
    | S fuel =>
        let cur := default [] (parent !! cur) in
        chain_loop fuel parent from cur (chain ++ [cur])
    end.

Definition shortest_path (g : IncludeGraph) (from to : bytes) : option (list bytes) :=
  if decide (from = to) then Some (if has_node g from then [from] else [])
  else
    match path_loop (search_fuel (out_ g)) (out_ g) to (PathSearch ∅ {[from]} [from] false) with
    | None => None
    | Some st =>
        if ps_found st
        then reverse <$> chain_loop (size (ps_parent st)) (ps_parent st) from to [to]
        else Some []
    end.

(** *** Hotspots *)

Record Hotspot := MkHotspot { hot_path : bytes; fan_in : nat; fan_out : nat }.

Definition hotspots (g : IncludeGraph) : list Hotspot :=
  (λ p, MkHotspot p (length (direct_to g p)) (length (direct_from g p))) <$> nodes g.

(** ** Reachability *)

(** The nodes a search continues with from [x]. *)
Definition succ_of (adj : adjacency) (follow_dst : bool) (x : bytes) : list bytes :=
  far_end follow_dst <$> default [] (adj !! x).

Lemma reach_edges_fresh f d edges seen queue out :
  reach_edges f d edges seen queue out =
  let new := fresh seen (far_end f <$> edges) in
  (list_to_set new ∪ seen, queue ++ ((λ y, (y, S d)) <$> new), list_to_set new ∪ out).
Proof.
  revert seen queue out. induction edges as [|e edges IH]; intros seen queue out; simpl.
  { by rewrite app_nil_r, !union_empty_l_L. }
  case_decide; [apply IH|]. rewrite IH. simpl. rewrite <-app_assoc. simpl.
  f_equal; [f_equal|]; set_solver.
Qed.

Section search.
Context (adj : adjacency) (f : bool) (start : bytes) (max_depth : Z).

Abbreviation succ := (succ_of adj f).
Abbreviation inv := (bfs_inv succ [start] (depth_cut max_depth)).

Lemma search_targets x y : edge succ x y → y ∈ far_end f <$> mjoin (map_to_list adj).*2.
Proof.
  unfold edge, succ_of. intros (e & -> & He)%list_elem_of_fmap. apply list_elem_of_fmap_2.
  destruct (adj !! x) as [l|] eqn:Hl; [|by apply elem_of_nil in He].
  apply list_elem_of_join. exists l. split; [done|]. apply list_elem_of_fmap.
  exists (x, l). split; [done|]. by apply elem_of_map_to_list.
Qed.

Lemma search_fuel_enough cut done queue :
  bfs_inv succ [start] cut done queue → length done + length queue ≤ search_fuel adj.
Proof.
  intros Hinv. pose proof (bfs_length _ _ _ _ _ _ Hinv search_targets) as Hl.
  rewrite length_fmap in Hl. exact Hl.
Qed.

Lemma reach_loop_total fuel done queue seen out :
  inv done queue → search_fuel adj ≤ fuel + length done →
  seen = list_to_set (done ++ queue).*1 → out = seen ∖ {[start]} →
  ∃ out' done', reach_loop fuel adj max_depth f seen queue out = Some out' ∧ inv done' [] ∧
    out' = list_to_set done'.*1 ∖ {[start]}.
Proof.
  revert done queue seen out. induction fuel as [|fuel IH]; intros done queue seen out Hinv Hf -> ->.
  { pose proof (search_fuel_enough _ _ _ Hinv). destruct queue; [|simpl in *; lia].
    eexists _, done. split; [done|]. by rewrite app_nil_r. }
  destruct queue as [|[x d] queue]; simpl.
  { eexists _, done. split; [done|]. by rewrite app_nil_r. }
  assert (search_fuel adj ≤ fuel + length (done ++ [(x, d)])) as Hf'
    by (rewrite length_app; simpl; lia).
  assert ((done ++ (x, d) :: queue).*1 = ((done ++ [(x, d)]) ++ queue).*1) as Hset
    by by rewrite <-app_assoc.
  destruct (depth_cut max_depth d) eqn:Hcut.
  { apply (IH (done ++ [(x, d)])); [|done|by rewrite Hset|done].
    eapply bfs_skip; [done|by left]. }
  destruct (adj !! x) as [edges|] eqn:Hx.
  - rewrite reach_edges_fresh. simpl.
    assert (fresh (list_to_set (done ++ (x, d) :: queue).*1) (far_end f <$> edges) =
      fresh (list_to_set (done ++ (x, d) :: queue).*1) (succ x)) as -> by (unfold succ_of; by rewrite Hx).
    set (new := fresh _ _).
    destruct (fresh_spec (list_to_set (done ++ (x, d) :: queue).*1) (succ x)) as [Hn Hnew].
    fold new in Hn, Hnew. setoid_rewrite elem_of_list_to_set in Hnew.
    apply (IH (done ++ [(x, d)])); [by eapply bfs_expand|done| |].
    + rewrite Hset, (app_assoc (done ++ _)), (fmap_app _ (_ ++ queue)), (list_to_set_app_L (_.*1)),
        <-(list_fmap_compose _ fst new). simpl. rewrite list_fmap_id. apply union_comm_L.
    + assert (start ∉ new) as Hs.
      { rewrite Hnew. intros [_ []]. apply list_elem_of_fmap. exists (start, 0). split; [done|].
        apply Hinv. by left. }
      rewrite difference_union_distr_l_L. f_equal. symmetry. apply difference_disjoint_L.
      intros x' Hx' ->%elem_of_singleton. by apply elem_of_list_to_set in Hx'.
  - apply (IH (done ++ [(x, d)])); [|done|by rewrite Hset|done].
    eapply bfs_skip; [done|]. right. intros y. unfold edge, succ_of. rewrite Hx. apply not_elem_of_nil.
Qed.

Lemma depth_cut_bound n :
  (∀ k, k < n → depth_cut max_depth k = false) ↔ (max_depth ≤ 0 ∨ Z.of_nat n ≤ max_depth)%Z.
Proof.
  unfold depth_cut. split.
  - intros Hk. destruct (decide (max_depth ≤ 0)%Z); [by left|right].
    destruct (decide (Z.of_nat n ≤ max_depth)%Z); [done|].
    specialize (Hk (Z.to_nat max_depth)). destruct (Z.ltb_spec 0 max_depth), (Z.leb_spec max_depth (Z.of_nat (Z.to_nat max_depth))); lia.
  - intros H k Hk. destruct (Z.ltb_spec 0 max_depth), (Z.leb_spec max_depth (Z.of_nat k)); simpl; lia.
Qed.

(** The search ends and returns the nodes other than [start] that a walk of
    allowed length reaches. *)
Lemma reachable_spec :
  ∃ l, reachable adj start max_depth f = Some l ∧ StronglySorted bytes_lt l ∧
    ∀ x, x ∈ l ↔ x ≠ start ∧ ∃ n, steps succ n start x ∧
      (max_depth ≤ 0 ∨ Z.of_nat n ≤ max_depth)%Z.
Proof.
  destruct (reach_loop_total (search_fuel adj) [] [(start, 0)] {[start]} ∅)
    as (out & done & E & Hinv & ->).
  - apply (bfs_initial _ [start]). apply NoDup_singleton.
  - cbn [length]. lia.
  - simpl. by rewrite union_empty_r_L.
  - by rewrite difference_diag_L.
  - unfold reachable. rewrite E. simpl. eexists. split; [done|]. split; [apply set_list_strict|].
    intros x. rewrite elem_of_set_list, elem_of_difference, elem_of_list_to_set, elem_of_singleton.
    rewrite (bfs_done _ _ _ _ _ Hinv). setoid_rewrite list_elem_of_singleton.
    setoid_rewrite depth_cut_bound. split.
    + intros [(s & n & -> & ? & ?) ?]. eauto.
    + intros [? (n & ? & ?)]. eauto 6.
Qed.
End search.

(** ** Shortest path *)

Lemma path_edges_spec to cur edges st :
  ps_found st = false →
  let new := fresh (ps_seen st) (dst_path <$> edges) in
  let st' := path_edges to cur edges st in
  to ∉ new ∧ ps_found st' = false ∧ ps_seen st' = list_to_set new ∪ ps_seen st ∧
    ps_queue st' = ps_queue st ++ new ∧
    (∀ y, ps_parent st' !! y = if decide (y ∈ new) then Some cur else ps_parent st !! y) ∨
  to ∈ new ∧ ps_found st' = true ∧ ps_parent st' !! to = Some cur ∧
    (∀ y, y ∈ ps_seen st → ps_parent st' !! y = ps_parent st !! y).
Proof.
  revert st. induction edges as [|e edges IH]; intros st Hst; simpl.
  { left. rewrite union_empty_l_L, app_nil_r. split_and!; try done.
    apply not_elem_of_nil. }
  case_decide as Hseen; [by apply IH|].
  case_decide as Hto.
  { right. simpl. rewrite Hto. split_and!; [by left|done|apply lookup_insert_eq|].
    intros y Hy. rewrite lookup_insert_ne; [done|]. congruence. }
  edestruct (IH (PathSearch (<[dst_path e:=cur]> (ps_parent st)) ({[dst_path e]} ∪ ps_seen st)
    (ps_queue st ++ [dst_path e]) false)) as [(Hn & Hf & Hs & Hq & Hp)|(Hn & Hf & Hp & Hu)];
    [done|left|right]; simpl in *.
  - split_and!; [by rewrite elem_of_cons; intros [?|?]|done| | |].
    + rewrite Hs. by rewrite (assoc_L (∪)), (comm_L (∪) (list_to_set _)).
    + by rewrite Hq, <-app_assoc.
    + intros y. rewrite Hp. destruct (decide (y = dst_path e)) as [->|Hy].
      * rewrite lookup_insert_eq, (decide_True (P:=_ ∈ _ :: _)) by by left. by case_decide.
      * rewrite lookup_insert_ne by done. apply decide_ext. rewrite elem_of_cons. tauto.
  - split_and!; [by right|done|done|]. intros y Hy. rewrite Hu by by apply elem_of_union; right.
    rewrite lookup_insert_ne; [done|]. congruence.
Qed.

Section path.
Context (out : adjacency) (from to : bytes).

Abbreviation succ := (succ_of out true).
Abbreviation inv := (bfs_inv succ [from] (λ _, false)).

(** Every recorded node but [from] has its predecessor one level up. *)
Definition par_ok (parent : gmap bytes bytes) (items : list (bytes * nat)) : Prop :=
  ∀ x d, (x, d) ∈ items → x = from ∧ d = 0 ∨
    ∃ p d', parent !! x = Some p ∧ d = S d' ∧ (p, d') ∈ items ∧ edge succ p x.

Lemma items_fun (items : list (bytes * nat)) x d d' :
  NoDup items.*1 → (x, d) ∈ items → (x, d') ∈ items → d = d'.
Proof.
  intros Hnd [i Hi]%list_elem_of_lookup [j Hj]%list_elem_of_lookup.
  assert (i = j) as ->; [|congruence].
  eapply NoDup_lookup; [exact Hnd| |]; by rewrite list_lookup_fmap, ?Hi, ?Hj.
Qed.

(** What the search leaves when it found [to] at depth [d]. *)
Record found_at (parent : gmap bytes bytes) (items : list (bytes * nat)) (d : nat) : Prop := {
  fa_nodup : NoDup items.*1;
  fa_par : par_ok parent items;
  fa_from : (from, 0) ∈ items;
  fa_to : (to, d) ∈ items
}.

Lemma depth_le_parents parent items d0 x d :
  found_at parent items d0 → (x, d) ∈ items → d ≤ size parent.
Proof.
  intros [Hnd Hpar Hfrom _] Hx.
  enough (∃ l, length l = d ∧ NoDup l ∧
    ∀ y, y ∈ l → is_Some (parent !! y) ∧ ∃ d', (y, d') ∈ items ∧ d' ≤ d) as (l & <- & Hl & Hd).
  { rewrite <-size_dom, <-(size_list_to_set (C:=gset bytes) l Hl). apply subseteq_size.
    intros y. rewrite elem_of_list_to_set, elem_of_dom. intros Hy. by apply Hd. }
  revert x Hx. induction d as [|d IH]; intros x Hx; [exists []; split_and!; [done|constructor|]|].
  { intros y Hy. by apply elem_of_nil in Hy. }
  destruct (Hpar _ _ Hx) as [[_ ?]|(p & d' & Hp & [= <-] & Hpi & _)]; [done|].
  destruct (IH _ Hpi) as (l & <- & Hl & Hd). exists (x :: l). split_and!; [done| |].
  - constructor; [|done]. intros Hxl. destruct (Hd _ Hxl) as (_ & d' & Hd' & ?).
    assert (d' = S (length l)) by (by eapply items_fun). lia.
  - intros y [->|Hy]%elem_of_cons; [eauto|]. destruct (Hd _ Hy) as (? & d' & ? & ?). eauto.
Qed.

Lemma chain_loop_spec parent items d0 d x fuel c :
  found_at parent items d0 → (x, d) ∈ items → d ≤ fuel → chain (edge succ) x (reverse c) to →
  ∃ c', chain_loop fuel parent from x c = Some c' ∧ chain (edge succ) from (reverse c') to ∧
    length c' = length c + d.
Proof.
  intros [Hnd Hpar Hfrom _]. revert x fuel c. induction d as [|d IH]; intros x fuel c Hx Hf Hc.
  - destruct (Hpar _ _ Hx) as [[-> _]|(? & ? & _ & ? & _)]; [|done]. exists c.
    split_and!; [|done|lia]. destruct fuel; simpl; by rewrite decide_True.
  - destruct (Hpar _ _ Hx) as [[_ ?]|(p & d' & Hp & [= <-] & Hpi & He)]; [done|].
    destruct fuel as [|fuel]; [lia|]. simpl. rewrite decide_False.
    2:{ intros ->. pose proof (items_fun _ _ _ _ Hnd Hx Hfrom). lia. }
    rewrite Hp. simpl. destruct (IH p fuel (c ++ [p])) as (c' & ? & ? & Hl); [done|lia| |].
    + rewrite reverse_snoc. by econstructor.
    + exists c'. split_and!; [done|done|]. rewrite Hl, length_app. simpl. lia.
Qed.

Definition path_state (st : path_search) (done queue : list (bytes * nat)) : Prop :=
  ps_found st = false ∧ ps_queue st = queue.*1 ∧ ps_seen st = list_to_set (done ++ queue).*1 ∧
  par_ok (ps_parent st) (done ++ queue) ∧ to ∉ (done ++ queue).*1.

Lemma path_expand st x d done queue edges :
  path_state st done ((x, d) :: queue) → inv done ((x, d) :: queue) → out !! x = Some edges →
  let st' := path_edges to x edges (PathSearch (ps_parent st) (ps_seen st) queue.*1 false) in
  (∃ queue', path_state st' (done ++ [(x, d)]) queue' ∧ inv (done ++ [(x, d)]) queue') ∨
  ps_found st' = true ∧
    found_at (ps_parent st') ((done ++ (x, d) :: queue) ++ [(to, S d)]) (S d).
Proof.
  intros (Hf & Hq & Hseen & Hpar & Hto) Hinv Hx st'.
  assert (dst_path <$> edges = succ x) as Hsucc by (unfold succ_of; by rewrite Hx).
  pose proof (path_edges_spec to x edges (PathSearch (ps_parent st) (ps_seen st) queue.*1 false) eq_refl)
    as Hspec. cbn zeta in Hspec. fold st' in Hspec. cbn [ps_seen ps_queue ps_parent] in Hspec.
  rewrite Hsucc, Hseen in Hspec. set (items := done ++ (x, d) :: queue) in *.
  destruct (fresh_spec (list_to_set items.*1) (succ x)) as [Hnd Hnew].
  set (new := fresh _ _) in *. setoid_rewrite elem_of_list_to_set in Hnew.
  assert ((x, d) ∈ items) as Hxi by (unfold items; rewrite elem_of_app, elem_of_cons; auto).
  destruct Hspec as [(Hn & Hf' & Hs' & Hq' & Hp')|(Hn & Hf' & Hp' & Hu)].
  - left. exists (queue ++ ((λ y, (y, S d)) <$> new)). split; [|by eapply bfs_expand].
    assert ((done ++ [(x, d)]) ++ queue ++ ((λ y, (y, S d)) <$> new) =
      items ++ ((λ y, (y, S d)) <$> new)) as Heq by (unfold items; by rewrite <-!app_assoc).
    assert (((λ y : bytes, (y, S d)) <$> new).*1 = new) as Hfst.
    { rewrite <-list_fmap_compose. apply list_fmap_id. }
    unfold path_state. rewrite Heq, !fmap_app, Hfst. split_and!; [done|done| | |].
    + rewrite Hs', list_to_set_app_L. apply union_comm_L.
    + intros y dy [Hy|Hy]%elem_of_app.
      * destruct (Hpar _ _ Hy) as [?|(p & d' & ? & ? & ? & ?)]; [by left|right].
        exists p, d'. rewrite Hp', elem_of_app, decide_False; [tauto|].
        intros [_ []]%Hnew. by apply list_elem_of_fmap_2' with (x:=(y, dy)).
      * apply list_elem_of_fmap in Hy as (w & [= -> ->] & Hw). right. exists x, d.
        rewrite Hp', decide_True, elem_of_app by done. split_and!; [done|done|by left|].
        by apply Hnew in Hw as [? _].
    + rewrite elem_of_app. tauto.
  - right. split; [done|]. split.
    + rewrite fmap_app. apply NoDup_app. split_and!; [apply Hinv| |apply NoDup_singleton].
      intros y Hy ->%list_elem_of_singleton. done.
    + intros y dy [Hy|Hy]%elem_of_app.
      * destruct (Hpar _ _ Hy) as [?|(p & d' & ? & ? & ? & ?)]; [by left|right].
        exists p, d'. rewrite Hu, elem_of_app by
          (apply elem_of_list_to_set; by apply list_elem_of_fmap_2' with (x:=(y, dy))). tauto.
      * apply list_elem_of_singleton in Hy as [= -> ->]. right. exists x, d.
        rewrite elem_of_app. split_and!; [done|done|by left|]. by apply Hnew in Hn as [? _].
    + apply elem_of_app. left. apply Hinv. by left.
    + apply elem_of_app. right. by left.
Qed.

Lemma path_loop_found fuel st : ps_found st = true → path_loop fuel out to st = Some st.
Proof. intros Hst. destruct fuel; simpl; by rewrite Hst. Qed.

(** A node that is not recorded when depth [d] is expanded is farther than
    [d]. *)
Lemma unrecorded_far done x d queue n :
  inv done ((x, d) :: queue) → to ∉ (done ++ (x, d) :: queue).*1 → steps succ n from to → S d ≤ n.
Proof.
  intros Hinv Hto Hst. destruct (decide (S d ≤ n)); [done|]. exfalso. apply Hto.
  destruct (bfs_level _ _ _ _ _ n from to Hinv) as (d' & Hd' & _);
    [intros ? ? ? [= -> -> ->]; lia|by left|done|done|].
  by apply list_elem_of_fmap_2' with (x:=(to, d')).
Qed.

Lemma path_loop_empty fuel done st :
  path_state st done [] → inv done [] →
  ∃ st', path_loop fuel out to st = Some st' ∧
    (ps_found st' = false ∧ ¬ rtc (edge succ) from to ∨
     ps_found st' = true ∧ ∃ items d, found_at (ps_parent st') items d ∧
       ∀ n, steps succ n from to → d ≤ n).
Proof.
  intros (Hfound & Hq & _ & _ & Hto) Hinv. exists st. split.
  { destruct fuel; simpl; by rewrite Hfound, Hq. }
  left. split; [done|]. intros [n Hn]%rtc_nsteps. apply Hto. rewrite app_nil_r.
  apply (bfs_done _ _ _ _ _ Hinv). exists from, n. split_and!; [by left|done|done].
Qed.

Lemma path_loop_spec fuel done queue st :
  path_state st done queue → inv done queue → search_fuel out ≤ fuel + length done →
  ∃ st', path_loop fuel out to st = Some st' ∧
    (ps_found st' = false ∧ ¬ rtc (edge succ) from to ∨
     ps_found st' = true ∧ ∃ items d, found_at (ps_parent st') items d ∧
       ∀ n, steps succ n from to → d ≤ n).
Proof.
  revert done queue st. induction fuel as [|fuel IH]; intros done queue st Hst Hinv Hf;
    pose proof Hst as (Hfound & Hq & _);
    (destruct queue as [|[x d] queue]; [by apply (path_loop_empty _ done)|]);
    simpl; rewrite Hfound, Hq; simpl.
  { pose proof (search_fuel_enough _ _ _ _ _ _ Hinv) as Hl. simpl in Hl. lia. }
  assert (search_fuel out ≤ fuel + length (done ++ [(x, d)])) as Hf'
    by (rewrite length_app; simpl; lia).
  destruct (out !! x) as [edges|] eqn:Hx.
  - destruct (path_expand _ _ _ _ _ _ Hst Hinv Hx) as [(queue' & Hst' & Hinv')|[Hfd Hfa]].
    + exact (IH _ queue' _ Hst' Hinv' Hf').
    + rewrite path_loop_found by done. eexists. split; [done|]. right. split; [done|].
      exists ((done ++ (x, d) :: queue) ++ [(to, S d)]), (S d). split; [done|].
      intros n. eapply unrecorded_far; [exact Hinv|apply Hst].
  - apply (IH (done ++ [(x, d)]) queue); [|eapply bfs_skip; [exact Hinv|right]|exact Hf'].
    + destruct Hst as (_ & _ & Hs & Hp & Hto).
      assert ((done ++ [(x, d)]) ++ queue = done ++ (x, d) :: queue) as Heq by by rewrite <-app_assoc.
      unfold path_state. rewrite !Heq. by split_and!.
    + intros y. unfold edge, succ_of. rewrite Hx. apply not_elem_of_nil.
Qed.
End path.

Lemma has_node_nodes g p : has_node g p = true ↔ p ∈ nodes g.
Proof.
  unfold has_node, nodes. rewrite elem_of_set_list, elem_of_union, !elem_of_dom.
  by rewrite orb_true_iff, !bool_decide_eq_true.
Qed.

(** [a] directly includes [b]. *)
Definition includes (g : IncludeGraph) (a b : bytes) : Prop := b ∈ dst_path <$> direct_from g a.
(** [a] is directly included by [b], read from the incoming edges. *)
Definition included_by (g : IncludeGraph) (a b : bytes) : Prop := b ∈ src_path <$> direct_to g a.

Lemma shortest_path_spec g from to :
  from ≠ to →
  ∃ l, shortest_path g from to = Some l ∧
    (l = [] ∧ ¬ rtc (includes g) from to ∨
     chain (includes g) from l to ∧ ∀ n, nsteps (includes g) n from to → length l ≤ S n).
Proof.
  intros Hne. unfold shortest_path. rewrite decide_False by done.
  destruct (path_loop_spec (out_ g) from to (search_fuel (out_ g)) [] [(from, 0)]
    (PathSearch ∅ {[from]} [from] false)) as (st & -> & Hst).
  - split_and!; [done|done|simpl; by rewrite union_empty_r_L| |].
    + intros x d [= -> ->]%list_elem_of_singleton. by left.
    + simpl. rewrite list_elem_of_singleton. congruence.
  - apply (bfs_initial _ [from]), NoDup_singleton.
  - cbn [length]. lia.
  - destruct Hst as [[-> Hn]|[-> (items & d & Hfa & Hmin)]]; [exists []; split; [done|by left]|].
    destruct (chain_loop_spec (out_ g) from to (ps_parent st) items d d to (size (ps_parent st)) [to])
      as (c & -> & Hc & Hl); [done|apply Hfa| |constructor|].
    + eapply depth_le_parents; [done|apply Hfa].
    + exists (reverse c). split; [done|]. right. split; [done|].
      intros n Hn. rewrite length_reverse, Hl. simpl. apply le_n_S. by apply Hmin.
Qed.

(** ** Loading *)

(** The path of the first file row with an id. *)
Fixpoint file_path (files : list (Z * bytes)) (id : Z) : option bytes :=
  match files with
  | [] => None
  | (i, p) :: files => if decide (i = id) then Some p else file_path files id
  end.

(** The edges the rows stand for, one per row whose source file is known. *)
Definition attributed (files : list (Z * bytes)) (config_by_id : Z → option bytes)
    (rows : list IncludeEdge) : list GraphEdge :=
  omap (λ e, (λ src, row_edge src (default [] (config_by_id (config_id e))) e) <$>
    file_path files (src_file_id e)) rows.

Definition pair_of (e : GraphEdge) : bytes * bytes := (src_path e, dst_path e).
Definition near_end (by_src : bool) (e : GraphEdge) : bytes :=
  if by_src then src_path e else dst_path e.

Fixpoint find_pair (l : list GraphEdge) (k : bytes * bytes) : option GraphEdge :=
  match l with
  | [] => None
  | x :: l => if decide (pair_of x = k) then Some x else find_pair l k
  end.

(** The edge that the rows of one pair merge into. *)
Definition aggregate (rows : list GraphEdge) (k : bytes * bytes) : option GraphEdge :=
  match filter (λ e, pair_of e = k) rows with
  | [] => None
  | e :: es => Some (foldl merge_edge e es)
  end.

Lemma paths_spec files m id :
  foldl (λ m row, emplace m row.1 row.2) m files !! id =
  match m !! id with Some p => Some p | None => file_path files id end.
Proof.
  revert m. induction files as [|[i p] files IH]; intros m; simpl; [by destruct (m !! id)|].
  rewrite IH. unfold emplace. destruct (m !! i) as [q|] eqn:Hi.
  - case_decide; [|done]. subst. by rewrite Hi.
  - case_decide as Hd; [subst; by rewrite Hi, lookup_insert_eq|]. by rewrite lookup_insert_ne.
Qed.

Lemma merge_edge_pair x e : pair_of (merge_edge x e) = pair_of x.
Proof. done. Qed.

Lemma pair_test x e :
  (dst_path x = dst_path e ∧ src_path x = src_path e) ↔ pair_of x = pair_of e.
Proof. unfold pair_of. split; [intros [-> ->]; done|]. by intros [= -> ->]. Qed.

Lemma find_merge l e k :
  find_pair (merge_into l e) k =
  if decide (pair_of e = k)
  then Some (match find_pair l k with Some x => merge_edge x e | None => e end)
  else find_pair l k.
Proof.
  induction l as [|x l IH]; simpl; [done|].
  destruct (decide (dst_path x = dst_path e ∧ src_path x = src_path e)) as [Hx|Hx]; simpl.
  - apply pair_test in Hx. rewrite merge_edge_pair, Hx. by destruct (decide (pair_of e = k)).
  - rewrite IH. rewrite pair_test in Hx.
    destruct (decide (pair_of x = k)), (decide (pair_of e = k)); congruence.
Qed.

Lemma pairs_merge l e :
  pair_of <$> merge_into l e =
  (pair_of <$> l) ++ if decide (pair_of e ∈ pair_of <$> l) then [] else [pair_of e].
Proof.
  induction l as [|x l IH]; simpl; [done|].
  destruct (decide (dst_path x = dst_path e ∧ src_path x = src_path e)) as [Hx|Hx];
    rewrite pair_test in Hx; csimpl.
  - rewrite decide_True by (rewrite Hx; by left). by rewrite app_nil_r.
  - rewrite IH. f_equal. f_equal. apply decide_ext. rewrite elem_of_cons. split; [by right|].
    intros [?|?]; [congruence|done].
Qed.

Lemma find_pair_elem l x :
  NoDup (pair_of <$> l) → x ∈ l ↔ find_pair l (pair_of x) = Some x.
Proof.
  induction l as [|y l IH]; simpl; intros Hnd.
  { split; [|done]. by intros ?%elem_of_nil. }
  apply NoDup_cons in Hnd as [Hy Hnd]. rewrite elem_of_cons. case_decide as Hd.
  - split; [|intros [= ->]; by left]. intros [->|Hx]; [done|]. destruct Hy. rewrite Hd.
    by apply list_elem_of_fmap_2.
  - rewrite <-IH by done. split; [|by right]. intros [->|?]; done.
Qed.

(** The map built from [rows] by merging each at its near end. *)
Record merged (by_src : bool) (rows : list GraphEdge) (m : adjacency) : Prop := {
  mg_find k : find_pair (default [] (m !! (if by_src then k.1 else k.2))) k = aggregate rows k;
  mg_near i x : x ∈ default [] (m !! i) → near_end by_src x = i;
  mg_nodup i : NoDup (pair_of <$> default [] (m !! i))
}.

Lemma aggregate_snoc rows e k :
  aggregate (rows ++ [e]) k =
  if decide (pair_of e = k)
  then Some (match aggregate rows k with Some x => merge_edge x e | None => e end)
  else aggregate rows k.
Proof.
  unfold aggregate. rewrite filter_app. simpl. rewrite filter_cons, filter_nil.
  case_decide; [|by rewrite app_nil_r]. destruct (filter _ rows); simpl; [done|].
  by rewrite foldl_snoc.
Qed.

Lemma merge_at_merged b rows m e :
  merged b rows m → merged b (rows ++ [e]) (merge_at m (near_end b e) e).
Proof.
  intros [Hf Hn Hd]. unfold merge_at. split.
  - intros k. rewrite aggregate_snoc, <-(Hf k).
    destruct (decide ((if b then k.1 else k.2) = near_end b e)) as [Hk|Hk].
    + rewrite Hk, lookup_insert_eq. simpl. by rewrite find_merge.
    + rewrite lookup_insert_ne by done. rewrite decide_False; [done|].
      intros <-. by destruct b.
  - intros i x. destruct (decide (i = near_end b e)) as [->|Hi];
      [rewrite lookup_insert_eq; simpl|rewrite lookup_insert_ne by done; apply Hn].
    specialize (Hn (near_end b e)). revert Hn. generalize (default [] (m !! near_end b e)) as l.
    intros l Hn Hx. assert (pair_of x ∈ pair_of <$> merge_into l e) as Hp by by apply list_elem_of_fmap_2.
    rewrite pairs_merge, elem_of_app in Hp. destruct Hp as [(y & Hxy & Hy)%list_elem_of_fmap|Hp].
    + rewrite <-(Hn y Hy). unfold pair_of in Hxy. by destruct b; simplify_eq/=.
    + case_decide; [by apply elem_of_nil in Hp|]. apply list_elem_of_singleton in Hp.
      unfold pair_of in Hp. by destruct b; simplify_eq/=.
  - intros i. destruct (decide (i = near_end b e)) as [->|Hi];
      [rewrite lookup_insert_eq; simpl|rewrite lookup_insert_ne by done; apply Hd].
    rewrite pairs_merge. specialize (Hd (near_end b e)). case_decide; [by rewrite app_nil_r|].
    apply NoDup_app. split_and!; [done| |apply NoDup_singleton].
    intros y Hy ->%list_elem_of_singleton. done.
Qed.

Section load.
Context (files : list (Z * bytes)) (rows : list IncludeEdge) (config_by_id : Z → option bytes).

Abbreviation paths := (foldl (λ m row, emplace m row.1 row.2) ∅ files).

Lemma load_rows_merged l st ges :
  merged true ges (ld_out st) → merged false ges (ld_in st) →
  (∀ id d, ld_digests st !! id = Some d → d = default [] (config_by_id id)) →
  let st' := foldl (load_row paths config_by_id) st l in
  let ges' := ges ++ attributed files config_by_id l in
  merged true ges' (ld_out st') ∧ merged false ges' (ld_in st').
Proof.
  revert st ges. induction l as [|e l IH]; intros st ges Ho Hi Hd; simpl.
  { by rewrite app_nil_r. }
  unfold load_row at 2 4. rewrite paths_spec, lookup_empty.
  destruct (file_path files (src_file_id e)) as [src|]; simpl; [|by apply IH].
  set (dg := default [] (config_by_id (config_id e))).
  assert (∃ ds, (match ld_digests st !! config_id e with
    | Some d => (ld_digests st, d)
    | None => (<[config_id e := dg]> (ld_digests st), dg) end) = (ds, dg) ∧
    ∀ id d, ds !! id = Some d → d = default [] (config_by_id id)) as (ds & -> & Hds).
  { destruct (ld_digests st !! config_id e) as [d|] eqn:E.
    - exists (ld_digests st). by rewrite (Hd _ _ E).
    - eexists. split; [done|]. intros id d. destruct (decide (id = config_id e)) as [->|Hne].
      + rewrite lookup_insert_eq. by intros [= <-].
      + rewrite lookup_insert_ne by done. apply Hd. }
  rewrite cons_middle, app_assoc. apply IH; simpl; [| |done].
  - apply (merge_at_merged true _ _ (row_edge src dg e) Ho).
  - apply (merge_at_merged false _ _ (row_edge src dg e) Hi).
Qed.

Lemma merged_empty b : merged b [] ∅.
Proof.
  split; intros i; rewrite lookup_empty; simpl; [done| |constructor].
  intros x Hx. by apply elem_of_nil in Hx.
Qed.

Abbreviation g := (load files rows config_by_id).
Abbreviation ges := (attributed files config_by_id rows).

Lemma default_sorted (m : adjacency) b i :
  default [] (((λ l, sort_by_far_end l b) <$> m) !! i) = sort_by_far_end (default [] (m !! i)) b.
Proof. rewrite lookup_fmap. by destruct (m !! i). Qed.

Lemma sort_by_far_end_perm l b : sort_by_far_end l b ≡ₚ l.
Proof. apply merge_sort_Permutation. Qed.

Lemma load_merged :
  ∃ mo mi, merged true ges mo ∧ merged false ges mi ∧
    (∀ i, direct_from g i = sort_by_far_end (default [] (mo !! i)) true) ∧
    (∀ i, direct_to g i = sort_by_far_end (default [] (mi !! i)) false).
Proof.
  destruct (load_rows_merged rows (Loading ∅ ∅ ∅) []) as [Ho Hi];
    [apply merged_empty|apply merged_empty|by intros ??|].
  eexists _, _. split; [exact Ho|]. split; [exact Hi|].
  split; intros i; apply default_sorted.
Qed.

Lemma direct_from_iff i x : x ∈ direct_from g i ↔ src_path x = i ∧ aggregate ges (pair_of x) = Some x.
Proof.
  destruct load_merged as (mo & mi & Ho & _ & -> & _). rewrite sort_by_far_end_perm.
  split.
  - intros Hx. pose proof (mg_near _ _ _ Ho _ _ Hx) as Hi. simpl in Hi. split; [done|].
    rewrite <-(mg_find _ _ _ Ho). simpl. rewrite Hi. apply find_pair_elem; [|done].
    apply (mg_nodup _ _ _ Ho).
  - intros [<- Hx]. rewrite <-(mg_find _ _ _ Ho) in Hx. apply find_pair_elem; [|done].
    apply (mg_nodup _ _ _ Ho).
Qed.

Lemma direct_to_iff i x : x ∈ direct_to g i ↔ dst_path x = i ∧ aggregate ges (pair_of x) = Some x.
Proof.
  destruct load_merged as (mo & mi & _ & Hm & _ & ->). rewrite sort_by_far_end_perm.
  split.
  - intros Hx. pose proof (mg_near _ _ _ Hm _ _ Hx) as Hi. simpl in Hi. split; [done|].
    rewrite <-(mg_find _ _ _ Hm). simpl. rewrite Hi. apply find_pair_elem; [|done].
    apply (mg_nodup _ _ _ Hm).
  - intros [<- Hx]. rewrite <-(mg_find _ _ _ Hm) in Hx. apply find_pair_elem; [|done].
    apply (mg_nodup _ _ _ Hm).
Qed.

Lemma includes_included_by a b : includes g a b ↔ included_by g b a.
Proof.
  unfold includes, included_by. rewrite !list_elem_of_fmap. split.
  - intros (x & -> & [<- Hx]%direct_from_iff). exists x. split; [done|]. by apply direct_to_iff.
  - intros (x & -> & [<- Hx]%direct_to_iff). exists x. split; [done|]. by apply direct_from_iff.
Qed.
End load.

(** ** Merged edges *)

Definition total_count (rows : list GraphEdge) : Z := foldr (λ e n, (count e + n)%Z) 0%Z rows.

Lemma merge_configs_spec xs ds :
  NoDup xs → NoDup (merge_configs xs ds) ∧ ∀ c, c ∈ merge_configs xs ds ↔ c ∈ xs ∨ c ∈ ds.
Proof.
  revert xs. induction ds as [|d ds IH]; intros xs Hx; simpl.
  { split; [done|]. intros c. rewrite elem_of_nil. tauto. }
  case_decide as Hd.
  - destruct (IH xs Hx) as [? Hi]. split; [done|]. intros c. rewrite Hi, elem_of_cons.
    split; [tauto|]. intros [?|[->|?]]; auto.
  - destruct (IH (xs ++ [d])) as [? Hi].
    { apply NoDup_app. split_and!; [done| |apply NoDup_singleton].
      intros y Hy ->%list_elem_of_singleton. done. }
    split; [done|]. intros c. rewrite Hi, elem_of_app, !elem_of_cons, elem_of_nil. tauto.
Qed.

Lemma merge_edge_configs x e :
  NoDup (configs x) →
  StronglySorted bytes_lt (configs (merge_edge x e)) ∧
  ∀ c, c ∈ configs (merge_edge x e) ↔ c ∈ configs x ∨ c ∈ configs e.
Proof.
  intros Hx. destruct (merge_configs_spec (configs x) (configs e) Hx) as [Hnd Hi]. simpl. split.
  - apply sorted_strict; [apply _|apply sort_sorted, _|]. by rewrite sort_perm by apply _.
  - intros c. by rewrite elem_of_sort by apply _.
Qed.

Lemma fold_merge_spec e es :
  StronglySorted bytes_lt (configs e) →
  let x := foldl merge_edge e es in
  pair_of x = pair_of e ∧ is_system x = is_system e ∧ count x = total_count (e :: es) ∧
  dst_file_id x = head (omap dst_file_id (e :: es)) ∧
  StronglySorted bytes_lt (configs x) ∧
  ∀ c, c ∈ configs x ↔ ∃ r, r ∈ e :: es ∧ c ∈ configs r.
Proof.
  revert e. induction es as [|r es IH]; intros e He; simpl.
  { split_and!; try done; [by rewrite Z.add_0_r|by destruct (dst_file_id e)|].
    intros c. setoid_rewrite list_elem_of_singleton. naive_solver. }
  destruct (merge_edge_configs e r) as [Hs Hi]; [by apply (strict_NoDup bytes_ltb)|].
  destruct (IH (merge_edge e r) Hs) as (? & ? & Hc & Hd & ? & Hcf). split_and!; [done|done| | |done|].
  - rewrite Hc. simpl. lia.
  - rewrite Hd. simpl. by destruct (dst_file_id e).
  - intros c. rewrite Hcf. split.
    + intros (x & [->|?]%elem_of_cons & Hx); [|exists x; rewrite !elem_of_cons; by auto].
      apply Hi in Hx as [?|?]; [exists e|exists r]; rewrite !elem_of_cons; auto.
    + intros (x & [->|[->|?]%elem_of_cons]%elem_of_cons & Hx);
        [..|exists x; rewrite elem_of_cons; by auto]; exists (merge_edge e r);
        (split; [by left|]); apply Hi; auto.
Qed.

Lemma attributed_configs files config_by_id rows e :
  e ∈ attributed files config_by_id rows → StronglySorted bytes_lt (configs e).
Proof.
  intros (r & Hr & Hx)%list_elem_of_omap. destruct (file_path _ _); simplify_eq/=.
  repeat constructor.
Qed.

#[export] Instance far_le_trans b : Transitive (far_le b).
Proof. intros x y z. unfold far_le. apply transitivity. Qed.
#[export] Instance far_le_total b : Total (far_le b).
Proof. intros x y. unfold far_le. apply total. apply _. Qed.

Lemma StronglySorted_fmap_far b l :
  StronglySorted (far_le b) l → StronglySorted (ltb_le bytes_ltb) (far_end b <$> l).
Proof.
  induction 1 as [|x l _ IH Hf]; simpl; constructor; [done|]. by apply Forall_fmap.
Qed.

Lemma far_ends_strict l b :
  NoDup (pair_of <$> l) → (∀ x y, x ∈ l → y ∈ l → near_end b x = near_end b y) →
  StronglySorted bytes_lt (far_end b <$> sort_by_far_end l b).
Proof.
  intros Hnd Hnear. apply sorted_strict; [apply _| |].
  - apply StronglySorted_fmap_far, StronglySorted_merge_sort; apply _.
  - rewrite sort_by_far_end_perm. apply NoDup_fmap_1 in Hnd as Hl.
    apply NoDup_fmap_2_strong; [|done]. intros x y Hx Hy Hxy.
    pose proof (Hnear x y Hx Hy) as Hn.
    assert (pair_of x = pair_of y) as Hp by (unfold pair_of; destruct b; simpl in *; congruence).
    apply find_pair_elem in Hx; [|done]. apply find_pair_elem in Hy; [|done]. congruence.
Qed.

(** ** Properties *)

(** Loading merges exactly.  When no row connects two paths there is no
    edge between them; otherwise there is exactly one, the same in the outgoing
    list of the source and in the incoming list of the target, and it carries
    the total of the rows' counts, the first known target id, the first row's
    system flag and the sorted set of the rows' configuration digests.  Both
    lists are sorted by the far end without duplicates. *)
Theorem load_merges_exactly files rows config_by_id s d :
  let g := load files rows config_by_id in
  let es := filter (λ e, pair_of e = (s, d)) (attributed files config_by_id rows) in
  StronglySorted bytes_lt (dst_path <$> direct_from g s) ∧
  StronglySorted bytes_lt (src_path <$> direct_to g d) ∧
  (es = [] → ¬ includes g s d) ∧
  (es ≠ [] → ∃ x,
    (∀ y, y ∈ direct_from g s ∧ dst_path y = d ↔ y = x) ∧
    (∀ y, y ∈ direct_to g d ∧ src_path y = s ↔ y = x) ∧
    count x = total_count es ∧ dst_file_id x = head (omap dst_file_id es) ∧
    is_system <$> head es = Some (is_system x) ∧ StronglySorted bytes_lt (configs x) ∧
    ∀ c, c ∈ configs x ↔ ∃ r, r ∈ es ∧ c ∈ configs r).
Proof.
  intros g es. destruct (load_merged files rows config_by_id) as (mo & mi & Ho & Hm & Hfrom & Hto).
  split_and!.
  - unfold g. rewrite Hfrom. apply (far_ends_strict _ true); [apply (mg_nodup _ _ _ Ho)|].
    intros x y Hx Hy. by rewrite (mg_near _ _ _ Ho _ _ Hx), (mg_near _ _ _ Ho _ _ Hy).
  - unfold g. rewrite Hto. apply (far_ends_strict _ false); [apply (mg_nodup _ _ _ Hm)|].
    intros x y Hx Hy. by rewrite (mg_near _ _ _ Hm _ _ Hx), (mg_near _ _ _ Hm _ _ Hy).
  - intros Hes (x & -> & [<- Hx]%direct_from_iff)%list_elem_of_fmap.
    unfold aggregate in Hx. fold (pair_of x) in es. unfold es in Hes. by rewrite Hes in Hx.
  - intros Hes. destruct es as [|e es'] eqn:He; [done|].
    assert (e ∈ filter (λ e, pair_of e = (s, d)) (attributed files config_by_id rows)) as Hin
      by (fold es; rewrite He; by left).
    apply list_elem_of_filter in Hin as [Hp Hin]. apply attributed_configs in Hin.
    destruct (fold_merge_spec e es' Hin) as (Hx & Hs & ? & ? & ? & ?).
    exists (foldl merge_edge e es').
    assert (aggregate (attributed files config_by_id rows) (s, d) = Some (foldl merge_edge e es')) as Ha
      by (unfold aggregate; fold es; by rewrite He).
    rewrite Hp in Hx. unfold pair_of in Hx. injection Hx as Hxs Hxd. split_and!; try done.
    + intros y. unfold g. rewrite direct_from_iff. unfold pair_of. split; [|intros ->; by rewrite Hxs, Hxd].
      intros [[<- Hy] <-]. congruence.
    + intros y. unfold g. rewrite direct_to_iff. unfold pair_of. split; [|intros ->; by rewrite Hxs, Hxd].
      intros [[<- Hy] <-]. congruence.
    + simpl. by rewrite Hs.
Qed.

Lemma load_merges_exactly_witness : ∃ x,
  direct_from (load [(1, bs "a")]%Z
    [IncludeEdgeRow 1 1 None (bs "b") 7 false false 2; IncludeEdgeRow 2 1 (Some 5) (bs "b") 3 false false 1]%Z
    (λ id, if decide (id = 7)%Z then Some (bs "y") else Some (bs "x"))) (bs "a") = [x] ∧
  (count x = 3)%Z ∧ dst_file_id x = Some 5%Z ∧ configs x = [bs "x"; bs "y"].
Proof.
  destruct (load_merges_exactly [(1, bs "a")]%Z
    [IncludeEdgeRow 3 1 None (bs "b") 7 false false 2; IncludeEdgeRow 4 1 (Some 5) (bs "b") 3 false false 1]%Z
    (λ id, if decide (id = 7)%Z then Some (bs "y") else Some (bs "x")) (bs "a") (bs "b"))
    as (_ & _ & _ & (x & Hx & _ & Hc & Hd & _)); [by vm_compute|].
  exists x. pose proof (proj2 (Hx _) eq_refl) as [Hin _]. vm_compute in Hin.
  apply list_elem_of_singleton in Hin as ->. by vm_compute.
Defined.

(** [transitive_from] and [transitive_to] end and are exact: sorted without
    duplicates, they list the paths other than the argument that a chain of at
    most [max_depth] includes (any number when [max_depth <= 0]) joins to it,
    downwards or upwards. *)
Theorem transitive_exact g path max_depth :
  (∃ l, transitive_from g path max_depth = Some l ∧ StronglySorted bytes_lt l ∧
    ∀ x, x ∈ l ↔ x ≠ path ∧ ∃ n, nsteps (includes g) n path x ∧
      (max_depth ≤ 0 ∨ Z.of_nat n ≤ max_depth)%Z) ∧
  (∃ l, transitive_to g path max_depth = Some l ∧ StronglySorted bytes_lt l ∧
    ∀ x, x ∈ l ↔ x ≠ path ∧ ∃ n, nsteps (included_by g) n path x ∧
      (max_depth ≤ 0 ∨ Z.of_nat n ≤ max_depth)%Z).
Proof. split; apply reachable_spec. Qed.

(** The impact set is the converse of the include set: in a loaded graph,
    at every depth, [b] is listed among what [a] includes exactly when [a] is
    listed among what includes [b]. *)
Theorem impact_is_converse files rows config_by_id a b max_depth :
  let g := load files rows config_by_id in
  ∃ la lb, transitive_from g a max_depth = Some la ∧ transitive_to g b max_depth = Some lb ∧
    (b ∈ la ↔ a ∈ lb).
Proof.
  intros g. destruct (reachable_spec (out_ g) true a max_depth) as (la & Ha & _ & Hla).
  destruct (reachable_spec (in_ g) false b max_depth) as (lb & Hb & _ & Hlb).
  exists la, lb. split_and!; [done|done|]. rewrite Hla, Hlb.
  assert (∀ n, steps (succ_of (out_ g) true) n a b ↔ steps (succ_of (in_ g) false) n b a) as Hst.
  { intros n. split; apply nsteps_reverse; intros x y; apply includes_included_by. }
  setoid_rewrite Hst. split; intros [??]; split; [by apply not_eq_sym|done|by apply not_eq_sym|done].
Qed.

(** [shortest_path] ends; it returns nothing exactly when the target is not
    reachable, and otherwise a chain of includes from the first file to the
    second than which no chain is shorter. *)
Theorem shortest_path_minimal g from to :
  from ≠ to →
  ∃ l, shortest_path g from to = Some l ∧
    (l = [] ∧ ¬ rtc (includes g) from to ∨
     chain (includes g) from l to ∧ ∀ n, nsteps (includes g) n from to → length l ≤ S n).
Proof. apply shortest_path_spec. Qed.

Definition sample_graph : IncludeGraph :=
  load [(1, bs "a"); (2, bs "b"); (3, bs "c")]%Z
    [IncludeEdgeRow 5 1 None (bs "b") 7 false false 1; IncludeEdgeRow 6 2 None (bs "c") 7 false false 1;
     IncludeEdgeRow 7 2 None (bs "d") 7 false false 1; IncludeEdgeRow 8 1 None (bs "c") 7 false false 1;
     IncludeEdgeRow 9 3 None (bs "d") 7 false false 1; IncludeEdgeRow 10 3 None (bs "a") 7 false false 1]%Z
    (λ _, Some (bs "x")).

Lemma shortest_path_minimal_witness :
  ∃ l, shortest_path sample_graph (bs "a") (bs "d") = Some l ∧ l = [bs "a"; bs "b"; bs "d"] ∧
    ∀ n, nsteps (includes sample_graph) n (bs "a") (bs "d") → length l ≤ S n.
Proof.
  destruct (shortest_path_minimal sample_graph (bs "a") (bs "d")) as (l & Hl & Hc); [done|].
  exists l. split; [done|]. vm_compute in Hl. injection Hl as <-. split; [done|].
  by destruct Hc as [[? _]|[_ ?]].
Defined.
