(* ===== verification/IncludeCycles.v ===== *)
(** * Include cycles: [IncludeGraph::cycles] of [src/src/include_hygiene/graph.cpp]

    Tarjan's strongly connected components, with the explicit frame stack of the
    source.  The vectors [stack] and [work] are lists whose head is the vector's
    back. *)

From S2P Require Export IncludeGraph.

(** ** The algorithm *)

(** [it->second]'s far ends, or nothing when the node has no outgoing list. *)
Definition kids (g : IncludeGraph) (v : bytes) : list bytes := dst_path <$> direct_from g v.

Record tarjan := Tarjan {
  t_index : gmap bytes nat;
  t_lowlink : gmap bytes nat;
  t_on_stack : gset bytes;
  t_stack : list bytes;
  t_out : list (list bytes);
  t_counter : nat;
  t_work : list (bytes * nat)            (* Frame{node, next_child} *)
}.

Definition idx (t : tarjan) (v : bytes) : nat := default 0 (t_index t !! v).
Definition low (t : tarjan) (v : bytes) : nat := default 0 (t_lowlink t !! v).

(** [index[v] = lowlink[v] = counter++; stack.push_back(v); on_stack.insert(v);
    work.push_back({v, 0})]. *)
Definition discover (v : bytes) (t : tarjan) : tarjan :=
  Tarjan (<[v := t_counter t]> (t_index t)) (<[v := t_counter t]> (t_lowlink t))
    ({[v]} ∪ t_on_stack t) (v :: t_stack t) (t_out t) (S (t_counter t)) ((v, 0) :: t_work t).

Definition set_work (w : list (bytes * nat)) (t : tarjan) : tarjan :=
  Tarjan (t_index t) (t_lowlink t) (t_on_stack t) (t_stack t) (t_out t) (t_counter t) w.

Definition lower (v : bytes) (n : nat) (t : tarjan) : tarjan :=
  Tarjan (t_index t) (<[v := low t v `min` n]> (t_lowlink t)) (t_on_stack t) (t_stack t) (t_out t)
    (t_counter t) (t_work t).

(** The loop that pops the stack down to [v]. *)
Fixpoint pop_component (v : bytes) (stack comp : list bytes) : list bytes * list bytes :=
  match stack with
  | [] => (comp, [])
  | w :: stack =>
      if decide (w = v) then (comp ++ [w], stack) else pop_component v stack (comp ++ [w])
  end.

(** The block under [lowlink[f.node] == index[f.node]]. *)
Definition close_component (g : IncludeGraph) (v : bytes) (t : tarjan) : tarjan :=
  let '(comp, stack) := pop_component v (t_stack t) [] in
  let self_loop := (length comp =? 1) && existsb (λ d, bool_decide (d = v)) (kids g v) in
  Tarjan (t_index t) (t_lowlink t) (t_on_stack t ∖ list_to_set comp) stack
    (if (1 <? length comp) || self_loop then t_out t ++ [sort bytes_ltb comp] else t_out t)
    (t_counter t) (t_work t).

(** One iteration of [while (!work.empty())]. *)
Definition tarjan_step (g : IncludeGraph) (t : tarjan) : option tarjan :=
  match t_work t with
  | [] => None
  | (v, next_child) :: rest =>
      match kids g v !! next_child with
      | Some child =>
          let t := set_work ((v, S next_child) :: rest) t in
          match t_index t !! child with
          | None => Some (discover child t)
          | Some i => if decide (child ∈ t_on_stack t) then Some (lower v i t) else Some t
          end
      | None =>
          let t := if decide (low t v = idx t v) then close_component g v t else t in
          let t := set_work rest t in
          match rest with
          | [] => Some t
          | (p, _) :: _ => Some (lower p (low t v) t)
          end
      end
  end.

Fixpoint tarjan_loop (fuel : nat) (g : IncludeGraph) (t : tarjan) : option tarjan :=
  match tarjan_step g t, fuel with
  | None, _ => Some t
  | Some _, O => None
  | Some t', S fuel => tarjan_loop fuel g t'
  end.

Fixpoint tarjan_roots (fuel : nat) (g : IncludeGraph) (roots : list bytes) (t : tarjan) : option tarjan :=
  match roots with
  | [] => Some t
  | root :: roots =>
      match t_index t !! root with
      | Some _ => tarjan_roots fuel g roots t
      | None =>
          match tarjan_loop fuel g (discover root t) with
          | Some t => tarjan_roots fuel g roots t
          | None => None
          end
      end
  end.

(** Every node the search can meet: the keys and the far ends. *)
Definition universe (g : IncludeGraph) : list bytes :=
  nodes g ++ (dst_path <$> mjoin (map_to_list (out_ g)).*2).

(** A node of the universe costs one step per child and one to finish. *)
Definition cycles_fuel (g : IncludeGraph) : nat :=
  sum_list_with (λ v, S (length (kids g v))) (universe g).

Definition cycles (g : IncludeGraph) : option (list (list bytes)) :=
  (λ t, sort (lex_ltb bytes_ltb) (t_out t)) <$>
    tarjan_roots (cycles_fuel g) g (nodes g) (Tarjan ∅ ∅ ∅ [] [] 0 []).

Example cycles_sample :
  cycles (load [(1, bs "a"); (2, bs "b"); (3, bs "c"); (4, bs "d")]%Z
    [IncludeEdgeRow 1 1 None (bs "b") 7 false false 1; IncludeEdgeRow 2 2 None (bs "c") 7 false false 1;
     IncludeEdgeRow 3 2 None (bs "d") 7 false false 1; IncludeEdgeRow 4 3 None (bs "a") 7 false false 1;
     IncludeEdgeRow 5 4 None (bs "d") 7 false false 1]%Z (λ _, None)) =
  Some [[bs "a"; bs "b"; bs "c"]; [bs "d"]].
Proof. vm_compute. reflexivity. Qed.

(** ** The invariant *)

Section cycles.
Context (g : IncludeGraph).

Abbreviation E := (includes g).
Abbreviation reach := (rtc E).

Definition seen (t : tarjan) (x : bytes) : Prop := is_Some (t_index t !! x).

(** The edge has been looked at: every edge of a finished node, and those
    before [next_child] of a node with a frame. *)
Definition explored (t : tarjan) (x y : bytes) : Prop :=
  ∃ j, kids g x !! j = Some y ∧ ∀ i, (x, i) ∈ t_work t → j < i.

(** What the header promises of a reported component: sorted, and the strongly
    connected component of a node that lies on a cycle. *)
Definition cycle_component (c : list bytes) : Prop :=
  StronglySorted bytes_lt c ∧ ∃ x, tc E x x ∧ ∀ y, y ∈ c ↔ reach x y ∧ reach y x.

Record core (t : tarjan) : Prop := {
  c_on : t_on_stack t = list_to_set (t_stack t);
  c_seen x : x ∈ t_stack t → seen t x;
  c_count x i : t_index t !! x = Some i → i < t_counter t;
  c_sorted : StronglySorted (λ x y, idx t y < idx t x) (t_stack t);
  c_work : StronglySorted (λ a b : bytes * nat, idx t b.1 < idx t a.1) (t_work t);
  c_work_stack v i : (v, i) ∈ t_work t → v ∈ t_stack t;
  c_closed x y : seen t x → x ∉ t_stack t → E x y → seen t y ∧ y ∉ t_stack t;
  c_up x y : x ∈ t_stack t → y ∈ t_stack t → idx t x ≤ idx t y → reach x y;
  c_down y : y ∈ t_stack t → ∃ w i, (w, i) ∈ t_work t ∧ idx t w ≤ idx t y ∧ reach y w;
  c_out c : c ∈ t_out t → cycle_component c;
  c_out_done c x : c ∈ t_out t → x ∈ c → seen t x ∧ x ∉ t_stack t;
  c_all x : seen t x → x ∉ t_stack t → tc E x x → ∃ c, c ∈ t_out t ∧ x ∈ c;
  c_nodup : NoDup (t_out t)
}.

(** Explored edges lead to discovered nodes.  [lowlink] of a node with a frame:
    the index of a stack node it reaches, no
    larger than that of any stack node its part of the stack has an explored
    edge to. *)
Record lowlinks (t : tarjan) : Prop := {
  l_explored x y : seen t x → explored t x y → seen t y;
  l_witness v i : (v, i) ∈ t_work t →
    ∃ u, u ∈ t_stack t ∧ low t v = idx t u ∧ idx t u ≤ idx t v ∧ reach v u;
  l_min v i x y : (v, i) ∈ t_work t → x ∈ t_stack t → idx t v ≤ idx t x →
    (∀ v' i', (v', i') ∈ t_work t → idx t v < idx t v' → idx t x < idx t v') →
    explored t x y → y ∈ t_stack t → low t v ≤ idx t y
}.

Lemma E_kids x y : E x y ↔ ∃ j, kids g x !! j = Some y.
Proof. unfold includes. by rewrite list_elem_of_lookup. Qed.

Lemma seen_idx t x : seen t x → t_index t !! x = Some (idx t x).
Proof. unfold seen, idx. by intros [i ->]. Qed.

Lemma core_lower v n t : core t → core (lower v n t).
Proof. intros []. by split. Qed.

Section frame.
Context (t : tarjan) (v : bytes) (i : nat) (rest : list (bytes * nat)).
Context (Hc : core t) (Hw : t_work t = (v, i) :: rest).

Lemma top_stack : v ∈ t_stack t.
Proof. eapply (c_work_stack _ Hc). rewrite Hw. by left. Qed.

Lemma rest_below w j : (w, j) ∈ rest → idx t w < idx t v.
Proof.
  intros Hin. pose proof (c_work _ Hc) as Hs. rewrite Hw in Hs.
  apply StronglySorted_inv in Hs as [_ Hf]. eapply Forall_forall in Hf; [|done]. done.
Qed.

Lemma work_below w j : (w, j) ∈ t_work t → idx t w ≤ idx t v.
Proof.
  rewrite Hw. intros [[= -> ->]|Hin]%elem_of_cons; [done|]. apply rest_below in Hin. lia.
Qed.

Lemma stack_reaches_top x : x ∈ t_stack t → reach x v.
Proof.
  intros Hx. destruct (c_down _ Hc x Hx) as (w & j & Hwj & _ & Hr).
  etrans; [exact Hr|]. apply (c_up _ Hc); [by eapply c_work_stack|apply top_stack|].
  by eapply work_below.
Qed.

Lemma rest_work w j : (w, j) ∈ rest → (w, j) ∈ t_work t.
Proof. rewrite Hw. by right. Qed.

Lemma work_rest w j : (w, j) ∈ t_work t → w ≠ v → (w, j) ∈ rest.
Proof. rewrite Hw. by intros [[= -> ->]|?]%elem_of_cons ?. Qed.

Lemma explored_advance y x z :
  kids g v !! i = Some y → explored (set_work ((v, S i) :: rest) t) x z →
  explored t x z ∨ x = v ∧ z = y.
Proof.
  intros Hy (j & Hj & Hb). simpl in Hb. destruct (decide (x = v)) as [->|Hx].
  - destruct (decide (j = i)) as [->|Hji]; [right; split; [done|congruence]|left].
    exists j. split; [done|]. intros i'. rewrite Hw. intros [[= ->]|Hin]%elem_of_cons.
    + specialize (Hb (S i)). rewrite elem_of_cons in Hb. enough (j < S i) by lia. by apply Hb; left.
    + apply rest_below in Hin. lia.
  - left. exists j. split; [done|]. intros i'. rewrite Hw. intros [[= -> ->]|Hin]%elem_of_cons; [done|].
    apply Hb. by right.
Qed.

Lemma explored_finish t' x z :
  kids g v !! i = None → t_work t' = rest → explored t' x z → explored t x z.
Proof.
  intros Hn Ht' (j & Hj & Hb). exists j. split; [done|]. intros i'.
  rewrite Hw. intros [[= -> ->]|Hin]%elem_of_cons.
  - apply lookup_lt_Some in Hj. apply lookup_ge_None in Hn. lia.
  - apply Hb. by rewrite Ht'.
Qed.

(** A finished node at or above [v] on the stack has all its edges explored. *)
Lemma above_explored x y :
  kids g v !! i = None → x ∈ t_stack t → idx t v ≤ idx t x → E x y → explored t x y.
Proof.
  intros Hn Hx Hvx [j Hj]%E_kids. exists j. split; [done|]. intros i'.
  rewrite Hw. intros [[= -> ->]|Hin]%elem_of_cons.
  - apply lookup_lt_Some in Hj. apply lookup_ge_None in Hn. lia.
  - apply rest_below in Hin. lia.
Qed.
End frame.

(** ** Discovering a node *)

Lemma discover_facts t y :
  core t → t_index t !! y = None →
  (∀ x, x ≠ y → idx (discover y t) x = idx t x) ∧ idx (discover y t) y = t_counter t ∧
  (∀ x, seen t x → idx (discover y t) x < t_counter t) ∧
  (∀ x, x ∈ t_stack t → x ≠ y ∧ seen t x) ∧
  (∀ x, seen (discover y t) x ↔ x = y ∨ seen t x) ∧ (∀ x, seen t x → x ≠ y).
Proof.
  intros Hc Hy.
  assert (Hne : ∀ x, seen t x → x ≠ y) by (intros x [? ?] ->; congruence).
  assert (Hidx : ∀ x, x ≠ y → idx (discover y t) x = idx t x).
  { intros x Hx. unfold idx, discover. simpl. by rewrite lookup_insert_ne. }
  split_and!; [done| | | | |done].
  - unfold idx, discover. simpl. by rewrite lookup_insert_eq.
  - intros x Hx. rewrite Hidx by auto. eapply (c_count _ Hc), seen_idx; done.
  - intros x Hx. pose proof (c_seen _ Hc x Hx). auto.
  - intros x. unfold seen, discover. simpl. rewrite lookup_insert_is_Some.
    destruct (decide (y = x)); naive_solver.
Qed.

Lemma core_discover t y :
  core t → t_index t !! y = None → (∀ x, x ∈ t_stack t → reach x y) →
  core (discover y t).
Proof.
  intros Hc Hy Hr.
  destruct (discover_facts _ _ Hc Hy) as (Hidx & Hidy & Hlt & Hst & Hseen & Hne).
  split; simpl.
  - by rewrite (c_on _ Hc).
  - intros x. rewrite Hseen. intros [->|Hx]%elem_of_cons; [by left|right]. by apply Hst.
  - intros x i. destruct (decide (x = y)) as [->|Hx].
    + rewrite lookup_insert_eq. intros [= <-]. lia.
    + rewrite lookup_insert_ne by done. intros Hi%(c_count _ Hc). lia.
  - constructor.
    + eapply StronglySorted_impl_elem; [|apply (c_sorted _ Hc)].
      intros a b Ha Hb Hab. rewrite !Hidx by by apply Hst. done.
    + apply Forall_forall. intros x Hx. rewrite Hidy. apply Hlt. by apply Hst.
  - constructor.
    + eapply StronglySorted_impl_elem; [|apply (c_work _ Hc)].
      intros [a i] [b j] Ha%(c_work_stack _ Hc) Hb%(c_work_stack _ Hc) Hab.
      simpl in *. rewrite !Hidx by by apply Hst. done.
    + apply Forall_forall. intros [x i] Hx%(c_work_stack _ Hc). simpl. rewrite Hidy.
      apply Hlt. by apply Hst.
  - intros v i [[= -> ->]|Hin]%elem_of_cons; [by left|right]. by eapply c_work_stack.
  - intros x z. rewrite !Hseen. rewrite !not_elem_of_cons. intros [->|Hx] [Hxy Hxs] Hxz; [done|].
    destruct (c_closed _ Hc x z) as [Hz Hzs]; [done..|]. auto.
  - intros x z [->|Hx]%elem_of_cons [->|Hz]%elem_of_cons; [done| | |].
    + rewrite Hidy. intros Hle. pose proof (Hlt z (proj2 (Hst _ Hz))). lia.
    + intros _. by apply Hr.
    + rewrite !Hidx by by apply Hst. by apply (c_up _ Hc).
  - intros z [->|Hz]%elem_of_cons.
    + exists y, 0. split_and!; [by left|done|done].
    + destruct (c_down _ Hc z Hz) as (w & i & Hwi & Hle & Hrw). exists w, i.
      rewrite !Hidx; [split_and!; [by right|done|done]|by apply Hst|].
      apply Hst. by eapply c_work_stack.
  - apply (c_out _ Hc).
  - intros c x Hco Hx. destruct (c_out_done _ Hc c x Hco Hx) as [Hs Hn]. rewrite Hseen.
    split; [by right|]. rewrite not_elem_of_cons. auto.
  - intros x. rewrite Hseen, not_elem_of_cons. intros [->|Hx] [Hxy Hxs]; [done|].
    by apply (c_all _ Hc).
  - apply (c_nodup _ Hc).
Qed.

Lemma core_set_next t v i rest :
  core t → t_work t = (v, i) :: rest → core (set_work ((v, S i) :: rest) t).
Proof.
  intros Hc Hw. split; simpl; try apply Hc.
  - pose proof (c_work _ Hc) as Hs. rewrite Hw in Hs. apply StronglySorted_inv in Hs as [? Hf].
    constructor; [done|]. exact Hf.
  - intros w j [[= -> ->]|Hin]%elem_of_cons; [by eapply top_stack|].
    eapply (c_work_stack _ Hc). rewrite Hw. by right.
  - intros y Hy. destruct (c_down _ Hc y Hy) as (w & j & Hwj & ? & ?). rewrite Hw in Hwj.
    apply elem_of_cons in Hwj as [[= -> ->]|Hin]; eexists _, _; (split; [|done]); [by left|by right].
Qed.

(** ** The steps *)

Section step.
Context (t : tarjan) (v : bytes) (i : nat) (rest : list (bytes * nat)).
Context (Hc : core t) (Hl : lowlinks t) (Hw : t_work t = (v, i) :: rest).

Abbreviation t1 := (set_work ((v, S i) :: rest) t).

Lemma frame_elem w j : (w, j) ∈ (v, S i) :: rest → ∃ j', (w, j') ∈ t_work t.
Proof.
  rewrite Hw. intros [[= -> ->]|Hin]%elem_of_cons; eexists; [by left|by right].
Qed.

Lemma elem_frame w j : (w, j) ∈ t_work t → ∃ j', (w, j') ∈ (v, S i) :: rest.
Proof.
  rewrite Hw. intros [[= -> ->]|Hin]%elem_of_cons; eexists; [by left|by right].
Qed.

(** The child is new. *)
Lemma step_discover y :
  kids g v !! i = Some y → t_index t !! y = None →
  core (discover y t1) ∧ lowlinks (discover y t1).
Proof.
  intros Hy Hnew.
  assert (Hc1 : core t1) by (by apply core_set_next).
  assert (Hreach : ∀ x, x ∈ t_stack t → reach x y).
  { intros x Hx. eapply rtc_r; [by eapply (stack_reaches_top t v i rest)|]. apply E_kids. eauto. }
  split; [by apply core_discover|].
  destruct (discover_facts _ _ Hc1 Hnew) as (Hidx & Hidy & Hlt & Hst & Hseen & Hne).
  assert (Hvy : v ≠ y) by (apply Hst; by eapply top_stack).
  assert (Hlow : ∀ x, x ≠ y → low (discover y t1) x = low t x).
  { intros x Hx. unfold low, discover. simpl. by rewrite lookup_insert_ne. }
  assert (Hex : ∀ x z, x ≠ y → explored (discover y t1) x z → explored t x z ∨ x = v ∧ z = y).
  { intros x z Hx (j & Hj & Hb). eapply explored_advance; [done..|].
    exists j. split; [done|]. intros i' Hi'. apply Hb. by right. }
  assert (Hey : ∀ z, ¬ explored (discover y t1) y z).
  { intros z (j & _ & Hb). specialize (Hb 0). simpl in Hb.
    assert (j < 0) by (apply Hb; by left). lia. }
  assert (Hws : ∀ w j, (w, j) ∈ (v, S i) :: rest → w ∈ t_stack t).
  { intros w j [j' Hj']%frame_elem. by eapply c_work_stack. }
  split; simpl.
  - intros x z. rewrite !Hseen. intros [->|Hx] He; [by apply Hey in He|].
    destruct (decide (x = y)) as [->|Hxy]; [by apply Hey in He|].
    apply Hex in He as [He|[_ ->]]; [right|by left|done]. by apply (l_explored _ Hl x z).
  - intros w j [[= -> ->]|Hin]%elem_of_cons.
    + exists y. split_and!; [by left| |done|done].
      rewrite Hidy. unfold low, discover. simpl. by rewrite lookup_insert_eq.
    + pose proof (Hws _ _ Hin) as Hwst. pose proof (Hst _ Hwst) as [Hwy _].
      apply frame_elem in Hin as [j' Hin].
      destruct (l_witness _ Hl w j' Hin) as (u & Hu & Hlu & Hle & Hr). exists u.
      pose proof (Hst _ Hu) as [Huy _]. rewrite Hlow, !Hidx by done. split_and!; [by right|done..].
  - intros w j x z Hin Hx Hle Hseg He Hz.
    destruct (decide (x = y)) as [->|Hxy]; [by apply Hey in He|].
    apply elem_of_cons in Hx as [?|Hx]; [done|].
    pose proof (Hst _ Hx) as [_ Hxs].
    apply elem_of_cons in Hin as [[= -> ->]|Hin].
    { pose proof (Hlt _ Hxs). rewrite Hidy in Hle. lia. }
    pose proof (Hws _ _ Hin) as Hwst. pose proof (Hst _ Hwst) as [Hwy Hwseen].
    rewrite Hlow by done. apply frame_elem in Hin as [j' Hin].
    apply elem_of_cons in Hz as [->|Hz].
    { destruct (l_witness _ Hl w j' Hin) as (u & Hu & Hlu & Hle' & _).
      pose proof (Hlt w Hwseen) as Hltw. rewrite (Hidx w Hwy) in Hltw. rewrite Hidy.
      change (idx t1 w) with (idx t w) in Hltw. lia. }
    pose proof (Hst _ Hz) as [Hzy _]. rewrite (Hidx w Hwy), (Hidx x Hxy) in Hle. rewrite (Hidx z Hzy).
    apply Hex in He as [He|[_ ->]]; [|done|done].
    apply (l_min _ Hl w j' x z); [done|done|exact Hle| |done|done].
    intros v' i' [i'' Hv']%elem_frame Hlt'.
    pose proof (Hst _ (Hws _ _ Hv')) as [Hvy' _].
    specialize (Hseg v' i''). rewrite (Hidx w Hwy), (Hidx x Hxy), (Hidx v' Hvy') in Hseg.
    apply Hseg; [by right|done].
Qed.

(** The child is on the stack: [lowlink[v]] is lowered to its index. *)
Lemma step_back y :
  kids g v !! i = Some y → y ∈ t_stack t →
  core (lower v (idx t y) t1) ∧ lowlinks (lower v (idx t y) t1).
Proof.
  intros Hy Hys. split; [by apply core_lower, core_set_next|].
  assert (Hlv : low (lower v (idx t y) t1) v = low t v `min` idx t y).
  { unfold low at 1. simpl. by rewrite lookup_insert_eq. }
  assert (Hlow : ∀ x, x ≠ v → low (lower v (idx t y) t1) x = low t x).
  { intros x Hx. unfold low at 1. simpl. by rewrite lookup_insert_ne. }
  assert (Hle' : ∀ x, low (lower v (idx t y) t1) x ≤ low t x).
  { intros x. destruct (decide (x = v)) as [->|]; [rewrite Hlv; lia|by rewrite Hlow]. }
  split; simpl.
  - intros x z Hx He. destruct (explored_advance t v i rest Hc Hw y x z Hy He) as [He'|[-> ->]];
      [|by apply (c_seen _ Hc)].
    by apply (l_explored _ Hl x z).
  - intros w j Hin. destruct (decide (w = v)) as [->|Hwv].
    + rewrite Hlv. apply frame_elem in Hin as [j' Hin].
      destruct (l_witness _ Hl v j' Hin) as (u & Hu & Hlu & Hle & Hr).
      change (idx (lower v (idx t y) t1)) with (idx t).
      destruct (decide (low t v ≤ idx t y)).
      * exists u. split_and!; [done|lia|done|done].
      * exists y. split_and!; [done|lia|lia|]. apply rtc_once, E_kids. eauto.
    + rewrite Hlow by done. apply frame_elem in Hin as [j' Hin]. by apply (l_witness _ Hl w j').
  - intros w j x z Hin Hx Hle Hseg He Hz. change (idx (lower v (idx t y) t1)) with (idx t) in *.
    apply frame_elem in Hin as [j' Hin].
    destruct (explored_advance t v i rest Hc Hw y x z Hy He) as [He'|[-> ->]].
    + etrans; [apply Hle'|]. apply (l_min _ Hl w j' x z); [done|done|done| |done|done].
      intros v' i' [i'' Hv']%elem_frame. by apply Hseg with i''.
    + assert (w = v) as ->.
      { destruct (decide (idx t w < idx t v)) as [Hlt|Hge].
        - assert (idx t v < idx t v) by (apply (Hseg v (S i)); [by left|done]). lia.
        - rewrite Hw in Hin. apply elem_of_cons in Hin as [[= -> ->]|Hin]; [done|].
          apply (rest_below t v i rest Hc Hw) in Hin. lia. }
      rewrite Hlv. lia.
Qed.

(** The child is finished: nothing changes. *)
Lemma step_cross y :
  kids g v !! i = Some y → seen t y → y ∉ t_stack t → core t1 ∧ lowlinks t1.
Proof.
  intros Hy Hys Hyn. split; [by apply core_set_next|]. split; simpl.
  - intros x z Hx He. destruct (explored_advance t v i rest Hc Hw y x z Hy He) as [He'|[-> ->]]; [|done].
    by apply (l_explored _ Hl x z).
  - intros w j [j' Hin]%frame_elem. by apply (l_witness _ Hl w j').
  - intros w j x z [j' Hin]%frame_elem Hx Hle Hseg He Hz.
    destruct (explored_advance t v i rest Hc Hw y x z Hy He) as [He'|[-> ->]]; [|done].
    apply (l_min _ Hl w j' x z); [done|done|done| |done|done].
    intros v' i' [i'' Hv']%elem_frame. by apply Hseg with i''.
Qed.
End step.

(** ** Finishing a node *)

Lemma pop_component_spec v pre post comp :
  v ∉ pre → pop_component v (pre ++ v :: post) comp = (comp ++ pre ++ [v], post).
Proof.
  revert comp. induction pre as [|w pre IH]; intros comp Hv; simpl.
  { by rewrite decide_True. }
  apply not_elem_of_cons in Hv as [Hvw Hv]. rewrite decide_False by done.
  rewrite IH by done. by rewrite <-app_assoc.
Qed.

Lemma lower_low p n t x :
  low (lower p n t) x = if decide (x = p) then low t p `min` n else low t x.
Proof.
  unfold low at 1, lower. simpl. case_decide as Hx; [subst; by rewrite lookup_insert_eq|].
  by rewrite lookup_insert_ne.
Qed.

Lemma lowlinks_lower t p n : low t p ≤ n → lowlinks t → lowlinks (lower p n t).
Proof.
  intros Hn [He Hw Hm].
  assert (∀ x, low (lower p n t) x = low t x) as Hlow.
  { intros x. rewrite lower_low. case_decide; subst; lia. }
  split; [exact He| |]; setoid_rewrite Hlow; [exact Hw|exact Hm].
Qed.

Section finish.
Context (t : tarjan) (v : bytes) (i : nat) (rest : list (bytes * nat)).
Context (Hc : core t) (Hl : lowlinks t) (Hw : t_work t = (v, i) :: rest) (Hn : kids g v !! i = None).

Lemma v_work : (v, i) ∈ t_work t.
Proof. rewrite Hw. by left. Qed.

(** *** A node that reaches below itself *)

Lemma finish_retreat :
  low t v ≠ idx t v →
  ∃ p j rest', rest = (p, j) :: rest' ∧
    core (lower p (low t v) (set_work rest t)) ∧ lowlinks (lower p (low t v) (set_work rest t)).
Proof.
  intros Hlow.
  destruct (l_witness _ Hl v i v_work) as (u & Hu & Hlu & Hle & Hvu).
  destruct (c_down _ Hc u Hu) as (w0 & j0 & Hw0 & Hw0u & Huw0).
  assert ((w0, j0) ∈ rest) as Hw0r by (eapply work_rest; [done..|]; intros ->; lia).
  assert (∃ p j rest', rest = (p, j) :: rest') as (p & j & rest' & Hrest).
  { clear -Hw0r. destruct rest as [|[p j] rest']; [by apply elem_of_nil in Hw0r|by eauto]. }
  assert ((p, j) ∈ rest) as Hpr by (rewrite Hrest; by left).
  assert (Hps : p ∈ t_stack t) by (eapply (c_work_stack _ Hc); by eapply rest_work).
  pose proof (rest_below _ _ _ _ Hc Hw _ _ Hpr) as Hpv.
  exists p, j, rest'. split; [done|].
  assert (Hw' : StronglySorted (λ a b : bytes * nat, idx t b.1 < idx t a.1) rest)
    by (pose proof (c_work _ Hc) as Hs; rewrite Hw in Hs; by apply StronglySorted_inv in Hs as [? _]).
  split.
  - apply core_lower. split; simpl; try apply Hc; [done| |].
    + intros w k Hin. eapply (c_work_stack _ Hc). by eapply rest_work.
    + intros y Hy. destruct (c_down _ Hc y Hy) as (w & k & Hwk & Hwy & Hr).
      destruct (decide (w = v)) as [->|Hwv].
      * exists w0, j0. split_and!; [done| |]. { change (idx (set_work rest t)) with (idx t). lia. }
        etrans; [exact Hr|]. by etrans.
      * exists w, k. split_and!; [by eapply work_rest|done|done].
  - assert (Hex : ∀ x z, explored (set_work rest t) x z → explored t x z)
      by (intros x z; by apply (explored_finish t v i rest)).
    split; change (idx (lower p (low t v) (set_work rest t))) with (idx t); simpl.
    + intros x z Hx He. apply (l_explored _ Hl x z Hx). by apply Hex.
    + intros w k Hin. rewrite lower_low. change (low (set_work rest t)) with (low t).
      pose proof (rest_work _ _ _ _ Hw _ _ Hin) as Hin'.
      destruct (l_witness _ Hl w k Hin') as (u' & Hu' & Hlu' & Hle' & Hr').
      case_decide as Hwp; [subst w|by eauto].
      destruct (decide (low t p ≤ low t v)).
      * exists u'. split_and!; [done|lia|done|done].
      * exists u. split_and!; [done|lia|lia|]. etrans; [|exact Hvu].
        apply (c_up _ Hc); [done|by eapply top_stack|lia].
    + intros w k x z Hin Hx Hwx Hseg He%Hex Hz. rewrite lower_low.
      change (low (set_work rest t)) with (low t).
      pose proof (rest_work _ _ _ _ Hw _ _ Hin) as Hin'.
      assert (Hbelow : idx t x < idx t v → low t w ≤ idx t z).
      { intros Hxv. apply (l_min _ Hl w k x z); try done. intros v' k' Hv' Hwv'.
        destruct (decide (v' = v)) as [->|Hne]; [done|]. apply (Hseg v' k'); [|done].
        by eapply work_rest. }
      assert (Habove : idx t v ≤ idx t x → low t v ≤ idx t z).
      { intros Hvx. apply (l_min _ Hl v i x z); [apply v_work|done|done| |done|done].
        intros v' k' Hv' Hlt. pose proof (work_below _ _ _ _ Hc Hw _ _ Hv'). lia. }
      case_decide as Hwp; [subst w|].
      * destruct (decide (idx t x < idx t v)); [specialize (Hbelow ltac:(done))|specialize (Habove ltac:(lia))]; lia.
      * apply Hbelow. etrans; [|exact Hpv]. apply (Hseg p j); [done|].
        rewrite Hrest in Hin, Hw'. apply elem_of_cons in Hin as [[= -> ->]|Hin]; [done|].
        apply StronglySorted_inv in Hw' as [_ Hf]. eapply Forall_forall in Hf; [|done]. done.
Qed.

(** *** A component *)

Section component.
Context (Hlow : low t v = idx t v).
Context (pre post : list bytes) (Hst : t_stack t = pre ++ v :: post).

Lemma above_iff x : x ∈ pre ++ [v] ↔ x ∈ t_stack t ∧ idx t v ≤ idx t x.
Proof.
  pose proof (c_sorted _ Hc) as Hs. rewrite Hst in Hs |- *.
  apply StronglySorted_app in Hs as (Hpre & _ & Hpost).
  apply StronglySorted_inv in Hpost as [_ Hpost].
  rewrite !elem_of_app, !elem_of_cons, elem_of_nil. split.
  - intros [Hx|[->|[]]]; [|auto]. split; [by left|]. enough (idx t v < idx t x) by lia.
    apply Hpre; [done|by left].
  - intros [[?|[?|Hx]] Hle]; [by left|by right; left|]. eapply Forall_forall in Hpost; [|done]. lia.
Qed.

Lemma below_iff x : x ∈ post ↔ x ∈ t_stack t ∧ idx t x < idx t v.
Proof.
  split.
  - intros Hx. split; [rewrite Hst, elem_of_app, elem_of_cons; auto|].
    pose proof (c_sorted _ Hc) as Hs. rewrite Hst in Hs.
    apply StronglySorted_app in Hs as (_ & _ & Hpost).
    apply StronglySorted_inv in Hpost as [_ Hpost]. by eapply Forall_forall in Hpost.
  - intros [Hx Hlt]. rewrite Hst, cons_middle, app_assoc in Hx.
    apply elem_of_app in Hx as [Hx|?]; [|done]. apply above_iff in Hx. lia.
Qed.

Lemma above_edges x y : x ∈ pre ++ [v] → E x y → seen t y ∧ (y ∈ pre ++ [v] ∨ y ∉ t_stack t).
Proof.
  intros [Hx Hle]%above_iff Hxy. pose proof (above_explored t v i rest Hc Hw x y Hn Hx Hle Hxy) as He.
  split; [apply (l_explored _ Hl x y); [by apply (c_seen _ Hc)|done]|].
  destruct (decide (y ∈ t_stack t)) as [Hy|]; [left|by right].
  apply above_iff. split; [done|]. rewrite <-Hlow.
  apply (l_min _ Hl v i x y); [apply v_work|done|done| |done|done].
  intros v' k' Hv' Hlt. pose proof (work_below _ _ _ _ Hc Hw _ _ Hv'). lia.
Qed.

Lemma finished_closed x y : seen t x → x ∉ t_stack t → reach x y → seen t y ∧ y ∉ t_stack t.
Proof.
  intros Hx Hn' Hr. induction Hr as [x|x y z Hxy _ IH]; [done|].
  destruct (c_closed _ Hc x y Hx Hn' Hxy). by apply IH.
Qed.

(** The popped nodes are the strongly connected component of [v]. *)
Lemma component_iff y : y ∈ pre ++ [v] ↔ reach v y ∧ reach y v.
Proof.
  pose proof (top_stack _ _ _ _ Hc Hw) as Hv. split.
  - intros [Hy Hle]%above_iff. split; [by apply (c_up _ Hc)|by eapply (stack_reaches_top t v i rest)].
  - intros [Hvy Hyv].
    assert (∀ x, reach x y → x ∈ pre ++ [v] → y ∈ pre ++ [v] ∨ seen t y ∧ y ∉ t_stack t) as Hgo.
    { intros x. induction 1 as [x|x z y' Hxz Hzy IH]; intros Hx; [by left|].
      destruct (above_edges x z Hx Hxz) as [Hz [Hz'|Hz']]; [by apply IH|right].
      by eapply finished_closed. }
    destruct (Hgo v Hvy) as [?|[Hys Hyn]]; [apply elem_of_app; right; by left|done|].
    by destruct (finished_closed y v Hys Hyn Hyv).
Qed.

(** It is reported exactly when [v] lies on a cycle. *)
Lemma component_reported :
  (1 <? length (pre ++ [v])) || ((length (pre ++ [v]) =? 1) && existsb (λ d, bool_decide (d = v)) (kids g v)) =
    true ↔ tc E v v.
Proof.
  assert (Hself : existsb (λ d, bool_decide (d = v)) (kids g v) = true ↔ E v v).
  { rewrite existsb_exists. setoid_rewrite bool_decide_eq_true. unfold includes.
    setoid_rewrite <-list_elem_of_In. split; [by intros (x & ? & ->)|by eauto]. }
  rewrite orb_true_iff, andb_true_iff, Hself, Nat.ltb_lt, Nat.eqb_eq, length_app. simpl. split.
  - intros [Hlen|[_ ?]]; [|by apply tc_once].
    assert (∃ w pre', pre = w :: pre') as (w & pre' & Hpre).
    { clear -Hlen. destruct pre; simpl in Hlen; [lia|by eauto]. }
    assert (w ∈ pre ++ [v]) as Hin by (rewrite Hpre; by left).
    apply component_iff in Hin as [Hvw Hwv].
    assert (w ≠ v) as Hne.
    { intros ->. pose proof (c_sorted _ Hc) as Hs. rewrite Hst, Hpre in Hs.
      apply StronglySorted_inv in Hs as [_ Hs]. eapply Forall_forall in Hs; [|apply elem_of_app; right; by left].
      lia. }
    apply rtc_tc in Hvw as [?|Hvw]; [done|]. by eapply tc_rtc_r.
  - intros Hvv. inversion Hvv as [? ? Hs|? z ? Hvz Hzv]; subst.
    + destruct pre; simpl; [right; split; [lia|done]|left; lia].
    + assert (z ∈ pre ++ [v]) as Hz by (apply component_iff; split; [by apply rtc_once|by apply tc_rtc]).
      destruct pre; simpl; [|left; lia]. apply list_elem_of_singleton in Hz as ->.
      right. split; [lia|done].
Qed.

Abbreviation t' := (set_work rest (close_component g v t)).

Lemma close_eq :
  close_component g v t =
  Tarjan (t_index t) (t_lowlink t) (t_on_stack t ∖ list_to_set (pre ++ [v])) post
    (if (1 <? length (pre ++ [v])) ||
        ((length (pre ++ [v]) =? 1) && existsb (λ d, bool_decide (d = v)) (kids g v))
     then t_out t ++ [sort bytes_ltb (pre ++ [v])] else t_out t)
    (t_counter t) (t_work t).
Proof.
  unfold close_component. rewrite Hst, pop_component_spec; [done|].
  intros Hv. pose proof (c_sorted _ Hc) as Hs. rewrite Hst in Hs.
  apply StronglySorted_app in Hs as (Hs & _ & _). specialize (Hs v v Hv ltac:(by left)). lia.
Qed.

Lemma stack_nodup : NoDup (t_stack t).
Proof.
  pose proof (c_sorted _ Hc) as Hs. revert Hs. generalize (t_stack t) as l0. clear -t.
  intros l0 Hs. induction Hs as [|x l _ IH Hf]; constructor; [|done].
  intros Hx. eapply Forall_forall in Hf; [|done]. lia.
Qed.

Lemma component_sorted :
  StronglySorted bytes_lt (sort bytes_ltb (pre ++ [v])) ∧
  ∀ y, y ∈ sort bytes_ltb (pre ++ [v]) ↔ y ∈ pre ++ [v].
Proof.
  split; [|intros y; apply elem_of_sort].
  apply sorted_strict; [apply _|apply sort_sorted, _|]. rewrite (sort_perm bytes_ltb).
  pose proof stack_nodup as Hs. rewrite Hst, cons_middle, app_assoc in Hs.
  by apply NoDup_app in Hs as [? _].
Qed.

Lemma out_iff c :
  c ∈ t_out (close_component g v t) ↔ c ∈ t_out t ∨ tc E v v ∧ c = sort bytes_ltb (pre ++ [v]).
Proof.
  rewrite close_eq. simpl. rewrite <-component_reported. case_match.
  - rewrite elem_of_app, list_elem_of_singleton. tauto.
  - split; [by left|]. by intros [?|[? _]].
Qed.

Lemma finish_core : core t'.
Proof.
  pose proof out_iff as Hout. pose proof component_sorted as [Hcs Hci].
  assert (Hclosed : ∀ x, x ∉ post → x ∈ t_stack t → x ∈ pre ++ [v]).
  { intros x Hx Hin. apply above_iff. split; [done|]. destruct (decide (idx t x < idx t v)); [|lia].
    destruct Hx. by apply below_iff. }
  rewrite close_eq in Hout |- *. simpl in Hout.
  set (out' := if (1 <? length (pre ++ [v])) || _ then _ else _) in *.
  split; simpl; try apply Hc.
  - rewrite (c_on _ Hc), Hst, cons_middle, app_assoc. apply set_eq. intros x.
    rewrite elem_of_difference, !elem_of_list_to_set, elem_of_app.
    pose proof (above_iff x) as Ha. pose proof (below_iff x) as Hb.
    split; [tauto|]. intros Hx. split; [by right|]. intros [_ ?]%Ha. apply Hb in Hx as [_ ?]. lia.
  - intros x Hx. apply (c_seen _ Hc). by apply below_iff.
  - pose proof (c_sorted _ Hc) as Hs. rewrite Hst in Hs.
    apply StronglySorted_app in Hs as (_ & _ & Hs). by apply StronglySorted_inv in Hs as [? _].
  - pose proof (c_work _ Hc) as Hs. rewrite Hw in Hs. by apply StronglySorted_inv in Hs as [? _].
  - intros w k Hin. apply below_iff. split; [|by eapply rest_below].
    eapply (c_work_stack _ Hc). by eapply rest_work.
  - intros x y Hx Hxn Hxy. destruct (decide (x ∈ t_stack t)) as [Hin|Hin].
    + destruct (above_edges x y) as [Hy [Hy'|Hy']]; [by apply Hclosed|done| |].
      * split; [done|]. rewrite below_iff. apply above_iff in Hy'. lia.
      * split; [done|]. rewrite below_iff. tauto.
    + destruct (c_closed _ Hc x y) as [? Hy]; [done..|]. split; [done|]. rewrite below_iff. tauto.
  - intros x y [Hx _]%below_iff [Hy _]%below_iff. by apply (c_up _ Hc).
  - intros y [Hy Hlt]%below_iff. destruct (c_down _ Hc y Hy) as (w & k & Hwk & Hle & Hr).
    exists w, k. split_and!; [|done|done]. eapply work_rest; [done..|]. intros ->. lia.
  - intros c. rewrite Hout. intros [Hco|[Hvv ->]]; [by apply (c_out _ Hc)|].
    split; [done|]. exists v. split; [done|]. intros y. by rewrite Hci, component_iff.
  - intros c x. rewrite Hout, below_iff. intros [Hco|[_ ->]] Hx.
    + destruct (c_out_done _ Hc c x Hco Hx). tauto.
    + apply Hci, above_iff in Hx as [Hx Hle]. split; [by apply (c_seen _ Hc)|]. lia.
  - intros x Hx Hxn Hxx. setoid_rewrite Hout.
    destruct (decide (x ∈ t_stack t)) as [Hin|Hin].
    + pose proof (Hclosed x Hxn Hin) as Hcomp. exists (sort bytes_ltb (pre ++ [v])).
      split; [right; split; [|done]|by apply Hci]. apply component_iff in Hcomp as [Hvx Hxv].
      eapply tc_rtc_l; [exact Hvx|]. by eapply tc_rtc_r.
    + destruct (c_all _ Hc x Hx Hin Hxx) as (c & ? & ?). eauto.
  - unfold out'. case_match; [|apply Hc].
    apply NoDup_app. split_and!; [apply Hc| |apply NoDup_singleton].
    intros c Hco ->%list_elem_of_singleton. destruct (c_out_done _ Hc _ v Hco) as [_ []].
    + apply Hci. apply elem_of_app. right. by left.
    + by eapply top_stack.
Qed.

Lemma finish_lowlinks : lowlinks t'.
Proof.
  assert (Hex : ∀ x z, explored t' x z → explored t x z)
    by (intros x z; by apply (explored_finish t v i rest)).
  rewrite close_eq in Hex |- *. split; simpl.
  - intros x z Hx He. apply (l_explored _ Hl x z Hx). by apply Hex.
  - intros w k Hin. pose proof (rest_work _ _ _ _ Hw _ _ Hin) as Hin'.
    pose proof (rest_below _ _ _ _ Hc Hw _ _ Hin).
    destruct (l_witness _ Hl w k Hin') as (u & Hu & Hlu & Hle & Hr). exists u.
    rewrite below_iff. split_and!; [done|lia|done|done|done].
  - intros w k x z Hin. rewrite !below_iff. intros [Hx Hxv] Hwx Hseg He%Hex [Hz _].
    apply (l_min _ Hl w k x z); [by eapply rest_work|done|done| |done|done].
    intros v' k' Hv' Hlt. destruct (decide (v' = v)) as [->|Hne]; [done|].
    apply (Hseg v' k'); [by eapply work_rest|done].
Qed.
End component.
End finish.

(** ** The loop *)

(** A frame's cursor is within the children. *)
Definition frames_ok (t : tarjan) : Prop :=
  Forall (λ f : bytes * nat, f.2 ≤ length (kids g f.1)) (t_work t).

Record tinv (t : tarjan) : Prop := {
  ti_core : core t;
  ti_low : lowlinks t;
  ti_frames : frames_ok t
}.

(** What remains: one unit per child and one for the finish of each
    undiscovered node, and what is left of each frame. *)
Definition cost (x : bytes) : nat := S (length (kids g x)).
Definition unseen_cost (t : tarjan) : nat :=
  sum_list_with (λ x, if decide (is_Some (t_index t !! x)) then 0 else cost x) (universe g).
Definition frames_cost (w : list (bytes * nat)) : nat :=
  sum_list_with (λ f : bytes * nat, cost f.1 - f.2) w.
Definition measure (t : tarjan) : nat := unseen_cost t + frames_cost (t_work t).

Lemma sum_lower (f f' : bytes → nat) (l : list bytes) y n :
  (∀ x, f' x ≤ f x) → f' y + n ≤ f y → y ∈ l → sum_list_with f' l + n ≤ sum_list_with f l.
Proof.
  intros Hle Hy. induction l as [|x l IH]; simpl; intros Hin; [by apply elem_of_nil in Hin|].
  assert (sum_list_with f' l ≤ sum_list_with f l) as Hl.
  { clear -Hle. induction l as [|z l IH]; simpl; [done|]. pose proof (Hle z). lia. }
  apply elem_of_cons in Hin as [->|Hin]; [lia|]. specialize (IH Hin). pose proof (Hle x). lia.
Qed.

Lemma unseen_discover y t :
  t_index t !! y = None → y ∈ universe g → unseen_cost (discover y t) + cost y ≤ unseen_cost t.
Proof.
  intros Hy Hin. unfold unseen_cost. apply (sum_lower _ _ _ y); [|by simpl; rewrite lookup_insert_eq, Hy|done].
  intros x. simpl. destruct (decide (x = y)) as [->|Hx].
  - rewrite lookup_insert_eq. simpl. lia.
  - by rewrite lookup_insert_ne.
Qed.

Lemma unseen_cost_set_work t w : unseen_cost (set_work w t) = unseen_cost t.
Proof. done. Qed.

Lemma frames_cost_cons x i w : frames_cost ((x, i) :: w) = (cost x - i) + frames_cost w.
Proof. done. Qed.

Lemma close_fields v t :
  t_index (close_component g v t) = t_index t ∧ t_lowlink (close_component g v t) = t_lowlink t.
Proof. unfold close_component. by destruct (pop_component v (t_stack t) []). Qed.

(** The end of [v]'s iteration, with its two ways. *)
Lemma finish_inv t v i rest :
  core t → lowlinks t → t_work t = (v, i) :: rest → kids g v !! i = None →
  let t1 := set_work rest (if decide (low t v = idx t v) then close_component g v t else t) in
  let t' := match rest with [] => t1 | (p, _) :: _ => lower p (low t1 v) t1 end in
  core t' ∧ lowlinks t' ∧ t_index t' = t_index t ∧ t_work t' = rest.
Proof.
  intros Hc Hl Hw Hn. destruct (close_fields v t) as [Hci Hcl]. case_decide as Hlow; cbn zeta.
  - destruct (list_elem_of_split (t_stack t) v) as (pre & post & Hst); [by eapply top_stack|].
    pose proof (finish_core t v i rest Hc Hl Hw Hn Hlow pre post Hst) as Hc'.
    pose proof (finish_lowlinks t v i rest Hc Hl Hw Hn Hlow pre post Hst) as Hl'.
    destruct rest as [|[p j] rest']; [done|]. split_and!; [by apply core_lower| |done|done].
    apply lowlinks_lower; [|done].
    assert (∀ x, low (set_work ((p, j) :: rest') (close_component g v t)) x = low t x) as Hlx
      by (intros x; unfold low, set_work; simpl; by rewrite Hcl).
    rewrite !Hlx, Hlow.
    destruct (l_witness _ Hl p j) as (u & _ & -> & Hle & _); [rewrite Hw; right; by left|].
    etrans; [exact Hle|]. apply Nat.lt_le_incl. apply (rest_below t v i _ Hc Hw p j). by left.
  - destruct (finish_retreat t v i rest Hc Hl Hw Hn Hlow) as (p & j & rest' & -> & ? & ?). done.
Qed.

Lemma kids_universe v i y : kids g v !! i = Some y → y ∈ universe g.
Proof.
  intros Hy%list_elem_of_lookup_2. unfold universe. apply elem_of_app. right.
  apply (search_targets (out_ g) true v y Hy).
Qed.

Lemma tarjan_step_inv t t' :
  tinv t → tarjan_step g t = Some t' →
  tinv t' ∧ measure t' < measure t ∧ ∀ x, seen t x → seen t' x.
Proof.
  intros [Hc Hl Hf]. unfold tarjan_step. destruct (t_work t) as [|[v i] rest] eqn:Hw; [done|].
  unfold frames_ok in Hf. rewrite Hw in Hf. apply Forall_cons in Hf as [Hi Hf]. simpl in Hi.
  assert (measure t = unseen_cost t + (cost v - i + frames_cost rest)) as Hm
    by (unfold measure; by rewrite Hw).
  destruct (kids g v !! i) as [y|] eqn:Hy.
  - pose proof (lookup_lt_Some _ _ _ Hy) as Hlt.
    assert (frames_ok (set_work ((v, S i) :: rest) t)) as Hf' by (constructor; [simpl; lia|done]).
    assert (measure (set_work ((v, S i) :: rest) t) < measure t) as Hm'.
    { rewrite Hm. unfold measure, unseen_cost, frames_cost, cost. simpl. lia. }
    cbn [t_index set_work]. destruct (t_index t !! y) as [iy|] eqn:Hiy.
    + assert (idx t y = iy) as Hidy by (unfold idx; by rewrite Hiy).
      cbn [t_on_stack set_work]. rewrite (c_on _ Hc).
      case_decide as Hon; intros [= <-]; rewrite elem_of_list_to_set in Hon.
      * destruct (step_back t v i rest Hc Hl Hw y Hy Hon) as [? ?]. rewrite Hidy in *. by split_and!.
      * destruct (step_cross t v i rest Hc Hl Hw y Hy) as [? ?]; [by eexists|done|]. by split_and!.
    + intros [= <-]. destruct (step_discover t v i rest Hc Hl Hw y Hy Hiy) as [? ?].
      split_and!; [split; [done|done|]| |].
      * constructor; [simpl; lia|done].
      * pose proof (unseen_discover y (set_work ((v, S i) :: rest) t) Hiy (kids_universe _ _ _ Hy)) as Hu.
        rewrite (unseen_cost_set_work t) in Hu.
        unfold measure in Hm' |- *. cbn [t_work discover set_work] in Hm' |- *.
        rewrite (unseen_cost_set_work t) in Hm'. rewrite frames_cost_cons. lia.
      * intros x [j Hj]. unfold seen. simpl. rewrite lookup_insert_is_Some.
        destruct (decide (y = x)); [by left|right; split; [done|by eexists]].
  - pose proof (finish_inv t v i rest Hc Hl Hw Hy) as Hfin. cbn zeta in Hfin.
    intros Ht'. set (t1 := set_work rest _) in *.
    assert (core t' ∧ lowlinks t' ∧ t_index t' = t_index t ∧ t_work t' = rest) as (? & ? & Hix & Hwk).
    { destruct rest as [|[p j] rest']; by injection Ht' as <-. }
    split_and!; [split; [done|done|]| |].
    + unfold frames_ok. by rewrite Hwk.
    + rewrite Hm. unfold measure, unseen_cost. rewrite Hix, Hwk. unfold cost. lia.
    + intros x. unfold seen. by rewrite Hix.
Qed.

Lemma step_None t : tarjan_step g t = None → t_work t = [].
Proof.
  unfold tarjan_step. destruct (t_work t) as [|[v i] rest]; [done|].
  repeat case_match; done.
Qed.

(** A root starts with itself on the stack and no explored edge. *)
Lemma root_lowlinks r t :
  core t → lowlinks t → t_index t !! r = None → t_work t = [] → t_stack t = [] → lowlinks (discover r t).
Proof.
  intros Hc Hl Hr Hw Hst.
  destruct (discover_facts _ _ Hc Hr) as (Hidx & Hidy & Hlt & _ & Hseen & Hne).
  assert (Hey : ∀ z, ¬ explored (discover r t) r z).
  { intros z (j & _ & Hb). specialize (Hb 0). simpl in Hb.
    assert (j < 0) by (apply Hb; by left). lia. }
  split; simpl; rewrite ?Hw, ?Hst.
  - intros x z. rewrite !Hseen. intros [->|Hx] He; [by apply Hey in He|]. right.
    apply (l_explored _ Hl x z Hx). destruct He as (j & Hj & _). exists j. split; [done|].
    intros i. rewrite Hw. by intros ?%elem_of_nil.
  - intros v i [= -> ->]%list_elem_of_singleton. exists r. split_and!; [by left| |done|done].
    rewrite Hidy. unfold low. simpl. by rewrite lookup_insert_eq.
  - intros v i x z _ ->%list_elem_of_singleton _ _ He. by apply Hey in He.
Qed.

Lemma initial_inv : tinv (Tarjan ∅ ∅ ∅ [] [] 0 []).
Proof.
  split; [split|split|constructor]; simpl; unfold seen; simpl; try setoid_rewrite elem_of_nil;
    try setoid_rewrite lookup_empty; try setoid_rewrite is_Some_None; try done; try constructor.
Qed.

Lemma sum_list_with_le (f f' : bytes → nat) l :
  (∀ x, f x ≤ f' x) → sum_list_with f l ≤ sum_list_with f' l.
Proof. intros Hle. induction l as [|x l IH]; simpl; [done|]. pose proof (Hle x). lia. Qed.

Lemma tarjan_loop_total fuel t :
  tinv t → measure t ≤ fuel →
  ∃ t', tarjan_loop fuel g t = Some t' ∧ tinv t' ∧ t_work t' = [] ∧ ∀ x, seen t x → seen t' x.
Proof.
  revert t. induction fuel as [|fuel IH]; intros t Ht Hm; simpl;
    (destruct (tarjan_step g t) as [t'|] eqn:Hstep;
      [destruct (tarjan_step_inv t t' Ht Hstep) as (Ht' & Hlt & Hs)|]).
  - lia.
  - exists t. split_and!; [done|done|by apply step_None|done].
  - destruct (IH t' Ht') as (t'' & ? & ? & ? & ?); [lia|]. exists t''. split_and!; auto.
  - exists t. split_and!; [done|done|by apply step_None|done].
Qed.

Lemma idle_stack t : tinv t → t_work t = [] → t_stack t = [].
Proof.
  intros [Hc _ _] Hw. destruct (t_stack t) as [|x l] eqn:Hs; [done|].
  destruct (c_down _ Hc x) as (w & i & Hin & _); [rewrite Hs; by left|].
  rewrite Hw in Hin. by apply elem_of_nil in Hin.
Qed.

Lemma tarjan_roots_total roots t :
  tinv t → t_work t = [] → roots ⊆ universe g →
  ∃ t', tarjan_roots (cycles_fuel g) g roots t = Some t' ∧ tinv t' ∧ t_work t' = [] ∧
    (∀ x, seen t x ∨ x ∈ roots → seen t' x).
Proof.
  revert t. induction roots as [|r roots IH]; intros t Ht Hw Hr; simpl.
  { exists t. split_and!; [done..|]. intros x [?|Hx]; [done|]. by apply elem_of_nil in Hx. }
  assert (roots ⊆ universe g) as Hr' by (intros x Hx; apply Hr; by right).
  destruct (t_index t !! r) as [ir|] eqn:Hir.
  { destruct (IH t Ht Hw Hr') as (t' & ? & ? & ? & Hs). exists t'. split_and!; [done..|].
    intros x [?|[->|?]%elem_of_cons]; apply Hs; auto. left. by eexists. }
  pose proof (idle_stack t Ht Hw) as Hst. destruct Ht as [Hc Hl Hf].
  assert (tinv (discover r t)) as Ht'.
  { split; [| |constructor; [simpl; lia|done]].
    - apply core_discover; [done|done|]. rewrite Hst. by intros x Hx%elem_of_nil.
    - by apply root_lowlinks. }
  destruct (tarjan_loop_total (cycles_fuel g) (discover r t) Ht') as (t1 & -> & Ht1 & Hw1 & Hs1).
  { pose proof (unseen_discover r t Hir (Hr r ltac:(by left))) as Hu.
    unfold measure. cbn [t_work discover]. rewrite Hw, frames_cost_cons.
    assert (unseen_cost t ≤ cycles_fuel g); [|change (frames_cost []) with 0; lia].
    apply sum_list_with_le. intros x. case_decide; unfold cost; lia. }
  destruct (IH t1 Ht1 Hw1 Hr') as (t' & ? & ? & ? & Hs). exists t'. split_and!; [done..|].
  assert (∀ x, seen t x ∨ x = r → seen t1 x) as Hs2.
  { intros x Hx. apply Hs1. unfold seen. simpl. rewrite lookup_insert_is_Some.
    destruct (decide (r = x)); [by left|right; split; [done|]]. destruct Hx; [done|congruence]. }
  intros x [?|[->|?]%elem_of_cons]; apply Hs; auto.
Qed.
End cycles.

(** ** Property *)

Lemma component_unique g c c' x :
  cycle_component g c → cycle_component g c' → x ∈ c → x ∈ c' → c = c'.
Proof.
  intros [Hs (r & _ & Hc)] [Hs' (r' & _ & Hc')] [Hrx Hxr]%Hc [Hrx' Hxr']%Hc'.
  apply (strict_unique bytes_ltb); [done|done|]. intros y. rewrite Hc, Hc'.
  assert (rtc (includes g) r r' ∧ rtc (includes g) r' r) as [??] by (split; by etrans).
  split; intros [??]; split; by etrans.
Qed.

(** C32: [cycles] ends, and the components it reports are exactly the include
    cycles: in order and without repetition, the sorted strongly connected
    components of the nodes that lie on a cycle (so the components of more than
    one file and the files that include themselves). *)
Theorem cycles_exact g :
  ∃ cs, cycles g = Some cs ∧
    StronglySorted (λ a b, lex_ltb bytes_ltb a b = true) cs ∧
    ∀ c, c ∈ cs ↔ StronglySorted bytes_lt c ∧
      ∃ x, tc (includes g) x x ∧
        ∀ y, y ∈ c ↔ rtc (includes g) x y ∧ rtc (includes g) y x.
Proof.
  destruct (tarjan_roots_total g (nodes g) (Tarjan ∅ ∅ ∅ [] [] 0 [])) as (t & E & Ht & Hw & Hs).
  { apply initial_inv. }
  { done. }
  { intros x Hx. apply elem_of_app. by left. }
  unfold cycles. rewrite E. simpl. eexists. split; [done|].
  pose proof (idle_stack g t Ht Hw) as Hst. destruct Ht as [Hc _ _]. split.
  { apply sorted_strict; [apply _|apply sort_sorted, _|].
    rewrite (sort_perm (lex_ltb bytes_ltb)). apply Hc. }
  intros c. rewrite elem_of_sort by apply _. split; [apply (c_out _ _ Hc)|]. intros Hcc.
  pose proof Hcc as [_ (x & Hx & Hin)].
  destruct (c_all _ _ Hc x) as (c' & Hc' & Hxc'); [|by rewrite Hst; apply not_elem_of_nil|done|].
  { apply Hs. right. apply has_node_nodes. unfold has_node. apply orb_true_iff. left.
    apply bool_decide_eq_true.
    assert (∃ y, includes g x y) as [y Hy] by (inversion Hx; eauto).
    unfold includes, direct_from in Hy. by destruct (out_ g !! x); [|apply elem_of_nil in Hy]. }
  assert (c = c') as ->; [|done].
  apply (component_unique g c c' x); [done|by apply (c_out _ _ Hc)|by apply Hin|done].
Qed.
