(* ===== verification/Transforms.v ===== *)
(** * The transform registry: [src/src/storage/transforms.cpp]

    Named derived-fact transforms: registration, the validation of the whole
    registry (declarations, fact producers, schemas, dependency cycles) and the
    dependency order they run in.  [int] and [int64] fields are [Z]: they are
    compared and printed, never computed with. *)

From S2P Require Export Bytes Reach.

(** ** Data *)

Inductive TransformRunStatus : Type := run_reused | run_ran | run_skipped | run_failed | run_stale.
Inductive TransformExecutionMode : Type := mode_full | mode_incremental.
Inductive TransformInputKind : Type :=
| in_source | in_catalog | in_schema | in_applicability | in_configuration | in_pass | in_package
| in_model | in_implementation.
Inductive TransformApplicability : Type := applicable | inapplicable.
Inductive TransformCompleteness : Type := tc_complete | tc_partial | tc_pending.
Inductive TransformPublicationRule : Type := atomic_generation | preserve_previous_on_failure.

#[export] Instance TransformInputKind_eq_dec : EqDecision TransformInputKind.
Proof. solve_decision. Defined.
#[export] Instance TransformPublicationRule_eq_dec : EqDecision TransformPublicationRule.
Proof. solve_decision. Defined.

Record TransformInvalidationInput := InvalidationInput {
  inv_name : bytes;
  inv_kind : TransformInputKind;
  inv_provider_id : bytes;
  inv_value_query : bytes;
  inv_static_value : bytes
}.

Record TransformBudget := Budget { max_rows : Z; max_milliseconds : Z }.

Record TransformImplementationProvider := ImplementationProvider {
  impl_provider_id : bytes;
  impl_version : Z;
  impl_content : bytes
}.

Record TransformSourceFact := SourceFact {
  sf_name : bytes;
  sf_schema_version : Z;
  sf_catalog : bytes
}.

Record TransformFactSetRequirement := FactSetRequirement {
  req_name : bytes;
  req_facts : list bytes;
  req_schema_version : Z;
  req_catalog : bytes;
  req_required : bool
}.

Record TransformDescriptor := Descriptor {
  id : bytes;
  version : Z;
  input_facts : list bytes;
  produced_facts : list bytes;
  dependencies : list bytes;
  invalidation_keys : list bytes;
  options : list bytes;
  input_queries : list bytes;
  output_queries : list bytes;
  output_count_query : bytes;
  invalidation_inputs : list TransformInvalidationInput;
  applicability : TransformApplicability;
  completeness : TransformCompleteness;
  publication_rule : TransformPublicationRule;
  budget : TransformBudget;
  fact_set_requirements : list TransformFactSetRequirement;
  input_schema_version : Z;
  output_schema_version : Z;
  input_catalog : bytes;
  output_catalog : bytes;
  implementation_provider : TransformImplementationProvider;
  supports_incremental : bool
}.

Record TransformRegistry := Registry {
  source_facts_ : list TransformSourceFact;
  descriptors_ : list TransformDescriptor
}.

Definition transform_run_status_name (status : TransformRunStatus) : bytes :=
  match status with
  | run_reused => bs "reused"
  | run_ran => bs "ran"
  | run_skipped => bs "skipped"
  | run_failed => bs "failed"
  | run_stale => bs "stale"
  end.

Definition transform_execution_mode_name (mode : TransformExecutionMode) : bytes :=
  match mode with mode_incremental => bs "incremental" | mode_full => bs "full" end.

Definition transform_input_kind_name (kind : TransformInputKind) : bytes :=
  match kind with
  | in_source => bs "source"
  | in_catalog => bs "catalog"
  | in_schema => bs "schema"
  | in_applicability => bs "applicability"
  | in_configuration => bs "configuration"
  | in_pass => bs "pass"
  | in_package => bs "package"
  | in_model => bs "model"
  | in_implementation => bs "implementation"
  end.

Definition transform_applicability_name (a : TransformApplicability) : bytes :=
  match a with applicable => bs "applicable" | inapplicable => bs "inapplicable" end.

Definition transform_completeness_name (c : TransformCompleteness) : bytes :=
  match c with
  | tc_complete => bs "complete" | tc_partial => bs "partial" | tc_pending => bs "pending"
  end.

(** ** Registration *)

Definition is_empty {A} (l : list A) : bool := match l with [] => true | _ => false end.

Definition register_source_fact (r : TransformRegistry) (f : TransformSourceFact) :
    result TransformRegistry :=
  let! _ := throw_if
    (is_empty (sf_name f) || (sf_schema_version f <? 1)%Z || is_empty (sf_catalog f) ||
     existsb (λ c, bool_decide (sf_name c = sf_name f)) (source_facts_ r))
    (bs "invalid or duplicate source fact: " ++ sf_name f) in
  Ok (Registry (source_facts_ r ++ [f]) (descriptors_ r)).

(** [std::ranges::find(descriptors_, id, &TransformDescriptor::id)]. *)
Fixpoint find_in (ds : list TransformDescriptor) (i : bytes) : option TransformDescriptor :=
  match ds with
  | [] => None
  | d :: ds => if decide (id d = i) then Some d else find_in ds i
  end.

Definition find (r : TransformRegistry) (i : bytes) : option TransformDescriptor :=
  find_in (descriptors_ r) i.

Definition register_transform (r : TransformRegistry) (d : TransformDescriptor) :
    result TransformRegistry :=
  let! _ := throw_if (is_empty (id d)) (bs "transform id must not be empty") in
  let! _ := throw_if (bool_decide (is_Some (find r (id d))))
              (bs "duplicate transform id: " ++ id d) in
  Ok (Registry (source_facts_ r) (descriptors_ r ++ [d])).

(** The update of one descriptor. *)
Definition with_version (v : Z) (d : TransformDescriptor) : TransformDescriptor :=
  let p := implementation_provider d in
  let update (input : TransformInvalidationInput) :=
    if decide (inv_kind input = in_implementation)
    then InvalidationInput (inv_name input) (inv_kind input) (impl_provider_id p)
           (inv_value_query input)
           (impl_provider_id p ++ bs "|" ++ to_string v ++ bs "|" ++ impl_content p)
    else input in
  Descriptor (id d) (version d) (input_facts d) (produced_facts d) (dependencies d)
    (invalidation_keys d) (options d) (input_queries d) (output_queries d) (output_count_query d)
    (update <$> invalidation_inputs d) (applicability d) (completeness d) (publication_rule d)
    (budget d) (fact_set_requirements d) (input_schema_version d) (output_schema_version d)
    (input_catalog d) (output_catalog d)
    (ImplementationProvider (impl_provider_id p) v (impl_content p)) (supports_incremental d).

Fixpoint update_first (i : bytes) (f : TransformDescriptor → TransformDescriptor)
    (ds : list TransformDescriptor) : list TransformDescriptor :=
  match ds with
  | [] => []
  | d :: ds => if decide (id d = i) then f d :: ds else d :: update_first i f ds
  end.

Definition set_implementation_version (r : TransformRegistry) (i : bytes) (v : Z) :
    result TransformRegistry :=
  let! _ := throw_if (v <? 1)%Z
              (bs "implementation provider version must be positive: " ++ i) in
  match find r i with
  | None => throw (bs "unknown transform implementation provider: " ++ i)
  | Some _ =>
      Ok (Registry (source_facts_ r) (update_first i (with_version v) (descriptors_ r)))
  end.

(** ** Validation *)

Definition arrow : bytes := bs " -> ".

(** [if (name.empty() || !seen.insert(name).second) throw msg]. *)
Definition insert_named (msg : bytes) (seen : gset bytes) (name : bytes) : result (gset bytes) :=
  let! _ := throw_if (is_empty name || bool_decide (name ∈ seen)) msg in
  Ok ({[name]} ∪ seen).

(** The checks of one descriptor that look at its own fields only. *)
Definition check_fields (d : TransformDescriptor) : result unit :=
  let! _ := throw_if (version d <? 1)%Z (bs "transform version must be positive: " ++ id d) in
  let! _ := throw_if (is_empty (input_facts d) || is_empty (produced_facts d))
              (bs "transform facts must be declared: " ++ id d) in
  let! _ := throw_if (is_empty (options d) ||
                negb (bool_decide (bs "deterministic-sql-v1" ∈ options d)))
              (bs "transform must declare deterministic options: " ++ id d) in
  let! _ := throw_if ((max_rows (budget d) <? 0)%Z || (max_milliseconds (budget d) <? 0)%Z)
              (bs "transform budget must be non-negative: " ++ id d) in
  let! _ := throw_if (is_empty (input_queries d) || is_empty (output_queries d) ||
                is_empty (output_count_query d))
              (bs "transform identities must be declared: " ++ id d) in
  let! _ := throw_if ((input_schema_version d <? 1)%Z || (output_schema_version d <? 1)%Z ||
                is_empty (input_catalog d) || is_empty (output_catalog d))
              (bs "transform fact schema/catalog is invalid: " ++ id d) in
  throw_if (is_empty (impl_provider_id (implementation_provider d)) ||
      (impl_version (implementation_provider d) <? 1)%Z ||
      is_empty (impl_content (implementation_provider d)))
    (bs "transform implementation provider is invalid: " ++ id d).

(** One fact-set requirement, with the names declared so far. *)
Definition check_requirement (d : TransformDescriptor) (declared : gset bytes)
    (q : TransformFactSetRequirement) : result (gset bytes) :=
  let! _ := throw_if (is_empty (req_name q) || is_empty (req_facts q) ||
                (req_schema_version q <? 1)%Z || is_empty (req_catalog q) ||
                bool_decide (req_name q ∈ declared))
              (bs "invalid produced fact-set declaration: " ++ id d) in
  let! _ := foldR (insert_named (bs "duplicate fact-set member: " ++ id d ++ arrow ++ req_name q))
              ∅ (req_facts q) in
  Ok ({[req_name q]} ∪ declared).

(** One produced fact: it has no producer yet, and a requirement of its name. *)
Definition check_produced (d : TransformDescriptor) (declared : gset bytes)
    (producers : gmap bytes bytes) (fact : bytes) : result (gmap bytes bytes) :=
  let! _ := throw_if (is_empty fact || bool_decide (is_Some (producers !! fact)))
              (bs "duplicate produced fact: " ++ fact) in
  let! _ := throw_if (negb (bool_decide (fact ∈ declared)))
              (bs "produced fact-set is not registered: " ++ id d ++ arrow ++ fact) in
  Ok (<[fact := id d]> producers).

Definition check_member (d : TransformDescriptor) (producers : gmap bytes bytes)
    (q : TransformFactSetRequirement) (fact : bytes) : result unit :=
  let! _ := throw_if (negb (bool_decide (producers !! fact = Some (id d))))
              (bs "fact-set member is not produced by its declared provider: " ++
               id d ++ arrow ++ fact) in
  throw_if (negb (bool_decide (req_schema_version q = output_schema_version d)) ||
      negb (bool_decide (req_catalog q = output_catalog d)))
    (bs "produced fact-set schema mismatch: " ++ id d ++ arrow ++ req_name q).

Definition check_input (d : TransformDescriptor) (typed_keys : gset bytes)
    (input : TransformInvalidationInput) : result (gset bytes) :=
  let! typed_keys := insert_named (bs "invalid typed invalidation input: " ++ id d) typed_keys
                       (inv_name input) in
  let! _ := throw_if (is_empty (inv_provider_id input) ||
                (is_empty (inv_value_query input) && is_empty (inv_static_value input)))
              (bs "invalidation input has no provider: " ++ id d ++ arrow ++ inv_name input) in
  Ok typed_keys.

Definition check_invalidation (d : TransformDescriptor) : result unit :=
  let! typed_keys := foldR (check_input d) ∅ (invalidation_inputs d) in
  let! _ := throw_if
    (negb (bool_decide (publication_rule d = preserve_previous_on_failure)) &&
     negb (bool_decide (publication_rule d = atomic_generation)))
    (bs "invalid publication rule: " ++ id d) in
  let keys := (list_to_set (invalidation_keys d) : gset bytes) in
  let! _ := throw_if (negb (size keys =? length (invalidation_keys d)))
              (bs "duplicate invalidation key: " ++ id d) in
  let! _ := throw_if (negb (size keys =? length (invalidation_inputs d)))
              (bs "typed invalidation inputs do not match keys: " ++ id d) in
  foldR (λ _ key, throw_if (negb (bool_decide (key ∈ typed_keys)))
           (bs "invalidation key has no typed provider: " ++ id d ++ arrow ++ key))
    tt (set_list keys).

Definition check_dependency (r : TransformRegistry) (d : TransformDescriptor) (_ : unit)
    (dependency : bytes) : result unit :=
  throw_if (bool_decide (dependency = id d) || negb (bool_decide (is_Some (find r dependency))))
    (bs "undeclared transform dependency: " ++ id d ++ arrow ++ dependency).

(** The body of the first loop of [validate]: the producers known after [d]. *)
Definition check_descriptor (r : TransformRegistry) (producers : gmap bytes bytes)
    (d : TransformDescriptor) : result (gmap bytes bytes) :=
  let! _ := check_fields d in
  let! _ := foldR (insert_named (bs "duplicate input fact: " ++ id d)) ∅ (input_facts d) in
  let! declared := foldR (check_requirement d) ∅ (fact_set_requirements d) in
  let! producers := foldR (check_produced d declared) producers (produced_facts d) in
  let! _ := foldR (λ _ q, foldR (λ _, check_member d producers q) tt (req_facts q)) tt
              (fact_set_requirements d) in
  let! _ := check_invalidation d in
  let! _ := foldR (check_dependency r d) tt (dependencies d) in
  Ok producers.

Fixpoint find_source (fs : list TransformSourceFact) (name : bytes) : option TransformSourceFact :=
  match fs with
  | [] => None
  | f :: fs => if decide (sf_name f = name) then Some f else find_source fs name
  end.

Fixpoint find_requirement (qs : list TransformFactSetRequirement) (name : bytes) :
    option TransformFactSetRequirement :=
  match qs with
  | [] => None
  | q :: qs => if decide (req_name q = name) then Some q else find_requirement qs name
  end.

(** One input fact of the second loop.  The producer is a registered transform,
    so [find] of it is not null. *)
Definition check_input_fact (r : TransformRegistry) (producers : gmap bytes bytes)
    (d : TransformDescriptor) (fact : bytes) : result unit :=
  match producers !! fact with
  | None =>
      match find_source (source_facts_ r) fact with
      | None => throw (bs "undeclared input fact: " ++ id d ++ arrow ++ fact)
      | Some source =>
          throw_if (negb (bool_decide (sf_schema_version source = input_schema_version d)) ||
              negb (bool_decide (sf_catalog source = input_catalog d)))
            (bs "incompatible source fact schema: " ++ id d ++ arrow ++ fact)
      end
  | Some producer =>
      let! _ := throw_if (negb (bool_decide (producer ∈ dependencies d)))
                  (bs "missing fact dependency: " ++ id d ++ arrow ++ producer) in
      throw_if
        (match find r producer ≫= λ p, find_requirement (fact_set_requirements p) fact with
         | None => true
         | Some q => negb (bool_decide (req_schema_version q = input_schema_version d)) ||
                     negb (bool_decide (req_catalog q = input_catalog d))
         end)
        (bs "incompatible fact-set schema: " ++ id d ++ arrow ++ fact)
  end.

(** Everything [validate] checks before its depth-first search. *)
Definition check_declarations (r : TransformRegistry) : result unit :=
  let! producers := foldR (check_descriptor r) ∅ (descriptors_ r) in
  foldR (λ _ d, foldR (λ _, check_input_fact r producers d) tt (input_facts d)) tt (descriptors_ r).

(** [for (dependency : descriptor.dependencies) visit( *find(dependency))]. *)
Fixpoint mark_deps (r : TransformRegistry)
    (visit : TransformDescriptor → gmap bytes nat → option (result (gmap bytes nat)))
    (deps : list bytes) (marks : gmap bytes nat) : option (result (gmap bytes nat)) :=
  match deps with
  | [] => Some (Ok marks)
  | dep :: deps =>
      match find r dep with
      | None => None
      | Some e =>
          match visit e marks with
          | Some (Ok marks) => mark_deps r visit deps marks
          | stop => stop
          end
      end
  end.

(** The recursive [visit] of [validate].  [None] is undefined behaviour of the
    source (the dereference of a null [find]) or an exhausted fuel;
    [visit_marks_total] excludes both. *)
Fixpoint visit_marks (r : TransformRegistry) (fuel : nat) (d : TransformDescriptor)
    (marks : gmap bytes nat) : option (result (gmap bytes nat)) :=
  match fuel with
  | O => None
  | S fuel =>
      match default 0 (marks !! id d) with
      | 1 => Some (throw (bs "transform dependency cycle at: " ++ id d))
      | 2 => Some (Ok marks)
      | _ =>
          match mark_deps r (visit_marks r fuel) (dependencies d) (<[id d := 1]> marks) with
          | Some (Ok marks) => Some (Ok (<[id d := 2]> marks))
          | stop => stop
          end
      end
  end.

(** A visit of each descriptor in order. *)
Fixpoint visit_all_marks (r : TransformRegistry) (fuel : nat) (ds : list TransformDescriptor)
    (marks : gmap bytes nat) : option (result (gmap bytes nat)) :=
  match ds with
  | [] => Some (Ok marks)
  | d :: ds =>
      match visit_marks r fuel d marks with
      | Some (Ok marks) => visit_all_marks r fuel ds marks
      | stop => stop
      end
  end.

(** The recursion is no deeper than a path of distinct transforms and the node
    that closes a cycle. *)
Definition visit_fuel (r : TransformRegistry) : nat := S (length (descriptors_ r)).

Definition validate (r : TransformRegistry) : option (result unit) :=
  match check_declarations r with
  | Err e => Some (Err e)
  | Ok _ =>
      match visit_all_marks r (visit_fuel r) (descriptors_ r) ∅ with
      | None => None
      | Some (Err e) => Some (Err e)
      | Some (Ok _) => Some (Ok tt)
      end
  end.

Abbreviation order_state := (gset bytes * list TransformDescriptor)%type.

Fixpoint order_deps (r : TransformRegistry)
    (visit : TransformDescriptor → order_state → option order_state)
    (deps : list bytes) (st : order_state) : option order_state :=
  match deps with
  | [] => Some st
  | dep :: deps =>
      match find r dep with
      | None => None
      | Some e =>
          match visit e st with
          | Some st => order_deps r visit deps st
          | None => None
          end
      end
  end.

(** The recursive [visit] of [execution_order]. *)
Fixpoint visit_order (r : TransformRegistry) (fuel : nat) (d : TransformDescriptor)
    (st : order_state) : option order_state :=
  match fuel with
  | O => None
  | S fuel =>
      let '(visited, ordered) := st in
      if decide (id d ∈ visited) then Some st
      else
        match order_deps r (visit_order r fuel) (dependencies d) ({[id d]} ∪ visited, ordered) with
        | Some (visited, ordered) => Some (visited, ordered ++ [d])
        | None => None
        end
  end.

Fixpoint visit_all_order (r : TransformRegistry) (fuel : nat) (ds : list TransformDescriptor)
    (st : order_state) : option order_state :=
  match ds with
  | [] => Some st
  | d :: ds =>
      match visit_order r fuel d st with
      | Some st => visit_all_order r fuel ds st
      | None => None
      end
  end.

Definition execution_order (r : TransformRegistry) : option (result (list TransformDescriptor)) :=
  match validate r with
  | None => None
  | Some (Err e) => Some (Err e)
  | Some (Ok _) =>
      match visit_all_order r (visit_fuel r) (descriptors_ r) (∅, []) with
      | None => None
      | Some (_, ordered) => Some (Ok ordered)
      end
  end.

(** ** Registries *)

(** The registries the operations can produce. *)
Inductive built : TransformRegistry → Prop :=
| built_empty : built (Registry [] [])
| built_source r f r' : built r → register_source_fact r f = Ok r' → built r'
| built_transform r d r' : built r → register_transform r d = Ok r' → built r'
| built_version r i v r' : built r → set_implementation_version r i v = Ok r' → built r'.

Lemma find_in_None ds i : find_in ds i = None ↔ i ∉ id <$> ds.
Proof.
  induction ds as [|d ds IH]; simpl; [split; [intros _; apply not_elem_of_nil|done]|].
  rewrite not_elem_of_cons, <-IH. case_decide; naive_solver.
Qed.

Lemma find_in_Some ds i d : find_in ds i = Some d → d ∈ ds ∧ id d = i.
Proof.
  induction ds as [|e ds IH]; simpl; [done|]. case_decide as He.
  - intros [= ->]. split; [by left|done].
  - intros [? ?]%IH. split; [by right|done].
Qed.

Lemma find_in_elem ds d : NoDup (id <$> ds) → d ∈ ds → find_in ds (id d) = Some d.
Proof.
  induction ds as [|e ds IH]; intros Hnd Hd; [by apply elem_of_nil in Hd|].
  apply NoDup_cons in Hnd as [He Hnd]. simpl. apply elem_of_cons in Hd as [->|Hd]; [by rewrite decide_True|].
  rewrite decide_False; [by apply IH|]. intros Heq. destruct He. rewrite Heq. by apply list_elem_of_fmap_2.
Qed.

Lemma update_first_ids i v ds : id <$> update_first i (with_version v) ds = id <$> ds.
Proof. induction ds as [|d ds IH]; csimpl; [done|]. case_decide; csimpl; [done|by rewrite IH]. Qed.

Lemma built_ids r : built r → NoDup (id <$> descriptors_ r).
Proof.
  induction 1 as [|r f r' _ IH E|r d r' _ IH E|r i v r' _ IH E]; [constructor|..].
  - unfold register_source_fact in E. ok_inv. done.
  - unfold register_transform in E. ok_inv. simpl. rewrite fmap_app. apply NoDup_app.
    split_and!; [done| |apply NoDup_singleton]. intros x Hx ->%list_elem_of_singleton.
    bool_split. by match goal with H : ¬ is_Some _ |- _ => apply eq_None_not_Some, find_in_None in H end.
  - unfold set_implementation_version in E. ok_inv. destruct (find r i); simplify_eq. simpl.
    by rewrite update_first_ids.
Qed.

(** ** The depth-first searches *)

Section dfs.
Context (r : TransformRegistry).

(** Transform [x] names [y] as a dependency. *)
Definition depends (x y : bytes) : Prop := ∃ d, find r x = Some d ∧ y ∈ dependencies d.
Definition declared_deps : Prop :=
  ∀ d dep, d ∈ descriptors_ r → dep ∈ dependencies d → is_Some (find r dep).

Abbreviation ids l := (id <$> (l : list TransformDescriptor)).

Definition mark (m : gmap bytes nat) (x : bytes) : nat := default 0 (m !! x).

(** Every transform comes after its dependencies. *)
Inductive topo : list TransformDescriptor → Prop :=
| topo_nil : topo []
| topo_snoc l d : topo l → find r (id d) = Some d → id d ∉ ids l →
    (∀ y, y ∈ dependencies d → y ∈ ids l) → topo (l ++ [d]).

(** The two searches in step: visited is marked, ordered is finished. *)
Record in_step (m : gmap bytes nat) (st : order_state) : Prop := {
  is_visited x : x ∈ st.1 ↔ mark m x = 1 ∨ mark m x = 2;
  is_ordered x : x ∈ ids st.2 ↔ mark m x = 2;
  is_topo : topo st.2
}.

(** What a search changes: the grey marks are restored, the black ones stay. *)
Record grows (m m' : gmap bytes nat) : Prop := {
  gr_grey x : mark m' x = 1 ↔ mark m x = 1;
  gr_black x : mark m x = 2 → mark m' x = 2
}.

#[local] Instance grows_preorder : PreOrder grows.
Proof.
  split; [by split|]. intros m1 m2 m3 [Hg Hb] [Hg' Hb']. split; intros x.
  - by rewrite Hg'.
  - auto.
Qed.

Lemma mark_insert m x y n : mark (<[x := n]> m) y = if decide (y = x) then n else mark m y.
Proof.
  unfold mark. case_decide as Hy; [subst; by rewrite lookup_insert_eq|by rewrite lookup_insert_ne].
Qed.

Lemma find_known i d : find r i = Some d → id d = i ∧ d ∈ descriptors_ r ∧ find r (id d) = Some d.
Proof. intros Hd. destruct (find_in_Some _ _ _ Hd) as [? <-]. done. Qed.

Lemma deps_in_step fuel
  (IH : ∀ d m m' st, find r (id d) = Some d → visit_marks r fuel d m = Some (Ok m') → in_step m st →
    ∃ st', visit_order r fuel d st = Some st' ∧ in_step m' st' ∧ grows m m' ∧ mark m' (id d) = 2)
  deps m m' st :
  mark_deps r (visit_marks r fuel) deps m = Some (Ok m') → in_step m st →
  ∃ st', order_deps r (visit_order r fuel) deps st = Some st' ∧ in_step m' st' ∧ grows m m' ∧
    ∀ y, y ∈ deps → mark m' y = 2.
Proof.
  revert m st. induction deps as [|dep deps IHd]; intros m st; simpl.
  { intros [= ->] Hst. exists st. split_and!; [done|done|done|]. intros y Hy. by apply elem_of_nil in Hy. }
  destruct (find r dep) as [e|] eqn:He; [|done].
  destruct (visit_marks r fuel e m) as [[m1|]|] eqn:Hv; [|done..]. intros Hgo Hst.
  destruct (find_known _ _ He) as (Hid & _ & Hk).
  destruct (IH e m m1 st Hk Hv Hst) as (st1 & -> & Hst1 & Hg1 & Hb1).
  destruct (IHd m1 st1 Hgo Hst1) as (st' & -> & Hst' & Hg' & Hb').
  exists st'. split_and!; [done|done|by etrans|].
  intros y [->|Hy]%elem_of_cons; [|by apply Hb']. apply Hg'. by rewrite <-Hid.
Qed.

(** Where the search of [validate] succeeds, that of [execution_order] does, in
    step with it. *)
Lemma visit_in_step fuel d m m' st :
  find r (id d) = Some d → visit_marks r fuel d m = Some (Ok m') → in_step m st →
  ∃ st', visit_order r fuel d st = Some st' ∧ in_step m' st' ∧ grows m m' ∧ mark m' (id d) = 2.
Proof.
  revert d m m' st. induction fuel as [|fuel IH]; intros d m m' [vis ord] Hk Hv Hst; [done|].
  simpl in Hv |- *. fold (mark m (id d)) in Hv.
  pose proof (is_visited _ _ Hst (id d)) as Hvis. pose proof (is_ordered _ _ Hst (id d)) as Hord.
  simpl in Hvis, Hord.
  destruct (decide (mark m (id d) = 2)) as [H2|H2].
  { rewrite H2 in Hv. injection Hv as <-. rewrite decide_True by (apply Hvis; by right).
    exists (vis, ord). by split_and!. }
  destruct (decide (mark m (id d) = 1)) as [H1|H1]; [by rewrite H1 in Hv|].
  rewrite decide_False by tauto.
  destruct (mark_deps r (visit_marks r fuel) (dependencies d) (<[id d:=1]> m)) as [[m1|]|] eqn:Hm;
    [|by repeat case_match..].
  assert (m' = <[id d := 2]> m1) as -> by (repeat case_match; congruence).
  destruct (deps_in_step fuel IH _ _ _ ({[id d]} ∪ vis, ord) Hm) as ([vis1 ord1] & -> & Hst1 & Hg1 & Hb1).
  { split; simpl; [| |apply Hst].
    - intros x. rewrite mark_insert, elem_of_union, elem_of_singleton, (is_visited _ _ Hst).
      case_decide; naive_solver.
    - intros x. rewrite mark_insert, (is_ordered _ _ Hst). case_decide; [subst|done]. simpl. naive_solver. }
  assert (mark m1 (id d) = 1) as Hd1.
  { apply (gr_grey _ _ Hg1). rewrite mark_insert. by rewrite decide_True. }
  exists (vis1, ord1 ++ [d]). split_and!; [done| | |by rewrite mark_insert, decide_True].
  - split; simpl.
    + intros x. rewrite mark_insert, (is_visited _ _ Hst1). case_decide; [subst|done]. naive_solver.
    + intros x. rewrite fmap_app, elem_of_app, mark_insert, (is_ordered _ _ Hst1). simpl.
      rewrite list_elem_of_singleton. case_decide; naive_solver.
    + constructor; [apply Hst1|done| |].
      * rewrite (is_ordered _ _ Hst1). lia.
      * intros y Hy. rewrite (is_ordered _ _ Hst1). by apply Hb1.
  - split; intros x; rewrite mark_insert.
    + case_decide as Hx; [subst; split; [done|]; lia|]. rewrite (gr_grey _ _ Hg1), mark_insert.
      by rewrite decide_False.
    + case_decide as Hx; [done|]. intros Hx2. apply Hg1. rewrite mark_insert. by rewrite decide_False.
Qed.

Lemma visit_all_in_step fuel ds m m' st :
  (∀ d, d ∈ ds → find r (id d) = Some d) →
  visit_all_marks r fuel ds m = Some (Ok m') → in_step m st →
  ∃ st', visit_all_order r fuel ds st = Some st' ∧ in_step m' st' ∧ grows m m' ∧
    ∀ d, d ∈ ds → mark m' (id d) = 2.
Proof.
  revert m st. induction ds as [|d ds IH]; intros m st Hk; simpl.
  { intros [= ->] Hst. exists st. split_and!; [done|done|done|]. intros y Hy. by apply elem_of_nil in Hy. }
  destruct (visit_marks r fuel d m) as [[m1|]|] eqn:Hv; [|done..]. intros Hgo Hst.
  destruct (visit_in_step fuel d m m1 st) as (st1 & -> & Hst1 & Hg1 & Hb1); [apply Hk; by left|done|done|].
  destruct (IH m1 st1) as (st' & -> & Hst' & Hg' & Hb'); [intros; apply Hk; by right|done|done|].
  exists st'. split_and!; [done|done|by etrans|].
  intros y [->|Hy]%elem_of_cons; [|by apply Hb']. by apply Hg'.
Qed.

(** The fuel is enough, and an error is a real cycle. *)
Definition cycle_error (i : bytes) : bytes := bs "transform dependency cycle at: " ++ i.

Definition visit_result (m : gmap bytes nat) (res : option (result (gmap bytes nat))) : Prop :=
  (∃ m', res = Some (Ok m') ∧ grows m m') ∨
  (∃ i, res = Some (Err (cycle_error i)) ∧ tc depends i i).

(** [path] lists the grey transforms, each of which leads to [x]. *)
Record grey_path (m : gmap bytes nat) (path : list bytes) (x : bytes) : Prop := {
  gp_nodup : NoDup path;
  gp_known : path ⊆ ids (descriptors_ r);
  gp_grey y : mark m y = 1 ↔ y ∈ path;
  gp_leads y : y ∈ path → tc depends y x
}.

Lemma grey_path_grows m m' path x : grows m m' → grey_path m path x → grey_path m' path x.
Proof. intros [Hg _] [? ? Hp ?]. split; try done. intros y. by rewrite Hg. Qed.

Lemma visit_marks_total fuel d m path :
  declared_deps → find r (id d) = Some d → grey_path m path (id d) →
  length (descriptors_ r) < fuel + length path →
  visit_result m (visit_marks r fuel d m).
Proof.
  intros Hdecl. revert d m path. induction fuel as [|fuel IH]; intros d m path Hk Hp Hf.
  { pose proof (submseteq_length _ _ (NoDup_submseteq _ _ (gp_nodup _ _ _ Hp) (gp_known _ _ _ Hp))) as Hl.
    rewrite length_fmap in Hl. lia. }
  destruct (find_known _ _ Hk) as (_ & Hd & _).
  simpl. fold (mark m (id d)). destruct (decide (mark m (id d) = 1)) as [H1|H1].
  { rewrite H1. right. exists (id d). split; [done|]. apply (gp_leads _ _ _ Hp). by apply (gp_grey _ _ _ Hp). }
  destruct (decide (mark m (id d) = 2)) as [H2|H2]; [rewrite H2; left; by exists m|].
  assert (Hdeps : ∀ deps m1, grows (<[id d:=1]> m) m1 → (∀ y, y ∈ deps → y ∈ dependencies d) →
    visit_result (<[id d:=1]> m) (mark_deps r (visit_marks r fuel) deps m1)).
  { intros deps. induction deps as [|dep deps IHd]; intros m1 Hg Hin; simpl.
    { left. by exists m1. }
    destruct (Hdecl d dep Hd (Hin dep ltac:(by left))) as [e He]. rewrite He.
    destruct (find_known _ _ He) as (Hid & _ & Hke).
    assert (Hgp : grey_path m1 (id d :: path) (id e)).
    { apply (grey_path_grows _ _ _ _ Hg). split.
      - constructor; [|apply Hp]. by rewrite <-(gp_grey _ _ _ Hp).
      - intros y [->|Hy]%elem_of_cons; [by apply list_elem_of_fmap_2|by apply (gp_known _ _ _ Hp)].
      - intros y. rewrite mark_insert, elem_of_cons, <-(gp_grey _ _ _ Hp). case_decide; naive_solver.
      - assert (tc depends (id d) (id e)) as Hde.
        { apply tc_once. exists d. split; [done|]. rewrite Hid. apply Hin. by left. }
        intros y [->|Hy]%elem_of_cons; [done|]. etrans; [by apply (gp_leads _ _ _ Hp)|done]. }
    destruct (IH e m1 (id d :: path) Hke Hgp) as [(m2 & -> & Hg2)|(i & -> & Hi)]; [simpl; lia| |].
    - apply IHd; [by etrans|]. intros y Hy. apply Hin. by right.
    - right. by exists i. }
  assert (Hres : visit_result m (match mark_deps r (visit_marks r fuel) (dependencies d) (<[id d:=1]> m) with
    | Some (Ok marks) => Some (Ok (<[id d:=2]> marks)) | stop => stop end)).
  { destruct (Hdeps (dependencies d) (<[id d:=1]> m)) as [(m1 & -> & Hg)|(i & -> & Hi)]; [done|done| |].
    - left. eexists. split; [done|]. split; intros x; rewrite mark_insert; case_decide as Hx.
      + subst. split; [done|]. lia.
      + rewrite (gr_grey _ _ Hg), mark_insert. by rewrite decide_False.
      + done.
      + intros Hx2. apply Hg. rewrite mark_insert. by rewrite decide_False.
    - right. by exists i. }
  destruct (mark m (id d)) as [|[|[|n]]]; done.
Qed.

Lemma visit_all_total fuel ds m :
  declared_deps → (∀ d, d ∈ ds → find r (id d) = Some d) → (∀ x, mark m x ≠ 1) →
  length (descriptors_ r) < fuel → visit_result m (visit_all_marks r fuel ds m).
Proof.
  intros Hdecl. revert m. induction ds as [|d ds IH]; intros m Hk Hm Hf; simpl; [left; by exists m|].
  destruct (visit_marks_total fuel d m []) as [(m1 & -> & Hg)|(i & -> & Hi)]; [done|apply Hk; by left| |lia| |].
  - split; [constructor|intros y Hy; by apply elem_of_nil in Hy| |intros y Hy; by apply elem_of_nil in Hy].
    intros y. rewrite elem_of_nil. split; [by apply Hm|done].
  - destruct (IH m1) as [(m' & -> & Hg')|(i & -> & Hi)]; [intros; apply Hk; by right| |done| |].
    + intros x. rewrite (gr_grey _ _ Hg). apply Hm.
    + left. exists m'. split; [done|]. by etrans.
    + right. by exists i.
  - right. by exists i.
Qed.

(** A dependency order excludes cycles. *)
Lemma topo_closed l x y : topo l → x ∈ ids l → depends x y → y ∈ ids l.
Proof.
  intros Ht. induction Ht as [|l d _ IH Hk Hd Hdeps]; [by intros Hx%elem_of_nil|].
  rewrite fmap_app, !elem_of_app. intros [Hx|Hx] Hxy; left; [by apply IH|].
  simpl in Hx. apply list_elem_of_singleton in Hx as ->.
  destruct Hxy as (d' & Hd' & Hy). apply Hdeps. congruence.
Qed.

Lemma topo_acyclic l x : topo l → x ∈ ids l → ¬ tc depends x x.
Proof.
  intros Ht. revert x. induction Ht as [|l d Ht IH Hk Hd Hdeps]; [by intros x Hx%elem_of_nil|].
  assert (Hstay : ∀ x y, x ∈ ids l → rtc depends x y → y ∈ ids l).
  { intros x y Hx Hxy. induction Hxy as [|x z y Hxz _ IHr]; [done|]. apply IHr. by eapply topo_closed. }
  intros x. rewrite fmap_app, elem_of_app. intros [Hx|Hx]; [by apply IH|].
  simpl in Hx. apply list_elem_of_singleton in Hx as ->. intros Hxx.
  assert (∃ y, depends (id d) y ∧ rtc depends y (id d)) as (y & Hdy & Hyd).
  { inversion Hxx as [? ? ?|? z ? ? ?]; subst; [by exists (id d)|]. exists z. split; [done|by apply tc_rtc]. }
  destruct Hd. apply (Hstay y); [|done]. destruct Hdy as (d' & Hd' & Hy).
  apply Hdeps. congruence.
Qed.

Lemma topo_split pre d post :
  topo (pre ++ d :: post) → ∀ y, y ∈ dependencies d → y ∈ ids pre.
Proof.
  revert pre d. induction post as [|e post IH] using rev_ind; intros pre d Ht.
  - inversion Ht as [|l e ? ? ? Hdeps E]; [by destruct pre|].
    apply app_inj_tail in E as [-> ->]. done.
  - inversion Ht as [E|l e' Hl ? ? ? E]; [by destruct pre|].
    rewrite app_comm_cons, app_assoc in E. apply app_inj_tail in E as [-> ->]. by apply IH.
Qed.

Lemma topo_nodup l : topo l → NoDup (ids l).
Proof.
  induction 1; [constructor|]. rewrite fmap_app. apply NoDup_app. split_and!; [done| |apply NoDup_singleton].
  simpl. by intros x Hx ->%list_elem_of_singleton.
Qed.

Lemma topo_known l d : topo l → d ∈ l → find r (id d) = Some d.
Proof.
  induction 1 as [|l e _ IH Hk _ _]; [by intros Hx%elem_of_nil|].
  intros [?| ->%list_elem_of_singleton]%elem_of_app; [by apply IH|done].
Qed.

Hypothesis Hnd : NoDup (ids (descriptors_ r)).

Lemma registered_known d : d ∈ descriptors_ r → find r (id d) = Some d.
Proof. by apply find_in_elem. Qed.

Lemma initial_in_step : in_step ∅ (∅, []).
Proof.
  split; simpl; [| |constructor]; intros x; unfold mark; rewrite lookup_empty; simpl.
  - rewrite elem_of_empty. lia.
  - rewrite elem_of_nil. lia.
Qed.

(** The searches from the whole registry. *)
Lemma search_result :
  declared_deps →
  (∃ m vis order, visit_all_marks r (visit_fuel r) (descriptors_ r) ∅ = Some (Ok m) ∧
     visit_all_order r (visit_fuel r) (descriptors_ r) (∅, []) = Some (vis, order) ∧
     topo order ∧ order ≡ₚ descriptors_ r) ∨
  (∃ i, visit_all_marks r (visit_fuel r) (descriptors_ r) ∅ = Some (Err (cycle_error i)) ∧
     tc depends i i).
Proof.
  intros Hdecl.
  destruct (visit_all_total (visit_fuel r) (descriptors_ r) ∅ Hdecl registered_known)
    as [(m & Hm & _)|(i & Hi & Hc)].
  - intros x. unfold mark. by rewrite lookup_empty.
  - unfold visit_fuel. lia.
  - left. destruct (visit_all_in_step _ _ _ _ _ registered_known Hm initial_in_step)
      as ([vis order] & Ho & Hst & _ & Hb).
    exists m, vis, order. split_and!; [done|done|apply Hst|].
    pose proof (is_topo _ _ Hst) as Ht. simpl in Ht.
    apply NoDup_Permutation.
    + eapply NoDup_fmap_1. by apply topo_nodup.
    + by eapply NoDup_fmap_1.
    + intros d. split.
      * intros Hd. apply (topo_known _ _ Ht), find_known in Hd. tauto.
      * intros Hd. pose proof (Hb d Hd) as H2. apply (is_ordered _ _ Hst) in H2. simpl in H2.
        apply list_elem_of_fmap in H2 as (e & Hid & He). pose proof (topo_known _ _ Ht He) as Hk.
        rewrite <-Hid, registered_known in Hk by done. by injection Hk as ->.
  - right. by exists i.
Qed.
End dfs.

(** ** What validation establishes *)

Section declarations.
Context (r : TransformRegistry).

Lemma check_produced_ok d declared P P' :
  foldR (check_produced d declared) P (produced_facts d) = Ok P' →
  ∀ fact i, P' !! fact = Some i ↔ P !! fact = Some i ∨ i = id d ∧ fact ∈ produced_facts d.
Proof.
  apply (foldR_inv _ (λ pre P1, ∀ fact i, P1 !! fact = Some i ↔
    P !! fact = Some i ∨ i = id d ∧ fact ∈ pre)).
  - intros pre a P1 P2 HI Hf _ fact i. unfold check_produced in Hf. ok_inv. bool_split.
    match goal with H : ¬ is_Some (P1 !! a) |- _ => rename H into Hnone end.
    rewrite elem_of_app, list_elem_of_singleton. destruct (decide (fact = a)) as [->|Hne].
    + rewrite lookup_insert_eq. split; [intros [= <-]; auto|].
      intros [HP|[-> _]]; [|done]. destruct Hnone. eexists. apply HI. by left.
    + rewrite lookup_insert_ne, HI by done. tauto.
  - intros fact i. rewrite elem_of_nil. tauto.
Qed.

Lemma producers_ok ds P :
  foldR (check_descriptor r) ∅ ds = Ok P →
  ∀ fact i, P !! fact = Some i ↔ ∃ p, p ∈ ds ∧ id p = i ∧ fact ∈ produced_facts p.
Proof.
  apply (foldR_inv _ (λ pre P1, ∀ fact i, P1 !! fact = Some i ↔
    ∃ p, p ∈ pre ∧ id p = i ∧ fact ∈ produced_facts p)).
  - intros pre d P1 P2 HI Hf _ fact i. unfold check_descriptor in Hf. ok_inv.
    rewrite (check_produced_ok _ _ _ _ E2), HI. setoid_rewrite elem_of_app.
    setoid_rewrite list_elem_of_singleton. naive_solver.
  - intros fact i. rewrite lookup_empty. split; [done|]. by intros (p & Hp%elem_of_nil & _).
Qed.

Lemma declarations_deps : check_declarations r = Ok tt → declared_deps r.
Proof.
  unfold check_declarations. intros H. ok_inv. intros d dep Hd Hdep.
  destruct (foldR_each _ _ _ _ _ E Hd) as (P1 & P2 & Hc). unfold check_descriptor in Hc. ok_inv.
  destruct (foldR_each _ _ _ _ _ E6 Hdep) as (? & ? & Hf). unfold check_dependency in Hf. ok_inv.
  by bool_split.
Qed.

(** An input fact is a compatible source fact, or the compatible product of a
    dependency. *)
Definition input_available (d : TransformDescriptor) (before : list TransformDescriptor)
    (fact : bytes) : Prop :=
  (∃ s, s ∈ source_facts_ r ∧ sf_name s = fact ∧ sf_schema_version s = input_schema_version d ∧
     sf_catalog s = input_catalog d) ∨
  (∃ p q, p ∈ before ∧ fact ∈ produced_facts p ∧ q ∈ fact_set_requirements p ∧ req_name q = fact ∧
     req_schema_version q = input_schema_version d ∧ req_catalog q = input_catalog d).

Lemma find_source_Some fs name s : find_source fs name = Some s → s ∈ fs ∧ sf_name s = name.
Proof.
  induction fs as [|f fs IH]; simpl; [done|]. rewrite elem_of_cons. case_decide; [|naive_solver].
  intros [= ->]. auto.
Qed.

Lemma find_requirement_Some qs name q : find_requirement qs name = Some q → q ∈ qs ∧ req_name q = name.
Proof.
  induction qs as [|f qs IH]; simpl; [done|]. rewrite elem_of_cons. case_decide; [|naive_solver].
  intros [= ->]. auto.
Qed.

Lemma declarations_inputs d fact before :
  NoDup (id <$> descriptors_ r) → check_declarations r = Ok tt → d ∈ descriptors_ r →
  fact ∈ input_facts d →
  (∀ p, p ∈ descriptors_ r → id p ∈ dependencies d → p ∈ before) → input_available d before fact.
Proof.
  intros Hnd H Hd Hfact Hbefore. unfold check_declarations in H. ok_inv.
  destruct (foldR_each _ _ _ _ _ H Hd) as (? & ? & Hin).
  destruct (foldR_each _ _ _ _ _ Hin Hfact) as (? & ? & Hf). unfold check_input_fact in Hf.
  destruct (a !! fact) as [producer|] eqn:Hp.
  - right. apply (producers_ok _ _ E) in Hp as (p & Hp & <- & Hprod). ok_inv. bool_split.
    unfold find in E1. rewrite find_in_elem in E1 by done. simpl in E1.
    destruct (find_requirement (fact_set_requirements p) fact) as [q|] eqn:Hq; [|done].
    apply find_requirement_Some in Hq as [Hq Hn]. bool_split. exists p, q. split_and!; try done.
    by apply Hbefore.
  - left. destruct (find_source (source_facts_ r) fact) as [s|] eqn:Hs; [|done]. ok_inv. bool_split.
    apply find_source_Some in Hs as [? ?]. by exists s.
Qed.
End declarations.

(** ** Properties *)

(** C36: validation decides cycles.  In any registry the operations can build,
    [validate] never runs out of fuel or dereferences null: it reports the
    first bad declaration, or else accepts exactly when no transform depends on
    itself through a chain of dependencies, and its error names a transform on
    a real cycle. *)
Theorem validate_decides_cycles r :
  built r →
  match check_declarations r with
  | Err e => validate r = Some (Err e)
  | Ok _ =>
      (validate r = Some (Ok tt) ∧ ∀ i, ¬ tc (depends r) i i) ∨
      (∃ i, validate r = Some (Err (cycle_error i)) ∧ tc (depends r) i i)
  end.
Proof.
  intros Hb%built_ids. unfold validate. destruct (check_declarations r) as [[]|e] eqn:Hd; [|done].
  destruct (search_result r Hb (declarations_deps r Hd)) as [(m & vis & order & -> & _ & Ht & Hp)|(i & -> & Hi)].
  - left. split; [done|]. intros i Hi. apply (topo_acyclic r order i Ht); [|done].
    assert (∃ y, depends r i y) as (y & d & Hf & _) by (inversion Hi; eauto).
    rewrite Hp. apply find_known in Hf as (<- & ? & _). by apply list_elem_of_fmap_2.
  - right. by exists i.
Qed.

(** The execution order respects the data flow.  For a valid registry it is
    a permutation of the transforms in which each comes after all its
    dependencies, every fact a transform reads is a source fact or the product
    of an earlier transform, declared with the reader's schema version and
    catalog, and no fact has two producers. *)
Theorem execution_order_dataflow r :
  built r → validate r = Some (Ok tt) →
  ∃ order, execution_order r = Some (Ok order) ∧ order ≡ₚ descriptors_ r ∧
    (∀ pre d post, order = pre ++ d :: post →
      (∀ y, y ∈ dependencies d → y ∈ id <$> pre) ∧
      ∀ fact, fact ∈ input_facts d → input_available r d pre fact) ∧
    (∀ p q fact, p ∈ order → q ∈ order → fact ∈ produced_facts p → fact ∈ produced_facts q → p = q).
Proof.
  intros Hb%built_ids Hv. unfold execution_order. rewrite Hv. unfold validate in Hv.
  destruct (check_declarations r) as [[]|e] eqn:Hd; [|done].
  destruct (search_result r Hb (declarations_deps r Hd)) as [(m & vis & order & Hm & -> & Ht & Hp)|(i & Hi & _)];
    [|by rewrite Hi in Hv].
  exists order. split_and!; [done|done| |].
  - intros pre d post ->. pose proof (topo_split r _ _ _ Ht) as Hdeps. split; [done|].
    intros fact Hfact. apply (declarations_inputs r d fact pre Hb Hd); [|done|].
    + rewrite <-Hp. apply elem_of_app. right. by left.
    + intros p Hpd Hdep. apply Hdeps, list_elem_of_fmap in Hdep as (p' & Hid & Hp').
      assert (p' ∈ descriptors_ r) as Hpd' by (rewrite <-Hp; by apply elem_of_app; left).
      apply (registered_known r Hb) in Hpd as Hk. rewrite Hid in Hk.
      rewrite (registered_known r Hb) in Hk by done. by injection Hk as <-.
  - intros p q fact Hpo Hqo Hfp Hfq. rewrite Hp in Hpo, Hqo. unfold check_declarations in Hd. ok_inv.
    pose proof (producers_ok r _ _ E) as Hprod.
    assert (Hip : a !! fact = Some (id p)) by (apply Hprod; eauto).
    assert (Hiq : a !! fact = Some (id q)) by (apply Hprod; eauto).
    assert (id p = id q) as Hid by congruence.
    apply (registered_known r Hb) in Hpo, Hqo. congruence.
Qed.

(** ** Witnesses *)

Definition sample_transform (i : bytes) (inputs deps : list bytes) (fact : bytes) : TransformDescriptor :=
  Descriptor i 1 inputs [fact] deps [] [bs "deterministic-sql-v1"] [bs "q"] [bs "q"] (bs "q") []
    applicable tc_complete preserve_previous_on_failure (Budget 0 0)
    [FactSetRequirement fact [fact] 1 (bs "cidx-core") true] 1 1 (bs "cidx-core") (bs "cidx-core")
    (ImplementationProvider (bs "p") 1 (bs "c")) false.

Definition sample_source : TransformSourceFact := SourceFact (bs "s") 1 (bs "cidx-core").
Definition sample_late : TransformDescriptor :=
  sample_transform (bs "late") [bs "s"; bs "f"] [bs "early"] (bs "g").
Definition sample_early : TransformDescriptor := sample_transform (bs "early") [bs "s"] [] (bs "f").
Definition sample_registry : TransformRegistry :=
  Registry [sample_source] [sample_late; sample_early].

Lemma sample_built : built sample_registry.
Proof.
  apply (built_transform (Registry [sample_source] [sample_late]) sample_early); [|done].
  apply (built_transform (Registry [sample_source] []) sample_late); [|done].
  apply (built_source (Registry [] []) sample_source); [constructor|done].
Qed.

Lemma execution_order_dataflow_witness :
  ∃ order, execution_order sample_registry = Some (Ok order) ∧
    (id <$> order) = [bs "early"; bs "late"] ∧
    ∀ y, y ∈ dependencies sample_late → y ∈ [bs "early"].
Proof.
  destruct (execution_order_dataflow sample_registry sample_built) as (order & Ho & _ & Hpre & _);
    [by vm_compute|].
  exists order. split; [done|]. vm_compute in Ho. injection Ho as <-. split; [done|].
  exact (proj1 (Hpre [_] _ [] eq_refl)).
Defined.

Definition cyclic_a : TransformDescriptor := sample_transform (bs "a") [bs "g"] [bs "b"] (bs "f").
Definition cyclic_b : TransformDescriptor := sample_transform (bs "b") [bs "f"] [bs "a"] (bs "g").
Definition cyclic_registry : TransformRegistry := Registry [] [cyclic_a; cyclic_b].

Lemma cyclic_built : built cyclic_registry.
Proof.
  apply (built_transform (Registry [] [cyclic_a]) cyclic_b); [|done].
  apply (built_transform (Registry [] []) cyclic_a); [constructor|done].
Qed.

Lemma validate_decides_cycles_witness :
  check_declarations cyclic_registry = Ok tt ∧
  ((validate cyclic_registry = Some (Ok tt) ∧ ∀ i, ¬ tc (depends cyclic_registry) i i) ∨
   (∃ i, validate cyclic_registry = Some (Err (cycle_error i)) ∧ tc (depends cyclic_registry) i i)).
Proof.
  assert (check_declarations cyclic_registry = Ok tt) as Hd by by vm_compute.
  split; [done|]. pose proof (validate_decides_cycles cyclic_registry cyclic_built) as H.
  by rewrite Hd in H.
Defined.
