(* ===== verification/Utf8.v ===== *)
(** * Bytes as numbers, hexadecimal digits, UTF-8

    The arithmetic the string codecs of the source share: a [char] as a number
    of 0..255 and back, the digits of [%x], and the UTF-8 encoding of a code
    point with its decoding. *)

From S2P Require Export Bytes.

Open Scope Z_scope.

(** [static_cast<unsigned char>(c)]. *)
Definition zb (c : ascii) : Z := Z.of_N (N_of_ascii c).

(** [static_cast<char>(z)]: the low eight bits. *)
Definition byte_of (z : Z) : ascii := ascii_of_N (Z.to_N (z mod 256)).

Lemma zb_range c : 0 <= zb c < 256.
Proof.
  unfold zb. pose proof (N_ascii_bounded c). lia.
Qed.

Lemma zb_byte_of z : 0 <= z < 256 → zb (byte_of z) = z.
Proof.
  intros Hz. unfold zb, byte_of. rewrite N_ascii_embedding.
  - rewrite Z2N.id; rewrite Z.mod_small; lia.
  - rewrite Z.mod_small by lia. lia.
Qed.

Lemma byte_of_zb c : byte_of (zb c) = c.
Proof.
  pose proof (zb_range c). unfold byte_of. rewrite Z.mod_small by lia. unfold zb.
  rewrite N2Z.id. apply ascii_N_embedding.
Qed.

Lemma zb_inj c d : zb c = zb d → c = d.
Proof. intros H. by rewrite <-(byte_of_zb c), H, byte_of_zb. Qed.

(** A property of all bytes, decided by looking at each. *)
Lemma all_bytes (P : ascii → bool) :
  forallb (λ n, P (ascii_of_nat n)) (seq 0 256) = true → ∀ c, P c = true.
Proof.
  intros H c. rewrite forallb_forall in H. rewrite <-(ascii_nat_embedding c). apply H.
  apply in_seq. pose proof (nat_ascii_bounded c). lia.
Qed.

(** ** Disjoint bits *)

Lemma lor_shift a d n : 0 <= n → 0 <= d < 2 ^ n → Z.lor (Z.shiftl a n) d = a * 2 ^ n + d.
Proof.
  intros Hn Hd. rewrite <-Z.shiftl_mul_pow2 by done. symmetry.
  rewrite Z.add_nocarry_lxor, <-Z.lxor_lor; [done| |]; apply Z.bits_inj'; intros m Hm;
    rewrite Z.land_spec, Z.bits_0; destruct (decide (m < n)) as [Hlt|Hge].
  1,3: by rewrite Z.shiftl_spec_low.
  all: assert (Z.testbit d m = false) as ->; [|apply andb_false_r].
  all: destruct (decide (d = 0)) as [->|]; [apply Z.bits_0|]; apply Z.bits_above_log2; [lia|];
    enough (Z.log2 d < n) by lia; apply Z.log2_lt_pow2; lia.
Qed.

Lemma land_ones_mod a n : 0 <= n → Z.land a (2 ^ n - 1) = a mod 2 ^ n.
Proof. intros Hn. by rewrite <-Z.land_ones, Z.ones_equiv by done. Qed.

(** ** Hexadecimal *)

(** A digit of [%x] (lower case). *)
Definition hex_digit (d : Z) : ascii :=
  byte_of (if d <? 10 then d + 48 else d + 87).

(** The value of a hexadecimal digit of either case. *)
Definition hex_value (c : ascii) : option Z :=
  if (48 <=? zb c) && (zb c <=? 57) then Some (zb c - 48)
  else if (97 <=? zb c) && (zb c <=? 102) then Some (zb c - 97 + 10)
  else if (65 <=? zb c) && (zb c <=? 70) then Some (zb c - 65 + 10)
  else None.

Lemma hex_value_digit d : 0 <= d < 16 → hex_value (hex_digit d) = Some d.
Proof.
  intros Hd. unfold hex_value, hex_digit. destruct (Z.ltb_spec d 10); rewrite zb_byte_of by lia.
  - destruct (Z.leb_spec 48 (d + 48)), (Z.leb_spec (d + 48) 57); simpl; try lia. f_equal. lia.
  - destruct (Z.leb_spec 48 (d + 87)), (Z.leb_spec (d + 87) 57); simpl; try lia.
    destruct (Z.leb_spec 97 (d + 87)), (Z.leb_spec (d + 87) 102); simpl; try lia. f_equal. lia.
Qed.

Lemma hex_value_range c d : hex_value c = Some d → 0 <= d < 16.
Proof.
  unfold hex_value. repeat case_match; intros [= <-]; bool_split;
    rewrite ?Z.leb_le in *; lia.
Qed.

(** [%04x] of a number below 2^16. *)
Definition hex4_digits (n : Z) : bytes :=
  [hex_digit (n / 4096 mod 16); hex_digit (n / 256 mod 16); hex_digit (n / 16 mod 16);
   hex_digit (n mod 16)].

Lemma hex4_value n : 0 <= n < 65536 →
  (((0 * 16 + n / 4096 mod 16) * 16 + n / 256 mod 16) * 16 + n / 16 mod 16) * 16 + n mod 16 = n.
Proof.
  intros Hn.
  pose proof (Z.div_mod n 16 ltac:(done)). pose proof (Z.div_mod (n / 16) 16 ltac:(done)).
  pose proof (Z.div_mod (n / 256) 16 ltac:(done)). pose proof (Z.div_mod (n / 4096) 16 ltac:(done)).
  assert (n / 16 / 16 = n / 256) by by rewrite Z.div_div.
  assert (n / 256 / 16 = n / 4096) by by rewrite Z.div_div.
  assert (n / 4096 / 16 = 0) by (rewrite Z.div_div by done; apply Z.div_small; lia).
  lia.
Qed.

(** ** UTF-8 *)

(** The UTF-8 encoding of a code point, as the [append_utf8] functions of the
    JSON readers write it. *)
Definition utf8 (cp : Z) : bytes :=
  if cp <? 128 then [byte_of cp]
  else if cp <? 2048 then [byte_of (Z.lor 192 (Z.shiftr cp 6)); byte_of (Z.lor 128 (Z.land cp 63))]
  else if cp <? 65536 then
    [byte_of (Z.lor 224 (Z.shiftr cp 12)); byte_of (Z.lor 128 (Z.land (Z.shiftr cp 6) 63));
     byte_of (Z.lor 128 (Z.land cp 63))]
  else
    [byte_of (Z.lor 240 (Z.shiftr cp 18)); byte_of (Z.lor 128 (Z.land (Z.shiftr cp 12) 63));
     byte_of (Z.lor 128 (Z.land (Z.shiftr cp 6) 63)); byte_of (Z.lor 128 (Z.land cp 63))].

(** A Unicode scalar value: a code point that is not a surrogate. *)
Definition scalar (cp : Z) : Prop := 0 <= cp < 55296 ∨ 57344 <= cp < 1114112.

(** A well-formed UTF-8 string. *)
Fixpoint utf8s (cps : list Z) : bytes :=
  match cps with [] => [] | cp :: cps => utf8 cp ++ utf8s cps end.
Definition valid_utf8 (s : bytes) : Prop := ∃ cps, Forall scalar cps ∧ s = utf8s cps.

(** The bytes of the encoding, as numbers. *)
Lemma utf8_arith cp :
  0 <= cp < 1114112 →
  utf8 cp =
  if cp <? 128 then [byte_of cp]
  else if cp <? 2048 then [byte_of (192 + cp / 64); byte_of (128 + cp mod 64)]
  else if cp <? 65536 then
    [byte_of (224 + cp / 4096); byte_of (128 + cp / 64 mod 64); byte_of (128 + cp mod 64)]
  else
    [byte_of (240 + cp / 262144); byte_of (128 + cp / 4096 mod 64);
     byte_of (128 + cp / 64 mod 64); byte_of (128 + cp mod 64)].
Proof.
  intros Hcp. unfold utf8.
  assert (∀ x, Z.lor 128 (Z.land x 63) = 128 + x mod 64) as H80.
  { intros x. change 63 with (2 ^ 6 - 1). rewrite land_ones_mod by done.
    change 128 with (Z.shiftl 2 6). rewrite lor_shift; [done|done|]. apply Z.mod_pos_bound. done. }
  rewrite !H80, !Z.shiftr_div_pow2 by done.
  destruct (Z.ltb_spec cp 128); [done|]. destruct (Z.ltb_spec cp 2048).
  { change 192 with (Z.shiftl 3 6). rewrite lor_shift; [done|done|].
    split; [apply Z.div_pos; lia|apply Z.div_lt_upper_bound; lia]. }
  destruct (Z.ltb_spec cp 65536).
  { change 224 with (Z.shiftl 7 5). rewrite lor_shift; [done|done|].
    split; [apply Z.div_pos; lia|apply Z.div_lt_upper_bound; lia]. }
  change 240 with (Z.shiftl 15 4). rewrite lor_shift; [done|done|].
  split; [apply Z.div_pos; lia|apply Z.div_lt_upper_bound; lia].
Qed.
