(* ===== verification/Json.v ===== *)
(** * The JSON value tree: [src/src/cli/json_out.cpp] and [src/src/util/json_read.cpp]

    The writer that replicates Python's [json.dumps] (indented and compact) and
    the strict reader that parses what the writer wrote.  [long long] values are
    [Z]; the reader's range check is [strtoll]'s. *)

From S2P Require Export Utf8.
From Stdlib Require Import DecimalString DecimalZ.

(** ** The tree *)

Inductive Value : Type :=
| VNull
| VBool (b : bool)
| VInt (i : Z)
| VStr (s : bytes)
| VArr (a : list Value)
| VObj (o : list (bytes * Value)).

(** ** Writing *)

Definition quote : ascii := "034".
Definition backslash : ascii := "092".
Definition newline : ascii := "010".

(** [\uXXXX] through [snprintf("\\u%04x")]. *)
Definition u_escape (n : Z) : bytes := backslash :: "u"%char :: hex4_digits n.

(** The [switch] on an ASCII byte. *)
Definition escape_ascii (c : ascii) : bytes :=
  if decide (c = quote) then [backslash; quote]
  else if decide (c = backslash) then [backslash; backslash]
  else if decide (c = "008"%char) then bs "\b"
  else if decide (c = "012"%char) then bs "\f"
  else if decide (c = "010"%char) then bs "\n"
  else if decide (c = "013"%char) then bs "\r"
  else if decide (c = "009"%char) then bs "\t"
  else if zb c <? 32 then u_escape (zb c)
  else [c].

(** The bits of a leading byte and the number of continuation bytes. *)
Definition lead_byte (c : ascii) : option (Z * nat) :=
  if Z.land (zb c) 224 =? 192 then Some (Z.land (zb c) 31, 1%nat)
  else if Z.land (zb c) 240 =? 224 then Some (Z.land (zb c) 15, 2%nat)
  else if Z.land (zb c) 248 =? 240 then Some (Z.land (zb c) 7, 3%nat)
  else None.

(** The loop over the continuation bytes; it stops at a malformed one. *)
Fixpoint continuation (remaining : nat) (codepoint : Z) (s : bytes) : Z * bytes :=
  match remaining, s with
  | S remaining, c :: s' =>
      if negb (Z.land (zb c) 192 =? 128) then (codepoint, s)
      else continuation remaining (Z.lor (Z.shiftl codepoint 6) (Z.land (zb c) 63)) s'
  | _, _ => (codepoint, s)
  end.

Definition escape_codepoint (codepoint : Z) : bytes :=
  if codepoint <=? 65535 then u_escape codepoint
  else
    let cp := codepoint - 65536 in
    u_escape (55296 + Z.land (Z.shiftr cp 10) 1023) ++ u_escape (56320 + Z.land cp 1023).

(** The loop of [encode_string]; the fuel is the number of bytes left. *)
Fixpoint encode_from (fuel : nat) (s : bytes) : bytes :=
  match fuel, s with
  | S fuel, c :: s =>
      if zb c <? 128 then escape_ascii c ++ encode_from fuel s
      else
        match lead_byte c with
        | None => bs "\ufffd" ++ encode_from fuel s
        | Some (cp, remaining) =>
            let '(cp, s) := continuation remaining cp s in
            escape_codepoint cp ++ encode_from fuel s
        end
  | _, _ => []
  end.

Definition encode_string (s : bytes) : bytes := quote :: encode_from (length s) s ++ [quote].

Definition spaces (n : nat) : bytes := replicate n " "%char.

(** [emit(out, v, depth)]. *)
Fixpoint emit (v : Value) (depth : nat) : bytes :=
  let indent := spaces (2 * depth) in
  let inner := spaces (2 * (depth + 1)) in
  match v with
  | VNull => bs "null"
  | VBool b => if b then bs "true" else bs "false"
  | VInt i => to_string i
  | VStr s => encode_string s
  | VArr [] => bs "[]"
  | VArr a =>
      "["%char :: newline ::
      (fix items (a : list Value) : bytes :=
         match a with
         | [] => []
         | x :: a' =>
             inner ++ emit x (S depth) ++ (match a' with [] => [] | _ => bs "," end) ++
             newline :: items a'
         end) a ++ indent ++ bs "]"
  | VObj [] => bs "{}"
  | VObj o =>
      "{"%char :: newline ::
      (fix members (o : list (bytes * Value)) : bytes :=
         match o with
         | [] => []
         | (k, x) :: o' =>
             inner ++ encode_string k ++ bs ": " ++ emit x (S depth) ++
             (match o' with [] => [] | _ => bs "," end) ++ newline :: members o'
         end) o ++ indent ++ bs "}"
  end.

(** [emit_compact(out, v)]. *)
Fixpoint emit_compact (v : Value) : bytes :=
  match v with
  | VNull => bs "null"
  | VBool b => if b then bs "true" else bs "false"
  | VInt i => to_string i
  | VStr s => encode_string s
  | VArr a =>
      "["%char ::
      (fix items (first : bool) (a : list Value) : bytes :=
         match a with
         | [] => []
         | x :: a => (if first then [] else bs ",") ++ emit_compact x ++ items false a
         end) true a ++ bs "]"
  | VObj o =>
      "{"%char ::
      (fix members (first : bool) (o : list (bytes * Value)) : bytes :=
         match o with
         | [] => []
         | (k, x) :: o =>
             (if first then [] else bs ",") ++ encode_string k ++ bs ":" ++ emit_compact x ++
             members false o
         end) true o ++ bs "}"
  end.

Definition dumps_indent2 (v : Value) : bytes := emit v 0.
Definition dumps_compact (v : Value) : bytes := emit_compact v.

(** ** Reading *)

(** The parser's position [i_] and the text from there on. *)
Record cursor := Cur { pos : nat; rest : bytes }.

(** A parsing function returns a value and moves the cursor, or throws; [Fuel]
    means that the bound of a loop was reached, which [parse_total] excludes. *)
Inductive outcome (A : Type) : Type :=
| Done (a : A) (c : cursor)
| Throw (msg : bytes)
| Fuel.
Arguments Done {A} _ _.
Arguments Throw {A} _.
Arguments Fuel {A}.

Definition obind {A B} (m : outcome A) (k : A → cursor → outcome B) : outcome B :=
  match m with Done a c => k a c | Throw e => Throw e | Fuel => Fuel end.

Notation "'do' x , c '<-' m ';' k" := (obind m (λ x c, k))
  (at level 200, x name, c name, m at level 100, k at level 200, right associativity) : cidx_scope.

Definition kMaxDepth : nat := 100.

Definition fail {A} (msg : bytes) (at_ : nat) : outcome A :=
  Throw (bs "json: " ++ msg ++ bs " at offset " ++ to_string (Z.of_nat at_)).

Definition is_ws (c : ascii) : bool :=
  bool_decide (c = " "%char) || bool_decide (c = "009"%char) || bool_decide (c = "010"%char) ||
  bool_decide (c = "013"%char).

Definition skip_ws (c : cursor) : cursor :=
  Cur (pos c + length (take_while is_ws (rest c))) (drop_while is_ws (rest c)).

Definition advance (n : nat) (c : cursor) : cursor := Cur (pos c + n) (drop n (rest c)).

(** [peek()]: the byte at the position, NUL at the end. *)
Definition peek (c : cursor) : ascii := default "000"%char (head (rest c)).

Definition expect (ch : ascii) (c : cursor) : outcome unit :=
  match rest c with
  | x :: _ => if decide (x = ch) then Done tt (advance 1 c)
              else fail (bs "expected '" ++ [ch] ++ bs "'") (pos c)
  | [] => fail (bs "expected '" ++ [ch] ++ bs "'") (pos c)
  end.

Definition literal (word : bytes) (v : Value) (c : cursor) : outcome Value :=
  if starts_with word (rest c) then Done v (advance (length word) c)
  else fail (bs "bad literal") (pos c).

(** The four iterations of [hex4]. *)
Fixpoint hex_loop (k : nat) (cp : Z) (c : cursor) : outcome Z :=
  match k, rest c with
  | S k, x :: _ =>
      match hex_value x with
      | Some d => hex_loop k (Z.lor (Z.shiftl cp 4) d) (advance 1 c)
      | None => fail (bs "bad hex digit in \u escape") (pos c)
      end
  | _, _ => Done cp c
  end.

Definition hex4 (c : cursor) : outcome Z :=
  if (length (rest c) <? 4)%nat then fail (bs "truncated \u escape") (pos c)
  else hex_loop 4 0 c.

Definition append_utf8 (out : bytes) (cp : Z) : bytes := out ++ utf8 cp.

(** The [\u] escape after its [u]: a high surrogate takes the low one that
    follows. *)
Definition unicode_escape (c : cursor) : outcome Z :=
  do cp, c1 <- hex4 c;
  match rest c1 with
  | x :: y :: _ =>
      if (55296 <=? cp) && (cp <=? 56319) && bool_decide (x = backslash) &&
         bool_decide (y = "u"%char)
      then
        do lo, c2 <- hex4 (advance 2 c1);
        if (56320 <=? lo) && (lo <=? 57343)
        then Done (65536 + Z.shiftl (cp - 55296) 10 + (lo - 56320)) c2
        else Done cp c1
      else Done cp c1
  | _ => Done cp c1
  end.

(** The single-character escapes. *)
Definition simple_escape (c : ascii) : option ascii :=
  if decide (c = quote) then Some quote
  else if decide (c = backslash) then Some backslash
  else if decide (c = "/"%char) then Some "/"%char
  else if decide (c = "b"%char) then Some "008"%char
  else if decide (c = "f"%char) then Some "012"%char
  else if decide (c = "n"%char) then Some "010"%char
  else if decide (c = "r"%char) then Some "013"%char
  else if decide (c = "t"%char) then Some "009"%char
  else None.

(** The loop of [parse_string]. *)
Fixpoint string_loop (fuel : nat) (out : bytes) (c : cursor) : outcome bytes :=
  match fuel with
  | O => Fuel
  | S fuel =>
      match rest c with
      | [] => fail (bs "unterminated string") (pos c)
      | x :: r =>
          if decide (x = quote) then Done out (advance 1 c)
          else if decide (x ≠ backslash) then
            if zb x <? 32 then fail (bs "raw control character in string") (pos c)
            else string_loop fuel (out ++ [x]) (advance 1 c)
          else
            match r with
            | [] => fail (bs "trailing backslash") (pos c + 1)
            | e :: _ =>
                match simple_escape e with
                | Some b => string_loop fuel (out ++ [b]) (advance 2 c)
                | None =>
                    if decide (e = "u"%char) then
                      do cp, c1 <- unicode_escape (advance 2 c);
                      string_loop fuel (append_utf8 out cp) c1
                    else fail (bs "unknown escape") (pos c + 1)
                end
            end
      end
  end.

Definition parse_string (c : cursor) : outcome bytes :=
  do _, c <- expect quote c;
  string_loop (S (length (rest c))) [] c.

Definition int64_range (z : Z) : bool := (- 2 ^ 63 <=? z) && (z <? 2 ^ 63).

(** [strtoll(text, &end, 10)] of a text without white space, when it consumes
    the whole text and does not overflow. *)
Definition strtoll (text : bytes) : option Z :=
  let value :=
    match text with
    | "+"%char :: t => Z.of_uint <$> NilZero.uint_of_string (Stdlib.Strings.String.string_of_list_ascii t)
    | _ => Z.of_int <$> NilZero.int_of_string (Stdlib.Strings.String.string_of_list_ascii text)
    end in
  match value with
  | Some z => if int64_range z then Some z else None
  | None => None
  end.

Definition is_number_char (c : ascii) : bool :=
  ((48 <=? zb c) && (zb c <=? 57)) || bool_decide (c = "."%char) || bool_decide (c = "e"%char) ||
  bool_decide (c = "E"%char) || bool_decide (c = "+"%char) || bool_decide (c = "-"%char).

Definition is_float_char (c : ascii) : bool :=
  bool_decide (c = "."%char) || bool_decide (c = "e"%char) || bool_decide (c = "E"%char).

(** The leading [-] is one of the characters the loop accepts. *)
Definition parse_number (c : cursor) : outcome Value :=
  let text := take_while is_number_char (rest c) in
  match text with
  | [] => fail (bs "expected a value") (pos c)
  | _ =>
      if existsb is_float_char text then fail (bs "non-integer number '" ++ text ++ bs "'") (pos c)
      else
        match strtoll text with
        | None => fail (bs "bad number '" ++ text ++ bs "'") (pos c)
        | Some v => Done (VInt v) (advance (length text) c)
        end
  end.

(** The last value of a key wins, in the place of the first. *)
Fixpoint set_member (members : list (bytes * Value)) (key : bytes) (v : Value) :
    list (bytes * Value) :=
  match members with
  | [] => [(key, v)]
  | m :: members =>
      if decide (m.1 = key) then (m.1, v) :: members else m :: set_member members key v
  end.

(** The [while (true)] of [parse_object], given [parse_value(depth + 1)]. *)
Fixpoint members_loop (pv : cursor → outcome Value) (fuel : nat) (members : list (bytes * Value))
    (c : cursor) : outcome Value :=
  match fuel with
  | O => Fuel
  | S fuel =>
      let c := skip_ws c in
      if decide (peek c ≠ quote) then fail (bs "object key must be a string") (pos c)
      else
        do key, c <- parse_string c;
        do _, c <- expect ":" (skip_ws c);
        do v, c <- pv (skip_ws c);
        let members := set_member members key v in
        let c := skip_ws c in
        if decide (peek c = ","%char) then members_loop pv fuel members (advance 1 c)
        else do _, c <- expect "}" c; Done (VObj members) c
  end.

Fixpoint items_loop (pv : cursor → outcome Value) (fuel : nat) (items : list Value)
    (c : cursor) : outcome Value :=
  match fuel with
  | O => Fuel
  | S fuel =>
      do v, c <- pv (skip_ws c);
      let items := items ++ [v] in
      let c := skip_ws c in
      if decide (peek c = ","%char) then items_loop pv fuel items (advance 1 c)
      else do _, c <- expect "]" c; Done (VArr items) c
  end.

Definition parse_object (pv : cursor → outcome Value) (fuel : nat) (c : cursor) : outcome Value :=
  do _, c <- expect "{" c;
  let c := skip_ws c in
  if decide (peek c = "}"%char) then Done (VObj []) (advance 1 c) else members_loop pv fuel [] c.

Definition parse_array (pv : cursor → outcome Value) (fuel : nat) (c : cursor) : outcome Value :=
  do _, c <- expect "[" c;
  let c := skip_ws c in
  if decide (peek c = "]"%char) then Done (VArr []) (advance 1 c) else items_loop pv fuel [] c.

Fixpoint parse_value (fuel depth : nat) (c : cursor) : outcome Value :=
  match fuel with
  | O => Fuel
  | S fuel =>
      if (kMaxDepth <? depth)%nat
      then fail (bs "nesting deeper than " ++ to_string (Z.of_nat kMaxDepth)) (pos c)
      else
        let p := peek c in
        if decide (p = "{"%char) then parse_object (parse_value fuel (S depth)) fuel c
        else if decide (p = "["%char) then parse_array (parse_value fuel (S depth)) fuel c
        else if decide (p = quote) then do s, c <- parse_string c; Done (VStr s) c
        else if decide (p = "t"%char) then literal (bs "true") (VBool true) c
        else if decide (p = "f"%char) then literal (bs "false") (VBool false) c
        else if decide (p = "n"%char) then literal (bs "null") VNull c
        else parse_number c
  end.

(** [Parser(text).parse_document()]; the fuel is the length of the text and
    one. *)
Definition parse_document (text : bytes) : outcome Value :=
  do v, c <- parse_value (S (length text)) 0 (skip_ws (Cur 0 text));
  let c := skip_ws c in
  match rest c with
  | [] => Done v c
  | _ => fail (bs "trailing data after top-level value") (pos c)
  end.

(** [parse(text)]. *)
Definition parse (text : bytes) : option (result Value) :=
  match parse_document text with
  | Done v _ => Some (Ok v)
  | Throw e => Some (Err e)
  | Fuel => None
  end.

Example parse_sample :
  parse (dumps_indent2 (VObj [(bs "a", VArr [VInt (-12); VStr (bs "x"); VNull]); (bs "b", VBool true)])) =
  Some (Ok (VObj [(bs "a", VArr [VInt (-12); VStr (bs "x"); VNull]); (bs "b", VBool true)])).
Proof. vm_compute. reflexivity. Qed.

(** ** Strings round trip *)

Lemma hex_loop_digit k d cp p t :
  0 <= d < 16 → hex_loop (S k) cp (Cur p (hex_digit d :: t)) = hex_loop k (cp * 16 + d) (Cur (p + 1) t).
Proof.
  intros Hd. cbn [hex_loop rest]. rewrite hex_value_digit by done.
  change 16 with (2 ^ 4). by rewrite <-lor_shift.
Qed.

Lemma hex4_round n p t :
  0 <= n < 65536 → hex4 (Cur p (hex4_digits n ++ t)) = Done n (Cur (p + 4) t).
Proof.
  intros Hn. unfold hex4, hex4_digits. cbn [rest length app Nat.ltb Nat.leb].
  assert (∀ x, 0 <= x mod 16 < 16) as Hm by (intros; by apply Z.mod_pos_bound).
  rewrite !hex_loop_digit by apply Hm. cbn [hex_loop]. f_equal; [by apply hex4_value|f_equal; lia].
Qed.

Lemma length_hex4_digits n : length (hex4_digits n) = 4%nat.
Proof. done. Qed.

(** What an escape decodes to. *)
Lemma unicode_escape_bmp n p t :
  0 <= n < 65536 → ¬ 55296 <= n <= 56319 →
  unicode_escape (Cur p (hex4_digits n ++ t)) = Done n (Cur (p + 4) t).
Proof.
  intros Hn Hs. unfold unicode_escape. rewrite hex4_round by done. cbn [obind rest].
  destruct t as [|x [|y t]]; [done..|].
  destruct (Z.leb_spec 55296 n), (Z.leb_spec n 56319); simpl; try done. lia.
Qed.

Lemma unicode_escape_pair cp p t :
  65536 <= cp < 1114112 →
  unicode_escape (Cur p (hex4_digits (55296 + Z.land (Z.shiftr (cp - 65536) 10) 1023) ++
    u_escape (56320 + Z.land (cp - 65536) 1023) ++ t)) = Done cp (Cur (p + 10) t).
Proof.
  intros Hcp. change 1023 with (2 ^ 10 - 1). rewrite !land_ones_mod, Z.shiftr_div_pow2 by done.
  set (q := cp - 65536). change (2 ^ 10) with 1024.
  assert (0 <= q / 1024 < 1024) as Hq
    by (split; [apply Z.div_pos; lia|apply Z.div_lt_upper_bound; lia]).
  rewrite (Z.mod_small (q / 1024)) by done.
  pose proof (Z.mod_pos_bound q 1024 ltac:(done)) as Hm.
  unfold unicode_escape. rewrite hex4_round by lia. cbn [obind rest u_escape app].
  destruct (Z.leb_spec 55296 (55296 + q / 1024)); [|lia].
  destruct (Z.leb_spec (55296 + q / 1024) 56319); [|lia].
  rewrite !bool_decide_true by done. cbn [andb].
  unfold advance. cbn [pos rest skipn]. rewrite drop_0, hex4_round by lia. cbn [obind].
  destruct (Z.leb_spec 56320 (56320 + q mod 1024)); [|lia].
  destruct (Z.leb_spec (56320 + q mod 1024) 57343); [|lia]. cbn [andb].
  f_equal; [|f_equal; lia]. rewrite Z.shiftl_mul_pow2 by done.
  pose proof (Z.div_mod q 1024 ltac:(done)). lia.
Qed.

(** [esc b t]: the bytes [b], read after an opening quote, append [t] to the
    string being read. *)
Definition reads (b t : bytes) : Prop :=
  ∀ fuel out p r, (length (b ++ r) < fuel)%nat →
    ∃ fuel', (length r < fuel')%nat ∧
      string_loop fuel out (Cur p (b ++ r)) = string_loop fuel' (out ++ t) (Cur (p + length b) r).

Lemma reads_nil : reads [] [].
Proof.
  intros fuel out p r Hf. exists fuel. split; [done|]. by rewrite app_nil_r, Nat.add_0_r.
Qed.

Lemma reads_app b1 t1 b2 t2 : reads b1 t1 → reads b2 t2 → reads (b1 ++ b2) (t1 ++ t2).
Proof.
  intros H1 H2 fuel out p r Hf. rewrite <-app_assoc in *.
  destruct (H1 fuel out p (b2 ++ r) Hf) as (f1 & Hf1 & ->).
  destruct (H2 f1 (out ++ t1) (p + length b1)%nat r Hf1) as (f2 & Hf2 & ->).
  exists f2. split; [done|]. by rewrite <-app_assoc, length_app, Nat.add_assoc.
Qed.

Lemma reads_raw c : zb c <? 32 = false → c ≠ quote → c ≠ backslash → reads [c] [c].
Proof.
  intros Hc Hq Hb fuel out p r Hf. destruct fuel as [|fuel]; [simpl in Hf; lia|].
  exists fuel. split; [simpl in Hf; lia|]. simpl. rewrite decide_False by done.
  rewrite decide_True by done. rewrite Hc. unfold advance. cbn [pos rest skipn]. by rewrite ?drop_0.
Qed.

Lemma reads_simple e b : simple_escape e = Some b → reads [backslash; e] [b].
Proof.
  intros He fuel out p r Hf. destruct fuel as [|fuel]; [simpl in Hf; lia|].
  exists fuel. split; [simpl in Hf; lia|]. simpl. rewrite He. unfold advance. cbn [pos rest skipn]. by rewrite ?drop_0.
Qed.

Lemma reads_unicode b cp :
  (∀ p r, unicode_escape (Cur p (b ++ r)) = Done cp (Cur (p + length b) r)) →
  reads (backslash :: "u"%char :: b) (utf8 cp).
Proof.
  intros Hu fuel out p r Hf. destruct fuel as [|fuel]; [simpl in Hf; lia|].
  exists fuel. rewrite length_app in Hf. split; [simpl in Hf; lia|].
  cbn [string_loop app rest]. rewrite decide_False by done. rewrite decide_False by (intros H; by apply H).
  replace (simple_escape "u") with (@None ascii) by done. rewrite decide_True by done.
  unfold advance. cbn [pos rest skipn]. rewrite drop_0, Hu. cbn [obind]. unfold append_utf8. simpl.
  by rewrite <-Nat.add_assoc.
Qed.

Lemma reads_escape_codepoint cp : scalar cp → reads (escape_codepoint cp) (utf8 cp).
Proof.
  intros Hs. unfold scalar in Hs. unfold escape_codepoint. destruct (Z.leb_spec cp 65535).
  - apply reads_unicode. intros p r. rewrite unicode_escape_bmp, length_hex4_digits by lia. done.
  - unfold u_escape at 1. rewrite <-!app_comm_cons. apply reads_unicode. intros p r.
    rewrite <-app_assoc, unicode_escape_pair by lia. done.
Qed.

Lemma reads_escape_ascii c : zb c <? 128 = true → reads (escape_ascii c) [c].
Proof.
  intros Hc. apply Z.ltb_lt in Hc. unfold escape_ascii.
  destruct (decide (c = quote)) as [->|Hq]; [by apply (reads_simple quote)|].
  destruct (decide (c = backslash)) as [->|Hb]; [by apply (reads_simple backslash)|].
  repeat (case_decide; [subst; by apply reads_simple|]).
  destruct (zb c <? 32) eqn:H32; [|by apply reads_raw].
  apply Z.ltb_lt in H32. pose proof (zb_range c).
  assert (utf8 (zb c) = [c]) as <-.
  { unfold utf8. destruct (Z.ltb_spec (zb c) 128); [|lia]. by rewrite byte_of_zb. }
  apply reads_unicode. intros p r. rewrite unicode_escape_bmp by lia. done.
Qed.

(** *** Decoding UTF-8 *)

Lemma lead_byte_spec c :
  lead_byte c =
  if (192 <=? zb c) && (zb c <? 224) then Some (zb c - 192, 1%nat)
  else if (224 <=? zb c) && (zb c <? 240) then Some (zb c - 224, 2%nat)
  else if (240 <=? zb c) && (zb c <? 248) then Some (zb c - 240, 3%nat)
  else None.
Proof.
  apply (bool_decide_eq_true_1 (_ = _)). revert c. apply all_bytes. vm_compute. reflexivity.
Qed.

Lemma continuation_byte x : 0 <= x < 64 →
  Z.land (zb (byte_of (128 + x))) 192 = 128 ∧ Z.land (zb (byte_of (128 + x))) 63 = x.
Proof.
  intros Hx.
  assert (∀ c, implb ((128 <=? zb c) && (zb c <? 192))
    ((Z.land (zb c) 192 =? 128) && (Z.land (zb c) 63 =? zb c - 128)) = true) as Hall
    by (apply all_bytes; vm_compute; reflexivity).
  specialize (Hall (byte_of (128 + x))). rewrite zb_byte_of in Hall |- * by lia.
  destruct (Z.leb_spec 128 (128 + x)); [|lia]. destruct (Z.ltb_spec (128 + x) 192); [|lia].
  simpl in Hall. apply andb_true_iff in Hall as [?%Z.eqb_eq ?%Z.eqb_eq]. split; [done|lia].
Qed.

Lemma continuation_step n cp x s : 0 <= x < 64 →
  continuation (S n) cp (byte_of (128 + x) :: s) = continuation n (cp * 64 + x) s.
Proof.
  intros Hx. destruct (continuation_byte x Hx) as [H1 H2]. cbn [continuation].
  rewrite H1, H2. simpl. change 64 with (2 ^ 6). by rewrite <-lor_shift.
Qed.

Definition escape (cp : Z) : bytes :=
  if cp <? 128 then escape_ascii (byte_of cp) else escape_codepoint cp.

(** One code point at the head of the string. *)
Lemma encode_from_utf8 cp fuel s :
  scalar cp → (length (utf8 cp ++ s) ≤ fuel)%nat →
  ∃ fuel', (length s ≤ fuel')%nat ∧ encode_from fuel (utf8 cp ++ s) = escape cp ++ encode_from fuel' s.
Proof.
  intros Hs. assert (0 <= cp < 1114112) as Hcp by (unfold scalar in Hs; lia).
  assert (∀ x, 0 <= x mod 64 < 64) as Hm by (intros; by apply Z.mod_pos_bound).
  unfold escape. rewrite utf8_arith by done.
  destruct (Z.ltb_spec cp 128) as [Ha|Ha].
  { intros Hf. destruct fuel as [|fuel]; [simpl in Hf; lia|]. exists fuel. split; [simpl in Hf; lia|].
    cbn [app encode_from]. rewrite zb_byte_of by lia. by destruct (Z.ltb_spec cp 128); [|lia]. }
  assert (∀ k n b t, 128 <= k < 256 → lead_byte (byte_of k) = Some (b, n) →
    (length (byte_of k :: t ++ s) ≤ fuel)%nat → continuation n b (t ++ s) = (cp, s) →
    ∃ fuel', (length s ≤ fuel')%nat ∧
      encode_from fuel (byte_of k :: t ++ s) = escape_codepoint cp ++ encode_from fuel' s) as Hgo.
  { intros k n b t Hk Hl Hf Hc. destruct fuel as [|fuel]; [simpl in Hf; lia|].
    exists fuel. split; [simpl in Hf; rewrite length_app in Hf; lia|].
    cbn [encode_from]. rewrite zb_byte_of by lia. destruct (Z.ltb_spec k 128); [lia|].
    by rewrite Hl, Hc. }
  destruct (Z.ltb_spec cp 2048); [|destruct (Z.ltb_spec cp 65536)]; cbn [app]; intros Hf.
  - assert (0 <= cp / 64 < 32) by (split; [apply Z.div_pos; lia|apply Z.div_lt_upper_bound; lia]).
    apply (Hgo _ 1%nat (cp / 64) [_]); [lia| |done|].
    + rewrite lead_byte_spec, zb_byte_of by lia.
      destruct (Z.leb_spec 192 (192 + cp / 64)); [|lia].
      destruct (Z.ltb_spec (192 + cp / 64) 224); [|lia]. simpl. do 2 f_equal. lia.
    + cbn [app]. rewrite continuation_step by apply Hm. cbn [continuation]. f_equal.
      pose proof (Z.div_mod cp 64 ltac:(done)). lia.
  - assert (0 <= cp / 4096 < 16) by (split; [apply Z.div_pos; lia|apply Z.div_lt_upper_bound; lia]).
    apply (Hgo _ 2%nat (cp / 4096) [_; _]); [lia| |done|].
    + rewrite lead_byte_spec, zb_byte_of by lia.
      destruct (Z.ltb_spec (224 + cp / 4096) 224); [lia|]. rewrite andb_false_r.
      destruct (Z.leb_spec 224 (224 + cp / 4096)); [|lia].
      destruct (Z.ltb_spec (224 + cp / 4096) 240); [|lia]. simpl. do 2 f_equal. lia.
    + cbn [app]. rewrite !continuation_step by apply Hm. cbn [continuation]. f_equal.
      assert (cp / 4096 = cp / 64 / 64) as -> by by rewrite Z.div_div.
      pose proof (Z.div_mod cp 64 ltac:(done)). pose proof (Z.div_mod (cp / 64) 64 ltac:(done)). lia.
  - assert (0 <= cp / 262144 < 8) by (split; [apply Z.div_pos; lia|apply Z.div_lt_upper_bound; lia]).
    apply (Hgo _ 3%nat (cp / 262144) [_; _; _]); [lia| |done|].
    + rewrite lead_byte_spec, zb_byte_of by lia.
      destruct (Z.ltb_spec (240 + cp / 262144) 224); [lia|]. rewrite andb_false_r.
      destruct (Z.ltb_spec (240 + cp / 262144) 240); [lia|]. rewrite andb_false_r.
      destruct (Z.leb_spec 240 (240 + cp / 262144)); [|lia].
      destruct (Z.ltb_spec (240 + cp / 262144) 248); [|lia]. simpl. do 2 f_equal. lia.
    + cbn [app]. rewrite !continuation_step by apply Hm. cbn [continuation]. f_equal.
      assert (cp / 262144 = cp / 64 / 64 / 64) as -> by by rewrite !Z.div_div.
      assert (cp / 4096 = cp / 64 / 64) as -> by by rewrite Z.div_div.
      pose proof (Z.div_mod cp 64 ltac:(done)). pose proof (Z.div_mod (cp / 64) 64 ltac:(done)).
      pose proof (Z.div_mod (cp / 64 / 64) 64 ltac:(done)). lia.
Qed.

Lemma reads_encode_from cps fuel :
  Forall scalar cps → (length (utf8s cps) ≤ fuel)%nat →
  reads (encode_from fuel (utf8s cps)) (utf8s cps).
Proof.
  intros Hs. revert fuel. induction Hs as [|cp cps Hcp _ IH]; intros fuel Hf.
  { destruct fuel; apply reads_nil. }
  cbn [utf8s] in Hf |- *.
  destruct (encode_from_utf8 cp fuel (utf8s cps) Hcp Hf) as (f' & Hf' & ->). apply reads_app; [|by apply IH].
  unfold escape. destruct (Z.ltb_spec cp 128) as [Ha|]; [|by apply reads_escape_codepoint].
  assert (0 <= cp) by (unfold scalar in Hcp; lia).
  assert (utf8 cp = [byte_of cp]) as ->.
  { unfold utf8. by destruct (Z.ltb_spec cp 128); [|lia]. }
  apply reads_escape_ascii. rewrite zb_byte_of by lia. by apply Z.ltb_lt.
Qed.

(** Reading what [encode_string] wrote. *)
Lemma parse_string_encode s p t :
  valid_utf8 s →
  parse_string (Cur p (encode_string s ++ t)) = Done s (Cur (p + length (encode_string s)) t).
Proof.
  intros (cps & Hs & ->). unfold parse_string, encode_string.
  set (body := encode_from _ _). rewrite <-app_comm_cons. cbn [expect rest].
  rewrite decide_True by done. cbn [obind]. unfold advance. cbn [pos rest skipn]. rewrite drop_0.
  destruct (reads_encode_from cps (length (utf8s cps)) Hs (le_n _)
    (S (length ((body ++ [quote]) ++ t))) [] (p + 1)%nat ([quote] ++ t)) as (f & Hf & E).
  { unfold body. rewrite <-app_assoc. lia. }
  unfold body in E |- *. rewrite <-app_assoc in E |- *. rewrite E. destruct f as [|f]; [lia|].
  cbn [string_loop rest app]. rewrite decide_True by done. unfold advance. cbn [pos rest skipn].
  rewrite drop_0. f_equal. f_equal. rewrite length_cons, length_app. simpl. lia.
Qed.

(** ** Numbers round trip *)

Definition is_digit (c : ascii) : bool := (48 <=? zb c) && (zb c <=? 57).

Lemma uint_digits d : Forall (λ c, is_digit c = true) (bs (NilEmpty.string_of_uint d)).
Proof. unfold bs. induction d; simpl; constructor; done. Qed.

Lemma uint_nil d : d = Decimal.Nil ∨
  NilZero.string_of_uint d = NilEmpty.string_of_uint d ∧ bs (NilEmpty.string_of_uint d) ≠ [].
Proof. destruct d; [by left|right; done..]. Qed.

Lemma to_string_chars z :
  to_string z ≠ [] ∧ Forall (λ c, is_digit c = true ∨ c = "-"%char) (to_string z).
Proof.
  assert (∀ d, bs (NilZero.string_of_uint d) ≠ [] ∧
    Forall (λ c, is_digit c = true ∨ c = "-"%char) (bs (NilZero.string_of_uint d))) as Hu.
  { intros d. assert (bs (NilZero.string_of_uint d) ≠ [] ∧
      Forall (λ c, is_digit c = true) (bs (NilZero.string_of_uint d))) as [? Hd].
    { destruct (uint_nil d) as [->|[Hd Hne]]; [split; [done|repeat constructor]|].
      rewrite Hd. split; [done|apply uint_digits]. }
    split; [done|]. eapply Forall_impl; [exact Hd|]. by left. }
  unfold to_string, NilZero.string_of_int. destruct (Z.to_int z) as [d|d]; [apply Hu|].
  destruct (Hu d) as [_ Hd]. split; [done|]. constructor; [by right|exact Hd].
Qed.

Lemma strtoll_to_string z : int64_range z = true → strtoll (to_string z) = Some z.
Proof.
  intros Hz.
  assert (Z.of_int <$> NilZero.int_of_string
    (Stdlib.Strings.String.string_of_list_ascii (to_string z)) = Some z) as Hint.
  { unfold to_string, bs. rewrite Stdlib.Strings.String.string_of_list_ascii_of_string.
    pose proof (DecimalZ.of_to z) as Hof.
    destruct (Z.to_int z) as [d|d] eqn:Hd.
    - destruct (uint_nil d) as [->|[_ Hne]]; [by rewrite NilZero.isi_posnil, <-Hof|].
      rewrite NilZero.isi by (intros [= ->]; done). simpl. by rewrite <-Hof.
    - destruct (uint_nil d) as [->|[_ Hne]]; [by rewrite NilZero.isi_negnil, <-Hof|].
      rewrite NilZero.isi by (intros [= ->]; done). simpl. by rewrite <-Hof. }
  unfold strtoll. destruct (to_string_chars z) as [_ Hc].
  assert (∀ t, to_string z ≠ "+"%char :: t) as Hplus.
  { intros t E. rewrite E in Hc. apply Forall_cons in Hc as [[?|?] _]; done. }
  destruct (to_string z) as [|c t]; [by rewrite Hint, Hz|].
  destruct (decide (c = "+"%char)) as [->|Hne]; [by destruct (Hplus t)|].
  replace (match c :: t with
    | "+"%char :: t => Z.of_uint <$> NilZero.uint_of_string (Stdlib.Strings.String.string_of_list_ascii t)
    | _ => Z.of_int <$> NilZero.int_of_string (Stdlib.Strings.String.string_of_list_ascii (c :: t)) end)
    with (Some z); [by rewrite Hz|].
  rewrite <-Hint. clear -Hne. by destruct c as [[] [] [] [] [] [] [] []].
Qed.

(** The text after a value does not extend a number. *)
Definition ends (t : bytes) : Prop := match t with [] => True | x :: _ => is_number_char x = false end.

Lemma take_while_app_stop (p : ascii → bool) l t :
  Forall (λ c, p c = true) l → match t with [] => True | x :: _ => p x = false end →
  take_while p (l ++ t) = l.
Proof.
  intros Hl Ht. induction Hl as [|x l Hx _ IH]; simpl; [|by rewrite Hx, IH].
  destruct t as [|y t]; simpl; [done|]. by rewrite Ht.
Qed.

Lemma parse_number_to_string z p t :
  int64_range z = true → ends t →
  parse_number (Cur p (to_string z ++ t)) = Done (VInt z) (Cur (p + length (to_string z)) t).
Proof.
  intros Hz Ht. destruct (to_string_chars z) as [Hne Hc]. unfold parse_number. cbn [rest].
  assert (∀ c, is_digit c = true ∨ c = "-"%char → is_number_char c = true ∧ is_float_char c = false) as Hch.
  { intros c [Hd| ->]; [|done]. unfold is_number_char. fold (is_digit c). rewrite Hd. split; [done|].
    unfold is_float_char. revert c Hd.
    assert (∀ c, implb (is_digit c) (negb (bool_decide (c = "."%char) || bool_decide (c = "e"%char) ||
      bool_decide (c = "E"%char))) = true) as Hall by (apply all_bytes; vm_compute; reflexivity).
    intros c Hd. specialize (Hall c). rewrite Hd in Hall. simpl in Hall. by apply negb_true_iff in Hall. }
  rewrite take_while_app_stop; [|eapply Forall_impl; [exact Hc|]; intros c H; by apply Hch|done].
  assert (existsb is_float_char (to_string z) = false) as Hf.
  { clear -Hc Hch. induction Hc as [|c l Hc _ IH]; simpl; [done|].
    destruct (Hch c Hc) as [_ ->]. done. }
  rewrite Hf, strtoll_to_string by done. unfold advance. cbn [rest pos].
  rewrite drop_app_length. by destruct (to_string z).
Qed.

(** ** Values round trip *)

(** What the tree must satisfy to be read back: [long long] integers, UTF-8
    strings, distinct keys. *)
Fixpoint well_formed (v : Value) : Prop :=
  match v with
  | VNull | VBool _ => True
  | VInt i => int64_range i = true
  | VStr s => valid_utf8 s
  | VArr a => (fix all (a : list Value) : Prop :=
      match a with [] => True | x :: a => well_formed x ∧ all a end) a
  | VObj o => NoDup o.*1 ∧ (fix all (o : list (bytes * Value)) : Prop :=
      match o with [] => True | (k, x) :: o => valid_utf8 k ∧ well_formed x ∧ all o end) o
  end.

(** The number of containers around the innermost value. *)
Fixpoint height (v : Value) : nat :=
  match v with
  | VArr a => (fix go (a : list Value) : nat :=
      match a with [] => 0%nat | x :: a => Nat.max (S (height x)) (go a) end) a
  | VObj o => (fix go (o : list (bytes * Value)) : nat :=
      match o with [] => 0%nat | (_, x) :: o => Nat.max (S (height x)) (go o) end) o
  | _ => 0%nat
  end.

(** A layout: the white space before an item, before a closing bracket and after
    a colon. *)
Record layout := Layout {
  before_item : nat → bytes;
  before_close : nat → bytes;
  after_colon : bytes
}.

Definition indented : layout :=
  Layout (λ depth, newline :: spaces (2 * (depth + 1))) (λ depth, newline :: spaces (2 * depth)) (bs " ").
Definition compact : layout := Layout (λ _, []) (λ _, []) [].

Section layouts.
Context (y : layout).

Fixpoint write (v : Value) (depth : nat) : bytes :=
  match v with
  | VNull => bs "null"
  | VBool b => if b then bs "true" else bs "false"
  | VInt i => to_string i
  | VStr s => encode_string s
  | VArr [] => bs "[]"
  | VArr a =>
      "["%char :: (fix items (a : list Value) : bytes :=
        match a with
        | [] => []
        | x :: a' => before_item y depth ++ write x (S depth) ++
                     (match a' with [] => [] | _ => ","%char :: items a' end)
        end) a ++ before_close y depth ++ bs "]"
  | VObj [] => bs "{}"
  | VObj o =>
      "{"%char :: (fix members (o : list (bytes * Value)) : bytes :=
        match o with
        | [] => []
        | (k, x) :: o' => before_item y depth ++ encode_string k ++ ":"%char :: after_colon y ++
                          write x (S depth) ++
                          (match o' with [] => [] | _ => ","%char :: members o' end)
        end) o ++ before_close y depth ++ bs "}"
  end.

Definition write_items (depth : nat) : list Value → bytes :=
  fix items (a : list Value) : bytes :=
    match a with
    | [] => []
    | x :: a' => before_item y depth ++ write x (S depth) ++
                 (match a' with [] => [] | _ => ","%char :: items a' end)
    end.

Definition write_members (depth : nat) : list (bytes * Value) → bytes :=
  fix members (o : list (bytes * Value)) : bytes :=
    match o with
    | [] => []
    | (k, x) :: o' => before_item y depth ++ encode_string k ++ ":"%char :: after_colon y ++
                      write x (S depth) ++
                      (match o' with [] => [] | _ => ","%char :: members o' end)
    end.

Lemma write_arr x a depth :
  write (VArr (x :: a)) depth =
  "["%char :: write_items depth (x :: a) ++ before_close y depth ++ bs "]".
Proof. reflexivity. Qed.

Lemma write_obj m o depth :
  write (VObj (m :: o)) depth =
  "{"%char :: write_members depth (m :: o) ++ before_close y depth ++ bs "}".
Proof. destruct m. reflexivity. Qed.
End layouts.

(** Induction over the tree. *)
Section induction.
Context (P : Value → Prop).
Context (Hnull : P VNull) (Hbool : ∀ b, P (VBool b)) (Hint : ∀ i, P (VInt i)) (Hstr : ∀ s, P (VStr s)).
Context (Harr : ∀ a, Forall P a → P (VArr a)) (Hobj : ∀ o, Forall P o.*2 → P (VObj o)).

Fixpoint Value_tree_ind (v : Value) : P v :=
  match v with
  | VNull => Hnull
  | VBool b => Hbool b
  | VInt i => Hint i
  | VStr s => Hstr s
  | VArr a => Harr a ((fix go (a : list Value) : Forall P a :=
      match a with [] => Forall_nil_2 P | x :: a => Forall_cons_2 P x a (Value_tree_ind x) (go a) end) a)
  | VObj o => Hobj o ((fix go (o : list (bytes * Value)) : Forall P o.*2 :=
      match o with
      | [] => Forall_nil_2 P
      | m :: o => Forall_cons_2 P m.2 o.*2 (Value_tree_ind m.2) (go o)
      end) o)
  end.
End induction.

Arguments encode_string : simpl never.

(** Both writers are layouts of one writer. *)
Lemma emit_layout v depth : emit v depth = write indented v depth.
Proof.
  revert depth. induction v as [| | | |a IH|o IH] using Value_tree_ind; intros depth; try done.
  - destruct a as [|x0 a0]; [done|]. rewrite write_arr. cbn [before_close indented].
    change (emit (VArr (x0 :: a0)) depth) with
      ("["%char :: newline :: (fix items (a : list Value) : bytes :=
         match a with
         | [] => []
         | x :: a' =>
             spaces (2 * (depth + 1)) ++ emit x (S depth) ++
             (match a' with [] => [] | _ => bs "," end) ++ newline :: items a'
         end) (x0 :: a0) ++ spaces (2 * depth) ++ bs "]").
    f_equal. set (it := fix items (a : list Value) : bytes := _).
    assert (∀ a, Forall (λ v, ∀ d, emit v d = write indented v d) a → a ≠ [] →
      newline :: it a = write_items indented depth a ++ [newline]) as Hit.
    { clear. induction 1 as [|x a Hx Ha IH]; [done|]. intros _. simpl. rewrite Hx.
      destruct a as [|x' a']; [by rewrite app_nil_r, <-!app_assoc|].
      rewrite <-!app_assoc. simpl in IH |- *. do 2 f_equal. rewrite IH by done. done. }
    transitivity ((newline :: it (x0 :: a0)) ++ spaces (2 * depth) ++ bs "]"); [done|].
    rewrite (Hit (x0 :: a0) IH ltac:(done)). by rewrite <-app_assoc.
  - destruct o as [|m0 o0]; [done|]. rewrite write_obj. cbn [before_close indented].
    change (emit (VObj (m0 :: o0)) depth) with
      ("{"%char :: newline :: (fix members (o : list (bytes * Value)) : bytes :=
         match o with
         | [] => []
         | (k, x) :: o' =>
             spaces (2 * (depth + 1)) ++ encode_string k ++ bs ": " ++ emit x (S depth) ++
             (match o' with [] => [] | _ => bs "," end) ++ newline :: members o'
         end) (m0 :: o0) ++ spaces (2 * depth) ++ bs "}").
    f_equal. set (it := fix members (o : list (bytes * Value)) : bytes := _).
    assert (∀ o, Forall (λ v, ∀ d, emit v d = write indented v d) o.*2 → o ≠ [] →
      newline :: it o = write_members indented depth o ++ [newline]) as Hit.
    { clear. intros o. induction o as [|[k x] o IH]; [done|]. intros Ho _.
      apply Forall_cons in Ho as [Hx Ho]. simpl in Hx. simpl. rewrite Hx.
      destruct o as [|m o']; [by app_norm|].
      app_norm. cbn [app bs] in *. rewrite IH by done. by app_norm. }
    transitivity ((newline :: it (m0 :: o0)) ++ spaces (2 * depth) ++ bs "}"); [done|].
    rewrite (Hit (m0 :: o0) IH ltac:(done)). by rewrite <-app_assoc.
Qed.

Lemma emit_compact_layout v depth : emit_compact v = write compact v depth.
Proof.
  revert depth. induction v as [| | | |a IH|o IH] using Value_tree_ind; intros depth; try done.
  - set (it := fix items (first : bool) (a : list Value) : bytes :=
      match a with
      | [] => []
      | x :: a => (if first then [] else bs ",") ++ emit_compact x ++ items false a
      end).
    assert (emit_compact (VArr a) = "["%char :: it true a ++ bs "]") as -> by done.
    destruct a as [|x0 a0]; [done|]. rewrite write_arr. f_equal. cbn [before_close compact app].
    f_equal. revert IH. generalize (x0 :: a0) as a. clear x0 a0. intros a IH.
    induction IH as [|x a Hx _ IHa]; [done|]. cbn [it write_items before_item compact app].
    rewrite (Hx (S depth)). f_equal. destruct a as [|x' a']; [done|].
    transitivity (","%char :: it true (x' :: a')); [done|]. by rewrite IHa.
  - set (it := fix members (first : bool) (o : list (bytes * Value)) : bytes :=
      match o with
      | [] => []
      | (k, x) :: o =>
          (if first then [] else bs ",") ++ encode_string k ++ bs ":" ++ emit_compact x ++
          members false o
      end).
    assert (emit_compact (VObj o) = "{"%char :: it true o ++ bs "}") as -> by done.
    destruct o as [|m0 o0]; [done|]. rewrite write_obj. f_equal. cbn [before_close compact app].
    f_equal. revert IH. generalize (m0 :: o0) as o. clear m0 o0. intros o.
    induction o as [|[k x] o IHo]; [done|]. intros IH. apply Forall_cons in IH as [Hx IH].
    cbn [it write_members before_item after_colon compact app]. simpl in Hx. rewrite (Hx (S depth)).
    f_equal. change (bs ":" ++ ?r) with (":"%char :: r). f_equal. f_equal.
    destruct o as [|[k' x'] o']; [done|].
    transitivity (","%char :: it true ((k', x') :: o')); [done|]. by rewrite IHo.
Qed.

(** *** White space *)

Lemma skip_ws_app p w t :
  Forall (λ c, is_ws c = true) w → match t with [] => True | x :: _ => is_ws x = false end →
  skip_ws (Cur p (w ++ t)) = Cur (p + length w) t.
Proof.
  intros Hw Ht. unfold skip_ws. cbn [rest pos]. rewrite take_while_app_stop by done.
  f_equal. rewrite drop_while_app by done. destruct t as [|x t]; [done|]. simpl. by rewrite Ht.
Qed.

Lemma skip_ws_id p t : match t with [] => True | x :: _ => is_ws x = false end →
  skip_ws (Cur p t) = Cur p t.
Proof.
  intros Ht. transitivity (skip_ws (Cur p ([] ++ t))); [done|].
  rewrite skip_ws_app by done. simpl. by rewrite Nat.add_0_r.
Qed.

Lemma peek_cons p x t : peek (Cur p (x :: t)) = x.
Proof. done. Qed.

Lemma advance_cons p x t : advance 1 (Cur p (x :: t)) = Cur (p + 1) t.
Proof. unfold advance. cbn [pos rest skipn]. by rewrite drop_0. Qed.

Lemma expect_cons ch p t : expect ch (Cur p (ch :: t)) = Done tt (Cur (p + 1) t).
Proof. unfold expect. cbn [rest]. by rewrite decide_True, advance_cons. Qed.

Definition white (y : layout) : Prop :=
  (∀ d, Forall (λ c, is_ws c = true) (before_item y d)) ∧
  (∀ d, Forall (λ c, is_ws c = true) (before_close y d)) ∧
  Forall (λ c, is_ws c = true) (after_colon y).

Lemma white_indented : white indented.
Proof.
  assert (∀ n, Forall (λ c, is_ws c = true) (spaces n)) as Hs by (intros; by apply Forall_replicate).
  split_and!; [intros; constructor; [done|apply Hs]..|]. repeat constructor.
Qed.

Lemma white_compact : white compact.
Proof. by split_and!. Qed.

(** The first byte of a value decides which parser reads it. *)
Lemma write_head y v d : ∃ c r, write y v d = c :: r ∧ is_ws c = false ∧
  (c = "]"%char → False) ∧ (c = "}"%char → False).
Proof.
  destruct v as [|[]|i|s|[|x a]|[|[k x] o]]; try (eexists _, _; split; [reflexivity|done]).
  - destruct (to_string_chars i) as [Hne Hc]. simpl. destruct (to_string i) as [|c r]; [done|].
    exists c, r. split; [done|]. apply Forall_cons in Hc as [Hc _].
    assert (∀ c, implb (is_digit c || bool_decide (c = "-"%char))
      (negb (is_ws c) && negb (bool_decide (c = "]"%char)) && negb (bool_decide (c = "}"%char))) = true)
      as Hall by (apply all_bytes; vm_compute; reflexivity).
    specialize (Hall c).
    assert (is_digit c || bool_decide (c = "-"%char) = true) as Hd
      by (destruct Hc as [->|Hc]; [done|]; by rewrite (bool_decide_eq_true_2 _ Hc), orb_true_r).
    rewrite Hd in Hall. simpl in Hall. bool_split. by split_and!.
Qed.

Lemma ws_not_number x : is_ws x = true → is_number_char x = false.
Proof.
  intros Hx.
  assert (∀ c, implb (is_ws c) (negb (is_number_char c)) = true) as Hall
    by (apply all_bytes; vm_compute; reflexivity).
  specialize (Hall x). rewrite Hx in Hall. simpl in Hall. by apply negb_true_iff.
Qed.

Lemma ends_ws w c t : Forall (λ c, is_ws c = true) w → is_number_char c = false → ends (w ++ c :: t).
Proof. destruct 1 as [|x w Hx _]; [done|]. intros _. by apply ws_not_number. Qed.

Section read_back.
Context (y : layout) (Hy : white y).

(** What [parse_value] at one level must do for the loops of the level above. *)
Definition reads_value (pv : cursor → outcome Value) (bound d : nat) (x : Value) : Prop :=
  ∀ p t, ends t → (length (write y x d ++ t) < bound)%nat →
    pv (Cur p (write y x d ++ t)) = Done x (Cur (p + length (write y x d)) t).

Lemma items_loop_write pv bound d a done_items fuel p t :
  a ≠ [] → Forall (reads_value pv bound (S d)) a →
  (length (write_items y d a ++ before_close y d ++ "]"%char :: t) < bound)%nat →
  (length (write_items y d a ++ before_close y d ++ "]"%char :: t) < fuel)%nat →
  items_loop pv fuel done_items (Cur p (write_items y d a ++ before_close y d ++ "]"%char :: t)) =
  Done (VArr (done_items ++ a))
    (Cur (p + length (write_items y d a ++ before_close y d ++ bs "]")) t).
Proof.
  destruct Hy as (Hitem & Hclose & _).
  intros Hne Ha. revert done_items fuel p Hne. induction Ha as [|x a Hx Ha IH];
    intros done_items fuel p Hne Hb Hf; [done|].
  destruct fuel as [|fuel]; [lia|]. cbn [items_loop write_items] in *.
  set (tail := match a with [] => [] | _ => ","%char :: write_items y d a end) in *.
  change ((fix items (a : list Value) : bytes := _) a) with (write_items y d a) in *.
  fold tail in Hb, Hf |- *. revert Hb Hf. app_norm. intros Hb Hf.
  destruct (write_head y x (S d)) as (c & r & Hw & Hws & _).
  rewrite skip_ws_app; [|apply Hitem|by rewrite Hw].
  rewrite Hx; [|..].
  - cbn [obind]. destruct a as [|x' a'].
    + unfold tail. cbn [app]. rewrite skip_ws_app by (done || apply Hclose).
      rewrite peek_cons, decide_False, expect_cons by done. cbn [obind].
      f_equal. f_equal. rewrite !length_app. simpl. lia.
    + unfold tail. cbn [app]. rewrite skip_ws_id by done.
      rewrite peek_cons, decide_True, advance_cons by done.
      rewrite IH; [|done| |].
      * f_equal; [by rewrite <-app_assoc|]. f_equal. unfold tail. len_app. lia.
      * revert Hb. unfold tail. len_app. lia.
      * revert Hf. unfold tail. len_app. lia.
  - destruct a; unfold tail; simpl; [by apply ends_ws|done].
  - revert Hb. rewrite !length_app. lia.
Qed.

Lemma set_member_new members k v : k ∉ members.*1 → set_member members k v = members ++ [(k, v)].
Proof.
  induction members as [|m members IH]; [done|]. csimpl. rewrite not_elem_of_cons. intros [Hm Hk].
  rewrite decide_False by done. by rewrite IH.
Qed.

Lemma members_loop_write pv bound d o done_members fuel p t :
  o ≠ [] → Forall (reads_value pv bound (S d)) o.*2 → Forall valid_utf8 o.*1 →
  NoDup (done_members ++ o).*1 →
  (length (write_members y d o ++ before_close y d ++ "}"%char :: t) < bound)%nat →
  (length (write_members y d o ++ before_close y d ++ "}"%char :: t) < fuel)%nat →
  members_loop pv fuel done_members (Cur p (write_members y d o ++ before_close y d ++ "}"%char :: t)) =
  Done (VObj (done_members ++ o))
    (Cur (p + length (write_members y d o ++ before_close y d ++ bs "}")) t).
Proof.
  destruct Hy as (Hitem & Hclose & Hcolon).
  intros Hne Ho. revert done_members fuel p Hne. induction o as [|[k x] o IH];
    intros done_members fuel p Hne Hk Hnd Hb Hf; [done|].
  apply Forall_cons in Ho as [Hx Ho], Hk as [Hkv Hk]. simpl in Hx, Hkv.
  destruct fuel as [|fuel]; [lia|]. cbn [members_loop write_members] in *.
  change ((fix members (o : list (bytes * Value)) : bytes := _) o) with (write_members y d o) in *.
  set (tail := match o with [] => [] | _ => ","%char :: write_members y d o end) in *.
  revert Hb Hf. app_norm. intros Hb Hf.
  destruct (write_head y x (S d)) as (c & r & Hw & Hws & _).
  rewrite skip_ws_app; [|apply Hitem|done].
  rewrite decide_False by (intros H; by apply H).
  rewrite parse_string_encode by done. cbn [obind]. rewrite skip_ws_id, expect_cons by done.
  cbn [obind]. rewrite skip_ws_app; [|done|by rewrite Hw].
  rewrite Hx; [|..].
  - cbn [obind]. assert (k ∉ done_members.*1) as Hkn.
    { rewrite fmap_app in Hnd. apply NoDup_app in Hnd as (_ & Hd & _). intros Hin.
      apply (Hd k Hin). by left. }
    rewrite set_member_new by done. destruct o as [|m' o'].
    + unfold tail. cbn [app]. rewrite skip_ws_app by (done || apply Hclose).
      rewrite peek_cons, decide_False, expect_cons by done. cbn [obind].
      f_equal. f_equal. len_app. simpl. lia.
    + unfold tail. cbn [app]. rewrite skip_ws_id by done.
      rewrite peek_cons, decide_True, advance_cons by done.
      rewrite IH; [|done|done|done| | |].
      * f_equal; [by rewrite <-app_assoc|]. f_equal. unfold tail. len_app. lia.
      * by rewrite <-app_assoc.
      * revert Hb. unfold tail. len_app. lia.
      * revert Hf. unfold tail. len_app. lia.
  - destruct o; unfold tail; simpl; [by apply ends_ws|done].
  - revert Hb. len_app. lia.
Qed.

Lemma well_formed_items a : well_formed (VArr a) → Forall well_formed a.
Proof. simpl. induction a as [|x a IH]; [done|]. intros [? ?]. constructor; auto. Qed.

Lemma well_formed_members o :
  well_formed (VObj o) → NoDup o.*1 ∧ Forall valid_utf8 o.*1 ∧ Forall well_formed o.*2.
Proof.
  simpl. intros [Hnd Ho]. split; [done|]. clear Hnd. induction o as [|[k x] o IH]; [done|].
  destruct Ho as (? & ? & Ho). destruct (IH Ho). split; by constructor.
Qed.

Lemma height_items a x : x ∈ a → (S (height x) ≤ height (VArr a))%nat.
Proof.
  simpl. induction a as [|z a IH]; [by intros ?%elem_of_nil|].
  intros [->|Hx]%elem_of_cons; [lia|]. specialize (IH Hx). lia.
Qed.

Lemma height_members o x : x ∈ o.*2 → (S (height x) ≤ height (VObj o))%nat.
Proof.
  simpl. induction o as [|[k z] o IH]; [by intros ?%elem_of_nil|].
  csimpl. intros [->|Hx]%elem_of_cons; [lia|]. specialize (IH Hx). lia.
Qed.

(** The dispatch of [parse_value] on a number's first byte. *)
Lemma digit_dispatch c :
  is_digit c = true ∨ c = "-"%char →
  c ≠ "{"%char ∧ c ≠ "["%char ∧ c ≠ quote ∧ c ≠ "t"%char ∧ c ≠ "f"%char ∧ c ≠ "n"%char.
Proof.
  intros Hc. assert (∀ c, implb (is_digit c || bool_decide (c = "-"%char))
    (forallb (λ x, negb (bool_decide (c = x))) ["{"; "["; quote; "t"; "f"; "n"]%char) = true) as Hall
    by (apply all_bytes; vm_compute; reflexivity).
  specialize (Hall c).
  assert (is_digit c || bool_decide (c = "-"%char) = true) as Hd
    by (destruct Hc as [->|Hc]; [done|]; by rewrite (bool_decide_eq_true_2 _ Hc), orb_true_r).
  rewrite Hd in Hall. simpl in Hall. bool_split. by split_and!.
Qed.

Lemma literal_write word v p t :
  literal word v (Cur p (word ++ t)) = Done v (Cur (p + length word) t).
Proof.
  unfold literal. cbn [rest]. replace (starts_with word (word ++ t)) with true
    by (symmetry; apply starts_with_spec; by exists t).
  unfold advance. cbn [rest pos]. by rewrite drop_app_length.
Qed.

(** The parser reads back any layout of a well-formed tree. *)
Lemma parse_value_write v fuel d d' :
  well_formed v → (d + height v ≤ kMaxDepth)%nat → reads_value (parse_value fuel d) fuel d' v.
Proof.
  revert fuel d d'. induction v as [|b|i|s|a IH|o IH] using Value_tree_ind;
    intros fuel d d' Hwf Hh p t Ht Hf; (destruct fuel as [|fuel]; [lia|]); cbn [parse_value];
    (replace (kMaxDepth <? d)%nat with false by (symmetry; apply Nat.ltb_ge; lia)); cbn zeta.
  - apply (literal_write (bs "null")).
  - destruct b; [apply (literal_write (bs "true"))|apply (literal_write (bs "false"))].
  - cbn [write] in *. destruct (to_string_chars i) as [Hne Hc].
    rewrite <-(parse_number_to_string i p t) by done.
    destruct (to_string i) as [|c r]; [done|]. apply Forall_cons in Hc as [Hc _].
    destruct (digit_dispatch c Hc) as (? & ? & ? & ? & ? & ?).
    rewrite <-app_comm_cons, peek_cons, !decide_False by done. done.
  - cbn [write] in *. assert (peek (Cur p (encode_string s ++ t)) = quote) as -> by done.
    rewrite !(decide_False (P:=quote = _)), decide_True by done.
    rewrite parse_string_encode by done. done.
  - destruct a as [|x0 a0].
    { change (write y (VArr []) d' ++ t) with ("["%char :: "]"%char :: t).
      rewrite peek_cons, decide_False, decide_True by done. unfold parse_array.
      rewrite expect_cons. cbn [obind]. rewrite skip_ws_id, peek_cons, decide_True, advance_cons by done.
      f_equal. f_equal. simpl. lia. }
    apply well_formed_items in Hwf. rewrite write_arr in *. revert Hf. app_norm. intros Hf.
    rewrite peek_cons, decide_False, decide_True by done. unfold parse_array.
    rewrite expect_cons. cbn [obind].
    destruct (write_head y x0 (S d')) as (c & r & Hw & Hws & Hc1 & _).
    assert (∃ w z, write_items y d' (x0 :: a0) ++ before_close y d' ++ bs "]" ++ t =
      before_item y d' ++ w :: z ∧ is_ws w = false ∧ w ≠ "]"%char) as (w & z & Heq & Hww & Hwb).
    { cbn [write_items]. rewrite Hw. app_norm. eexists _, _. split; [done|]. split; [done|].
      intros ->. by apply Hc1. }
    rewrite Heq, skip_ws_app by (done || apply Hy). rewrite peek_cons, decide_False by done.
    assert (items_loop (parse_value fuel (S d)) fuel [] (Cur (p + 1 + length (before_item y d')) (w :: z)) =
      items_loop (parse_value fuel (S d)) fuel [] (Cur (p + 1) (before_item y d' ++ w :: z))) as ->.
    { destruct fuel as [|fuel]; [done|]. cbn [items_loop].
      rewrite (skip_ws_app (p + 1)) by (done || apply Hy). by rewrite skip_ws_id. }
    rewrite <-Heq. change (bs "]" ++ t) with ("]"%char :: t).
    rewrite (items_loop_write _ fuel); [|done| | |].
    + f_equal. f_equal. rewrite length_cons. lia.
    + apply Forall_forall. intros x Hx. apply Forall_forall with (x:=x) in IH, Hwf; [|done..].
      apply IH; [done|]. pose proof (height_items _ _ Hx). lia.
    + simpl in Hf |- *. lia.
    + simpl in Hf |- *. lia.
  - destruct o as [|m0 o0].
    { change (write y (VObj []) d' ++ t) with ("{"%char :: "}"%char :: t).
      rewrite peek_cons, decide_True by done. unfold parse_object.
      rewrite expect_cons. cbn [obind]. rewrite skip_ws_id, peek_cons, decide_True, advance_cons by done.
      f_equal. f_equal. simpl. lia. }
    apply well_formed_members in Hwf as (Hnd & Hkeys & Hwf). rewrite write_obj in *.
    revert Hf. app_norm. intros Hf.
    rewrite peek_cons, decide_True by done. unfold parse_object. rewrite expect_cons. cbn [obind].
    assert (∃ z, write_members y d' (m0 :: o0) ++ before_close y d' ++ bs "}" ++ t =
      before_item y d' ++ quote :: z) as (z & Heq).
    { destruct m0. cbn [write_members]. unfold encode_string. app_norm. by eexists. }
    rewrite Heq, skip_ws_app by (done || apply Hy). rewrite peek_cons, decide_False by done.
    assert (members_loop (parse_value fuel (S d)) fuel [] (Cur (p + 1 + length (before_item y d')) (quote :: z)) =
      members_loop (parse_value fuel (S d)) fuel [] (Cur (p + 1) (before_item y d' ++ quote :: z))) as ->.
    { destruct fuel as [|fuel]; [done|]. cbn [members_loop].
      rewrite (skip_ws_app (p + 1)) by (done || apply Hy). by rewrite skip_ws_id. }
    rewrite <-Heq. change (bs "}" ++ t) with ("}"%char :: t).
    rewrite (members_loop_write _ fuel); [|done| |done|done| |].
    + f_equal. f_equal. rewrite length_cons. lia.
    + apply Forall_forall. intros x Hx. apply Forall_forall with (x:=x) in IH, Hwf; [|done..].
      apply IH; [done|]. pose proof (height_members _ _ Hx). lia.
    + simpl in Hf |- *. lia.
    + simpl in Hf |- *. lia.
Qed.

Lemma parse_write v :
  well_formed v → (height v ≤ kMaxDepth)%nat → parse (write y v 0) = Some (Ok v).
Proof.
  intros Hwf Hh. unfold parse, parse_document.
  destruct (write_head y v 0) as (c & r & Hw & Hws & _).
  rewrite skip_ws_id by by rewrite Hw.
  pose proof (parse_value_write v (S (length (write y v 0))) 0 0%nat Hwf Hh 0%nat []) as Hp.
  rewrite app_nil_r in Hp. rewrite Hp by (done || lia). done.
Qed.
End read_back.

(** ** The parser always answers *)

(** [ends_by n P m]: [m] is not out of fuel, and if it is done the cursor has at
    most [n] bytes left and the value satisfies [P]. *)
Definition ends_by {A} (n : nat) (P : A → Prop) (m : outcome A) : Prop :=
  match m with
  | Done a c => (length (rest c) ≤ n)%nat ∧ P a
  | Throw _ => True
  | Fuel => False
  end.

Lemma ends_by_bind {A B} n n' (P : A → Prop) (Q : B → Prop) m (k : A → cursor → outcome B) :
  ends_by n P m → (∀ a c, (length (rest c) ≤ n)%nat → P a → ends_by n' Q (k a c)) →
  ends_by n' Q (obind m k).
Proof. destruct m as [a c| |]; simpl; [|done..]. intros [Hl HP] Hk. by apply Hk. Qed.

Lemma ends_by_le {A} n n' (P : A → Prop) m : ends_by n P m → (n ≤ n')%nat → ends_by n' P m.
Proof. destruct m; simpl; [|done..]. intros [? ?] ?. split; [lia|done]. Qed.

Definition left (c : cursor) : nat := length (rest c).

Lemma left_skip_ws c : (left (skip_ws c) ≤ left c)%nat.
Proof.
  unfold left, skip_ws. cbn [rest]. rewrite <-(take_drop_while is_ws (rest c)) at 2. len_app. lia.
Qed.

Lemma left_advance n c : left (advance n c) = (left c - n)%nat.
Proof. unfold left, advance. cbn [rest]. apply length_drop. Qed.

Lemma peek_left x c : peek c = x → x ≠ "000"%char → (0 < left c)%nat.
Proof. unfold peek, left. destruct (rest c); simpl; [by intros <-|lia]. Qed.

Lemma ends_advance {A} (a : A) n c m (P : A → Prop) :
  (left c - n ≤ m)%nat → P a → ends_by m P (Done a (advance n c)).
Proof. intros Hl HP. split; [|done]. change (left (advance n c) ≤ m)%nat. by rewrite left_advance. Qed.

Lemma expect_ends ch c : ends_by (left c - 1) (λ _, True) (expect ch c).
Proof.
  unfold expect. destruct (rest c) as [|x r] eqn:Hr; [done|]. case_decide; [|done].
  by apply ends_advance.
Qed.

Lemma hex_loop_ends k cp c : ends_by (left c) (λ _, True) (hex_loop k cp c).
Proof.
  revert cp c. induction k as [|k IH]; intros cp c; [done|]. cbn [hex_loop].
  destruct (rest c) as [|x r] eqn:Hr; [done|]. destruct (hex_value x); [|done].
  eapply ends_by_le; [apply IH|]. rewrite left_advance. lia.
Qed.

Lemma hex4_ends c : ends_by (left c) (λ _, True) (hex4 c).
Proof. unfold hex4. case_match; [done|apply hex_loop_ends]. Qed.

Lemma unicode_escape_ends c : ends_by (left c) (λ _, True) (unicode_escape c).
Proof.
  unfold unicode_escape. eapply ends_by_bind; [apply hex4_ends|]. intros cp c1 Hl _.
  destruct (rest c1) as [|x [|z r]] eqn:Hr; try (split; [by rewrite Hr|done]).
  assert (ends_by (left c) (λ _ : Z, True) (Done cp c1)) as Hd by (split; [by rewrite Hr|done]).
  case_match; [|done]. eapply ends_by_bind; [apply hex4_ends|]. intros lo c2 Hl2 _.
  case_match; [|done]. split; [|done]. rewrite left_advance in Hl2. unfold left in Hl2.
  rewrite Hr in Hl2. simpl in *. lia.
Qed.

Lemma string_loop_ends fuel out c : (left c < fuel)%nat →
  ends_by (left c) (λ _, True) (string_loop fuel out c).
Proof.
  revert out c. induction fuel as [|fuel IH]; intros out c Hf; [lia|]. cbn [string_loop].
  destruct (rest c) as [|x r] eqn:Hr; [done|].
  assert (left c = S (length r)) as Hlc by (unfold left; by rewrite Hr).
  assert (∀ n o, (0 < n ≤ left c)%nat → ends_by (left c) (λ _, True) (string_loop fuel o (advance n c))) as Hgo.
  { intros n o Hn. eapply ends_by_le; [apply IH|]; rewrite left_advance; lia. }
  case_decide; [apply ends_advance; [lia|done]|].
  case_decide; [case_match; [done|]; apply Hgo; lia|].
  destruct r as [|e r]; [done|]. destruct (simple_escape e); [apply Hgo; simpl in Hlc; lia|].
  case_decide; [|done]. eapply ends_by_bind; [apply unicode_escape_ends|].
  intros cp c1 Hl _. rewrite left_advance in Hl. fold (left c1) in Hl. simpl in Hlc.
  eapply ends_by_le; [apply IH; lia|lia].
Qed.

Lemma parse_string_ends c : ends_by (left c - 1) (λ _, True) (parse_string c).
Proof.
  unfold parse_string. eapply ends_by_bind; [apply expect_ends|]. intros _ c1 Hl _.
  eapply ends_by_le; [apply string_loop_ends; unfold left; lia|exact Hl].
Qed.

(** What the parser guarantees of a tree it returns. *)
Fixpoint bounded (v : Value) : Prop :=
  match v with
  | VInt i => int64_range i = true
  | VArr a => (fix all (a : list Value) : Prop :=
      match a with [] => True | x :: a => bounded x ∧ all a end) a
  | VObj o => NoDup o.*1 ∧ (fix all (o : list (bytes * Value)) : Prop :=
      match o with [] => True | (_, x) :: o => bounded x ∧ all o end) o
  | _ => True
  end.

Definition fits (d : nat) (v : Value) : Prop := bounded v ∧ (d + height v ≤ kMaxDepth)%nat.

Lemma fits_arr d a : (d ≤ kMaxDepth)%nat → Forall (fits (S d)) a → fits d (VArr a).
Proof.
  intros Hd Ha. unfold fits. simpl. induction Ha as [|x a [Hx Hh] _ [IHb IHh]]; [split; [done|lia]|].
  split; [done|]. lia.
Qed.

Lemma fits_obj d o : (d ≤ kMaxDepth)%nat → NoDup o.*1 → Forall (fits (S d)) o.*2 → fits d (VObj o).
Proof.
  intros Hd Hnd Ho. unfold fits. simpl.
  assert ((fix all (o : list (bytes * Value)) : Prop :=
      match o with [] => True | (_, x) :: o => bounded x ∧ all o end) o ∧
    (d + (fix go (o : list (bytes * Value)) : nat :=
      match o with [] => 0%nat | (_, x) :: o => Nat.max (S (height x)) (go o) end) o ≤ kMaxDepth)%nat)
    as [? ?]; [|done]. clear Hnd.
  induction o as [|[k x] o IH]; [split; [done|lia]|]. apply Forall_cons in Ho as [[Hx Hh] Ho].
  destruct (IH Ho). simpl in *. split; [done|]. lia.
Qed.

Lemma set_member_keys members k v :
  NoDup members.*1 → NoDup (set_member members k v).*1 ∧
  ∀ x, x ∈ (set_member members k v).*1 → x ∈ members.*1 ∨ x = k.
Proof.
  induction members as [|[k' v'] members IH]; csimpl; intros Hnd.
  { split; [apply NoDup_singleton|]. intros x ->%list_elem_of_singleton. by right. }
  apply NoDup_cons in Hnd as [Hk Hnd]. case_decide; csimpl.
  - split; [by constructor|]. auto.
  - destruct (IH Hnd) as [Hn Hi]. split.
    + constructor; [|done]. intros [?|?]%Hi; done.
    + intros x [->|Hx]%elem_of_cons; [left; by left|]. apply Hi in Hx as [?|?]; [left; by right|by right].
Qed.

Lemma set_member_values (P : Value → Prop) members k v :
  Forall P members.*2 → P v → Forall P (set_member members k v).*2.
Proof.
  induction members as [|[k' v'] members IH]; csimpl; intros Hm Hv; [by constructor|].
  apply Forall_cons in Hm as [? ?]. case_decide; csimpl; constructor; auto.
Qed.

Section loops.
Context (pv : cursor → outcome Value) (bound d : nat).
Context (Hpv : ∀ c, (left c < bound)%nat → ends_by (left c - 1) (fits (S d)) (pv c)).
Context (Hd : (d ≤ kMaxDepth)%nat).

Lemma items_loop_ends fuel done_items c :
  (left c < fuel)%nat → (left c < bound)%nat → Forall (fits (S d)) done_items →
  ends_by (left c - 1) (fits d) (items_loop pv fuel done_items c).
Proof.
  revert done_items c. induction fuel as [|fuel IH]; intros done_items c Hf Hb Hi; [lia|].
  cbn [items_loop]. pose proof (left_skip_ws c).
  eapply ends_by_bind; [apply Hpv; lia|]. intros v c1 Hl Hv. fold (left c1) in Hl.
  pose proof (left_skip_ws c1).
  assert (Forall (fits (S d)) (done_items ++ [v])) as Hi' by (apply Forall_app; split; [done|by constructor]).
  case_decide as Hp.
  - apply peek_left in Hp; [|done]. eapply ends_by_le; [apply IH; [..|done]|]; rewrite left_advance; lia.
  - eapply ends_by_bind; [apply expect_ends|]. intros _ c2 Hl2 _. split; [lia|]. by apply fits_arr.
Qed.

Lemma members_loop_ends fuel members c :
  (left c < fuel)%nat → (left c < bound)%nat → NoDup members.*1 → Forall (fits (S d)) members.*2 →
  ends_by (left c - 1) (fits d) (members_loop pv fuel members c).
Proof.
  revert members c. induction fuel as [|fuel IH]; intros members c Hf Hb Hn Hi; [lia|].
  cbn [members_loop]. pose proof (left_skip_ws c). case_decide as Hq; [done|].
  apply peek_left in Hq; [|done].
  eapply ends_by_bind; [apply parse_string_ends|]. intros key c1 Hl1 _. fold (left c1) in Hl1.
  pose proof (left_skip_ws c1).
  eapply ends_by_bind; [apply expect_ends|]. intros _ c2 Hl2 _. fold (left c2) in Hl2.
  pose proof (left_skip_ws c2).
  eapply ends_by_bind; [apply Hpv; lia|]. intros v c3 Hl3 Hv. fold (left c3) in Hl3.
  pose proof (left_skip_ws c3).
  destruct (set_member_keys members key v Hn) as [Hn' _].
  pose proof (set_member_values _ members key v Hi Hv) as Hi'.
  case_decide as Hp.
  - apply peek_left in Hp; [|done].
    eapply ends_by_le; [apply IH; [..|done|done]|]; rewrite left_advance; lia.
  - eapply ends_by_bind; [apply expect_ends|]. intros _ c4 Hl4 _. split; [lia|]. by apply fits_obj.
Qed.
End loops.

Lemma literal_ends word v c d : word ≠ [] → (d ≤ kMaxDepth)%nat → fits d v → ends_by (left c - 1) (fits d) (literal word v c).
Proof.
  intros Hw Hd Hv. unfold literal. case_match; [|done]. apply ends_advance; [|done].
  destruct word; [done|]. simpl. lia.
Qed.

Lemma strtoll_range text z : strtoll text = Some z → int64_range z = true.
Proof.
  unfold strtoll. intros H. case_match; [|done]. destruct (int64_range z0) eqn:E; [|done].
  by injection H as <-.
Qed.

Lemma parse_number_ends c d : (d ≤ kMaxDepth)%nat → ends_by (left c - 1) (fits d) (parse_number c).
Proof.
  intros Hd. unfold parse_number.
  destruct (take_while is_number_char (rest c)) as [|x t] eqn:Ht; [done|].
  case_match; [done|]. destruct (strtoll (x :: t)) as [z|] eqn:Hz; [|done].
  apply ends_advance; [simpl; lia|].
  split; [by eapply strtoll_range|simpl; lia].
Qed.

Lemma parse_value_ends fuel d c : (left c < fuel)%nat →
  ends_by (left c - 1) (fits d) (parse_value fuel d c).
Proof.
  revert d c. induction fuel as [|fuel IH]; intros d c Hf; [lia|]. cbn [parse_value].
  destruct (Nat.ltb_spec kMaxDepth d) as [|Hd]; [done|]. cbn zeta.
  assert (∀ c, (left c < fuel)%nat → ends_by (left c - 1) (fits (S d)) (parse_value fuel (S d) c)) as Hpv
    by (intros c'; apply IH).
  case_decide as Hb.
  { apply peek_left in Hb; [|done]. unfold parse_object. eapply ends_by_bind; [apply expect_ends|].
    intros _ c1 Hl _. fold (left c1) in Hl. pose proof (left_skip_ws c1). case_decide as Hp.
    - apply ends_advance; [lia|].
      apply fits_obj; [done|constructor|constructor].
    - eapply ends_by_le; [apply (members_loop_ends _ fuel d Hpv Hd); [lia|lia|constructor|constructor]|lia]. }
  case_decide as Hb2.
  { apply peek_left in Hb2; [|done]. unfold parse_array. eapply ends_by_bind; [apply expect_ends|].
    intros _ c1 Hl _. fold (left c1) in Hl. pose proof (left_skip_ws c1). case_decide as Hp.
    - apply ends_advance; [lia|].
      apply fits_arr; [done|constructor].
    - eapply ends_by_le; [apply (items_loop_ends _ fuel d Hpv Hd); [lia|lia|constructor]|lia]. }
  case_decide.
  { eapply ends_by_bind; [apply parse_string_ends|]. intros s c1 Hl _. split; [done|].
    split; [done|simpl; lia]. }
  repeat (case_decide; [apply literal_ends; [done|done|split; [done|simpl; lia]]|]).
  by apply parse_number_ends.
Qed.

(** ** The output is printable ASCII *)

Definition printable (c : ascii) : Prop := 32 <= zb c < 128.

Lemma printable_hex4 n : Forall printable (hex4_digits n).
Proof.
  assert (∀ d, 0 <= d < 16 → printable (hex_digit d)) as Hd.
  { intros d Hd. unfold printable, hex_digit. destruct (Z.ltb_spec d 10); rewrite zb_byte_of; lia. }
  repeat constructor; apply Hd; by apply Z.mod_pos_bound.
Qed.

Lemma printable_u_escape n : Forall printable (u_escape n).
Proof. do 2 (constructor; [done|]). apply printable_hex4. Qed.

Lemma printable_escape_ascii c : zb c <? 128 = true → Forall printable (escape_ascii c).
Proof.
  intros Hc%Z.ltb_lt. unfold escape_ascii. repeat case_decide; try by repeat constructor.
  destruct (Z.ltb_spec (zb c) 32); [apply printable_u_escape|]. by repeat constructor.
Qed.

Lemma printable_encode_from fuel s : Forall printable (encode_from fuel s).
Proof.
  revert s. induction fuel as [|fuel IH]; intros [|c s]; try constructor. cbn [encode_from].
  destruct (zb c <? 128) eqn:Hc; [apply Forall_app; split; [by apply printable_escape_ascii|apply IH]|].
  destruct (lead_byte c) as [[cp n]|]; [|apply Forall_app; split; [by repeat constructor|apply IH]].
  destruct (continuation n cp s) as [cp' s']. apply Forall_app; split; [|apply IH].
  unfold escape_codepoint. case_match; [|apply Forall_app; split]; apply printable_u_escape.
Qed.

Lemma printable_encode_string s : Forall printable (encode_string s).
Proof.
  unfold encode_string. constructor; [done|]. apply Forall_app. split; [apply printable_encode_from|].
  by repeat constructor.
Qed.

Lemma printable_to_string z : Forall printable (to_string z).
Proof.
  destruct (to_string_chars z) as [_ Hc]. eapply Forall_impl; [exact Hc|]. intros c [Hd| ->]; [|done].
  unfold is_digit in Hd. apply andb_true_iff in Hd as [?%Z.leb_le ?%Z.leb_le]. unfold printable. lia.
Qed.

Lemma printable_write y v d :
  (∀ d, Forall printable (before_item y d) ∧ Forall printable (before_close y d)) →
  Forall printable (after_colon y) → Forall printable (write y v d).
Proof.
  intros Hws Hcol. revert d. induction v as [|[]|i|s|a IH|o IH] using Value_tree_ind; intros d.
  1-3: by repeat constructor.
  - apply printable_to_string.
  - apply printable_encode_string.
  - destruct a as [|x0 a0]; [by repeat constructor|]. rewrite write_arr. constructor; [done|].
    apply Forall_app. split; [|apply Forall_app; split; [apply Hws|by repeat constructor]].
    revert IH. generalize (x0 :: a0) as a. clear x0 a0. induction 1 as [|x a Hx _ IHa]; [constructor|].
    cbn [write_items]. repeat (apply Forall_app; split); [apply Hws|apply Hx|].
    destruct a; [constructor|]. by constructor.
  - destruct o as [|m0 o0]; [by repeat constructor|]. rewrite write_obj. constructor; [done|].
    apply Forall_app. split; [|apply Forall_app; split; [apply Hws|by repeat constructor]].
    revert IH. generalize (m0 :: o0) as o. clear m0 o0. intros o.
    induction o as [|[k x] o IHo]; [constructor|]. intros IH. apply Forall_cons in IH as [Hx IH].
    cbn [write_members]. apply Forall_app; split; [apply Hws|].
    apply Forall_app; split; [apply printable_encode_string|]. constructor; [done|].
    repeat (apply Forall_app; split); [done|apply Hx|].
    destruct o; [constructor|]. constructor; [done|]. by apply IHo.
Qed.

(** ** Trees built by a client *)

(** A tree that reads back, with at most [n] containers around a leaf. *)
Definition storable (n : nat) (v : Value) : Prop := well_formed v ∧ (height v ≤ n)%nat.

Lemma storable_str n s : valid_utf8 s → storable n (VStr s).
Proof. split; [done|simpl; lia]. Qed.

Lemma storable_int n i : int64_range i = true → storable n (VInt i).
Proof. split; [done|simpl; lia]. Qed.

Lemma storable_bool n b : storable n (VBool b).
Proof. split; [done|simpl; lia]. Qed.

Lemma storable_arr n a : Forall (storable n) a → storable (S n) (VArr a).
Proof.
  unfold storable. simpl. induction 1 as [|x a [Hw Hh] _ [IHw IHh]]; simpl; [lia|].
  split; [done|]. lia.
Qed.

Lemma storable_obj n o :
  NoDup o.*1 → Forall valid_utf8 o.*1 → Forall (storable n) o.*2 → storable (S n) (VObj o).
Proof.
  intros Hnd Hk Hv. unfold storable. simpl. apply and_assoc. split; [done|]. clear Hnd.
  induction o as [|[k x] o IH]; csimpl in *; [split; [done|lia]|].
  apply Forall_cons in Hk as [Hk1 Hk]. apply Forall_cons in Hv as [[Hw Hh] Hv].
  destruct (IH Hk Hv) as [IHw IHh]. split; [done|]. lia.
Qed.

Lemma storable_parse v :
  storable kMaxDepth v → parse (dumps_indent2 v) = Some (Ok v).
Proof.
  intros [Hwf Hh]. unfold dumps_indent2. rewrite emit_layout.
  apply parse_write; [apply white_indented|done|done].
Qed.

Lemma valid_utf8_app s t : valid_utf8 s → valid_utf8 t → valid_utf8 (s ++ t).
Proof.
  intros (a & Ha & ->) (b & Hb & ->). exists (a ++ b). split; [by apply Forall_app|].
  induction Ha as [|x a _ _ IH]; simpl; [done|]. by rewrite <- app_assoc, IH.
Qed.

Definition ascii_text (s : bytes) : bool := forallb (λ c, zb c <? 128) s.

Lemma valid_utf8_ascii s : ascii_text s = true → valid_utf8 s.
Proof.
  induction s as [|c s IH]; intros H; [by exists []|]. simpl in H. bool_split.
  apply (valid_utf8_app [c]); [|auto]. exists [zb c]. split.
  - constructor; [|constructor]. left. pose proof (zb_range c). lia.
  - simpl. unfold utf8. rewrite (proj2 (Z.ltb_lt (zb c) 128)) by lia. by rewrite byte_of_zb.
Qed.

Lemma ascii_keys (keys : list bytes) : forallb ascii_text keys = true → Forall valid_utf8 keys.
Proof.
  induction keys as [|k keys IH]; intros H; [constructor|]. simpl in H. bool_split.
  constructor; [by apply valid_utf8_ascii|auto].
Qed.

(** ** Properties *)

(** C37: what the writer prints, the reader reads back.  A tree with [long long]
    integers, UTF-8 strings, distinct keys and at most [kMaxDepth] levels is
    returned unchanged from both its indented and its compact text. *)
Theorem json_round_trip v :
  well_formed v → (height v ≤ kMaxDepth)%nat →
  parse (dumps_indent2 v) = Some (Ok v) ∧ parse (dumps_compact v) = Some (Ok v).
Proof.
  intros Hwf Hh. unfold dumps_indent2, dumps_compact. rewrite emit_layout, (emit_compact_layout v 0).
  split; apply parse_write; [apply white_indented|done|done|apply white_compact|done|done].
Qed.

Definition sample_value : Value :=
  VObj [(bs "k", VArr [VInt (-9223372036854775808); VStr (utf8 128512 ++ bs "\");
    VObj []; VBool false]); ([], VNull)].

Lemma sample_well_formed : well_formed sample_value.
Proof.
  assert (valid_utf8 (bs "k")) as Hk by (exists [107]; split; [constructor; [left; lia|constructor]|done]).
  assert (valid_utf8 []) as He by (exists []; split; [constructor|done]).
  assert (valid_utf8 (utf8 128512 ++ bs "\")) as Hs.
  { exists [128512; 92]. split; [|done].
    constructor; [right; lia|]. constructor; [left; lia|constructor]. }
  cbn [sample_value well_formed]. split_and!;
    first [exact Hk|exact He|exact Hs|by apply NoDup_nil|by vm_compute|idtac].
  apply (bool_decide_unpack _). by vm_compute.
Qed.

Lemma json_round_trip_witness :
  dumps_compact sample_value ≠ dumps_indent2 sample_value ∧
  parse (dumps_indent2 sample_value) = Some (Ok sample_value) ∧
  parse (dumps_compact sample_value) = Some (Ok sample_value).
Proof.
  split; [by vm_compute|]. apply (json_round_trip sample_value sample_well_formed). vm_compute. lia.
Defined.

(** C39: the reader answers on every text.  It never loops, and a tree it accepts
    has only integers of 64 bits, no duplicate keys, and no more than
    [kMaxDepth] levels of nesting. *)
Theorem parse_total text :
  ∃ r, parse text = Some r ∧
    ∀ v, r = Ok v → bounded v ∧ (height v ≤ kMaxDepth)%nat.
Proof.
  assert (ends_by (length text) (fits 0) (parse_document text)) as H.
  { unfold parse_document.
    assert (left (skip_ws (Cur 0 text)) ≤ length text)%nat as Hl by apply (left_skip_ws (Cur 0 text)).
    eapply ends_by_bind; [apply parse_value_ends; lia|].
    intros v c Hc Hv. cbn zeta. destruct (rest (skip_ws c)) as [|x r] eqn:Hr; [|done]. split; [|done].
    rewrite Hr. simpl. lia. }
  unfold parse. destruct (parse_document text) as [v c|e|]; [| |done].
  - exists (Ok v). split; [done|]. intros v' [= <-]. destruct H as [_ [Hb Hh]]. split; [done|]. lia.
  - exists (Err e). split; [done|]. done.
Qed.

(** [dumps_compact] prints one line of ASCII for any tree, even one with
    malformed UTF-8, so a newline-delimited protocol can frame it. *)
Theorem compact_one_line v :
  Forall (λ c, 32 <= zb c < 128) (dumps_compact v) ∧ newline ∉ dumps_compact v.
Proof.
  unfold dumps_compact. rewrite (emit_compact_layout v 0).
  assert (Forall printable (write compact v 0)) as Hp by (by apply printable_write; repeat constructor).
  split; [exact Hp|]. intros Hn. eapply Forall_forall in Hp; [|exact Hn].
  unfold printable in Hp. vm_compute in Hp. by destruct Hp as [[] _].
Qed.

(** The reader accepts a sign and leading zeros that JSON does not have. *)
Example lenient_numbers : parse (bs "[+5, 007]") = Some (Ok (VArr [VInt 5; VInt 7])).
Proof. vm_compute. reflexivity. Qed.
