(* ===== verification/JsonMin.v ===== *)
(** * The string-array codec: [src/src/util/json_min.cpp]

    The format of the [compile_options] column.  The index [i] into the text is
    a [Json.cursor]; the functions are separate from [Json]'s because the source
    has its own copies with their own messages and offsets. *)

From S2P Require Export Json.

Open Scope Z_scope.

(** ** Decoding *)

Definition fail {A} (what : bytes) (p : nat) : outcome A :=
  Throw (bs "json_min: " ++ what ++ bs " at offset " ++ to_string (Z.of_nat p)).

Definition append_utf8 (out : bytes) (cp : Z) : bytes :=
  if cp <? 128 then out ++ [byte_of cp]
  else if cp <? 2048 then
    out ++ [byte_of (Z.lor 192 (Z.shiftr cp 6)); byte_of (Z.lor 128 (Z.land cp 63))]
  else if cp <? 65536 then
    out ++ [byte_of (Z.lor 224 (Z.shiftr cp 12)); byte_of (Z.lor 128 (Z.land (Z.shiftr cp 6) 63));
            byte_of (Z.lor 128 (Z.land cp 63))]
  else
    out ++ [byte_of (Z.lor 240 (Z.shiftr cp 18)); byte_of (Z.lor 128 (Z.land (Z.shiftr cp 12) 63));
            byte_of (Z.lor 128 (Z.land (Z.shiftr cp 6) 63)); byte_of (Z.lor 128 (Z.land cp 63))].

(** The loop over [s[i + k]]; [None] at a bad digit. *)
Fixpoint hex_digits (k : nat) (v : Z) (s : bytes) : option Z :=
  match k, s with
  | S k, x :: s =>
      match hex_value x with
      | Some d => hex_digits k (Z.lor (Z.shiftl v 4) d) s
      | None => None
      end
  | _, _ => Some v
  end.

Definition parse_hex4 (c : cursor) : outcome Z :=
  if (length (rest c) <? 4)%nat then fail (bs "truncated \u escape") (pos c)
  else
    match hex_digits 4 0 (rest c) with
    | Some v => Done v (advance 4 c)
    | None => fail (bs "bad hex digit in \u escape") (pos c)
    end.

(** The [case 'u'] of [parse_string]. *)
Definition unicode_escape (c : cursor) : outcome Z :=
  do cp, c1 <- parse_hex4 c;
  if (55296 <=? cp) && (cp <=? 56319) then
    match rest c1 with
    | x :: y :: _ =>
        if bool_decide (x = backslash) && bool_decide (y = "u"%char) then
          do lo, c2 <- parse_hex4 (advance 2 c1);
          if (56320 <=? lo) && (lo <=? 57343)
          then Done (65536 + Z.shiftl (cp - 55296) 10 + (lo - 56320)) c2
          else Done cp c1
        else Done cp c1
    | _ => Done cp c1
    end
  else Done cp c1.

Fixpoint string_loop (fuel : nat) (out : bytes) (c : cursor) : outcome bytes :=
  match fuel with
  | O => Fuel
  | S fuel =>
      match rest c with
      | [] => fail (bs "unterminated string") (pos c)
      | x :: r =>
          if decide (x = quote) then Done out (advance 1 c)
          else if decide (x ≠ backslash) then string_loop fuel (out ++ [x]) (advance 1 c)
          else
            match r with
            | [] => fail (bs "truncated escape") (pos c + 1)
            | e :: _ =>
                match simple_escape e with
                | Some b => string_loop fuel (out ++ [b]) (advance 2 c)
                | None =>
                    if decide (e = "u"%char) then
                      do cp, c1 <- unicode_escape (advance 2 c);
                      string_loop fuel (append_utf8 out cp) c1
                    else fail (bs "unknown escape") (pos c + 1)
                end
            end
      end
  end.

Definition parse_string (c : cursor) : outcome bytes :=
  match rest c with
  | x :: _ =>
      if decide (x = quote) then string_loop (length (rest c)) [] (advance 1 c)
      else fail (bs "expected string") (pos c)
  | [] => fail (bs "expected string") (pos c)
  end.

(** The [while (true)] over the elements; the fuel is the text's length. *)
Fixpoint elements_loop (fuel : nat) (items : list bytes) (c : cursor) : outcome (list bytes) :=
  match fuel with
  | O => Fuel
  | S fuel =>
      let c := skip_ws c in
      if decide (head (rest c) ≠ Some quote) then fail (bs "array element is not a string") (pos c)
      else
        do item, c <- parse_string c;
        let items := items ++ [item] in
        let c := skip_ws c in
        match rest c with
        | [] => fail (bs "unterminated array") (pos c)
        | x :: _ =>
            if decide (x = ","%char) then elements_loop fuel items (advance 1 c)
            else if decide (x = "]"%char) then Done items (advance 1 c)
            else fail (bs "expected ',' or ']'") (pos c)
        end
  end.

Definition decode_array (text : bytes) : outcome (list bytes) :=
  let c := skip_ws (Cur 0 text) in
  if decide (head (rest c) ≠ Some "["%char) then fail (bs "payload is not a JSON array") (pos c)
  else
    let c := skip_ws (advance 1 c) in
    do items, c <-
      (if decide (head (rest c) = Some "]"%char) then Done [] (advance 1 c)
       else elements_loop (length text) [] c);
    let c := skip_ws c in
    match rest c with
    | [] => Done items c
    | _ => fail (bs "trailing data after array") (pos c)
    end.

Definition decode_string_array (text : bytes) : option (result (list bytes)) :=
  match decode_array text with
  | Done items _ => Some (Ok items)
  | Throw e => Some (Err e)
  | Fuel => None
  end.

(** ** Encoding *)

(** The [switch] on one byte; bytes from 0x80 on pass verbatim. *)
Definition escape_byte (c : ascii) : bytes :=
  if decide (c = quote) then [backslash; quote]
  else if decide (c = backslash) then [backslash; backslash]
  else if decide (c = "008"%char) then bs "\b"
  else if decide (c = "012"%char) then bs "\f"
  else if decide (c = "010"%char) then bs "\n"
  else if decide (c = "013"%char) then bs "\r"
  else if decide (c = "009"%char) then bs "\t"
  else if zb c <? 32 then u_escape (zb c)
  else [c].

Fixpoint escape_bytes (s : bytes) : bytes :=
  match s with [] => [] | c :: s => escape_byte c ++ escape_bytes s end.

Fixpoint encode_items (first : bool) (items : list bytes) : bytes :=
  match items with
  | [] => []
  | item :: items =>
      (if first then [] else bs ",") ++ quote :: escape_bytes item ++ [quote] ++ encode_items false items
  end.

Definition encode_string_array (items : list bytes) : bytes :=
  "["%char :: encode_items true items ++ bs "]".

(** ** Round trip *)

Lemma append_utf8_eq out cp : append_utf8 out cp = out ++ utf8 cp.
Proof. unfold append_utf8, utf8. by repeat case_match. Qed.

Lemma hex_digits_step k d v t :
  0 <= d < 16 → hex_digits (S k) v (hex_digit d :: t) = hex_digits k (v * 16 + d) t.
Proof.
  intros Hd. cbn [hex_digits]. rewrite hex_value_digit by done. change 16 with (2 ^ 4).
  by rewrite <-lor_shift.
Qed.

Lemma min_hex4_round n p t :
  0 <= n < 65536 → parse_hex4 (Cur p (hex4_digits n ++ t)) = Done n (Cur (p + 4) t).
Proof.
  intros Hn. unfold parse_hex4, hex4_digits. cbn [rest length app Nat.ltb Nat.leb].
  rewrite !hex_digits_step by by apply Z.mod_pos_bound. cbn [hex_digits].
  rewrite hex4_value by done. unfold advance. cbn [pos rest skipn]. by rewrite drop_0.
Qed.

(** The bytes [b], read inside a string, append [t] to it. *)
Definition reads (b t : bytes) : Prop :=
  ∀ fuel out p r, (length (b ++ r) < fuel)%nat →
    ∃ fuel', (length r < fuel')%nat ∧
      string_loop fuel out (Cur p (b ++ r)) = string_loop fuel' (out ++ t) (Cur (p + length b) r).

Lemma min_reads_raw c : c ≠ quote → c ≠ backslash → reads [c] [c].
Proof.
  intros Hq Hb fuel out p r Hf. destruct fuel as [|fuel]; [simpl in Hf; lia|].
  exists fuel. split; [simpl in Hf; lia|]. cbn [app string_loop rest].
  rewrite decide_False, decide_True by done. by rewrite advance_cons.
Qed.

Lemma min_reads_simple e b : simple_escape e = Some b → reads [backslash; e] [b].
Proof.
  intros He fuel out p r Hf. destruct fuel as [|fuel]; [simpl in Hf; lia|].
  exists fuel. split; [simpl in Hf; lia|]. simpl. rewrite He. unfold advance. simpl. by rewrite ?drop_0.
Qed.

Lemma reads_control n : 0 <= n < 32 → reads (u_escape n) [byte_of n].
Proof.
  intros Hn fuel out p r Hf. destruct fuel as [|fuel]; [simpl in Hf; lia|].
  exists fuel. split; [simpl in Hf; lia|]. unfold u_escape. cbn [app string_loop rest].
  rewrite decide_False by done. rewrite decide_False by (intros H'; by apply H').
  replace (simple_escape "u") with (@None ascii) by done. rewrite decide_True by done.
  unfold advance. cbn [pos rest skipn]. rewrite drop_0. unfold unicode_escape.
  rewrite min_hex4_round by lia. cbn [obind].
  destruct (Z.leb_spec 55296 n); [lia|]. cbn [andb obind].
  rewrite append_utf8_eq. unfold utf8. destruct (Z.ltb_spec n 128); [|lia].
  cbn [length]. rewrite length_hex4_digits. f_equal. f_equal. lia.
Qed.

Lemma reads_byte c : reads (escape_byte c) [c].
Proof.
  unfold escape_byte.
  destruct (decide (c = quote)) as [->|Hq]; [by apply (min_reads_simple quote)|].
  destruct (decide (c = backslash)) as [->|Hb]; [by apply (min_reads_simple backslash)|].
  repeat (case_decide; [subst; by apply min_reads_simple|]).
  destruct (Z.ltb_spec (zb c) 32) as [H32|]; [|by apply min_reads_raw].
  pose proof (zb_range c). rewrite <-(byte_of_zb c) at 2. apply reads_control. lia.
Qed.

Lemma reads_bytes s : reads (escape_bytes s) s.
Proof.
  induction s as [|c s IH]; cbn [escape_bytes].
  { intros fuel out p r Hf. exists fuel. split; [done|]. by rewrite app_nil_r, Nat.add_0_r. }
  intros fuel out p r Hf. rewrite <-app_assoc in *.
  destruct (reads_byte c fuel out p _ Hf) as (f1 & Hf1 & ->).
  destruct (IH f1 (out ++ [c]) (p + length (escape_byte c))%nat r Hf1) as (f2 & Hf2 & ->).
  exists f2. split; [done|]. by rewrite <-app_assoc, length_app, Nat.add_assoc.
Qed.

Lemma min_parse_string_encode s p t :
  parse_string (Cur p (quote :: escape_bytes s ++ quote :: t)) =
  Done s (Cur (p + length (quote :: escape_bytes s ++ [quote])) t).
Proof.
  unfold parse_string. cbn [rest]. rewrite decide_True, advance_cons by done.
  destruct (reads_bytes s (length (quote :: escape_bytes s ++ quote :: t)) [] (p + 1)%nat (quote :: t))
    as (f & Hf & ->); [len_app; lia|].
  destruct f as [|f]; [lia|]. cbn [string_loop rest]. rewrite decide_True, advance_cons by done.
  f_equal. f_equal. len_app. simpl. lia.
Qed.

Lemma elements_loop_encode items done_items fuel p t :
  items ≠ [] → (length (encode_items true items ++ bs "]" ++ t) ≤ fuel)%nat →
  elements_loop fuel done_items (Cur p (encode_items true items ++ bs "]" ++ t)) =
  Done (done_items ++ items) (Cur (p + length (encode_items true items ++ bs "]")) t).
Proof.
  revert done_items fuel p. induction items as [|s items IH]; intros done_items fuel p Hne Hf; [done|].
  destruct fuel as [|fuel]; [cbn [encode_items app] in Hf; simpl in Hf; lia|].
  cbn [elements_loop encode_items app] in *. revert Hf. app_norm. intros Hf.
  rewrite skip_ws_id by done. cbn [rest head]. rewrite decide_False by (intros H; by apply H).
  cbn [app] in *. rewrite min_parse_string_encode. cbn [obind].
  destruct items as [|s' items].
  - cbn [encode_items app bs Strings.String.list_ascii_of_string]. rewrite skip_ws_id by done. cbn [rest].
    rewrite decide_False, decide_True, advance_cons by done. f_equal. f_equal. len_app. simpl. lia.
  - assert (encode_items false (s' :: items) = ","%char :: encode_items true (s' :: items)) as He by done.
    rewrite He in *. cbn [app]. rewrite skip_ws_id by done. cbn [rest].
    rewrite decide_True, advance_cons by done. rewrite IH; [|done|].
    + f_equal; [by rewrite <-app_assoc|]. f_equal. len_app. simpl. lia.
    + revert Hf. len_app. simpl. lia.
Qed.

(** ** Properties *)

(** The column round trips.  Decoding what was encoded returns the strings,
    whatever bytes they hold. *)
Theorem string_array_round_trip items :
  decode_string_array (encode_string_array items) = Some (Ok items).
Proof.
  unfold decode_string_array, decode_array, encode_string_array.
  rewrite skip_ws_id by done. cbn [rest head]. rewrite decide_False by (intros H; by apply H).
  rewrite advance_cons. destruct items as [|s items]; [done|].
  assert (∃ z, encode_items true (s :: items) ++ bs "]" = quote :: z) as (z & Hz)
    by (cbn [encode_items app]; by eexists).
  rewrite Hz, skip_ws_id by done. cbn [rest head]. rewrite decide_False by done. rewrite <-Hz.
  pose proof (elements_loop_encode (s :: items) [] (length ("["%char :: encode_items true (s :: items) ++ bs "]"))
    (0 + 1) []) as He.
  rewrite !app_nil_r in He. rewrite He; [done|done|]. len_app. lia.
Qed.
