(* ===== verification/Hashing.v ===== *)
(** * Content hashing: [src/src/util/hashing.cpp]

    The SHA-256 the program implements itself, on 32-bit words with their
    wrap-around, as an incremental context; the hexadecimal digests; and the
    byte strings its SHA-1 keys hash.  MD5 and SHA-1 are vendored C code: the
    functions that use them take the digest function as an argument. *)

From S2P Require Export Utf8.

Open Scope Z_scope.

(** ** Hexadecimal digests *)

(** [digest_to_hex]: two digits per byte. *)
Fixpoint digest_to_hex (digest : bytes) : bytes :=
  match digest with
  | [] => []
  | byte :: digest =>
      hex_digit (Z.shiftr (zb byte) 4) :: hex_digit (Z.land (zb byte) 15) :: digest_to_hex digest
  end.

(** The loop over [shift = 28, 24, ..., 0]. *)
Definition word_to_hex (word : Z) : bytes :=
  (λ shift, hex_digit (Z.land (Z.shiftr word shift) 15)) <$> [28; 24; 20; 16; 12; 8; 4; 0].

Fixpoint digest_to_hex_32 (digest : list Z) : bytes :=
  match digest with
  | [] => []
  | word :: digest => word_to_hex word ++ digest_to_hex_32 digest
  end.

(** ** The compression function *)

(** [std::uint32_t] arithmetic. *)
Definition u32 (z : Z) : Z := z mod 2 ^ 32.
Definition add32 (a b : Z) : Z := u32 (a + b).
Definition not32 (a : Z) : Z := Z.lxor a (2 ^ 32 - 1).

Definition rotate_right (value shift : Z) : Z :=
  Z.lor (Z.shiftr value shift) (u32 (Z.shiftl value (32 - shift))).

(** Four words of a table, written as one number. *)
Definition quad (row : Z) : list Z :=
  (λ shift, u32 (Z.shiftr row shift)) <$> [96; 64; 32; 0].

Definition kRoundConstants : list Z := Eval vm_compute in
  concat (quad <$>
    [0x428a2f9871374491b5c0fbcfe9b5dba5;
     0x3956c25b59f111f1923f82a4ab1c5ed5;
     0xd807aa9812835b01243185be550c7dc3;
     0x72be5d7480deb1fe9bdc06a7c19bf174;
     0xe49b69c1efbe47860fc19dc6240ca1cc;
     0x2de92c6f4a7484aa5cb0a9dc76f988da;
     0x983e5152a831c66db00327c8bf597fc7;
     0xc6e00bf3d5a7914706ca635114292967;
     0x27b70a852e1b21384d2c6dfc53380d13;
     0x650a7354766a0abb81c2c92e92722c85;
     0xa2bfe8a1a81a664bc24b8b70c76c51a3;
     0xd192e819d6990624f40e3585106aa070;
     0x19a4c1161e376c082748774c34b0bcb5;
     0x391c0cb34ed8aa4a5b9cca4f682e6ff3;
     0x748f82ee78a5636f84c878148cc70208;
     0x90befffaa4506cebbef9a3f7c67178f2])%list.

(** [schedule[i]] for [i < 16]: a big-endian word of the block. *)
Definition block_word (block : bytes) (i : nat) : Z :=
  let byte k := zb (default "000"%char (block !! (i * 4 + k)%nat)) in
  Z.lor (Z.lor (Z.lor (Z.shiftl (byte 0%nat) 24) (Z.shiftl (byte 1%nat) 16))
    (Z.shiftl (byte 2%nat) 8)) (byte 3%nat).

(** The element of an array at an index within it. *)
Definition at_ (l : list Z) (i : nat) : Z := default 0 (l !! i).

(** The iteration [i] of the second loop over the schedule. *)
Definition schedule_step (schedule : list Z) (i : nat) : list Z :=
  let s0 := Z.lxor (Z.lxor (rotate_right (at_ schedule (i - 15)) 7)
              (rotate_right (at_ schedule (i - 15)) 18)) (Z.shiftr (at_ schedule (i - 15)) 3) in
  let s1 := Z.lxor (Z.lxor (rotate_right (at_ schedule (i - 2)) 17)
              (rotate_right (at_ schedule (i - 2)) 19)) (Z.shiftr (at_ schedule (i - 2)) 10) in
  schedule ++ [add32 (add32 (add32 (at_ schedule (i - 16)) s0) (at_ schedule (i - 7))) s1].

Definition make_schedule (block : bytes) : list Z :=
  foldl schedule_step (block_word block <$> seq 0 16) (seq 16 48).

(** The iteration [i] of the round loop on the eight working variables. *)
Definition round (schedule working : list Z) (i : nat) : list Z :=
  let w := at_ working in
  let s1 := Z.lxor (Z.lxor (rotate_right (w 4%nat) 6) (rotate_right (w 4%nat) 11))
              (rotate_right (w 4%nat) 25) in
  let choose := Z.lxor (Z.land (w 4%nat) (w 5%nat)) (Z.land (not32 (w 4%nat)) (w 6%nat)) in
  let temp1 := add32 (add32 (add32 (add32 (w 7%nat) s1) choose) (at_ kRoundConstants i))
                 (at_ schedule i) in
  let s0 := Z.lxor (Z.lxor (rotate_right (w 0%nat) 2) (rotate_right (w 0%nat) 13))
              (rotate_right (w 0%nat) 22) in
  let majority := Z.lxor (Z.lxor (Z.land (w 0%nat) (w 1%nat)) (Z.land (w 0%nat) (w 2%nat)))
                    (Z.land (w 1%nat) (w 2%nat)) in
  let temp2 := add32 s0 majority in
  [add32 temp1 temp2; w 0%nat; w 1%nat; w 2%nat; add32 (w 3%nat) temp1; w 4%nat; w 5%nat; w 6%nat].

(** [transform(block)]: the new [state_]. *)
Definition transform (state : list Z) (block : bytes) : list Z :=
  let working := foldl (round (make_schedule block)) state (seq 0 64) in
  zip_with add32 state working.

(** ** The context *)

Record Sha256 := Context_ {
  state_ : list Z;
  block_ : bytes;
  buffered_ : nat;
  bit_count_ : Z
}.

Definition initial_state : list Z := Eval vm_compute in
  concat (quad <$>
    [0x6a09e667bb67ae853c6ef372a54ff53a;
     0x510e527f9b05688c1f83d9ab5be0cd19])%list.

Definition fresh_context : Sha256 := Context_ initial_state (replicate 64 "000"%char) 0 0.

(** [memcpy(block + at, src, n)] and [fill(block + at, ..., 0)]. *)
Definition overwrite (block : bytes) (at' : nat) (src : bytes) : bytes :=
  take at' block ++ src ++ drop (at' + length src) block.

(** The loop [while (len > 0)] of [update]; each iteration consumes at least a
    byte. *)
Fixpoint update_loop (fuel : nat) (ctx : Sha256) (data : bytes) : Sha256 :=
  match fuel, data with
  | S fuel, _ :: _ =>
      let count := Nat.min (length data) (64 - buffered_ ctx) in
      let block := overwrite (block_ ctx) (buffered_ ctx) (take count data) in
      let buffered := (buffered_ ctx + count)%nat in
      let ctx :=
        if decide (buffered = 64%nat)
        then Context_ (transform (state_ ctx) block) block 0 (bit_count_ ctx)
        else Context_ (state_ ctx) block buffered (bit_count_ ctx) in
      update_loop fuel ctx (drop count data)
  | _, _ => ctx
  end.

(** [bit_count_] is a [std::uint64_t]. *)
Definition update (ctx : Sha256) (data : bytes) : Sha256 :=
  update_loop (length data)
    (Context_ (state_ ctx) (block_ ctx) (buffered_ ctx)
       ((bit_count_ ctx + Z.of_nat (length data) * 8) mod 2 ^ 64))
    data.

(** The eight bytes of the length, most significant first. *)
Definition length_bytes (bit_count : Z) : bytes :=
  (λ shift, byte_of (Z.land (Z.shiftr bit_count shift) 255)) <$> [56; 48; 40; 32; 24; 16; 8; 0].

Definition final (ctx : Sha256) : list Z :=
  let block := overwrite (block_ ctx) (buffered_ ctx) [byte_of 128] in
  let buffered := S (buffered_ ctx) in
  let '(state, block, buffered) :=
    if decide (56 < buffered)%nat
    then
      let block := overwrite block buffered (replicate (64 - buffered) "000"%char) in
      (transform (state_ ctx) block, block, 0%nat)
    else (state_ ctx, block, buffered) in
  let block := overwrite block buffered (replicate (56 - buffered) "000"%char) in
  let block := overwrite block 56 (length_bytes (bit_count_ ctx)) in
  transform state block.

(** ** The entry points *)

Definition sha256_hex (data : bytes) : bytes :=
  bs "sha256:" ++ digest_to_hex_32 (final (update fresh_context data)).

(** [sha256_of], [sha256_of_fd] and [sha256_of_fd_prefix] hash what their reads
    return, in pieces of at most 65536 bytes. *)
Definition sha256_of_chunks (chunks : list bytes) : bytes :=
  bs "sha256:" ++ digest_to_hex_32 (final (foldl update fresh_context chunks)).

(** The file descriptor of [sha256_of_fd_prefix]: what [fstat] says of it (the
    size of a regular file) and what the [n]-th call of [pread] returns at an
    offset for a request. *)
Inductive pread_result : Type := Interrupted | Failed | Read (data : bytes).

Record descriptor := Descriptor {
  regular_size : option nat;
  pread : nat → nat → nat → pread_result
}.

(** The size of [buffer]. *)
Definition buffer_size : nat := Z.to_nat 65536.

(** The loop [while (offset < byte_count)]; [None] when the fuel, one unit per
    call of [pread], is used up. *)
Fixpoint prefix_loop (fuel : nat) (fd : descriptor) (byte_count call offset : nat)
    (ctx : Sha256) : option (option Sha256) :=
  if decide (offset < byte_count)%nat then
    match fuel with
    | O => None
    | S fuel =>
        match pread fd call offset (Nat.min (byte_count - offset) buffer_size) with
        | Interrupted => prefix_loop fuel fd byte_count (S call) offset ctx
        | Failed | Read [] => Some None
        | Read data =>
            prefix_loop fuel fd byte_count (S call) (offset + length data) (update ctx data)
        end
    end
  else Some (Some ctx).

Definition sha256_of_fd_prefix (fuel : nat) (fd : descriptor) (byte_count : nat)
    : option (option bytes) :=
  match regular_size fd with
  | None => Some None
  | Some size =>
      if decide (size < byte_count)%nat then Some None
      else
        (option_map (λ ctx, bs "sha256:" ++ digest_to_hex_32 (final ctx))) <$>
          prefix_loop fuel fd byte_count 0 0 fresh_context
  end.

(** *** Cache keys *)

Record AstCacheKey := CacheKey {
  key_abspath : bytes;
  key_flags : list bytes;
  key_driver : option bytes
}.

Definition nul : ascii := "000".

(** The bytes [sha1_add_flags] feeds to the context. *)
Definition flags_message (flags : list bytes) (driver : option bytes) : bytes :=
  join_with [nul] flags ++
  match driver with Some d => nul :: bs "drv" ++ nul :: d | None => [] end.

Definition sha1_cache_key (sha1 : bytes → bytes) (k : AstCacheKey) : bytes :=
  digest_to_hex (sha1 (key_abspath k ++ [nul] ++ flags_message (key_flags k) (key_driver k))).

Definition sha1_flags_hash (sha1 : bytes → bytes) (k : AstCacheKey) : bytes :=
  digest_to_hex (sha1 (flags_message (key_flags k) (key_driver k))).

Example sha256_abc : sha256_hex (bs "abc") =
  bs "sha256:ba7816bf8f01cfea414140de5dae2223b00361a396177a9cb410ff61f20015ad".
Proof. vm_compute. reflexivity. Qed.

Example sha256_two_blocks :
  sha256_hex (bs "abcdbcdecdefdefgefghfghighijhijkijkljklmklmnlmnomnopnopq") =
  bs "sha256:248d6a61d20638b8e5c026930c3e6039a33ce45964ff2167f6ecedd419db06c1".
Proof. vm_compute. reflexivity. Qed.

Example sha256_empty : sha256_hex [] =
  bs "sha256:e3b0c44298fc1c149afbf4c8996fb92427ae41e4649b934ca495991b7852b855".
Proof. vm_compute. reflexivity. Qed.

(** ** The digest is SHA-256 of the concatenated pieces *)

(** FIPS 180-4, 5.1.1: the bit 1, zeros up to 56 bytes of the last block, the
    length in bits on 64 bits. *)
Definition padding (m : bytes) : bytes :=
  byte_of 128 :: replicate ((119 - length m mod 64) mod 64) "000"%char
    ++ length_bytes (Z.of_nat (length m) * 8 mod 2 ^ 64).

Definition is_block (block : bytes) : Prop := length block = 64%nat.

(** What a context has absorbed. *)
Definition absorbed (ctx : Sha256) (m : bytes) : Prop :=
  ∃ blocks, Forall is_block blocks ∧ m = concat blocks ++ take (buffered_ ctx) (block_ ctx)
    ∧ state_ ctx = foldl transform initial_state blocks
    ∧ (buffered_ ctx < 64)%nat ∧ is_block (block_ ctx).

Lemma overwrite_length block at' src :
  (at' + length src ≤ length block)%nat → length (overwrite block at' src) = length block.
Proof. intros H. unfold overwrite. rewrite !length_app, length_take, length_drop. lia. Qed.

Lemma overwrite_take block at' src :
  (at' + length src ≤ length block)%nat →
  take (at' + length src) (overwrite block at' src) = take at' block ++ src.
Proof.
  intros H. unfold overwrite. rewrite app_assoc, take_app_le, take_ge; [done|..];
    rewrite length_app, length_take; lia.
Qed.

Lemma overwrite_take' block at' src n :
  (at' + length src ≤ length block)%nat → n = (at' + length src)%nat →
  take n (overwrite block at' src) = take at' block ++ src.
Proof. intros H ->. by apply overwrite_take. Qed.

Lemma overwrite_all block at' src :
  (at' + length src = length block)%nat → overwrite block at' src = take at' block ++ src.
Proof.
  intros H. rewrite <- overwrite_take by lia. rewrite take_ge; [done|].
  rewrite overwrite_length; lia.
Qed.

Lemma concat_snoc (blocks : list bytes) block : concat (blocks ++ [block]) = concat blocks ++ block.
Proof. rewrite concat_app. simpl. by rewrite app_nil_r. Qed.

Lemma concat_blocks_length blocks :
  Forall is_block blocks → length (concat blocks) = (64 * length blocks)%nat.
Proof. induction 1 as [|b bl Hb _ IH]; [done|]. cbn. rewrite length_app, IH, Hb. lia. Qed.

Lemma blocks_unique blocks blocks' :
  Forall is_block blocks → Forall is_block blocks' → concat blocks = concat blocks' →
  blocks = blocks'.
Proof.
  intros H. revert blocks'. induction H as [|b l Hb Hl IH]; intros l' H' Heq;
    destruct H' as [|b' l' Hb' Hl']; unfold is_block in *; cbn in Heq; [done|..].
  - destruct b'; [done|discriminate].
  - destruct b; [done|discriminate].
  - apply app_inj_1 in Heq as [-> Heq]; [|congruence]. f_equal. by apply IH.
Qed.

Lemma update_loop_absorbed fuel ctx m data :
  absorbed ctx m → (length data ≤ fuel)%nat →
  absorbed (update_loop fuel ctx data) (m ++ data) ∧
  bit_count_ (update_loop fuel ctx data) = bit_count_ ctx.
Proof.
  revert ctx m data. induction fuel as [|fuel IH]; intros ctx m [|c data] Hab Hf;
    [by rewrite app_nil_r | simpl in Hf; lia | by rewrite app_nil_r |].
  cbn [update_loop]. set (d := c :: data) in *.
  set (count := Nat.min (length d) (64 - buffered_ ctx)).
  destruct Hab as (blocks & Hbl & Hm & Hst & Hbuf & Hlen). unfold is_block in Hlen.
  assert (Hcount : count = Nat.min (length d) (64 - buffered_ ctx)) by done.
  assert (Hd : length d = S (length data)) by done. clearbody count d.
  assert (Hc : length (take count d) = count) by (rewrite length_take; lia).
  assert (Hfit : (buffered_ ctx + length (take count d) ≤ length (block_ ctx))%nat) by lia.
  assert (Hrest : (length (drop count d) ≤ fuel)%nat) by (rewrite length_drop; lia).
  replace (m ++ d) with ((m ++ take count d) ++ drop count d) by
    by rewrite <- app_assoc, take_drop.
  case_decide as Hfull;
    match goal with |- absorbed (update_loop _ ?ctx' _) _ ∧ _ =>
      destruct (IH ctx' (m ++ take count d) (drop count d)) as [? Hbits];
        [|done|split; [done | by rewrite Hbits]]
    end.
  - exists (blocks ++ [overwrite (block_ ctx) (buffered_ ctx) (take count d)]).
    cbn [buffered_ block_ state_]. split_and!; [| | | lia |].
    + apply Forall_app; split; [done|]. constructor; [|constructor].
      unfold is_block. by rewrite overwrite_length.
    + rewrite concat_snoc, take_0, app_nil_r, overwrite_all by lia. by rewrite Hm, <- app_assoc.
    + by rewrite foldl_app, <- Hst.
    + unfold is_block. by rewrite overwrite_length.
  - exists blocks. cbn [buffered_ block_ state_]. split_and!; [done| | done | lia |].
    + rewrite overwrite_take' by lia. by rewrite Hm, <- app_assoc.
    + unfold is_block. by rewrite overwrite_length.
Qed.

Lemma update_absorbed ctx m data :
  absorbed ctx m → absorbed (update ctx data) (m ++ data).
Proof.
  intros (blocks & H). apply update_loop_absorbed; [by exists blocks|done].
Qed.

Lemma update_bit_count ctx m data :
  absorbed ctx m →
  bit_count_ (update ctx data) = (bit_count_ ctx + Z.of_nat (length data) * 8) mod 2 ^ 64.
Proof.
  intros (blocks & H). unfold update.
  edestruct update_loop_absorbed as [_ ->]; [|done|done]. by exists blocks.
Qed.

Definition absorbs (ctx : Sha256) (m : bytes) : Prop :=
  absorbed ctx m ∧ bit_count_ ctx = Z.of_nat (length m) * 8 mod 2 ^ 64.

Lemma fresh_absorbs : absorbs fresh_context [].
Proof. split; [|done]. exists []. split_and!; [constructor | done | done | cbn; lia | done]. Qed.

Lemma update_absorbs ctx m data : absorbs ctx m → absorbs (update ctx data) (m ++ data).
Proof.
  intros [H Hbits]. split; [by apply update_absorbed|].
  erewrite update_bit_count, Hbits by done.
  rewrite Zplus_mod_idemp_l, length_app. f_equal. lia.
Qed.

Lemma update_absorbs_all chunks ctx m :
  absorbs ctx m → absorbs (foldl update ctx chunks) (m ++ concat chunks).
Proof.
  revert ctx m. induction chunks as [|data chunks IH]; intros ctx m H; cbn.
  - by rewrite app_nil_r.
  - rewrite app_assoc. by apply IH, update_absorbs.
Qed.

(** The last block: zeros from [b] to 56, then the length. *)
Lemma last_block block b len :
  length block = 64%nat → (b ≤ 56)%nat → length len = 8%nat →
  overwrite (overwrite block b (replicate (56 - b) "000"%char)) 56 len =
  take b block ++ replicate (56 - b) "000"%char ++ len.
Proof.
  intros Hb Hle Hlen.
  assert (Hr : length (replicate (56 - b) "000"%char) = (56 - b)%nat) by apply length_replicate.
  rewrite overwrite_all; rewrite ?overwrite_length by lia; [|lia].
  rewrite overwrite_take' by lia. by rewrite <- app_assoc.
Qed.

(** [final] hashes the padded message. *)
Lemma final_absorbs ctx m :
  absorbs ctx m →
  ∃ blocks, concat blocks = m ++ padding m ∧ Forall is_block blocks
    ∧ final ctx = foldl transform initial_state blocks.
Proof.
  intros [(blocks & Hbl & Hm & Hst & Hbuf & Hlen) Hbits]. unfold is_block in Hlen.
  assert (Hmod : (length m mod 64 = buffered_ ctx)%nat).
  { rewrite Hm, length_app, concat_blocks_length, length_take by done.
    rewrite Nat.min_l, (Nat.mul_comm 64), Nat.add_comm, Nat.Div0.mod_add by lia.
    apply Nat.mod_small. lia. }
  unfold final, padding. rewrite Hmod, <- Hbits.
  set (len := length_bytes _). assert (Hl8 : length len = 8%nat) by done. clearbody len.
  set (b := buffered_ ctx) in *. set (block := block_ ctx) in *.
  set (one := overwrite block b [byte_of 128]).
  assert (Hone : take (S b) one = take b block ++ [byte_of 128])
    by (apply overwrite_take'; simpl; lia).
  assert (Hlone : length one = 64%nat) by (unfold one; rewrite overwrite_length; simpl; lia).
  clearbody one. case_decide as Hwide.
  - set (zeros := overwrite one (S b) _).
    assert (Hz : zeros = take (S b) one ++ replicate (64 - S b) "000"%char)
      by (apply overwrite_all; rewrite length_replicate; lia).
    assert (Hlz : length zeros = 64%nat)
      by (rewrite Hz, length_app, length_take, length_replicate; lia).
    clearbody zeros.
    exists (blocks ++ [zeros; replicate 56 "000"%char ++ len]). split_and!.
    + rewrite concat_app, Hm, <- app_assoc. cbn [concat]. rewrite app_nil_r, Hz, Hone.
      rewrite Nat.mod_small by lia.
      replace (119 - b)%nat with (64 - S b + 56)%nat by lia.
      rewrite replicate_add. by rewrite <- !app_assoc.
    + apply Forall_app; split; [done|]. repeat constructor; unfold is_block; [done|].
      rewrite length_app, length_replicate. lia.
    + rewrite foldl_app, Hst, last_block by (done || lia). done.
  - exists (blocks ++ [take b block ++ [byte_of 128] ++ replicate (56 - S b) "000"%char ++ len]).
    split_and!.
    + rewrite concat_app, Hm, <- app_assoc. cbn [concat]. rewrite app_nil_r.
      replace (119 - b)%nat with (56 - S b + 1 * 64)%nat by lia.
      by rewrite Nat.Div0.mod_add, Nat.mod_small by lia.
    + apply Forall_app; split; [done|]. constructor; [|constructor]. unfold is_block.
      rewrite !length_app, length_take, length_replicate. simpl. lia.
    + rewrite foldl_app, Hst, last_block, Hone, <- app_assoc by (done || lia). done.
Qed.

(** *** The text of a digest *)

Lemma foldl_round_length schedule working l :
  length working = 8%nat → length (foldl (round schedule) working l) = 8%nat.
Proof. revert working. induction l as [|i l IH]; intros working Hw; [done|]. by apply IH. Qed.

Lemma transform_length state block : length state = 8%nat → length (transform state block) = 8%nat.
Proof.
  intros Hs. unfold transform. rewrite length_zip_with, Hs.
  by rewrite foldl_round_length.
Qed.

Lemma update_loop_length fuel ctx data :
  length (state_ ctx) = 8%nat → length (state_ (update_loop fuel ctx data)) = 8%nat.
Proof.
  revert ctx data. induction fuel as [|fuel IH]; intros ctx data Hs; [done|].
  destruct data as [|c data]; [done|]. cbn [update_loop]. apply IH.
  destruct (decide _); cbn [state_]; [by apply transform_length|done].
Qed.

Lemma final_length ctx : length (state_ ctx) = 8%nat → length (final ctx) = 8%nat.
Proof.
  intros Hs. unfold final. destruct (decide _); [|by apply transform_length].
  by apply transform_length, transform_length.
Qed.

Lemma digest_to_hex_32_length l : length (digest_to_hex_32 l) = (8 * length l)%nat.
Proof. induction l as [|w l IH]; [done|]. cbn. rewrite IH. lia. Qed.

Lemma digest_to_hex_32_digits l :
  Forall (λ c, ∃ d, 0 <= d < 16 ∧ c = hex_digit d) (digest_to_hex_32 l).
Proof.
  induction l as [|w l IH]; [constructor|]. cbn [digest_to_hex_32]. apply Forall_app. split; [|done].
  unfold word_to_hex. apply Forall_fmap, Forall_true. intros shift. eexists. split; [|done].
  change 15 with (Z.ones 4). rewrite Z.land_ones by done. apply Z.mod_pos_bound. lia.
Qed.

(** ["sha256:"] and 64 hexadecimal digits. *)
Lemma sha256_hex_form data :
  ∃ digits, sha256_hex data = bs "sha256:" ++ digits ∧ length digits = 64%nat
    ∧ Forall (λ c, ∃ d, 0 <= d < 16 ∧ c = hex_digit d) digits.
Proof.
  eexists. split; [reflexivity|]. split; [|apply digest_to_hex_32_digits].
  rewrite digest_to_hex_32_length, final_length; [done|]. by apply update_loop_length.
Qed.

Lemma absorbs_final ctx ctx' m : absorbs ctx m → absorbs ctx' m → final ctx = final ctx'.
Proof.
  intros (b & Hc & Hf & ->)%final_absorbs (b' & Hc' & Hf' & ->)%final_absorbs.
  f_equal. apply blocks_unique; [done|done|]. by rewrite Hc, Hc'.
Qed.

(** The digest does not depend on how the bytes are cut into pieces, and it
    is SHA-256's: the compression function folded over the 64-byte blocks of the
    padded message, from the initial state. *)
Theorem sha256_is_fold chunks :
  let m := concat chunks in
  ∃ blocks, concat blocks = m ++ padding m ∧ Forall is_block blocks
    ∧ sha256_of_chunks chunks =
        bs "sha256:" ++ digest_to_hex_32 (foldl transform initial_state blocks)
    ∧ sha256_hex m = sha256_of_chunks chunks.
Proof.
  intros m.
  destruct (final_absorbs _ _ (update_absorbs_all chunks _ _ fresh_absorbs))
    as (blocks & Hc & Hf & Hfin).
  exists blocks. unfold sha256_of_chunks, sha256_hex. split_and!; [done|done|by rewrite Hfin|].
  do 2 f_equal. apply (absorbs_final _ _ m).
  - apply (update_absorbs _ _ m fresh_absorbs).
  - apply (update_absorbs_all chunks _ _ fresh_absorbs).
Qed.

(** *** The prefix of a descriptor *)

Section PrefixHash.
Context (content : bytes) (fd : descriptor) (patience : nat).

(** [pread] as POSIX documents it on a regular file whose content does not
    change: some non-empty part of what is asked for, and fewer than
    [patience] interruptions in a row. *)
Hypothesis fstat_size : regular_size fd = Some (length content).
Hypothesis pread_reads : ∀ call offset request,
  (0 < request)%nat → (offset < length content)%nat →
  pread fd call offset request = Interrupted ∨
  ∃ n, (0 < n ≤ request)%nat ∧ (offset + n ≤ length content)%nat ∧
    pread fd call offset request = Read (take n (drop offset content)).
Hypothesis pread_retries : ∀ call offset request,
  ∃ k, (k < patience)%nat ∧ pread fd (call + k) offset request ≠ Interrupted.

Lemma prefix_loop_exact byte_count fuel call offset k ctx :
  (byte_count ≤ length content)%nat → (offset ≤ byte_count)%nat →
  (k < patience)%nat →
  ((offset < byte_count)%nat →
     pread fd (call + k) offset (Nat.min (byte_count - offset) buffer_size) ≠ Interrupted ∧
     (k + 1 + patience * (byte_count - offset - 1) ≤ fuel)%nat) →
  absorbs ctx (take offset content) →
  ∃ ctx', prefix_loop fuel fd byte_count call offset ctx = Some (Some ctx') ∧
    absorbs ctx' (take byte_count content).
Proof.
  intros Hbc. revert call offset k ctx.
  induction fuel as [|fuel IH]; intros call offset k ctx Ho Hk Hnext Habs;
    cbn [prefix_loop]; case_decide as Hlt.
  - destruct (Hnext Hlt) as [_ ?]. nia.
  - exists ctx. assert (byte_count = offset) as -> by lia. done.
  - destruct (Hnext Hlt) as [Hread Hfuel]. clear Hnext.
    destruct (pread_reads call offset (Nat.min (byte_count - offset) buffer_size))
      as [Hi|(n & Hn & Hfit & ->)]; [unfold buffer_size; lia|lia|..].
    + rewrite Hi. destruct k as [|k]; [by rewrite Nat.add_0_r in Hread|].
      apply (IH _ _ k); [lia|lia| |done]. intros _. split; [|nia].
      by rewrite Nat.add_succ_l, <- Nat.add_succ_r.
    + set (data := take n (drop offset content)).
      assert (Hl : length data = n) by (unfold data; rewrite length_take, length_drop; lia).
      destruct data as [|c data'] eqn:Hdata; [simpl in Hl; lia|]. rewrite <- Hdata in *.
      rewrite Hl.
      destruct (pread_retries (S call) (offset + n)
        (Nat.min (byte_count - (offset + n)) buffer_size)) as (k' & Hk' & Hr').
      apply (IH _ _ k'); [lia|done|intros Hlt'; split; [done|nia]|].
      rewrite <- take_take_drop. by apply update_absorbs.
  - exists ctx. assert (byte_count = offset) as -> by lia. done.
Qed.

(** The digest of a prefix is the digest of the first [byte_count] bytes,
    read in whatever pieces and with whatever interruptions; a file shorter
    than that has none.  One [pread] per byte and interruption is enough. *)
Theorem prefix_digest_exact byte_count fuel :
  (patience * byte_count ≤ fuel)%nat →
  sha256_of_fd_prefix fuel fd byte_count =
  Some (if decide (byte_count ≤ length content)%nat
        then Some (sha256_hex (take byte_count content)) else None).
Proof.
  intros Hfuel. unfold sha256_of_fd_prefix. rewrite fstat_size.
  case_decide; case_decide; [lia|done| |lia].
  destruct (pread_retries 0 0 (Nat.min (byte_count - 0) buffer_size)) as (k & Hk & Hr).
  destruct (prefix_loop_exact byte_count fuel 0 0 k fresh_context) as (ctx & -> & Habs);
    [done|lia|done|intros; split; [done|nia]|apply fresh_absorbs|].
  cbn [fmap option_fmap option_map]. unfold sha256_hex.
  rewrite (absorbs_final ctx (update fresh_context (take byte_count content)) _ Habs); [done|].
  exact (update_absorbs _ [] _ fresh_absorbs).
Qed.
End PrefixHash.

(** A descriptor whose reads give one byte, every other call interrupted. *)
Definition slow_descriptor (content : bytes) : descriptor :=
  Descriptor (Some (length content)) (λ call offset request,
    if Nat.even call then Interrupted else Read (take 1 (drop offset content))).

Lemma prefix_digest_exact_witness :
  sha256_of_fd_prefix 6 (slow_descriptor (bs "abcd")) 3 = Some (Some (sha256_hex (bs "abc"))).
Proof.
  refine (prefix_digest_exact (bs "abcd") (slow_descriptor (bs "abcd")) 2 eq_refl _ _ 3 6 _).
  - intros call offset request H1 H2. cbn [slow_descriptor pread].
    destruct (Nat.even call); [by left|right]. exists 1%nat.
    split_and!; [lia|lia|simpl in *; lia|done].
  - intros call offset request. destruct (Nat.even call) eqn:E.
    + exists 1%nat. split; [lia|]. cbn [slow_descriptor pread].
      rewrite Nat.add_1_r, Nat.even_succ, <- Nat.negb_even, E. discriminate.
    + exists 0%nat. split; [lia|]. cbn [slow_descriptor pread]. rewrite Nat.add_0_r, E. discriminate.
  - lia.
Defined.

(** Two different cache keys that hash the same bytes: a flag may spell the
    separator of the driver. *)
Example cache_key_collision :
  CacheKey (bs "/a.c") [bs "-O2"; bs "drv"; bs "cc"] None
    ≠ CacheKey (bs "/a.c") [bs "-O2"] (Some (bs "cc"))
  ∧ ∀ sha1, sha1_cache_key sha1 (CacheKey (bs "/a.c") [bs "-O2"; bs "drv"; bs "cc"] None)
      = sha1_cache_key sha1 (CacheKey (bs "/a.c") [bs "-O2"] (Some (bs "cc"))).
Proof. split; [discriminate|reflexivity]. Qed.
