(* ===== verification/FactIdentity.v ===== *)
(** * Portable fact identities: [src/src/ast/fact_identity.cpp]

    The identities that name facts across translation units, their stable
    strings, the hash of a string, and the index that gives a key a transient
    64-bit handle.

    A stable string is a sequence of length-prefixed fields; the lemmas of the
    section on codes peel one field off two equal strings, so that equal stable
    strings come from equal identities. *)

From S2P Require Export Bytes.
Open Scope Z_scope.

(** ** Data *)

Record PortableFileIdentity := FileIdentity {
  component_path : bytes;
  directory_path : bytes;
  file_name : bytes
}.

Record PortableConfigurationContent := ConfigurationContent {
  cc_driver : option bytes;
  cc_working_dir : option bytes;
  cc_arguments : list bytes;
  cc_lang_mode : option bytes;
  cc_resource_dir : option bytes
}.

Record ConfigurationIdentity := MkConfiguration {
  semantic_universe : bytes;
  translation_unit : bytes;
  normalized_configuration : bytes;
  identity_source : bytes;
  content : PortableConfigurationContent
}.

Record FactPartitionKey := PartitionKey {
  pk_file : PortableFileIdentity;
  pk_configuration : ConfigurationIdentity
}.

Record SymbolNaturalKey := SymbolKey {
  sk_partition : FactPartitionKey;
  sk_usr : bytes;
  sk_local_anchor : option bytes;
  sk_linkage : option bytes
}.

Record TypeNaturalKey := TypeKey {
  tk_partition : FactPartitionKey;
  tk_type_key : bytes
}.

Record RelationNaturalKey := RelationKey {
  rk_source : SymbolNaturalKey;
  rk_destination : SymbolNaturalKey;
  rk_kind : Z;
  rk_base_access : option Z;
  rk_is_virtual : option Z
}.

#[export] Instance file_identity_eq_dec : EqDecision PortableFileIdentity.
Proof. solve_decision. Defined.
#[export] Instance content_eq_dec : EqDecision PortableConfigurationContent.
Proof. solve_decision. Defined.
#[export] Instance configuration_eq_dec : EqDecision ConfigurationIdentity.
Proof. solve_decision. Defined.
#[export] Instance partition_eq_dec : EqDecision FactPartitionKey.
Proof. solve_decision. Defined.
#[export] Instance symbol_key_eq_dec : EqDecision SymbolNaturalKey.
Proof. solve_decision. Defined.

(** *** The defaulted comparison of a partition, member by member *)

Definition file_tuple (f : PortableFileIdentity) : list bytes :=
  [component_path f; directory_path f; file_name f].

Definition content_tuple (c : PortableConfigurationContent) :=
  (cc_driver c, (cc_working_dir c, (cc_arguments c, (cc_lang_mode c, cc_resource_dir c)))).

Definition configuration_tuple (c : ConfigurationIdentity) :=
  ([semantic_universe c; translation_unit c; normalized_configuration c; identity_source c],
   content_tuple (content c)).

Definition partition_tuple (p : FactPartitionKey) :=
  (file_tuple (pk_file p), configuration_tuple (pk_configuration p)).

Definition partition_tuple_ltb :=
  let text := option_ltb bytes_ltb in
  pair_ltb (lex_ltb bytes_ltb)
    (pair_ltb (lex_ltb bytes_ltb)
       (pair_ltb text (pair_ltb text (pair_ltb (lex_ltb bytes_ltb) (pair_ltb text text))))).

Definition partition_ltb (a b : FactPartitionKey) : bool :=
  partition_tuple_ltb (partition_tuple a) (partition_tuple b).

#[export] Instance partition_order : LtbOrder partition_ltb.
Proof.
  apply (@key_order _ partition_tuple_ltb _ _ partition_tuple).
  intros [[] [? ? ? ? []]] [[] [? ? ? ? []]] H.
  unfold partition_tuple, configuration_tuple, content_tuple, file_tuple in H. cbn in H.
  by simplify_eq.
Qed.

(** ** Stable strings *)

Definition append_field (field : bytes) : bytes :=
  to_string (Z.of_nat (length field)) ++ ":"%char :: field.

Definition append_optional (field : option bytes) : bytes :=
  match field with
  | None => bs "-;"
  | Some field => bs "+" ++ append_field field ++ bs ";"
  end.

Definition append_optional_int (field : option Z) : bytes :=
  match field with
  | None => bs "-;"
  | Some field => bs "+" ++ to_string field ++ bs ";"
  end.

Definition portable_path (f : PortableFileIdentity) : bytes :=
  let join (result next : bytes) :=
    (if negb (bool_decide (result = [])) && negb (bool_decide (next = [])) then result ++ bs "/"
     else result) ++ next in
  join (join (component_path f) (directory_path f)) (file_name f).

Definition partition_string (p : FactPartitionKey) : bytes :=
  let file := pk_file p in
  let configuration := pk_configuration p in
  let content := content configuration in
  append_field (component_path file) ++ append_field (directory_path file)
  ++ append_field (file_name file) ++ append_field (semantic_universe configuration)
  ++ append_field (translation_unit configuration)
  ++ append_field (normalized_configuration configuration)
  ++ append_field (identity_source configuration)
  ++ append_optional (cc_driver content) ++ append_optional (cc_working_dir content)
  ++ to_string (Z.of_nat (length (cc_arguments content))) ++ bs ";"
  ++ mjoin (append_field <$> cc_arguments content)
  ++ append_optional (cc_lang_mode content) ++ append_optional (cc_resource_dir content).

(** A linkage that is ["internal"] or ["no-linkage"]. *)
Definition is_local (linkage : option bytes) : bool :=
  bool_decide (linkage = Some (bs "internal")) || bool_decide (linkage = Some (bs "no-linkage")).

Definition symbol_string (k : SymbolNaturalKey) : bytes :=
  let configuration := pk_configuration (sk_partition k) in
  append_field (semantic_universe configuration)
  ++ (if is_local (sk_linkage k)
      then append_field (bs "local") ++ append_field (translation_unit configuration)
           ++ append_field (identity_source configuration) ++ append_optional (sk_local_anchor k)
      else [])
  ++ append_field (sk_usr k).

Definition type_string (k : TypeNaturalKey) : bytes :=
  partition_string (tk_partition k) ++ append_field (tk_type_key k).

Definition relation_string (k : RelationNaturalKey) : bytes :=
  symbol_string (rk_source k) ++ append_field (symbol_string (rk_destination k))
  ++ to_string (rk_kind k) ++ bs ";" ++ append_optional_int (rk_base_access k)
  ++ append_optional_int (rk_is_virtual k).

(** *** What a symbol string names

    A symbol with external linkage is its USR in its semantic universe; a local
    one also carries its translation unit, its source and its anchor. *)
Definition symbol_view (k : SymbolNaturalKey) : bytes * option (bytes * bytes * option bytes) * bytes :=
  let configuration := pk_configuration (sk_partition k) in
  (semantic_universe configuration,
   if is_local (sk_linkage k)
   then Some (translation_unit configuration, identity_source configuration, sk_local_anchor k)
   else None,
   sk_usr k).

(** ** The transient handle index *)

(** FNV-1a in 64 bits. *)
Definition stable_fact_hash (value : bytes) : Z :=
  foldl (λ hash byte,
    Z.lxor hash (Z.of_N (N_of_ascii byte)) * 1099511628211 mod 2 ^ 64)
    1469598103934665603 value.

(** [std::rotl] on [std::uint64_t]. *)
Definition rotl (value shift : Z) : Z :=
  Z.lor (Z.shiftl value shift mod 2 ^ 64) (Z.shiftr value (64 - shift)).

Record HandleIndex := MkIndex {
  handles_by_key : gmap bytes Z;
  keys_by_handle : gmap Z bytes
}.

Section handles.
Variable primary : bytes → Z.

Definition candidate_for (key : bytes) (attempt : Z) : Z :=
  let secondary := stable_fact_hash (key ++ bs "#" ++ to_string attempt) in
  let mixed := Z.lxor (primary key) (rotl secondary 23) in
  Z.lor (Z.land mixed (2 ^ 63 - 1)) 1.

(** The attempt loop of [find_or_insert]. *)
Fixpoint probe (fuel : nat) (attempt : Z) (key : bytes) (keys : gmap Z bytes) : option Z :=
  match fuel with
  | O => None
  | S fuel =>
      let candidate := candidate_for key attempt in
      match keys !! candidate with
      | Some other => if decide (other = key) then Some candidate
                      else probe fuel ((attempt + 1) mod 2 ^ 64) key keys
      | None => Some candidate
      end
  end.

Definition find_or_insert (fuel : nat) (key : bytes) (index : HandleIndex) : option (Z * HandleIndex) :=
  match handles_by_key index !! key with
  | Some handle => Some (handle, index)
  | None =>
      candidate ← probe fuel 0 key (keys_by_handle index);
      Some (candidate, MkIndex (<[key := candidate]> (handles_by_key index))
                         (<[candidate := key]> (keys_by_handle index)))
  end.
End handles.

Definition find (key : bytes) (index : HandleIndex) : option Z := handles_by_key index !! key.
Definition key_for (handle : Z) (index : HandleIndex) : option bytes := keys_by_handle index !! handle.
Definition empty_index : HandleIndex := MkIndex ∅ ∅.

(** ** Codes

    Each lemma reads one field off the front of two equal texts. *)

Lemma colon_sep z : ":"%char ∉ to_string z.
Proof. apply to_string_sep; [done|cbn; lia]. Qed.
Lemma semicolon_sep z : ";"%char ∉ to_string z.
Proof. apply to_string_sep; [done|cbn; lia]. Qed.

Lemma append_field_inj f g s t : append_field f ++ s = append_field g ++ t → f = g ∧ s = t.
Proof.
  unfold append_field. rewrite <-!app_assoc, <-!app_comm_cons. intros H.
  apply app_sep_inj in H as [Hn H]; [|apply colon_sep..].
  apply (inj to_string), (inj Z.of_nat) in Hn. by apply app_inj_1 in H.
Qed.

Lemma number_inj a b s t : to_string a ++ bs ";" ++ s = to_string b ++ bs ";" ++ t → a = b ∧ s = t.
Proof.
  intros H. apply app_sep_inj in H as [Hn ->]; [|apply semicolon_sep..].
  by apply (inj to_string) in Hn.
Qed.

Lemma append_optional_inj f g s t : append_optional f ++ s = append_optional g ++ t → f = g ∧ s = t.
Proof.
  destruct f as [f|], g as [g|]; cbn [append_optional]; rewrite <-?app_assoc; [|done|done|].
  - intros H%(inj (app (bs "+"))). apply append_field_inj in H as [-> H]. by apply app_inv_head in H.
  - intros H%app_inv_head. done.
Qed.

Lemma append_optional_int_inj f g s t :
  append_optional_int f ++ s = append_optional_int g ++ t → f = g ∧ s = t.
Proof.
  destruct f as [f|], g as [g|]; cbn [append_optional_int]; rewrite <-?app_assoc; [|done|done|].
  - intros H%(inj (app (bs "+"))). by apply number_inj in H as [-> ->].
  - intros H%app_inv_head. done.
Qed.

(** A counted sequence of fields. *)
Lemma fields_inj l k s t :
  to_string (Z.of_nat (length l)) ++ bs ";" ++ mjoin (append_field <$> l) ++ s
  = to_string (Z.of_nat (length k)) ++ bs ";" ++ mjoin (append_field <$> k) ++ t → l = k ∧ s = t.
Proof.
  intros [Hn%(inj Z.of_nat) H]%number_inj. revert k Hn H.
  induction l as [|x l IH]; intros [|y k] Hn H; simplify_eq/=; [done|].
  rewrite <-!app_assoc in H. apply append_field_inj in H as [-> H]. by apply IH in H as [-> ->].
Qed.

(** Peels equal fields off [H], one after the other. *)
Ltac peel H :=
  rewrite <-?app_assoc in H;
  repeat first
    [ apply append_field_inj in H as [? H]
    | apply append_optional_inj in H as [? H]
    | apply append_optional_int_inj in H as [? H]
    | apply fields_inj in H as [? H]
    | apply number_inj in H as [? H] ].

Lemma partition_string_inj p q s t :
  partition_string p ++ s = partition_string q ++ t → p = q ∧ s = t.
Proof.
  destruct p as [[] [? ? ? ? []]], q as [[] [? ? ? ? []]]. unfold partition_string.
  cbn [pk_file pk_configuration content component_path directory_path file_name semantic_universe
    translation_unit normalized_configuration identity_source cc_driver cc_working_dir cc_arguments
    cc_lang_mode cc_resource_dir].
  intros H. peel H. by subst.
Qed.

(** After the semantic universe, a symbol string of an external symbol is one
    field, and one of a local symbol begins with the field ["local"]. *)
Lemma symbol_string_external k :
  is_local (sk_linkage k) = false →
  symbol_string k = append_field (semantic_universe (pk_configuration (sk_partition k)))
    ++ append_field (sk_usr k).
Proof. unfold symbol_string. by intros ->. Qed.

Lemma symbol_string_local k :
  is_local (sk_linkage k) = true →
  let configuration := pk_configuration (sk_partition k) in
  symbol_string k = append_field (semantic_universe configuration) ++ append_field (bs "local")
    ++ append_field (translation_unit configuration) ++ append_field (identity_source configuration)
    ++ append_optional (sk_local_anchor k) ++ append_field (sk_usr k).
Proof. unfold symbol_string. intros ->. cbn zeta. by rewrite <-!app_assoc. Qed.

Lemma append_field_cons f : ∃ x l, append_field f = x :: l.
Proof. unfold append_field. destruct (to_string _) as [|x l]; eexists _, _; reflexivity. Qed.

(** A number cannot end with [:] and with [;] at once. *)
Lemma number_not_field z f s t : to_string z ++ bs ";" ++ s ≠ append_field f ++ t.
Proof.
  unfold append_field. rewrite <-app_assoc, <-app_comm_cons. intros H.
  set (n := Z.of_nat (length f)) in H. revert H. generalize (colon_sep z), (semicolon_sep n).
  generalize (to_string z) (to_string n).
  intros u v. revert v. induction u as [|x u IH]; intros [|y v] Hv Hu [=]; subst.
  - apply Hu. by left.
  - apply Hv. by left.
  - eapply IH; [| |done]; intros ?; [apply Hv|apply Hu]; by right.
Qed.

(** The string of a symbol followed by the field and the number of a relation. *)
Lemma symbol_string_inj k k' f f' z z' s t :
  symbol_string k ++ append_field f ++ to_string z ++ bs ";" ++ s
  = symbol_string k' ++ append_field f' ++ to_string z' ++ bs ";" ++ t →
  symbol_view k = symbol_view k' ∧ f = f' ∧ z = z' ∧ s = t.
Proof.
  unfold symbol_view. destruct (is_local (sk_linkage k)) eqn:Hl, (is_local (sk_linkage k')) eqn:Hl';
    rewrite 1?(symbol_string_local k Hl), 1?(symbol_string_external k Hl),
      1?(symbol_string_local k' Hl'), 1?(symbol_string_external k' Hl'); intros H; peel H.
  - repeat split; congruence.
  - by apply eq_sym, number_not_field in H.
  - by apply number_not_field in H.
  - repeat split; congruence.
Qed.

Lemma symbol_string_view k k' : symbol_string k = symbol_string k' → symbol_view k = symbol_view k'.
Proof.
  intros H. apply (symbol_string_inj k k' [] [] 0 0 [] []). by rewrite H.
Qed.

Lemma symbol_view_string k k' : symbol_view k = symbol_view k' → symbol_string k = symbol_string k'.
Proof.
  unfold symbol_view, symbol_string.
  destruct (is_local (sk_linkage k)), (is_local (sk_linkage k')); intros; simplify_eq; congruence.
Qed.

(** C27: stable strings are identities.  Equal strings of partitions and of types
    come from equal keys; those of symbols exactly from symbols of one universe
    and USR that are both external, or both local with one translation unit,
    source and anchor; those of relations exactly from relations between such
    symbols with equal kind and attributes. *)
Theorem stable_strings_exact :
  (∀ p q, partition_string p = partition_string q → p = q)
  ∧ (∀ k k', type_string k = type_string k' → k = k')
  ∧ (∀ k k', symbol_string k = symbol_string k' ↔ symbol_view k = symbol_view k')
  ∧ (∀ k k', relation_string k = relation_string k' ↔
       symbol_view (rk_source k) = symbol_view (rk_source k')
       ∧ symbol_view (rk_destination k) = symbol_view (rk_destination k')
       ∧ rk_kind k = rk_kind k' ∧ rk_base_access k = rk_base_access k'
       ∧ rk_is_virtual k = rk_is_virtual k').
Proof.
  split_and!.
  - intros p q H. apply (partition_string_inj p q [] []). by rewrite H.
  - intros [p u] [q v]. unfold type_string. cbn. intros [-> H]%partition_string_inj.
    apply (f_equal (λ x, x ++ [])) in H. by apply append_field_inj in H as [-> _].
  - intros k k'. split; [apply symbol_string_view|apply symbol_view_string].
  - intros k k'. unfold relation_string. split.
    + intros (Hs & Hd%symbol_string_view & Hk & H)%symbol_string_inj. apply append_optional_int_inj in H as [Hb H].
      split_and!; try done.
      apply (f_equal (λ x, x ++ [])) in H. by apply append_optional_int_inj in H as [? _].
    + intros (Hs & Hd & -> & -> & ->). by rewrite (symbol_view_string _ _ Hs), (symbol_view_string _ _ Hd).
Qed.

(** ** Handles *)

(** The index is a bijection between its keys and odd positive handles. *)
Record index_ok (index : HandleIndex) : Prop := {
  ok_bijection k h : handles_by_key index !! k = Some h ↔ keys_by_handle index !! h = Some k;
  ok_range h : is_Some (keys_by_handle index !! h) → 0 < h < 2 ^ 63 ∧ Z.odd h = true
}.

Lemma candidate_range primary key attempt :
  0 < candidate_for primary key attempt < 2 ^ 63 ∧ Z.odd (candidate_for primary key attempt) = true.
Proof.
  unfold candidate_for. set (m := Z.lxor _ _). change (2 ^ 63 - 1) with (Z.ones 63).
  rewrite Z.land_ones by lia. set (n := m mod 2 ^ 63).
  assert (0 ≤ n < 2 ^ 63) as Hn by (apply Z.mod_pos_bound; lia).
  assert (Z.odd (Z.lor n 1) = true) as Hodd by (rewrite <-Z.bit0_odd, Z.lor_spec; by rewrite orb_true_r).
  assert (0 ≤ Z.lor n 1) as Hpos by (apply Z.lor_nonneg; lia). split_and!; [|apply Z.log2_lt_pow2|done].
  - destruct (decide (Z.lor n 1 = 0)) as [E|]; [by rewrite E in Hodd|lia].
  - destruct (decide (Z.lor n 1 = 0)) as [E|]; [by rewrite E in Hodd|lia].
  - rewrite Z.log2_lor by lia. change (Z.log2 1) with 0. apply Z.max_lub_lt; [|lia].
    destruct (decide (n = 0)) as [->|]; [done|]. apply Z.log2_lt_pow2; lia.
Qed.

(** The loop stops at the first attempt whose candidate is free. *)
Lemma probe_spec primary fuel attempt key keys h :
  probe primary fuel attempt key keys = Some h →
  (∃ i, h = candidate_for primary key i) ∧ (keys !! h = None ∨ keys !! h = Some key).
Proof.
  revert attempt. induction fuel as [|fuel IH]; intros attempt; simpl; [done|].
  destruct (keys !! candidate_for primary key attempt) as [other|] eqn:Hk; [destruct (decide (other = key)) as [->|]; [|apply IH]|];
    intros [= <-]; eauto.
Qed.

Lemma probe_occupied primary fuel attempt key keys :
  0 ≤ attempt → attempt + Z.of_nat fuel < 2 ^ 64 →
  probe primary fuel attempt key keys = None →
  ∀ i, attempt ≤ i < attempt + Z.of_nat fuel → is_Some (keys !! candidate_for primary key i).
Proof.
  revert attempt. induction fuel as [|fuel IH]; intros attempt H0 Hb; simpl; [lia|].
  destruct (keys !! candidate_for primary key attempt) as [other|] eqn:Hk; [destruct (decide (other = key)); [done|]|done]. intros Hp i Hi.
  rewrite Z.mod_small in Hp by lia. destruct (decide (i = attempt)) as [->|]; [by rewrite Hk|].
  apply (IH (attempt + 1)); [lia..|done|lia].
Qed.

Lemma find_or_insert_spec primary fuel key index h index' :
  index_ok index → find_or_insert primary fuel key index = Some (h, index') →
  index_ok index' ∧ find key index' = Some h
  ∧ (∀ k, k ≠ key → find k index' = find k index)
  ∧ (∀ h', find key index = Some h' → h' = h ∧ index' = index).
Proof.
  intros Hok. unfold find_or_insert, find. destruct (handles_by_key index !! key) as [h0|] eqn:Hf.
  { intros [= <- <-]. split_and!; [done..|]. by intros ? [= <-]. }
  intros (c & ((i & Hc) & Hp)%probe_spec & [= <- <-])%bind_Some. cbn.
  assert (keys_by_handle index !! c = None) as Hfree.
  { destruct Hp as [?|Hp]; [done|]. apply (ok_bijection _ Hok) in Hp. congruence. }
  split_and!; [|by rewrite lookup_insert_eq|intros; by rewrite lookup_insert_ne|done].
  split; cbn.
  - intros k h. rewrite !lookup_insert_Some. split.
    + intros [[<- <-]|[Hne Hk]]; [by left|right]. pose proof Hk as Hk'. apply (ok_bijection _ Hok) in Hk.
      split; [|done]. intros <-. congruence.
    + intros [[<- <-]|[Hne Hk]]; [by left|right]. pose proof Hk as Hk'. apply (ok_bijection _ Hok) in Hk.
      split; [|done]. intros <-. congruence.
  - intros h [k Hk]. apply lookup_insert_Some in Hk as [[<- _]|[_ Hk]]; [|by apply (ok_range _ Hok)].
    rewrite Hc. apply candidate_range.
Qed.

(** A sequence of insertions. *)
Fixpoint insert_all (primary : bytes → Z) (fuel : nat) (keys : list bytes) (index : HandleIndex)
    : option (list Z * HandleIndex) :=
  match keys with
  | [] => Some ([], index)
  | key :: keys =>
      '(h, index) ← find_or_insert primary fuel key index;
      '(hs, index) ← insert_all primary fuel keys index;
      Some (h :: hs, index)
  end.

Lemma empty_index_ok : index_ok empty_index.
Proof. split; cbn; [intros; by rewrite !lookup_empty|intros h []; by rewrite lookup_empty in *]. Qed.

Lemma insert_all_spec primary fuel keys index hs index' :
  index_ok index → insert_all primary fuel keys index = Some (hs, index') →
  index_ok index' ∧ Forall2 (λ k h, find k index' = Some h) keys hs
  ∧ (∀ k h, find k index = Some h → find k index' = Some h)
  ∧ (∀ k, is_Some (find k index') ↔ is_Some (find k index) ∨ k ∈ keys).
Proof.
  revert index hs. induction keys as [|key keys IH]; intros index hs Hok; simpl.
  { intros [= <- <-]. split_and!; [done|constructor|done|]. intros k. rewrite elem_of_nil. tauto. }
  intros ([h index1] & (Hok1 & Hh & Hother & Hsame)%find_or_insert_spec & H)%bind_Some; [|done].
  apply bind_Some in H as ([hs1 index2] & Hi & [= <- <-]).
  destruct (IH _ _ Hok1 Hi) as (Hok2 & Hall & Hkeep & Hdom). split_and!; [done| | |].
  - constructor; [by apply Hkeep|done].
  - intros k h' Hk. apply Hkeep. destruct (decide (k = key)) as [->|Hne]; [|by rewrite Hother].
    apply Hsame in Hk as [-> _]. done.
  - intros k. rewrite Hdom, elem_of_cons. destruct (decide (k = key)) as [->|Hne].
    + rewrite Hh. naive_solver.
    + rewrite Hother by done. naive_solver.
Qed.

(** Whatever the primary hash, collisions included, the handles of a batch are
    exact: handles are odd, positive and fit [int64_t]; two insertions give the
    same handle exactly when they have the same key; the key of a handle is the
    one inserted; and insertion gives a handle whenever one of the first attempts
    has a candidate that no other key holds. *)
Theorem handles_exact primary fuel keys hs index :
  insert_all primary fuel keys empty_index = Some (hs, index) →
  length hs = length keys
  ∧ (∀ i j ki kj hi hj, keys !! i = Some ki → keys !! j = Some kj → hs !! i = Some hi →
       hs !! j = Some hj → (hi = hj ↔ ki = kj))
  ∧ (∀ i k h, keys !! i = Some k → hs !! i = Some h →
       key_for h index = Some k ∧ 0 < h < 2 ^ 63 ∧ Z.odd h = true)
  ∧ (∀ key n, Z.of_nat n < 2 ^ 64 →
       (∃ i, 0 ≤ i < Z.of_nat n ∧ key_for (candidate_for primary key i) index = None) →
       is_Some (find_or_insert primary n key index)).
Proof.
  intros H. destruct (insert_all_spec _ _ _ _ _ _ empty_index_ok H) as (Hok & Hall & _ & _).
  assert (∀ i k h, keys !! i = Some k → hs !! i = Some h → find k index = Some h) as Hat.
  { intros i k h Hk Hh. by eapply Forall2_lookup_lr in Hall. }
  split_and!.
  - symmetry. by eapply Forall2_length.
  - intros i j ki kj hi hj Hki Hkj Hhi Hhj.
    pose proof (Hat _ _ _ Hki Hhi) as Hi. pose proof (Hat _ _ _ Hkj Hhj) as Hj. split.
    + intros <-. apply (ok_bijection _ Hok) in Hi, Hj. congruence.
    + intros <-. congruence.
  - intros i k h Hk Hh. pose proof (Hat _ _ _ Hk Hh) as Hi. apply (ok_bijection _ Hok) in Hi.
    split; [done|]. apply (ok_range _ Hok). by rewrite Hi.
  - intros key n Hn (i & Hi & Hfree). unfold find_or_insert. destruct (_ !! key); [done|].
    destruct (probe _ _ _ _ _) eqn:Hp; [done|].
    apply probe_occupied with (i := i) in Hp; [|lia..]. destruct Hp as [? Hp].
    unfold key_for in Hfree. congruence.
Qed.

(** Three keys under a hash that sends everything to zero. *)
Lemma handles_exact_witness :
  ∃ hs index, insert_all (λ _, 0) 4 [bs "a"; bs "b"; bs "a"] empty_index = Some (hs, index)
    ∧ length hs = 3%nat.
Proof.
  destruct (insert_all (λ _, 0) 4 [bs "a"; bs "b"; bs "a"] empty_index) as [[hs index]|] eqn:H.
  - exists hs, index. split; [done|]. apply (handles_exact _ _ _ _ _ H).
  - exfalso. revert H. by vm_compute.
Defined.
