(* ===== verification/TuFactCache.v ===== *)
(** * The cache of translation-unit fact batches: [src/src/storage/tu_fact_cache.cpp]

    What [TuFactCache::publish] refuses and writes into a cache entry's sidecar,
    what a lookup reads back, the status it gives an entry from the diagnostics of
    [ArtifactStore::validate], and the dependency evidence the planner of
    [DependencyPlanner] works from. *)

From S2P Require Export DependencyPlanner.
From S2P Require Import Hashing Utf8.

(** ** Hexadecimal payloads *)

Fixpoint hex_encode (data : bytes) : bytes :=
  match data with
  | [] => []
  | byte :: data =>
      hex_digit (Z.land (Z.shiftr (zb byte) 4) 15) :: hex_digit (Z.land (zb byte) 15) :: hex_encode data
  end.

Definition hex_nibble (c : ascii) : result Z :=
  match hex_value c with
  | Some d => Ok d
  | None => Err (bs "invalid hexadecimal cache payload")
  end.

(** The loop over the pairs; a leftover digit is refused before it. *)
Fixpoint hex_pairs (encoded : bytes) : result bytes :=
  match encoded with
  | high :: low :: encoded =>
      let! h := hex_nibble high in
      let! l := hex_nibble low in
      let! rest := hex_pairs encoded in
      Ok (byte_of (Z.lor (Z.shiftl h 4) l) :: rest)
  | _ => Ok []
  end.

Definition hex_decode (encoded : bytes) : result bytes :=
  if Nat.odd (length encoded) then Err (bs "odd-length hexadecimal cache payload")
  else hex_pairs encoded.

Lemma nibbles_byte b : 0 <= b < 256 →
  Z.lor (Z.shiftl (Z.land (Z.shiftr b 4) 15) 4) (Z.land b 15) = b.
Proof.
  intros Hb. apply Z.bits_inj'. intros n Hn.
  rewrite Z.lor_spec, Z.shiftl_spec, !Z.land_spec by lia. change 15 with (Z.ones 4).
  destruct (decide (n < 4)).
  - rewrite (Z.testbit_neg_r _ (n - 4)), (Z.ones_spec_low 4 n) by lia. by destruct (Z.testbit b n).
  - rewrite Z.shiftr_spec, (Z.ones_spec_high 4 n) by lia. replace (n - 4 + 4) with n by lia.
    rewrite andb_false_r, orb_false_r. destruct (decide (n < 8)).
    + rewrite Z.ones_spec_low by lia. by rewrite andb_true_r.
    + assert (Z.testbit b n = false) as ->; [|done].
      apply Z.bits_above_log2; [lia|]. destruct (decide (b = 0)) as [->|]; [simpl; lia|].
      apply Z.log2_lt_pow2; [lia|]. eapply Z.lt_le_trans; [apply Hb|]. change 256 with (2 ^ 8).
      apply Z.pow_le_mono_r; lia.
Qed.

Lemma hex_encode_even data : Nat.odd (length (hex_encode data)) = false.
Proof. by induction data as [|b data IH]. Qed.

(** Decoding the encoding gives the bytes back. *)
Lemma hex_decode_encode data : hex_decode (hex_encode data) = Ok data.
Proof.
  unfold hex_decode. rewrite hex_encode_even. induction data as [|b data IH]; [done|]. cbn [hex_encode hex_pairs].
  assert (∀ z, 0 <= Z.land z 15 < 16) as Hr
    by (intros z; change 15 with (Z.ones 4); rewrite Z.land_ones by done; by apply Z.mod_pos_bound).
  unfold hex_nibble. rewrite !hex_value_digit by apply Hr. cbn [rbind]. rewrite IH. cbn [rbind].
  rewrite nibbles_byte by apply zb_range. by rewrite byte_of_zb.
Qed.

(** ** Statuses *)

Inductive TuFactCacheStatus : Type :=
| cache_hit | cache_missing | cache_stale | cache_corrupt | cache_incompatible | cache_partial
| cache_truncated | cache_untrusted | cache_unavailable.

#[export] Instance TuFactCacheStatus_eq_dec : EqDecision TuFactCacheStatus.
Proof. solve_decision. Defined.

(** One turn of the loop over the diagnostics' codes; [None] is the early return
    of [corrupt]. *)
Definition status_after (result : TuFactCacheStatus) (code : bytes) : option TuFactCacheStatus :=
  if bool_decide (code = bs "corrupt" ∨ code = bs "invalid_location") then None
  else Some
    (if bool_decide (code ∈ bs <$> ["incompatible"; "unsupported_contract"; "missing_required_relation";
                                    "missing_relation"; "invalid_relation"]%string)
     then cache_incompatible
     else if bool_decide (code = bs "truncated") && negb (bool_decide (result = cache_incompatible))
     then cache_truncated
     else if bool_decide (code = bs "partial") && bool_decide (result = cache_hit) then cache_partial
     else if bool_decide (code = bs "untrusted") && bool_decide (result = cache_hit) then cache_untrusted
     else if bool_decide (code = bs "missing") && bool_decide (result = cache_hit) then cache_missing
     else if bool_decide (result = cache_hit) then cache_unavailable
     else result).

Fixpoint status_loop (result : TuFactCacheStatus) (codes : list bytes) : TuFactCacheStatus :=
  match codes with
  | [] => result
  | code :: codes =>
      match status_after result code with
      | None => cache_corrupt
      | Some result => status_loop result codes
      end
  end.

Definition status_from_diagnostics (codes : list bytes) : TuFactCacheStatus :=
  status_loop cache_hit codes.

Definition evidence_state (status : TuFactCacheStatus) : DependencyEvidenceState :=
  match status with
  | cache_hit => ev_complete
  | cache_stale => ev_stale
  | cache_corrupt => ev_corrupt
  | cache_missing | cache_unavailable => ev_unavailable
  | cache_incompatible | cache_partial | cache_truncated | cache_untrusted => ev_incomplete
  end.

Lemma status_after_hit result code : status_after result code ≠ Some cache_hit.
Proof. unfold status_after. repeat case_bool_decide; by destruct result. Qed.

Lemma status_loop_hit result codes : status_loop result codes = cache_hit → result = cache_hit.
Proof.
  revert result. induction codes as [|c codes IH]; intros result; [done|]. cbn [status_loop].
  destruct (status_after result c) as [r|] eqn:E; [|done]. intros ->%IH. by apply status_after_hit in E.
Qed.

(** Any diagnostic at all keeps an entry from being a hit. *)
Lemma status_hit codes : status_from_diagnostics codes = cache_hit ↔ codes = [].
Proof.
  split; [|by intros ->]. unfold status_from_diagnostics. destruct codes as [|c codes]; [done|]. cbn [status_loop].
  destruct (status_after cache_hit c) as [r|] eqn:E; [|done]. intros ->%status_loop_hit.
  by apply status_after_hit in E.
Qed.

Lemma evidence_complete status : evidence_state status = ev_complete ↔ status = cache_hit.
Proof. by destruct status. Qed.

(** ** Publication *)

Record TuFactCachePublication := Publication {
  workspace_identity : bytes;
  source_identity : bytes;
  configuration_identity : bytes;
  cache_identity : bytes;
  fact_batch_artifact : bytes;
  replay_context : bytes;
  dependency_evidence_of : TranslationUnitDependencyEvidence
}.

(** What [make_spec] puts in the manifest, the constant members left out. *)
Record CacheSpec := Spec {
  spec_logical_id : bytes;
  spec_workspace : bytes;
  spec_tu : bytes;                       (* tu_identity *)
  spec_configuration : bytes;            (* configuration_identity *)
  spec_input : bytes;                    (* input_fact_set_identity *)
  spec_complete : bool                   (* completeness: complete or partial *)
}.

Record DependencyRow := DepRow {
  dep_source : bytes;
  dep_destination : bytes;
  dep_sha256 : bytes;                    (* destination_content_sha256 *)
  dep_context : bytes;                   (* conditional_context *)
  dep_resolved : Z;
  dep_provenance : bytes;
  dep_kind : bytes;
  dep_system : Z
}.

#[export] Instance DependencyRow_eq_dec : EqDecision DependencyRow.
Proof. solve_decision. Defined.

(** The three tables of the sidecar. *)
Record Sidecar := Sidecar_ {
  cache_row : option (bytes * bytes * bytes);      (* cache_identity, payload_hex, payload_sha256 *)
  context_row : option (bytes * bytes);            (* context_hex, context_sha256 *)
  dependency_rows : list DependencyRow
}.

Definition logical_id (h : host) (workspace source configuration : bytes) : result bytes :=
  let! source := canonical_tu_cache_path h source in
  Ok (bs "tu-fact-cache:" ++ sha256_hex (workspace ++ [nul] ++ source ++ [nul] ++ configuration)).

Definition make_spec (h : host) (p : TuFactCachePublication) : result CacheSpec :=
  let! id := logical_id h (workspace_identity p) (source_identity p) (configuration_identity p) in
  let! tu := canonical_tu_cache_path h (source_identity p) in
  Ok (Spec id (workspace_identity p) tu (configuration_identity p) (cache_identity p)
        (bool_decide (unit_state (dependency_evidence_of p) = ev_complete))).

(** [edge.resolved && edge.destination_content_sha256.empty()]. *)
Definition unidentified (e : TuDependencyEdge) : bool :=
  edge_resolved e && bool_decide (edge_sha256 e = []).

Definition incomplete_publication (p : TuFactCachePublication) : bool :=
  bool_decide (fact_batch_artifact p = []) || bool_decide (replay_context p = []) ||
  bool_decide (cache_identity p = []) || bool_decide (unit_generation (dependency_evidence_of p) = []) ||
  negb (bool_decide (cache_identity p = unit_generation (dependency_evidence_of p))) ||
  existsb unidentified (unit_edges (dependency_evidence_of p)).

Definition dependency_row (h : host) (e : TuDependencyEdge) : result DependencyRow :=
  let! source := canonical_tu_cache_path h (edge_source e) in
  let! destination := canonical_tu_cache_path h (edge_destination e) in
  Ok (DepRow source destination (edge_sha256 e) (edge_context e) (Z.b2z (edge_resolved e))
        (edge_provenance e) (kind_to_string (edge_kind e)) (Z.b2z (edge_system e))).

(** [INSERT OR IGNORE]: the primary key is the whole row. *)
Definition insert_or_ignore (rows : list DependencyRow) (r : DependencyRow) : list DependencyRow :=
  if decide (r ∈ rows) then rows else rows ++ [r].

(** [TuFactCache::publish]: the manifest and the sidecar the artifact store
    keeps. *)
Definition publish (h : host) (p : TuFactCachePublication) : result (CacheSpec * Sidecar) :=
  if incomplete_publication p then Err (bs "TU FactBatch cache publication is incomplete")
  else
    let! spec := make_spec h p in
    let! rows := mapR (dependency_row h) (unit_edges (dependency_evidence_of p)) in
    Ok (spec, Sidecar_
      (Some (cache_identity p, hex_encode (fact_batch_artifact p), sha256_hex (fact_batch_artifact p)))
      (Some (hex_encode (replay_context p), sha256_hex (replay_context p)))
      (foldl insert_or_ignore [] rows)).

(** ** Reading an entry *)

Definition dependency_kind (value : bytes) : TuDependencyKind :=
  if bool_decide (value = bs "macro") then kind_macro
  else if bool_decide (value = bs "generated") then kind_generated
  else if bool_decide (value = bs "toolchain") then kind_toolchain
  else kind_include.

Definition edge_of (r : DependencyRow) : TuDependencyEdge :=
  DependencyEdge (dep_source r) (dep_destination r) (dep_sha256 r) (dep_context r) (dep_provenance r)
    (dependency_kind (dep_kind r)) (negb (dep_resolved r =? 0)) (negb (dep_system r =? 0)).

(** [ORDER BY source, destination, conditional_context]; SQLite leaves the order
    of rows that agree on the three open. *)
Definition row_ltb (a b : DependencyRow) : bool :=
  lex_ltb bytes_ltb [dep_source a; dep_destination a; dep_context a]
                    [dep_source b; dep_destination b; dep_context b].

Definition select_edges (s : Sidecar) : list TuDependencyEdge := edge_of <$> sort row_ltb (dependency_rows s).

(** The codes of [ArtifactStore::validate_record] for an entry: [place] those of
    the checks of its location, which return at once, [file] those of the checks
    of the file, its envelope and its contract. *)
Definition validation_codes (place file : list bytes) (spec : CacheSpec) : list bytes :=
  match place with
  | [] => file ++ (if spec_complete spec then [] else [bs "partial"])
  | _ => place
  end.

(** [read] is what [ArtifactStore::read_current] does with the reader: it throws
    or hands over the sidecar. *)
Definition read_dependency_evidence (spec : CacheSpec) (status : TuFactCacheStatus) (read : result Sidecar) :
    TranslationUnitDependencyEvidence :=
  if decide (status = cache_hit) then
    match read with
    | Ok s => Evidence (spec_tu spec) (spec_configuration spec) (spec_input spec) (evidence_state status)
                (select_edges s)
    | Err _ => Evidence (spec_tu spec) (spec_configuration spec) (spec_input spec) ev_corrupt []
    end
  else Evidence (spec_tu spec) (spec_configuration spec) (spec_input spec) (evidence_state status) [].

(** A current entry of the store: its manifest, what its validation reports and
    what reading it does. *)
Record CacheEntry := Entry {
  entry_spec : CacheSpec;
  entry_place : list bytes;
  entry_file : list bytes;
  entry_read : result Sidecar
}.

Definition entry_codes (c : CacheEntry) : list bytes :=
  validation_codes (entry_place c) (entry_file c) (entry_spec c).

Definition entry_evidence (c : CacheEntry) : TranslationUnitDependencyEvidence :=
  read_dependency_evidence (entry_spec c) (status_from_diagnostics (entry_codes c)) (entry_read c).

(** [std::pair(entry.source, entry.configuration)]. *)
Definition evidence_ltb (a b : TranslationUnitDependencyEvidence) : bool :=
  lex_ltb bytes_ltb [unit_source a; unit_configuration a] [unit_source b; unit_configuration b].

(** [TuFactCache::dependency_evidence] over the entries of kind [tu-fact-cache];
    the sort is not stable, the order of entries of one unit is open. *)
Definition dependency_evidence (entries : list CacheEntry) : list TranslationUnitDependencyEvidence :=
  sort evidence_ltb (entry_evidence <$> entries).

(** [TuFactCache::dependency_evidence_for]; [slot] is the entry of the logical
    id. *)
Definition dependency_evidence_for (h : host) (slot : option CacheEntry) (workspace source configuration : bytes) :
    result (option TranslationUnitDependencyEvidence) :=
  match slot with
  | None => Ok None
  | Some c =>
      if bool_decide (spec_workspace (entry_spec c) = workspace) then Ok (Some (entry_evidence c))
      else
        let! source := canonical_tu_cache_path h source in
        Ok (Some (Evidence source configuration [] ev_stale []))
  end.

Record TuFactCacheLookup := Lookup {
  found_status : TuFactCacheStatus;
  found_artifact : bytes;
  found_context : bytes;
  found_evidence : TranslationUnitDependencyEvidence
}.

Definition with_state (u : TranslationUnitDependencyEvidence) (state : DependencyEvidenceState) :=
  Evidence (unit_source u) (unit_configuration u) (unit_generation u) state (unit_edges u).

(** The reader of [TuFactCache::read_current], as far as it gets. *)
Definition read_sidecar (spec : CacheSpec) (base : TranslationUnitDependencyEvidence) (s : Sidecar) :
    result TuFactCacheLookup :=
  match cache_row s with
  | Some (identity, payload, payload_sha) =>
      if bool_decide (identity = spec_input spec) then
        let! artifact := hex_decode payload in
        if bool_decide (sha256_hex artifact = payload_sha) then
          match context_row s with
          | None => Ok (Lookup cache_incompatible [] [] (with_state base ev_incomplete))
          | Some (context, context_sha) =>
              let! replay := hex_decode context in
              if bool_decide (sha256_hex replay = context_sha) then
                Ok (Lookup cache_hit artifact replay
                      (Evidence (unit_source base) (unit_configuration base) (unit_generation base)
                         (unit_state base) (select_edges s)))
              else Ok (Lookup cache_corrupt [] [] (with_state base ev_corrupt))
          end
        else Ok (Lookup cache_corrupt [] [] (with_state base ev_corrupt))
      else Ok (Lookup cache_incompatible [] [] (with_state base ev_incomplete))
  | None => Ok (Lookup cache_incompatible [] [] (with_state base ev_incomplete))
  end.

Definition read_current (spec : CacheSpec) (status : TuFactCacheStatus) (read : result Sidecar) : TuFactCacheLookup :=
  let base := Evidence (spec_tu spec) (spec_configuration spec) (spec_input spec) (evidence_state status) [] in
  if decide (status = cache_hit) then
    match rbind read (read_sidecar spec base) with
    | Ok found => found
    | Err _ => Lookup cache_corrupt [] [] (with_state base ev_corrupt)
    end
  else Lookup status [] [] base.

(** [TuFactCache::lookup]; [slot] is the entry [ArtifactStore::validate] finds
    for the logical id. *)
Definition lookup (h : host) (slot : option CacheEntry) (workspace source configuration expected : bytes) :
    result TuFactCacheLookup :=
  match slot with
  | None =>
      let! source := canonical_tu_cache_path h source in
      Ok (Lookup cache_missing [] [] (Evidence source configuration [] ev_unavailable []))
  | Some c =>
      if negb (bool_decide (spec_workspace (entry_spec c) = workspace)) ||
         negb (bool_decide (spec_input (entry_spec c) = expected))
      then Ok (read_current (entry_spec c) cache_stale (entry_read c))
      else Ok (read_current (entry_spec c) (status_from_diagnostics (entry_codes c)) (entry_read c))
  end.

(** [TuFactCacheService::plan_affected]
    ([src/src/application/tu_fact_cache_service.cpp]): the files named by the
    caller, against the entries of the cache when there is one. *)
Definition plan_affected (h : host) (cache : option (list CacheEntry)) (changed : list bytes) :
    result TuDependencyPlan :=
  match cache with
  | None => Ok (Plan [] 0 0 0 0 false reason_unavailable_evidence)
  | Some entries =>
      let! canonical := mapR (canonical_tu_cache_path h) changed in
      plan_affected_translation_units h canonical (dependency_evidence entries)
  end.

(** ** What a published entry holds *)

(** The unit a publication is about, with the edges it was given. *)
Definition published_unit (p : TuFactCachePublication) : TranslationUnitDependencyEvidence :=
  Evidence (source_identity p) (configuration_identity p) (cache_identity p)
    (unit_state (dependency_evidence_of p)) (unit_edges (dependency_evidence_of p)).

(** [c] is the entry [publish p] made: its manifest is the publication's, and
    reading it gives the sidecar written then or fails. *)
Definition holds (h : host) (c : CacheEntry) (p : TuFactCachePublication) : Prop :=
  ∃ s, publish h p = Ok (entry_spec c, s) ∧ (entry_read c = Ok s ∨ ∃ msg, entry_read c = Err msg).

(** Nothing is reported against the entry, and it can be read. *)
Definition intact (c : CacheEntry) : Prop :=
  entry_place c = [] ∧ entry_file c = [] ∧ ∃ s, entry_read c = Ok s.

(** The publication's evidence was complete, and each dependency resolved to a
    file whose content was identified. *)
Definition identified (p : TuFactCachePublication) : Prop :=
  unit_state (dependency_evidence_of p) = ev_complete ∧
  ∀ e, e ∈ unit_edges (dependency_evidence_of p) → edge_resolved e = true ∧ edge_sha256 e ≠ [].

Lemma elem_of_inserted rows0 rows r : r ∈ foldl insert_or_ignore rows0 rows ↔ r ∈ rows0 ∨ r ∈ rows.
Proof.
  revert rows0. induction rows as [|x rows IH]; intros rows0; cbn [foldl]; [set_solver|].
  rewrite IH. unfold insert_or_ignore. case_decide; set_solver.
Qed.

Lemma dependency_kind_string k : dependency_kind (kind_to_string k) = k.
Proof. by destruct k. Qed.

Lemma validation_codes_nil place file spec :
  validation_codes place file spec = [] ↔ place = [] ∧ file = [] ∧ spec_complete spec = true.
Proof. unfold validation_codes. destruct place, file, (spec_complete spec); naive_solver. Qed.

Section published.
Context (h : host) (cwd : bytes).
Context (Hcwd : host_cwd h = Ok cwd) (Habs : isabs cwd = true).

Definition row_of (e : TuDependencyEdge) : DependencyRow :=
  DepRow (canon h (edge_source e)) (canon h (edge_destination e)) (edge_sha256 e) (edge_context e)
    (Z.b2z (edge_resolved e)) (edge_provenance e) (kind_to_string (edge_kind e)) (Z.b2z (edge_system e)).

Lemma edge_of_row e : edge_of (row_of e) = canon_edge h e.
Proof.
  unfold edge_of, row_of, canon_edge. cbn. rewrite dependency_kind_string.
  by destruct (edge_resolved e), (edge_system e).
Qed.

(** What a publication that is not refused leaves in the store. *)
Lemma publish_inv p spec s :
  publish h p = Ok (spec, s) →
  incomplete_publication p = false ∧
  spec_tu spec = canon h (source_identity p) ∧ spec_configuration spec = configuration_identity p ∧
  spec_input spec = cache_identity p ∧ spec_workspace spec = workspace_identity p ∧
  spec_complete spec = bool_decide (unit_state (dependency_evidence_of p) = ev_complete) ∧
  cache_row s = Some (cache_identity p, hex_encode (fact_batch_artifact p), sha256_hex (fact_batch_artifact p)) ∧
  context_row s = Some (hex_encode (replay_context p), sha256_hex (replay_context p)) ∧
  ∀ e, e ∈ select_edges s ↔ e ∈ canon_edge h <$> unit_edges (dependency_evidence_of p).
Proof.
  unfold publish, make_spec, logical_id. destruct (incomplete_publication p) eqn:Ei; [done|].
  rewrite !(canonical_ok h cwd) by done. cbn [rbind].
  rewrite (mapR_ok _ row_of)
    by (intros e _; unfold dependency_row; by rewrite !(canonical_ok h cwd)).
  cbn [rbind]. intros [= <- <-]. split_and!; try done. intros e. unfold select_edges, sort. cbn.
  rewrite (merge_sort_Permutation _), !list_elem_of_fmap. split.
  - intros (r & -> & [Hr|Hr]%elem_of_inserted); [by apply elem_of_nil in Hr|].
    apply list_elem_of_fmap in Hr as (e' & -> & He). exists e'. by rewrite edge_of_row.
  - intros (e' & -> & He). exists (row_of e'). rewrite edge_of_row. split; [done|].
    apply elem_of_inserted. right. by apply list_elem_of_fmap_2.
Qed.

(** The identity of a published unit is not empty, and no resolved edge of it
    lacks the content hash of its file. *)
Lemma publication_guard p :
  incomplete_publication p = false →
  cache_identity p ≠ [] ∧
  ∀ e, e ∈ unit_edges (dependency_evidence_of p) → edge_resolved e = true → edge_sha256 e ≠ [].
Proof.
  unfold incomplete_publication. rewrite !orb_false_iff. intros [[[[_ Hid] _] _] He].
  split; [by apply bool_decide_eq_false in Hid|]. intros e Hin Hr Hs.
  apply not_true_iff_false in He. apply He, existsb_exists. exists e.
  split; [by apply list_elem_of_In|]. unfold unidentified. by rewrite Hr, Hs.
Qed.

Section entry.
Context (c : CacheEntry) (p : TuFactCachePublication).
Hypothesis (Hp : holds h c p).

Lemma entry_target : canon_target h (entry_evidence c) = canon_target h (published_unit p).
Proof.
  destruct Hp as (s & Hs & _). apply publish_inv in Hs as (_ & Ht & Hc & _).
  unfold canon_target, entry_evidence, read_dependency_evidence.
  assert (∀ g st es, Affected (canon h (unit_source (Evidence (spec_tu (entry_spec c))
    (spec_configuration (entry_spec c)) g st es))) (unit_configuration (Evidence (spec_tu (entry_spec c))
    (spec_configuration (entry_spec c)) g st es)) = Affected (canon h (source_identity p)) (configuration_identity p))
    as H by (intros; cbn; by rewrite Ht, Hc, (canon_idem h cwd)).
  case_decide; [case_match|]; apply H.
Qed.

(** Usable evidence comes from intact entries of identified publications. *)
Lemma entry_usable : usable (entry_evidence c) ↔ intact c ∧ identified p.
Proof.
  destruct Hp as (s & Hs & Hread). apply publish_inv in Hs as (Hi & _ & _ & Hin & _ & Hcomp & _ & _ & He).
  destruct (publication_guard p Hi) as [Hid Hhash].
  unfold usable, entry_evidence, read_dependency_evidence, intact, identified.
  destruct (decide (status_from_diagnostics (entry_codes c) = cache_hit)) as [Hst|Hst].
  - apply status_hit, validation_codes_nil in Hst as Hn. rewrite Hst.
    destruct Hn as (Hpl & Hf & Hsc). rewrite Hcomp in Hsc. apply bool_decide_eq_true in Hsc.
    destruct Hread as [->|[msg ->]]; cbn; [|naive_solver]. rewrite Hin, Forall_forall. setoid_rewrite He.
    setoid_rewrite list_elem_of_fmap. split.
    + intros (_ & _ & Hr). split_and!; [done|done|by eexists|done|]. intros e Hine.
      assert (edge_resolved e = true) by (apply (Hr (canon_edge h e)); eauto). split; [done|]. by apply Hhash.
    + intros (_ & _ & Hr). split_and!; [done|done|]. intros _ (e & -> & Hine). by apply (Hr e).
  - split.
    + intros (Hc & _). cbn in Hc. by apply evidence_complete in Hc.
    + intros ((Hpl & Hf & _) & Hc & _). destruct Hst. apply status_hit, validation_codes_nil.
      split_and!; [done|done|]. rewrite Hcomp. by apply bool_decide_eq_true.
Qed.

(** Usable evidence has the publication's dependencies. *)
Lemma entry_invalidated changed :
  usable (entry_evidence c) →
  invalidated h changed (entry_evidence c) ↔ invalidated h changed (published_unit p).
Proof.
  intros [[Hpl [Hf [s' Hr]]] [Hcomplete _]]%entry_usable. destruct Hp as (s & Hs & Hread).
  apply publish_inv in Hs as (_ & Ht & _ & _ & _ & Hcomp & _ & _ & He).
  assert (entry_read c = Ok s) as Hok by (destruct Hread as [?|[? ?]]; congruence).
  assert (status_from_diagnostics (entry_codes c) = cache_hit) as Hst.
  { apply status_hit, validation_codes_nil. split_and!; [done|done|]. rewrite Hcomp. by apply bool_decide_eq_true. }
  unfold invalidated, entry_evidence, read_dependency_evidence. rewrite Hst, decide_True, Hok by done.
  cbn [unit_edges unit_source published_unit]. rewrite Ht, (canon_idem h cwd Hcwd Habs (source_identity p)).
  assert (∀ a b, direct h (select_edges s) a b ↔ direct h (unit_edges (dependency_evidence_of p)) a b) as Hd.
  { intros a b. rewrite <- (direct_canon h cwd Hcwd Habs (unit_edges (dependency_evidence_of p))). unfold direct.
    by setoid_rewrite He. }
  split; intros (d & Hd' & Hrtc); exists d; (split; [done|]);
    (eapply rtc_subrel; [|exact Hrtc]); intros x y; apply Hd.
Qed.
End entry.

(** ** Planning over the cache *)

Lemma elem_of_evidence entries u : u ∈ dependency_evidence entries ↔ ∃ c, u = entry_evidence c ∧ c ∈ entries.
Proof. unfold dependency_evidence, sort. by rewrite (merge_sort_Permutation _), list_elem_of_fmap. Qed.

Lemma invalidated_canon changed u : invalidated h (canon h <$> changed) u ↔ invalidated h changed u.
Proof.
  unfold invalidated. setoid_rewrite list_elem_of_fmap. split.
  - intros (d & (d' & -> & Hd) & Hr). rewrite (canon_idem h cwd) in Hr by done. eauto.
  - intros (d & Hd & Hr). exists (canon h d). rewrite (canon_idem h cwd) by done. eauto.
Qed.

Lemma all_usable entries :
  Forall (λ c, ∃ p, holds h c p) entries →
  (dependency_evidence entries ≠ [] ∧ Forall usable (dependency_evidence entries)) ↔
  (entries ≠ [] ∧ ∀ c p, c ∈ entries → holds h c p → intact c ∧ identified p).
Proof.
  rewrite Forall_forall. intros Hall. rewrite Forall_forall. setoid_rewrite elem_of_evidence.
  assert (dependency_evidence entries = [] ↔ entries = []) as ->.
  { unfold dependency_evidence. split; [|by intros ->]. intros E.
    assert (length (sort evidence_ltb (entry_evidence <$> entries)) = 0%nat) as Hl by by rewrite E.
    unfold sort in Hl. rewrite (merge_sort_Permutation _), length_fmap in Hl. by destruct entries. }
  apply and_iff_compat_l. split.
  - intros H c p Hc Hp. apply (entry_usable c p Hp), H. eauto.
  - intros H u (c & -> & Hc). destruct (Hall c Hc) as [p Hp]. by apply (entry_usable c p Hp), H.
Qed.

(** C33: A plan over the cache keeps no stale unit.  When every entry of the cache
    was made by [publish], and reading one gives what was written or fails, the
    plan is made; each published unit that depends, through the dependencies it
    was published with, on a changed file is in its affected list, which names
    published units only.  The plan is complete exactly when the cache has
    entries and each is intact and was published from complete evidence whose
    every dependency is resolved and carries the content hash of its file: a
    dependency without the hash never lets a unit count as proven.  A complete
    plan lists nothing but units that depend on a changed file; another one names
    a reason, lists every unit and proves none unaffected. *)
Theorem cached_plan_never_misses changed entries :
  Forall (λ c, ∃ p, holds h c p) entries →
  ∃ plan, plan_affected h (Some entries) changed = Ok plan ∧
    (∀ c p, c ∈ entries → holds h c p → invalidated h changed (published_unit p) →
       canon_target h (published_unit p) ∈ affected plan) ∧
    (∀ t, t ∈ affected plan → ∃ c p, c ∈ entries ∧ holds h c p ∧ t = canon_target h (published_unit p)) ∧
    (complete plan = true ↔ entries ≠ [] ∧ ∀ c p, c ∈ entries → holds h c p → intact c ∧ identified p) ∧
    (complete plan = true → ∀ t, t ∈ affected plan → ∃ c p, c ∈ entries ∧ holds h c p ∧
       invalidated h changed (published_unit p) ∧ t = canon_target h (published_unit p)) ∧
    (complete plan = false → fallback_reason plan ≠ reason_none ∧ proven_unaffected_count plan = 0%nat ∧
       ∀ c p, c ∈ entries → holds h c p → canon_target h (published_unit p) ∈ affected plan).
Proof.
  intros Hall. pose proof (proj1 (Forall_forall _ _) Hall) as Hmade. unfold plan_affected.
  rewrite (mapR_ok _ (canon h)) by (intros; by apply (canonical_ok h cwd)). cbn [rbind].
  setoid_rewrite <- (all_usable entries Hall).
  destruct (usable_dec_cases (dependency_evidence entries)) as [[Hne Hus]|Hbad].
  - destruct (plan_complete_ok h cwd Hcwd (canon h <$> changed) _ Hne Hus)
      as (plan & ts & -> & _ & Hc & _ & Ha & _).
    assert (∀ c p, c ∈ entries → holds h c p →
      invalidated h (canon h <$> changed) (entry_evidence c) ↔ invalidated h changed (published_unit p)) as Hinv.
    { intros c p Hin Hp. rewrite invalidated_canon. apply (entry_invalidated c p Hp).
      apply (proj1 (Forall_forall _ _) Hus), elem_of_evidence. eauto. }
    assert (∀ t, t ∈ affected plan → ∃ c p, c ∈ entries ∧ holds h c p ∧
      invalidated h changed (published_unit p) ∧ t = canon_target h (published_unit p)) as Hex.
    { intros t (u & (c & -> & Hin)%elem_of_evidence & Hi & ->)%Ha. destruct (Hmade c Hin) as [p Hp].
      exists c, p. rewrite (entry_target c p Hp). split_and!; [done|done|by apply (Hinv c)|done]. }
    exists plan. split_and!; [done| | |done|done|by rewrite Hc].
    + intros c p Hin Hp Hi. apply Ha. exists (entry_evidence c). rewrite (entry_target c p Hp).
      split_and!; [apply elem_of_evidence; eauto|by apply (Hinv c p)|done].
    + intros t (c & p & ? & ? & _ & ?)%Hex. eauto.
  - destruct (plan_fallback_ok h cwd Hcwd (canon h <$> changed) _ Hbad) as (plan & ts & -> & Hts & Hc & Hr & Ha & _ & H0).
    rewrite (all_targets_ok h cwd) in Hts by done. injection Hts as <-.
    assert (∀ c p, c ∈ entries → holds h c p → canon_target h (published_unit p) ∈ affected plan) as Hin.
    { intros c p Hin Hp. rewrite Ha, elem_of_sort_unique, <- (entry_target c p Hp) by apply _.
      apply list_elem_of_fmap_2, elem_of_evidence. eauto. }
    exists plan. split_and!; [done|by eauto| |by rewrite Hc|by rewrite Hc|done].
    intros t Ht. rewrite Ha, elem_of_sort_unique in Ht by apply _.
    apply list_elem_of_fmap in Ht as (u & -> & (c & -> & Hc')%elem_of_evidence).
    destruct (Hmade c Hc') as [p Hp]. exists c, p. by rewrite (entry_target c p Hp).
Qed.

(** A hit gives back what was published: the fact batch and the replay context
    byte for byte, and the edges. *)
Lemma lookup_published c p :
  holds h c p → intact c → unit_state (dependency_evidence_of p) = ev_complete →
  ∃ found, lookup h (Some c) (workspace_identity p) (source_identity p) (configuration_identity p)
      (cache_identity p) = Ok found ∧
    found_status found = cache_hit ∧ found_artifact found = fact_batch_artifact p ∧
    found_context found = replay_context p ∧
    ∀ e, e ∈ unit_edges (found_evidence found) ↔ e ∈ canon_edge h <$> unit_edges (dependency_evidence_of p).
Proof.
  intros (s & Hs & Hread) (Hpl & Hf & s' & Hr) Hcomplete.
  apply publish_inv in Hs as (_ & _ & _ & Hin & Hw & Hcomp & Hcache & Hctx & He).
  assert (entry_read c = Ok s) as Hok by (destruct Hread as [?|[? ?]]; congruence).
  assert (status_from_diagnostics (entry_codes c) = cache_hit) as Hst.
  { apply status_hit, validation_codes_nil. split_and!; [done|done|]. rewrite Hcomp. by apply bool_decide_eq_true. }
  unfold lookup. rewrite Hw, Hin, !bool_decide_eq_true_2 by done. cbn [negb orb].
  eexists. split; [done|]. unfold read_current. rewrite Hst, decide_True, Hok by done.
  unfold rbind, read_sidecar. rewrite Hcache, Hctx, Hin, bool_decide_eq_true_2 by done.
  rewrite !hex_decode_encode. cbn [rbind]. by rewrite !bool_decide_eq_true_2 by done.
Qed.
End published.

(** ** Witnesses *)

Definition sample_publication : TuFactCachePublication :=
  Publication (bs "ws") (bs "a.cpp") (bs "cfg") (bs "g1") (bs "batch") (bs "replay")
    (Evidence (bs "/w/a.cpp") (bs "cfg") (bs "g1") ev_complete
      [DependencyEdge (bs "a.cpp") (bs "b.h") (bs "s1") [] [] kind_include true false;
       DependencyEdge (bs "/w/x/../b.h") (bs "c.h") (bs "s2") [] [] kind_macro true false]).

Definition sample_entry : CacheEntry :=
  match publish sample_host sample_publication with
  | Ok (spec, s) => Entry spec [] [] (Ok s)
  | Err msg => Entry (Spec [] [] [] [] [] false) [] [] (Err msg)
  end.

Lemma sample_holds : holds sample_host sample_entry sample_publication.
Proof.
  unfold holds, sample_entry.
  destruct (publish sample_host sample_publication) as [[spec s]|msg] eqn:E; [|vm_compute in E; done].
  exists s. by split; [|left].
Qed.

(** The unit depends on [c.h] through [b.h]; the plan over its entry is complete
    and lists it. *)
Lemma cached_plan_never_misses_witness : ∃ plan,
  plan_affected sample_host (Some [sample_entry]) [bs "./c.h"] = Ok plan ∧ complete plan = true ∧
  affected plan = [Affected (bs "/w/a.cpp") (bs "cfg")] ∧
  canon_target sample_host (published_unit sample_publication) ∈ affected plan ∧ identified sample_publication.
Proof.
  destruct (cached_plan_never_misses sample_host (bs "/w") eq_refl eq_refl [bs "./c.h"] [sample_entry])
    as (plan & Hp & Hall & _ & Hcomplete & _ & _).
  { apply Forall_singleton. exists sample_publication. exact sample_holds. }
  assert (plan_affected sample_host (Some [sample_entry]) [bs "./c.h"] =
    Ok (Plan [Affected (bs "/w/a.cpp") (bs "cfg")] 1 0 3 2 true reason_none)) as E by (vm_compute; reflexivity).
  exists plan. rewrite E in Hp. injection Hp as <-. split_and!; [exact E|done|done| |].
  - apply (Hall sample_entry); [by apply list_elem_of_singleton|exact sample_holds|].
    exists (bs "./c.h"). split; [by apply list_elem_of_singleton|].
    apply (rtc_l _ _ (bs "/w/b.h")); [|apply rtc_once].
    + exists (DependencyEdge (bs "a.cpp") (bs "b.h") (bs "s1") [] [] kind_include true false).
      split; [by left|vm_compute; by split].
    + exists (DependencyEdge (bs "/w/x/../b.h") (bs "c.h") (bs "s2") [] [] kind_macro true false).
      split; [by right; left|vm_compute; by split].
  - destruct (proj1 Hcomplete eq_refl) as [_ H].
    by apply (H sample_entry); [apply list_elem_of_singleton|exact sample_holds].
Defined.

(** An entry whose resolved dependency has no content hash is not published. *)
Example unidentified_refused :
  publish sample_host (Publication (bs "ws") (bs "a.cpp") (bs "cfg") (bs "g1") (bs "batch") (bs "replay")
    (Evidence (bs "/w/a.cpp") (bs "cfg") (bs "g1") ev_complete
      [DependencyEdge (bs "a.cpp") (bs "b.h") [] [] [] kind_include true false])) =
  Err (bs "TU FactBatch cache publication is incomplete").
Proof. vm_compute. reflexivity. Qed.

(** The planner itself does not look at the hashes: the evidence that [publish]
    refuses is complete for it, and captured as complete. *)
Theorem planner_ignores_hashes :
  ∃ u p, capture_translation_unit_dependency_evidence sample_host (bs "a.cpp") (bs "cfg") (bs "g")
      [DependencyEdge (bs "a.cpp") (bs "b.h") [] [] [] kind_include true false] true = Ok u ∧
    existsb unidentified (unit_edges u) = true ∧ unit_state u = ev_complete ∧
    plan_affected_translation_units sample_host [bs "z.h"] [u] = Ok p ∧
    complete p = true ∧ proven_unaffected_count p = 1%nat.
Proof. do 2 eexists. split_and!; [vm_compute; reflexivity..]. Qed.
