(* ===== verification/FactWire.v ===== *)
(** * The wire format of fact batches: primitives

    [BinaryWriter] and [FactBatchArtifactInput] of
    [src/src/ast/fact_batch_artifact.cpp].  A writer is the list of the bytes it
    appends; a reader passes the unread payload and the count of collection
    entries, and fails with a code and a message.  Numbers are little-endian.

    [codec w r] says that [r] reads back what [w] writes, within the decode
    limits, and that whatever [r] accepts is what [w] writes: the format has one
    text for each value. *)

From S2P Require Export Bytes.
Open Scope Z_scope.

(** ** Errors *)

Inductive FactBatchArtifactErrorCode :=
| missing | stale_code | corrupt | incompatible | partial | truncated | limit_exceeded | io_error
| spill_failure | noncanonical.

#[export] Instance artifact_error_code_eq_dec : EqDecision FactBatchArtifactErrorCode.
Proof. solve_decision. Defined.

Definition code_to_string (code : FactBatchArtifactErrorCode) : bytes :=
  match code with
  | missing => bs "missing"
  | stale_code => bs "stale"
  | corrupt => bs "corrupt"
  | incompatible => bs "incompatible"
  | partial => bs "partial"
  | truncated => bs "truncated"
  | limit_exceeded => bs "limit_exceeded"
  | io_error => bs "io_error"
  | spill_failure => bs "spill_failure"
  | noncanonical => bs "noncanonical"
  end.

(** A value, or a thrown [FactBatchArtifactError]. *)
Inductive fallible (A : Type) :=
| Good (a : A)
| Fail (code : FactBatchArtifactErrorCode) (message : bytes).
Arguments Good {A} _.
Arguments Fail {A} _ _.

Definition fbind {A B} (m : fallible A) (k : A → fallible B) : fallible B :=
  match m with
  | Good a => k a
  | Fail code message => Fail code message
  end.

Definition fail_if (b : bool) (code : FactBatchArtifactErrorCode) (message : bytes) : fallible unit :=
  if b then Fail code message else Good tt.

Notation "'let+' x ':=' m 'in' k" := (fbind m (λ x, k))
  (at level 200, x pattern, m at level 100, k at level 200, right associativity) : cidx_scope.

(** ** The limits and the input *)

Record FactBatchArtifactDecodeLimits := DecodeLimits {
  limit_artifact_bytes : N;
  max_string_bytes : N;
  max_collection_entries : N;
  max_total_entries : N
}.

(** [payload_size_ - offset_] is the length of [unread]. *)
Record input := In {
  unread : bytes;
  total_entries : N
}.

Definition reader (A : Type) : Type := input → fallible (A * input).

Definition ret {A} (a : A) : reader A := λ i, Good (a, i).

Definition bind {A B} (r : reader A) (k : A → reader B) : reader B :=
  λ i, match r i with
       | Good (a, i) => k a i
       | Fail code message => Fail code message
       end.

Definition stop {A} (code : FactBatchArtifactErrorCode) (message : bytes) : reader A :=
  λ _, Fail code message.

Notation "'let?' x ':=' r 'in' k" := (bind r (λ x, k))
  (at level 200, x pattern, r at level 100, k at level 200, right associativity) : wire_scope.
Declare Scope wire_scope.
Delimit Scope wire_scope with wire.
Open Scope wire_scope.

(** *** Little-endian numbers *)

Fixpoint le_bytes (size : nat) (value : N) : bytes :=
  match size with
  | O => []
  | S size => ascii_of_N (value mod 256) :: le_bytes size (value / 256)
  end.

Fixpoint le_value (l : bytes) : N :=
  match l with
  | [] => 0
  | b :: l => N_of_ascii b + 256 * le_value l
  end%N.

(** [std::bit_cast] between [int64_t] and [uint64_t]. *)
Definition u64_of_i64 (z : Z) : N := Z.to_N (z mod 2 ^ 64).
Definition i64_of_u64 (n : N) : Z := if (n <? 2 ^ 63)%N then Z.of_N n else Z.of_N n - 2 ^ 64.

(** ** Writers *)

Definition write_u8 (value : N) : bytes := le_bytes 1 value.
Definition write_u32 (value : N) : bytes := le_bytes 4 value.
Definition write_u64 (value : N) : bytes := le_bytes 8 value.
Definition write_i64 (value : Z) : bytes := write_u64 (u64_of_i64 value).
Definition write_bool (value : bool) : bytes := write_u8 (if value then 1 else 0).
Definition write_size {A} (l : list A) : bytes := write_u64 (N.of_nat (length l)).
Definition write_string (value : bytes) : bytes := write_size value ++ value.

Definition write_optional {A} (write : A → bytes) (value : option A) : bytes :=
  match value with
  | Some value => write_bool true ++ write value
  | None => write_bool false
  end.

Definition write_vector {A} (write : A → bytes) (values : list A) : bytes :=
  write_size values ++ mjoin (write <$> values).

(** ** Readers *)

Section readers.
Variable limits : FactBatchArtifactDecodeLimits.

Definition read_exact (size : nat) : reader bytes := λ i,
  if (length (unread i) <? size)%nat
  then Fail truncated (bs "FactBatch artifact ended inside a declared field")
  else Good (take size (unread i), In (drop size (unread i)) (total_entries i)).

Definition read_u8 : reader N := let? l := read_exact 1 in ret (le_value l).
Definition read_u32 : reader N := let? l := read_exact 4 in ret (le_value l).
Definition read_u64 : reader N := let? l := read_exact 8 in ret (le_value l).
Definition read_i64 : reader Z := let? n := read_u64 in ret (i64_of_u64 n).

Definition read_bool : reader bool :=
  let? value := read_u8 in
  if (1 <? value)%N
  then stop corrupt (bs "FactBatch artifact contains a non-boolean value")
  else ret (value =? 1)%N.

Definition read_string : reader bytes :=
  let? len := read_u64 in
  λ i,
    if (max_string_bytes limits <? len)%N
    then Fail limit_exceeded (bs "FactBatch artifact string exceeds the configured limit")
    else if (N.of_nat (length (unread i)) <? len)%N
    then Fail truncated (bs "FactBatch artifact string exceeds its remaining payload")
    else read_exact (N.to_nat len) i.

Definition read_count : reader N :=
  let? value := read_u64 in
  λ i,
    if (max_collection_entries limits <? value)%N
       || (max_total_entries limits - total_entries i <? value)%N
    then Fail limit_exceeded (bs "FactBatch artifact collection exceeds the configured limit")
    else if (N.of_nat (length (unread i)) <? value)%N
    then Fail truncated (bs "FactBatch artifact collection exceeds its remaining payload")
    else Good (value, In (unread i) (total_entries i + value)%N).

Definition read_optional {A} (read : reader A) : reader (option A) :=
  let? present := read_bool in
  if present : bool then (let? a := read in ret (Some a)) else ret None.

(** [std::generate_n]. *)
Fixpoint read_times {A} (n : nat) (read : reader A) : reader (list A) :=
  match n with
  | O => ret []
  | S n => let? a := read in let? l := read_times n read in ret (a :: l)
  end.

Definition read_vector {A} (read : reader A) : reader (list A) :=
  let? n := read_count in read_times (N.to_nat n) read.
End readers.

(** ** Enumerations *)

(** An enumeration with its underlying values, all of a range. *)
Class WireEnum (E : Type) := {
  to_underlying : E → N;
  enum_cast : N → E;
  enum_min : N;
  enum_max : N
}.

Class WireEnumLaws (E : Type) `{WireEnum E} : Prop := {
  cast_underlying e : enum_cast (to_underlying e) = e;
  underlying_range e : (enum_min ≤ to_underlying e ≤ enum_max)%N;
  underlying_cast n : (enum_min ≤ n ≤ enum_max)%N → to_underlying (enum_cast n) = n;
  enum_byte : (enum_max < 256)%N
}.

Definition write_enum `{WireEnum E} (e : E) : bytes := write_u8 (to_underlying e).

Definition read_enum `{WireEnum E} (name : bytes) : reader E :=
  let? value := read_u8 in
  if (value <? enum_min)%N || (enum_max <? value)%N
  then stop corrupt (bs "FactBatch artifact contains an invalid " ++ name)
  else ret (enum_cast value).

(** ** Sizes

    What the decode limits bound: [fits] holds of the values a reader may return,
    [entries] is what a value adds to the count of collection entries. *)

Class Sized (A : Type) := {
  fits : FactBatchArtifactDecodeLimits → A → Prop;
  entries : A → N
}.

(** [std::int64_t], [std::uint64_t], [bool], [std::string]. *)
#[export] Instance Z_sized : Sized Z := {| fits _ z := - 2 ^ 63 ≤ z < 2 ^ 63; entries _ := 0%N |}.
#[export] Instance N_sized : Sized N := {| fits _ n := (n < 2 ^ 64)%N; entries _ := 0%N |}.
#[export] Instance bool_sized : Sized bool := {| fits _ _ := True; entries _ := 0%N |}.
#[export] Instance bytes_sized : Sized bytes := {|
  fits limits s := (N.of_nat (length s) ≤ max_string_bytes limits)%N ∧ (N.of_nat (length s) < 2 ^ 64)%N;
  entries _ := 0%N |}.
#[export] Instance enum_sized `{WireEnum E} : Sized E | 100 := {| fits _ _ := True; entries _ := 0%N |}.

#[export] Instance option_sized `{Sized A} : Sized (option A) := {|
  fits limits x := match x with Some a => fits limits a | None => True end;
  entries x := match x with Some a => entries a | None => 0%N end |}.

Definition total_of `{Sized A} (l : list A) : N := foldr (λ a n, entries a + n)%N 0%N l.

#[export] Instance list_sized `{Sized A} : Sized (list A) | 50 := {|
  fits limits l := Forall (fits limits) l
    ∧ (N.of_nat (length l) ≤ max_collection_entries limits)%N ∧ (N.of_nat (length l) < 2 ^ 64)%N;
  entries l := (N.of_nat (length l) + total_of l)%N |}.

#[export] Instance prod_sized `{Sized A, Sized B} : Sized (A * B) := {|
  fits limits x := fits limits x.1 ∧ fits limits x.2;
  entries x := (entries x.1 + entries x.2)%N |}.

(** A record is sized by the tuple of its fields. *)
Definition sized_by `{Sized B} {A} (tuple : A → B) : Sized A :=
  {| fits limits a := fits limits (tuple a); entries a := entries (tuple a) |}.

(** ** Codecs *)

Section codecs.
Variable limits : FactBatchArtifactDecodeLimits.

Record codec_with {A} (ok : A → Prop) (n : A → N) (w : A → bytes) (r : reader A) : Prop := {
  codec_some a : (1 ≤ length (w a))%nat;
  codec_reads a t tot :
    ok a → (tot + n a ≤ max_total_entries limits)%N →
    r (In (w a ++ t) tot) = Good (a, In t (tot + n a));
  codec_reads_only s tot a i :
    r (In s tot) = Good (a, i) →
    ok a ∧ s = w a ++ unread i ∧ total_entries i = (tot + n a)%N
    ∧ ((tot ≤ max_total_entries limits)%N → (total_entries i ≤ max_total_entries limits)%N)
}.

Definition codec `{Sized A} : (A → bytes) → reader A → Prop := codec_with (fits limits) entries.

(** *** Steps of a reader *)

Lemma bind_reads {A B} ok n w (r : reader A) (k : A → reader B) a t tot x :
  codec_with ok n w r → ok a → (tot + n a ≤ max_total_entries limits)%N →
  k a (In t (tot + n a)) = x → bind r k (In (w a ++ t) tot) = x.
Proof. intros Hc Ha Ht <-. unfold bind. by rewrite (codec_reads _ _ _ _ Hc _ _ _ Ha Ht). Qed.

Lemma bind_reads_only {A B} ok n w (r : reader A) (k : A → reader B) s tot b i :
  codec_with ok n w r → bind r k (In s tot) = Good (b, i) →
  ∃ a t, ok a ∧ s = w a ++ t ∧ k a (In t (tot + n a)) = Good (b, i)
    ∧ ((tot ≤ max_total_entries limits)%N → (tot + n a ≤ max_total_entries limits)%N).
Proof.
  intros Hc. unfold bind. destruct (r (In s tot)) as [[a [t tot']]|] eqn:Hr; [|done].
  destruct (codec_reads_only _ _ _ _ Hc _ _ _ _ Hr) as (Ha & -> & Ht & Hm). cbn in *. subst.
  intros H. exists a, t. auto.
Qed.

(** *** Numbers *)

Lemma length_le_bytes size v : length (le_bytes size v) = size.
Proof. revert v. induction size as [|size IH]; intros v; simpl; [done|]. by rewrite IH. Qed.

Lemma le_value_bytes size v : (v < 256 ^ N.of_nat size)%N → le_value (le_bytes size v) = v.
Proof.
  revert v. induction size as [|size IH]; intros v Hv; [cbn in *; lia|].
  cbn [le_bytes le_value]. rewrite N_ascii_embedding by (apply N.mod_lt; lia).
  rewrite Nat2N.inj_succ, N.pow_succ_r' in Hv.
  rewrite IH by (apply N.Div0.div_lt_upper_bound; lia).
  pose proof (N.div_mod v 256 ltac:(lia)). lia.
Qed.

Lemma le_bytes_value l : le_bytes (length l) (le_value l) = l.
Proof.
  induction l as [|b l IH]; [done|]. cbn [length le_bytes le_value].
  pose proof (N_ascii_bounded b) as Hb.
  assert ((N_of_ascii b + 256 * le_value l) mod 256 = N_of_ascii b)%N as ->.
  { rewrite N.mul_comm, N.Div0.mod_add. by apply N.mod_small. }
  assert ((N_of_ascii b + 256 * le_value l) / 256 = le_value l)%N as ->.
  { rewrite N.mul_comm, N.div_add, N.div_small by lia. lia. }
  by rewrite ascii_N_embedding, IH.
Qed.

Lemma le_value_lt l : (le_value l < 256 ^ N.of_nat (length l))%N.
Proof.
  induction l as [|b l IH]; [cbn; lia|]. cbn [length le_value]. rewrite Nat2N.inj_succ, N.pow_succ_r'.
  pose proof (N_ascii_bounded b). lia.
Qed.

Lemma read_exact_app l t tot : read_exact (length l) (In (l ++ t) tot) = Good (l, In t tot).
Proof.
  unfold read_exact. cbn [unread total_entries]. rewrite length_app, (proj2 (Nat.ltb_ge _ _)) by lia.
  by rewrite take_app_length, drop_app_length.
Qed.

Lemma read_exact_only size s tot l i :
  read_exact size (In s tot) = Good (l, i) →
  length l = size ∧ s = l ++ unread i ∧ total_entries i = tot.
Proof.
  unfold read_exact. cbn [unread total_entries].
  destruct (length s <? size)%nat eqn:E; [done|]. intros [= <- <-]. cbn [unread total_entries].
  apply Nat.ltb_ge in E. rewrite length_take, take_drop. split_and!; [lia|done..].
Qed.

Lemma codec_le size bound :
  (0 < size)%nat → (bound = 256 ^ N.of_nat size)%N →
  codec_with (λ v, (v < bound)%N) (λ _, 0%N) (le_bytes size)
    (let? l := read_exact size in ret (le_value l)).
Proof.
  intros Hpos ->. split.
  - intros v. rewrite length_le_bytes. lia.
  - intros v t tot Hv _. unfold bind. rewrite <-(length_le_bytes size v) at 1.
    rewrite read_exact_app, N.add_0_r. unfold ret. by rewrite le_value_bytes.
  - intros s tot v i. unfold bind, ret. destruct (read_exact _ _) as [[l i']|] eqn:Hr; [|done].
    intros [= <- ->]. apply read_exact_only in Hr as (Hl & -> & ->).
    rewrite <-Hl, le_bytes_value. split_and!; [apply le_value_lt|done|lia|done].
Qed.

Lemma codec_u8 : codec_with (λ v, (v < 256)%N) (λ _, 0%N) write_u8 read_u8.
Proof. apply codec_le; [lia|done]. Qed.
Lemma codec_u32 : codec_with (λ v, (v < 2 ^ 32)%N) (λ _, 0%N) write_u32 read_u32.
Proof. apply codec_le; [lia|done]. Qed.
Lemma codec_u64 : codec write_u64 read_u64.
Proof. apply codec_le; [lia|done]. Qed.

(** *** Derived codecs *)

(** A number read through a bijection. *)
Lemma codec_through {A B} (ok : A → Prop) n w (r : reader A) (ok' : B → Prop) (f : B → A) (g : A → B) :
  codec_with ok n w r →
  (∀ b, ok' b → ok (f b) ∧ g (f b) = b) → (∀ a, ok a → ok' (g a) ∧ f (g a) = a) →
  codec_with ok' (λ b, n (f b)) (λ b, w (f b)) (let? a := r in ret (g a)).
Proof.
  intros Hc Hto Hof. split.
  - intros b. apply (codec_some _ _ _ _ Hc).
  - intros b t tot [Ha Hb]%Hto Ht. eapply bind_reads; [done..|]. unfold ret. by rewrite Hb.
  - intros s tot b i (a & t & Ha & -> & [= <- <-] & Hm)%(bind_reads_only _ _ _ _ _ _ _ _ _ Hc).
    apply Hof in Ha as [Hb Ha]. rewrite Ha. auto.
Qed.

Lemma i64_bijection z : - 2 ^ 63 ≤ z < 2 ^ 63 → (u64_of_i64 z < 2 ^ 64)%N ∧ i64_of_u64 (u64_of_i64 z) = z.
Proof.
  intros Hz. unfold u64_of_i64, i64_of_u64. pose proof (Z.mod_pos_bound z (2 ^ 64) ltac:(lia)) as Hm.
  split; [lia|]. rewrite Z2N.id by lia.
  destruct (decide (0 ≤ z)) as [Hp|Hp].
  - rewrite Z.mod_small in * by lia. destruct (Z.to_N z <? 2 ^ 63)%N eqn:E; [done|].
    apply N.ltb_ge in E. lia.
  - assert (z mod 2 ^ 64 = z + 2 ^ 64) as E1.
    { rewrite <-(Z.mod_small (z + 2 ^ 64) (2 ^ 64)) by lia. rewrite <-Zplus_mod_idemp_r.
      by rewrite Z_mod_same_full, Z.add_0_r. }
    rewrite E1 in *. destruct (Z.to_N (z + 2 ^ 64) <? 2 ^ 63)%N eqn:E; [|lia].
    apply N.ltb_lt in E. lia.
Qed.

Lemma u64_bijection n :
  (n < 2 ^ 64)%N → - 2 ^ 63 ≤ i64_of_u64 n < 2 ^ 63 ∧ u64_of_i64 (i64_of_u64 n) = n.
Proof.
  intros Hn. unfold u64_of_i64, i64_of_u64. destruct (n <? 2 ^ 63)%N eqn:E.
  - apply N.ltb_lt in E. split; [lia|]. rewrite Z.mod_small by lia. lia.
  - apply N.ltb_ge in E. split; [lia|].
    replace (Z.of_N n - 2 ^ 64) with (Z.of_N n + (-1) * 2 ^ 64) by lia.
    rewrite Z_mod_plus_full, Z.mod_small by lia. lia.
Qed.

Lemma codec_i64 : codec write_i64 read_i64.
Proof.
  exact (codec_through _ _ _ _ _ u64_of_i64 i64_of_u64 codec_u64 i64_bijection u64_bijection).
Qed.

Lemma codec_bool : codec write_bool read_bool.
Proof.
  split.
  - by intros [].
  - intros b t tot _ Ht. unfold write_bool, read_bool.
    eapply bind_reads; [apply codec_u8|by destruct b|done|by destruct b].
  - intros s tot b i (v & t & Hv & -> & H & Hm)%(bind_reads_only _ _ _ _ _ _ _ _ _ codec_u8).
    cbn beta in *. destruct (1 <? v)%N eqn:E; [done|]. injection H as <- <-. cbn.
    apply N.ltb_ge in E. assert (v = 0 ∨ v = 1)%N as [-> | ->] by lia; auto.
Qed.

Lemma codec_enum `{WireEnumLaws E} name : codec write_enum (read_enum (E := E) name).
Proof.
  pose proof (enum_byte (E := E)) as Hb. split.
  - intros e. by apply (codec_some _ _ _ _ codec_u8).
  - intros e t tot _ Ht. pose proof (underlying_range e) as Hr.
    unfold write_enum, read_enum. eapply bind_reads; [apply codec_u8|cbn; lia|done|]. cbn beta.
    rewrite (proj2 (N.ltb_ge _ _)), (proj2 (N.ltb_ge _ _)) by lia. by rewrite cast_underlying.
  - intros s tot e i (v & t & Hv & -> & H1 & Hm)%(bind_reads_only _ _ _ _ _ _ _ _ _ codec_u8).
    destruct (_ || _) eqn:E1 in H1; [done|]. injection H1 as <- <-. cbn.
    apply orb_false_iff in E1 as [?%N.ltb_ge ?%N.ltb_ge]. unfold write_enum. rewrite underlying_cast by lia. auto.
Qed.

Lemma codec_string : codec write_string (read_string limits).
Proof.
  split.
  - intros a. unfold write_string. rewrite length_app. pose proof (codec_some _ _ _ _ codec_u64
      (N.of_nat (length a))). unfold write_size. lia.
  - intros a t tot [Hm Hb] Ht. unfold write_string, write_size. rewrite <-app_assoc. cbn in Ht.
    unfold read_string. eapply bind_reads; [apply codec_u64|exact Hb|cbn; lia|].
    cbn [unread total_entries]. rewrite length_app.
    rewrite (proj2 (N.ltb_ge _ _)), (proj2 (N.ltb_ge _ _)) by lia.
    rewrite Nat2N.id, read_exact_app. cbn. by rewrite !N.add_0_r.
  - intros s tot a i (n & t & Hn & -> & H & Hm)%(bind_reads_only _ _ _ _ _ _ _ _ _ codec_u64).
    cbn [unread total_entries] in H. destruct (max_string_bytes limits <? n)%N eqn:E1; [done|].
    destruct (_ <? n)%N eqn:E2 in H; [done|]. apply read_exact_only in H as (Hl & -> & ->).
    apply N.ltb_ge in E1. cbn [fits entries N_sized bytes_sized unread] in *. unfold write_string, write_size.
    replace (N.of_nat (length a)) with n by lia. rewrite <-app_assoc. split_and!; [lia|lia|done|lia|].
    cbn in Hm. lia.
Qed.

Lemma codec_optional `{Sized A} w (r : reader A) :
  codec w r → codec (write_optional w) (read_optional r).
Proof.
  intros Hc. split.
  - intros [a|]; cbn; lia.
  - intros [a|] t tot Ha Ht; cbn [write_optional]; unfold read_optional; rewrite <-?app_assoc;
      (eapply bind_reads; [apply codec_bool|done|cbn; cbn in Ht; lia|]); cbn [entries bool_sized];
      rewrite N.add_0_r.
    + eapply bind_reads; [exact Hc|exact Ha|exact Ht|reflexivity].
    + unfold ret. cbn. by rewrite N.add_0_r.
  - intros s tot x i ([] & t & _ & -> & H1 & Hm)%(bind_reads_only _ _ _ _ _ _ _ _ _ codec_bool);
      cbn [entries bool_sized] in *; rewrite N.add_0_r in *.
    + apply (bind_reads_only _ _ _ _ _ _ _ _ _ Hc) in H1 as (a & t' & Ha & -> & [= <- <-] & Hm').
      cbn [fits entries option_sized write_optional unread total_entries].
      rewrite <-app_assoc. auto.
    + injection H1 as <- <-. cbn. rewrite N.add_0_r. auto.
Qed.

Lemma total_of_cons `{Sized A} (a : A) l : total_of (a :: l) = (entries a + total_of l)%N.
Proof. done. Qed.

Lemma mjoin_cons {A} (w : A → bytes) a l : mjoin (w <$> a :: l) = w a ++ mjoin (w <$> l).
Proof. done. Qed.

Lemma read_times_reads `{Sized A} w (r : reader A) l t tot :
  codec w r → Forall (fits limits) l → (tot + total_of l ≤ max_total_entries limits)%N →
  read_times (length l) r (In (mjoin (w <$> l) ++ t) tot) = Good (l, In t (tot + total_of l)).
Proof.
  intros Hc Hl. revert tot. induction Hl as [|a l Ha _ IH]; intros tot Ht.
  { cbn. unfold ret. by rewrite N.add_0_r. }
  rewrite total_of_cons in *. rewrite mjoin_cons, <-app_assoc. cbn [length read_times].
  eapply bind_reads; [exact Hc|exact Ha|lia|].
  unfold bind at 1. rewrite IH by lia. unfold ret. do 3 f_equal. lia.
Qed.

Lemma read_times_only `{Sized A} w (r : reader A) n s tot l i :
  codec w r → read_times n r (In s tot) = Good (l, i) →
  length l = n ∧ Forall (fits limits) l ∧ s = mjoin (w <$> l) ++ unread i
  ∧ total_entries i = (tot + total_of l)%N
  ∧ ((tot ≤ max_total_entries limits)%N → (total_entries i ≤ max_total_entries limits)%N).
Proof.
  intros Hc. revert s tot l. induction n as [|n IH]; intros s tot l; cbn [read_times].
  { intros [= <- <-]. cbn. rewrite N.add_0_r. auto. }
  intros (a & t & Ha & -> & H1 & Hm)%(bind_reads_only _ _ _ _ _ _ _ _ _ Hc).
  unfold bind in H1. destruct (read_times n r _) as [[l' i']|] eqn:Hr; [|done].
  injection H1 as <- <-. apply IH in Hr as (<- & Hl & -> & Ht & Hm').
  rewrite mjoin_cons, total_of_cons, <-app_assoc.
  split_and!; [done|by constructor|done|lia|auto].
Qed.

Lemma mjoin_length {A} (w : A → bytes) l :
  (∀ a, (1 ≤ length (w a))%nat) → (length l ≤ length (mjoin (w <$> l)))%nat.
Proof.
  intros Hw. induction l as [|a l IH]; [cbn; lia|].
  rewrite mjoin_cons, length_app. cbn [length]. specialize (Hw a). lia.
Qed.

Lemma count_reads (n : N) t tot :
  (n ≤ max_collection_entries limits)%N → (tot + n ≤ max_total_entries limits)%N → (n < 2 ^ 64)%N →
  (n ≤ N.of_nat (length t))%N →
  read_count limits (In (write_u64 n ++ t) tot) = Good (n, In t (tot + n)%N).
Proof.
  intros Hc Ht Hb Hl. unfold read_count.
  eapply bind_reads; [apply codec_u64|exact Hb|cbn; lia|].
  cbn [unread total_entries entries N_sized]. rewrite N.add_0_r.
  rewrite (proj2 (N.ltb_ge (max_collection_entries limits) _)) by lia.
  rewrite (proj2 (N.ltb_ge (max_total_entries limits - tot) _)) by lia.
  by rewrite (proj2 (N.ltb_ge _ _)) by lia.
Qed.

Lemma count_reads_only s tot n i :
  read_count limits (In s tot) = Good (n, i) →
  s = write_u64 n ++ unread i ∧ total_entries i = (tot + n)%N
  ∧ (n ≤ max_collection_entries limits)%N ∧ (n ≤ max_total_entries limits - tot)%N ∧ (n < 2 ^ 64)%N.
Proof.
  unfold read_count. intros (v & t & Hv & -> & H & Hm)%(bind_reads_only _ _ _ _ _ _ _ _ _ codec_u64).
  cbn [unread total_entries entries N_sized] in H. rewrite N.add_0_r in H.
  destruct (_ || _) eqn:E1 in H; [done|]. destruct (_ <? v)%N in H; [done|].
  injection H as <- <-. by apply orb_false_iff in E1 as [?%N.ltb_ge ?%N.ltb_ge].
Qed.

Lemma codec_vector `{Sized A} w (r : reader A) : codec w r → codec (write_vector w) (read_vector limits r).
Proof.
  intros Hc. split.
  - intros l. unfold write_vector, write_size. rewrite length_app. cbn. lia.
  - intros l t tot (Hl & Hm & Hb) Ht. unfold write_vector, write_size, read_vector.
    cbn [entries list_sized] in Ht |- *. rewrite <-app_assoc. unfold bind at 1.
    pose proof (mjoin_length w l (codec_some _ _ _ _ Hc)).
    rewrite count_reads by (rewrite ?length_app; lia). rewrite Nat2N.id.
    rewrite read_times_reads by (done || lia). do 3 f_equal. lia.
  - intros s tot l i H1. unfold read_vector in H1. unfold bind at 1 in H1.
    destruct (read_count _ _) as [[n [t tot']]|] eqn:Hn; [|done].
    apply count_reads_only in Hn as (-> & Htot & ? & ? & ?). cbn in Htot. subst tot'.
    apply (read_times_only _ _ _ _ _ _ _ Hc) in H1 as (Hl & Hf & Ht0 & Ht & Hm').
    unfold write_vector, write_size. cbn [fits entries N_sized list_sized unread] in *. subst t.
    replace (N.of_nat (length l)) with n by lia. rewrite <-app_assoc.
    split_and!; [done|lia|lia|done|lia|]. lia.
Qed.
End codecs.

Arguments fits {A _} limits _ : simpl never.
Arguments entries {A _} _ : simpl never.

Create HintDb codec.
#[export] Hint Resolve codec_u64 codec_i64 codec_bool codec_string codec_optional
  codec_vector : codec.
#[export] Hint Extern 3 (codec _ _ _) => eapply @codec_enum; typeclasses eauto : codec.

(** *** The codec of a record

    [solve_codec fields write read] proves the law of a record from those of its
    fields, which it finds in the hint database. *)

Lemma bind_assoc {A B C} (r : reader A) (f : A → reader B) (g : B → reader C) i :
  bind (bind r f) g i = bind r (λ a, bind (f a) g) i.
Proof. unfold bind. by destruct (r i) as [[a j]|]. Qed.

Lemma bind_ret {A B} (a : A) (f : A → reader B) i : bind (ret a) f i = f a i.
Proof. done. Qed.

Lemma fits_pair `{Sized A, Sized B} limits (a : A) (b : B) :
  fits limits (a, b) = (fits limits a ∧ fits limits b).
Proof. done. Qed.

Lemma entries_pair `{Sized A, Sized B} (a : A) (b : B) : entries (a, b) = (entries a + entries b)%N.
Proof. done. Qed.

Lemma good_eq {A} (a b : A) t n m : a = b → n = m → ret a (In t n) = Good (b, In t m).
Proof. by intros -> ->. Qed.

Lemma app_some (l t : bytes) : (1 ≤ length l)%nat → (1 ≤ length (l ++ t))%nat.
Proof. rewrite length_app. lia. Qed.

Lemma codec_step `{Sized A} {B} limits w (r : reader A) (k : A → reader B) a t tot x :
  codec limits w r → fits limits a → (tot + entries a ≤ max_total_entries limits)%N →
  k a (In t (tot + entries a)) = x → bind r k (In (w a ++ t) tot) = x.
Proof. apply bind_reads. Qed.

Lemma codec_accept `{Sized A} {B} limits w (r : reader A) (k : A → reader B) s tot b i :
  codec limits w r → bind r k (In s tot) = Good (b, i) →
  ∃ a t, fits limits a ∧ s = w a ++ t ∧ k a (In t (tot + entries a)) = Good (b, i)
    ∧ ((tot ≤ max_total_entries limits)%N → (tot + entries a ≤ max_total_entries limits)%N).
Proof. apply bind_reads_only. Qed.

Lemma codec_nonempty `{Sized A} limits w (r : reader A) a : codec limits w r → (1 ≤ length (w a))%nat.
Proof. intros Hc. apply (codec_some _ _ _ _ _ Hc). Qed.

Ltac solve_enum :=
  split;
  [ by intros [] | by intros []
  | intros [|p] Hn; [cbn in *; (done || lia)|];
    do 6 (try (destruct p as [p|p|]; cbn in *; try done; try lia))
  | done ].

(** Unfolds the parts a record is written and read in. *)
Ltac codec_unfold := idtac.

(** Reads the next field, whose text comes first. *)
Ltac read_field limits :=
  rewrite ?bind_assoc, ?bind_ret;
  eapply (codec_step limits); [solve [eauto with codec]|assumption|lia|cbn beta].

(** Learns of the next field that a reader accepted. *)
Ltac accept_field limits H :=
  rewrite ?bind_assoc, ?bind_ret in H;
  let a := fresh "a" in let t := fresh "t" in let Ha := fresh "Ha" in let Hm := fresh "Hm" in
  eapply (codec_accept limits) in H as (a & t & Ha & -> & H & Hm); [|solve [eauto with codec]].

Ltac solve_codec fields write read :=
  match goal with |- codec ?limits _ _ =>
    split;
    [ intros v; unfold write; codec_unfold; rewrite <-?app_assoc;
      first [apply app_some; eapply (codec_nonempty limits)|eapply (codec_nonempty limits)]; eauto with codec
    | intros v t tot Hv Ht;
      let Hn := fresh "Hn" in
      assert (entries v = entries (fields v)) as Hn by reflexivity;
      change (fits limits (fields v)) in Hv;
      unfold fields in Hn, Hv; rewrite ?entries_pair in Hn; rewrite ?fits_pair in Hv; destruct_and?;
      unfold write, read; codec_unfold; rewrite <-?app_assoc;
      repeat read_field limits;
      apply good_eq; [by destruct v|lia]
    | intros s tot v i H; unfold read in H; codec_unfold;
      repeat accept_field limits H;
      injection H as <- <-;
      split_and!;
      [ match goal with |- fits limits ?v => change (fits limits (fields v)) end;
        unfold fields; cbn; rewrite ?fits_pair; repeat first [assumption|apply conj]
      | unfold write; codec_unfold; rewrite <-?app_assoc; reflexivity
      | cbn [total_entries];
        match goal with |- context [entries ?v] =>
          lazymatch goal with |- _ = (_ + entries v)%N => change (entries v) with (entries (fields v)) end end;
        unfold fields; rewrite ?entries_pair; cbn; lia
      | cbn [total_entries]; auto 40 ] ]
  end.
