(* ===== verification/FactRecords.v ===== *)
(** * The records of a fact batch

    The data of [src/src/ast/fact_records.hpp], [edge_records.hpp],
    [symbol_record.hpp] and [fact_batch.hpp], field by field; a field keeps its
    name after a prefix of its record.  A [FactGenerationKey] is its token.  The
    tuple of a record lists its fields in the order of the wire format: it gives
    the record its size. *)

From S2P Require Export FactIdentity FactWire.
Open Scope Z_scope.

(** ** Enumerations *)

(** [int]. *)
Record c_int := CInt { int_value : Z }.

#[export] Instance c_int_eq_dec : EqDecision c_int.
Proof. solve_decision. Defined.

Inductive FactCompleteness :=
| complete | partial_facts | unknown_facts | error_facts.

#[export] Instance fact_completeness_eq_dec : EqDecision FactCompleteness.
Proof. solve_decision. Defined.

#[export] Instance fact_completeness_wire : WireEnum FactCompleteness := {|
  to_underlying e := match e with
    | complete => 0 | partial_facts => 1 | unknown_facts => 2 | error_facts => 3 end;
  enum_cast n := match n with
    | 0 => complete | 1 => partial_facts | 2 => unknown_facts | _ => error_facts end;
  enum_min := 0; enum_max := 3 |}%N.

#[export] Instance fact_completeness_wire_laws : WireEnumLaws FactCompleteness.
Proof. solve_enum. Qed.

Inductive FactTrust :=
| trusted | provisional | inferred.

#[export] Instance fact_trust_eq_dec : EqDecision FactTrust.
Proof. solve_decision. Defined.

#[export] Instance fact_trust_wire : WireEnum FactTrust := {|
  to_underlying e := match e with
    | trusted => 0 | provisional => 1 | inferred => 2 end;
  enum_cast n := match n with
    | 0 => trusted | 1 => provisional | _ => inferred end;
  enum_min := 0; enum_max := 2 |}%N.

#[export] Instance fact_trust_wire_laws : WireEnumLaws FactTrust.
Proof. solve_enum. Qed.

Inductive IncludeDirectiveKind :=
| dir_include | dir_include_next | dir_import | dir_include_macros | dir_unknown.

#[export] Instance directive_kind_eq_dec : EqDecision IncludeDirectiveKind.
Proof. solve_decision. Defined.

#[export] Instance directive_kind_wire : WireEnum IncludeDirectiveKind := {|
  to_underlying e := match e with
    | dir_include => 1 | dir_include_next => 2 | dir_import => 3 | dir_include_macros => 4
    | dir_unknown => 5 end;
  enum_cast n := match n with
    | 1 => dir_include | 2 => dir_include_next | 3 => dir_import | 4 => dir_include_macros
    | _ => dir_unknown end;
  enum_min := 1; enum_max := 5 |}%N.

#[export] Instance directive_kind_wire_laws : WireEnumLaws IncludeDirectiveKind.
Proof. solve_enum. Qed.

Inductive DiagnosticSeverity :=
| sev_remark | sev_warning | sev_error | sev_fatal.

#[export] Instance severity_eq_dec : EqDecision DiagnosticSeverity.
Proof. solve_decision. Defined.

#[export] Instance severity_wire : WireEnum DiagnosticSeverity := {|
  to_underlying e := match e with
    | sev_remark => 0 | sev_warning => 1 | sev_error => 2 | sev_fatal => 3 end;
  enum_cast n := match n with
    | 0 => sev_remark | 1 => sev_warning | 2 => sev_error | _ => sev_fatal end;
  enum_min := 0; enum_max := 3 |}%N.

#[export] Instance severity_wire_laws : WireEnumLaws DiagnosticSeverity.
Proof. solve_enum. Qed.

Inductive LifecycleCleanupKind :=
| clean_relations | clean_definitions | clean_diagnostics | clean_includes
| clean_applicability.

#[export] Instance cleanup_kind_eq_dec : EqDecision LifecycleCleanupKind.
Proof. solve_decision. Defined.

#[export] Instance cleanup_kind_wire : WireEnum LifecycleCleanupKind := {|
  to_underlying e := match e with
    | clean_relations => 0 | clean_definitions => 1 | clean_diagnostics => 2
    | clean_includes => 3 | clean_applicability => 4 end;
  enum_cast n := match n with
    | 0 => clean_relations | 1 => clean_definitions | 2 => clean_diagnostics
    | 3 => clean_includes | _ => clean_applicability end;
  enum_min := 0; enum_max := 4 |}%N.

#[export] Instance cleanup_kind_wire_laws : WireEnumLaws LifecycleCleanupKind.
Proof. solve_enum. Qed.

Inductive ApplicabilityRole :=
| role_translation_unit | role_header.

#[export] Instance role_eq_dec : EqDecision ApplicabilityRole.
Proof. solve_decision. Defined.

#[export] Instance role_wire : WireEnum ApplicabilityRole := {|
  to_underlying e := match e with
    | role_translation_unit => 0 | role_header => 1 end;
  enum_cast n := match n with
    | 0 => role_translation_unit | _ => role_header end;
  enum_min := 0; enum_max := 1 |}%N.

#[export] Instance role_wire_laws : WireEnumLaws ApplicabilityRole.
Proof. solve_enum. Qed.

Inductive ApplicabilityState :=
| registered | unregistered | ambiguous | state_stale | unavailable.

#[export] Instance state_eq_dec : EqDecision ApplicabilityState.
Proof. solve_decision. Defined.

#[export] Instance state_wire : WireEnum ApplicabilityState := {|
  to_underlying e := match e with
    | registered => 0 | unregistered => 1 | ambiguous => 2 | state_stale => 3 | unavailable => 4 end;
  enum_cast n := match n with
    | 0 => registered | 1 => unregistered | 2 => ambiguous | 3 => state_stale | _ => unavailable end;
  enum_min := 0; enum_max := 4 |}%N.

#[export] Instance state_wire_laws : WireEnumLaws ApplicabilityState.
Proof. solve_enum. Qed.

Inductive FactFamily :=
| fam_symbols | fam_declaration_sites | fam_relations | fam_edge_sites | fam_call_arguments
| fam_template_parameters | fam_template_arguments | fam_types | fam_type_edges
| fam_parameters | fam_symbol_types | fam_definitions | fam_definition_edges | fam_includes
| fam_macros | fam_diagnostics | fam_evidence | fam_presentation_intents
| fam_lifecycle_cleanup | fam_applicability.

#[export] Instance family_eq_dec : EqDecision FactFamily.
Proof. solve_decision. Defined.

#[export] Instance family_wire : WireEnum FactFamily := {|
  to_underlying e := match e with
    | fam_symbols => 0 | fam_declaration_sites => 1 | fam_relations => 2 | fam_edge_sites => 3
    | fam_call_arguments => 4 | fam_template_parameters => 5 | fam_template_arguments => 6
    | fam_types => 7 | fam_type_edges => 8 | fam_parameters => 9 | fam_symbol_types => 10
    | fam_definitions => 11 | fam_definition_edges => 12 | fam_includes => 13
    | fam_macros => 14 | fam_diagnostics => 15 | fam_evidence => 16
    | fam_presentation_intents => 17 | fam_lifecycle_cleanup => 18 | fam_applicability => 19 end;
  enum_cast n := match n with
    | 0 => fam_symbols | 1 => fam_declaration_sites | 2 => fam_relations | 3 => fam_edge_sites
    | 4 => fam_call_arguments | 5 => fam_template_parameters | 6 => fam_template_arguments
    | 7 => fam_types | 8 => fam_type_edges | 9 => fam_parameters | 10 => fam_symbol_types
    | 11 => fam_definitions | 12 => fam_definition_edges | 13 => fam_includes
    | 14 => fam_macros | 15 => fam_diagnostics | 16 => fam_evidence
    | 17 => fam_presentation_intents | 18 => fam_lifecycle_cleanup | _ => fam_applicability end;
  enum_min := 0; enum_max := 19 |}%N.

#[export] Instance family_wire_laws : WireEnumLaws FactFamily.
Proof. solve_enum. Qed.

(** ** Records *)

Record LegacyApplyOrderKey := ApplyOrder {
  ao_component_path : bytes;
  ao_directory_path : bytes;
  ao_file_name : bytes;
  ao_first_seen : N;
  ao_conflict_ordinal : N
}.

Record SymbolRecord := SymbolRec {
  sr_file : bytes;
  sr_usr : bytes;
  sr_spelling : bytes;
  sr_kind : c_int;
  sr_qual_name : option bytes;
  sr_display_name : option bytes;
  sr_type_info : option bytes;
  sr_line : Z;
  sr_col : Z;
  sr_end_line : Z;
  sr_end_col : Z;
  sr_decl_line : option Z;
  sr_decl_col : option Z;
  sr_decl_path : option bytes;
  sr_is_definition : bool;
  sr_is_pure : bool;
  sr_is_static : bool;
  sr_is_instantiation : bool;
  sr_is_named_instance : bool;
  sr_callable_kind : option bytes;
  sr_template_origin : option bytes;
  sr_template_form : option bytes;
  sr_linkage : option bytes;
  sr_access : option bytes;
  sr_parent_usr : option bytes;
  sr_const_value : option bytes;
  sr_resolved : bool;
  sr_semantic_universe : bytes;
  sr_normalized_configuration : bytes;
  sr_identity_source : option bytes;
  sr_identity_translation_unit : option bytes;
  sr_local_anchor : option bytes;
  sr_kind_name : bytes
}.

Record EdgeRecord := EdgeRec {
  er_src_id : Z;
  er_dst_id : Z;
  er_kind : Z;
  er_count : Z;
  er_base_access : option Z;
  er_is_virtual : option Z
}.

Record EdgeSiteRecord := EdgeSiteRec {
  es_edge_id : Z;
  es_file_id : Z;
  es_line : Z;
  es_col : Z;
  es_conditional : Z;
  es_recv_src_kind : option bytes;
  es_recv_type_usr : option bytes;
  es_recv_decl_usr : option bytes;
  es_recv_param_pos : option Z;
  es_recv_type_is_value : option Z
}.

Record CallArgRecord := CallArgRec {
  ca_edge_id : Z;
  ca_file_id : Z;
  ca_line : Z;
  ca_col : Z;
  ca_position : Z;
  ca_src_kind : bytes;
  ca_type_usr : option bytes;
  ca_decl_usr : option bytes;
  ca_callee_usr : option bytes;
  ca_type_is_value : option Z
}.

Record TemplateParamRecord := TemplateParamRec {
  tp_owner_id : Z;
  tp_position : Z;
  tp_param_kind : Z;
  tp_name : option bytes;
  tp_default_txt : option bytes;
  tp_type_id : option Z;
  tp_default_type_id : option Z;
  tp_default_ref_id : option Z
}.

Record TemplateArgRecord := TemplateArgRec {
  ta_owner_id : Z;
  ta_position : Z;
  ta_pack_index : Z;
  ta_arg_kind : Z;
  ta_ref_id : option Z;
  ta_literal : option bytes;
  ta_type_id : option Z
}.

Record TypeNodeRecord := TypeNodeRec {
  tn_type_key : bytes;
  tn_spelling : bytes;
  tn_kind : Z;
  tn_is_const : bool;
  tn_is_volatile : bool;
  tn_is_restrict : bool;
  tn_decl_usr : option bytes;
  tn_canonical_id : option Z;
  tn_extent : option bytes
}.

Record TypeEdgeRecord := TypeEdgeRec {
  te_src_id : Z;
  te_kind : Z;
  te_position : Z;
  te_dst_id : Z
}.

Record ParameterRecord := ParameterRec {
  pr_position : Z;
  pr_pack_index : Z;
  pr_name : option bytes;
  pr_type_id : option Z;
  pr_declared_type_id : option Z;
  pr_adjusted_type_id : option Z;
  pr_default_text : option bytes;
  pr_default_origin : option bytes;
  pr_reference_semantics : option bytes;
  pr_file_id : option Z;
  pr_line : option Z;
  pr_col : option Z
}.

Record ParameterFactRecord := ParameterFactRec {
  pf_owner_id : Z;
  pf_parameter : ParameterRecord
}.

Record SymbolTypeRecord := SymbolTypeRec {
  st_symbol_id : Z;
  st_kind : Z;
  st_type_id : Z
}.

Record DefinitionFactRecord := DefinitionFactRec {
  df_id : Z;
  df_symbol_id : Z;
  df_file_id : Z;
  df_line : Z;
  df_col : Z;
  df_end_line : Z;
  df_end_col : Z;
  df_init_text : option bytes
}.

Record DefinitionEdgeRecord := DefinitionEdgeRec {
  de_definition_id : Z;
  de_destination_id : Z;
  de_kind : Z
}.

Record DeclarationSiteRecord := DeclarationSiteRec {
  ds_symbol : SymbolNaturalKey;
  ds_partition : FactPartitionKey;
  ds_line : Z;
  ds_col : Z;
  ds_end_line : Z;
  ds_end_col : Z;
  ds_is_definition : bool
}.

Record IncludeDirectiveRecord := IncludeDirectiveRec {
  id_partition : FactPartitionKey;
  id_source : PortableFileIdentity;
  id_destination : option PortableFileIdentity;
  id_destination_path : bytes;
  id_spelling : bytes;
  id_directive : IncludeDirectiveKind;
  id_line : Z;
  id_col : Z;
  id_begin_offset : Z;
  id_end_offset : Z;
  id_conditional_fingerprint : bytes;
  id_is_angled : bool;
  id_resolved : bool;
  id_is_system : bool;
  id_guarded : bool
}.

Record MacroUseRecord := MacroUseRec {
  mu_partition : FactPartitionKey;
  mu_source : PortableFileIdentity;
  mu_definition : option PortableFileIdentity;
  mu_definition_path : bytes;
  mu_name : bytes;
  mu_count : Z
}.

Record DiagnosticFactRecord := DiagnosticFactRec {
  dg_partition : FactPartitionKey;
  dg_severity : DiagnosticSeverity;
  dg_spelling : bytes;
  dg_location_file : option PortableFileIdentity;
  dg_line : option Z;
  dg_col : option Z
}.

Record EvidenceRecord := EvidenceRec {
  ev_producer : bytes;
  ev_construct : bytes;
  ev_file : bytes;
  ev_line : Z;
  ev_col : Z;
  ev_completeness : FactCompleteness;
  ev_trust : FactTrust;
  ev_detail : bytes
}.

Record PresentationIntent := PresentationInt {
  pi_symbol_id : Z;
  pi_display_args : list bytes
}.

Record LifecycleCleanupIntent := CleanupInt {
  lc_partition : FactPartitionKey;
  lc_kind : LifecycleCleanupKind;
  lc_target : PortableFileIdentity;
  lc_prior_generation : bytes
}.

Record ApplicabilityOwnershipRecord := ApplicabilityRec {
  ap_partition : FactPartitionKey;
  ap_file : PortableFileIdentity;
  ap_role : ApplicabilityRole;
  ap_state : ApplicabilityState;
  ap_reason : option bytes;
  ap_generation : bytes
}.

Record SymbolEmissionMetadata := EmissionMetadata {
  se_symbol : SymbolNaturalKey;
  se_apply_order : LegacyApplyOrderKey;
  se_record_key : bytes;
  se_first_seen : N;
  se_last_seen : N
}.

Record FactRecords := MkRecords {
  fr_symbols : list SymbolRecord;
  fr_declaration_sites : list DeclarationSiteRecord;
  fr_relations : list EdgeRecord;
  fr_edge_sites : list EdgeSiteRecord;
  fr_call_args : list CallArgRecord;
  fr_template_params : list TemplateParamRecord;
  fr_template_args : list TemplateArgRecord;
  fr_type_nodes : list TypeNodeRecord;
  fr_type_edges : list TypeEdgeRecord;
  fr_parameters : list ParameterFactRecord;
  fr_symbol_types : list SymbolTypeRecord;
  fr_definitions : list DefinitionFactRecord;
  fr_definition_edges : list DefinitionEdgeRecord;
  fr_includes : list IncludeDirectiveRecord;
  fr_macros : list MacroUseRecord;
  fr_diagnostics : list DiagnosticFactRecord;
  fr_evidence : list EvidenceRecord;
  fr_presentation_intents : list PresentationIntent;
  fr_lifecycle_cleanup : list LifecycleCleanupIntent;
  fr_applicability : list ApplicabilityOwnershipRecord;
  fr_symbol_order : list SymbolEmissionMetadata
}.

(** ** Sizes *)

#[export] Instance c_int_sized : Sized c_int :=
  {| fits _ k := - 2 ^ 31 ≤ int_value k < 2 ^ 31; entries _ := 0%N |}.

Definition file_identity_fields (v : PortableFileIdentity) :=
  (component_path v, directory_path v, file_name v).
#[export] Instance file_identity_sized : Sized PortableFileIdentity := sized_by file_identity_fields.

Definition configuration_content_fields (v : PortableConfigurationContent) :=
  (cc_driver v, cc_working_dir v, cc_arguments v, cc_lang_mode v, cc_resource_dir v).
#[export] Instance configuration_content_sized : Sized PortableConfigurationContent := sized_by configuration_content_fields.

Definition configuration_identity_fields (v : ConfigurationIdentity) :=
  (semantic_universe v, translation_unit v, normalized_configuration v, identity_source v,
   content v).
#[export] Instance configuration_identity_sized : Sized ConfigurationIdentity := sized_by configuration_identity_fields.

Definition partition_key_fields (v : FactPartitionKey) :=
  (pk_file v, pk_configuration v).
#[export] Instance partition_key_sized : Sized FactPartitionKey := sized_by partition_key_fields.

Definition symbol_key_fields (v : SymbolNaturalKey) :=
  (sk_partition v, sk_usr v, sk_local_anchor v, sk_linkage v).
#[export] Instance symbol_key_sized : Sized SymbolNaturalKey := sized_by symbol_key_fields.

Definition apply_order_fields (v : LegacyApplyOrderKey) :=
  (ao_component_path v, ao_directory_path v, ao_file_name v, ao_first_seen v,
   ao_conflict_ordinal v).
#[export] Instance apply_order_sized : Sized LegacyApplyOrderKey := sized_by apply_order_fields.

Definition symbol_record_fields (v : SymbolRecord) :=
  (sr_file v, sr_usr v, sr_spelling v, sr_kind v, sr_qual_name v, sr_display_name v,
   sr_type_info v, sr_line v, sr_col v, sr_end_line v, sr_end_col v, sr_decl_line v,
   sr_decl_col v, sr_decl_path v, sr_is_definition v, sr_is_pure v, sr_is_static v,
   sr_is_instantiation v, sr_is_named_instance v, sr_callable_kind v, sr_template_origin v,
   sr_template_form v, sr_linkage v, sr_access v, sr_parent_usr v, sr_const_value v,
   sr_resolved v, sr_semantic_universe v, sr_normalized_configuration v, sr_identity_source v,
   sr_identity_translation_unit v, sr_local_anchor v, sr_kind_name v).
#[export] Instance symbol_record_sized : Sized SymbolRecord := sized_by symbol_record_fields.

Definition edge_fields (v : EdgeRecord) :=
  (er_src_id v, er_dst_id v, er_kind v, er_count v, er_base_access v, er_is_virtual v).
#[export] Instance edge_sized : Sized EdgeRecord := sized_by edge_fields.

Definition edge_site_fields (v : EdgeSiteRecord) :=
  (es_edge_id v, es_file_id v, es_line v, es_col v, es_conditional v, es_recv_src_kind v,
   es_recv_type_usr v, es_recv_decl_usr v, es_recv_param_pos v, es_recv_type_is_value v).
#[export] Instance edge_site_sized : Sized EdgeSiteRecord := sized_by edge_site_fields.

Definition call_arg_fields (v : CallArgRecord) :=
  (ca_edge_id v, ca_file_id v, ca_line v, ca_col v, ca_position v, ca_src_kind v,
   ca_type_usr v, ca_decl_usr v, ca_callee_usr v, ca_type_is_value v).
#[export] Instance call_arg_sized : Sized CallArgRecord := sized_by call_arg_fields.

Definition template_param_fields (v : TemplateParamRecord) :=
  (tp_owner_id v, tp_position v, tp_param_kind v, tp_name v, tp_default_txt v, tp_type_id v,
   tp_default_type_id v, tp_default_ref_id v).
#[export] Instance template_param_sized : Sized TemplateParamRecord := sized_by template_param_fields.

Definition template_arg_fields (v : TemplateArgRecord) :=
  (ta_owner_id v, ta_position v, ta_pack_index v, ta_arg_kind v, ta_ref_id v, ta_literal v,
   ta_type_id v).
#[export] Instance template_arg_sized : Sized TemplateArgRecord := sized_by template_arg_fields.

Definition type_node_fields (v : TypeNodeRecord) :=
  (tn_type_key v, tn_spelling v, tn_kind v, tn_is_const v, tn_is_volatile v, tn_is_restrict v,
   tn_decl_usr v, tn_canonical_id v, tn_extent v).
#[export] Instance type_node_sized : Sized TypeNodeRecord := sized_by type_node_fields.

Definition type_edge_fields (v : TypeEdgeRecord) :=
  (te_src_id v, te_kind v, te_position v, te_dst_id v).
#[export] Instance type_edge_sized : Sized TypeEdgeRecord := sized_by type_edge_fields.

Definition parameter_fields (v : ParameterRecord) :=
  (pr_position v, pr_pack_index v, pr_name v, pr_type_id v, pr_declared_type_id v,
   pr_adjusted_type_id v, pr_default_text v, pr_default_origin v, pr_reference_semantics v,
   pr_file_id v, pr_line v, pr_col v).
#[export] Instance parameter_sized : Sized ParameterRecord := sized_by parameter_fields.

Definition parameter_fact_fields (v : ParameterFactRecord) :=
  (pf_owner_id v, pf_parameter v).
#[export] Instance parameter_fact_sized : Sized ParameterFactRecord := sized_by parameter_fact_fields.

Definition symbol_type_fields (v : SymbolTypeRecord) :=
  (st_symbol_id v, st_kind v, st_type_id v).
#[export] Instance symbol_type_sized : Sized SymbolTypeRecord := sized_by symbol_type_fields.

Definition definition_fields (v : DefinitionFactRecord) :=
  (df_id v, df_symbol_id v, df_file_id v, df_line v, df_col v, df_end_line v, df_end_col v,
   df_init_text v).
#[export] Instance definition_sized : Sized DefinitionFactRecord := sized_by definition_fields.

Definition definition_edge_fields (v : DefinitionEdgeRecord) :=
  (de_definition_id v, de_destination_id v, de_kind v).
#[export] Instance definition_edge_sized : Sized DefinitionEdgeRecord := sized_by definition_edge_fields.

Definition declaration_site_fields (v : DeclarationSiteRecord) :=
  (ds_symbol v, ds_partition v, ds_line v, ds_col v, ds_end_line v, ds_end_col v,
   ds_is_definition v).
#[export] Instance declaration_site_sized : Sized DeclarationSiteRecord := sized_by declaration_site_fields.

Definition include_fields (v : IncludeDirectiveRecord) :=
  (id_partition v, id_source v, id_destination v, id_destination_path v, id_spelling v,
   id_directive v, id_line v, id_col v, id_begin_offset v, id_end_offset v,
   id_conditional_fingerprint v, id_is_angled v, id_resolved v, id_is_system v, id_guarded v).
#[export] Instance include_sized : Sized IncludeDirectiveRecord := sized_by include_fields.

Definition macro_fields (v : MacroUseRecord) :=
  (mu_partition v, mu_source v, mu_definition v, mu_definition_path v, mu_name v, mu_count v).
#[export] Instance macro_sized : Sized MacroUseRecord := sized_by macro_fields.

Definition diagnostic_fields (v : DiagnosticFactRecord) :=
  (dg_partition v, dg_severity v, dg_spelling v, dg_location_file v, dg_line v, dg_col v).
#[export] Instance diagnostic_sized : Sized DiagnosticFactRecord := sized_by diagnostic_fields.

Definition evidence_fields (v : EvidenceRecord) :=
  (ev_producer v, ev_construct v, ev_file v, ev_line v, ev_col v, ev_completeness v,
   ev_trust v, ev_detail v).
#[export] Instance evidence_sized : Sized EvidenceRecord := sized_by evidence_fields.

Definition presentation_fields (v : PresentationIntent) :=
  (pi_symbol_id v, pi_display_args v).
#[export] Instance presentation_sized : Sized PresentationIntent := sized_by presentation_fields.

Definition cleanup_fields (v : LifecycleCleanupIntent) :=
  (lc_partition v, lc_kind v, lc_target v, lc_prior_generation v).
#[export] Instance cleanup_sized : Sized LifecycleCleanupIntent := sized_by cleanup_fields.

Definition applicability_fields (v : ApplicabilityOwnershipRecord) :=
  (ap_partition v, ap_file v, ap_role v, ap_state v, ap_reason v, ap_generation v).
#[export] Instance applicability_sized : Sized ApplicabilityOwnershipRecord := sized_by applicability_fields.

Definition symbol_order_fields (v : SymbolEmissionMetadata) :=
  (se_symbol v, se_apply_order v, se_record_key v, se_first_seen v, se_last_seen v).
#[export] Instance symbol_order_sized : Sized SymbolEmissionMetadata := sized_by symbol_order_fields.

Definition fact_records_fields (v : FactRecords) :=
  (fr_symbols v, fr_declaration_sites v, fr_relations v, fr_edge_sites v, fr_call_args v,
   fr_template_params v, fr_template_args v, fr_type_nodes v, fr_type_edges v, fr_parameters v,
   fr_symbol_types v, fr_definitions v, fr_definition_edges v, fr_includes v, fr_macros v,
   fr_diagnostics v, fr_evidence v, fr_presentation_intents v, fr_lifecycle_cleanup v,
   fr_applicability v, fr_symbol_order v).
#[export] Instance fact_records_sized : Sized FactRecords := sized_by fact_records_fields.
