(* ===== verification/FactCodec.v ===== *)
(** * The codec of a fact batch: records

    [write_*] and [read_*] of [src/src/ast/fact_batch_artifact.cpp], one pair per
    record, each with the law that makes it a codec. *)

From S2P Require Export FactRecords.
Open Scope Z_scope.

(** ** Writers *)

Definition write_int (value : c_int) : bytes := write_i64 (int_value value).

Definition write_file_identity (v : PortableFileIdentity) : bytes :=
  write_string (component_path v) ++ write_string (directory_path v) ++
  write_string (file_name v).

Definition write_configuration_content (v : PortableConfigurationContent) : bytes :=
  write_optional write_string (cc_driver v) ++
  write_optional write_string (cc_working_dir v) ++
  write_vector write_string (cc_arguments v) ++ write_optional write_string (cc_lang_mode v) ++
  write_optional write_string (cc_resource_dir v).

Definition write_configuration_identity (v : ConfigurationIdentity) : bytes :=
  write_string (semantic_universe v) ++ write_string (translation_unit v) ++
  write_string (normalized_configuration v) ++ write_string (identity_source v) ++
  write_configuration_content (content v).

Definition write_partition_key (v : FactPartitionKey) : bytes :=
  write_file_identity (pk_file v) ++ write_configuration_identity (pk_configuration v).

Definition write_symbol_key (v : SymbolNaturalKey) : bytes :=
  write_partition_key (sk_partition v) ++ write_string (sk_usr v) ++
  write_optional write_string (sk_local_anchor v) ++ write_optional write_string (sk_linkage v).

Definition write_apply_order (v : LegacyApplyOrderKey) : bytes :=
  write_string (ao_component_path v) ++ write_string (ao_directory_path v) ++
  write_string (ao_file_name v) ++ write_u64 (ao_first_seen v) ++
  write_u64 (ao_conflict_ordinal v).

Definition write_symbol_location (v : SymbolRecord) : bytes :=
  write_string (sr_file v) ++ write_string (sr_usr v) ++ write_string (sr_spelling v) ++
  write_int (sr_kind v) ++ write_optional write_string (sr_qual_name v) ++
  write_optional write_string (sr_display_name v) ++
  write_optional write_string (sr_type_info v) ++ write_i64 (sr_line v) ++
  write_i64 (sr_col v) ++ write_i64 (sr_end_line v) ++ write_i64 (sr_end_col v) ++
  write_optional write_i64 (sr_decl_line v) ++ write_optional write_i64 (sr_decl_col v) ++
  write_optional write_string (sr_decl_path v) ++ write_bool (sr_is_definition v) ++
  write_bool (sr_is_pure v) ++ write_bool (sr_is_static v) ++
  write_bool (sr_is_instantiation v) ++ write_bool (sr_is_named_instance v).

Definition write_symbol_identity (v : SymbolRecord) : bytes :=
  write_optional write_string (sr_callable_kind v) ++
  write_optional write_string (sr_template_origin v) ++
  write_optional write_string (sr_template_form v) ++
  write_optional write_string (sr_linkage v) ++ write_optional write_string (sr_access v) ++
  write_optional write_string (sr_parent_usr v) ++
  write_optional write_string (sr_const_value v) ++ write_bool (sr_resolved v) ++
  write_string (sr_semantic_universe v) ++ write_string (sr_normalized_configuration v) ++
  write_optional write_string (sr_identity_source v) ++
  write_optional write_string (sr_identity_translation_unit v) ++
  write_optional write_string (sr_local_anchor v) ++ write_string (sr_kind_name v).

Definition write_symbol_record (v : SymbolRecord) : bytes :=
  write_symbol_location v ++ write_symbol_identity v.

Definition write_edge (v : EdgeRecord) : bytes :=
  write_i64 (er_src_id v) ++ write_i64 (er_dst_id v) ++ write_i64 (er_kind v) ++
  write_i64 (er_count v) ++ write_optional write_i64 (er_base_access v) ++
  write_optional write_i64 (er_is_virtual v).

Definition write_edge_site (v : EdgeSiteRecord) : bytes :=
  write_i64 (es_edge_id v) ++ write_i64 (es_file_id v) ++ write_i64 (es_line v) ++
  write_i64 (es_col v) ++ write_i64 (es_conditional v) ++
  write_optional write_string (es_recv_src_kind v) ++
  write_optional write_string (es_recv_type_usr v) ++
  write_optional write_string (es_recv_decl_usr v) ++
  write_optional write_i64 (es_recv_param_pos v) ++
  write_optional write_i64 (es_recv_type_is_value v).

Definition write_call_arg (v : CallArgRecord) : bytes :=
  write_i64 (ca_edge_id v) ++ write_i64 (ca_file_id v) ++ write_i64 (ca_line v) ++
  write_i64 (ca_col v) ++ write_i64 (ca_position v) ++ write_string (ca_src_kind v) ++
  write_optional write_string (ca_type_usr v) ++ write_optional write_string (ca_decl_usr v) ++
  write_optional write_string (ca_callee_usr v) ++
  write_optional write_i64 (ca_type_is_value v).

Definition write_template_param (v : TemplateParamRecord) : bytes :=
  write_i64 (tp_owner_id v) ++ write_i64 (tp_position v) ++ write_i64 (tp_param_kind v) ++
  write_optional write_string (tp_name v) ++ write_optional write_string (tp_default_txt v) ++
  write_optional write_i64 (tp_type_id v) ++ write_optional write_i64 (tp_default_type_id v) ++
  write_optional write_i64 (tp_default_ref_id v).

Definition write_template_arg (v : TemplateArgRecord) : bytes :=
  write_i64 (ta_owner_id v) ++ write_i64 (ta_position v) ++ write_i64 (ta_pack_index v) ++
  write_i64 (ta_arg_kind v) ++ write_optional write_i64 (ta_ref_id v) ++
  write_optional write_string (ta_literal v) ++ write_optional write_i64 (ta_type_id v).

Definition write_type_node (v : TypeNodeRecord) : bytes :=
  write_string (tn_type_key v) ++ write_string (tn_spelling v) ++ write_i64 (tn_kind v) ++
  write_bool (tn_is_const v) ++ write_bool (tn_is_volatile v) ++
  write_bool (tn_is_restrict v) ++ write_optional write_string (tn_decl_usr v) ++
  write_optional write_i64 (tn_canonical_id v) ++ write_optional write_string (tn_extent v).

Definition write_type_edge (v : TypeEdgeRecord) : bytes :=
  write_i64 (te_src_id v) ++ write_i64 (te_kind v) ++ write_i64 (te_position v) ++
  write_i64 (te_dst_id v).

Definition write_parameter (v : ParameterRecord) : bytes :=
  write_i64 (pr_position v) ++ write_i64 (pr_pack_index v) ++
  write_optional write_string (pr_name v) ++ write_optional write_i64 (pr_type_id v) ++
  write_optional write_i64 (pr_declared_type_id v) ++
  write_optional write_i64 (pr_adjusted_type_id v) ++
  write_optional write_string (pr_default_text v) ++
  write_optional write_string (pr_default_origin v) ++
  write_optional write_string (pr_reference_semantics v) ++
  write_optional write_i64 (pr_file_id v) ++ write_optional write_i64 (pr_line v) ++
  write_optional write_i64 (pr_col v).

Definition write_parameter_fact (v : ParameterFactRecord) : bytes :=
  write_i64 (pf_owner_id v) ++ write_parameter (pf_parameter v).

Definition write_symbol_type (v : SymbolTypeRecord) : bytes :=
  write_i64 (st_symbol_id v) ++ write_i64 (st_kind v) ++ write_i64 (st_type_id v).

Definition write_definition (v : DefinitionFactRecord) : bytes :=
  write_i64 (df_id v) ++ write_i64 (df_symbol_id v) ++ write_i64 (df_file_id v) ++
  write_i64 (df_line v) ++ write_i64 (df_col v) ++ write_i64 (df_end_line v) ++
  write_i64 (df_end_col v) ++ write_optional write_string (df_init_text v).

Definition write_definition_edge (v : DefinitionEdgeRecord) : bytes :=
  write_i64 (de_definition_id v) ++ write_i64 (de_destination_id v) ++ write_i64 (de_kind v).

Definition write_declaration_site (v : DeclarationSiteRecord) : bytes :=
  write_symbol_key (ds_symbol v) ++ write_partition_key (ds_partition v) ++
  write_i64 (ds_line v) ++ write_i64 (ds_col v) ++ write_i64 (ds_end_line v) ++
  write_i64 (ds_end_col v) ++ write_bool (ds_is_definition v).

Definition write_include (v : IncludeDirectiveRecord) : bytes :=
  write_partition_key (id_partition v) ++ write_file_identity (id_source v) ++
  write_optional write_file_identity (id_destination v) ++
  write_string (id_destination_path v) ++ write_string (id_spelling v) ++
  write_enum (id_directive v) ++ write_i64 (id_line v) ++ write_i64 (id_col v) ++
  write_i64 (id_begin_offset v) ++ write_i64 (id_end_offset v) ++
  write_string (id_conditional_fingerprint v) ++ write_bool (id_is_angled v) ++
  write_bool (id_resolved v) ++ write_bool (id_is_system v) ++ write_bool (id_guarded v).

Definition write_macro (v : MacroUseRecord) : bytes :=
  write_partition_key (mu_partition v) ++ write_file_identity (mu_source v) ++
  write_optional write_file_identity (mu_definition v) ++
  write_string (mu_definition_path v) ++ write_string (mu_name v) ++ write_i64 (mu_count v).

Definition write_diagnostic (v : DiagnosticFactRecord) : bytes :=
  write_partition_key (dg_partition v) ++ write_enum (dg_severity v) ++
  write_string (dg_spelling v) ++ write_optional write_file_identity (dg_location_file v) ++
  write_optional write_i64 (dg_line v) ++ write_optional write_i64 (dg_col v).

Definition write_evidence (v : EvidenceRecord) : bytes :=
  write_string (ev_producer v) ++ write_string (ev_construct v) ++ write_string (ev_file v) ++
  write_i64 (ev_line v) ++ write_i64 (ev_col v) ++ write_enum (ev_completeness v) ++
  write_enum (ev_trust v) ++ write_string (ev_detail v).

Definition write_presentation (v : PresentationIntent) : bytes :=
  write_i64 (pi_symbol_id v) ++ write_vector write_string (pi_display_args v).

Definition write_cleanup (v : LifecycleCleanupIntent) : bytes :=
  write_partition_key (lc_partition v) ++ write_enum (lc_kind v) ++
  write_file_identity (lc_target v) ++ write_string (lc_prior_generation v).

Definition write_applicability (v : ApplicabilityOwnershipRecord) : bytes :=
  write_partition_key (ap_partition v) ++ write_file_identity (ap_file v) ++
  write_enum (ap_role v) ++ write_enum (ap_state v) ++
  write_optional write_string (ap_reason v) ++ write_string (ap_generation v).

Definition write_symbol_order (v : SymbolEmissionMetadata) : bytes :=
  write_symbol_key (se_symbol v) ++ write_apply_order (se_apply_order v) ++
  write_string (se_record_key v) ++ write_u64 (se_first_seen v) ++ write_u64 (se_last_seen v).

Definition write_fact_records (v : FactRecords) : bytes :=
  write_vector write_symbol_record (fr_symbols v) ++
  write_vector write_declaration_site (fr_declaration_sites v) ++
  write_vector write_edge (fr_relations v) ++ write_vector write_edge_site (fr_edge_sites v) ++
  write_vector write_call_arg (fr_call_args v) ++
  write_vector write_template_param (fr_template_params v) ++
  write_vector write_template_arg (fr_template_args v) ++
  write_vector write_type_node (fr_type_nodes v) ++
  write_vector write_type_edge (fr_type_edges v) ++
  write_vector write_parameter_fact (fr_parameters v) ++
  write_vector write_symbol_type (fr_symbol_types v) ++
  write_vector write_definition (fr_definitions v) ++
  write_vector write_definition_edge (fr_definition_edges v) ++
  write_vector write_include (fr_includes v) ++ write_vector write_macro (fr_macros v) ++
  write_vector write_diagnostic (fr_diagnostics v) ++
  write_vector write_evidence (fr_evidence v) ++
  write_vector write_presentation (fr_presentation_intents v) ++
  write_vector write_cleanup (fr_lifecycle_cleanup v) ++
  write_vector write_applicability (fr_applicability v) ++
  write_vector write_symbol_order (fr_symbol_order v).

(** ** Readers *)

Section readers.
Variable limits : FactBatchArtifactDecodeLimits.

(** [reader.i64()] with the range check of a symbol kind. *)
Definition read_int : reader c_int :=
  let? kind := read_i64 in
  if (kind <? - 2 ^ 31) || (2 ^ 31 - 1 <? kind)
  then stop corrupt (bs "FactBatch symbol kind is outside the supported integer range")
  else ret (CInt kind).

Definition read_file_identity : reader PortableFileIdentity :=
  let? component_path := read_string limits in
  let? directory_path := read_string limits in
  let? file_name := read_string limits in
  ret (FileIdentity
    component_path directory_path file_name).

Definition read_configuration_content : reader PortableConfigurationContent :=
  let? cc_driver := read_optional (read_string limits) in
  let? cc_working_dir := read_optional (read_string limits) in
  let? cc_arguments := read_vector limits (read_string limits) in
  let? cc_lang_mode := read_optional (read_string limits) in
  let? cc_resource_dir := read_optional (read_string limits) in
  ret (ConfigurationContent
    cc_driver cc_working_dir cc_arguments cc_lang_mode cc_resource_dir).

Definition read_configuration_identity : reader ConfigurationIdentity :=
  let? semantic_universe := read_string limits in
  let? translation_unit := read_string limits in
  let? normalized_configuration := read_string limits in
  let? identity_source := read_string limits in
  let? content := read_configuration_content in
  ret (MkConfiguration
    semantic_universe translation_unit normalized_configuration identity_source content).

Definition read_partition_key : reader FactPartitionKey :=
  let? pk_file := read_file_identity in
  let? pk_configuration := read_configuration_identity in
  ret (PartitionKey
    pk_file pk_configuration).

Definition read_symbol_key : reader SymbolNaturalKey :=
  let? sk_partition := read_partition_key in
  let? sk_usr := read_string limits in
  let? sk_local_anchor := read_optional (read_string limits) in
  let? sk_linkage := read_optional (read_string limits) in
  ret (SymbolKey
    sk_partition sk_usr sk_local_anchor sk_linkage).

Definition read_apply_order : reader LegacyApplyOrderKey :=
  let? ao_component_path := read_string limits in
  let? ao_directory_path := read_string limits in
  let? ao_file_name := read_string limits in
  let? ao_first_seen := read_u64 in
  let? ao_conflict_ordinal := read_u64 in
  ret (ApplyOrder
    ao_component_path ao_directory_path ao_file_name ao_first_seen ao_conflict_ordinal).

(** The record but for its second half. *)
Definition read_symbol_location : reader (option bytes → option bytes → option bytes → option bytes → option bytes → option bytes
    → option bytes → bool → bytes → bytes → option bytes → option bytes → option bytes →
    bytes → SymbolRecord) :=
  let? sr_file := read_string limits in
  let? sr_usr := read_string limits in
  let? sr_spelling := read_string limits in
  let? sr_kind := read_int in
  let? sr_qual_name := read_optional (read_string limits) in
  let? sr_display_name := read_optional (read_string limits) in
  let? sr_type_info := read_optional (read_string limits) in
  let? sr_line := read_i64 in
  let? sr_col := read_i64 in
  let? sr_end_line := read_i64 in
  let? sr_end_col := read_i64 in
  let? sr_decl_line := read_optional read_i64 in
  let? sr_decl_col := read_optional read_i64 in
  let? sr_decl_path := read_optional (read_string limits) in
  let? sr_is_definition := read_bool in
  let? sr_is_pure := read_bool in
  let? sr_is_static := read_bool in
  let? sr_is_instantiation := read_bool in
  let? sr_is_named_instance := read_bool in
  ret (SymbolRec
    sr_file sr_usr sr_spelling sr_kind sr_qual_name sr_display_name sr_type_info sr_line sr_col
    sr_end_line sr_end_col sr_decl_line sr_decl_col sr_decl_path sr_is_definition sr_is_pure
    sr_is_static sr_is_instantiation sr_is_named_instance).

Definition read_symbol_record : reader SymbolRecord :=
  let? value := read_symbol_location in
  let? sr_callable_kind := read_optional (read_string limits) in
  let? sr_template_origin := read_optional (read_string limits) in
  let? sr_template_form := read_optional (read_string limits) in
  let? sr_linkage := read_optional (read_string limits) in
  let? sr_access := read_optional (read_string limits) in
  let? sr_parent_usr := read_optional (read_string limits) in
  let? sr_const_value := read_optional (read_string limits) in
  let? sr_resolved := read_bool in
  let? sr_semantic_universe := read_string limits in
  let? sr_normalized_configuration := read_string limits in
  let? sr_identity_source := read_optional (read_string limits) in
  let? sr_identity_translation_unit := read_optional (read_string limits) in
  let? sr_local_anchor := read_optional (read_string limits) in
  let? sr_kind_name := read_string limits in
  ret (value
    sr_callable_kind sr_template_origin sr_template_form sr_linkage sr_access sr_parent_usr
    sr_const_value sr_resolved sr_semantic_universe sr_normalized_configuration
    sr_identity_source sr_identity_translation_unit sr_local_anchor sr_kind_name).

Definition read_edge : reader EdgeRecord :=
  let? er_src_id := read_i64 in
  let? er_dst_id := read_i64 in
  let? er_kind := read_i64 in
  let? er_count := read_i64 in
  let? er_base_access := read_optional read_i64 in
  let? er_is_virtual := read_optional read_i64 in
  ret (EdgeRec
    er_src_id er_dst_id er_kind er_count er_base_access er_is_virtual).

Definition read_edge_site : reader EdgeSiteRecord :=
  let? es_edge_id := read_i64 in
  let? es_file_id := read_i64 in
  let? es_line := read_i64 in
  let? es_col := read_i64 in
  let? es_conditional := read_i64 in
  let? es_recv_src_kind := read_optional (read_string limits) in
  let? es_recv_type_usr := read_optional (read_string limits) in
  let? es_recv_decl_usr := read_optional (read_string limits) in
  let? es_recv_param_pos := read_optional read_i64 in
  let? es_recv_type_is_value := read_optional read_i64 in
  ret (EdgeSiteRec
    es_edge_id es_file_id es_line es_col es_conditional es_recv_src_kind es_recv_type_usr
    es_recv_decl_usr es_recv_param_pos es_recv_type_is_value).

Definition read_call_arg : reader CallArgRecord :=
  let? ca_edge_id := read_i64 in
  let? ca_file_id := read_i64 in
  let? ca_line := read_i64 in
  let? ca_col := read_i64 in
  let? ca_position := read_i64 in
  let? ca_src_kind := read_string limits in
  let? ca_type_usr := read_optional (read_string limits) in
  let? ca_decl_usr := read_optional (read_string limits) in
  let? ca_callee_usr := read_optional (read_string limits) in
  let? ca_type_is_value := read_optional read_i64 in
  ret (CallArgRec
    ca_edge_id ca_file_id ca_line ca_col ca_position ca_src_kind ca_type_usr ca_decl_usr
    ca_callee_usr ca_type_is_value).

Definition read_template_param : reader TemplateParamRecord :=
  let? tp_owner_id := read_i64 in
  let? tp_position := read_i64 in
  let? tp_param_kind := read_i64 in
  let? tp_name := read_optional (read_string limits) in
  let? tp_default_txt := read_optional (read_string limits) in
  let? tp_type_id := read_optional read_i64 in
  let? tp_default_type_id := read_optional read_i64 in
  let? tp_default_ref_id := read_optional read_i64 in
  ret (TemplateParamRec
    tp_owner_id tp_position tp_param_kind tp_name tp_default_txt tp_type_id tp_default_type_id
    tp_default_ref_id).

Definition read_template_arg : reader TemplateArgRecord :=
  let? ta_owner_id := read_i64 in
  let? ta_position := read_i64 in
  let? ta_pack_index := read_i64 in
  let? ta_arg_kind := read_i64 in
  let? ta_ref_id := read_optional read_i64 in
  let? ta_literal := read_optional (read_string limits) in
  let? ta_type_id := read_optional read_i64 in
  ret (TemplateArgRec
    ta_owner_id ta_position ta_pack_index ta_arg_kind ta_ref_id ta_literal ta_type_id).

Definition read_type_node : reader TypeNodeRecord :=
  let? tn_type_key := read_string limits in
  let? tn_spelling := read_string limits in
  let? tn_kind := read_i64 in
  let? tn_is_const := read_bool in
  let? tn_is_volatile := read_bool in
  let? tn_is_restrict := read_bool in
  let? tn_decl_usr := read_optional (read_string limits) in
  let? tn_canonical_id := read_optional read_i64 in
  let? tn_extent := read_optional (read_string limits) in
  ret (TypeNodeRec
    tn_type_key tn_spelling tn_kind tn_is_const tn_is_volatile tn_is_restrict tn_decl_usr
    tn_canonical_id tn_extent).

Definition read_type_edge : reader TypeEdgeRecord :=
  let? te_src_id := read_i64 in
  let? te_kind := read_i64 in
  let? te_position := read_i64 in
  let? te_dst_id := read_i64 in
  ret (TypeEdgeRec
    te_src_id te_kind te_position te_dst_id).

Definition read_parameter : reader ParameterRecord :=
  let? pr_position := read_i64 in
  let? pr_pack_index := read_i64 in
  let? pr_name := read_optional (read_string limits) in
  let? pr_type_id := read_optional read_i64 in
  let? pr_declared_type_id := read_optional read_i64 in
  let? pr_adjusted_type_id := read_optional read_i64 in
  let? pr_default_text := read_optional (read_string limits) in
  let? pr_default_origin := read_optional (read_string limits) in
  let? pr_reference_semantics := read_optional (read_string limits) in
  let? pr_file_id := read_optional read_i64 in
  let? pr_line := read_optional read_i64 in
  let? pr_col := read_optional read_i64 in
  ret (ParameterRec
    pr_position pr_pack_index pr_name pr_type_id pr_declared_type_id pr_adjusted_type_id
    pr_default_text pr_default_origin pr_reference_semantics pr_file_id pr_line pr_col).

Definition read_parameter_fact : reader ParameterFactRecord :=
  let? pf_owner_id := read_i64 in
  let? pf_parameter := read_parameter in
  ret (ParameterFactRec
    pf_owner_id pf_parameter).

Definition read_symbol_type : reader SymbolTypeRecord :=
  let? st_symbol_id := read_i64 in
  let? st_kind := read_i64 in
  let? st_type_id := read_i64 in
  ret (SymbolTypeRec
    st_symbol_id st_kind st_type_id).

Definition read_definition : reader DefinitionFactRecord :=
  let? df_id := read_i64 in
  let? df_symbol_id := read_i64 in
  let? df_file_id := read_i64 in
  let? df_line := read_i64 in
  let? df_col := read_i64 in
  let? df_end_line := read_i64 in
  let? df_end_col := read_i64 in
  let? df_init_text := read_optional (read_string limits) in
  ret (DefinitionFactRec
    df_id df_symbol_id df_file_id df_line df_col df_end_line df_end_col df_init_text).

Definition read_definition_edge : reader DefinitionEdgeRecord :=
  let? de_definition_id := read_i64 in
  let? de_destination_id := read_i64 in
  let? de_kind := read_i64 in
  ret (DefinitionEdgeRec
    de_definition_id de_destination_id de_kind).

Definition read_declaration_site : reader DeclarationSiteRecord :=
  let? ds_symbol := read_symbol_key in
  let? ds_partition := read_partition_key in
  let? ds_line := read_i64 in
  let? ds_col := read_i64 in
  let? ds_end_line := read_i64 in
  let? ds_end_col := read_i64 in
  let? ds_is_definition := read_bool in
  ret (DeclarationSiteRec
    ds_symbol ds_partition ds_line ds_col ds_end_line ds_end_col ds_is_definition).

Definition read_include : reader IncludeDirectiveRecord :=
  let? id_partition := read_partition_key in
  let? id_source := read_file_identity in
  let? id_destination := read_optional read_file_identity in
  let? id_destination_path := read_string limits in
  let? id_spelling := read_string limits in
  let? id_directive := read_enum (bs "include directive kind") in
  let? id_line := read_i64 in
  let? id_col := read_i64 in
  let? id_begin_offset := read_i64 in
  let? id_end_offset := read_i64 in
  let? id_conditional_fingerprint := read_string limits in
  let? id_is_angled := read_bool in
  let? id_resolved := read_bool in
  let? id_is_system := read_bool in
  let? id_guarded := read_bool in
  ret (IncludeDirectiveRec
    id_partition id_source id_destination id_destination_path id_spelling id_directive id_line
    id_col id_begin_offset id_end_offset id_conditional_fingerprint id_is_angled id_resolved
    id_is_system id_guarded).

Definition read_macro : reader MacroUseRecord :=
  let? mu_partition := read_partition_key in
  let? mu_source := read_file_identity in
  let? mu_definition := read_optional read_file_identity in
  let? mu_definition_path := read_string limits in
  let? mu_name := read_string limits in
  let? mu_count := read_i64 in
  ret (MacroUseRec
    mu_partition mu_source mu_definition mu_definition_path mu_name mu_count).

Definition read_diagnostic : reader DiagnosticFactRecord :=
  let? dg_partition := read_partition_key in
  let? dg_severity := read_enum (bs "diagnostic severity") in
  let? dg_spelling := read_string limits in
  let? dg_location_file := read_optional read_file_identity in
  let? dg_line := read_optional read_i64 in
  let? dg_col := read_optional read_i64 in
  ret (DiagnosticFactRec
    dg_partition dg_severity dg_spelling dg_location_file dg_line dg_col).

Definition read_evidence : reader EvidenceRecord :=
  let? ev_producer := read_string limits in
  let? ev_construct := read_string limits in
  let? ev_file := read_string limits in
  let? ev_line := read_i64 in
  let? ev_col := read_i64 in
  let? ev_completeness := read_enum (bs "fact completeness") in
  let? ev_trust := read_enum (bs "fact trust") in
  let? ev_detail := read_string limits in
  ret (EvidenceRec
    ev_producer ev_construct ev_file ev_line ev_col ev_completeness ev_trust ev_detail).

Definition read_presentation : reader PresentationIntent :=
  let? pi_symbol_id := read_i64 in
  let? pi_display_args := read_vector limits (read_string limits) in
  ret (PresentationInt
    pi_symbol_id pi_display_args).

Definition read_cleanup : reader LifecycleCleanupIntent :=
  let? lc_partition := read_partition_key in
  let? lc_kind := read_enum (bs "cleanup kind") in
  let? lc_target := read_file_identity in
  let? lc_prior_generation := read_string limits in
  ret (CleanupInt
    lc_partition lc_kind lc_target lc_prior_generation).

Definition read_applicability : reader ApplicabilityOwnershipRecord :=
  let? ap_partition := read_partition_key in
  let? ap_file := read_file_identity in
  let? ap_role := read_enum (bs "applicability role") in
  let? ap_state := read_enum (bs "applicability state") in
  let? ap_reason := read_optional (read_string limits) in
  let? ap_generation := read_string limits in
  ret (ApplicabilityRec
    ap_partition ap_file ap_role ap_state ap_reason ap_generation).

Definition read_symbol_order : reader SymbolEmissionMetadata :=
  let? se_symbol := read_symbol_key in
  let? se_apply_order := read_apply_order in
  let? se_record_key := read_string limits in
  let? se_first_seen := read_u64 in
  let? se_last_seen := read_u64 in
  ret (EmissionMetadata
    se_symbol se_apply_order se_record_key se_first_seen se_last_seen).

Definition read_fact_records : reader FactRecords :=
  let? fr_symbols := read_vector limits read_symbol_record in
  let? fr_declaration_sites := read_vector limits read_declaration_site in
  let? fr_relations := read_vector limits read_edge in
  let? fr_edge_sites := read_vector limits read_edge_site in
  let? fr_call_args := read_vector limits read_call_arg in
  let? fr_template_params := read_vector limits read_template_param in
  let? fr_template_args := read_vector limits read_template_arg in
  let? fr_type_nodes := read_vector limits read_type_node in
  let? fr_type_edges := read_vector limits read_type_edge in
  let? fr_parameters := read_vector limits read_parameter_fact in
  let? fr_symbol_types := read_vector limits read_symbol_type in
  let? fr_definitions := read_vector limits read_definition in
  let? fr_definition_edges := read_vector limits read_definition_edge in
  let? fr_includes := read_vector limits read_include in
  let? fr_macros := read_vector limits read_macro in
  let? fr_diagnostics := read_vector limits read_diagnostic in
  let? fr_evidence := read_vector limits read_evidence in
  let? fr_presentation_intents := read_vector limits read_presentation in
  let? fr_lifecycle_cleanup := read_vector limits read_cleanup in
  let? fr_applicability := read_vector limits read_applicability in
  let? fr_symbol_order := read_vector limits read_symbol_order in
  ret (MkRecords
    fr_symbols fr_declaration_sites fr_relations fr_edge_sites fr_call_args fr_template_params
    fr_template_args fr_type_nodes fr_type_edges fr_parameters fr_symbol_types fr_definitions
    fr_definition_edges fr_includes fr_macros fr_diagnostics fr_evidence
    fr_presentation_intents fr_lifecycle_cleanup fr_applicability fr_symbol_order).
End readers.

(** ** Laws *)

Ltac codec_unfold ::= unfold write_symbol_location, write_symbol_identity, read_symbol_location in *.

Lemma codec_int limits : codec limits write_int read_int.
Proof.
  split.
  - intros k. apply (codec_some _ _ _ _ _ (codec_i64 limits)).
  - intros [k] t tot Hk Ht. unfold write_int, read_int. change (- 2 ^ 31 ≤ k < 2 ^ 31) in Hk.
    eapply (codec_step limits); [apply codec_i64|change (- 2 ^ 63 ≤ k < 2 ^ 63); lia|done|].
    cbn [int_value]. rewrite (proj2 (Z.ltb_ge _ _)), (proj2 (Z.ltb_ge _ _)) by lia. done.
  - intros s tot k i H. unfold read_int in H.
    apply (codec_accept limits _ _ _ _ _ _ _ (codec_i64 limits)) in H as (z & t & Hz & -> & H & Hm).
    destruct (_ || _) eqn:E in H; [done|]. injection H as <- <-.
    apply orb_false_iff in E as [?%Z.ltb_ge ?%Z.ltb_ge].
    split_and!; [change (- 2 ^ 31 ≤ z < 2 ^ 31); lia|done..].
Qed.
#[export] Hint Resolve codec_int : codec.

Lemma codec_file_identity limits : codec limits write_file_identity (read_file_identity limits).
Proof. solve_codec file_identity_fields write_file_identity read_file_identity. Qed.
#[export] Hint Resolve codec_file_identity : codec.

Lemma codec_configuration_content limits : codec limits write_configuration_content (read_configuration_content limits).
Proof. solve_codec configuration_content_fields write_configuration_content read_configuration_content. Qed.
#[export] Hint Resolve codec_configuration_content : codec.

Lemma codec_configuration_identity limits : codec limits write_configuration_identity (read_configuration_identity limits).
Proof. solve_codec configuration_identity_fields write_configuration_identity read_configuration_identity. Qed.
#[export] Hint Resolve codec_configuration_identity : codec.

Lemma codec_partition_key limits : codec limits write_partition_key (read_partition_key limits).
Proof. solve_codec partition_key_fields write_partition_key read_partition_key. Qed.
#[export] Hint Resolve codec_partition_key : codec.

Lemma codec_symbol_key limits : codec limits write_symbol_key (read_symbol_key limits).
Proof. solve_codec symbol_key_fields write_symbol_key read_symbol_key. Qed.
#[export] Hint Resolve codec_symbol_key : codec.

Lemma codec_apply_order limits : codec limits write_apply_order (read_apply_order limits).
Proof. solve_codec apply_order_fields write_apply_order read_apply_order. Qed.
#[export] Hint Resolve codec_apply_order : codec.

Lemma codec_symbol_record limits : codec limits write_symbol_record (read_symbol_record limits).
Proof. solve_codec symbol_record_fields write_symbol_record read_symbol_record. Qed.
#[export] Hint Resolve codec_symbol_record : codec.

Lemma codec_edge limits : codec limits write_edge read_edge.
Proof. solve_codec edge_fields write_edge read_edge. Qed.
#[export] Hint Resolve codec_edge : codec.

Lemma codec_edge_site limits : codec limits write_edge_site (read_edge_site limits).
Proof. solve_codec edge_site_fields write_edge_site read_edge_site. Qed.
#[export] Hint Resolve codec_edge_site : codec.

Lemma codec_call_arg limits : codec limits write_call_arg (read_call_arg limits).
Proof. solve_codec call_arg_fields write_call_arg read_call_arg. Qed.
#[export] Hint Resolve codec_call_arg : codec.

Lemma codec_template_param limits : codec limits write_template_param (read_template_param limits).
Proof. solve_codec template_param_fields write_template_param read_template_param. Qed.
#[export] Hint Resolve codec_template_param : codec.

Lemma codec_template_arg limits : codec limits write_template_arg (read_template_arg limits).
Proof. solve_codec template_arg_fields write_template_arg read_template_arg. Qed.
#[export] Hint Resolve codec_template_arg : codec.

Lemma codec_type_node limits : codec limits write_type_node (read_type_node limits).
Proof. solve_codec type_node_fields write_type_node read_type_node. Qed.
#[export] Hint Resolve codec_type_node : codec.

Lemma codec_type_edge limits : codec limits write_type_edge read_type_edge.
Proof. solve_codec type_edge_fields write_type_edge read_type_edge. Qed.
#[export] Hint Resolve codec_type_edge : codec.

Lemma codec_parameter limits : codec limits write_parameter (read_parameter limits).
Proof. solve_codec parameter_fields write_parameter read_parameter. Qed.
#[export] Hint Resolve codec_parameter : codec.

Lemma codec_parameter_fact limits : codec limits write_parameter_fact (read_parameter_fact limits).
Proof. solve_codec parameter_fact_fields write_parameter_fact read_parameter_fact. Qed.
#[export] Hint Resolve codec_parameter_fact : codec.

Lemma codec_symbol_type limits : codec limits write_symbol_type read_symbol_type.
Proof. solve_codec symbol_type_fields write_symbol_type read_symbol_type. Qed.
#[export] Hint Resolve codec_symbol_type : codec.

Lemma codec_definition limits : codec limits write_definition (read_definition limits).
Proof. solve_codec definition_fields write_definition read_definition. Qed.
#[export] Hint Resolve codec_definition : codec.

Lemma codec_definition_edge limits : codec limits write_definition_edge read_definition_edge.
Proof. solve_codec definition_edge_fields write_definition_edge read_definition_edge. Qed.
#[export] Hint Resolve codec_definition_edge : codec.

Lemma codec_declaration_site limits : codec limits write_declaration_site (read_declaration_site limits).
Proof. solve_codec declaration_site_fields write_declaration_site read_declaration_site. Qed.
#[export] Hint Resolve codec_declaration_site : codec.

Lemma codec_include limits : codec limits write_include (read_include limits).
Proof. solve_codec include_fields write_include read_include. Qed.
#[export] Hint Resolve codec_include : codec.

Lemma codec_macro limits : codec limits write_macro (read_macro limits).
Proof. solve_codec macro_fields write_macro read_macro. Qed.
#[export] Hint Resolve codec_macro : codec.

Lemma codec_diagnostic limits : codec limits write_diagnostic (read_diagnostic limits).
Proof. solve_codec diagnostic_fields write_diagnostic read_diagnostic. Qed.
#[export] Hint Resolve codec_diagnostic : codec.

Lemma codec_evidence limits : codec limits write_evidence (read_evidence limits).
Proof. solve_codec evidence_fields write_evidence read_evidence. Qed.
#[export] Hint Resolve codec_evidence : codec.

Lemma codec_presentation limits : codec limits write_presentation (read_presentation limits).
Proof. solve_codec presentation_fields write_presentation read_presentation. Qed.
#[export] Hint Resolve codec_presentation : codec.

Lemma codec_cleanup limits : codec limits write_cleanup (read_cleanup limits).
Proof. solve_codec cleanup_fields write_cleanup read_cleanup. Qed.
#[export] Hint Resolve codec_cleanup : codec.

Lemma codec_applicability limits : codec limits write_applicability (read_applicability limits).
Proof. solve_codec applicability_fields write_applicability read_applicability. Qed.
#[export] Hint Resolve codec_applicability : codec.

Lemma codec_symbol_order limits : codec limits write_symbol_order (read_symbol_order limits).
Proof. solve_codec symbol_order_fields write_symbol_order read_symbol_order. Qed.
#[export] Hint Resolve codec_symbol_order : codec.

Lemma codec_fact_records limits : codec limits write_fact_records (read_fact_records limits).
Proof. solve_codec fact_records_fields write_fact_records read_fact_records. Qed.
#[export] Hint Resolve codec_fact_records : codec.
