(* ===== verification/FactBatch.v ===== *)
(** * Fact batches: [src/src/ast/fact_batch.cpp]

    The keys that order the records of a family, the canonical layout of a batch
    ([FactBatch::has_canonical_layout]) and the batch that the recorder builds
    ([FactBatchRecorder::build_batch]).

    A [std::map] is a list sorted by key, or a [gmap] where only its contents
    matter.  [std::ranges::sort] leaves the order of equivalent elements open; the
    merge sort of the model fixes one. *)

From S2P Require Export FactRecords.
Open Scope Z_scope.

(** ** Texts *)

(** The separators ['\x1f'] and [':']. *)
Definition us : bytes := ["031"%char].
Definition colon : bytes := [":"%char].

Definition optional_text (value : option bytes) : bytes :=
  match value with
  | None => bs "-"
  | Some value => to_string (Z.of_nat (length value)) ++ colon ++ value
  end.

Definition optional_int (value : option Z) : bytes :=
  match value with
  | None => bs "-"
  | Some value => to_string value
  end.

Definition bool_text (value : bool) : bytes := if value then bs "1" else bs "0".

Definition enum_text `{WireEnum E} (e : E) : bytes := to_string (Z.of_N (to_underlying e)).

Definition portable_file_key (file : PortableFileIdentity) : bytes :=
  join_with us [component_path file; directory_path file; file_name file].

Definition optional_file_key (file : option PortableFileIdentity) : bytes :=
  match file with Some file => portable_file_key file | None => bs "-" end.

(** ** The key of a record *)

Definition symbol_record_key (r : SymbolRecord) : bytes :=
  join_with us [
    sr_file r; sr_usr r; sr_spelling r; to_string (int_value (sr_kind r)); sr_kind_name r;
    optional_text (sr_qual_name r); optional_text (sr_display_name r); optional_text (sr_type_info r);
    join_with colon [
      to_string (sr_line r); to_string (sr_col r); to_string (sr_end_line r); to_string (sr_end_col r);
      optional_int (sr_decl_line r); optional_int (sr_decl_col r); optional_text (sr_decl_path r);
      bool_text (sr_is_definition r) ++ bool_text (sr_is_pure r) ++ bool_text (sr_is_static r)
      ++ bool_text (sr_is_instantiation r) ++ bool_text (sr_is_named_instance r)];
    optional_text (sr_linkage r); optional_text (sr_access r); optional_text (sr_parent_usr r);
    optional_text (sr_const_value r); bool_text (sr_resolved r)].

Definition declaration_site_key (r : DeclarationSiteRecord) : bytes :=
  join_with colon [
    symbol_string (ds_symbol r); to_string (ds_line r); to_string (ds_col r);
    to_string (ds_end_line r); to_string (ds_end_col r); bool_text (ds_is_definition r)].

Definition edge_record_key (r : EdgeRecord) : bytes :=
  join_with colon [
    to_string (er_src_id r); to_string (er_dst_id r); to_string (er_kind r); to_string (er_count r);
    optional_int (er_base_access r); optional_int (er_is_virtual r)].

Definition edge_site_key (r : EdgeSiteRecord) : bytes :=
  join_with colon [
    to_string (es_edge_id r); to_string (es_file_id r); to_string (es_line r); to_string (es_col r);
    to_string (es_conditional r); optional_text (es_recv_src_kind r);
    optional_text (es_recv_type_usr r); optional_text (es_recv_decl_usr r);
    optional_int (es_recv_param_pos r); optional_int (es_recv_type_is_value r)].

Definition call_arg_key (r : CallArgRecord) : bytes :=
  join_with colon [
    to_string (ca_edge_id r); to_string (ca_position r); to_string (ca_file_id r);
    to_string (ca_line r); to_string (ca_col r); ca_src_kind r; optional_text (ca_type_usr r);
    optional_text (ca_decl_usr r); optional_text (ca_callee_usr r);
    optional_int (ca_type_is_value r)].

Definition template_param_key (r : TemplateParamRecord) : bytes :=
  join_with colon [
    to_string (tp_owner_id r); to_string (tp_position r); to_string (tp_param_kind r);
    optional_text (tp_name r); optional_text (tp_default_txt r); optional_int (tp_type_id r);
    optional_int (tp_default_type_id r); optional_int (tp_default_ref_id r)].

Definition template_arg_key (r : TemplateArgRecord) : bytes :=
  join_with colon [
    to_string (ta_owner_id r); to_string (ta_position r); to_string (ta_pack_index r);
    to_string (ta_arg_kind r); optional_int (ta_ref_id r); optional_text (ta_literal r);
    optional_int (ta_type_id r)].

Definition type_node_key (r : TypeNodeRecord) : bytes :=
  join_with us [
    tn_type_key r; tn_spelling r;
    join_with colon [
      to_string (tn_kind r);
      bool_text (tn_is_const r) ++ bool_text (tn_is_volatile r) ++ bool_text (tn_is_restrict r);
      optional_text (tn_decl_usr r); optional_int (tn_canonical_id r); optional_text (tn_extent r)]].

Definition type_edge_key (r : TypeEdgeRecord) : bytes :=
  join_with colon [
    to_string (te_src_id r); to_string (te_kind r); to_string (te_position r); to_string (te_dst_id r)].

Definition parameter_key (r : ParameterFactRecord) : bytes :=
  let p := pf_parameter r in
  join_with colon [
    to_string (pf_owner_id r); to_string (pr_position p); to_string (pr_pack_index p);
    optional_text (pr_name p); optional_int (pr_type_id p); optional_int (pr_declared_type_id p);
    optional_int (pr_adjusted_type_id p); optional_text (pr_default_text p);
    optional_text (pr_default_origin p); optional_text (pr_reference_semantics p);
    optional_int (pr_file_id p); optional_int (pr_line p); optional_int (pr_col p)].

Definition symbol_type_key (r : SymbolTypeRecord) : bytes :=
  join_with colon [to_string (st_symbol_id r); to_string (st_kind r); to_string (st_type_id r)].

Definition definition_key (r : DefinitionFactRecord) : bytes :=
  join_with colon [
    to_string (df_id r); to_string (df_symbol_id r); to_string (df_file_id r); to_string (df_line r);
    to_string (df_col r); to_string (df_end_line r); to_string (df_end_col r);
    optional_text (df_init_text r)].

Definition definition_edge_key (r : DefinitionEdgeRecord) : bytes :=
  join_with colon [
    to_string (de_definition_id r); to_string (de_destination_id r); to_string (de_kind r)].

Definition evidence_key (r : EvidenceRecord) : bytes :=
  join_with us [
    ev_producer r; ev_construct r; ev_file r;
    join_with colon [
      to_string (ev_line r); to_string (ev_col r); enum_text (ev_completeness r);
      enum_text (ev_trust r)];
    ev_detail r].

Definition include_key (r : IncludeDirectiveRecord) : bytes :=
  join_with colon [
    partition_string (id_partition r); portable_file_key (id_source r);
    optional_file_key (id_destination r); id_destination_path r; id_spelling r;
    enum_text (id_directive r); to_string (id_line r); to_string (id_col r);
    to_string (id_begin_offset r); to_string (id_end_offset r); id_conditional_fingerprint r;
    bool_text (id_is_angled r) ++ bool_text (id_resolved r) ++ bool_text (id_is_system r)
    ++ bool_text (id_guarded r)].

Definition macro_key (r : MacroUseRecord) : bytes :=
  join_with colon [
    partition_string (mu_partition r); portable_file_key (mu_source r);
    optional_file_key (mu_definition r); mu_definition_path r; mu_name r; to_string (mu_count r)].

Definition diagnostic_key (r : DiagnosticFactRecord) : bytes :=
  join_with colon [
    partition_string (dg_partition r); enum_text (dg_severity r); dg_spelling r;
    optional_file_key (dg_location_file r); optional_int (dg_line r); optional_int (dg_col r)].

Definition presentation_key (r : PresentationIntent) : bytes :=
  to_string (pi_symbol_id r)
  ++ mjoin ((λ argument, colon ++ to_string (Z.of_nat (length argument)) ++ colon ++ argument)
            <$> pi_display_args r).

Definition cleanup_key (r : LifecycleCleanupIntent) : bytes :=
  join_with colon [
    partition_string (lc_partition r); enum_text (lc_kind r); portable_path (lc_target r);
    lc_prior_generation r].

Definition applicability_key (r : ApplicabilityOwnershipRecord) : bytes :=
  join_with colon [
    partition_string (ap_partition r); portable_path (ap_file r); enum_text (ap_role r);
    enum_text (ap_state r); optional_text (ap_reason r); ap_generation r].

(** ** Batches *)

(** [members] is the [std::map] in key order. *)
Record FileFactPartition := FilePartition {
  fp_key : FactPartitionKey;
  fp_members : list (FactFamily * list nat)
}.

Record PendingSymbolReference := PendingReference {
  ps_handle : Z;
  ps_usr : bytes;
  ps_identity_source : bytes;
  ps_semantic_universe : bytes;
  ps_translation_unit : bytes
}.

#[export] Instance pending_eq_dec : EqDecision PendingSymbolReference.
Proof. solve_decision. Defined.

Definition pending_tuple (r : PendingSymbolReference) :=
  (ps_handle r, [ps_usr r; ps_identity_source r; ps_semantic_universe r; ps_translation_unit r]).

Definition pending_ltb (a b : PendingSymbolReference) : bool :=
  pair_ltb Z.ltb (lex_ltb bytes_ltb) (pending_tuple a) (pending_tuple b).

#[export] Instance pending_order : LtbOrder pending_ltb.
Proof.
  apply (@key_order _ (pair_ltb Z.ltb (lex_ltb bytes_ltb)) _ _ pending_tuple).
  intros [] [] H. unfold pending_tuple in H. cbn in H. by simplify_eq.
Qed.

(** [FactBatch::Data]. *)
Record FactBatch := MkBatch {
  fb_producer : bytes;
  fb_producer_version : N;
  fb_completeness : FactCompleteness;
  fb_canonical : bool;
  fb_records : FactRecords;
  fb_partitions : list FileFactPartition;
  fb_symbol_keys : gmap Z bytes;
  fb_relation_keys : gmap Z bytes;
  fb_type_keys : gmap Z bytes;
  fb_definition_keys : gmap Z bytes;
  fb_file_keys : gmap Z FactPartitionKey;
  fb_pending_symbol_references : list PendingSymbolReference
}.

(** ** The canonical layout *)

(** [partition.members.find(family)]. *)
Fixpoint find_members (family : FactFamily) (members : list (FactFamily * list nat)) : option (list nat) :=
  match members with
  | [] => None
  | (f, indices) :: members => if decide (f = family) then Some indices else find_members family members
  end.

Definition partitions_are_strictly_ordered (partitions : list FileFactPartition) : bool :=
  (fix go (l : list FileFactPartition) : bool :=
     match l with
     | a :: (b :: _) as l' => partition_ltb (fp_key a) (fp_key b) && go l'
     | _ => true
     end) partitions.

Section family.
Context {T : Type} (key : T → bytes).

(** The indices of a partition: consecutive from [expected], with increasing
    keys; the next expected index. *)
Fixpoint members_canonical (records : list T) (expected : nat) (previous : option bytes)
    (indices : list nat) : option nat :=
  match indices with
  | [] => Some expected
  | index :: indices =>
      if negb (index =? expected)%nat then None
      else
        match records !! index with
        | None => None
        | Some record =>
            let current := key record in
            if match previous with Some p => negb (bytes_ltb p current) | None => false end then None
            else members_canonical records (S expected) (Some current) indices
        end
  end.

Fixpoint partitions_canonical (records : list T) (family : FactFamily) (expected : nat)
    (partitions : list FileFactPartition) : option nat :=
  match partitions with
  | [] => Some expected
  | partition :: partitions =>
      match find_members family (fp_members partition) with
      | None => partitions_canonical records family expected partitions
      | Some [] => None
      | Some indices =>
          expected ← members_canonical records expected None indices;
          partitions_canonical records family expected partitions
      end
  end.

Definition family_is_canonical (records : list T) (partitions : list FileFactPartition)
    (family : FactFamily) : bool :=
  match partitions_canonical records family 0 partitions with
  | Some expected => (expected =? length records)%nat
  | None => false
  end.

Definition family_ownership_is_canonical (records : list T) (partitions : list FileFactPartition)
    (family : FactFamily) (record_partition : T → FactPartitionKey) : bool :=
  forallb (λ partition,
    match find_members family (fp_members partition) with
    | None => true
    | Some indices =>
        forallb (λ index,
          match records !! index with
          | Some record => bool_decide (record_partition record = fp_key partition)
          | None => false
          end) indices
    end) partitions.
End family.

(** *** The order of the symbols *)

Definition file_order (m : SymbolEmissionMetadata) : list bytes :=
  let order := se_apply_order m in
  [ao_component_path order; ao_directory_path order; ao_file_name order].

Definition files_ltb : list bytes → list bytes → bool := lex_ltb bytes_ltb.

(** [std::min] and [std::ranges::min_element]: the earliest of equal elements. *)
Definition min_file (a b : list bytes) : list bytes := if files_ltb b a then b else a.

(** A group: its least file, then its natural identity. *)
Abbreviation GroupOrder := (list bytes * bytes)%type.
Definition group_ltb : GroupOrder → GroupOrder → bool := pair_ltb files_ltb bytes_ltb.

(** The inner loop: the entries of [natural] from [group_index] on; [None] when an
    entry is misnumbered, otherwise the least file and the remaining entries. *)
Fixpoint group_scan (natural : bytes) (group_index : N) (minimum_file : list bytes)
    (emissions : list SymbolEmissionMetadata) : option (list bytes * list SymbolEmissionMetadata) :=
  match emissions with
  | entry :: rest =>
      if decide (symbol_string (se_symbol entry) = natural) then
        if negb (se_first_seen entry =? group_index)%N || negb (se_last_seen entry =? group_index)%N
           || negb (ao_first_seen (se_apply_order entry) =? group_index)%N
           || negb (ao_conflict_ordinal (se_apply_order entry) =? group_index)%N
        then None
        else group_scan natural (group_index + 1) (min_file minimum_file (file_order entry)) rest
      else Some (minimum_file, emissions)
  | [] => Some (minimum_file, [])
  end.

Fixpoint order_scan (fuel : nat) (seen : gset bytes) (previous : option GroupOrder)
    (emissions : list SymbolEmissionMetadata) : bool :=
  match fuel, emissions with
  | _, [] => true
  | O, _ :: _ => false
  | S fuel, entry :: _ =>
      let natural := symbol_string (se_symbol entry) in
      if decide (natural ∈ seen) then false
      else
        match group_scan natural 0 (file_order entry) emissions with
        | None => false
        | Some (minimum_file, rest) =>
            let order := (minimum_file, natural) in
            if match previous with Some p => negb (group_ltb p order) | None => false end then false
            else order_scan fuel ({[natural]} ∪ seen) (Some order) rest
        end
  end.

Definition symbol_order_is_canonical (emissions : list SymbolEmissionMetadata) : bool :=
  order_scan (length emissions) ∅ None emissions.

Definition has_canonical_layout (batch : FactBatch) : bool :=
  let r := fb_records batch in
  let p := fb_partitions batch in
  fb_canonical batch && partitions_are_strictly_ordered p
  && family_is_canonical symbol_record_key (fr_symbols r) p fam_symbols
  && family_is_canonical declaration_site_key (fr_declaration_sites r) p fam_declaration_sites
  && family_ownership_is_canonical (fr_declaration_sites r) p fam_declaration_sites ds_partition
  && family_is_canonical edge_record_key (fr_relations r) p fam_relations
  && family_is_canonical edge_site_key (fr_edge_sites r) p fam_edge_sites
  && family_is_canonical call_arg_key (fr_call_args r) p fam_call_arguments
  && family_is_canonical template_param_key (fr_template_params r) p fam_template_parameters
  && family_is_canonical template_arg_key (fr_template_args r) p fam_template_arguments
  && family_is_canonical type_node_key (fr_type_nodes r) p fam_types
  && family_is_canonical type_edge_key (fr_type_edges r) p fam_type_edges
  && family_is_canonical parameter_key (fr_parameters r) p fam_parameters
  && family_is_canonical symbol_type_key (fr_symbol_types r) p fam_symbol_types
  && family_is_canonical definition_key (fr_definitions r) p fam_definitions
  && family_is_canonical definition_edge_key (fr_definition_edges r) p fam_definition_edges
  && family_is_canonical include_key (fr_includes r) p fam_includes
  && family_ownership_is_canonical (fr_includes r) p fam_includes id_partition
  && family_is_canonical macro_key (fr_macros r) p fam_macros
  && family_ownership_is_canonical (fr_macros r) p fam_macros mu_partition
  && family_is_canonical diagnostic_key (fr_diagnostics r) p fam_diagnostics
  && family_ownership_is_canonical (fr_diagnostics r) p fam_diagnostics dg_partition
  && family_is_canonical evidence_key (fr_evidence r) p fam_evidence
  && family_is_canonical presentation_key (fr_presentation_intents r) p fam_presentation_intents
  && family_is_canonical cleanup_key (fr_lifecycle_cleanup r) p fam_lifecycle_cleanup
  && family_ownership_is_canonical (fr_lifecycle_cleanup r) p fam_lifecycle_cleanup lc_partition
  && family_is_canonical applicability_key (fr_applicability r) p fam_applicability
  && family_ownership_is_canonical (fr_applicability r) p fam_applicability ap_partition
  && symbol_order_is_canonical (fr_symbol_order r).

Definition is_canonical (batch : FactBatch) : bool := fb_canonical batch && has_canonical_layout batch.

(** ** Building a batch *)

(** A record with the partition it is routed to. *)
Abbreviation Routed T := (FactPartitionKey * T)%type.

(** [memberships[partition][family].push_back(index)], in order. *)
Abbreviation Memberships := (list (FactPartitionKey * FactFamily * nat)).

Section append_records.
Context {T : Type} (key : T → bytes).

Definition routed_key (item : Routed T) : FactPartitionKey * bytes := (item.1, key item.2).

(** The order of [append_records]: by partition, then by key. *)
Definition routed_ltb (a b : Routed T) : bool :=
  pair_ltb partition_ltb bytes_ltb (routed_key a) (routed_key b).

(** The records of a family in the order of the batch. *)
Definition ordered (canonical : bool) (source : list (Routed T)) : list (Routed T) :=
  if canonical then unique_by routed_key (merge_sort (ltb_le routed_ltb) source) else source.

Definition append_records (canonical : bool) (family : FactFamily) (source : list (Routed T))
    : list T * Memberships :=
  let routed := ordered canonical source in
  (routed.*2, imap (λ index item, (item.1, family, index)) routed).
End append_records.

(** *** The canonical order of the symbol emissions *)

(** The entries of one natural identity by [first_seen]. *)
Definition emission_le (a b : SymbolEmissionMetadata) : Prop := (se_first_seen a ≤ se_first_seen b)%N.
#[export] Instance emission_le_dec : RelDecision emission_le.
Proof. intros a b. unfold emission_le. apply _. Defined.

Definition group_entries (natural : bytes) (emissions : list SymbolEmissionMetadata)
    : list SymbolEmissionMetadata :=
  merge_sort emission_le (filter (λ m, symbol_string (se_symbol m) = natural) emissions).

Definition group_order (natural : bytes) (entries : list SymbolEmissionMetadata) : GroupOrder :=
  (match file_order <$> entries with
   | [] => []
   | f :: fs => foldl min_file f fs
   end, natural).

(** [first_seen], [last_seen] and the apply order become the index in the group. *)
Definition renumber (index : nat) (m : SymbolEmissionMetadata) : SymbolEmissionMetadata :=
  let i := N.of_nat index in
  let order := se_apply_order m in
  EmissionMetadata (se_symbol m)
    (ApplyOrder (ao_component_path order) (ao_directory_path order) (ao_file_name order) i i)
    (se_record_key m) i i.

Definition group_le (a b : GroupOrder * list SymbolEmissionMetadata) : Prop :=
  group_ltb b.1 a.1 = false.
#[export] Instance group_le_dec : RelDecision group_le.
Proof. intros a b. unfold group_le. apply _. Defined.

Definition canonical_symbol_order (emissions : list SymbolEmissionMetadata) : list SymbolEmissionMetadata :=
  let naturals := sort_unique bytes_ltb ((λ m, symbol_string (se_symbol m)) <$> emissions) in
  let groups := (λ natural, let entries := group_entries natural emissions in
                            (group_order natural entries, entries)) <$> naturals in
  mjoin ((λ group, imap renumber group.2) <$> merge_sort group_le groups).

(** *** The recorder's facts *)

(** What the recorder has collected when a batch is built: the routed records of
    each family, the emissions, the identities and the deferred references. *)
Record RecordedFacts := Recorded {
  rf_producer : bytes;
  rf_completeness : FactCompleteness;
  rf_symbols : list (Routed SymbolRecord);
  rf_declaration_sites : list (Routed DeclarationSiteRecord);
  rf_relations : list (Routed EdgeRecord);
  rf_edge_sites : list (Routed EdgeSiteRecord);
  rf_call_args : list (Routed CallArgRecord);
  rf_template_params : list (Routed TemplateParamRecord);
  rf_template_args : list (Routed TemplateArgRecord);
  rf_type_nodes : list (Routed TypeNodeRecord);
  rf_type_edges : list (Routed TypeEdgeRecord);
  rf_parameters : list (Routed ParameterFactRecord);
  rf_symbol_types : list (Routed SymbolTypeRecord);
  rf_definitions : list (Routed DefinitionFactRecord);
  rf_definition_edges : list (Routed DefinitionEdgeRecord);
  rf_includes : list (Routed IncludeDirectiveRecord);
  rf_macros : list (Routed MacroUseRecord);
  rf_diagnostics : list (Routed DiagnosticFactRecord);
  rf_evidence : list (Routed EvidenceRecord);
  rf_presentation_intents : list (Routed PresentationIntent);
  rf_lifecycle_cleanup : list (Routed LifecycleCleanupIntent);
  rf_applicability : list (Routed ApplicabilityOwnershipRecord);
  rf_symbol_order : list SymbolEmissionMetadata;
  rf_symbol_keys : gmap Z bytes;
  rf_relation_keys : gmap Z bytes;
  rf_type_keys : gmap Z bytes;
  rf_definition_keys : gmap Z bytes;
  rf_partitions_by_file_handle : gmap Z FactPartitionKey;
  rf_pending_symbol_references : list PendingSymbolReference
}.

Definition all_families : list FactFamily :=
  [fam_symbols; fam_declaration_sites; fam_relations; fam_edge_sites; fam_call_arguments;
   fam_template_parameters; fam_template_arguments; fam_types; fam_type_edges; fam_parameters;
   fam_symbol_types; fam_definitions; fam_definition_edges; fam_includes; fam_macros;
   fam_diagnostics; fam_evidence; fam_presentation_intents; fam_lifecycle_cleanup;
   fam_applicability].

(** [memberships[partition][family]]. *)
Definition indices (memberships : Memberships) (partition : FactPartitionKey) (family : FactFamily)
    : list nat :=
  snd <$> filter (λ m, m.1.1 = partition ∧ m.1.2 = family) memberships.

(** The memberships as ordered maps. *)
Definition partition_members (memberships : Memberships) (partition : FactPartitionKey)
    : list (FactFamily * list nat) :=
  omap (λ family,
    match indices memberships partition family with
    | [] => None
    | l => Some (family, l)
    end) all_families.

Definition partition_keys (memberships : Memberships) : list FactPartitionKey :=
  sort_unique partition_ltb ((λ m, m.1.1) <$> memberships).

Definition partitions_of (memberships : Memberships) : list FileFactPartition :=
  (λ partition, FilePartition partition (partition_members memberships partition))
  <$> partition_keys memberships.

(** [while (file_keys.contains(handle)) --handle;] *)
Fixpoint free_handle (fuel : nat) (handle : Z) (file_keys : gmap Z FactPartitionKey) : Z :=
  match fuel with
  | O => handle
  | S fuel =>
      if decide (is_Some (file_keys !! handle)) then free_handle fuel (handle - 1) file_keys else handle
  end.

(** A partition that no file handle names gets a negative one. *)
Definition register_partition (file_keys : gmap Z FactPartitionKey) (partition : FactPartitionKey)
    : gmap Z FactPartitionKey :=
  if existsb (λ entry, bool_decide (entry.2 = partition)) (map_to_list file_keys) then file_keys
  else
    let hash := stable_fact_hash (bs "file:" ++ partition_string partition) in
    let handle := - Z.land hash 4611686018427387903 in
    let handle := if handle =? 0 then -1 else handle in
    <[free_handle (S (size file_keys)) handle file_keys := partition]> file_keys.

Definition build_batch (canonical : bool) (r : RecordedFacts) : FactBatch :=
  let '(symbols, m1) := append_records symbol_record_key canonical fam_symbols (rf_symbols r) in
  let '(sites, m2) :=
    append_records declaration_site_key canonical fam_declaration_sites (rf_declaration_sites r) in
  let '(relations, m3) := append_records edge_record_key canonical fam_relations (rf_relations r) in
  let '(edge_sites, m4) := append_records edge_site_key canonical fam_edge_sites (rf_edge_sites r) in
  let '(call_args, m5) := append_records call_arg_key canonical fam_call_arguments (rf_call_args r) in
  let '(template_params, m6) :=
    append_records template_param_key canonical fam_template_parameters (rf_template_params r) in
  let '(template_args, m7) :=
    append_records template_arg_key canonical fam_template_arguments (rf_template_args r) in
  let '(type_nodes, m8) := append_records type_node_key canonical fam_types (rf_type_nodes r) in
  let '(type_edges, m9) := append_records type_edge_key canonical fam_type_edges (rf_type_edges r) in
  let '(parameters, m10) := append_records parameter_key canonical fam_parameters (rf_parameters r) in
  let '(symbol_types, m11) :=
    append_records symbol_type_key canonical fam_symbol_types (rf_symbol_types r) in
  let '(definitions, m12) :=
    append_records definition_key canonical fam_definitions (rf_definitions r) in
  let '(definition_edges, m13) :=
    append_records definition_edge_key canonical fam_definition_edges (rf_definition_edges r) in
  let '(includes, m14) := append_records include_key canonical fam_includes (rf_includes r) in
  let '(macros, m15) := append_records macro_key canonical fam_macros (rf_macros r) in
  let '(diagnostics, m16) :=
    append_records diagnostic_key canonical fam_diagnostics (rf_diagnostics r) in
  let '(evidence, m17) := append_records evidence_key canonical fam_evidence (rf_evidence r) in
  let '(presentation, m18) :=
    append_records presentation_key canonical fam_presentation_intents (rf_presentation_intents r) in
  let '(cleanup, m19) :=
    append_records cleanup_key canonical fam_lifecycle_cleanup (rf_lifecycle_cleanup r) in
  let '(applicability, m20) :=
    append_records applicability_key canonical fam_applicability (rf_applicability r) in
  let memberships := mjoin [m1; m2; m3; m4; m5; m6; m7; m8; m9; m10; m11; m12; m13; m14; m15; m16;
                            m17; m18; m19; m20] in
  let order := if canonical then canonical_symbol_order (rf_symbol_order r) else rf_symbol_order r in
  MkBatch (rf_producer r) 1 (rf_completeness r) canonical
    (MkRecords symbols sites relations edge_sites call_args template_params template_args type_nodes
       type_edges parameters symbol_types definitions definition_edges includes macros diagnostics
       evidence presentation cleanup applicability order)
    (partitions_of memberships) (rf_symbol_keys r) (rf_relation_keys r) (rf_type_keys r)
    (rf_definition_keys r)
    (foldl register_partition (rf_partitions_by_file_handle r) (partition_keys memberships))
    (if canonical then sort pending_ltb (rf_pending_symbol_references r)
     else rf_pending_symbol_references r).

Definition snapshot : RecordedFacts → FactBatch := build_batch false.
Definition canonical_batch : RecordedFacts → FactBatch := build_batch true.

(** ** The families of a canonical batch *)

#[export] Instance routed_key_order : LtbOrder (pair_ltb partition_ltb bytes_ltb).
Proof. apply _. Qed.

Section ordered.
Context {T : Type} (key : T → bytes).
Implicit Types (l : list (Routed T)).

Definition routed_lt (a b : Routed T) : Prop := routed_ltb key a b = true.

Lemma ordered_strict l : StronglySorted routed_lt (ordered key true l).
Proof.
  apply (unique_by_strict (routed_key key) (pair_ltb partition_ltb bytes_ltb)).
  apply StronglySorted_merge_sort.
  - intros a b c. apply (ltb_le_trans (pair_ltb partition_ltb bytes_ltb)).
  - intros a b. apply (ltb_le_total (pair_ltb partition_ltb bytes_ltb)).
Qed.

Lemma elem_of_ordered l x : x ∈ ordered key true l → x ∈ l.
Proof. intros Hx%elem_of_unique_by. by rewrite merge_sort_Permutation in Hx. Qed.

(** Strictly before: an earlier partition, or a smaller key of the same one. *)
Lemma routed_lt_iff a b :
  routed_lt a b ↔ partition_ltb a.1 b.1 = true ∨ a.1 = b.1 ∧ bytes_ltb (key a.2) (key b.2) = true.
Proof.
  unfold routed_lt, routed_ltb, pair_ltb, routed_key. cbn.
  destruct (partition_ltb a.1 b.1) eqn:E1; [naive_solver|].
  destruct (partition_ltb b.1 a.1) eqn:E2.
  - split; [done|]. intros [?|[Heq _]]; [done|]. by rewrite Heq, ltb_irrefl in E2.
  - split; [|naive_solver]. intros ?. right. split; [|done]. by apply ltb_total.
Qed.

Definition log (family : FactFamily) (n : nat) l : Memberships :=
  imap (λ i item, (item.1, family, (n + i)%nat)) l.

Lemma log_app f n a b : log f n (a ++ b) = log f n a ++ log f (n + length a) b.
Proof.
  unfold log. rewrite imap_app. f_equal. apply imap_ext. intros i x _. simpl. by rewrite Nat.add_assoc.
Qed.

Lemma append_records_log f l : (append_records key true f l).2 = log f 0 (ordered key true l).
Proof. done. Qed.

Lemma log_cons f n x l : log f n (x :: l) = (x.1, f, n) :: log f (S n) l.
Proof.
  unfold log. cbn. rewrite Nat.add_0_r. f_equal. apply imap_ext. intros i y _. simpl.
  by rewrite Nat.add_succ_r.
Qed.

Lemma indices_cons q g i m p f :
  indices ((q, g, i) :: m) p f = if decide (q = p ∧ g = f) then i :: indices m p f else indices m p f.
Proof.
  unfold indices. destruct (decide (q = p ∧ g = f)); [by rewrite filter_cons_True|].
  by rewrite filter_cons_False.
Qed.

Lemma log_other f g n l p : f ≠ g → indices (log g n l) p f = [].
Proof.
  intros Hne. revert n. induction l as [|x l IH]; intros n; [done|].
  rewrite log_cons, indices_cons, decide_False by naive_solver. apply IH.
Qed.

Lemma log_none f n l p : Forall (λ x, x.1 ≠ p) l → indices (log f n l) p f = [].
Proof.
  intros H. revert n. induction H as [|x l Hx _ IH]; intros n; [done|].
  rewrite log_cons, indices_cons, decide_False by naive_solver. apply IH.
Qed.

Lemma log_all f n l p : Forall (λ x, x.1 = p) l → indices (log f n l) p f = seq n (length l).
Proof.
  intros H. revert n. induction H as [|x l Hx _ IH]; intros n; [done|].
  rewrite log_cons, indices_cons, decide_True by done. cbn. f_equal. apply IH.
Qed.

Lemma indices_app m1 m2 p f : indices (m1 ++ m2) p f = indices m1 p f ++ indices m2 p f.
Proof. unfold indices. by rewrite filter_app, fmap_app. Qed.

Lemma elem_of_indices f l p i :
  i ∈ indices (log f 0 l) p f ↔ ∃ x, l !! i = Some x ∧ x.1 = p.
Proof.
  unfold indices, log. rewrite list_elem_of_fmap. split.
  - intros ([[q g] j] & -> & [[Hq _] (k & Hk)%list_elem_of_lookup]%list_elem_of_filter).
    rewrite list_lookup_imap in Hk. apply fmap_Some in Hk as (x & Hx & [= -> -> ->]). by exists x.
  - intros (x & Hx & <-). exists (x.1, f, i). split; [done|]. apply list_elem_of_filter. split; [done|].
    apply list_elem_of_lookup. exists i. by rewrite list_lookup_imap, Hx.
Qed.

(** One partition: its indices are consecutive and its keys increase. *)
Lemma members_canonical_run (pre a post : list T) previous :
  StronglySorted (λ x y, bytes_ltb (key x) (key y) = true) a →
  match previous, a with Some p, x :: _ => bytes_ltb p (key x) = true | _, _ => True end →
  members_canonical key (pre ++ a ++ post) (length pre) previous (seq (length pre) (length a))
  = Some (length pre + length a)%nat.
Proof.
  intros Hs. revert pre previous. induction Hs as [|x a Hs IH Hf]; intros pre previous Hp; simpl.
  { by rewrite Nat.add_0_r. }
  rewrite Nat.eqb_refl, lookup_app_r, Nat.sub_diag by lia. simpl.
  destruct previous as [p|]; [rewrite Hp|]; cbn [negb];
    (replace (pre ++ x :: a ++ post) with ((pre ++ [x]) ++ a ++ post) by (by rewrite <-app_assoc));
    (replace (S (length pre)) with (length (pre ++ [x])) by (rewrite length_app; simpl; lia));
    (rewrite IH; [f_equal; rewrite length_app; simpl; lia|]);
    (destruct a as [|y a]; [exact I|exact (Forall_inv Hf)]).
Qed.

Lemma find_members_omap (g : FactFamily → list nat) families f :
  f ∈ families → NoDup families →
  find_members f (omap (λ f, match g f with [] => None | l => Some (f, l) end) families)
  = match g f with [] => None | l => Some l end.
Proof.
  intros Hf Hnd. induction Hnd as [|f' families Hn _ IH]; [by apply not_elem_of_nil in Hf|].
  apply elem_of_cons in Hf as [<-|Hf].
  - cbn. destruct (g f) as [|i l] eqn:E; [|cbn; by rewrite decide_True].
    assert (∀ fs, f ∉ fs → find_members f (omap (λ f, match g f with [] => None | l => Some (f, l) end) fs) = None)
      as Hgo; [|by apply Hgo].
    intros fs. induction fs as [|f' fs IH']; [done|]. intros [Hne Hni]%not_elem_of_cons. cbn.
    destruct (g f'); [by apply IH'|]. cbn. rewrite decide_False by done. by apply IH'.
  - assert (f' ≠ f) by (intros ->; done). cbn. destruct (g f'); [by apply IH|]. cbn.
    rewrite decide_False by done. by apply IH.
Qed.

Lemma all_families_spec f : f ∈ all_families ∧ NoDup all_families.
Proof. split; [apply (bool_decide_unpack _); by destruct f|apply (bool_decide_unpack _); by vm_compute]. Qed.

Lemma find_members_partition m p f :
  find_members f (partition_members m p)
  = match indices m p f with [] => None | l => Some l end.
Proof. apply (find_members_omap (indices m p)); apply (all_families_spec f). Qed.

(** The records of the least partition come first. *)
Lemma partition_split p ps l :
  StronglySorted routed_lt l → Forall (λ q, partition_ltb p q = true) ps →
  (∀ x, x ∈ l → x.1 ∈ p :: ps) →
  ∃ a b, l = a ++ b ∧ Forall (λ x, x.1 = p) a ∧ Forall (λ x, x.1 ≠ p) b.
Proof.
  intros Hs Hf. induction Hs as [|x l _ IH Hx]; intros H; [by exists [], []|].
  destruct (decide (x.1 = p)) as [Hp|Hp].
  - destruct IH as (a & b & -> & Ha & Hb); [intros; apply H; by right|].
    exists (x :: a), b. split_and!; [done|by constructor|done].
  - exists [], (x :: l). split_and!; [done|constructor|constructor; [done|]].
    assert (partition_ltb p x.1 = true) as Hlt.
    { destruct (proj1 (elem_of_cons _ _ _) (H x ltac:(by left))) as [|Hin]; [done|].
      rewrite Forall_forall in Hf. by apply Hf. }
    eapply Forall_impl; [exact Hx|]. intros y [Hy|[Hy _]]%routed_lt_iff Hyp; subst.
    + by rewrite (ltb_asym partition_ltb _ _ Hlt) in Hy.
    + congruence.
Qed.

Lemma same_partition_keys p l :
  StronglySorted routed_lt l → Forall (λ x, x.1 = p) l →
  StronglySorted (λ x y, bytes_ltb (key x) (key y) = true) l.*2.
Proof.
  intros Hs. induction Hs as [|y l _ IH Hy]; intros Ha; cbn; [constructor|].
  apply Forall_cons in Ha as [Hyp Ha]. constructor; [by apply IH|].
  apply Forall_fmap. rewrite Forall_forall in Hy, Ha |- *. intros z Hz. cbn.
  destruct (proj1 (routed_lt_iff y z) (Hy z Hz)) as [Hlt|[_ ?]]; [|done].
  by rewrite Hyp, (Ha z Hz), ltb_irrefl in Hlt.
Qed.

Lemma partition_step p ps f n (records : list T) k :
  find_members f (fp_members p) = match seq n k with [] => None | l => Some l end →
  members_canonical key records n None (seq n k) = Some (n + k)%nat →
  partitions_canonical key records f n (p :: ps) = partitions_canonical key records f (n + k) ps.
Proof.
  intros Hf Hk. cbn [partitions_canonical]. rewrite Hf.
  destruct k as [|k]; [by rewrite Nat.add_0_r|]. cbn [seq] in *. by rewrite Hk.
Qed.

(** The partitions, taken in order, cover the family from left to right. *)
Lemma partitions_canonical_run f m ps l0 l1 :
  StronglySorted routed_lt (l0 ++ l1) →
  (∀ p, p ∈ ps → indices m p f = indices (log f 0 (l0 ++ l1)) p f) →
  StronglySorted (λ a b, partition_ltb a b = true) ps →
  (∀ x p, x ∈ l0 → p ∈ ps → x.1 ≠ p) → (∀ x, x ∈ l1 → x.1 ∈ ps) →
  partitions_canonical key (l0 ++ l1).*2 f (length l0)
    ((λ p, FilePartition p (partition_members m p)) <$> ps)
  = Some (length (l0 ++ l1)).
Proof.
  intros Hs Hm Hps. revert l0 l1 Hs Hm. induction Hps as [|p ps _ IH Hf]; intros l0 l1 Hs Hm H0 H1.
  { destruct l1 as [|x l1]; [by rewrite app_nil_r|].
    destruct (proj1 (elem_of_nil x.1)). apply H1. by left. }
  assert (StronglySorted routed_lt l1) as Hs1 by (by apply StronglySorted_app in Hs as (_ & _ & ?)).
  destruct (partition_split p ps l1 Hs1 Hf H1) as (a & b & -> & Ha & Hb).
  assert (StronglySorted routed_lt a) as Hsa by (by apply StronglySorted_app in Hs1 as (_ & ? & _)).
  assert (indices m p f = seq (length l0) (length a)) as Hi.
  { rewrite Hm by (by left). rewrite !log_app, !indices_app.
    rewrite log_none, log_all, log_none; [by rewrite app_nil_r|done|done|].
    apply Forall_forall. intros x Hx. apply H0; [done|by left]. }
  cbn [fmap list_fmap]. rewrite (partition_step _ _ _ _ _ (length a)).
  - rewrite <-length_app, app_assoc. apply IH.
    + by rewrite <-app_assoc.
    + intros q Hq. rewrite <-app_assoc. apply Hm. by right.
    + intros x q [Hx|Hx]%elem_of_app Hq; [apply H0; [done|by right]|].
      rewrite (proj1 (Forall_forall _ _) Ha x Hx). intros <-.
      apply (proj1 (Forall_forall _ _) Hf) in Hq. by rewrite ltb_irrefl in Hq.
    + intros x Hx. rewrite Forall_forall in Hb. assert (x ∈ a ++ b) as Hx1%H1 by (apply elem_of_app; by right).
      apply elem_of_cons in Hx1 as [|]; [by apply Hb in Hx|done].
  - cbn [fp_members]. by rewrite find_members_partition, Hi.
  - rewrite !fmap_app. rewrite <-(length_fmap snd l0), <-(length_fmap snd a).
    apply members_canonical_run; [by apply (same_partition_keys p)|done].
Qed.
End ordered.

(** ** The canonical batch *)

(** The memberships of each family. *)
Definition recorded_memberships (r : RecordedFacts) : list (FactFamily * Memberships) :=
  let family {T} f (key : T → bytes) l := (f, log f 0 (ordered key true l)) in
  [family fam_symbols symbol_record_key (rf_symbols r);
   family fam_declaration_sites declaration_site_key (rf_declaration_sites r);
   family fam_relations edge_record_key (rf_relations r);
   family fam_edge_sites edge_site_key (rf_edge_sites r);
   family fam_call_arguments call_arg_key (rf_call_args r);
   family fam_template_parameters template_param_key (rf_template_params r);
   family fam_template_arguments template_arg_key (rf_template_args r);
   family fam_types type_node_key (rf_type_nodes r);
   family fam_type_edges type_edge_key (rf_type_edges r);
   family fam_parameters parameter_key (rf_parameters r);
   family fam_symbol_types symbol_type_key (rf_symbol_types r);
   family fam_definitions definition_key (rf_definitions r);
   family fam_definition_edges definition_edge_key (rf_definition_edges r);
   family fam_includes include_key (rf_includes r);
   family fam_macros macro_key (rf_macros r);
   family fam_diagnostics diagnostic_key (rf_diagnostics r);
   family fam_evidence evidence_key (rf_evidence r);
   family fam_presentation_intents presentation_key (rf_presentation_intents r);
   family fam_lifecycle_cleanup cleanup_key (rf_lifecycle_cleanup r);
   family fam_applicability applicability_key (rf_applicability r)].

Lemma canonical_batch_partitions r :
  fb_partitions (canonical_batch r) = partitions_of (mjoin (recorded_memberships r).*2).
Proof. reflexivity. Qed.

Lemma recorded_family r f m e : (f, m) ∈ recorded_memberships r → e ∈ m → e.1.2 = f.
Proof.
  assert (∀ T (key : T → bytes) g n l e, e ∈ log g n (ordered key true l) → e.1.2 = g) as Hlog.
  { intros T key g n l e' (k & Hk)%list_elem_of_lookup. unfold log in Hk.
    rewrite list_lookup_imap in Hk. by apply fmap_Some in Hk as (x & _ & ->). }
  unfold recorded_memberships. rewrite !elem_of_cons, elem_of_nil.
  intros Hm He. repeat (destruct Hm as [Hm|Hm]; [simplify_eq; by eapply Hlog|]). done.
Qed.

Lemma indices_skip m p f : (∀ e, e ∈ m → e.1.2 ≠ f) → indices m p f = [].
Proof.
  intros H. unfold indices. induction m as [|e m IH]; [done|].
  rewrite filter_cons_False; [apply IH; intros; apply H; by right|].
  intros [_ ?]. by apply (H e); [left|].
Qed.

Lemma indices_family r f m p :
  (f, m) ∈ recorded_memberships r →
  indices (mjoin (recorded_memberships r).*2) p f = indices m p f.
Proof.
  assert (NoDup (recorded_memberships r).*1) as Hnd by (apply (bool_decide_unpack _); by vm_compute).
  pose proof (recorded_family r) as Hfam. revert Hnd Hfam.
  generalize (recorded_memberships r) as ms. intros ms Hnd Hfam Hin.
  induction ms as [|[g m'] ms IH]; [by apply elem_of_nil in Hin|].
  apply NoDup_cons in Hnd as [Hg Hnd].
  change (mjoin ((g, m') :: ms).*2) with (m' ++ mjoin ms.*2). rewrite indices_app.
  apply elem_of_cons in Hin as [[= <- <-]|Hin].
  - assert (indices (mjoin ms.*2) p f = []) as ->; [|by rewrite app_nil_r].
    apply indices_skip. intros e (m0 & He & Hm')%list_elem_of_join Hf.
    apply list_elem_of_fmap in Hm' as ([g m''] & -> & Hm'). apply Hg.
    assert (e.1.2 = g) as Hg' by (apply (Hfam g m''); [by right|done]).
    rewrite <-Hf, Hg'. apply list_elem_of_fmap. by exists (g, m'').
  - rewrite IH; [|done|intros g' m0 e Hm He; apply (Hfam g' m0); [by right|done]|done].
    rewrite (indices_skip m'); [done|]. intros e He Hf. apply Hg.
    assert (e.1.2 = g) as Hg' by (apply (Hfam g m'); [by left|done]).
    rewrite <-Hg', Hf. apply list_elem_of_fmap. by exists (f, m).
Qed.

Section family_canonical.
Context {T : Type} (key : T → bytes) (f : FactFamily) (l : list (Routed T)) (r : RecordedFacts).
Hypothesis Hl : (f, log f 0 (ordered key true l)) ∈ recorded_memberships r.

Let memberships := mjoin (recorded_memberships r).*2.

Lemma family_recorded x : x ∈ ordered key true l → x.1 ∈ partition_keys memberships.
Proof.
  intros (i & Hi)%list_elem_of_lookup. unfold partition_keys. apply elem_of_sort_unique.
  apply list_elem_of_fmap. exists (x.1, f, i). split; [done|]. apply list_elem_of_join.
  exists (log f 0 (ordered key true l)). split.
  - apply list_elem_of_lookup. exists i. unfold log. by rewrite list_lookup_imap, Hi.
  - apply list_elem_of_fmap. by exists (f, log f 0 (ordered key true l)).
Qed.

Lemma family_canonical :
  family_is_canonical key (ordered key true l).*2 (fb_partitions (canonical_batch r)) f = true.
Proof.
  rewrite canonical_batch_partitions. unfold family_is_canonical, partitions_of.
  rewrite (partitions_canonical_run key f _ _ [] (ordered key true l)).
  - by rewrite length_fmap, Nat.eqb_refl.
  - apply ordered_strict.
  - intros p _. by apply indices_family.
  - by apply (sort_unique_strict partition_ltb).
  - intros x p Hx. by apply elem_of_nil in Hx.
  - apply family_recorded.
Qed.

Lemma family_owned (record_partition : T → FactPartitionKey) :
  Forall (λ item, record_partition item.2 = item.1) l →
  family_ownership_is_canonical (ordered key true l).*2 (fb_partitions (canonical_batch r)) f
    record_partition = true.
Proof.
  intros Hown. rewrite canonical_batch_partitions. unfold family_ownership_is_canonical.
  apply Is_true_true, forallb_True, Forall_fmap, Forall_true. intros p. cbn [fp_members fp_key compose].
  rewrite find_members_partition, (indices_family _ _ _ _ Hl).
  assert (∀ i, i ∈ indices (log f 0 (ordered key true l)) p f →
    match (ordered key true l).*2 !! i with
    | Some record => bool_decide (record_partition record = p)
    | None => false
    end) as Hok.
  { intros i (x & Hx & <-)%elem_of_indices. rewrite list_lookup_fmap, Hx. cbn.
    apply bool_decide_pack, (proj1 (Forall_forall _ _) Hown), (elem_of_ordered key).
    apply list_elem_of_lookup. by exists i. }
  destruct (indices _ p f) as [|i l']; [done|]. apply forallb_True, Forall_forall. exact Hok.
Qed.
End family_canonical.

Lemma partitions_ordered ps :
  StronglySorted (λ a b, partition_ltb a b = true) (fp_key <$> ps) →
  partitions_are_strictly_ordered ps = true.
Proof.
  induction ps as [|p ps IH]; [done|]. cbn. intros [Hp Hs]%StronglySorted_cons.
  apply IH in Hs. destruct ps as [|q ps]; [done|]. cbn in Hp. apply Forall_cons in Hp as [Hp _].
  rewrite Hp. exact Hs.
Qed.

(** *** The symbol order *)

Lemma group_scan_run natural (i : N) minimum es rest :
  Forall (λ m, symbol_string (se_symbol m) = natural) es →
  match rest with m :: _ => symbol_string (se_symbol m) ≠ natural | [] => True end →
  group_scan natural i minimum (imap (λ k, renumber (N.to_nat i + k)) es ++ rest)
  = Some (foldl min_file minimum (file_order <$> es), rest).
Proof.
  intros He Hr. revert i minimum. induction He as [|e es He _ IH]; intros i minimum.
  - cbn. destruct rest as [|m rest]; [done|]. cbn. by rewrite decide_False.
  - cbn [imap]. cbn -[N.add N.to_nat Nat.add]. rewrite decide_True by done.
    rewrite Nat.add_0_r, N2Nat.id, N.eqb_refl. cbn -[N.add N.to_nat Nat.add].
    etrans; [|apply (IH (i + 1)%N)]. f_equal. f_equal. apply imap_ext. intros k x _. simpl.
    f_equal. lia.
Qed.

Abbreviation Group := (GroupOrder * list SymbolEmissionMetadata)%type.

Definition good_group (g : Group) : Prop :=
  g.2 ≠ [] ∧ Forall (λ m, symbol_string (se_symbol m) = g.1.2) g.2 ∧ g.1 = group_order g.1.2 g.2.

#[export] Instance group_order_ltb : LtbOrder group_ltb.
Proof. unfold group_ltb, files_ltb. apply _. Qed.

Definition emitted (gs : list Group) : list SymbolEmissionMetadata :=
  mjoin ((λ group, imap renumber group.2) <$> gs).

Lemma emitted_head n gs :
  Forall good_group gs → n ∉ (λ g : Group, g.1.2) <$> gs →
  match emitted gs with m :: _ => symbol_string (se_symbol m) ≠ n | [] => True end.
Proof.
  destruct gs as [|g gs]; [done|]. intros [(Hne & Hs & _) _]%Forall_cons [Hn _]%not_elem_of_cons.
  unfold emitted. cbn. destruct g as [o [|e es]]; [done|]. cbn. apply Forall_cons in Hs as [He _]. cbn in He.
  by rewrite He.
Qed.

Lemma order_scan_run gs fuel seen previous :
  Forall good_group gs → StronglySorted (λ a b, group_ltb a.1 b.1 = true) gs →
  NoDup ((λ g : Group, g.1.2) <$> gs) → (∀ g, g ∈ gs → g.1.2 ∉ seen) →
  match previous, gs with Some p, g :: _ => group_ltb p g.1 = true | _, _ => True end →
  (length gs ≤ fuel)%nat → order_scan fuel seen previous (emitted gs) = true.
Proof.
  revert fuel seen previous. induction gs as [|g gs IH]; intros fuel seen previous Hg Hs Hnd Hseen Hp Hf.
  { by destruct fuel. }
  destruct fuel as [|fuel]; [cbn in Hf; lia|].
  apply Forall_cons in Hg as [(Hne & Hsym & Ho) Hg]. apply NoDup_cons in Hnd as [Hn Hnd].
  apply StronglySorted_cons in Hs as [Hlt Hs].
  pose proof (emitted_head _ gs Hg Hn) as Hrest.
  change (emitted (g :: gs)) with (imap renumber g.2 ++ emitted gs).
  destruct g as [[o n] es]. cbn [fst snd] in *. destruct es as [|e es]; [done|].
  pose proof (group_scan_run n 0 (file_order e) (e :: es) (emitted gs) Hsym Hrest) as Hscan.
  change (λ k : nat, renumber (N.to_nat 0 + k)) with renumber in Hscan.
  apply Forall_cons in Hsym as [He _]. cbn [imap app] in *. cbn [order_scan].
  change (symbol_string (se_symbol (renumber 0 e))) with (symbol_string (se_symbol e)).
  change (file_order (renumber 0 e)) with (file_order e). rewrite He.
  rewrite decide_False by (apply (Hseen (o, n, e :: es)); by left). rewrite Hscan. cbn [fmap list_fmap foldl].
  assert (min_file (file_order e) (file_order e) = file_order e) as ->.
  { unfold min_file. by rewrite ltb_irrefl. }
  assert ((foldl min_file (file_order e) (file_order <$> es), n) = (o, n)) as ->.
  { unfold group_order in Ho. cbn in Ho. by rewrite Ho. }
  assert (match previous with Some p => negb (group_ltb p (o, n)) | None => false end = false) as ->.
  { destruct previous as [p|]; [|done]. cbn in Hp. by rewrite Hp. }
  apply IH; try done.
  - intros g' Hg' [Hin|Hin]%elem_of_union; [|by apply (Hseen g'); [right|]].
    apply elem_of_singleton in Hin. apply Hn. rewrite <-Hin. apply list_elem_of_fmap. by exists g'.
  - destruct gs as [|g' gs]; [done|]. by apply Forall_cons in Hlt as [? _].
  - cbn in Hf. lia.
Qed.

Lemma merge_sort_strict (gs : list Group) :
  NoDup (fst <$> gs) → StronglySorted (λ a b, group_ltb a.1 b.1 = true) (merge_sort group_le gs).
Proof. by apply (merge_sort_keys fst group_ltb). Qed.

Lemma good_groups emissions natural :
  natural ∈ (λ m, symbol_string (se_symbol m)) <$> emissions →
  good_group (group_order natural (group_entries natural emissions), group_entries natural emissions).
Proof.
  intros (m & -> & Hm)%list_elem_of_fmap. split_and!; cbn [fst snd group_order]; [|..|done].
  - intros Hnil. apply (proj1 (elem_of_nil m)). rewrite <-Hnil. unfold group_entries.
    rewrite merge_sort_Permutation. by apply list_elem_of_filter.
  - unfold group_entries. rewrite merge_sort_Permutation. apply Forall_forall.
    by intros m' [? _]%list_elem_of_filter.
Qed.

Lemma emitted_length gs : Forall good_group gs → (length gs ≤ length (emitted gs))%nat.
Proof.
  induction 1 as [|g gs (Hne & _) _ IH]; [done|].
  change (emitted (g :: gs)) with (imap renumber g.2 ++ emitted gs).
  rewrite length_app, length_imap. destruct g as [o [|e es]]; [done|]. cbn [length snd]. lia.
Qed.

Lemma symbol_order_canonical emissions :
  symbol_order_is_canonical (canonical_symbol_order emissions) = true.
Proof.
  unfold canonical_symbol_order. set (naturals := sort_unique _ _). set (groups := _ <$> naturals).
  assert ((λ g : Group, g.1.2) <$> groups = naturals) as Hnat.
  { unfold groups. rewrite <-list_fmap_compose. apply list_fmap_id. }
  assert (NoDup naturals) as Hnd by (by apply (NoDup_sort_unique bytes_ltb)).
  assert (Forall good_group groups) as Hgood.
  { apply Forall_fmap, Forall_forall. intros n Hn. apply good_groups.
    exact (proj1 (elem_of_sort_unique bytes_ltb n _) Hn). }
  assert (NoDup (fst <$> groups)) as Hnd1.
  { apply (NoDup_fmap_1 snd). rewrite <-list_fmap_compose. by rewrite <-Hnat in Hnd. }
  change (mjoin _) with (emitted (merge_sort group_le groups)).
  assert (Forall good_group (merge_sort group_le groups)) as Hgood' by (by rewrite merge_sort_Permutation).
  apply order_scan_run; [done|by apply merge_sort_strict|..|done|by apply emitted_length].
  - rewrite merge_sort_Permutation. by rewrite Hnat.
  - intros g _. apply not_elem_of_empty.
Qed.

(** *** File handles *)

Lemma free_handle_delete fuel h k (m : gmap Z FactPartitionKey) :
  h < k → free_handle fuel h (delete k m) = free_handle fuel h m.
Proof.
  revert h. induction fuel as [|fuel IH]; intros h Hlt; [done|]. cbn.
  rewrite lookup_delete_ne by lia. rewrite IH by lia. done.
Qed.

(** The search for a free handle ends: there are more candidates than handles. *)
Lemma free_handle_fresh fuel h (m : gmap Z FactPartitionKey) :
  (size m < fuel)%nat → m !! free_handle fuel h m = None.
Proof.
  revert h m. induction fuel as [|fuel IH]; intros h m Hs; [lia|]. cbn.
  destruct (decide (is_Some (m !! h))) as [Hh|Hh]; [|by apply eq_None_not_Some].
  assert (size (delete h m) < fuel)%nat as Hd.
  { rewrite map_size_delete_Some by done. destruct Hh as [v Hv].
    assert (size m ≠ 0%nat) by (intros ->%map_size_empty_inv; by rewrite lookup_empty in Hv). lia. }
  specialize (IH (h - 1) _ Hd). rewrite free_handle_delete in IH by lia.
  destruct (decide (free_handle fuel (h - 1) m = h)) as [He|Hne]; [|by rewrite lookup_delete_ne in IH].
  assert (∀ n k, free_handle n k m ≤ k) as Hle; [|specialize (Hle fuel (h - 1)); lia].
  induction n as [|n IHn]; intros k; cbn; [lia|]. case_decide; [|lia]. specialize (IHn (k - 1)). lia.
Qed.

Lemma register_partition_ok m p :
  m ⊆ register_partition m p ∧ ∃ h, register_partition m p !! h = Some p.
Proof.
  unfold register_partition. destruct (existsb _ _) eqn:E.
  - split; [done|]. apply existsb_exists in E as ([h q] & Hin & Hq%bool_decide_eq_true). cbn in Hq. subst.
    exists h. apply elem_of_map_to_list. by apply list_elem_of_In.
  - split; [apply insert_subseteq, free_handle_fresh; lia|eexists; apply lookup_insert_eq].
Qed.

(** Every partition of a batch has a file handle, and the handles of the files that
    were recorded keep their meaning. *)
Lemma partitions_have_handles (canonical : bool) (r : RecordedFacts) :
  rf_partitions_by_file_handle r ⊆ fb_file_keys (build_batch canonical r) ∧
  ∀ partition, partition ∈ fb_partitions (build_batch canonical r) →
    ∃ handle, fb_file_keys (build_batch canonical r) !! handle = Some (fp_key partition).
Proof.
  assert (∀ ps m, m ⊆ foldl register_partition m ps ∧
    ∀ p, p ∈ ps → ∃ h, foldl register_partition m ps !! h = Some p) as Hgo.
  { induction ps as [|p ps IH]; intros m; [split; [done|by intros p ?%elem_of_nil]|]. cbn.
    destruct (register_partition_ok m p) as [Hm (h & Hh)].
    destruct (IH (register_partition m p)) as [Hsub Hps]. split; [by etrans|].
    intros q [->|Hq]%elem_of_cons; [|by apply Hps]. exists h. by eapply lookup_weaken. }
  unfold build_batch. destruct canonical; cbn [append_records fb_file_keys fb_partitions];
    (split; [apply Hgo|]); unfold partitions_of; intros partition (p & -> & Hp)%list_elem_of_fmap; by apply Hgo.
Qed.

(** *** Nothing is lost *)

(** The records of a canonical family: strictly sorted, one for each partition and
    key that was recorded, and the same for recordings of the same records. *)
Lemma append_records_exact {T} (key : T → bytes) l :
  StronglySorted (routed_lt key) (ordered key true l) ∧
  (∀ x, x ∈ ordered key true l → x ∈ l) ∧
  (∀ x, x ∈ l → ∃ y, y ∈ ordered key true l ∧ y.1 = x.1 ∧ key y.2 = key x.2).
Proof.
  split_and!; [apply ordered_strict|apply elem_of_ordered|].
  intros x Hx. destruct (unique_by_key (routed_key key) (merge_sort (ltb_le (routed_ltb key)) l) x)
    as (y & Hy & Hk); [by rewrite merge_sort_Permutation|].
  exists y. unfold routed_key in Hk. split; [done|]. by simplify_eq.
Qed.

Lemma ordered_NoDup {T} (key : T → bytes) l : NoDup (ordered key true l).
Proof.
  apply (NoDup_fmap_1 (routed_key key)), (strict_NoDup (pair_ltb partition_ltb bytes_ltb)).
  apply (strict_keys (routed_key key)), ordered_strict.
Qed.

Lemma ordered_proper {T} (key : T → bytes) l l' :
  (∀ x, x ∈ l ↔ x ∈ l') →
  (∀ x y, x ∈ l → y ∈ l → routed_key key x = routed_key key y → x = y) →
  ordered key true l = ordered key true l'.
Proof.
  intros Heq Hinj.
  assert (∀ x l, (∀ x y, x ∈ l → y ∈ l → routed_key key x = routed_key key y → x = y) →
    x ∈ ordered key true l ↔ x ∈ l) as Helem.
  { intros x l0 Hi. destruct (append_records_exact key l0) as (_ & Hin & Hall). split; [apply Hin|].
    intros Hx. destruct (Hall x Hx) as (y & Hy & Hp & Hk). rewrite (Hi x y Hx (Hin y Hy)); [done|].
    unfold routed_key. by rewrite Hp, Hk. }
  apply (strict_keys_unique (routed_key key) (pair_ltb partition_ltb bytes_ltb)); [apply ordered_strict..|].
  apply NoDup_Permutation; [apply ordered_NoDup..|]. intros x.
  rewrite !Helem, Heq; [done|intros y z Hy Hz; apply Hinj; by apply Heq|done].
Qed.

(** *** The property *)

(** The records that name their partition were recorded in it. *)
Definition routed_by_field (r : RecordedFacts) : Prop :=
  Forall (λ item, ds_partition item.2 = item.1) (rf_declaration_sites r) ∧
  Forall (λ item, id_partition item.2 = item.1) (rf_includes r) ∧
  Forall (λ item, mu_partition item.2 = item.1) (rf_macros r) ∧
  Forall (λ item, dg_partition item.2 = item.1) (rf_diagnostics r) ∧
  Forall (λ item, lc_partition item.2 = item.1) (rf_lifecycle_cleanup r) ∧
  Forall (λ item, ap_partition item.2 = item.1) (rf_applicability r).

(** The family is one of the listed ones. *)
Ltac find_family := unfold recorded_memberships; repeat first [left; reflexivity | right].

(** A canonical batch has the canonical layout: every family is cut into runs
    of consecutive indices, one per partition, in partition order and strictly
    increasing in the key of the records; the records that name a partition are
    listed under it; the symbol emissions are grouped by identity, numbered from
    zero and ordered by file. *)
Theorem canonical_batch_layout (r : RecordedFacts) :
  routed_by_field r → is_canonical (canonical_batch r) = true.
Proof.
  intros (Hds & Hid & Hmu & Hdg & Hlc & Hap). unfold is_canonical, has_canonical_layout.
  rewrite !andb_true_iff. split_and!;
    first [reflexivity | apply symbol_order_canonical
          | apply family_canonical; find_family | apply family_owned; [find_family|done] | idtac].
  rewrite canonical_batch_partitions. apply partitions_ordered. unfold partitions_of.
  rewrite <-list_fmap_compose, list_fmap_id. by apply (sort_unique_strict partition_ltb).
Qed.

(** The families of [build_batch] that no ordering of records touches. *)
Lemma build_batch_order canonical (r : RecordedFacts) :
  fr_symbol_order (fb_records (build_batch canonical r))
  = if canonical then canonical_symbol_order (rf_symbol_order r) else rf_symbol_order r.
Proof. done. Qed.

Lemma build_batch_pending canonical (r : RecordedFacts) :
  fb_pending_symbol_references (build_batch canonical r)
  = if canonical then sort pending_ltb (rf_pending_symbol_references r) else rf_pending_symbol_references r.
Proof. done. Qed.

Lemma build_batch_completeness canonical (r : RecordedFacts) :
  fb_completeness (build_batch canonical r) = rf_completeness r.
Proof. done. Qed.

(** *** A sample recording *)

Definition sample_partition (file : bytes) : FactPartitionKey :=
  PartitionKey (FileIdentity [] (bs "src") file)
    (MkConfiguration (bs "u") [] (bs "c++20") [] (ConfigurationContent None None [] None None)).

Definition sample_macro (file name : bytes) : Routed MacroUseRecord :=
  (sample_partition file,
   MacroUseRec (sample_partition file) (FileIdentity [] (bs "src") file) None [] name 1).

Definition sample_emission (file usr : bytes) (seen : N) : SymbolEmissionMetadata :=
  EmissionMetadata (SymbolKey (sample_partition file) usr None None)
    (ApplyOrder [] (bs "src") file seen seen) usr seen seen.

(** Two files; a macro recorded twice; emissions out of order. *)
Definition sample_recording : RecordedFacts :=
  Recorded (bs "clang") complete [] [] [] [] [] [] [] [] [] [] [] [] []  []
    [sample_macro (bs "b.cpp") (bs "M"); sample_macro (bs "a.cpp") (bs "N");
     sample_macro (bs "b.cpp") (bs "A"); sample_macro (bs "b.cpp") (bs "M")]
    [] [] [] [] []
    [sample_emission (bs "b.cpp") (bs "f") 7; sample_emission (bs "a.cpp") (bs "g") 3;
     sample_emission (bs "b.cpp") (bs "f") 2]
    ∅ ∅ ∅ ∅ {[ 5 := sample_partition (bs "b.cpp") ]} [].

Lemma canonical_batch_layout_sample :
  is_canonical (canonical_batch sample_recording) = true ∧
  mu_name <$> fr_macros (fb_records (canonical_batch sample_recording)) = [bs "N"; bs "A"; bs "M"] ∧
  has_canonical_layout (snapshot sample_recording) = false.
Proof.
  split_and!; [|by vm_compute..]. apply canonical_batch_layout.
  repeat split; repeat constructor.
Defined.
