(* ===== verification/FactMaps.v ===== *)
(** * The wire format of fact batches: maps, partitions and artifact information

    The readers of [src/src/ast/fact_batch_artifact.cpp] that require increasing
    keys: [read_string_map], [read_file_map], [read_pending_references],
    [read_partition] and [read_info].  They accept one text of each collection,
    so that the laws of [FactWire] hold of them too.

    A [std::map] of handles is a [gmap]; its elements in key order are
    [map_entries]. *)

From S2P Require Export FactCodec FactBatch.
Open Scope Z_scope.
Open Scope wire_scope.

(** ** Loops over increasing keys *)

Section items.
Context {K V : Type} (increasing : K → K → bool) (message : bytes).
Context (read_key : reader K) (read_value : reader V).

Definition refused (previous : option K) (key : K) : bool :=
  match previous with Some p => negb (increasing p key) | None => false end.

Fixpoint read_items (n : nat) (previous : option K) : reader (list (K * V)) :=
  match n with
  | O => ret []
  | S n =>
      let? key := read_key in
      if refused previous key then stop corrupt message
      else
        let? value := read_value in
        let? rest := read_items n (Some key) in
        ret ((key, value) :: rest)
  end.
End items.

(** ** Maps of handles *)

(** The elements of a [std::map] in iteration order. *)
Definition map_entries {V} (m : gmap Z V) : list (Z * V) := sorted_entries Z.ltb m.

Definition write_map {V} (write : V → bytes) (values : gmap Z V) : bytes :=
  write_u64 (N.of_nat (size values))
  ++ mjoin ((λ entry, write_i64 entry.1 ++ write entry.2) <$> map_entries values).

Definition write_string_map : gmap Z bytes → bytes := write_map write_string.
Definition write_file_map : gmap Z FactPartitionKey → bytes := write_map write_partition_key.

(** ** Deferred references *)

Definition write_pending_reference (r : PendingSymbolReference) : bytes :=
  write_i64 (ps_handle r) ++ write_string (ps_usr r) ++ write_string (ps_identity_source r)
  ++ write_string (ps_semantic_universe r) ++ write_string (ps_translation_unit r).

Definition write_pending_references (references : list PendingSymbolReference) : bytes :=
  write_vector write_pending_reference references.

(** ** Partitions *)

Definition write_index (member : nat) : bytes := write_u64 (N.of_nat member).

Definition write_members (entry : FactFamily * list nat) : bytes :=
  write_enum entry.1 ++ write_vector write_index entry.2.

Definition write_partition (partition : FileFactPartition) : bytes :=
  write_partition_key (fp_key partition) ++ write_vector write_members (fp_members partition).

Definition write_partitions (partitions : list FileFactPartition) : bytes :=
  write_vector write_partition partitions.

(** ** Artifact information *)

(** [std::uint32_t]. *)
Record c_uint := CUint { uint_value : N }.

#[export] Instance c_uint_eq_dec : EqDecision c_uint.
Proof. solve_decision. Defined.

Definition kFactBatchArtifactWireVersion : c_uint := CUint 3.

Record FactBatchArtifactMetadata := ArtifactMetadata {
  am_pass_version : c_uint;
  am_extractor_version : c_uint;
  am_storage_schema_version : c_uint;
  am_catalog_version : Z;
  am_catalog_hash : bytes;
  am_trust : FactTrust;
  am_truncated : bool;
  am_dependency_identities : list bytes
}.

Record FactBatchArtifactInfo := ArtifactInfo {
  ai_wire_version : c_uint;
  ai_producer : bytes;
  ai_producer_version : c_uint;
  ai_pass_version : c_uint;
  ai_extractor_version : c_uint;
  ai_storage_schema_version : c_uint;
  ai_catalog_version : Z;
  ai_catalog_hash : bytes;
  ai_completeness : FactCompleteness;
  ai_trust : FactTrust;
  ai_truncated : bool;
  ai_dependency_identities : list bytes;
  ai_content_digest : bytes;
  ai_byte_size : N
}.

Definition canonical_dependencies (dependencies : list bytes) : list bytes :=
  sort_unique bytes_ltb dependencies.

Definition write_uint (value : c_uint) : bytes := write_u32 (uint_value value).

Definition write_info (batch : FactBatch) (metadata : FactBatchArtifactMetadata) : bytes :=
  write_uint kFactBatchArtifactWireVersion ++ write_string (fb_producer batch)
  ++ write_uint (CUint (fb_producer_version batch)) ++ write_uint (am_pass_version metadata)
  ++ write_uint (am_extractor_version metadata) ++ write_uint (am_storage_schema_version metadata)
  ++ write_i64 (am_catalog_version metadata) ++ write_string (am_catalog_hash metadata)
  ++ write_enum (fb_completeness batch) ++ write_enum (am_trust metadata)
  ++ write_bool (am_truncated metadata)
  ++ write_vector write_string (canonical_dependencies (am_dependency_identities metadata)).

(** [std::ranges::is_sorted] and [std::ranges::adjacent_find]. *)
Fixpoint is_sorted (l : list bytes) : bool :=
  match l with
  | a :: (b :: _) as l' => negb (bytes_ltb b a) && is_sorted l'
  | _ => true
  end.

Fixpoint has_adjacent_equal (l : list bytes) : bool :=
  match l with
  | a :: (b :: _) as l' => bool_decide (a = b) || has_adjacent_equal l'
  | _ => false
  end.

(** ** Readers *)

Section readers.
Variable limits : FactBatchArtifactDecodeLimits.

Definition read_map {V} (message : bytes) (read : reader V) : reader (gmap Z V) :=
  let? entries :=
    (let? count := read_count limits in
     read_items Z.ltb message read_i64 read (N.to_nat count) None) in
  ret (list_to_map entries).

Definition read_string_map : reader (gmap Z bytes) :=
  read_map (bs "FactBatch artifact handle keys are not canonically ordered") (read_string limits).

Definition read_file_map : reader (gmap Z FactPartitionKey) :=
  read_map (bs "FactBatch file handle keys are not canonically ordered") (read_partition_key limits).

Definition read_pending_reference : reader PendingSymbolReference :=
  let? ps_handle := read_i64 in
  let? ps_usr := read_string limits in
  let? ps_identity_source := read_string limits in
  let? ps_semantic_universe := read_string limits in
  let? ps_translation_unit := read_string limits in
  ret (PendingReference ps_handle ps_usr ps_identity_source ps_semantic_universe ps_translation_unit).

(** A reference is compared with [references.back()] once it is read. *)
Definition read_pending_references : reader (list PendingSymbolReference) :=
  let? items :=
    (let? count := read_count limits in
     read_items pending_ltb
       (bs "FactBatch deferred symbol references are not canonically ordered")
       read_pending_reference (ret tt) (N.to_nat count) None) in
  ret items.*1.

(** [std::size_t] is [std::uint64_t]. *)
Definition read_index : reader nat := let? member := read_u64 in ret (N.to_nat member).

Definition read_partition_members : reader (list nat) := read_vector limits read_index.

Definition family_ltb (a b : FactFamily) : bool := (to_underlying a <? to_underlying b)%N.

Definition read_partition : reader FileFactPartition :=
  let? key := read_partition_key limits in
  let? members :=
    (let? family_count := read_count limits in
     read_items family_ltb (bs "FactBatch partition families are not canonically ordered")
       (read_enum (bs "fact family")) read_partition_members (N.to_nat family_count) None) in
  ret (FilePartition key members).

Definition read_partitions : reader (list FileFactPartition) := read_vector limits read_partition.

Definition read_uint : reader c_uint := let? n := read_u32 in ret (CUint n).

Definition read_info_fields : reader FactBatchArtifactInfo :=
  let? ai_wire_version := read_uint in
  let? ai_producer := read_string limits in
  let? ai_producer_version := read_uint in
  let? ai_pass_version := read_uint in
  let? ai_extractor_version := read_uint in
  let? ai_storage_schema_version := read_uint in
  let? ai_catalog_version := read_i64 in
  let? ai_catalog_hash := read_string limits in
  let? ai_completeness := read_enum (bs "artifact completeness") in
  let? ai_trust := read_enum (bs "artifact trust") in
  let? ai_truncated := read_bool in
  let? ai_dependency_identities := read_vector limits (read_string limits) in
  ret (ArtifactInfo ai_wire_version ai_producer ai_producer_version ai_pass_version
         ai_extractor_version ai_storage_schema_version ai_catalog_version ai_catalog_hash
         ai_completeness ai_trust ai_truncated ai_dependency_identities [] 0).

Definition read_info : reader FactBatchArtifactInfo :=
  let? info := read_info_fields in
  if negb (is_sorted (ai_dependency_identities info))
     || has_adjacent_equal (ai_dependency_identities info)
  then stop corrupt (bs "FactBatch dependency identities are not canonical")
  else ret info.
End readers.

(** ** The laws of the loops *)

#[export] Instance unit_sized : Sized unit := {| fits _ _ := True; entries _ := 0%N |}.

Section items_laws.
Context (limits : FactBatchArtifactDecodeLimits).
Context `{Sized K, Sized V} (increasing : K → K → bool) (message : bytes).
Context (wk : K → bytes) (rk : reader K) (wv : V → bytes) (rv : reader V).
Hypothesis increasing_trans : ∀ a b c, increasing a b = true → increasing b c = true → increasing a c = true.
Hypothesis Hk : codec limits wk rk.
Hypothesis value_reads : ∀ v t tot,
  fits limits v → (tot + entries v ≤ max_total_entries limits)%N →
  rv (In (wv v ++ t) tot) = Good (v, In t (tot + entries v)%N).
Hypothesis value_reads_only : ∀ s tot v i,
  rv (In s tot) = Good (v, i) →
  fits limits v ∧ s = wv v ++ unread i ∧ total_entries i = (tot + entries v)%N
  ∧ ((tot ≤ max_total_entries limits)%N → (total_entries i ≤ max_total_entries limits)%N).

Definition write_item (item : K * V) : bytes := wk item.1 ++ wv item.2.

Definition increasing_keys (l : list (K * V)) : Prop := StronglySorted (key_lt fst increasing) l.

Definition after (previous : option K) (l : list (K * V)) : Prop :=
  match previous with Some p => Forall (λ item, increasing p item.1 = true) l | None => True end.

Lemma write_item_some l : (length l ≤ length (mjoin (write_item <$> l)))%nat.
Proof.
  apply mjoin_length. intros [k v]. unfold write_item. rewrite length_app. cbn [fst].
  pose proof (codec_some _ _ _ _ _ Hk k). lia.
Qed.

Lemma items_reads l previous t tot :
  Forall (fits limits) l → increasing_keys l → after previous l →
  (tot + total_of l ≤ max_total_entries limits)%N →
  read_items increasing message rk rv (length l) previous (In (mjoin (write_item <$> l) ++ t) tot)
  = Good (l, In t (tot + total_of l)%N).
Proof.
  intros Hf. revert previous tot. induction Hf as [|[k v] l Hkv _ IH]; intros previous tot Hs Hp Ht.
  { cbn. unfold ret. by rewrite N.add_0_r. }
  rewrite fits_pair in Hkv. destruct Hkv as [Hkf Hvf].
  apply StronglySorted_cons in Hs as [Hlt Hs].
  rewrite total_of_cons, entries_pair in *. rewrite mjoin_cons. unfold write_item at 1.
  rewrite <-!app_assoc. cbn [length read_items fst snd].
  eapply (codec_step limits); [exact Hk|exact Hkf|lia|].
  assert (refused increasing previous k = false) as ->.
  { destruct previous as [p|]; [|done]. apply Forall_cons in Hp as [Hp _]. cbn in *. by rewrite Hp. }
  unfold bind at 1. rewrite value_reads by (done || lia).
  unfold bind at 1. rewrite IH; [|done|exact Hlt|lia].
  unfold ret. do 3 f_equal. lia.
Qed.

Lemma items_reads_only n previous s tot l i :
  read_items increasing message rk rv n previous (In s tot) = Good (l, i) →
  length l = n ∧ Forall (fits limits) l ∧ increasing_keys l ∧ after previous l
  ∧ s = mjoin (write_item <$> l) ++ unread i ∧ total_entries i = (tot + total_of l)%N
  ∧ ((tot ≤ max_total_entries limits)%N → (total_entries i ≤ max_total_entries limits)%N).
Proof.
  revert previous s tot l. induction n as [|n IH]; intros previous s tot l; cbn [read_items].
  { intros [= <- <-]. cbn. rewrite N.add_0_r. split_and!; [done|constructor|constructor|by destruct previous; constructor|done..|auto]. }
  intros (k & t & Hkf & -> & H1 & Hm)%(codec_accept limits _ _ _ _ _ _ _ Hk).
  destruct (refused increasing previous k) eqn:Hr; [done|]. unfold bind at 1 in H1.
  destruct (rv _) as [[v [t' tot']]|] eqn:Hv; [|done].
  apply value_reads_only in Hv as (Hvf & -> & Htot & Hm'). cbn [unread total_entries] in *.
  unfold bind in H1. destruct (read_items _ _ _ _ n _ _) as [[l' i']|] eqn:Hl; [|done].
  injection H1 as <- <-. apply IH in Hl as (<- & Hf & Hs & Ha & -> & Ht & Hm'').
  rewrite mjoin_cons, total_of_cons, entries_pair. unfold write_item at 2. rewrite <-!app_assoc.
  split_and!; [done|constructor; [by rewrite fits_pair|done]|by constructor| |done|lia|auto].
  destruct previous as [p|]; [|done]. cbn in Hr. apply negb_false_iff in Hr.
  constructor; [done|]. eapply Forall_impl; [exact Ha|]. intros item Hi. by eapply increasing_trans.
Qed.

Lemma codec_items :
  codec_with limits (λ l : list (K * V), fits limits l ∧ increasing_keys l) entries
    (write_vector write_item)
    (let? count := read_count limits in
     read_items increasing message rk rv (N.to_nat count) None).
Proof.
  split.
  - intros l. unfold write_vector, write_size. rewrite length_app. cbn. lia.
  - intros l t tot [(Hl & Hm & Hb) Hs] Ht. unfold write_vector, write_size.
    change (entries l) with (N.of_nat (length l) + total_of l)%N in *.
    rewrite <-app_assoc. unfold bind at 1. pose proof (write_item_some l).
    rewrite count_reads by (rewrite ?length_app; lia). rewrite Nat2N.id.
    rewrite items_reads by (done || lia). do 3 f_equal. lia.
  - intros s tot l i H1. unfold bind at 1 in H1.
    destruct (read_count _ _) as [[n [t tot']]|] eqn:Hn; [|done].
    apply count_reads_only in Hn as (-> & Htot & ? & ? & ?). cbn [unread total_entries] in *. subst tot'.
    apply items_reads_only in H1 as (Hl & Hf & Hs & _ & -> & Ht & Hm').
    change (entries l) with (N.of_nat (length l) + total_of l)%N in *. unfold write_vector, write_size.
    replace (N.of_nat (length l)) with n by lia. rewrite <-app_assoc.
    split_and!; [|done|done|lia|intros; lia].
    change (Forall (fits limits) l ∧ (N.of_nat (length l) ≤ max_collection_entries limits)%N
      ∧ (N.of_nat (length l) < 2 ^ 64)%N). split_and!; [done|lia|lia].
Qed.
End items_laws.

(** The value reader of a codec. *)
Lemma codec_items_value `{Sized K, Sized V} limits increasing message wk rk wv rv :
  (∀ a b c : K, increasing a b = true → increasing b c = true → increasing a c = true) →
  codec limits wk rk → codec (A := V) limits wv rv →
  codec_with limits (λ l : list (K * V), fits limits l ∧ increasing_keys increasing l) entries
    (write_vector (write_item wk wv))
    (let? count := read_count limits in
     read_items increasing message rk rv (N.to_nat count) None).
Proof.
  intros Htr Hk Hv. apply codec_items; [done|done|..].
  - intros v t tot. apply (codec_reads _ _ _ _ _ Hv).
  - intros s tot v i. apply (codec_reads_only _ _ _ _ _ Hv).
Qed.

Lemma codec_with_ext {A} limits ok n (w w' : A → bytes) r :
  (∀ a, w a = w' a) → codec_with limits ok n w r → codec_with limits ok n w' r.
Proof.
  intros Hw [H1 H2 H3]. split.
  - intros a. by rewrite <-Hw.
  - intros a. rewrite <-Hw. apply H2.
  - intros s tot a i. rewrite <-Hw. apply H3.
Qed.

(** ** Maps *)

#[export] Instance map_sized `{Sized V} : Sized (gmap Z V) := sized_by map_entries.

Lemma codec_map `{Sized V} limits message (w : V → bytes) r :
  codec limits w r → codec limits (write_map w) (read_map limits message r).
Proof.
  intros Hc. eapply codec_with_ext;
    [|eapply (codec_through _ _ _ _ _ (fits limits) map_entries list_to_map);
      [apply (codec_items_value _ Z.ltb _ write_i64 read_i64 w r);
        [apply (ltb_trans (ltb := Z.ltb))|apply codec_i64|exact Hc]|..]].
  - intros m. unfold write_vector, write_size, write_map. unfold map_entries. by rewrite sorted_entries_length.
  - intros m Hm. split; [split; [exact Hm|apply (sorted_entries_strict Z.ltb)]|apply map_of_sorted_entries].
  - intros l [Hl Hs]. assert (map_entries (list_to_map (M := gmap Z V) l) = l) as Hid by (by apply (sorted_entries_of_list Z.ltb)).
    split; [|exact Hid].
    change (fits limits (map_entries (list_to_map (M := gmap Z V) l))). by rewrite Hid.
Qed.

Lemma codec_string_map limits : codec limits write_string_map (read_string_map limits).
Proof. apply codec_map. eauto with codec. Qed.

Lemma codec_file_map limits : codec limits write_file_map (read_file_map limits).
Proof. apply codec_map. eauto with codec. Qed.
#[export] Hint Resolve codec_string_map codec_file_map : codec.

(** ** Deferred references *)

Definition pending_reference_fields (r : PendingSymbolReference) :=
  (ps_handle r, ps_usr r, ps_identity_source r, ps_semantic_universe r, ps_translation_unit r).
#[export] Instance pending_sized : Sized PendingSymbolReference := sized_by pending_reference_fields.

Lemma codec_pending_reference limits :
  codec limits write_pending_reference (read_pending_reference limits).
Proof. solve_codec pending_reference_fields write_pending_reference read_pending_reference. Qed.

Definition pending_items (l : list PendingSymbolReference) : list (PendingSymbolReference * unit) :=
  (λ r, (r, tt)) <$> l.

(** What a reader of references returns. *)
Definition pending_ok limits (l : list PendingSymbolReference) : Prop :=
  fits limits (pending_items l) ∧ StronglySorted (λ a b, pending_ltb a b = true) l.

Lemma pending_items_fst l : (pending_items l).*1 = l.
Proof. unfold pending_items. rewrite <-list_fmap_compose. apply list_fmap_id. Qed.

Lemma codec_pending_references limits :
  codec_with limits (pending_ok limits) (λ l, entries (pending_items l)) write_pending_references
    (read_pending_references limits).
Proof.
  eapply codec_with_ext;
    [|eapply (codec_through _ _ _ _ _ (pending_ok limits) pending_items (λ l, l.*1));
      [apply (codec_items _ pending_ltb _ write_pending_reference _ (λ _, []) (ret tt));
        [apply (ltb_trans (ltb := pending_ltb))|apply codec_pending_reference|..]|..]].
  - intros l. unfold write_pending_references, write_vector, write_size, pending_items.
    rewrite length_fmap, <-list_fmap_compose. f_equal. f_equal. apply list_fmap_ext. intros _ r _.
    unfold write_item. cbn. by rewrite app_nil_r.
  - intros [] t tot _ _. unfold ret. cbn. by rewrite N.add_0_r.
  - intros s tot [] i [= <-]. cbn. by rewrite N.add_0_r.
  - intros l [Hl Hs]. rewrite pending_items_fst. split; [|done]. split; [done|].
    apply strict_keys. by rewrite pending_items_fst.
  - intros l [Hl Hs]. assert (pending_items l.*1 = l) as Hid.
    { unfold pending_items. rewrite <-list_fmap_compose. rewrite <-(list_fmap_id l) at 2.
      apply list_fmap_ext. by intros _ [r []] _. }
    split; [|done]. split; [by rewrite Hid|]. by apply strict_keys in Hs.
Qed.

(** ** Partitions *)

#[export] Instance nat_sized : Sized nat := {| fits _ n := (N.of_nat n < 2 ^ 64)%N; entries _ := 0%N |}.

Lemma codec_index limits : codec limits write_index read_index.
Proof.
  apply (codec_through _ _ _ _ _ (fits limits) N.of_nat N.to_nat (codec_u64 limits)).
  - intros n Hn. split; [exact Hn|apply Nat2N.id].
  - intros n Hn. change (fits limits (N.to_nat n)) with (N.of_nat (N.to_nat n) < 2 ^ 64)%N.
    rewrite N2Nat.id. by split.
Qed.

Lemma codec_members limits : codec limits (write_vector write_index) (read_partition_members limits).
Proof. apply codec_vector, codec_index. Qed.

(** The members are those of a [std::map]. *)
#[export] Instance partition_sized : Sized FileFactPartition := {|
  fits limits p := fits limits (fp_key p)
    ∧ fits limits (fp_members p) ∧ increasing_keys family_ltb (fp_members p);
  entries p := (entries (fp_key p) + entries (fp_members p))%N |}.

Lemma family_trans a b c : family_ltb a b = true → family_ltb b c = true → family_ltb a c = true.
Proof. unfold family_ltb. rewrite !N.ltb_lt. lia. Qed.

Lemma codec_partition limits : codec limits write_partition (read_partition limits).
Proof.
  pose proof (codec_partition_key limits) as Hk.
  pose proof (codec_items_value limits family_ltb (bs "FactBatch partition families are not canonically ordered")
    _ _ _ _ family_trans (codec_enum limits (bs "fact family")) (codec_members limits)) as Hm.
  split.
  - intros p. unfold write_partition. apply app_some. apply (codec_nonempty limits _ _ _ Hk).
  - intros [key ms] t tot (Hkf & Hmf) Ht. unfold write_partition, read_partition.
    change (entries (FilePartition key ms)) with (entries key + entries ms)%N in *.
    cbn [fp_key fp_members] in *. rewrite <-app_assoc.
    eapply (codec_step limits); [exact Hk|exact Hkf|lia|].
    eapply (bind_reads limits); [exact Hm|exact Hmf|lia|].
    unfold ret. cbn. do 3 f_equal. lia.
  - intros s tot p i (key & t & Hkf & -> & H & Hm1)%(codec_accept limits _ _ _ _ _ _ _ Hk).
    apply (bind_reads_only limits _ _ _ _ _ _ _ _ _ Hm) in H as (ms & t' & Hmf & -> & [= <- <-] & Hm2).
    unfold write_partition. rewrite <-app_assoc.
    change (entries (FilePartition key ms)) with (entries key + entries ms)%N. cbn [unread total_entries].
    split; [split; [exact Hkf|exact Hmf]|split_and!; [done|lia|auto]].
Qed.

Lemma codec_partitions limits : codec limits write_partitions (read_partitions limits).
Proof. apply codec_vector, codec_partition. Qed.
#[export] Hint Resolve codec_partitions : codec.

(** ** Artifact information *)

#[export] Instance c_uint_sized : Sized c_uint :=
  {| fits _ n := (uint_value n < 2 ^ 32)%N; entries _ := 0%N |}.

Lemma codec_uint limits : codec limits write_uint read_uint.
Proof.
  apply (codec_through _ _ _ _ _ (fits limits) uint_value CUint (codec_u32 limits)).
  - by intros [n] Hn.
  - intros n Hn. by split.
Qed.
#[export] Hint Resolve codec_uint : codec.

Definition info_fields (v : FactBatchArtifactInfo) :=
  (ai_wire_version v, ai_producer v, ai_producer_version v, ai_pass_version v,
   ai_extractor_version v, ai_storage_schema_version v, ai_catalog_version v, ai_catalog_hash v,
   ai_completeness v, ai_trust v, ai_truncated v, ai_dependency_identities v).

(** The digest and the size come after the payload. *)
#[export] Instance info_sized : Sized FactBatchArtifactInfo := {|
  fits limits v := fits limits (info_fields v) ∧ ai_content_digest v = [] ∧ ai_byte_size v = 0%N;
  entries v := entries (info_fields v) |}.

Definition write_info_fields (v : FactBatchArtifactInfo) : bytes :=
  write_uint (ai_wire_version v) ++ write_string (ai_producer v)
  ++ write_uint (ai_producer_version v) ++ write_uint (ai_pass_version v)
  ++ write_uint (ai_extractor_version v) ++ write_uint (ai_storage_schema_version v)
  ++ write_i64 (ai_catalog_version v) ++ write_string (ai_catalog_hash v)
  ++ write_enum (ai_completeness v) ++ write_enum (ai_trust v) ++ write_bool (ai_truncated v)
  ++ write_vector write_string (ai_dependency_identities v).

Lemma codec_info_fields limits : codec limits write_info_fields (read_info_fields limits).
Proof.
  split.
  - intros v. unfold write_info_fields. apply app_some. eapply (codec_nonempty limits), codec_uint.
  - intros v t tot (Hv & Hd & Hs) Ht.
    change (entries v) with (entries (info_fields v)) in *.
    unfold info_fields in *. rewrite ?entries_pair in *. rewrite ?fits_pair in Hv. destruct_and?.
    unfold write_info_fields, read_info_fields. rewrite <-?app_assoc.
    repeat read_field limits.
    apply good_eq; [destruct v; cbn in *; by subst|lia].
  - intros s tot v i H. unfold read_info_fields in H. repeat accept_field limits H.
    injection H as <- <-. cbn [unread total_entries].
    change (entries (ArtifactInfo _ _ _ _ _ _ _ _ _ _ _ _ _ _))
      with (entries (a, a0, a1, a2, a3, a4, a5, a6, a7, a8, a9, a10)).
    rewrite ?entries_pair. split_and!.
    + change (fits limits (a, a0, a1, a2, a3, a4, a5, a6, a7, a8, a9, a10)
        ∧ @nil ascii = [] ∧ 0%N = 0%N).
      rewrite ?fits_pair. split_and!; done.
    + unfold write_info_fields. rewrite <-?app_assoc. reflexivity.
    + lia.
    + auto 40.
Qed.

(** [is_sorted] without [adjacent_find]: strictly increasing. *)
Lemma canonical_dependencies_check l :
  negb (is_sorted l) || has_adjacent_equal l = false ↔ canonical_dependencies l = l.
Proof.
  rewrite orb_false_iff, negb_false_iff. split.
  - intros [Hs He]. apply (sort_unique_id bytes_ltb). apply Sorted_StronglySorted.
    { intros a b c. apply (ltb_trans (ltb := bytes_ltb)). }
    induction l as [|a [|b l] IH]; [constructor|by repeat constructor|].
    cbn in Hs, He. apply andb_true_iff in Hs as [Hab Hs]. apply orb_false_iff in He as [Hne He].
    constructor; [by apply IH|]. constructor. apply negb_true_iff in Hab. apply bool_decide_eq_false in Hne.
    destruct (bytes_ltb a b) eqn:E; [done|]. by destruct Hne; apply (ltb_total (ltb := bytes_ltb)).
  - intros <-. unfold canonical_dependencies.
    pose proof (sort_unique_strict bytes_ltb l) as Hs. revert Hs. generalize (sort_unique bytes_ltb l) as l'.
    clear l. induction l' as [|a [|b l] IH]; [done..|]. intros [Hf Hs]%StronglySorted_cons.
    apply Forall_cons in Hf as [Hab _]. destruct (IH Hs) as [H1 H2].
    change (is_sorted (a :: b :: l)) with (negb (bytes_ltb b a) && is_sorted (b :: l)).
    change (has_adjacent_equal (a :: b :: l)) with (bool_decide (a = b) || has_adjacent_equal (b :: l)).
    rewrite H1, H2, (ltb_asym bytes_ltb _ _ Hab).
    split; [done|]. rewrite orb_false_r. apply bool_decide_eq_false. intros ->.
    by rewrite ltb_irrefl in Hab.
Qed.

Definition info_ok limits (info : FactBatchArtifactInfo) : Prop :=
  fits limits info ∧ canonical_dependencies (ai_dependency_identities info) = ai_dependency_identities info.

Lemma codec_info limits : codec_with limits (info_ok limits) entries write_info_fields (read_info limits).
Proof.
  split.
  - apply (codec_some _ _ _ _ _ (codec_info_fields limits)).
  - intros a t tot [Ha Hck%canonical_dependencies_check] Ht. unfold read_info.
    eapply (bind_reads limits); [apply codec_info_fields|exact Ha|exact Ht|]. by rewrite Hck.
  - intros s tot b i (a & t & Ha & -> & H & Hm)%(bind_reads_only limits _ _ _ _ _ _ _ _ _ (codec_info_fields limits)).
    destruct (_ || _) eqn:Hck in H; [done|]. injection H as <- <-.
    apply canonical_dependencies_check in Hck. split_and!; done.
Qed.

(** What [write_info] writes is the information of the artifact. *)
Definition info_of (batch : FactBatch) (metadata : FactBatchArtifactMetadata) : FactBatchArtifactInfo :=
  ArtifactInfo kFactBatchArtifactWireVersion (fb_producer batch) (CUint (fb_producer_version batch))
    (am_pass_version metadata) (am_extractor_version metadata) (am_storage_schema_version metadata)
    (am_catalog_version metadata) (am_catalog_hash metadata) (fb_completeness batch)
    (am_trust metadata) (am_truncated metadata)
    (canonical_dependencies (am_dependency_identities metadata)) [] 0.

Lemma write_info_of batch metadata :
  write_info batch metadata = write_info_fields (info_of batch metadata).
Proof. reflexivity. Qed.
