(* ===== verification/FactArtifact.v ===== *)
(** * Fact batch artifacts: [src/src/ast/fact_batch_artifact.cpp]

    [FactBatchArtifactCodec]: a canonical batch as one byte string with a digest
    footer, the decoding of a complete batch and of one family, and the checks of
    compatibility.  The storage of an artifact is its bytes ([None]: an empty
    handle); the spill file of the sink and the errors of reading it back are not
    modelled. *)

From S2P Require Export Hashing.
From S2P Require Export FactMaps.
Open Scope Z_scope.
Open Scope wire_scope.

(** ** Data *)

Definition kMagic : bytes := bs "CIDXFB01".
Definition kDigestMagic : bytes := bs "FBDIG001".
Definition kDigestTextSize : nat := 71.
Definition kFooterSize : nat := length kDigestMagic + kDigestTextSize.

Record FactBatchArtifactEncodeOptions := EncodeOptions {
  eo_metadata : FactBatchArtifactMetadata;
  eo_max_artifact_bytes : N
}.

Record FactBatchArtifactCompatibility := Compatibility {
  co_wire_version : c_uint;
  co_producer : option bytes;
  co_producer_version : option c_uint;
  co_pass_version : c_uint;
  co_extractor_version : c_uint;
  co_storage_schema_version : c_uint;
  co_catalog_version : Z;
  co_catalog_hash : bytes;
  co_dependency_identities : option (list bytes);
  co_allow_partial : bool;
  co_allow_truncated : bool;
  co_require_trusted : bool;
  co_limits : FactBatchArtifactDecodeLimits
}.

(** ** Encoding *)

(** [SpoolingByteSink::append]. *)
Definition append (max_size : N) (spool piece : bytes) : fallible bytes :=
  if (max_size <? N.of_nat (length spool) + N.of_nat (length piece))%N
  then Fail limit_exceeded (bs "byte artifact exceeds the configured encode limit")
  else Good (spool ++ piece).

Definition write_batch (batch : FactBatch) : bytes :=
  write_fact_records (fb_records batch) ++ write_partitions (fb_partitions batch)
  ++ write_string_map (fb_symbol_keys batch) ++ write_string_map (fb_relation_keys batch)
  ++ write_string_map (fb_type_keys batch) ++ write_string_map (fb_definition_keys batch)
  ++ write_file_map (fb_file_keys batch)
  ++ write_pending_references (fb_pending_symbol_references batch).

Definition payload (batch : FactBatch) (metadata : FactBatchArtifactMetadata) : bytes :=
  kMagic ++ write_info batch metadata ++ write_batch batch.

(** The pieces are appended in this order; those of the payload field by field. *)
Definition encode (batch : FactBatch) (options : FactBatchArtifactEncodeOptions) : fallible bytes :=
  let metadata := eo_metadata options in
  let max_size := eo_max_artifact_bytes options in
  if negb (has_canonical_layout batch)
  then Fail noncanonical (bs "FactBatch artifacts require canonical_batch() input")
  else if bool_decide (fb_producer batch = []) || (fb_producer_version batch =? 0)%N
          || (uint_value (am_pass_version metadata) =? 0)%N
          || (uint_value (am_extractor_version metadata) =? 0)%N
          || (uint_value (am_storage_schema_version metadata) =? 0)%N
          || (am_catalog_version metadata <=? 0) || bool_decide (am_catalog_hash metadata = [])
  then Fail incompatible (bs "FactBatch artifact version identities must be explicit")
  else if existsb (λ identity, bool_decide (identity = [])) (am_dependency_identities metadata)
  then Fail incompatible (bs "FactBatch dependency identities must be non-empty")
  else
    let+ spool := append max_size [] (payload batch metadata) in
    let digest := sha256_hex spool in
    let+ spool := append max_size spool kDigestMagic in
    append max_size spool digest.

(** ** Decoding *)

(** [storage.read_exact(0, preamble)]. *)
Definition validate_wire_preamble (storage : bytes) : fallible unit :=
  if (length storage <? length kMagic + 4)%nat
  then Fail truncated (bs "byte artifact read exceeds its captured extent")
  else if negb (bool_decide (take (length kMagic) storage = kMagic))
  then Fail incompatible (bs "FactBatch artifact wire magic is unsupported")
  else
    let wire_version := le_value (take 4 (drop (length kMagic) storage)) in
    fail_if (negb (wire_version =? uint_value kFactBatchArtifactWireVersion)%N) incompatible
      (bs "FactBatch artifact wire version is unsupported").

Definition is_digest_digit (c : ascii) : bool :=
  (zb "0" <=? zb c) && (zb c <=? zb "9") || (zb "a" <=? zb c) && (zb c <=? zb "f").

(** The size of the payload and the digest. *)
Definition verify_footer (storage : bytes) : fallible (nat * bytes) :=
  if (length storage <? kFooterSize)%nat
  then Fail truncated (bs "FactBatch artifact is shorter than its digest footer")
  else
    let payload_size := (length storage - kFooterSize)%nat in
    let footer := drop payload_size storage in
    if negb (bool_decide (take (length kDigestMagic) footer = kDigestMagic))
    then Fail corrupt (bs "FactBatch artifact digest footer magic is invalid")
    else
      let expected := drop (length kDigestMagic) footer in
      if negb (bool_decide (take 7 expected = bs "sha256:"))
         || negb (forallb is_digest_digit (drop 7 expected))
      then Fail corrupt (bs "FactBatch artifact digest footer is malformed")
      else if negb (bool_decide (sha256_hex (take payload_size storage) = expected))
      then Fail corrupt (bs "FactBatch artifact content digest does not match its payload")
      else Good (payload_size, expected).

Definition incompatible_dimension (dimension : bytes) : bytes :=
  bs "FactBatch artifact has an incompatible " ++ dimension.

Definition differs `{EqDecision A} (expected : option A) (actual : A) : bool :=
  match expected with Some e => negb (bool_decide (actual = e)) | None => false end.

Definition validate_compatibility (info : FactBatchArtifactInfo)
    (c : FactBatchArtifactCompatibility) : fallible unit :=
  let dimension (bad : bool) name := fail_if bad incompatible (incompatible_dimension name) in
  let+ _ := dimension (negb (bool_decide (ai_wire_version info = co_wire_version c))) (bs "wire version") in
  let+ _ := dimension (differs (co_producer c) (ai_producer info)) (bs "producer identity") in
  let+ _ := dimension (differs (co_producer_version c) (ai_producer_version info)) (bs "producer version") in
  let+ _ := dimension (negb (bool_decide (ai_pass_version info = co_pass_version c))) (bs "pass version") in
  let+ _ := dimension (negb (bool_decide (ai_extractor_version info = co_extractor_version c)))
              (bs "extractor version") in
  let+ _ := dimension (negb (bool_decide (ai_storage_schema_version info = co_storage_schema_version c)))
              (bs "storage schema version") in
  let+ _ := dimension (negb (ai_catalog_version info =? co_catalog_version c)
                       || negb (bool_decide (ai_catalog_hash info = co_catalog_hash c)))
              (bs "catalog identity") in
  let+ _ := dimension (co_require_trusted c && negb (bool_decide (ai_trust info = trusted)))
              (bs "trust level") in
  let+ _ := fail_if (differs (canonical_dependencies <$> co_dependency_identities c)
                       (ai_dependency_identities info)) stale_code
              (bs "FactBatch artifact dependency identities are stale") in
  let+ _ := fail_if (ai_truncated info && negb (co_allow_truncated c)) truncated
              (bs "FactBatch artifact is marked truncated") in
  fail_if (negb (bool_decide (ai_completeness info = complete)) && negb (co_allow_partial c)) partial
    (bs "FactBatch artifact is not complete").

Definition family_size (r : FactRecords) (family : FactFamily) : nat :=
  match family with
  | fam_symbols => length (fr_symbols r)
  | fam_declaration_sites => length (fr_declaration_sites r)
  | fam_relations => length (fr_relations r)
  | fam_edge_sites => length (fr_edge_sites r)
  | fam_call_arguments => length (fr_call_args r)
  | fam_template_parameters => length (fr_template_params r)
  | fam_template_arguments => length (fr_template_args r)
  | fam_types => length (fr_type_nodes r)
  | fam_type_edges => length (fr_type_edges r)
  | fam_parameters => length (fr_parameters r)
  | fam_symbol_types => length (fr_symbol_types r)
  | fam_definitions => length (fr_definitions r)
  | fam_definition_edges => length (fr_definition_edges r)
  | fam_includes => length (fr_includes r)
  | fam_macros => length (fr_macros r)
  | fam_diagnostics => length (fr_diagnostics r)
  | fam_evidence => length (fr_evidence r)
  | fam_presentation_intents => length (fr_presentation_intents r)
  | fam_lifecycle_cleanup => length (fr_lifecycle_cleanup r)
  | fam_applicability => length (fr_applicability r)
  end.

Definition out_of_range (size : nat) (members : list nat) : bool :=
  existsb (λ index, size <=? index)%nat members.

Definition validate_partitions (records : FactRecords) (partitions : list FileFactPartition)
    : fallible unit :=
  fail_if
    (existsb (λ partition,
       existsb (λ m, out_of_range (family_size records m.1) m.2) (fp_members partition)) partitions)
    corrupt (bs "FactBatch partition contains an out-of-range record index").

Definition validate_partition_family (records : FactRecords) (partitions : list FileFactPartition)
    (family : FactFamily) : fallible unit :=
  fail_if
    (existsb (λ partition,
       match find_members family (fp_members partition) with
       | Some members => out_of_range (family_size records family) members
       | None => false
       end) partitions)
    corrupt (bs "FactBatch partition contains an out-of-range record index").

(** *** The readers of a batch *)

Section decode.
Variable limits : FactBatchArtifactDecodeLimits.

Definition read_magic : reader unit :=
  let? magic := read_exact (length kMagic) in
  if bool_decide (magic = kMagic) then ret tt
  else stop incompatible (bs "FactBatch artifact wire magic is unsupported").

(** The fields after [records]. *)
Definition read_batch (info : FactBatchArtifactInfo) (read_records : reader FactRecords)
    (keep : list FileFactPartition → list FileFactPartition) : reader FactBatch :=
  let? records := read_records in
  let? partitions := read_partitions limits in
  let? symbol_keys := read_string_map limits in
  let? relation_keys := read_string_map limits in
  let? type_keys := read_string_map limits in
  let? definition_keys := read_string_map limits in
  let? file_keys := read_file_map limits in
  let? pending := read_pending_references limits in
  ret (MkBatch (ai_producer info) (uint_value (ai_producer_version info)) (ai_completeness info) true
         records (keep partitions) symbol_keys relation_keys type_keys definition_keys file_keys pending).

(** [reader.offset() != payload_size]. *)
Definition at_end (i : input) : fallible unit :=
  fail_if (negb (bool_decide (unread i = []))) corrupt
    (bs "FactBatch artifact has unrecognized trailing payload bytes").

(** *** One family *)

(** [discard_records]. *)
Fixpoint discard_times {A} (n : nat) (read : reader A) : reader unit :=
  match n with
  | O => ret tt
  | S n => let? _ := read in discard_times n read
  end.

Definition discard_records {A} (read : reader A) : reader unit :=
  let? count := read_count limits in discard_times (N.to_nat count) read.

(** The lambda [read] of [read_fact_records_family]. *)
Definition read_selected {A} (chosen : bool) (read : reader A) : reader (list A) :=
  if chosen then read_vector limits read
  else let? _ := discard_records read in ret [].

Definition read_fact_records_family (selected : FactFamily) : reader FactRecords :=
  let read {A} (r : reader A) family := read_selected (bool_decide (family = selected)) r in
  let? symbols := read (read_symbol_record limits) fam_symbols in
  let? declaration_sites := read (read_declaration_site limits) fam_declaration_sites in
  let? relations := read read_edge fam_relations in
  let? edge_sites := read (read_edge_site limits) fam_edge_sites in
  let? call_args := read (read_call_arg limits) fam_call_arguments in
  let? template_params := read (read_template_param limits) fam_template_parameters in
  let? template_args := read (read_template_arg limits) fam_template_arguments in
  let? type_nodes := read (read_type_node limits) fam_types in
  let? type_edges := read read_type_edge fam_type_edges in
  let? parameters := read (read_parameter_fact limits) fam_parameters in
  let? symbol_types := read read_symbol_type fam_symbol_types in
  let? definitions := read (read_definition limits) fam_definitions in
  let? definition_edges := read read_definition_edge fam_definition_edges in
  let? includes := read (read_include limits) fam_includes in
  let? macros := read (read_macro limits) fam_macros in
  let? diagnostics := read (read_diagnostic limits) fam_diagnostics in
  let? evidence := read (read_evidence limits) fam_evidence in
  let? presentation := read (read_presentation limits) fam_presentation_intents in
  let? cleanup := read (read_cleanup limits) fam_lifecycle_cleanup in
  let? applicability := read (read_applicability limits) fam_applicability in
  let? symbol_order := read (read_symbol_order limits) fam_symbols in
  ret (MkRecords symbols declaration_sites relations edge_sites call_args template_params
         template_args type_nodes type_edges parameters symbol_types definitions definition_edges
         includes macros diagnostics evidence presentation cleanup applicability symbol_order).

(** [partition.members.erase] of the other families. *)
Definition keep_family (family : FactFamily) (partitions : list FileFactPartition)
    : list FileFactPartition :=
  (λ p, FilePartition (fp_key p) (filter (λ m, m.1 = family) (fp_members p))) <$> partitions.
End decode.

(** The steps that [decode] and [decode_family] begin with: the size of the payload,
    its digest, the information and the input after it. *)
Definition open_artifact (artifact : option bytes) (c : FactBatchArtifactCompatibility)
    : fallible (bytes * bytes * FactBatchArtifactInfo * input) :=
  match artifact with
  | None => Fail missing (bs "FactBatch artifact handle is empty")
  | Some storage =>
      let+ _ := fail_if (limit_artifact_bytes (co_limits c) <? N.of_nat (length storage))%N limit_exceeded
                  (bs "FactBatch artifact exceeds the configured byte limit") in
      let+ _ := validate_wire_preamble storage in
      let+ (payload_size, digest) := verify_footer storage in
      let+ (_, i) := read_magic (In (take payload_size storage) 0) in
      let+ (info, i) := read_info (co_limits c) i in
      let+ _ := validate_compatibility info c in
      Good (storage, digest, info, i)
  end.

(** [info.content_digest = digest; info.byte_size = artifact.storage_.size()]. *)
Definition with_storage (info : FactBatchArtifactInfo) (digest : bytes) (byte_size : N)
    : FactBatchArtifactInfo :=
  ArtifactInfo (ai_wire_version info) (ai_producer info) (ai_producer_version info)
    (ai_pass_version info) (ai_extractor_version info) (ai_storage_schema_version info)
    (ai_catalog_version info) (ai_catalog_hash info) (ai_completeness info) (ai_trust info)
    (ai_truncated info) (ai_dependency_identities info) digest byte_size.

Definition decode (artifact : option bytes) (c : FactBatchArtifactCompatibility)
    : fallible (FactBatch * FactBatchArtifactInfo) :=
  let+ (storage, digest, info, i) := open_artifact artifact c in
  let+ (batch, i) := read_batch (co_limits c) info (read_fact_records (co_limits c)) id i in
  let+ _ := at_end i in
  let+ _ := validate_partitions (fb_records batch) (fb_partitions batch) in
  if negb (has_canonical_layout batch)
  then Fail corrupt (bs "FactBatch artifact payload is not canonically ordered")
  else
    Good (batch, with_storage info digest (N.of_nat (length storage))).

Definition make_family_batch (limits : FactBatchArtifactDecodeLimits) (info : FactBatchArtifactInfo)
    (family : FactFamily) (i : input) : fallible FactBatch :=
  let+ (batch, i) := read_batch limits info (read_fact_records_family limits family)
                       (keep_family family) i in
  let+ _ := at_end i in
  let+ _ := validate_partition_family (fb_records batch) (fb_partitions batch) family in
  Good batch.

Definition decode_family (artifact : option bytes) (family : FactFamily)
    (c : FactBatchArtifactCompatibility) : fallible FactBatch :=
  let+ (_, _, info, i) := open_artifact artifact c in
  make_family_batch (co_limits c) info family i.

(** ** The entry points *)

Record FactBatchArtifactDecodeResult := DecodeResult {
  dr_batch : option FactBatch;
  dr_info : option FactBatchArtifactInfo;
  dr_diagnostics : list (FactBatchArtifactErrorCode * bytes)
}.

Definition decode_fact_batch_artifact (artifact : option bytes) (c : FactBatchArtifactCompatibility)
    : FactBatchArtifactDecodeResult :=
  match decode artifact c with
  | Good (batch, info) => DecodeResult (Some batch) (Some info) []
  | Fail code message => DecodeResult None None [(code, message)]
  end.

Definition usable (r : FactBatchArtifactDecodeResult) : bool :=
  bool_decide (is_Some (dr_batch r)) && bool_decide (dr_diagnostics r = []).

(** ** The law of a batch *)

Section batch_law.
Variable limits : FactBatchArtifactDecodeLimits.

(** What the decode limits allow of a batch; the deferred references are strictly
    sorted and the members of a partition are in family order. *)
Definition batch_fits (b : FactBatch) : Prop :=
  fits limits (fb_records b) ∧ fits limits (fb_partitions b)
  ∧ fits limits (fb_symbol_keys b) ∧ fits limits (fb_relation_keys b)
  ∧ fits limits (fb_type_keys b) ∧ fits limits (fb_definition_keys b)
  ∧ fits limits (fb_file_keys b) ∧ pending_ok limits (fb_pending_symbol_references b).

Definition batch_entries (b : FactBatch) : N :=
  entries (fb_records b) + entries (fb_partitions b) + entries (fb_symbol_keys b)
  + entries (fb_relation_keys b) + entries (fb_type_keys b) + entries (fb_definition_keys b)
  + entries (fb_file_keys b) + entries (pending_items (fb_pending_symbol_references b)).

(** The fields of the batch that the information carries. *)
Definition described_by (info : FactBatchArtifactInfo) (b : FactBatch) : Prop :=
  fb_producer b = ai_producer info ∧ fb_producer_version b = uint_value (ai_producer_version info)
  ∧ fb_completeness b = ai_completeness info ∧ fb_canonical b = true.

(** As [accept_field], for a part that is not unfolded. *)
Ltac accept_part limits H :=
  let a := fresh "a" in let t := fresh "t" in let Ha := fresh "Ha" in let Hm := fresh "Hm" in
  eapply (codec_accept limits) in H as (a & t & Ha & -> & H & Hm); [|solve [eauto with codec]].

Lemma described_batch info b :
  described_by info b →
  MkBatch (ai_producer info) (uint_value (ai_producer_version info)) (ai_completeness info) true
    (fb_records b) (id (fb_partitions b)) (fb_symbol_keys b) (fb_relation_keys b) (fb_type_keys b)
    (fb_definition_keys b) (fb_file_keys b) (fb_pending_symbol_references b) = b.
Proof. intros (<- & <- & <- & <-). by destruct b. Qed.

Lemma partial_sums tot e1 e2 e3 e4 e5 e6 e7 e8 m :
  (tot + (e1 + e2 + e3 + e4 + e5 + e6 + e7 + e8) ≤ m →
   tot + e1 ≤ m ∧ tot + e1 + e2 ≤ m ∧ tot + e1 + e2 + e3 ≤ m ∧ tot + e1 + e2 + e3 + e4 ≤ m
   ∧ tot + e1 + e2 + e3 + e4 + e5 ≤ m ∧ tot + e1 + e2 + e3 + e4 + e5 + e6 ≤ m
   ∧ tot + e1 + e2 + e3 + e4 + e5 + e6 + e7 ≤ m ∧ tot + e1 + e2 + e3 + e4 + e5 + e6 + e7 + e8 ≤ m)%N.
Proof. lia. Qed.

Lemma batch_entries_le b tot m :
  (tot + batch_entries b ≤ m → ∃ e1 e2 e3 e4 e5 e6 e7 e8,
   (e1 = entries (fb_records b) ∧ e2 = entries (fb_partitions b) ∧ e3 = entries (fb_symbol_keys b)
   ∧ e4 = entries (fb_relation_keys b) ∧ e5 = entries (fb_type_keys b)
   ∧ e6 = entries (fb_definition_keys b) ∧ e7 = entries (fb_file_keys b)
   ∧ e8 = entries (pending_items (fb_pending_symbol_references b))) ∧
   (tot + e1 ≤ m ∧ tot + e1 + e2 ≤ m ∧ tot + e1 + e2 + e3 ≤ m ∧ tot + e1 + e2 + e3 + e4 ≤ m
   ∧ tot + e1 + e2 + e3 + e4 + e5 ≤ m ∧ tot + e1 + e2 + e3 + e4 + e5 + e6 ≤ m
   ∧ tot + e1 + e2 + e3 + e4 + e5 + e6 + e7 ≤ m ∧ tot + e1 + e2 + e3 + e4 + e5 + e6 + e7 + e8 ≤ m)
   ∧ batch_entries b = e1 + e2 + e3 + e4 + e5 + e6 + e7 + e8)%N.
Proof.
  unfold batch_entries.
  generalize (entries (fb_records b)) (entries (fb_partitions b)) (entries (fb_symbol_keys b))
    (entries (fb_relation_keys b)) (entries (fb_type_keys b)) (entries (fb_definition_keys b))
    (entries (fb_file_keys b)) (entries (pending_items (fb_pending_symbol_references b))).
  intros e1 e2 e3 e4 e5 e6 e7 e8 H. apply partial_sums in H. exists e1, e2, e3, e4, e5, e6, e7, e8.
  split; [by split_and!|]. split; [exact H|done].
Qed.

Lemma write_batch_app b t :
  write_batch b ++ t
  = write_fact_records (fb_records b) ++ write_partitions (fb_partitions b)
    ++ write_string_map (fb_symbol_keys b) ++ write_string_map (fb_relation_keys b)
    ++ write_string_map (fb_type_keys b) ++ write_string_map (fb_definition_keys b)
    ++ write_file_map (fb_file_keys b)
    ++ write_pending_references (fb_pending_symbol_references b) ++ t.
Proof.
  unfold write_batch. generalize (write_fact_records (fb_records b)) (write_partitions (fb_partitions b))
    (write_string_map (fb_symbol_keys b)) (write_string_map (fb_relation_keys b))
    (write_string_map (fb_type_keys b)) (write_string_map (fb_definition_keys b))
    (write_file_map (fb_file_keys b)) (write_pending_references (fb_pending_symbol_references b)).
  intros. by rewrite <-!app_assoc.
Qed.

Lemma read_batch_reads info b t tot :
  described_by info b → batch_fits b → (tot + batch_entries b ≤ max_total_entries limits)%N →
  read_batch limits info (read_fact_records limits) id (FactWire.In (write_batch b ++ t) tot)
  = Good (b, FactWire.In t (tot + batch_entries b)%N).
Proof.
  intros Hd (? & ? & ? & ? & ? & ? & ? & ?) Ht.
  apply batch_entries_le in Ht as (e1 & e2 & e3 & e4 & e5 & e6 & e7 & e8
    & (-> & -> & -> & -> & -> & -> & -> & ->) & (? & ? & ? & ? & ? & ? & ? & ?) & ->).
  unfold read_batch. rewrite write_batch_app.
  do 7 (eapply (codec_step limits); [solve [eauto with codec]|assumption|assumption|cbn beta]).
  eapply (bind_reads limits); [apply codec_pending_references|assumption|assumption|].
  cbn beta. apply good_eq; [by apply described_batch|by rewrite ?N.add_assoc].
Qed.

Lemma batch_entries_sum b :
  batch_entries b = (entries (fb_records b) + entries (fb_partitions b) + entries (fb_symbol_keys b)
    + entries (fb_relation_keys b) + entries (fb_type_keys b) + entries (fb_definition_keys b)
    + entries (fb_file_keys b) + entries (pending_items (fb_pending_symbol_references b)))%N.
Proof. done. Qed.

Lemma read_batch_only info s tot b i :
  read_batch limits info (read_fact_records limits) id (FactWire.In s tot) = Good (b, i) →
  described_by info b ∧ batch_fits b ∧ s = write_batch b ++ unread i
  ∧ ((tot ≤ max_total_entries limits)%N → (tot + batch_entries b ≤ max_total_entries limits)%N).
Proof.
  unfold read_batch. intros H. do 7 accept_part limits H.
  apply (bind_reads_only limits _ _ _ _ _ _ _ _ _ (codec_pending_references limits)) in H
    as (pending & rest & Hpf & -> & [= <- <-] & Hlast).
  rewrite write_batch_app, batch_entries_sum. cbn [fb_records fb_partitions fb_symbol_keys
    fb_relation_keys fb_type_keys fb_definition_keys fb_file_keys fb_pending_symbol_references id unread].
  split; [done|]. split; [done|]. split; [done|]. intros Hle. rewrite ?N.add_assoc. auto 10.
Qed.
End batch_law.

(** ** The envelope *)

Lemma fbind_Good {A B} (m : fallible A) (k : A → fallible B) b :
  fbind m k = Good b → ∃ a, m = Good a ∧ k a = Good b.
Proof. destruct m as [a|]; [|done]. by exists a. Qed.

Lemma fail_if_Good b code message u : fail_if b code message = Good u → b = false.
Proof. by destruct b. Qed.

Lemma digest_digit d : 0 <= d < 16 → is_digest_digit (hex_digit d) = true.
Proof.
  intros Hd. assert (d ∈ [0; 1; 2; 3; 4; 5; 6; 7; 8; 9; 10; 11; 12; 13; 14; 15]) as Hin.
  { rewrite !elem_of_cons. lia. }
  rewrite !elem_of_cons, elem_of_nil in Hin. by destruct_or! Hin; subst.
Qed.

Definition envelope (p : bytes) : bytes := p ++ kDigestMagic ++ sha256_hex p.

Lemma envelope_length p : length (envelope p) = (length p + kFooterSize)%nat.
Proof.
  destruct (sha256_hex_form p) as (digits & Hp & Hl & _). unfold envelope.
  rewrite !length_app, Hp, length_app, Hl. done.
Qed.

Lemma verify_footer_envelope p : verify_footer (envelope p) = Good (length p, sha256_hex p).
Proof.
  unfold verify_footer. rewrite envelope_length, (proj2 (Nat.ltb_ge _ _)) by lia.
  replace (length p + kFooterSize - kFooterSize)%nat with (length p) by lia.
  unfold envelope. rewrite take_app_length, drop_app_length, take_app_length, drop_app_length.
  rewrite !bool_decide_eq_true_2 by done. cbn [negb].
  destruct (sha256_hex_form p) as (digits & Hp & _ & Hd).
  assert (drop 7 (sha256_hex p) = digits) as -> by (by rewrite Hp). cbn [orb].
  assert (forallb is_digest_digit digits = true) as ->; [|done].
  apply Is_true_true, forallb_True. eapply Forall_impl; [exact Hd|].
  intros ? (d & Hr & ->). by rewrite digest_digit.
Qed.

Lemma verify_footer_only storage n digest :
  verify_footer storage = Good (n, digest) →
  ∃ p, storage = envelope p ∧ n = length p ∧ digest = sha256_hex p.
Proof.
  unfold verify_footer. destruct (_ <? _)%nat eqn:Hl; [done|]. apply Nat.ltb_ge in Hl.
  set (n' := (length storage - kFooterSize)%nat).
  destruct (bool_decide (take (length kDigestMagic) (drop n' storage) = kDigestMagic)) eqn:Hm; [|done].
  apply bool_decide_eq_true in Hm. cbn [negb]. destruct (_ || _); [done|].
  destruct (bool_decide (sha256_hex _ = _)) eqn:Hd; [|done]. apply bool_decide_eq_true in Hd.
  cbn [negb]. intros [= <- <-]. exists (take n' storage). unfold envelope. split_and!.
  - rewrite Hd, <-Hm at 1. by rewrite take_drop, take_drop.
  - rewrite length_take. lia.
  - done.
Qed.

Lemma read_magic_app t tot : read_magic (FactWire.In (kMagic ++ t) tot) = Good (tt, FactWire.In t tot).
Proof. unfold read_magic, bind. by rewrite read_exact_app, bool_decide_eq_true_2. Qed.

Lemma read_magic_only s tot u i :
  read_magic (FactWire.In s tot) = Good (u, i) → s = kMagic ++ unread i ∧ total_entries i = tot.
Proof.
  unfold read_magic, bind. destruct (read_exact _ _) as [[l j]|] eqn:H; [|done].
  apply read_exact_only in H as (_ & -> & Ht). destruct (bool_decide _) eqn:Hm; [|done].
  apply bool_decide_eq_true in Hm as ->. by intros [= _ <-].
Qed.

Lemma preamble_envelope rest :
  validate_wire_preamble (kMagic ++ write_u32 3 ++ rest) = Good tt.
Proof.
  unfold validate_wire_preamble. rewrite !length_app, (proj2 (Nat.ltb_ge _ _)).
  - rewrite take_app_length, drop_app_length, bool_decide_eq_true_2 by done. cbn [negb].
    change 4%nat with (length (write_u32 3)). by rewrite take_app_length.
  - change (length (write_u32 3)) with 4%nat. lia.
Qed.

Lemma preamble_version (version : c_uint) rest :
  (uint_value version < 2 ^ 32)%N →
  validate_wire_preamble (kMagic ++ write_uint version ++ rest) = Good tt →
  version = kFactBatchArtifactWireVersion.
Proof.
  intros Hv. unfold validate_wire_preamble.
  destruct (_ <? _)%nat; [done|]. rewrite take_app_length, drop_app_length, bool_decide_eq_true_2 by done.
  cbn [negb]. intros Hf%fail_if_Good. apply negb_false_iff, N.eqb_eq in Hf.
  assert (take 4 (write_uint version ++ rest) = write_uint version) as E.
  { replace 4%nat with (length (write_uint version)) by apply length_le_bytes. apply take_app_length. }
  rewrite E in Hf. unfold write_uint, write_u32 in Hf. rewrite le_value_bytes in Hf by done.
  destruct version. cbn in Hf. by subst.
Qed.

(** *** The indices of a canonical layout *)

Lemma members_in_range {T} (key : T → bytes) records n previous indices k :
  members_canonical key records n previous indices = Some k →
  out_of_range (length records) indices = false.
Proof.
  revert n previous. induction indices as [|i indices IH]; intros n previous; [done|]. cbn.
  destruct (negb _); [done|]. destruct (records !! i) as [x|] eqn:Hi; [|done].
  apply lookup_lt_Some in Hi. rewrite (proj2 (Nat.leb_gt _ _)) by done.
  destruct (match previous with Some _ => _ | None => _ end); [done|]. apply IH.
Qed.

Lemma family_in_range {T} (key : T → bytes) records ps f p members :
  family_is_canonical key records ps f = true → p ∈ ps →
  find_members f (fp_members p) = Some members → out_of_range (length records) members = false.
Proof.
  unfold family_is_canonical. generalize 0%nat. induction ps as [|q ps IH]; intros n.
  { by intros _ ?%elem_of_nil. }
  cbn [partitions_canonical]. intros H [<-|Hp]%elem_of_cons Hf.
  - rewrite Hf in H. destruct members as [|i members]; [done|].
    destruct (members_canonical _ _ _ _ _) eqn:E; [|done]. by eapply members_in_range.
  - destruct (find_members f (fp_members q)) as [[|i l]|]; [done| |by eapply IH].
    destruct (members_canonical _ _ _ _ _) eqn:E; [|done]. by eapply IH.
Qed.

Lemma layout_in_range b f p members :
  has_canonical_layout b = true → p ∈ fb_partitions b →
  find_members f (fp_members p) = Some members →
  out_of_range (family_size (fb_records b) f) members = false.
Proof.
  unfold has_canonical_layout. rewrite !andb_true_iff. intros H Hp Hf. destruct_and! H.
  destruct f; cbn [family_size]; by eapply family_in_range.
Qed.

Lemma find_members_in members f l :
  increasing_keys family_ltb members → (f, l) ∈ members → find_members f members = Some l.
Proof.
  induction members as [|[g m] members IH]; [by intros _ ?%elem_of_nil|].
  intros [Hlt Hs]%StronglySorted_cons [[= <- <-]|Hin]%elem_of_cons; cbn; [by rewrite decide_True|].
  rewrite decide_False; [by apply IH|]. intros ->. rewrite Forall_forall in Hlt.
  apply Hlt in Hin. unfold key_lt, family_ltb in Hin. cbn in Hin. by rewrite N.ltb_irrefl in Hin.
Qed.

Lemma validate_canonical b :
  has_canonical_layout b = true →
  Forall (λ p, increasing_keys family_ltb (fp_members p)) (fb_partitions b) →
  validate_partitions (fb_records b) (fb_partitions b) = Good tt.
Proof.
  intros Hc Hs. unfold validate_partitions. destruct (existsb _ _) eqn:E; [|done].
  apply existsb_exists in E as (p & Hp%list_elem_of_In & E).
  apply existsb_exists in E as ([f l] & Hf%list_elem_of_In & E).
  change (out_of_range (family_size (fb_records b) f) l = true) in E.
  rewrite Forall_forall in Hs. erewrite layout_in_range in E; [done|exact Hc|exact Hp|].
  by apply find_members_in; [apply Hs|].
Qed.

(** ** Opening an artifact *)

Lemma canonical_dependencies_idemp l :
  canonical_dependencies (canonical_dependencies l) = canonical_dependencies l.
Proof. apply (sort_unique_id bytes_ltb), (sort_unique_strict bytes_ltb). Qed.

Lemma payload_split b metadata :
  payload b metadata = kMagic ++ write_info_fields (info_of b metadata) ++ write_batch b.
Proof. by unfold payload; rewrite write_info_of. Qed.

Lemma open_envelope info rest c :
  let p := kMagic ++ write_info_fields info ++ rest in
  ai_wire_version info = kFactBatchArtifactWireVersion → info_ok (co_limits c) info →
  (entries info ≤ max_total_entries (co_limits c))%N →
  (N.of_nat (length (envelope p)) ≤ limit_artifact_bytes (co_limits c))%N →
  validate_compatibility info c = Good tt →
  open_artifact (Some (envelope p)) c
  = Good (envelope p, sha256_hex p, info, FactWire.In rest (entries info)).
Proof.
  intros p Hw Hi He Hl Hc. unfold open_artifact, fail_if. rewrite (proj2 (N.ltb_ge _ _)) by done. cbn [fbind].
  assert (validate_wire_preamble (envelope p) = Good tt) as ->.
  { unfold envelope, p. unfold write_info_fields at 1. rewrite Hw, <-!app_assoc. apply preamble_envelope. }
  cbn [fbind]. rewrite verify_footer_envelope. cbn [fbind].
  assert (take (length p) (envelope p) = p) as -> by apply take_app_length.
  unfold p at 1. rewrite read_magic_app. cbn [fbind].
  rewrite (codec_reads _ _ _ _ _ (codec_info (co_limits c))) by done. cbn [fbind].
  by rewrite Hc, N.add_0_l.
Qed.

Lemma open_artifact_only artifact c storage digest info i :
  open_artifact artifact c = Good (storage, digest, info, i) →
  ∃ p, artifact = Some storage ∧ storage = envelope p ∧ digest = sha256_hex p
    ∧ p = kMagic ++ write_info_fields info ++ unread i ∧ info_ok (co_limits c) info
    ∧ total_entries i = entries info ∧ (entries info ≤ max_total_entries (co_limits c))%N
    ∧ (N.of_nat (length storage) ≤ limit_artifact_bytes (co_limits c))%N
    ∧ ai_wire_version info = kFactBatchArtifactWireVersion
    ∧ validate_compatibility info c = Good tt.
Proof.
  destruct artifact as [storage'|]; [|done]. cbn [open_artifact].
  intros ([] & Hl%fail_if_Good & H)%fbind_Good. apply N.ltb_ge in Hl.
  apply fbind_Good in H as ([] & Hpre & H). apply fbind_Good in H as ([n d] & Hf & H).
  apply verify_footer_only in Hf as (p & -> & -> & ->).
  apply fbind_Good in H as ([[] [s tot]] & Hm & H).
  unfold envelope in Hm at 1. rewrite take_app_length in Hm.
  apply read_magic_only in Hm as [-> Ht]. cbn [unread total_entries] in *. subst tot.
  apply fbind_Good in H as ([info' i'] & Hi & H). apply fbind_Good in H as ([] & Hc & H).
  injection H as <- <- <- <-.
  apply (codec_reads_only _ _ _ _ _ (codec_info (co_limits c))) in Hi as (Hok & -> & Ht & Hm).
  eexists. split_and!; try done.
  - lia.
  - apply (preamble_version _ (drop 4 (write_info_fields info' ++ unread i' ++ kDigestMagic
      ++ sha256_hex (kMagic ++ write_info_fields info' ++ unread i')))).
    + apply Hok.
    + revert Hpre. unfold envelope. rewrite <-!app_assoc. intros Hpre. rewrite <-Hpre.
      do 2 f_equal.
Qed.

(** *** What encoding requires *)

Lemma append_Good max_size spool piece out :
  append max_size spool piece = Good out → out = spool ++ piece.
Proof. unfold append. destruct (_ <? _)%N; [done|]. by intros [= <-]. Qed.

Lemma encode_Good batch options storage :
  encode batch options = Good storage →
  has_canonical_layout batch = true ∧ storage = envelope (payload batch (eo_metadata options)).
Proof.
  unfold encode. destruct (has_canonical_layout batch) eqn:Hc; [|done]. cbn [negb].
  destruct (_ || _); [done|]. destruct (existsb _ _); [done|].
  intros (s1 & H1%append_Good & H)%fbind_Good. apply fbind_Good in H as (s2 & H2%append_Good & H).
  apply append_Good in H. cbn [app] in H1. subst. split; [done|]. unfold envelope. by rewrite <-app_assoc.
Qed.

Lemma canonical_flag b : has_canonical_layout b = true → fb_canonical b = true.
Proof. unfold has_canonical_layout. rewrite !andb_true_iff. intros H. by destruct_and! H. Qed.

Lemma described_info b metadata :
  has_canonical_layout b = true → described_by (info_of b metadata) b.
Proof. intros H%canonical_flag. by repeat split. Qed.

Lemma read_batch_end limits info b :
  described_by info b → batch_fits limits b →
  (entries info + batch_entries b ≤ max_total_entries limits)%N →
  read_batch limits info (read_fact_records limits) id (FactWire.In (write_batch b) (entries info))
  = Good (b, FactWire.In [] (entries info + batch_entries b)%N).
Proof.
  intros Hd Hf Ht. rewrite <-(app_nil_r (write_batch b)). by apply read_batch_reads.
Qed.

Lemma batch_families limits b :
  batch_fits limits b → Forall (λ p, increasing_keys family_ltb (fp_members p)) (fb_partitions b).
Proof.
  intros (_ & Hp & _). destruct Hp as [Hp _]. eapply Forall_impl; [exact Hp|]. by intros p (_ & _ & ?).
Qed.

(** C14: What is encoded is decoded: a batch that [encode] accepts, whose sizes stay
    within the decode limits and whose versions the reader asks for, is decoded to
    itself, with the information it was written with, the digest of its payload and
    its size. *)
Theorem artifact_round_trip batch options c storage :
  let metadata := eo_metadata options in
  encode batch options = Good storage →
  batch_fits (co_limits c) batch → fits (co_limits c) (info_of batch metadata) →
  (entries (info_of batch metadata) + batch_entries batch ≤ max_total_entries (co_limits c))%N →
  (N.of_nat (length storage) ≤ limit_artifact_bytes (co_limits c))%N →
  validate_compatibility (info_of batch metadata) c = Good tt →
  decode (Some storage) c
  = Good (batch, with_storage (info_of batch metadata) (sha256_hex (payload batch metadata))
                   (N.of_nat (length storage))).
Proof.
  intros metadata [Hcan ->]%encode_Good Hfit Hinfo Htot Hlen Hcompat. subst metadata.
  unfold decode. rewrite payload_split in *.
  rewrite open_envelope; [|done|split; [done|apply canonical_dependencies_idemp]|lia|done|done].
  cbn [fbind]. rewrite read_batch_end; [|by apply described_info|done|done]. cbn [fbind].
  unfold at_end. cbn [unread]. rewrite bool_decide_eq_true_2 by done. cbn [negb fail_if fbind].
  rewrite validate_canonical by eauto using batch_families. cbn [fbind]. by rewrite Hcan.
Qed.

(** *** What decoding accepts *)

(** The metadata that an artifact was written with. *)
Definition metadata_of (info : FactBatchArtifactInfo) : FactBatchArtifactMetadata :=
  ArtifactMetadata (ai_pass_version info) (ai_extractor_version info) (ai_storage_schema_version info)
    (ai_catalog_version info) (ai_catalog_hash info) (ai_trust info) (ai_truncated info)
    (ai_dependency_identities info).

Lemma info_of_metadata limits info b :
  info_ok limits info → described_by info b → ai_wire_version info = kFactBatchArtifactWireVersion →
  info_of b (metadata_of info) = info.
Proof.
  intros [(_ & Hd & Hs) Hc] (Hp & Hv & Hk & _) Hw. unfold info_of, metadata_of.
  cbn [am_pass_version am_extractor_version am_storage_schema_version am_catalog_version
    am_catalog_hash am_trust am_truncated am_dependency_identities].
  rewrite Hp, Hv, Hk, Hc, <-Hw. destruct info as [? ? [] ]; cbn in *. by subst.
Qed.

Lemma metadata_with_storage info digest n : metadata_of (with_storage info digest n) = metadata_of info.
Proof. done. Qed.

Lemma decode_inv artifact c b info :
  decode artifact c = Good (b, info) →
  ∃ storage digest info' i i', open_artifact artifact c = Good (storage, digest, info', i)
    ∧ read_batch (co_limits c) info' (read_fact_records (co_limits c)) id i = Good (b, i')
    ∧ unread i' = [] ∧ validate_partitions (fb_records b) (fb_partitions b) = Good tt
    ∧ has_canonical_layout b = true
    ∧ info = with_storage info' digest (N.of_nat (length storage)).
Proof.
  unfold decode. intros ([[[storage digest] info'] i] & Ho & H)%fbind_Good.
  apply fbind_Good in H as ([b' i'] & Hr & H). apply fbind_Good in H as ([] & He%fail_if_Good & H).
  apply fbind_Good in H as ([] & Hv & H). apply negb_false_iff, bool_decide_eq_true in He.
  destruct (has_canonical_layout b') eqn:Hc; [|done]. injection H as -> <-.
  exists storage, digest, info', i, i'. by split_and!.
Qed.

(** C13: Only what encoding writes is decoded: an accepted artifact holds a batch in
    canonical layout, with every member of a partition naming a record; it is byte
    for byte the encoding of that batch under the metadata it describes; its
    digest and size are those reported; and its size, its versions and its
    contents are the ones the reader allows. *)
Theorem decode_sound artifact c batch info :
  decode artifact c = Good (batch, info) →
  let bytes := envelope (payload batch (metadata_of info)) in
  artifact = Some bytes
  ∧ info = with_storage (info_of batch (metadata_of info))
             (sha256_hex (payload batch (metadata_of info))) (N.of_nat (length bytes))
  ∧ has_canonical_layout batch = true
  ∧ validate_partitions (fb_records batch) (fb_partitions batch) = Good tt
  ∧ batch_fits (co_limits c) batch
  ∧ (N.of_nat (length bytes) ≤ limit_artifact_bytes (co_limits c))%N
  ∧ (batch_entries batch ≤ max_total_entries (co_limits c))%N
  ∧ validate_compatibility (info_of batch (metadata_of info)) c = Good tt.
Proof.
  intros (storage & digest & info' & i & i' & Ho & Hr & Hend & Hv & Hc & ->)%decode_inv.
  apply open_artifact_only in Ho as (p & -> & -> & -> & -> & Hok & Ht & Htot & Hl & Hw & Hcompat).
  destruct i as [s tot]. cbn [unread total_entries] in *. subst tot.
  apply read_batch_only in Hr as (Hd & Hf & -> & Hm). rewrite Hend, app_nil_r in *.
  rewrite metadata_with_storage, payload_split, (info_of_metadata _ _ _ Hok Hd Hw).
  specialize (Hm Htot). split_and!; try done. lia.
Qed.

(** ** One family *)

(** The records of a family; the symbol order comes with the symbols. *)
Definition restrict_records (f : FactFamily) (r : FactRecords) : FactRecords :=
  let keep {A} g (l : list A) := if bool_decide (g = f) then l else [] in
  MkRecords (keep fam_symbols (fr_symbols r)) (keep fam_declaration_sites (fr_declaration_sites r))
    (keep fam_relations (fr_relations r)) (keep fam_edge_sites (fr_edge_sites r))
    (keep fam_call_arguments (fr_call_args r)) (keep fam_template_parameters (fr_template_params r))
    (keep fam_template_arguments (fr_template_args r)) (keep fam_types (fr_type_nodes r))
    (keep fam_type_edges (fr_type_edges r)) (keep fam_parameters (fr_parameters r))
    (keep fam_symbol_types (fr_symbol_types r)) (keep fam_definitions (fr_definitions r))
    (keep fam_definition_edges (fr_definition_edges r)) (keep fam_includes (fr_includes r))
    (keep fam_macros (fr_macros r)) (keep fam_diagnostics (fr_diagnostics r))
    (keep fam_evidence (fr_evidence r)) (keep fam_presentation_intents (fr_presentation_intents r))
    (keep fam_lifecycle_cleanup (fr_lifecycle_cleanup r)) (keep fam_applicability (fr_applicability r))
    (keep fam_symbols (fr_symbol_order r)).

Definition restrict_batch (f : FactFamily) (b : FactBatch) : FactBatch :=
  MkBatch (fb_producer b) (fb_producer_version b) (fb_completeness b) (fb_canonical b)
    (restrict_records f (fb_records b)) (keep_family f (fb_partitions b)) (fb_symbol_keys b)
    (fb_relation_keys b) (fb_type_keys b) (fb_definition_keys b) (fb_file_keys b)
    (fb_pending_symbol_references b).

(** A reader that maps the result of another. *)
Definition rmap {A B} (g : A → B) (r : reader A) : reader B := λ i,
  match r i with Good (a, i) => Good (g a, i) | Fail code message => Fail code message end.

Lemma bind_rmap {A A' B B'} (g : A → A') (h : B → B') r r' (k : A → reader B) (k' : A' → reader B') i :
  (∀ i, r' i = rmap g r i) → (∀ a i, k' (g a) i = rmap h (k a) i) → bind r' k' i = rmap h (bind r k) i.
Proof.
  intros Hr Hk. unfold bind. rewrite Hr. unfold rmap. destruct (r i) as [[a j]|]; [apply Hk|done].
Qed.

Lemma bind_same {A B B'} (h : B → B') (r : reader A) (k : A → reader B) (k' : A → reader B') i :
  (∀ a i, k' a i = rmap h (k a) i) → bind r k' i = rmap h (bind r k) i.
Proof. intros Hk. apply (bind_rmap id); [|done]. intros j. unfold rmap. by destruct (r j) as [[]|]. Qed.

Lemma discard_times_rmap {A} n (r : reader A) i :
  discard_times n r i = rmap (λ _, tt) (read_times n r) i.
Proof.
  revert i. induction n as [|n IH]; intros i; [done|]. cbn [discard_times read_times].
  apply bind_same. intros a j. rewrite IH. unfold rmap, bind, ret. by destruct (read_times n r j) as [[]|].
Qed.

Lemma read_selected_rmap {A} limits (chosen : bool) (r : reader A) i :
  read_selected limits chosen r i = rmap (λ l, if chosen then l else []) (read_vector limits r) i.
Proof.
  unfold read_selected. destruct chosen.
  - unfold rmap. by destruct (read_vector limits r i) as [[]|].
  - unfold discard_records, read_vector, bind, rmap, ret. destruct (read_count limits i) as [[n j]|]; [|done].
    rewrite discard_times_rmap. unfold rmap. by destruct (read_times _ r j) as [[]|].
Qed.

Lemma read_family_rmap limits f i :
  read_fact_records_family limits f i = rmap (restrict_records f) (read_fact_records limits) i.
Proof.
  unfold read_fact_records_family, read_fact_records.
  do 21 (eapply bind_rmap; [intros; apply read_selected_rmap|intros ??]).
  done.
Qed.

Lemma read_batch_rmap limits info f i :
  read_batch limits info (read_fact_records_family limits f) (keep_family f) i
  = rmap (restrict_batch f) (read_batch limits info (read_fact_records limits) id) i.
Proof.
  unfold read_batch. apply (bind_rmap (restrict_records f)); [apply read_family_rmap|intros ??].
  do 7 (apply bind_same; intros ??). done.
Qed.

Lemma restrict_size f r : family_size (restrict_records f r) f = family_size r f.
Proof. by destruct f. Qed.

Lemma find_members_keep f members :
  find_members f (filter (λ m, m.1 = f) members) = find_members f members.
Proof.
  induction members as [|[g l] members IH]; [done|]. cbn [find_members].
  destruct (decide (g = f)) as [->|Hne].
  - rewrite filter_cons_True by done. cbn [find_members]. by rewrite decide_True.
  - by rewrite filter_cons_False.
Qed.

(** C18: Decoding one family agrees with decoding the batch: it skips the other
    families, and returns the batch with their records and members left out. *)
Theorem decode_family_agrees artifact f c batch info :
  decode artifact c = Good (batch, info) →
  decode_family artifact f c = Good (restrict_batch f batch).
Proof.
  intros (storage & digest & info' & i & i' & Ho & Hr & Hend & _ & Hc & _)%decode_inv.
  unfold decode_family. rewrite Ho. cbn [fbind]. unfold make_family_batch. rewrite read_batch_rmap. unfold rmap. rewrite Hr.
  cbn [fbind]. unfold at_end. rewrite Hend, bool_decide_eq_true_2 by done. cbn [negb fail_if fbind].
  unfold validate_partition_family. destruct (existsb _ _) eqn:E; [|done].
  apply existsb_exists in E as (p & Hp%list_elem_of_In & E). cbn [fb_partitions restrict_batch] in Hp.
  apply list_elem_of_fmap in Hp as (q & -> & Hq). cbn [fp_members restrict_batch fb_records] in E.
  rewrite find_members_keep, restrict_size in E.
  destruct (find_members f (fp_members q)) eqn:Hf; [|done].
  by rewrite (layout_in_range _ _ _ _ Hc Hq Hf) in E.
Qed.

(** *** A sample artifact *)

Definition sample_options : FactBatchArtifactEncodeOptions :=
  EncodeOptions
    (ArtifactMetadata (CUint 1) (CUint 1) (CUint 40) 1 (bs "catalog") trusted false
       [bs "z.hpp"; bs "a.hpp"; bs "z.hpp"]) 4096.

Definition sample_limits : FactBatchArtifactDecodeLimits := DecodeLimits 4096 64 8 200.

Definition sample_compatibility : FactBatchArtifactCompatibility :=
  Compatibility (CUint 3) (Some (bs "clang")) None (CUint 1) (CUint 1) (CUint 40) 1 (bs "catalog")
    (Some [bs "a.hpp"; bs "z.hpp"]) false false true sample_limits.

Definition sample_batch : FactBatch := canonical_batch sample_recording.

Definition sample_artifact : bytes := Eval vm_compute in
  match encode sample_batch sample_options with Good storage => storage | Fail _ _ => [] end.

Lemma sample_encoded : encode sample_batch sample_options = Good sample_artifact.
Proof. by vm_compute. Qed.

(** Evaluates lists and numbers, but not the predicates. *)
Ltac solve_fits :=
  repeat lazymatch goal with
  | |- (_ ≤ _)%N => by vm_compute
  | |- (_ < _)%N => by vm_compute
  | |- (_ ≤ _ < _)%Z => by vm_compute
  | |- _ ∧ _ => split
  | |- True => exact I
  | |- _ = _ => by vm_compute
  | |- Forall ?P (_ :: _) => apply (Forall_cons_2 P)
  | |- Forall ?P [] => apply (Forall_nil_2 P)
  | |- Forall ?P ?l => let l' := eval vm_compute in l in change (Forall P l')
  | |- StronglySorted _ ?l => vm_compute; repeat constructor
  | |- _ => progress hnf
  end.

Lemma artifact_round_trip_witness :
  decode (Some sample_artifact) sample_compatibility
  = Good (sample_batch, with_storage (info_of sample_batch (eo_metadata sample_options))
      (sha256_hex (payload sample_batch (eo_metadata sample_options)))
      (N.of_nat (length sample_artifact))).
Proof.
  apply artifact_round_trip.
  - apply sample_encoded.
  - solve_fits.
  - solve_fits.
  - by vm_compute.
  - by vm_compute.
  - by vm_compute.
Defined.

Lemma decode_sound_witness :
  ∃ batch info, decode (Some sample_artifact) sample_compatibility = Good (batch, info)
    ∧ Some sample_artifact = Some (envelope (payload batch (metadata_of info))).
Proof.
  destruct (decode (Some sample_artifact) sample_compatibility) as [[batch info]|] eqn:H.
  - exists batch, info. split; [reflexivity|]. destruct (decode_sound _ _ _ _ H) as (Hs & _).
    exact Hs.
  - exfalso. revert H. by vm_compute.
Defined.

Lemma decode_family_agrees_witness :
  ∃ batch, decode_family (Some sample_artifact) fam_macros sample_compatibility = Good batch
    ∧ mu_name <$> fr_macros (fb_records batch) = [bs "N"; bs "A"; bs "M"]
    ∧ fr_symbol_order (fb_records batch) = [].
Proof.
  destruct (decode (Some sample_artifact) sample_compatibility) as [[batch info]|] eqn:H.
  - exists (restrict_batch fam_macros batch).
    split; [by apply (decode_family_agrees _ fam_macros _ _ _ H)|].
    revert H. vm_compute. intros [= <- _]. done.
  - exfalso. revert H. by vm_compute.
Defined.

(** A flipped byte is found. *)
Example flipped_byte_rejected :
  decode (Some (take 20 sample_artifact ++ "!"%char :: drop 21 sample_artifact)) sample_compatibility
  = Fail corrupt (bs "FactBatch artifact content digest does not match its payload").
Proof. by vm_compute. Qed.
