(* ===== verification/SpillIndex.v ===== *)
(** * The spilling index of identities: [src/src/ast/spillable_identity_index.cpp]

    A map from (kind, key) to handles that keeps a bounded number of entries in
    memory, writes full batches to sorted run files in a directory of its own and
    merges the runs when there are too many.  The directory is a map from file
    names to contents; a failing file system is not modelled.

    [represents s m] is the refinement: the index [s] stands for the finite map
    [m].  [lookup], [insert], [flush], [compact] and [entries] are shown to act on
    [m]. *)

From S2P Require Export Hashing.
From S2P Require Export FactWire.
Open Scope Z_scope.

(** ** Data *)

(** An [enum class : std::uint8_t]; a cast keeps the low byte. *)
Abbreviation FactIdentityKind := N.
Definition kind_symbol : FactIdentityKind := 0.
Definition kind_relation : FactIdentityKind := 1.
Definition kind_type : FactIdentityKind := 2.
Definition kind_definition : FactIdentityKind := 3.
Definition kind_file : FactIdentityKind := 4.
Definition kind_handle : FactIdentityKind := 5.

Abbreviation Identity := (FactIdentityKind * bytes)%type.
Definition identity_ltb : Identity → Identity → bool := pair_ltb N.ltb bytes_ltb.

#[export] Instance identity_order : LtbOrder identity_ltb.
Proof. unfold identity_ltb. apply _. Qed.

Record IdentityRun := Run {
  run_path : bytes;
  entry_count : N;
  byte_size : N;
  first_key : bytes;
  last_key : bytes;
  run_sha256 : bytes
}.

Inductive IdentityInsertResult := inserted | existing | conflict.

Record SpillableIdentityIndexOptions := IndexOptions {
  max_resident_identity_bytes : N;
  max_identity_entries : N;
  max_identity_runs : nat;
  max_total_bytes : N
}.

(** [SpillableIdentityIndex::Impl]; [directory] holds the files of the private
    directory. *)
Record SpillableIdentityIndex := Index {
  ix_options : SpillableIdentityIndexOptions;
  resident : gmap Identity Z;
  runs : list IdentityRun;
  directory : gmap bytes bytes;
  resident_size : N;
  total_size : N;
  total_entries_ : N;
  compaction_serial : N
}.

Definition new_index (options : SpillableIdentityIndexOptions) : SpillableIdentityIndex :=
  Index options ∅ [] ∅ 0 0 0 0.

(** [std::uint64_t] arithmetic. *)
Definition sub64 (a b : N) : N := Z.to_N ((Z.of_N a - Z.of_N b) mod 2 ^ 64).
Definition add64 (a b : N) : N := (a + b) mod 2 ^ 64.

(** ** Run files *)

Definition kMagic : bytes := bs "CIDXIDX1".

Definition nibble (value : ascii) : N :=
  let c := N_of_ascii value in
  if (48 <=? c)%N && (c <=? 57)%N then c - 48
  else if (97 <=? c)%N && (c <=? 102)%N then c - 97 + 10
  else 0.

Definition digest_bytes (digest : bytes) : bytes :=
  if negb (bool_decide (take 7 digest = bs "sha256:")) || negb (length digest =? 71)%nat
  then replicate 32 "000"%char
  else
    (λ index, ascii_of_N
       (N.lor (N.shiftl (nibble (default "000"%char (digest !! (7 + index * 2)%nat))) 4)
          (nibble (default "000"%char (digest !! (8 + index * 2)%nat))))) <$> seq 0 32.

Definition encoded_key (identity : Identity) : bytes :=
  ascii_of_N identity.1 :: "000"%char :: identity.2.

Definition write_identity (entry : Identity * Z) : bytes :=
  write_u64 entry.1.1 ++ write_string entry.1.2 ++ write_i64 entry.2.

Definition write_identity_entries (entries : list (Identity * Z)) : bytes :=
  mjoin (write_identity <$> entries).

(** The keys [first] and [last] that [write_identity_entries] reports. *)
Definition first_of (entries : list (Identity * Z)) : bytes :=
  match entries with [] => [] | entry :: _ => encoded_key entry.1 end.
Definition last_of (entries : list (Identity * Z)) : bytes :=
  match last entries with None => [] | Some entry => encoded_key entry.1 end.

Definition identity_entries (m : gmap Identity Z) : list (Identity * Z) := sorted_entries identity_ltb m.

(** The file that [flush] and [compact] write. *)
Definition run_text (m : gmap Identity Z) : bytes :=
  kMagic ++ write_u64 (N.of_nat (size m)) ++ write_identity_entries (identity_entries m).

(** The run that [flush] and [compact] record for the file. *)
Definition run_of (path : bytes) (m : gmap Identity Z) : IdentityRun :=
  Run path (N.of_nat (size m)) (N.of_nat (length (run_text m))) (first_of (identity_entries m))
    (last_of (identity_entries m)) (digest_bytes (sha256_hex (run_text m))).

(** *** Reading *)

(** Eight bytes of the rest of a stream; the caller names the error. *)
Definition read_word (message stream : bytes) : result (N * bytes) :=
  if (length stream <? 8)%nat then throw message
  else Ok (le_value (take 8 stream), drop 8 stream).

(** [read_u64] on the rest of a stream. *)
Definition get_u64 : bytes → result (N * bytes) := read_word (bs "identity run is truncated").

Definition get_i64 (stream : bytes) : result (Z * bytes) :=
  let! (value, stream) := get_u64 stream in Ok (i64_of_u64 value, stream).

(** A short [input.read] leaves the stream at its end, so [read_i64] throws. *)
Definition get_identity (stream : bytes) : result (Identity * Z * bytes) :=
  let! (kind, stream) := get_u64 stream in
  let! (size, stream) := get_u64 stream in
  let key := take (N.to_nat size) stream in
  let! (handle, stream) := get_i64 (drop (N.to_nat size) stream) in
  Ok ((kind mod 256)%N, key, handle, stream).

Fixpoint get_identities (count : nat) (stream : bytes) : result (list (Identity * Z)) :=
  match count with
  | O => Ok []
  | S count =>
      let! (entry, stream) := get_identity stream in
      let! entries := get_identities count stream in
      Ok (entry :: entries)
  end.

Definition read_identity_entries (files : gmap bytes bytes) (run : IdentityRun)
    : result (list (Identity * Z)) :=
  match files !! run_path run with
  | None => throw (bs "identity run is corrupt during compaction")
  | Some stream =>
      if negb (bool_decide (take 8 stream = kMagic))
      then throw (bs "identity run is corrupt during compaction")
      else
        let! (count, stream) := get_u64 (drop 8 stream) in
        get_identities (N.to_nat count) stream
  end.

Fixpoint find_identity (count : nat) (identity : Identity) (stream : bytes) : result (option Z) :=
  match count with
  | O => Ok None
  | S count =>
      let! (stored, handle, stream) := get_identity stream in
      if decide (stored = identity) then Ok (Some handle) else find_identity count identity stream
  end.

Definition find_in_run (files : gmap bytes bytes) (run : IdentityRun) (identity : Identity)
    : result (option Z) :=
  let target := encoded_key identity in
  if negb (bool_decide (first_key run = [])) && bytes_ltb target (first_key run)
     || negb (bool_decide (last_key run = [])) && bytes_ltb (last_key run) target
  then Ok None
  else
    match files !! run_path run with
    | None => throw (bs "identity run is missing")
    | Some stream =>
        if negb (bool_decide (take 8 stream = kMagic))
        then throw (bs "identity run has an invalid wire version")
        else
          let! (count, stream) := get_u64 (drop 8 stream) in
          find_identity (N.to_nat count) identity stream
    end.

(** ** The index *)

(** [merged[{kind, key}] = handle] and [result.insert_or_assign]. *)
Definition assign (m : gmap Identity Z) (entries : list (Identity * Z)) : gmap Identity Z :=
  foldl (λ m entry, <[entry.1 := entry.2]> m) m entries.

Fixpoint merge_runs (files : gmap bytes bytes) (runs : list IdentityRun) (merged : gmap Identity Z)
    : result (gmap Identity Z) :=
  match runs with
  | [] => Ok merged
  | run :: runs =>
      let! entries := read_identity_entries files run in
      merge_runs files runs (assign merged entries)
  end.

Definition run_name (n : nat) : bytes := bs "run-" ++ to_string (Z.of_nat n) ++ bs ".bin".
Definition compacted_name (n : N) : bytes := bs "run-compacted-" ++ to_string (Z.of_N n) ++ bs ".bin".

Definition compact (s : SpillableIdentityIndex) : result SpillableIdentityIndex :=
  let! merged := merge_runs (directory s) (runs s) ∅ in
  let path := compacted_name (compaction_serial s) in
  let bytes := N.of_nat (length (run_text merged)) in
  if (max_total_bytes (ix_options s) <? bytes)%N
  then throw (bs "identity compaction exceeded its hard limit")
  else
    let files := foldl (λ files run, delete (run_path run) files)
                   (<[path := run_text merged]> (directory s)) (runs s) in
    Ok (Index (ix_options s) (resident s) [run_of path merged] files (resident_size s) bytes
          (total_entries_ s) (compaction_serial s + 1)).

Definition flush (s : SpillableIdentityIndex) : result SpillableIdentityIndex :=
  if decide (resident s = ∅) then Ok s
  else
    let path := run_name (length (runs s)) in
    let bytes := N.of_nat (length (run_text (resident s))) in
    if (sub64 (max_total_bytes (ix_options s)) bytes <? total_size s)%N
    then throw (bs "identity spill hard byte limit exceeded")
    else
      let s := Index (ix_options s) ∅ (runs s ++ [run_of path (resident s)])
                 (<[path := run_text (resident s)]> (directory s)) 0 (add64 (total_size s) bytes)
                 (total_entries_ s) (compaction_serial s) in
      if (max_identity_runs (ix_options s) <? length (runs s))%nat then compact s else Ok s.

Fixpoint find_in_runs (files : gmap bytes bytes) (runs : list IdentityRun) (identity : Identity)
    : result (option Z) :=
  match runs with
  | [] => Ok None
  | run :: runs =>
      let! found := find_in_run files run identity in
      match found with
      | Some handle => Ok (Some handle)
      | None => find_in_runs files runs identity
      end
  end.

Definition lookup (s : SpillableIdentityIndex) (identity : Identity) : result (option Z) :=
  match resident s !! identity with
  | Some handle => Ok (Some handle)
  | None => find_in_runs (directory s) (reverse (runs s)) identity
  end.

Definition cost_of (identity : Identity) : N := N.of_nat (length identity.2) + 8 + 32.

(** The entry does not fit the resident limits. *)
Definition no_room (s : SpillableIdentityIndex) (cost : N) : bool :=
  let o := ix_options s in
  (max_resident_identity_bytes o <? cost)%N
  || (max_resident_identity_bytes o - cost <? resident_size s)%N
  || (max_identity_entries o <=? N.of_nat (size (resident s)))%N.

Definition insert (s : SpillableIdentityIndex) (identity : Identity) (handle : Z)
    : result (IdentityInsertResult * SpillableIdentityIndex) :=
  let! found := lookup s identity in
  match found with
  | Some stored => Ok (if stored =? handle then existing else conflict, s)
  | None =>
      let cost := cost_of identity in
      let! s := if no_room s cost then flush s else Ok s in
      if no_room s cost then throw (bs "identity resident limit is too small for one entry")
      else
        Ok (inserted,
            Index (ix_options s) (<[identity := handle]> (resident s)) (runs s) (directory s)
              (resident_size s + cost) (total_size s) (total_entries_ s + 1) (compaction_serial s))
  end.

Definition entries_of (s : SpillableIdentityIndex) : result (gmap Identity Z) :=
  let! stored := merge_runs (directory s) (runs s) ∅ in
  Ok (assign stored (identity_entries (resident s))).

Definition spilled (s : SpillableIdentityIndex) : bool := negb (bool_decide (runs s = [])).

Lemma sub_u64_small a b : (b ≤ a < 2 ^ 64)%N → sub64 a b = (a - b)%N.
Proof. intros H. unfold sub64. rewrite Z.mod_small; lia. Qed.

Lemma add_u64_small a b : (a + b < 2 ^ 64)%N → add64 a b = (a + b)%N.
Proof. apply N.mod_small. Qed.

(** ** Files are read back *)

Definition wire_entry (identity : Identity) (handle : Z) : Prop :=
  (identity.1 < 256)%N ∧ (N.of_nat (length identity.2) < 2 ^ 64)%N ∧ - 2 ^ 63 <= handle < 2 ^ 63.

(** What fits the fields of a run file. *)
Definition wire_ok (m : gmap Identity Z) : Prop :=
  map_Forall wire_entry m ∧ (N.of_nat (size m) < 2 ^ 64)%N.

Lemma wire_ok_subseteq m m' : m' ⊆ m → wire_ok m → wire_ok m'.
Proof.
  intros Hsub [Hm Hs]. split.
  - intros i x Hi. apply Hm. by eapply lookup_weaken.
  - apply map_subseteq_size in Hsub. lia.
Qed.

Lemma read_word_app message (n : N) t : (n < 2 ^ 64)%N → read_word message (write_u64 n ++ t) = Ok (n, t).
Proof.
  intros Hn. pose proof (length_le_bytes 8 n) as Hl. unfold read_word, write_u64.
  rewrite length_app, Hl, (proj2 (Nat.ltb_ge _ _)) by lia.
  rewrite <-Hl, take_app_length, drop_app_length. rewrite Hl at 1. by rewrite le_value_bytes.
Qed.

Lemma get_u64_app (n : N) t : (n < 2 ^ 64)%N → get_u64 (write_u64 n ++ t) = Ok (n, t).
Proof. apply read_word_app. Qed.

Lemma get_identity_app e t :
  wire_entry e.1 e.2 → get_identity (write_identity e ++ t) = Ok (e, t).
Proof.
  destruct e as [[kind key] h]. intros (Hk & Hl & Hh). cbn [fst snd] in *.
  unfold get_identity, write_identity, write_string, write_size. cbn [fst snd].
  rewrite <-!app_assoc, get_u64_app by lia. cbn [rbind]. rewrite get_u64_app by done. cbn [rbind].
  rewrite Nat2N.id, take_app_length, drop_app_length. unfold get_i64, write_i64.
  destruct (i64_bijection h Hh) as [Hu Hz]. rewrite get_u64_app by done. cbn [rbind].
  by rewrite Hz, N.mod_small.
Qed.

Lemma get_identities_app es t :
  Forall (λ e, wire_entry e.1 e.2) es →
  get_identities (length es) (write_identity_entries es ++ t) = Ok es.
Proof.
  induction 1 as [|e es He _ IH]; [done|]. unfold write_identity_entries in *.
  cbn [fmap list_fmap length get_identities]. change (mjoin (?x :: ?l)) with (x ++ mjoin l).
  rewrite <-app_assoc, get_identity_app by done. cbn [rbind]. by rewrite IH.
Qed.

Lemma find_identity_app es identity t :
  Forall (λ e, wire_entry e.1 e.2) es →
  find_identity (length es) identity (write_identity_entries es ++ t)
  = Ok ((list_to_map es : gmap Identity Z) !! identity).
Proof.
  induction 1 as [|e es He _ IH]; [done|]. unfold write_identity_entries in *.
  cbn [fmap list_fmap length find_identity]. change (mjoin (?x :: ?l)) with (x ++ mjoin l).
  rewrite <-app_assoc, get_identity_app by done. cbn [rbind].
  destruct e as [i h]. cbn [fst snd list_to_map foldr]. destruct (decide (i = identity)) as [->|Hne].
  - by rewrite lookup_insert_eq.
  - by rewrite lookup_insert_ne.
Qed.

Lemma entries_wire m : wire_ok m → Forall (λ e, wire_entry e.1 e.2) (identity_entries m).
Proof.
  intros [Hm _]. apply Forall_forall. intros [i h] Hi%elem_of_sorted_entries. by apply Hm.
Qed.

Lemma map_of_identity_entries (m : gmap Identity Z) : list_to_map (identity_entries m) = m.
Proof. apply map_of_sorted_entries. Qed.

Lemma identity_entries_length m : length (identity_entries m) = size m.
Proof. apply sorted_entries_length. Qed.

(** The header of a run file. *)
Lemma run_text_parts m :
  (N.of_nat (size m) < 2 ^ 64)%N →
  take 8 (run_text m) = kMagic ∧
  get_u64 (drop 8 (run_text m)) = Ok (N.of_nat (size m), write_identity_entries (identity_entries m)).
Proof.
  intros Hm. unfold run_text. change 8%nat with (length kMagic).
  rewrite take_app_length, drop_app_length. split; [done|]. by apply get_u64_app.
Qed.

(** *** Ranges of keys *)

Lemma encoded_key_ltb a b :
  (a.1 < 256)%N → (b.1 < 256)%N → identity_ltb a b = true → bytes_ltb (encoded_key a) (encoded_key b) = true.
Proof.
  destruct a as [k s], b as [k' s']. cbn [fst]. intros Hk Hk'.
  unfold identity_ltb, pair_ltb, encoded_key. cbn [fst snd]. rewrite bytes_ltb_cons.
  rewrite !N_ascii_embedding by done. destruct (k <? k')%N eqn:E1; [left; by apply N.ltb_lt|].
  destruct (k' <? k)%N eqn:E2; [done|]. intros Hs. right.
  assert (k = k') as -> by (apply N.ltb_ge in E1, E2; lia). split; [done|].
  apply bytes_ltb_cons. right. by split.
Qed.

Lemma below_first m identity :
  wire_ok m → (identity.1 < 256)%N →
  bytes_ltb (encoded_key identity) (first_of (identity_entries m)) = true → m !! identity = None.
Proof.
  intros Hw Hk Hlt. destruct (m !! identity) as [h|] eqn:Hm; [exfalso|done].
  pose proof Hm as Hin. apply (elem_of_sorted_entries identity_ltb) in Hin. fold (identity_entries m) in Hin.
  pose proof (sorted_entries_strict identity_ltb m) as Hs. fold (identity_entries m) in Hs.
  pose proof (entries_wire m Hw) as Hwire.
  destruct (identity_entries m) as [|e es]; [by apply elem_of_nil in Hin|]. cbn [first_of] in Hlt.
  apply elem_of_cons in Hin as [<-|Hin]; [by rewrite ltb_irrefl in Hlt|].
  apply StronglySorted_cons in Hs as [He _]. rewrite Forall_forall in He. apply He in Hin.
  apply Forall_cons in Hwire as [[He1 _] _].
  apply encoded_key_ltb in Hin; [|done..]. cbn [fst] in Hin. by rewrite (ltb_asym bytes_ltb _ _ Hin) in Hlt.
Qed.

Lemma above_last m identity :
  wire_ok m → (identity.1 < 256)%N →
  bytes_ltb (last_of (identity_entries m)) (encoded_key identity) = true →
  last_of (identity_entries m) ≠ [] → m !! identity = None.
Proof.
  intros Hw Hk Hlt Hne. destruct (m !! identity) as [h|] eqn:Hm; [exfalso|done].
  pose proof Hm as Hin. apply (elem_of_sorted_entries identity_ltb) in Hin. fold (identity_entries m) in Hin.
  pose proof (sorted_entries_strict identity_ltb m) as Hs. fold (identity_entries m) in Hs.
  pose proof (entries_wire m Hw) as Hwire.
  destruct (snoc_cases (identity_entries m)) as [E|(es & e & E)]; rewrite E in *; [done|].
  unfold last_of in Hlt. rewrite last_snoc in Hlt.
  apply elem_of_app in Hin as [Hin| <-%list_elem_of_singleton]; [|by rewrite ltb_irrefl in Hlt].
  apply StronglySorted_app in Hs as (Hs & _ & _).
  apply Forall_app in Hwire as [_ Hwire]. apply Forall_cons in Hwire as [(He1 & _) _].
  specialize (Hs _ e Hin ltac:(by left)). apply encoded_key_ltb in Hs; [|done..]. cbn [fst] in Hs.
  by rewrite (ltb_asym bytes_ltb _ _ Hs) in Hlt.
Qed.

(** ** The refinement *)

Definition run_holds (files : gmap bytes bytes) (r : IdentityRun) (m : gmap Identity Z) : Prop :=
  files !! run_path r = Some (run_text m) ∧ r = run_of (run_path r) m ∧ wire_ok m.

Lemma find_in_run_spec files r m identity :
  run_holds files r m → (identity.1 < 256)%N → find_in_run files r identity = Ok (m !! identity).
Proof.
  intros (Hf & Hr & Hw) Hk. unfold find_in_run.
  rewrite Hr. cbn [first_key last_key run_path run_of]. destruct (_ || _) eqn:E.
  - apply orb_true_iff in E as [[_ E]%andb_true_iff|[Hne E]%andb_true_iff]; symmetry; f_equal.
    + by apply below_first.
    + apply above_last; [done..|]. apply negb_true_iff, bool_decide_eq_false in Hne. done.
  - rewrite Hf. destruct (run_text_parts m (proj2 Hw)) as [H1 H2].
    rewrite H1, bool_decide_eq_true_2 by done. cbn [negb]. rewrite H2. cbn [rbind].
    rewrite Nat2N.id, <-identity_entries_length, <-(app_nil_r (write_identity_entries _)).
    rewrite find_identity_app by (by apply entries_wire). by rewrite map_of_identity_entries.
Qed.

Lemma read_entries_spec files r m :
  run_holds files r m → read_identity_entries files r = Ok (identity_entries m).
Proof.
  intros (Hf & _ & Hw). unfold read_identity_entries. rewrite Hf.
  destruct (run_text_parts m (proj2 Hw)) as [H1 H2]. rewrite H1, bool_decide_eq_true_2 by done.
  cbn [negb]. rewrite H2. cbn [rbind].
  rewrite Nat2N.id, <-identity_entries_length, <-(app_nil_r (write_identity_entries _)).
  apply get_identities_app. by apply entries_wire.
Qed.

Lemma assign_list m l : NoDup l.*1 → assign m l = (list_to_map l : gmap Identity Z) ∪ m.
Proof.
  revert m. induction l as [|[i h] l IH]; intros m; [symmetry; apply (left_id_L ∅ (∪))|].
  intros [Hi Hnd]%NoDup_cons. cbn [assign foldl]. fold (assign (<[i := h]> m) l).
  rewrite IH by done. cbn. rewrite <-insert_union_l, insert_union_r; [done|].
  by apply not_elem_of_list_to_map_1.
Qed.

Lemma assign_entries acc m : assign acc (identity_entries m) = m ∪ acc.
Proof.
  rewrite assign_list, map_of_identity_entries; [done|].
  apply (strict_NoDup identity_ltb). apply (strict_keys fst identity_ltb).
  apply (sorted_entries_strict identity_ltb).
Qed.

Lemma union_runs_app (ms ms' : list (gmap Identity Z)) : ⋃ (ms ++ ms') = ⋃ ms ∪ ⋃ ms'.
Proof.
  induction ms as [|m ms IH]; [symmetry; apply (left_id_L ∅ (∪))|].
  change (m ∪ ⋃ (ms ++ ms') = m ∪ ⋃ ms ∪ ⋃ ms'). by rewrite IH, (assoc_L (∪)).
Qed.

Lemma merge_runs_spec files rs ms acc :
  Forall2 (run_holds files) rs ms → merge_runs files rs acc = Ok (⋃ (reverse ms) ∪ acc).
Proof.
  intros H. revert acc. induction H as [|r m rs ms Hr _ IH]; intros acc; cbn [merge_runs].
  { symmetry. f_equal. apply (left_id_L ∅ (∪)). }
  rewrite (read_entries_spec _ _ _ Hr). cbn [rbind]. rewrite assign_entries, IH.
  rewrite reverse_cons, union_runs_app, <-(assoc_L (∪)).
  change (⋃ [m]) with (m ∪ ∅). by rewrite (right_id_L ∅ (∪)).
Qed.

Lemma find_in_runs_spec files rs ms identity :
  Forall2 (run_holds files) rs ms → (identity.1 < 256)%N →
  find_in_runs files rs identity = Ok (⋃ ms !! identity).
Proof.
  intros H Hk. induction H as [|r m rs ms Hr _ IH]; [done|]. cbn [find_in_runs].
  rewrite (find_in_run_spec _ _ _ _ Hr Hk). cbn [rbind]. change (⋃ (m :: ms)) with (m ∪ ⋃ ms).
  destruct (m !! identity) as [h|] eqn:E.
  - f_equal. symmetry. by apply lookup_union_Some_l.
  - rewrite IH. f_equal. symmetry. by apply lookup_union_r.
Qed.

(** *** File names *)

Definition own_name (serial : N) (i : nat) (path : bytes) : Prop :=
  path = run_name i ∨ ∃ k, (k < serial)%N ∧ path = compacted_name k.

(** Run [i] lies in the file [run-i.bin] or in the file of an earlier compaction. *)
Definition names_ok (s : SpillableIdentityIndex) : Prop :=
  ∀ i r, runs s !! i = Some r → own_name (compaction_serial s) i (run_path r).

Definition represents (s : SpillableIdentityIndex) (m : gmap Identity Z) : Prop :=
  wire_ok m ∧ names_ok s ∧
  ∃ ms, Forall2 (run_holds (directory s)) (runs s) ms ∧ m = resident s ∪ ⋃ (reverse ms).

(** The in-memory batch is within its limits, and so is the number of runs. *)
Definition bounded (s : SpillableIdentityIndex) : Prop :=
  let o := ix_options s in
  (resident_size s ≤ max_resident_identity_bytes o)%N ∧
  (N.of_nat (size (resident s)) ≤ max_identity_entries o)%N ∧
  (length (runs s) ≤ max 1 (max_identity_runs o))%nat.

Lemma run_name_inj i j : run_name i = run_name j → i = j.
Proof. intros H%app_inv_head%app_inv_tail%(inj to_string). lia. Qed.

Lemma compacted_name_inj i j : compacted_name i = compacted_name j → i = j.
Proof. intros H%app_inv_head%app_inv_tail%(inj to_string). lia. Qed.

Lemma run_name_compacted i k : run_name i ≠ compacted_name k.
Proof.
  unfold run_name, compacted_name.
  change (bs "run-compacted-") with (bs "run-" ++ bs "compacted-"). rewrite <-app_assoc.
  intros H%app_inv_head.
  assert ("c"%char ∈ bs "compacted-" ++ to_string (Z.of_N k) ++ bs ".bin") as Hc by (by left).
  rewrite <-H in Hc. apply elem_of_app in Hc as [Hc|Hc].
  - revert Hc. apply to_string_sep; [done|cbn; lia].
  - revert Hc. by apply (bool_decide_unpack (_ ∉ _)).
Qed.

Lemma run_name_fresh s :
  names_ok s → Forall (λ r, run_path r ≠ run_name (length (runs s))) (runs s).
Proof.
  intros Hn. apply Forall_lookup. intros i r Hi. destruct (Hn i r Hi) as [->|(k & _ & ->)].
  - intros E%run_name_inj. apply lookup_lt_Some in Hi. lia.
  - intros E. by eapply run_name_compacted.
Qed.

Lemma compacted_name_fresh s :
  names_ok s → Forall (λ r, run_path r ≠ compacted_name (compaction_serial s)) (runs s).
Proof.
  intros Hn. apply Forall_lookup. intros i r Hi. destruct (Hn i r Hi) as [->|(k & Hk & ->)].
  - apply run_name_compacted.
  - intros E%compacted_name_inj. lia.
Qed.

Lemma runs_hold_write files rs ms path text :
  Forall (λ r, run_path r ≠ path) rs → Forall2 (run_holds files) rs ms →
  Forall2 (run_holds (<[path := text]> files)) rs ms.
Proof.
  intros Hne H. induction H as [|r m rs ms (Hf & Hr & Hw) _ IH]; [constructor|].
  apply Forall_cons in Hne as [Hne Hrest]. constructor; [|by apply IH].
  split; [|done]. by rewrite lookup_insert_ne.
Qed.

Lemma remove_runs_lookup (files : gmap bytes bytes) rs path :
  Forall (λ r, run_path r ≠ path) rs →
  foldl (λ files run, delete (run_path run) files) files rs !! path = files !! path.
Proof.
  intros H. revert files. induction H as [|r rs Hr _ IH]; intros files; [done|].
  cbn [foldl]. by rewrite IH, lookup_delete_ne.
Qed.

(** ** The operations act on the map *)

Lemma new_index_represents options : represents (new_index options) ∅.
Proof. split; [by split|]. split; [done|]. by exists []. Qed.

Lemma new_index_bounded options : bounded (new_index options).
Proof.
  unfold bounded. cbn [resident new_index runs resident_size]. rewrite map_size_empty. cbn [length]. lia.
Qed.

Lemma lookup_spec s m identity :
  represents s m → (identity.1 < 256)%N → lookup s identity = Ok (m !! identity).
Proof.
  intros (_ & _ & ms & Hms & ->) Hk. unfold lookup. destruct (resident s !! identity) as [h|] eqn:E.
  - f_equal. symmetry. by apply lookup_union_Some_l.
  - rewrite (find_in_runs_spec (directory s) _ (reverse ms)); [|by apply Forall2_reverse|done].
    f_equal. symmetry. by apply lookup_union_r.
Qed.

Lemma entries_spec s m : represents s m → entries_of s = Ok m.
Proof.
  intros (_ & _ & ms & Hms & ->). unfold entries_of.
  rewrite (merge_runs_spec _ _ _ _ Hms). cbn [rbind]. rewrite assign_entries.
  by rewrite (right_id_L ∅ (∪)).
Qed.

Lemma compact_spec s s' m :
  represents s m → resident s = ∅ → compact s = Ok s' →
  represents s' m ∧ resident s' = ∅ ∧ resident_size s' = resident_size s ∧
  ix_options s' = ix_options s ∧ length (runs s') = 1%nat.
Proof.
  intros (Hw & Hn & ms & Hms & Hm) Hr. rewrite Hr, (left_id_L ∅ (∪)) in Hm. unfold compact.
  rewrite (merge_runs_spec _ _ _ _ Hms). cbn [rbind]. rewrite (right_id_L ∅ (∪)), <-Hm.
  destruct (_ <? _)%N; [done|]. intros [= <-]. cbn [resident resident_size ix_options runs length].
  split; [|done]. split; [done|]. split.
  - intros [|i] r [= <-]. right. exists (compaction_serial s). split; [cbn; lia|done].
  - exists [m]. split.
    + constructor; [|constructor]. split; [|done]. cbn [directory run_path run_of].
      rewrite remove_runs_lookup by (by apply compacted_name_fresh). by rewrite lookup_insert_eq.
    + cbn [resident]. rewrite Hr, (left_id_L ∅ (∪)). symmetry. apply (right_id_L ∅ (∪)).
Qed.

(** Writing the batch as a run keeps the map. *)
Lemma write_run_represents s m n :
  represents s m →
  represents (Index (ix_options s) ∅ (runs s ++ [run_of (run_name (length (runs s))) (resident s)])
    (<[run_name (length (runs s)) := run_text (resident s)]> (directory s)) 0 n
    (total_entries_ s) (compaction_serial s)) m.
Proof.
  intros (Hw & Hn & ms & Hms & Hm). split; [done|]. split.
  - intros i r. cbn [runs compaction_serial]. intros [Hi|[Hi Hr]]%lookup_app_Some; [by apply Hn|].
    left. apply list_lookup_singleton_Some in Hr as [Hi0 <-]. cbn [run_path run_of]. f_equal. lia.
  - exists (ms ++ [resident s]). cbn [directory runs resident]. split.
    + apply Forall2_app; [by apply runs_hold_write; [apply run_name_fresh|]|].
      constructor; [|constructor]. split; [by rewrite lookup_insert_eq|]. split; [done|].
      eapply wire_ok_subseteq; [|done]. rewrite Hm. apply map_union_subseteq_l.
    + rewrite reverse_app, Hm, (left_id_L ∅ (∪)). done.
Qed.

Lemma flush_represents s s' m :
  represents s m → bounded s → flush s = Ok s' →
  represents s' m ∧ bounded s' ∧ ix_options s' = ix_options s ∧
  (resident s = ∅ ∧ s' = s ∨ resident s' = ∅ ∧ resident_size s' = 0%N).
Proof.
  intros Hs Hb. unfold flush. destruct (decide _) as [Hr|Hr].
  { intros [= <-]. naive_solver. }
  destruct (_ <? total_size s)%N; [done|]. cbv zeta.
  set (n := add64 _ _). pose proof (write_run_represents s m n Hs) as Hw. revert Hw.
  set (s1 := Index _ _ _ _ _ _ _ _). intros Hw. unfold bounded in *.
  destruct (_ <? length (runs s1))%nat eqn:El.
  - intros Hc. destruct (compact_spec s1 s' m Hw eq_refl Hc) as (Hs' & Hr' & Hz & Ho & Hl).
    rewrite Hr', Hz, Ho, Hl, map_size_empty. change (resident_size s1) with 0%N.
    change (ix_options s1) with (ix_options s). split; [done|]. split; [split_and!; lia|]. split; [done|]. by right.
  - intros [= <-]. apply Nat.ltb_ge in El. change (max_identity_runs (ix_options s1)) with (max_identity_runs (ix_options s)) in El. split; [done|].
    change (resident s1) with (∅ : gmap Identity Z). change (resident_size s1) with 0%N.
    change (ix_options s1) with (ix_options s). rewrite map_size_empty.
    split; [split_and!; lia|]. split; [done|]. by right.
Qed.

(** What [insert] answers and does, on the map. *)
Definition model_insert (m : gmap Identity Z) (identity : Identity) (handle : Z)
    : IdentityInsertResult * gmap Identity Z :=
  match m !! identity with
  | Some stored => (if stored =? handle then existing else conflict, m)
  | None => (inserted, <[identity := handle]> m)
  end.

Lemma no_room_false s cost :
  no_room s cost = false →
  (cost ≤ max_resident_identity_bytes (ix_options s))%N ∧
  (resident_size s + cost ≤ max_resident_identity_bytes (ix_options s))%N ∧
  (N.of_nat (size (resident s)) < max_identity_entries (ix_options s))%N.
Proof.
  unfold no_room. intros [[H1%N.ltb_ge H2%N.ltb_ge]%orb_false_iff H3%N.leb_gt]%orb_false_iff. lia.
Qed.

(** A new entry in the batch. *)
Lemma put_represents s m identity handle n k :
  represents s m → wire_entry identity handle → (N.of_nat (size m) + 1 < 2 ^ 64)%N → m !! identity = None →
  represents (Index (ix_options s) (<[identity := handle]> (resident s)) (runs s) (directory s) n
    (total_size s) k (compaction_serial s)) (<[identity := handle]> m).
Proof.
  intros ([Hm _] & Hn & ms & Hms & ->) He Hsz Hnone. split; [|split; [done|]].
  - split; [by apply map_Forall_insert_2|]. rewrite map_size_insert_None by done. lia.
  - exists ms. split; [done|]. cbn [resident]. apply insert_union_l.
Qed.

Lemma insert_spec s m identity handle r s' :
  represents s m → bounded s → wire_entry identity handle → (N.of_nat (size m) + 1 < 2 ^ 64)%N →
  insert s identity handle = Ok (r, s') →
  r = (model_insert m identity handle).1 ∧ represents s' (model_insert m identity handle).2 ∧
  bounded s' ∧ ix_options s' = ix_options s.
Proof.
  intros Hs Hb He Hsz. unfold insert, model_insert.
  rewrite (lookup_spec _ _ _ Hs (proj1 He)). cbn [rbind].
  destruct (m !! identity) as [stored|] eqn:Em; [by intros [= <- <-]|].
  intros Hi. apply rbind_Ok in Hi as (s1 & H1 & Hi).
  assert (represents s1 m ∧ bounded s1 ∧ ix_options s1 = ix_options s) as (Hs1 & Hb1 & Ho).
  { destruct (no_room s _); [|by injection H1 as <-].
    destruct (flush_represents _ _ _ Hs Hb H1) as (? & ? & ? & _). done. }
  destruct (no_room s1 _) eqn:Er; [done|]. injection Hi as <- <-. split; [done|].
  split; [by apply put_represents|]. split; [|done].
  apply no_room_false in Er as (_ & E2 & E3). destruct Hb1 as (B1 & B2 & B3).
  unfold bounded. cbn [ix_options resident resident_size runs]. split_and!; [done| |done].
  rewrite map_size_insert. destruct (resident s1 !! _); cbn [id]; lia.
Qed.

(** *** Sequences of insertions *)

Fixpoint inserts (s : SpillableIdentityIndex) (entries : list (Identity * Z))
    : result (list IdentityInsertResult * SpillableIdentityIndex) :=
  match entries with
  | [] => Ok ([], s)
  | (identity, handle) :: entries =>
      let! (answer, s) := insert s identity handle in
      let! (answers, s) := inserts s entries in
      Ok (answer :: answers, s)
  end.

Fixpoint model_inserts (m : gmap Identity Z) (entries : list (Identity * Z))
    : list IdentityInsertResult * gmap Identity Z :=
  match entries with
  | [] => ([], m)
  | (identity, handle) :: entries =>
      let (answer, m) := model_insert m identity handle in
      let (answers, m) := model_inserts m entries in (answer :: answers, m)
  end.

Lemma map_insert_size m identity handle : (size (model_insert m identity handle).2 ≤ S (size m))%nat.
Proof.
  unfold model_insert. destruct (m !! identity) eqn:E; cbn [snd]; [lia|].
  by rewrite map_size_insert_None.
Qed.

Lemma inserts_spec entries s m answers s' :
  represents s m → bounded s → Forall (λ e, wire_entry e.1 e.2) entries →
  (N.of_nat (size m + length entries) < 2 ^ 64)%N →
  inserts s entries = Ok (answers, s') →
  answers = (model_inserts m entries).1 ∧ represents s' (model_inserts m entries).2 ∧
  bounded s' ∧ ix_options s' = ix_options s.
Proof.
  revert s m answers. induction entries as [|[identity handle] entries IH]; intros s m answers Hs Hb He Hsz Hi.
  { injection Hi as <- <-. done. }
  apply Forall_cons in He as [He Hes]. cbn [length] in Hsz. cbn [inserts] in Hi.
  apply rbind_Ok in Hi as ([r s1] & H1 & Hi). apply rbind_Ok in Hi as ([rs s2] & H2 & Hi).
  injection Hi as <- <-. apply (insert_spec s m) in H1 as (Hr & Hs1 & Hb1 & Ho1); [|done..|lia].
  pose proof (map_insert_size m identity handle) as Hle.
  apply (IH s1 (model_insert m identity handle).2) in H2 as (Hrs & Hs2 & Hb2 & Ho2); [|done..|lia].
  cbn [model_inserts]. destruct (model_insert m identity handle) as [r0 m0]. cbn [fst snd] in *.
  destruct (model_inserts m0 entries) as [rs0 m1]. cbn [fst snd] in *. by rewrite Hr, Hrs, Ho2.
Qed.

(** C25: The spilling index refines a finite map.  Whenever a sequence of
    insertions into a new index succeeds, however often it wrote and merged runs,
    the answers are those of the map (inserted, existing, or conflict with the
    first handle kept), every later [lookup] and [entries] gives the map's content,
    and the entries in memory and the number of runs are within the options'
    limits. *)
Theorem index_refines_map options entries answers s :
  Forall (λ e, wire_entry e.1 e.2) entries → (N.of_nat (length entries) < 2 ^ 64)%N →
  inserts (new_index options) entries = Ok (answers, s) →
  let '(expected, m) := model_inserts ∅ entries in
  answers = expected ∧
  (∀ identity, (identity.1 < 256)%N → lookup s identity = Ok (m !! identity)) ∧
  entries_of s = Ok m ∧ bounded s ∧ ix_options s = options.
Proof.
  intros He Hl Hi. assert (bounded (new_index options)) as Hb by apply new_index_bounded.
  apply (inserts_spec entries _ ∅) in Hi as (Ha & Hs & Hbs & Ho);
    [|apply new_index_represents|done..].
  destruct (model_inserts ∅ entries) as [expected m]. cbn [fst snd] in *.
  split; [done|]. split; [intros identity Hk; by apply lookup_spec|].
  split; [by apply entries_spec|done].
Qed.

(** *** Progress *)

(** The bytes that a list of entries costs in memory. *)
Definition spend_list (entries : list (Identity * Z)) : N :=
  foldr (λ e, N.add (cost_of e.1)) 0%N entries.
Definition spend (m : gmap Identity Z) : N := spend_list (map_to_list m).

#[local] Instance spend_list_perm : Proper ((≡ₚ) ==> (=)) spend_list.
Proof. intros l k H. unfold spend_list. induction H; cbn [foldr]; lia. Qed.

Lemma spend_insert m identity handle :
  m !! identity = None → spend (<[identity := handle]> m) = (cost_of identity + spend m)%N.
Proof. intros H. unfold spend. by rewrite map_to_list_insert. Qed.

Lemma spend_empty : spend ∅ = 0%N.
Proof. unfold spend. by rewrite map_to_list_empty. Qed.

Lemma write_identity_length e : N.of_nat (length (write_identity e)) = (N.of_nat (length e.1.2) + 24)%N.
Proof.
  unfold write_identity, write_string, write_size, write_i64, write_u64.
  rewrite !length_app, !length_le_bytes. lia.
Qed.

Lemma write_entries_length es :
  (N.of_nat (length (write_identity_entries es)) + 16 * N.of_nat (length es) = spend_list es)%N.
Proof.
  induction es as [|e es IH]; [done|]. unfold write_identity_entries, spend_list in *.
  cbn [fmap list_fmap length foldr]. change (mjoin (?x :: ?l)) with (x ++ mjoin l).
  rewrite length_app. pose proof (write_identity_length e). unfold cost_of at 1. lia.
Qed.

(** A run is not longer than what its entries cost in memory. *)
Lemma run_text_length m : m ≠ ∅ → (N.of_nat (length (run_text m)) ≤ spend m)%N.
Proof.
  intros Hm. unfold run_text, write_u64. rewrite !length_app, length_le_bytes.
  change (length kMagic) with 8%nat. pose proof (write_entries_length (identity_entries m)) as H.
  unfold identity_entries in *. rewrite sorted_entries_length in H.
  rewrite (spend_list_perm _ _ (sorted_entries_perm identity_ltb m)) in H.
  apply map_size_non_empty_iff in Hm. unfold spend. lia.
Qed.

(** The counters of the index that stands for [m]. *)
Definition accounts (s : SpillableIdentityIndex) (m : gmap Identity Z) : Prop :=
  resident_size s = spend (resident s) ∧ (total_size s + spend (resident s) ≤ spend m)%N ∧
  total_entries_ s = N.of_nat (size m).

Lemma compact_progress s m :
  represents s m → accounts s m → resident s = ∅ → m ≠ ∅ →
  (spend m ≤ max_total_bytes (ix_options s))%N →
  ∃ s', compact s = Ok s' ∧ accounts s' m.
Proof.
  intros (Hw & Hn & ms & Hms & Hm) (A1 & A2 & A3) Hr Hne Hmax. rewrite Hr, (left_id_L ∅ (∪)) in Hm.
  unfold compact. rewrite (merge_runs_spec _ _ _ _ Hms). cbn [rbind]. rewrite (right_id_L ∅ (∪)), <-Hm.
  pose proof (run_text_length m Hne) as Hl. rewrite (proj2 (N.ltb_ge _ _)) by lia.
  eexists. split; [done|]. unfold accounts. cbn [resident_size resident total_size total_entries_].
  rewrite Hr, spend_empty in *. split_and!; [done|lia|done].
Qed.

Lemma flush_progress s m :
  represents s m → accounts s m → (spend m ≤ max_total_bytes (ix_options s) < 2 ^ 64)%N →
  ∃ s', flush s = Ok s' ∧ accounts s' m.
Proof.
  intros Hs (A1 & A2 & A3) Hmax. unfold flush. destruct (decide _) as [Hr|Hr]; [by exists s|].
  pose proof (run_text_length _ Hr) as Hl.
  rewrite sub_u64_small by lia. rewrite (proj2 (N.ltb_ge _ _)) by lia.
  assert (m ≠ ∅) as Hm.
  { destruct Hs as (_ & _ & ms & _ & ->). intros E%map_positive_l. done. }
  cbv zeta. set (n := add64 _ _). assert (n ≤ spend m)%N as Hn.
  { unfold n. rewrite add_u64_small; lia. }
  pose proof (write_run_represents s m n Hs) as Hw. revert Hw. set (s1 := Index _ _ _ _ _ _ _ _).
  intros Hw. assert (accounts s1 m) as Ha.
  { unfold accounts, s1. cbn [resident_size resident total_size total_entries_]. rewrite spend_empty. split_and!; [done|lia|done]. }
  destruct (_ <? length _)%nat; [|by exists s1].
  apply compact_progress; [done..|]. change (ix_options s1) with (ix_options s). lia.
Qed.

Lemma insert_progress s m identity handle :
  represents s m → bounded s → accounts s m → (identity.1 < 256)%N →
  let o := ix_options s in
  (0 < max_identity_entries o)%N → (cost_of identity ≤ max_resident_identity_bytes o)%N →
  (spend m ≤ max_total_bytes o < 2 ^ 64)%N →
  ∃ r s', insert s identity handle = Ok (r, s') ∧ accounts s' (model_insert m identity handle).2.
Proof.
  intros Hs Hb Ha Hk o Ho Hc Hmax. unfold insert, model_insert.
  rewrite (lookup_spec _ _ _ Hs Hk). cbn [rbind]. destruct (m !! identity) as [stored|] eqn:Em.
  { by eexists _, s. }
  assert (∃ s1, (if no_room s (cost_of identity) then flush s else Ok s) = Ok s1 ∧
    accounts s1 m ∧ no_room s1 (cost_of identity) = false ∧ represents s1 m) as (s1 & -> & A & Hroom & Hs1).
  { destruct (no_room s _) eqn:Er; [|by exists s].
    destruct (flush_progress s m Hs Ha Hmax) as (s1 & H1 & A1). exists s1. split; [done|]. split; [done|].
    destruct (flush_represents s s1 m Hs Hb H1) as (Hs1 & _ & Hopt & Hcase). split; [|done].
    assert (resident s1 = ∅) as Hr by naive_solver. destruct A1 as (A1 & _).
    unfold no_room. rewrite A1, Hr, spend_empty, map_size_empty, Hopt. fold o.
    rewrite !orb_false_iff, !N.ltb_ge, N.leb_gt. lia. }
  cbn [rbind]. rewrite Hroom. eexists _, _. split; [done|].
  assert (resident s1 !! identity = None) as Hn.
  { destruct Hs1 as (_ & _ & ms & _ & ->). by apply lookup_union_None in Em as [? _]. }
  destruct A as (A1 & A2 & A3). unfold accounts. cbn [snd resident_size resident total_size total_entries_].
  rewrite !spend_insert, map_size_insert_None, A1, A3 by done. lia.
Qed.

Lemma inserts_progress entries s m :
  represents s m → bounded s → accounts s m →
  Forall (λ e, wire_entry e.1 e.2) entries → (N.of_nat (size m + length entries) < 2 ^ 64)%N →
  let o := ix_options s in
  Forall (λ e, (cost_of e.1 ≤ max_resident_identity_bytes o)%N) entries →
  (0 < max_identity_entries o)%N →
  (spend m + spend_list entries ≤ max_total_bytes o < 2 ^ 64)%N →
  ∃ answers s', inserts s entries = Ok (answers, s') ∧ accounts s' (model_inserts m entries).2.
Proof.
  revert s m. induction entries as [|[identity handle] entries IH]; intros s m Hs Hb Ha He Hsz o Hc Ho Hmax.
  { by exists [], s. }
  apply Forall_cons in He as [He Hes]. apply Forall_cons in Hc as [Hc Hcs].
  cbn [length] in Hsz. unfold spend_list in Hmax. cbn [foldr fst snd] in *. fold (spend_list entries) in Hmax.
  destruct (insert_progress s m identity handle) as (r & s1 & H1 & Ha1); [done..|apply He|done|done|fold o; lia|].
  destruct (insert_spec s m identity handle r s1) as (Hr & Hs1 & Hb1 & Hopt); [done..|lia|done|].
  pose proof (map_insert_size m identity handle) as Hle.
  assert (spend (model_insert m identity handle).2 ≤ cost_of identity + spend m)%N as Hsp.
  { unfold model_insert. destruct (m !! identity) eqn:E; cbn [snd]; [lia|]. by rewrite spend_insert. }
  destruct (IH s1 (model_insert m identity handle).2) as (rs & s2 & H2 & Ha2);
    rewrite ?Hopt; try done; fold o; [lia|lia|].
  exists (r :: rs), s2. cbn [inserts]. rewrite H1. cbn [rbind]. rewrite H2. split; [done|].
  cbn [model_inserts]. destruct (model_insert m identity handle) as [r0 m0]. cbn [snd] in Ha2.
  by destruct (model_inserts m0 entries).
Qed.

(** Insertion never fails while the limits leave room.  If the file limit is at
    least what all entries cost together (and is below [2^64]), every single entry
    fits the memory limit and the entry limit is not zero, then every sequence of
    insertions into a new index succeeds, however often it spills and compacts. *)
Theorem index_accepts options entries :
  Forall (λ e, wire_entry e.1 e.2) entries → (N.of_nat (length entries) < 2 ^ 64)%N →
  Forall (λ e, (cost_of e.1 ≤ max_resident_identity_bytes options)%N) entries →
  (0 < max_identity_entries options)%N →
  (spend_list entries ≤ max_total_bytes options < 2 ^ 64)%N →
  ∃ s, inserts (new_index options) entries = Ok ((model_inserts ∅ entries).1, s) ∧
       total_entries_ s = N.of_nat (size (model_inserts ∅ entries).2).
Proof.
  intros He Hl Hc Ho Hmax.
  assert (bounded (new_index options)) as Hb by apply new_index_bounded.
  destruct (inserts_progress entries (new_index options) ∅) as (answers & s & Hi & _ & _ & A3);
    try done; [apply new_index_represents|].
  exists s. split; [|done].
  apply (inserts_spec entries _ ∅) in Hi as H; [|apply new_index_represents|done..].
  destruct H as (<- & _). done.
Qed.

(** Two identities per run, at most two runs. *)
Definition sample_options : SpillableIdentityIndexOptions := IndexOptions 100 2 2 10000.
Definition sample_entries : list (Identity * Z) :=
  [((0%N, bs "b"), 7); ((0%N, bs "a"), 8); ((2%N, bs "t"), -1); ((0%N, bs "b"), 9); ((0%N, bs "a"), 8);
   ((1%N, bs "r"), 3); ((5%N, bs "h"), 4); ((4%N, bs "f"), 5); ((3%N, []), 6); ((0%N, bs "z"), 2)].

Lemma index_refines_map_witness :
  ∃ answers s, inserts (new_index sample_options) sample_entries = Ok (answers, s) ∧
    spilled s = true ∧ compaction_serial s = 1%N ∧
    answers = [inserted; inserted; inserted; conflict; existing; inserted; inserted; inserted; inserted; inserted] ∧
    lookup s (0%N, bs "b") = Ok (Some 7) ∧ lookup s (0%N, bs "c") = Ok None.
Proof.
  assert (match inserts (new_index sample_options) sample_entries with
          | Ok (_, s) => spilled s && (compaction_serial s =? 1)%N | Err _ => false end = true) as Hs
    by (vm_compute; reflexivity).
  destruct (inserts (new_index sample_options) sample_entries) as [[answers s]|e] eqn:E; [|discriminate Hs].
  destruct (index_refines_map sample_options sample_entries answers s) as (Ha & Hl & _); [repeat constructor; cbn; lia|cbn; lia|done|].
  apply andb_true_iff in Hs as [Hs1 Hs2%N.eqb_eq]. exists answers, s. split_and!; [done..| | |].
  - rewrite Ha. vm_compute. done.
  - rewrite Hl by done. vm_compute. done.
  - rewrite Hl by done. vm_compute. done.
Defined.

Lemma index_accepts_witness :
  ∃ s, inserts (new_index sample_options) sample_entries = Ok ((model_inserts ∅ sample_entries).1, s) ∧
       total_entries_ s = 8%N.
Proof.
  destruct (index_accepts sample_options sample_entries) as (s & H & Ht);
    [repeat constructor; cbn; lia|cbn; lia|by apply (bool_decide_unpack _)|done|vm_compute; done|].
  exists s. split; [done|]. rewrite Ht. vm_compute. done.
Defined.

(** The file limit of a run that is longer than the limit is not enforced: the
    unsigned subtraction wraps around. *)
Example oversized_run_is_accepted :
  ∃ s, inserts (new_index (IndexOptions 100 1 8 10)) (take 2 sample_entries) = Ok ([inserted; inserted], s) ∧
       (max_total_bytes (ix_options s) < total_size s)%N.
Proof.
  eexists. split; [vm_compute; reflexivity|]. by vm_compute.
Qed.
