(* ===== verification/SpillBuffer.v ===== *)
(** * The spilling buffer of records: [src/src/ast/spillable_fact_buffer.cpp]

    An append-only list that writes its records to numbered segment files when the
    resident ones pass a threshold, and reads them back in order.  The record codec
    is the owner's: the class [SpillCodec] states what the buffer expects of it, and
    the codec of symbol records ([encode_symbol_record] and [decode_symbol_record]
    of [ast/fact_batch.cpp]) is an instance.  The directory is a map from file names
    to contents; a failing file system is not modelled. *)

From S2P Require Export SpillIndex.
From S2P Require Export FactRecords.
Open Scope Z_scope.

(** ** Data *)

Record SpillSegment := Segment {
  sg_path : bytes;
  sg_family : FactFamily;
  first_index : N;
  record_count : N;
  sg_byte_size : N;
  sg_sha256 : bytes
}.

Record SpillableFactBufferOptions := BufferOptions {
  bo_family : FactFamily;
  spill_threshold_bytes : N;
  bo_max_total_bytes : N
}.

(** [SpillableFactBuffer<Record>::Impl]; an absent function is [None]. *)
Record SpillableFactBuffer (T : Type) := Buffer {
  bf_options : SpillableFactBufferOptions;
  encoder : option (T → bytes);
  decoder : option (bytes → result T);
  bf_resident : list T;
  segments : list SpillSegment;
  bf_directory : gmap bytes bytes;
  next_index : N;
  bf_resident_size : N;
  bf_total_size : N
}.
Arguments Buffer {T} _ _ _ _ _ _ _ _ _.
Arguments bf_options {T} _.
Arguments encoder {T} _.
Arguments decoder {T} _.
Arguments bf_resident {T} _.
Arguments segments {T} _.
Arguments bf_directory {T} _.
Arguments next_index {T} _.
Arguments bf_resident_size {T} _.
Arguments bf_total_size {T} _.

(** [FrozenFactRecords]: [InMemoryRecords] or [SpilledRecords]. *)
Inductive FrozenFactRecords (T : Type) :=
| InMemory (records : list T)
| Spilled (records : list T) (segments : list SpillSegment).
Arguments InMemory {T} _.
Arguments Spilled {T} _ _.

Definition kSegmentMagic : bytes := bs "CIDXSEG1".
Definition segment_name (n : nat) : bytes := bs "segment-" ++ to_string (Z.of_nat n) ++ bs ".bin".
Definition truncated_segment : bytes := bs "fact spill segment is truncated".

(** ** Operations *)

Section operations.
Context {T : Type}.

Definition new_buffer (options : SpillableFactBufferOptions) (encode : option (T → bytes))
    (decode : option (bytes → result T)) : SpillableFactBuffer T :=
  Buffer options encode decode [] [] ∅ 0 0 0.

Definition write_segment_records (encode : T → bytes) (records : list T) : bytes :=
  mjoin ((λ r, write_string (encode r)) <$> records).

Definition segment_text (family : FactFamily) (first : N) (encode : T → bytes) (records : list T) : bytes :=
  kSegmentMagic ++ write_u64 (to_underlying family) ++ write_u64 first
  ++ write_u64 (N.of_nat (length records)) ++ write_segment_records encode records.

Definition segment_of (family : FactFamily) (path : bytes) (first : N) (encode : T → bytes)
    (records : list T) : SpillSegment :=
  let text := segment_text family first encode records in
  Segment path family first (N.of_nat (length records)) (N.of_nat (length text))
    (digest_bytes (sha256_hex text)).

Definition spill (s : SpillableFactBuffer T) : result (SpillableFactBuffer T) :=
  match bf_resident s, encoder s, decoder s with
  | [], _, _ => Ok s
  | records, Some encode, Some _ =>
      let o := bf_options s in
      let path := segment_name (length (segments s)) in
      let first := sub64 (next_index s) (N.of_nat (length records)) in
      let text := segment_text (bo_family o) first encode records in
      let size := N.of_nat (length text) in
      let prior_bytes := sub64 (bf_total_size s) (bf_resident_size s) in
      if (bo_max_total_bytes o <? size)%N || (sub64 (bo_max_total_bytes o) size <? prior_bytes)%N
      then throw (bs "fact spill hard byte limit exceeded")
      else
        Ok (Buffer o (encoder s) (decoder s) []
              (segments s ++ [segment_of (bo_family o) path first encode records])
              (<[path := text]> (bf_directory s)) (next_index s) 0 (add64 prior_bytes size))
  | _, _, _ => throw (bs "fact spill buffer has no record codec")
  end.

Definition append (s : SpillableFactBuffer T) (record : T) : result (N * SpillableFactBuffer T) :=
  match encoder s with
  | None => throw (bs "fact spill buffer has no record encoder")
  | Some encode =>
      let o := bf_options s in
      let encoded_size := N.of_nat (length (encode record)) in
      let framed := add64 encoded_size 8 in
      if (bo_max_total_bytes o <? encoded_size)%N || (bo_max_total_bytes o <? framed)%N
         || (sub64 (sub64 (bo_max_total_bytes o) encoded_size) 8 <? bf_total_size s)%N
      then throw (bs "fact payload hard byte limit exceeded")
      else
        let index := next_index s in
        let s := Buffer o (encoder s) (decoder s) (bf_resident s ++ [record]) (segments s)
                   (bf_directory s) (add64 index 1) (add64 (bf_resident_size s) framed)
                   (add64 (bf_total_size s) framed) in
        let! s := if (spill_threshold_bytes o <=? bf_resident_size s)%N then spill s else Ok s in
        Ok (index, s)
  end.

Definition buffer_spilled (s : SpillableFactBuffer T) : bool := negb (bool_decide (segments s = [])).

(** The records of a segment with their indices, as [for_each_in_order] passes
    them to its consumer. *)
Fixpoint read_segment_records (decode : bytes → result T) (count : nat) (index : N) (stream : bytes)
    : result (list (N * T)) :=
  match count with
  | O => Ok []
  | S count =>
      let! (size, stream) := read_word truncated_segment stream in
      if (2 ^ 64 - 1 <? size)%N then throw (bs "fact spill record is too large")
      else if (length stream <? N.to_nat size)%nat then throw truncated_segment
      else
        let! record := decode (take (N.to_nat size) stream) in
        let! records := read_segment_records decode count (add64 index 1) (drop (N.to_nat size) stream) in
        Ok ((index, record) :: records)
  end.

Definition read_segment (files : gmap bytes bytes) (decode : bytes → result T) (segment : SpillSegment)
    : result (list (N * T)) :=
  match files !! sg_path segment with
  | None => throw (bs "fact spill segment is missing")
  | Some stream =>
      if negb (bool_decide (take 8 stream = kSegmentMagic))
      then throw (bs "fact spill segment has an invalid wire version")
      else
        let! (_, stream) := read_word truncated_segment (drop 8 stream) in
        let! (first, stream) := read_word truncated_segment stream in
        let! (count, stream) := read_word truncated_segment stream in
        read_segment_records decode (N.to_nat count) first stream
  end.

Fixpoint read_segments (files : gmap bytes bytes) (decode : bytes → result T)
    (segments : list SpillSegment) : result (list (N * T)) :=
  match segments with
  | [] => Ok []
  | segment :: segments =>
      let! records := read_segment files decode segment in
      let! rest := read_segments files decode segments in
      Ok (records ++ rest)
  end.

(** Records with consecutive indices. *)
Fixpoint indexed (index : N) (records : list T) : list (N * T) :=
  match records with
  | [] => []
  | record :: records => (index, record) :: indexed (add64 index 1) records
  end.

Definition for_each_in_order (s : SpillableFactBuffer T) : result (list (N * T)) :=
  let decode := default (λ _, throw (bs "bad_function_call")) (decoder s) in
  let! spilled := read_segments (bf_directory s) decode (segments s) in
  Ok (spilled ++ indexed (sub64 (next_index s) (N.of_nat (length (bf_resident s)))) (bf_resident s)).

Definition freeze (s : SpillableFactBuffer T) : FrozenFactRecords T :=
  match segments s with
  | [] => InMemory (bf_resident s)
  | _ => Spilled (bf_resident s) (segments s)
  end.

Fixpoint appends (s : SpillableFactBuffer T) (records : list T) : result (list N * SpillableFactBuffer T) :=
  match records with
  | [] => Ok ([], s)
  | record :: records =>
      let! (index, s) := append s record in
      let! (indices, s) := appends s records in
      Ok (index :: indices, s)
  end.
End operations.

(** ** The codec that the owner of the records supplies *)

Class SpillCodec (T : Type) := {
  encode : T → bytes;
  decode : bytes → result T;
  encodable : T → Prop;
  decode_encode r : encodable r → decode (encode r) = Ok r;
  encode_length r : encodable r → (N.of_nat (length (encode r)) + 8 < 2 ^ 64)%N
}.

(** ** The buffer stands for a list *)

Section refinement.
Context `{SpillCodec T}.

(** The bytes that a record takes in a segment. *)
Definition framed_size (records : list T) : N :=
  foldr (λ r n, N.of_nat (length (encode r)) + 8 + n)%N 0%N records.

Inductive segments_hold (family : FactFamily) (files : gmap bytes bytes)
    : nat → N → list SpillSegment → list T → Prop :=
| no_segments i first : segments_hold family files i first [] []
| more_segments i first segs l rest :
    files !! segment_name i = Some (segment_text family first encode l) →
    segments_hold family files (S i) (first + N.of_nat (length l)) segs rest →
    segments_hold family files i first (segment_of family (segment_name i) first encode l :: segs) (l ++ rest).

Definition segment_bytes (segs : list SpillSegment) : N := foldr (λ g n, sg_byte_size g + n)%N 0%N segs.

(** [s] stands for the list [l]. *)
Record holds (s : SpillableFactBuffer T) (l : list T) : Prop := {
  holds_encoder : encoder s = Some encode;
  holds_decoder : decoder s = Some decode;
  holds_encodable : Forall encodable l;
  holds_limit : (bo_max_total_bytes (bf_options s) < 2 ^ 64)%N;
  holds_next : next_index s = N.of_nat (length l);
  holds_length : (N.of_nat (length l) < 2 ^ 64)%N;
  holds_resident : bf_resident_size s = framed_size (bf_resident s);
  holds_total : bf_total_size s = (segment_bytes (segments s) + bf_resident_size s)%N;
  holds_bound : (bf_total_size s ≤ bo_max_total_bytes (bf_options s))%N;
  holds_segments : ∃ ls, segments_hold (bo_family (bf_options s)) (bf_directory s) 0 0 (segments s) ls ∧
                         l = ls ++ bf_resident s
}.

Lemma segment_name_inj i j : segment_name i = segment_name j → i = j.
Proof. intros E%app_inv_head%app_inv_tail%(inj to_string). lia. Qed.

Lemma segments_hold_write family files i first segs ls j text :
  segments_hold family files i first segs ls → (i + length segs ≤ j)%nat →
  segments_hold family (<[segment_name j := text]> files) i first segs ls.
Proof.
  induction 1 as [|i first segs l rest Hf _ IH]; intros Hj; [constructor|]. cbn [length] in Hj.
  constructor; [|apply IH; lia]. rewrite lookup_insert_ne; [done|].
  intros E%segment_name_inj. lia.
Qed.

Lemma segments_hold_snoc family files i first segs ls l :
  segments_hold family files i first segs ls →
  let first' := (first + N.of_nat (length ls))%N in
  let path := segment_name (i + length segs) in
  files !! path = Some (segment_text family first' encode l) →
  segments_hold family files i first (segs ++ [segment_of family path first' encode l]) (ls ++ l).
Proof.
  induction 1 as [i first|i first segs l0 rest Hf _ IH]; cbn [length app]; intros Hl.
  - rewrite Nat.add_0_r, N.add_0_r in *. rewrite <-(app_nil_r l) at 2. constructor; [done|constructor].
  - rewrite <-app_assoc. constructor; [done|].
    rewrite length_app in *. rewrite Nat2N.inj_add, N.add_assoc in *.
    replace (i + S (length segs))%nat with (S i + length segs)%nat in * by lia. by apply IH.
Qed.

Lemma indexed_app index (l k : list T) :
  (index < 2 ^ 64)%N → indexed index (l ++ k) = indexed index l ++ indexed (add64 index (N.of_nat (length l))) k.
Proof.
  revert index. induction l as [|r l IH]; intros index Hi; cbn [app indexed length].
  - by rewrite add_u64_small, N.add_0_r by lia.
  - rewrite IH by (apply N.mod_lt; lia). do 3 f_equal. unfold add64.
    rewrite N.Div0.add_mod_idemp_l. f_equal. lia.
Qed.

(** *** Reading back *)

Lemma read_records_app index (l : list T) t :
  Forall encodable l →
  read_segment_records decode (length l) index (write_segment_records encode l ++ t) = Ok (indexed index l).
Proof.
  intros Hl. revert index. induction Hl as [|r l Hr _ IH]; intros index; [done|].
  pose proof (encode_length r Hr) as Hn. unfold write_segment_records in *.
  cbn [length read_segment_records fmap list_fmap indexed]. change (mjoin (?x :: ?k)) with (x ++ mjoin k).
  unfold write_string at 1, write_size at 1. rewrite <-!app_assoc, read_word_app by lia. cbn [rbind].
  rewrite (proj2 (N.ltb_ge _ _)) by lia.
  rewrite Nat2N.id, length_app, (proj2 (Nat.ltb_ge _ _)) by lia.
  rewrite take_app_length, drop_app_length, decode_encode by done. cbn [rbind]. by rewrite IH.
Qed.

Lemma read_segment_text family files i first l :
  Forall encodable l → (first < 2 ^ 64)%N → (N.of_nat (length l) < 2 ^ 64)%N →
  files !! segment_name i = Some (segment_text family first encode l) →
  read_segment files decode (segment_of family (segment_name i) first encode l) = Ok (indexed first l).
Proof.
  intros Hl Hf Hn Hfile. unfold read_segment. cbn [sg_path segment_of]. rewrite Hfile.
  unfold segment_text. change 8%nat with (length kSegmentMagic).
  rewrite take_app_length, drop_app_length, bool_decide_eq_true_2 by done. cbn [negb].
  rewrite read_word_app by (destruct family; vm_compute; done). cbn [rbind].
  rewrite read_word_app by done. cbn [rbind]. rewrite read_word_app by done. cbn [rbind].
  rewrite Nat2N.id, <-(app_nil_r (write_segment_records _ _)). by apply read_records_app.
Qed.

Lemma read_segments_spec family files i first segs ls :
  segments_hold family files i first segs ls → Forall encodable ls →
  (first + N.of_nat (length ls) < 2 ^ 64)%N →
  read_segments files decode segs = Ok (indexed first ls).
Proof.
  induction 1 as [|i first segs l rest Hf _ IH]; intros Hl Hn; [done|].
  apply Forall_app in Hl as [Hl Hrest]. rewrite length_app in Hn. cbn [read_segments].
  rewrite (read_segment_text _ _ _ _ _ Hl) by (done || lia). cbn [rbind].
  rewrite IH by (done || lia). cbn [rbind]. rewrite indexed_app by lia.
  by rewrite add_u64_small by lia.
Qed.

Lemma for_each_spec s l : holds s l → for_each_in_order s = Ok (indexed 0 l).
Proof.
  intros []. destruct holds_segments0 as (ls & Hs & El). unfold for_each_in_order.
  rewrite holds_decoder0. cbn [from_option id]. rewrite El in *. rewrite length_app in *.
  apply Forall_app in holds_encodable0 as [Hls _].
  rewrite (read_segments_spec _ _ _ _ _ _ Hs) by (done || lia). cbn [rbind].
  rewrite indexed_app by lia. do 2 f_equal. f_equal. rewrite holds_next0.
  rewrite sub_u64_small, add_u64_small; lia.
Qed.

(** *** Writing *)

Lemma framed_size_app l k : framed_size (l ++ k) = (framed_size l + framed_size k)%N.
Proof. unfold framed_size. induction l as [|r l IH]; cbn [app foldr]; lia. Qed.

Lemma segment_bytes_app l k : segment_bytes (l ++ k) = (segment_bytes l + segment_bytes k)%N.
Proof. unfold segment_bytes. induction l as [|r l IH]; cbn [app foldr]; lia. Qed.

Lemma segment_text_length family first l :
  N.of_nat (length (segment_text family first encode l)) = (32 + framed_size l)%N.
Proof.
  unfold segment_text, write_u64. rewrite !length_app, !length_le_bytes.
  change (length kSegmentMagic) with 8%nat. unfold write_segment_records.
  induction l as [|r l IH]; [done|]. unfold framed_size in *. cbn [fmap list_fmap foldr].
  change (mjoin (?x :: ?k)) with (x ++ mjoin k). rewrite length_app.
  unfold write_string at 1, write_size at 1, write_u64. rewrite length_app, length_le_bytes. lia.
Qed.

(** The segment that the resident records are written to. *)
Definition spilled_state (s : SpillableFactBuffer T) (l : list T) : SpillableFactBuffer T :=
  let path := segment_name (length (segments s)) in
  let first := (N.of_nat (length l) - N.of_nat (length (bf_resident s)))%N in
  let segment := segment_of (bo_family (bf_options s)) path first encode (bf_resident s) in
  Buffer (bf_options s) (encoder s) (decoder s) [] (segments s ++ [segment])
    (<[path := segment_text (bo_family (bf_options s)) first encode (bf_resident s)]> (bf_directory s))
    (next_index s) 0 (bf_total_size s + 32).

Lemma spill_holds s l :
  holds s l → (bf_total_size s + 32 ≤ bo_max_total_bytes (bf_options s))%N → holds (spilled_state s l) l.
Proof.
  intros [] Hmax. destruct holds_segments0 as (ls & Hs & El).
  assert (N.of_nat (length l) - N.of_nat (length (bf_resident s)) = N.of_nat (length ls))%N as Ef.
  { rewrite El, length_app. lia. }
  unfold spilled_state. rewrite Ef.
  split; cbn [encoder decoder bf_options next_index bf_resident bf_resident_size bf_total_size segments bf_directory];
    try done.
  - rewrite segment_bytes_app. unfold segment_bytes at 2. cbn [foldr sg_byte_size segment_of].
    rewrite segment_text_length. lia.
  - exists l. rewrite app_nil_r. split; [|done]. rewrite El.
    apply (segments_hold_snoc _ _ 0%nat 0%N); [by apply segments_hold_write|]. apply lookup_insert_eq.
Qed.

(** [spill] writes the resident records, or fails because the limit leaves no room. *)
Lemma spill_spec s l :
  holds s l → bf_resident s ≠ [] →
  spill s = if (bo_max_total_bytes (bf_options s) <? bf_total_size s + 32)%N
            then throw (bs "fact spill hard byte limit exceeded")
            else Ok (spilled_state s l).
Proof.
  intros Hs Hr. destruct Hs as [He Hd _ Hlim Hn Hlen Hz Ht Hb (ls & _ & El)]. unfold spill.
  destruct (bf_resident s) as [|r rs] eqn:Er; [done|]. rewrite He, Hd, segment_text_length, Hn.
  assert (sub64 (bf_total_size s) (bf_resident_size s) = segment_bytes (segments s)) as ->.
  { rewrite sub_u64_small; lia. }
  assert (length (r :: rs) ≤ length l)%nat as Hle by (rewrite El, length_app; lia).
  assert (sub64 (N.of_nat (length l)) (N.of_nat (length (r :: rs)))
          = N.of_nat (length l) - N.of_nat (length (r :: rs)))%N as ->.
  { rewrite sub_u64_small; lia. }
  destruct (_ <? bf_total_size s + 32)%N eqn:E.
  - apply N.ltb_lt in E. destruct (_ <? 32 + _)%N eqn:E1; [done|]. apply N.ltb_ge in E1.
    cbn [orb]. rewrite (proj2 (N.ltb_lt _ _)); [done|]. rewrite sub_u64_small; lia.
  - apply N.ltb_ge in E. rewrite !(proj2 (N.ltb_ge _ _)); [|rewrite sub_u64_small; lia|lia].
    cbn [orb]. unfold spilled_state. rewrite He, Hd, Hn, Er. do 2 f_equal.
    rewrite add_u64_small; lia.
Qed.

(** A record in memory, before [append] spills. *)
Definition pushed_state (s : SpillableFactBuffer T) (record : T) : SpillableFactBuffer T :=
  let framed := (N.of_nat (length (encode record)) + 8)%N in
  Buffer (bf_options s) (encoder s) (decoder s) (bf_resident s ++ [record]) (segments s)
    (bf_directory s) (next_index s + 1) (bf_resident_size s + framed) (bf_total_size s + framed).

Lemma push_holds s l record :
  holds s l → encodable record → (N.of_nat (length l) + 1 < 2 ^ 64)%N →
  (bf_total_size s + (N.of_nat (length (encode record)) + 8) ≤ bo_max_total_bytes (bf_options s))%N →
  holds (pushed_state s record) (l ++ [record]).
Proof.
  intros [] Hr Hl Hmax. unfold pushed_state.
  split; cbn [encoder decoder bf_options next_index bf_resident bf_resident_size bf_total_size segments bf_directory];
    try done.
  - by apply Forall_app_2; [|constructor].
  - rewrite length_app. cbn [length]. lia.
  - rewrite length_app. cbn [length]. lia.
  - rewrite framed_size_app. unfold framed_size at 2. cbn [foldr]. lia.
  - lia.
  - destruct holds_segments0 as (ls & Hs & ->). exists ls. by rewrite app_assoc.
Qed.

(** The three outcomes of [append]: no room for the record, no room for the
    segment it makes the buffer write, or the list grows. *)
Lemma append_spec s l record :
  holds s l → encodable record → (N.of_nat (length l) + 1 < 2 ^ 64)%N →
  let limit := bo_max_total_bytes (bf_options s) in
  let pushed := pushed_state s record in
  append s record
  = if (limit <? bf_total_size pushed)%N then throw (bs "fact payload hard byte limit exceeded")
    else if (spill_threshold_bytes (bf_options s) <=? bf_resident_size pushed)%N
    then if (limit <? bf_total_size pushed + 32)%N then throw (bs "fact spill hard byte limit exceeded")
         else Ok (N.of_nat (length l), spilled_state pushed (l ++ [record]))
    else Ok (N.of_nat (length l), pushed).
Proof.
  intros Hs Hr Hl limit pushed. pose proof Hs as [He Hd _ Hlim Hn _ Hz Ht Hb _].
  pose proof (encode_length record Hr) as Hlen. unfold append. rewrite He.
  assert (add64 (N.of_nat (length (encode record))) 8 = N.of_nat (length (encode record)) + 8)%N as ->.
  { by apply add_u64_small. }
  subst limit pushed. cbn [pushed_state bf_total_size bf_resident_size].
  destruct (_ <? bf_total_size s + _)%N eqn:E.
  { apply N.ltb_lt in E. destruct (_ <? N.of_nat _)%N eqn:E1; [done|]. cbn [orb].
    destruct (_ <? N.of_nat _ + 8)%N eqn:E2; [done|]. cbn [orb]. apply N.ltb_ge in E1, E2.
    rewrite (proj2 (N.ltb_lt _ _)); [done|].
    rewrite (sub_u64_small (bo_max_total_bytes _)), sub_u64_small; lia. }
  apply N.ltb_ge in E. rewrite !(proj2 (N.ltb_ge _ _)) 
    by (rewrite ?(sub_u64_small (bo_max_total_bytes _)), ?sub_u64_small; lia).
  cbn [orb]. pose proof (push_holds s l record Hs Hr Hl E) as Hp.
  assert (Buffer (bf_options s) (Some encode) (decoder s) (bf_resident s ++ [record]) (segments s)
    (bf_directory s) (add64 (next_index s) 1)
    (add64 (bf_resident_size s) (N.of_nat (length (encode record)) + 8))
    (add64 (bf_total_size s) (N.of_nat (length (encode record)) + 8)) = pushed_state s record) as ->.
  { unfold pushed_state. rewrite He. by rewrite !add_u64_small by lia. }
  cbn [bf_resident_size pushed_state]. rewrite Hn, (add_u64_small (bf_resident_size s)) by lia.
  destruct (spill_threshold_bytes _ <=? bf_resident_size s + _)%N; [|done]. rewrite (spill_spec _ _ Hp) by (cbn; by destruct (bf_resident s)).
  cbn [bf_options pushed_state bf_total_size]. by destruct (_ <? _ + 32)%N.
Qed.

Lemma append_holds s l record index s' :
  holds s l → encodable record → (N.of_nat (length l) + 1 < 2 ^ 64)%N →
  append s record = Ok (index, s') →
  index = N.of_nat (length l) ∧ holds s' (l ++ [record]) ∧ bf_options s' = bf_options s.
Proof.
  intros Hs Hr Hl. rewrite (append_spec s l) by done. cbv zeta.
  destruct (_ <? _)%N eqn:E1; [done|]. apply N.ltb_ge in E1.
  pose proof (push_holds s l record Hs Hr Hl E1) as Hp.
  destruct (_ <=? _)%N; [|by intros [= <- <-]]. destruct (_ <? _)%N eqn:E2; [done|].
  apply N.ltb_ge in E2. intros [= <- <-]. split; [done|]. split; [|done]. by apply spill_holds.
Qed.

Lemma appends_holds records s l indices s' :
  holds s l → Forall encodable records → (N.of_nat (length l + length records) < 2 ^ 64)%N →
  appends s records = Ok (indices, s') →
  indices = N.of_nat <$> seq (length l) (length records) ∧ holds s' (l ++ records) ∧
  bf_options s' = bf_options s.
Proof.
  revert s l indices. induction records as [|r records IH]; intros s l indices Hs Hr Hn Ha.
  { injection Ha as <- <-. by rewrite app_nil_r. }
  apply Forall_cons in Hr as [Hr Hrs]. cbn [length appends] in *.
  apply rbind_Ok in Ha as ([index s1] & H1 & Ha). apply rbind_Ok in Ha as ([rest s2] & H2 & Ha).
  injection Ha as <- <-. apply (append_holds s l) in H1 as (-> & Hs1 & Ho1); [|done..|lia].
  apply (IH s1 (l ++ [r])) in H2 as (-> & Hs2 & Ho2);
    [|done..|rewrite length_app; cbn [length]; lia].
  rewrite length_app, Nat.add_1_r in *. rewrite <-app_assoc in Hs2.
  split; [done|]. split; [done|]. by rewrite Ho2.
Qed.

Lemma new_buffer_holds options :
  (bo_max_total_bytes options < 2 ^ 64)%N → holds (new_buffer options (Some encode) (Some decode)) [].
Proof.
  intros Ho. split; try done; [cbn; lia|]. exists []. split; [constructor|done].
Qed.

(** The records that [freeze] leaves in memory end the list. *)
Lemma freeze_spec s l :
  holds s l →
  match freeze s with
  | InMemory records => records = l
  | Spilled records segs => records `suffix_of` l ∧ segs = segments s ∧ segs ≠ []
  end.
Proof.
  intros []. destruct holds_segments0 as (ls & Hs & ->). unfold freeze.
  destruct (segments s) eqn:E; [by inversion Hs|]. split; [by exists ls|done].
Qed.

(** C26: The spilling buffer refines a list.  Whenever a sequence of appends to a
    new buffer succeeds, however many segments it wrote, the indices count from 0,
    iteration passes every appended record with its index and in order, the size
    is their number, and the bytes in memory and in the segment files stay within
    the limit.  It holds for every record type with a codec that reads back what
    it writes. *)
Theorem buffer_refines_list options records indices s :
  (bo_max_total_bytes options < 2 ^ 64)%N →
  Forall encodable records → (N.of_nat (length records) < 2 ^ 64)%N →
  appends (new_buffer options (Some encode) (Some decode)) records = Ok (indices, s) →
  indices = N.of_nat <$> seq 0 (length records) ∧
  for_each_in_order s = Ok (indexed 0 records) ∧
  next_index s = N.of_nat (length records) ∧
  (segment_bytes (segments s) + bf_resident_size s ≤ bo_max_total_bytes options)%N.
Proof.
  intros Ho Hr Hn Ha.
  apply (appends_holds records _ []) in Ha as (-> & Hs & Hopt); [|by apply new_buffer_holds|done..].
  split; [done|]. split; [by apply for_each_spec|]. destruct Hs. split; [done|].
  rewrite <-holds_total0. by rewrite Hopt in holds_bound0.
Qed.

(** *** Progress *)

Lemma append_accepts s l record :
  holds s l → encodable record → (N.of_nat (length l) + 1 < 2 ^ 64)%N →
  (bf_total_size s + (N.of_nat (length (encode record)) + 8) + 32 ≤ bo_max_total_bytes (bf_options s))%N →
  ∃ s', append s record = Ok (N.of_nat (length l), s') ∧
        (bf_total_size s' ≤ bf_total_size s + (N.of_nat (length (encode record)) + 8) + 32)%N.
Proof.
  intros Hs Hr Hl Hmax. rewrite (append_spec s l) by done. cbv zeta.
  cbn [pushed_state bf_total_size bf_resident_size]. rewrite (proj2 (N.ltb_ge _ _)) by lia.
  destruct (_ <=? _)%N.
  - rewrite (proj2 (N.ltb_ge _ _)) by lia. eexists. split; [done|]. cbn. lia.
  - eexists. split; [done|]. cbn. lia.
Qed.

Lemma appends_accept records s l :
  holds s l → Forall encodable records → (N.of_nat (length l + length records) < 2 ^ 64)%N →
  (bf_total_size s + framed_size records + 32 * N.of_nat (length records)
   ≤ bo_max_total_bytes (bf_options s))%N →
  ∃ s', appends s records = Ok (N.of_nat <$> seq (length l) (length records), s').
Proof.
  revert s l. induction records as [|r records IH]; intros s l Hs Hr Hn Hmax; [by exists s|].
  apply Forall_cons in Hr as [Hr Hrs]. unfold framed_size in Hmax. cbn [length foldr] in *.
  fold (framed_size records) in Hmax.
  destruct (append_accepts s l r Hs Hr) as (s1 & H1 & Hle); [lia..|].
  destruct (append_holds s l r _ s1 Hs Hr ltac:(lia) H1) as (_ & Hs1 & Ho).
  destruct (IH s1 (l ++ [r]) Hs1 Hrs) as (s2 & H2); [rewrite length_app; cbn [length]; lia|rewrite Ho; lia|].
  exists s2. cbn [appends]. rewrite H1. cbn [rbind]. rewrite H2. cbn [rbind].
  by rewrite length_app, Nat.add_1_r.
Qed.

(** Appending never fails while the limit leaves room: a new buffer accepts
    every list of records whose encodings, with eight bytes for each record's
    length and a segment header for each, fit the limit, at any spill threshold. *)
Theorem buffer_accepts options records :
  Forall encodable records → (N.of_nat (length records) < 2 ^ 64)%N →
  (framed_size records + 32 * N.of_nat (length records) ≤ bo_max_total_bytes options < 2 ^ 64)%N →
  ∃ s, appends (new_buffer options (Some encode) (Some decode)) records
       = Ok (N.of_nat <$> seq 0 (length records), s).
Proof.
  intros Hr Hn Hmax. apply (appends_accept records _ []); [by apply new_buffer_holds, Hmax|done..|cbn; lia].
Qed.
End refinement.

(** ** The codec of symbol records: [encode_symbol_record], [SymbolRecordReader] *)

Definition append_optional_string (value : option bytes) : bytes :=
  write_u64 (if value then 1 else 0)%N ++ match value with Some value => write_string value | None => [] end.
Definition append_optional_i64 (value : option Z) : bytes :=
  write_u64 (if value then 1 else 0)%N ++ match value with Some value => write_i64 value | None => [] end.
Definition append_bool (value : bool) : bytes := write_u64 (if value then 1 else 0)%N.

Definition encode_symbol_record (r : SymbolRecord) : bytes :=
  write_string (sr_file r) ++ write_string (sr_usr r) ++ write_string (sr_spelling r)
  ++ write_i64 (int_value (sr_kind r))
  ++ append_optional_string (sr_qual_name r) ++ append_optional_string (sr_display_name r)
  ++ append_optional_string (sr_type_info r)
  ++ write_i64 (sr_line r) ++ write_i64 (sr_col r) ++ write_i64 (sr_end_line r) ++ write_i64 (sr_end_col r)
  ++ append_optional_i64 (sr_decl_line r) ++ append_optional_i64 (sr_decl_col r)
  ++ append_optional_string (sr_decl_path r)
  ++ append_bool (sr_is_definition r) ++ append_bool (sr_is_pure r) ++ append_bool (sr_is_static r)
  ++ append_bool (sr_is_instantiation r) ++ append_bool (sr_is_named_instance r)
  ++ append_optional_string (sr_callable_kind r) ++ append_optional_string (sr_template_origin r)
  ++ append_optional_string (sr_template_form r) ++ append_optional_string (sr_linkage r)
  ++ append_optional_string (sr_access r) ++ append_optional_string (sr_parent_usr r)
  ++ append_optional_string (sr_const_value r) ++ append_bool (sr_resolved r)
  ++ write_string (sr_semantic_universe r) ++ write_string (sr_normalized_configuration r)
  ++ append_optional_string (sr_identity_source r)
  ++ append_optional_string (sr_identity_translation_unit r)
  ++ append_optional_string (sr_local_anchor r) ++ write_string (sr_kind_name r).

(** [SymbolRecordReader] on the bytes that are left. *)
Definition truncated_symbol : bytes := bs "spilled symbol record is truncated".

Definition symbol_string_field (l : bytes) : result (bytes * bytes) :=
  let! (size, l) := read_word truncated_symbol l in
  if (N.of_nat (length l) <? size)%N then throw truncated_symbol
  else Ok (take (N.to_nat size) l, drop (N.to_nat size) l).
Definition symbol_integer (l : bytes) : result (Z * bytes) :=
  let! (value, l) := read_word truncated_symbol l in Ok (i64_of_u64 value, l).
Definition symbol_boolean (l : bytes) : result (bool * bytes) :=
  let! (value, l) := symbol_integer l in Ok (negb (value =? 0), l).
Definition symbol_optional {A} (read : bytes → result (A * bytes)) (l : bytes) : result (option A * bytes) :=
  let! (present, l) := symbol_boolean l in
  if present : bool then let! (value, l) := read l in Ok (Some value, l) else Ok (None, l).
Definition symbol_optional_string : bytes → result (option bytes * bytes) := symbol_optional symbol_string_field.
Definition symbol_optional_i64 : bytes → result (option Z * bytes) := symbol_optional symbol_integer.

(** [static_cast<int>] of a 64-bit integer. *)
Definition int_of_i64 (z : Z) : Z := (z + 2 ^ 31) mod 2 ^ 32 - 2 ^ 31.

Definition decode_symbol_record (l : bytes) : result SymbolRecord :=
  let! (file, l) := symbol_string_field l in
  let! (usr, l) := symbol_string_field l in
  let! (spelling, l) := symbol_string_field l in
  let! (kind, l) := symbol_integer l in
  let! (qual_name, l) := symbol_optional_string l in
  let! (display_name, l) := symbol_optional_string l in
  let! (type_info, l) := symbol_optional_string l in
  let! (line, l) := symbol_integer l in
  let! (col, l) := symbol_integer l in
  let! (end_line, l) := symbol_integer l in
  let! (end_col, l) := symbol_integer l in
  let! (decl_line, l) := symbol_optional_i64 l in
  let! (decl_col, l) := symbol_optional_i64 l in
  let! (decl_path, l) := symbol_optional_string l in
  let! (is_definition, l) := symbol_boolean l in
  let! (is_pure, l) := symbol_boolean l in
  let! (is_static, l) := symbol_boolean l in
  let! (is_instantiation, l) := symbol_boolean l in
  let! (is_named_instance, l) := symbol_boolean l in
  let! (callable_kind, l) := symbol_optional_string l in
  let! (template_origin, l) := symbol_optional_string l in
  let! (template_form, l) := symbol_optional_string l in
  let! (linkage, l) := symbol_optional_string l in
  let! (access, l) := symbol_optional_string l in
  let! (parent_usr, l) := symbol_optional_string l in
  let! (const_value, l) := symbol_optional_string l in
  let! (resolved, l) := symbol_boolean l in
  let! (semantic_universe, l) := symbol_string_field l in
  let! (normalized_configuration, l) := symbol_string_field l in
  let! (identity_source, l) := symbol_optional_string l in
  let! (identity_translation_unit, l) := symbol_optional_string l in
  let! (local_anchor, l) := symbol_optional_string l in
  let! (kind_name, _) := symbol_string_field l in
  Ok (SymbolRec file usr spelling (CInt (int_of_i64 kind)) qual_name display_name type_info line col end_line
        end_col decl_line decl_col decl_path is_definition is_pure is_static is_instantiation
        is_named_instance callable_kind template_origin template_form linkage access parent_usr
        const_value resolved semantic_universe normalized_configuration identity_source
        identity_translation_unit local_anchor kind_name).

Definition i64_value (z : Z) : Prop := - 2 ^ 63 ≤ z < 2 ^ 63.
Definition i64_option (z : option Z) : Prop := match z with Some z => i64_value z | None => True end.

(** The integers have their C++ widths and the encoding fits a segment. *)
Record symbol_encodable (r : SymbolRecord) : Prop := {
  symbol_kind : - 2 ^ 31 ≤ int_value (sr_kind r) < 2 ^ 31;
  symbol_line : i64_value (sr_line r);
  symbol_col : i64_value (sr_col r);
  symbol_end_line : i64_value (sr_end_line r);
  symbol_end_col : i64_value (sr_end_col r);
  symbol_decl_line : i64_option (sr_decl_line r);
  symbol_decl_col : i64_option (sr_decl_col r);
  symbol_length : (N.of_nat (length (encode_symbol_record r)) + 8 < 2 ^ 64)%N
}.

Lemma write_string_length s : (length s ≤ length (write_string s))%nat.
Proof. unfold write_string. rewrite length_app. lia. Qed.

Lemma append_optional_string_length s :
  (match s with Some s => length s | None => 0 end ≤ length (append_optional_string s))%nat.
Proof.
  unfold append_optional_string. rewrite length_app.
  destruct s as [s|]; [pose proof (write_string_length s)|]; lia.
Qed.

Lemma symbol_string_app s t :
  (N.of_nat (length s) < 2 ^ 64)%N → symbol_string_field (write_string s ++ t) = Ok (s, t).
Proof.
  intros Hs. unfold symbol_string_field, write_string, write_size.
  rewrite <-app_assoc, read_word_app by done. cbn [rbind].
  rewrite length_app, (proj2 (N.ltb_ge _ _)) by lia.
  by rewrite Nat2N.id, take_app_length, drop_app_length.
Qed.

Lemma symbol_integer_app z t : i64_value z → symbol_integer (write_i64 z ++ t) = Ok (z, t).
Proof.
  intros Hz. unfold symbol_integer, write_i64. destruct (i64_bijection z Hz) as [Hu Hi].
  rewrite read_word_app by done. cbn [rbind]. by rewrite Hi.
Qed.

Lemma symbol_boolean_app b t : symbol_boolean (append_bool b ++ t) = Ok (b, t).
Proof.
  unfold symbol_boolean, symbol_integer, append_bool.
  rewrite read_word_app by (by destruct b). cbn [rbind]. by destruct b.
Qed.

Lemma symbol_optional_string_app s t :
  (N.of_nat (match s with Some s => length s | None => 0 end) < 2 ^ 64)%N →
  symbol_optional_string (append_optional_string s ++ t) = Ok (s, t).
Proof.
  intros Hs. unfold symbol_optional_string, symbol_optional, append_optional_string. rewrite <-app_assoc.
  destruct s as [s|].
  - change (write_u64 1) with (append_bool true). rewrite symbol_boolean_app. cbn [rbind].
    by rewrite symbol_string_app.
  - change (write_u64 0) with (append_bool false). by rewrite symbol_boolean_app.
Qed.

Lemma symbol_optional_i64_app z t :
  i64_option z → symbol_optional_i64 (append_optional_i64 z ++ t) = Ok (z, t).
Proof.
  intros Hz. unfold symbol_optional_i64, symbol_optional, append_optional_i64. rewrite <-app_assoc.
  destruct z as [z|].
  - change (write_u64 1) with (append_bool true). rewrite symbol_boolean_app. cbn [rbind].
    by rewrite symbol_integer_app.
  - change (write_u64 0) with (append_bool false). by rewrite symbol_boolean_app.
Qed.

Lemma int_of_i64_small z : - 2 ^ 31 ≤ z < 2 ^ 31 → int_of_i64 z = z.
Proof. intros Hz. unfold int_of_i64. rewrite Z.mod_small; lia. Qed.

(** Every string of the record is shorter than the encoding. *)
Lemma symbol_strings_short r :
  symbol_encodable r →
  Forall (λ s, (N.of_nat (length s) < 2 ^ 64)%N)
    [sr_file r; sr_usr r; sr_spelling r; sr_semantic_universe r; sr_normalized_configuration r; sr_kind_name r] ∧
  Forall (λ s, (N.of_nat (match s with Some s => length s | None => 0 end) < 2 ^ 64)%N)
    [sr_qual_name r; sr_display_name r; sr_type_info r; sr_decl_path r; sr_callable_kind r;
     sr_template_origin r; sr_template_form r; sr_linkage r; sr_access r; sr_parent_usr r;
     sr_const_value r; sr_identity_source r; sr_identity_translation_unit r; sr_local_anchor r].
Proof.
  intros [_ _ _ _ _ _ _ Hl]. unfold encode_symbol_record in Hl. rewrite !length_app in Hl.
  rewrite !Forall_cons, !Forall_nil. split; split_and!; try done.
  all: match goal with
       | |- (N.of_nat (length ?s) < _)%N => pose proof (write_string_length s)
       | |- (N.of_nat (match ?s with _ => _ end) < _)%N => pose proof (append_optional_string_length s)
       end; lia.
Qed.

(** A spilled symbol record is read back as it was. *)
Lemma symbol_round_trip r : symbol_encodable r → decode_symbol_record (encode_symbol_record r) = Ok r.
Proof.
  intros Hr. destruct (symbol_strings_short r Hr) as [Hs Ho]. destruct Hr as [].
  repeat match goal with H : Forall _ (_ :: _) |- _ => apply Forall_cons in H as [? H] end.
  unfold encode_symbol_record, decode_symbol_record.
  rewrite <-(app_nil_r (write_string (sr_kind_name r))).
  repeat (first
    [ rewrite symbol_string_app by assumption | rewrite symbol_integer_app by (assumption || unfold i64_value; lia)
    | rewrite symbol_boolean_app | rewrite symbol_optional_string_app by assumption
    | rewrite symbol_optional_i64_app by assumption ]; cbn [rbind]).
  rewrite int_of_i64_small by done. by destruct r as [? ? ? [] ].
Qed.

#[export] Program Instance symbol_codec : SpillCodec SymbolRecord := {|
  encode := encode_symbol_record;
  decode := decode_symbol_record;
  encodable := symbol_encodable;
  decode_encode := symbol_round_trip;
  encode_length r Hr := symbol_length r Hr
|}.

(** *** Examples *)

Definition sample_symbol (usr : bytes) (line : Z) : SymbolRecord :=
  SymbolRec (bs "a.cpp") usr (bs "f") (CInt 8) (Some (bs "n::f")) None (Some (bs "int ()")) line 5 (line + 2) 1
    None (Some (-1)) None true false false false true None (Some (bs "o")) None (Some (bs "external"))
    None None None true (bs "u") (bs "-O2") (Some (bs "a.cpp")) None None (bs "FUNCTION_DECL").

Definition sample_symbols : list SymbolRecord :=
  [sample_symbol (bs "c:f") 1; sample_symbol (bs "c:g") 10; sample_symbol [] (-3)].

(** Segments of at least two records, one record left in memory. *)
Definition sample_buffer_options : SpillableFactBufferOptions := BufferOptions fam_symbols 900 5000.

Lemma sample_symbols_encodable : Forall encodable sample_symbols.
Proof. repeat constructor; vm_compute; done. Qed.

Lemma buffer_refines_list_witness :
  ∃ indices s, appends (new_buffer sample_buffer_options (Some encode) (Some decode)) sample_symbols = Ok (indices, s) ∧
    buffer_spilled s = true ∧ indices = [0; 1; 2]%N ∧ for_each_in_order s = Ok (indexed 0 sample_symbols).
Proof.
  assert (match appends (new_buffer sample_buffer_options (Some encode) (Some decode)) sample_symbols with
          | Ok (_, s) => buffer_spilled s | Err _ => false end = true) as Hs by (vm_compute; reflexivity).
  destruct (appends _ sample_symbols) as [[indices s]|e] eqn:E; [|discriminate Hs].
  destruct (buffer_refines_list sample_buffer_options sample_symbols indices s) as (Hi & Hf & _);
    [done|apply sample_symbols_encodable|done|done|].
  exists indices, s. by rewrite Hi, Hf.
Defined.

Lemma buffer_accepts_witness :
  ∃ s, appends (new_buffer sample_buffer_options (Some encode) (Some decode)) sample_symbols = Ok ([0; 1; 2]%N, s).
Proof.
  apply (buffer_accepts sample_buffer_options sample_symbols);
    [apply sample_symbols_encodable|done|split; vm_compute; done].
Defined.
