(* ===== verification/FactHandles.v ===== *)
(** * Identities of a recorder: [FactBatchRecorder]'s identity functions in [src/src/ast/fact_batch.cpp]

    The recorder asks an ordered store for the handle of an identity and keeps two
    generations of answers in memory, negative ones included.  The store is the
    interface [IdentityStore]; [SpillIndex] implements it.  [ids_ok ids m] states
    that store and caches stand for the finite map [m]. *)

From S2P Require Export SpillIndex.
From S2P Require Export FactIdentity.
Open Scope Z_scope.

(** ** The store *)

Class IdentityStore (Store : Type) := {
  store_new : SpillableIdentityIndexOptions → Store;
  store_lookup : Store → Identity → result (option Z);
  store_insert : Store → Identity → Z → result (IdentityInsertResult * Store);
  store_entries : Store → result (gmap Identity Z);
  store_count : Store → N
}.

(** What the recorder relies on: the store acts as a finite map. *)
Class IdentityStoreLaws (Store : Type) `{IdentityStore Store} := {
  stands_for : Store → gmap Identity Z → Prop;
  law_new options : stands_for (store_new options) ∅;
  law_lookup i m identity :
    stands_for i m → (identity.1 < 256)%N → store_lookup i identity = Ok (m !! identity);
  law_insert i m identity handle r i' :
    stands_for i m → wire_entry identity handle → (N.of_nat (size m) + 1 < 2 ^ 64)%N →
    store_insert i identity handle = Ok (r, i') →
    r = (model_insert m identity handle).1 ∧ stands_for i' (model_insert m identity handle).2;
  law_entries i m : stands_for i m → store_entries i = Ok m;
  law_count i m : stands_for i m → store_count i = N.of_nat (size m)
}.

#[export] Instance spill_store : IdentityStore SpillableIdentityIndex := {|
  store_new := new_index;
  store_lookup := SpillIndex.lookup;
  store_insert := SpillIndex.insert;
  store_entries := entries_of;
  store_count := total_entries_
|}.

Lemma compact_entries s s' : compact s = Ok s' → total_entries_ s' = total_entries_ s.
Proof.
  intros (merged & _ & H)%rbind_Ok. cbv zeta in H. destruct (_ <? _)%N; [done|]. by injection H as <-.
Qed.

Lemma flush_entries s s' : flush s = Ok s' → total_entries_ s' = total_entries_ s.
Proof.
  unfold flush. destruct (decide _); [by intros [= <-]|]. destruct (_ <? total_size s)%N; [done|].
  cbv zeta. set (s1 := Index _ _ _ _ _ _ _ _). destruct (_ <? _)%nat; [|by intros [= <-]].
  intros Hc. by rewrite (compact_entries s1 s' Hc).
Qed.

Lemma insert_entries s m identity handle r s' :
  represents s m → (identity.1 < 256)%N → total_entries_ s = N.of_nat (size m) →
  SpillIndex.insert s identity handle = Ok (r, s') →
  total_entries_ s' = N.of_nat (size (model_insert m identity handle).2).
Proof.
  intros Hs Hk Ht. unfold SpillIndex.insert, model_insert. rewrite (lookup_spec _ _ _ Hs Hk). cbn [rbind].
  destruct (m !! identity) as [stored|] eqn:Em; [by intros [= <- <-]|].
  intros Hi. apply rbind_Ok in Hi as (s1 & H1 & Hi). destruct (no_room s1 _); [done|].
  injection Hi as <- <-. cbn [total_entries_ snd]. rewrite map_size_insert_None by done.
  enough (total_entries_ s1 = total_entries_ s) by lia.
  destruct (no_room s _); [by apply flush_entries|by injection H1 as <-].
Qed.

#[export] Program Instance spill_store_laws : IdentityStoreLaws SpillableIdentityIndex := {|
  stands_for i m := represents i m ∧ bounded i ∧ total_entries_ i = N.of_nat (size m)
|}.
Next Obligation.
  intros options. split; [apply new_index_represents|]. split; [apply new_index_bounded|]. by rewrite map_size_empty.
Qed.
Next Obligation. intros i m identity (Hs & _ & _). by apply lookup_spec. Qed.
Next Obligation.
  intros i m identity handle r i' (Hs & Hb & Ht) He Hn Hi.
  pose proof (insert_entries i m identity handle r i' Hs (proj1 He) Ht Hi).
  by destruct (insert_spec i m identity handle r i' Hs Hb He Hn Hi) as (? & ? & ? & ?).
Qed.
Next Obligation. intros i m (Hs & _ & _). by apply entries_spec. Qed.
Next Obligation. by intros i m (_ & _ & Ht). Qed.

(** ** The recorder's identities *)

Record Identities (Store : Type) := Ids {
  identity_index_ : Store;
  resident_identity_cache_ : gmap bytes (option Z);
  resident_identity_previous_cache_ : gmap bytes (option Z)
}.
Arguments Ids {Store} _ _ _.
Arguments identity_index_ {Store} _.
Arguments resident_identity_cache_ {Store} _.
Arguments resident_identity_previous_cache_ {Store} _.

Definition kResidentIdentityCacheEntries : nat := 4096.
Definition kResidentIdentityCacheGenerationEntries : nat := kResidentIdentityCacheEntries / 2.

Definition resident_identity_key (identity : Identity) : bytes := encoded_key identity.

(** The key under which a handle is taken. *)
Definition handle_identity (kind : FactIdentityKind) (handle : Z) : Identity :=
  (kind_handle, to_string (Z.of_N kind) ++ bs ":" ++ to_string handle).

(** The attempts given to the loop of [identity_handle] are used up. *)
Definition out_of_attempts : bytes := bs "(identity_handle does not return)".

Section identities.
Context `{IdentityStore Store} (primary_hasher_ : bytes → Z).

Definition new_identities (options : SpillableIdentityIndexOptions) : Identities Store :=
  Ids (store_new options) ∅ ∅.

Definition cached_identity_lookup (ids : Identities Store) (identity : Identity) : option (option Z) :=
  let resident_key := resident_identity_key identity in
  match resident_identity_cache_ ids !! resident_key with
  | Some found => Some found
  | None => resident_identity_previous_cache_ ids !! resident_key
  end.

Definition cache_identity (ids : Identities Store) (identity : Identity) (handle : option Z) : Identities Store :=
  let key := resident_identity_key identity in
  let current := resident_identity_cache_ ids in
  let previous := resident_identity_previous_cache_ ids in
  if decide (is_Some (current !! key)) then Ids (identity_index_ ids) (<[key := handle]> current) previous
  else if decide (is_Some (previous !! key))
  then Ids (identity_index_ ids) current (<[key := handle]> previous)
  else if (kResidentIdentityCacheGenerationEntries <=? size current)%nat
  then Ids (identity_index_ ids) {[key := handle]} current
  else Ids (identity_index_ ids) (<[key := handle]> current) previous.

Definition lookup_identity (ids : Identities Store) (identity : Identity) : result (option Z * Identities Store) :=
  match cached_identity_lookup ids identity with
  | Some cached => Ok (cached, ids)
  | None =>
      let! found := store_lookup (identity_index_ ids) identity in
      Ok (found, cache_identity ids identity found)
  end.

(** [identity_index_->insert].  A [std::string] is shorter and a [std::map] smaller
    than [2^63]: the standard library throws before. *)
Definition insert_identity (ids : Identities Store) (identity : Identity) (handle : Z)
    : result (IdentityInsertResult * Identities Store) :=
  if (2 ^ 63 <=? N.of_nat (length identity.2))%N || (2 ^ 63 <=? store_count (identity_index_ ids))%N
  then throw (bs "std::length_error")
  else
    let! (answer, index) := store_insert (identity_index_ ids) identity handle in
    Ok (answer, Ids index (resident_identity_cache_ ids) (resident_identity_previous_cache_ ids)).

Definition bind_identity (ids : Identities Store) (identity : Identity) (handle : Z) : result (Identities Store) :=
  let! (found, ids) := lookup_identity ids identity in
  match found with
  | Some other =>
      if other =? handle then Ok (cache_identity ids identity (Some handle))
      else throw (bs "conflicting transient fact identity")
  | None =>
      let! (answer, ids) := insert_identity ids identity handle in
      match answer with
      | conflict => throw (bs "conflicting transient fact identity")
      | _ => Ok (cache_identity ids identity (Some handle))
      end
  end.

(** The attempt loop of [identity_handle]. *)
Fixpoint handle_loop (fuel : nat) (attempt : Z) (ids : Identities Store) (identity : Identity)
    : result (Z * Identities Store) :=
  match fuel with
  | O => throw out_of_attempts
  | S fuel =>
      let handle := candidate_for primary_hasher_ identity.2 attempt in
      let handle_key := handle_identity identity.1 handle in
      let next := (attempt + 1) mod 2 ^ 64 in
      let! (taken, ids) := lookup_identity ids handle_key in
      match taken with
      | Some _ => handle_loop fuel next ids identity
      | None =>
          let! (answer, ids) := insert_identity ids identity handle in
          match answer with
          | inserted =>
              let ids := cache_identity ids identity (Some handle) in
              let! (answer, ids) := insert_identity ids handle_key handle in
              match answer with
              | inserted => Ok (handle, cache_identity ids handle_key (Some handle))
              | _ => throw (bs "transient identity handle collision")
              end
          | _ => handle_loop fuel next ids identity
          end
      end
  end.

Definition identity_handle (fuel : nat) (ids : Identities Store) (identity : Identity)
    : result (Z * Identities Store) :=
  let! (found, ids) := lookup_identity ids identity in
  match found with
  | Some handle => Ok (handle, ids)
  | None => handle_loop fuel 0 ids identity
  end.
End identities.

(** ** The caches answer as the store *)

Lemma encoded_key_inj a b :
  (a.1 < 256)%N → (b.1 < 256)%N → encoded_key a = encoded_key b → a = b.
Proof.
  destruct a as [k s], b as [k' s']. cbn [fst]. intros Hk Hk' [= Ha ->]. f_equal.
  apply (f_equal N_of_ascii) in Ha. by rewrite !N_ascii_embedding in Ha.
Qed.

Section laws.
Context `{IdentityStoreLaws Store} (primary_hasher_ : bytes → Z).
Implicit Types (ids : Identities Store) (m : gmap Identity Z).

(** A cached answer is the map's, except perhaps for the identities of [P]. *)
Definition coherent_but (P : Identity → Prop) ids m : Prop :=
  ∀ identity answer, (identity.1 < 256)%N → ¬ P identity →
    cached_identity_lookup ids identity = Some answer → answer = m !! identity.

(** The recorder's identities stand for [m]. *)
Definition ids_ok ids m : Prop :=
  stands_for (identity_index_ ids) m ∧ coherent_but (λ _, False) ids m.

Lemma new_identities_ok options : ids_ok (new_identities options) ∅.
Proof. split; [apply law_new|]. by intros identity answer _ _ Hc. Qed.

Lemma cached_after_cache ids identity v other w :
  cached_identity_lookup (cache_identity ids identity v) other = Some w →
  encoded_key other = encoded_key identity ∧ w = v ∨
  encoded_key other ≠ encoded_key identity ∧ cached_identity_lookup ids other = Some w.
Proof.
  unfold cached_identity_lookup, cache_identity, resident_identity_key.
  set (k := encoded_key identity). set (k' := encoded_key other). intros Hw.
  destruct (decide (k' = k)) as [->|Hne]; [|right; split; [done|]].
  - left. split; [done|]. revert Hw.
    destruct (decide (is_Some (resident_identity_cache_ ids !! k))) as [E1|E1]; cbn [resident_identity_cache_ resident_identity_previous_cache_].
    { rewrite lookup_insert_eq. by intros [= ->]. }
    apply eq_None_not_Some in E1.
    destruct (decide (is_Some (resident_identity_previous_cache_ ids !! k))); cbn [resident_identity_cache_ resident_identity_previous_cache_].
    { rewrite E1, lookup_insert_eq. by intros [= ->]. }
    destruct (kResidentIdentityCacheGenerationEntries <=? _)%nat;
      cbn [resident_identity_cache_ resident_identity_previous_cache_]; [rewrite lookup_singleton_eq|rewrite lookup_insert_eq]; by intros [= ->].
  - revert Hw. destruct (decide (is_Some (resident_identity_cache_ ids !! k))); cbn [resident_identity_cache_ resident_identity_previous_cache_].
    { by rewrite lookup_insert_ne. }
    destruct (decide (is_Some (resident_identity_previous_cache_ ids !! k))); cbn [resident_identity_cache_ resident_identity_previous_cache_].
    { by rewrite lookup_insert_ne. }
    destruct (kResidentIdentityCacheGenerationEntries <=? _)%nat;
      cbn [resident_identity_cache_ resident_identity_previous_cache_]; [rewrite lookup_singleton_ne by done|by rewrite lookup_insert_ne].
    by intros ->.
Qed.

(** Caching the map's answer restores coherence at that identity. *)
Lemma cache_coherent P ids m identity :
  (identity.1 < 256)%N → coherent_but P ids m →
  coherent_but (λ other, P other ∧ other ≠ identity) (cache_identity ids identity (m !! identity)) m.
Proof.
  intros Hk Hc other answer Ho HP [[E ->]|[Hne Hl]]%cached_after_cache.
  - by apply encoded_key_inj in E as ->.
  - apply (Hc other); [done| |done]. intros HPo. apply HP. split; [done|]. by intros ->.
Qed.

Lemma cache_index ids identity v : identity_index_ (cache_identity ids identity v) = identity_index_ ids.
Proof.
  unfold cache_identity. repeat case_decide; try done.
  by destruct (kResidentIdentityCacheGenerationEntries <=? _)%nat.
Qed.

Lemma cache_ids_ok ids m identity :
  (identity.1 < 256)%N → stands_for (identity_index_ ids) m → coherent_but (λ other, other = identity) ids m →
  ids_ok (cache_identity ids identity (m !! identity)) m.
Proof.
  intros Hk Hs Hc. split; [by rewrite cache_index|].
  intros other answer Ho _. apply (cache_coherent _ _ _ _ Hk Hc); [done|]. by intros [-> ?].
Qed.

Lemma lookup_identity_spec ids m identity :
  ids_ok ids m → (identity.1 < 256)%N →
  ∃ ids', lookup_identity ids identity = Ok (m !! identity, ids') ∧ ids_ok ids' m.
Proof.
  intros [Hs Hc] Hk. unfold lookup_identity. destruct (cached_identity_lookup ids identity) as [cached|] eqn:E.
  - exists ids. rewrite <-(Hc identity cached) by auto. done.
  - rewrite (law_lookup _ m) by done. cbn [rbind]. eexists. split; [done|].
    apply cache_ids_ok; [done..|]. intros other answer Ho _. apply Hc; [done|auto].
Qed.

(** A fresh identity: inserted in the store, then cached. *)
Lemma insert_identity_spec ids m identity handle answer ids' :
  ids_ok ids m → (identity.1 < 256)%N → - 2 ^ 63 ≤ handle < 2 ^ 63 → m !! identity = None →
  insert_identity ids identity handle = Ok (answer, ids') →
  answer = inserted ∧ ids_ok (cache_identity ids' identity (Some handle)) (<[identity := handle]> m).
Proof.
  intros [Hs Hc] Hk Hh Hnone. unfold insert_identity.
  destruct (_ || _) eqn:E; [done|]. apply orb_false_iff in E as [E1%N.leb_gt E2%N.leb_gt].
  rewrite (law_count _ m Hs) in E2. intros Hi. apply rbind_Ok in Hi as ([r i'] & Hi & [= <- <-]).
  apply (law_insert _ m) in Hi as [-> Hs']; [|done|split_and!; [done|lia|lia|lia]|lia].
  unfold model_insert in *. rewrite Hnone in *. cbn [fst snd] in *. split; [done|].
  rewrite <-(lookup_insert_eq m identity handle) at 1. apply cache_ids_ok; [done..|].
  intros other w Ho Hne Hl. rewrite lookup_insert_ne by done. by apply (Hc other w); [|auto|].
Qed.

Lemma bind_identity_spec ids m identity handle ids' :
  ids_ok ids m → (identity.1 < 256)%N → - 2 ^ 63 ≤ handle < 2 ^ 63 →
  bind_identity ids identity handle = Ok ids' →
  ids_ok ids' (<[identity := handle]> m) ∧ (∀ h, m !! identity = Some h → h = handle).
Proof.
  intros Hok Hk Hh. unfold bind_identity.
  destruct (lookup_identity_spec ids m identity Hok Hk) as (ids1 & -> & Hok1). cbn [rbind].
  destruct (m !! identity) as [other|] eqn:Em.
  - destruct (other =? handle) eqn:E; [|done]. apply Z.eqb_eq in E as ->. intros [= <-].
    rewrite insert_id by done. split; [|by intros h [= ->]]. rewrite <-Em.
    destruct Hok1 as [Hs1 Hc1]. apply cache_ids_ok; [done..|]. intros o w Ho _. apply Hc1; [done|auto].
  - intros Hb. apply rbind_Ok in Hb as ([answer ids2] & Hi & Hb).
    apply (insert_identity_spec _ m) in Hi as [-> Hok2]; [|done..]. injection Hb as <-. done.
Qed.

(** *** Handles *)

(** Kinds whose identities get their handle from [identity_handle] only. *)
Definition own_kind (kind : FactIdentityKind) : Prop := (kind < 4)%N.

(** Handles name one identity of their kind, and are marked as taken. *)
Record handles_ok m : Prop := {
  handle_taken kind key handle :
    own_kind kind → m !! (kind, key) = Some handle → is_Some (m !! handle_identity kind handle);
  handle_unique kind key key' handle :
    own_kind kind → m !! (kind, key) = Some handle → m !! (kind, key') = Some handle → key = key';
  handle_range kind key handle : own_kind kind → m !! (kind, key) = Some handle → 0 < handle < 2 ^ 63;
  handle_width identity handle : m !! identity = Some handle → - 2 ^ 63 ≤ handle < 2 ^ 63
}.

Lemma handles_ok_empty : handles_ok ∅.
Proof. split; intros *; rewrite lookup_empty; done. Qed.

Lemma handle_identity_inj kind kind' handle handle' :
  handle_identity kind handle = handle_identity kind' handle' → kind = kind' ∧ handle = handle'.
Proof.
  unfold handle_identity. intros [= E].
  apply app_sep_inj in E as [Ek Eh]; [|apply colon_sep..].
  apply (inj to_string) in Ek, Eh. lia.
Qed.

(** An identity of a kind that [identity_handle] does not name. *)
Lemma handles_ok_other m identity handle :
  handles_ok m → (4 ≤ identity.1)%N → - 2 ^ 63 ≤ handle < 2 ^ 63 → handles_ok (<[identity := handle]> m).
Proof.
  intros [Ht Hu Hr Hw] Hk Hh. assert (∀ kind key, own_kind kind → <[identity := handle]> m !! (kind, key) = m !! (kind, key)) as E.
  { intros kind key Hown. apply lookup_insert_ne. intros ->. unfold own_kind in Hown. cbn in Hk. lia. }
  split.
  - intros kind key h Hown. rewrite E by done. intros Hm. apply (Ht kind key h Hown) in Hm.
    destruct (decide (identity = handle_identity kind h)) as [->|Hne]; [by rewrite lookup_insert_eq|].
    by rewrite lookup_insert_ne.
  - intros kind key key' h Hown. rewrite !E by done. by apply Hu.
  - intros kind key h Hown. rewrite E by done. by apply Hr.
  - intros i h [[_ <-]|[_ Hm]]%lookup_insert_Some; [done|by eapply Hw].
Qed.

(** A fresh handle, marked as taken. *)
Lemma handles_ok_fresh m identity handle :
  handles_ok m → 0 < handle < 2 ^ 63 → m !! handle_identity identity.1 handle = None →
  m !! identity = None → identity.1 ≠ kind_handle →
  handles_ok (<[handle_identity identity.1 handle := handle]> (<[identity := handle]> m)).
Proof.
  destruct identity as [kind0 key0]. cbn [fst]. intros Hm Hh Hfree Hnone Hkh.
  destruct (decide (own_kind kind0)) as [Hown0|Hown0].
  2:{ apply handles_ok_other; [apply handles_ok_other; [done| |lia]|by cbn|lia].
      unfold own_kind in Hown0. cbn. lia. }
  destruct Hm as [Ht Hu Hr Hw].
  assert (∀ kind key, own_kind kind →
    <[handle_identity kind0 handle := handle]> (<[(kind0, key0) := handle]> m) !! (kind, key)
    = <[(kind0, key0) := handle]> m !! (kind, key)) as E.
  { intros kind key Hown. apply lookup_insert_ne. intros [= <- _]. by unfold own_kind, kind_handle in Hown. }
  assert (∀ key, m !! (kind0, key) ≠ Some handle) as Hnew.
  { intros key Hm. apply (Ht kind0 key handle Hown0) in Hm as [? Hm]. congruence. }
  split.
  - intros kind key h Hown. rewrite E by done. intros [[[= <- <-] <-]|[_ Hm]]%lookup_insert_Some.
    { by rewrite lookup_insert_eq. }
    apply (Ht kind key h Hown) in Hm as [w Hm].
    destruct (decide (handle_identity kind0 handle = handle_identity kind h)) as [->|Hne]; [by rewrite lookup_insert_eq|].
    rewrite lookup_insert_ne by done. rewrite lookup_insert_ne by (intros [= -> _]; by unfold own_kind, kind_handle in Hown0).
    by exists w.
  - intros kind key key' h Hown. rewrite !E by done.
    intros [[[= <- <-] <-]|[_ Hm]]%lookup_insert_Some [[E' E2]|[_ Hm']]%lookup_insert_Some;
      [congruence|by apply Hnew in Hm'| |by eapply Hu].
    injection E' as <- <-. subst h. by apply Hnew in Hm.
  - intros kind key h Hown. rewrite E by done. intros [[_ <-]|[_ Hm]]%lookup_insert_Some; [done|by eapply Hr].
  - intros i h [[_ <-]|[_ [[_ <-]|[_ Hm]]%lookup_insert_Some]]%lookup_insert_Some; [lia|lia|by eapply Hw].
Qed.

(** What [identity_handle] does to the map: nothing, or the identity and its mark
    are added. *)
Definition adds_identity m m' (identity : Identity) (handle : Z) : Prop :=
  m' = m ∧ m !! identity = Some handle ∨
  m !! identity = None ∧ m !! handle_identity identity.1 handle = None ∧
  (∃ attempt, handle = candidate_for primary_hasher_ identity.2 attempt) ∧
  m' = <[handle_identity identity.1 handle := handle]> (<[identity := handle]> m).

Lemma handle_loop_spec fuel attempt ids m identity handle ids' :
  ids_ok ids m → (identity.1 < 256)%N → identity.1 ≠ kind_handle → m !! identity = None →
  handle_loop primary_hasher_ fuel attempt ids identity = Ok (handle, ids') →
  ∃ m', ids_ok ids' m' ∧ adds_identity m m' identity handle.
Proof.
  intros Hok Hk Hkh Hnone. revert attempt ids Hok. induction fuel as [|fuel IH]; intros attempt ids Hok; [done|].
  cbn [handle_loop]. set (h := candidate_for _ _ _). set (hk := handle_identity _ h).
  assert (- 2 ^ 63 ≤ h < 2 ^ 63) as Hh by (pose proof (candidate_range primary_hasher_ identity.2 attempt); lia).
  destruct (lookup_identity_spec ids m hk Hok ltac:(done)) as (ids1 & -> & Hok1). cbn [rbind].
  destruct (m !! hk) as [taken|] eqn:Et; [by apply IH|].
  intros Hi. apply rbind_Ok in Hi as ([answer ids2] & H1 & Hi).
  apply (insert_identity_spec _ m) in H1 as [-> Hok2]; [|done..].
  apply rbind_Ok in Hi as ([answer ids3] & H2 & Hi).
  apply (insert_identity_spec _ (<[identity := h]> m)) in H2 as [-> Hok3]; [|done|done|done|].
  2:{ rewrite lookup_insert_ne; [done|]. intros E. apply (f_equal fst) in E. done. }
  injection Hi as <- <-. eexists. split; [done|]. right. eauto.
Qed.

Lemma identity_handle_spec fuel ids m identity handle ids' :
  ids_ok ids m → (identity.1 < 256)%N → identity.1 ≠ kind_handle →
  identity_handle primary_hasher_ fuel ids identity = Ok (handle, ids') →
  ∃ m', ids_ok ids' m' ∧ adds_identity m m' identity handle.
Proof.
  intros Hok Hk Hkh. unfold identity_handle.
  destruct (lookup_identity_spec ids m identity Hok Hk) as (ids1 & -> & Hok1). cbn [rbind].
  destruct (m !! identity) as [found|] eqn:Em; [|by apply handle_loop_spec].
  intros [= <- <-]. exists m. split; [done|]. by left.
Qed.

(** The attempts are enough as soon as they reach a free handle: more of them give
    the same result. *)
Lemma handle_loop_enough fuel more attempt i ids m identity :
  ids_ok ids m → (identity.1 < 256)%N → m !! identity = None →
  0 ≤ attempt → attempt + Z.of_nat i < 2 ^ 64 → (i < fuel)%nat →
  m !! handle_identity identity.1 (candidate_for primary_hasher_ identity.2 (attempt + Z.of_nat i)) = None →
  handle_loop primary_hasher_ (fuel + more) attempt ids identity
  = handle_loop primary_hasher_ fuel attempt ids identity.
Proof.
  intros Hok Hk Hnone. revert fuel attempt ids Hok.
  induction i as [|i IH]; intros [|fuel] attempt ids Hok Ha Hb Hf Hfree; try lia; cbn [Nat.add handle_loop].
  all: set (h := candidate_for _ _ attempt) in *; set (hk := handle_identity _ h) in *.
  all: destruct (lookup_identity_spec ids m hk Hok ltac:(done)) as (ids1 & -> & Hok1); cbn [rbind].
  all: destruct (m !! hk) as [taken|] eqn:Et.
  2,4: destruct (insert_identity ids1 identity h) as [[answer ids2]|e] eqn:Ei; [|done];
    apply (insert_identity_spec _ m) in Ei as [-> _]; [done|done..| |done];
    pose proof (candidate_range primary_hasher_ identity.2 attempt); unfold h; lia.
  - rewrite Z.add_0_r in Hfree. subst h hk. congruence.
  - rewrite Z.mod_small by lia. apply IH; [done|lia..|].
    by replace (attempt + 1 + Z.of_nat i) with (attempt + Z.of_nat (S i)) by lia.
Qed.

Lemma adds_identity_lookup m m' identity handle :
  identity.1 ≠ kind_handle → adds_identity m m' identity handle → m' !! identity = Some handle.
Proof.
  intros Hk [[-> Hm]|(_ & _ & _ & ->)]; [done|]. rewrite lookup_insert_ne; [by rewrite lookup_insert_eq|].
  intros E. apply (f_equal fst) in E. done.
Qed.

Lemma adds_identity_subseteq m m' identity handle : adds_identity m m' identity handle → m ⊆ m'.
Proof.
  intros [[-> _]|(Hn & Hh & _ & ->)]; [done|]. trans (<[identity := handle]> m); [by apply insert_subseteq|].
  destruct (decide (identity = handle_identity identity.1 handle)) as [E|Hne].
  - rewrite <-E, insert_insert_eq. done.
  - apply insert_subseteq. by rewrite lookup_insert_ne.
Qed.

Lemma adds_identity_handles m m' identity handle :
  identity.1 ≠ kind_handle → handles_ok m → adds_identity m m' identity handle → handles_ok m'.
Proof.
  intros Hk Hm [[-> _]|(Hn & Hh & (a & ->) & ->)]; [done|].
  apply handles_ok_fresh; try done. apply candidate_range.
Qed.
End laws.
