(* ===== verification/FactRecorder.v ===== *)
(** * The fact recorder: [FactBatchRecorder] of [src/src/ast/fact_batch.cpp]

    What the visitors of a translation unit report is collected here: records routed
    to the partition they belong to, identities with their handles, the tables that
    lookups use, references to other translation units.  [FactBatchRecorder] has the
    members of the class; an operation is a computation [recorder A] that reads and
    writes it and may throw.  The identity store is the interface [IdentityStore].

    [RecorderLaws] states the invariant of the operations and what the batch of a
    recorder is. *)

From S2P Require Export FactHandles.
From S2P Require Export SpillBuffer.
From S2P Require Export FactBatch.
From coqutil Require Import Datatypes.RecordSetters.
Import DoubleBraceUpdate.
Open Scope Z_scope.

(** ** Data *)

Record DeferredExternalIdentity := Deferral {
  enabled : bool;
  translation_unit_path : bytes
}.

Record ExtractionFactLimits := FactLimits {
  el_spill_threshold_bytes : N;
  el_max_total_bytes : N;
  el_max_resident_identity_bytes : N;
  el_max_identity_entries : N
}.

Record FactBatchOperationCounters := Counters {
  calls : gmap bytes N;
  records_touched : gmap bytes N
}.

Record TypeArgCandidate := Candidate {
  tc_id : Z;
  tc_kind_name : bytes;
  tc_is_instantiation : bool
}.

Record MintRequest := Mint {
  mr_usr : bytes;
  mr_spelling : bytes;
  mr_qual_name : bytes;
  mr_display_name : bytes;
  mr_type_info : option bytes;
  mr_kind_name : bytes;
  mr_decl_file_id : option Z;
  mr_decl_line : option Z;
  mr_decl_col : option Z;
  mr_decl_path : option bytes;
  mr_is_instantiation : bool;
  mr_is_named_instance : bool;
  mr_identity_source : option bytes;
  mr_linkage : option bytes;
  mr_callable_kind : option bytes;
  mr_template_origin : option bytes;
  mr_template_form : option bytes;
  mr_parent_usr : option bytes
}.

Record FactBatchRecorder (Store : Type) := Recorder {
  producer_ : bytes;
  completeness_ : FactCompleteness;
  current_partition_ : FactPartitionKey;
  partitions_by_file_handle_ : gmap Z FactPartitionKey;
  symbols_ : list (Routed SymbolRecord);
  declaration_sites_ : list (Routed DeclarationSiteRecord);
  relations_ : list (Routed EdgeRecord);
  edge_sites_ : list (Routed EdgeSiteRecord);
  call_args_ : list (Routed CallArgRecord);
  template_params_ : list (Routed TemplateParamRecord);
  template_args_ : list (Routed TemplateArgRecord);
  type_nodes_ : list (Routed TypeNodeRecord);
  type_edges_ : list (Routed TypeEdgeRecord);
  parameter_buckets_ : gmap Z (FactPartitionKey * list ParameterRecord);
  symbol_types_ : list (Routed SymbolTypeRecord);
  definitions_ : list (Routed DefinitionFactRecord);
  definition_edges_ : list (Routed DefinitionEdgeRecord);
  includes_ : list (Routed IncludeDirectiveRecord);
  macros_ : list (Routed MacroUseRecord);
  diagnostics_ : list (Routed DiagnosticFactRecord);
  evidence_ : list (Routed EvidenceRecord);
  presentation_intents_ : list (Routed PresentationIntent);
  lifecycle_cleanup_ : list (Routed LifecycleCleanupIntent);
  applicability_ : list (Routed ApplicabilityOwnershipRecord);
  symbol_order_ : list SymbolEmissionMetadata;
  deferred_external_identity_ : DeferredExternalIdentity;
  pending_symbol_references_ : list PendingSymbolReference;
  external_ids_by_key_ : gmap bytes Z;
  symbol_ids_by_source_usr_ : gmap bytes Z;
  symbol_ids_by_scope_usr_ : gmap bytes (gset Z);
  symbol_positions_by_id_ : gmap Z (list nat);
  candidates_by_name_ : gmap bytes (list TypeArgCandidate);
  candidate_keys_by_name_ : gmap bytes (gset bytes);
  candidates_by_qualified_name_ : gmap bytes (list TypeArgCandidate);
  candidate_keys_by_qualified_name_ : gmap bytes (gset bytes);
  symbol_ids_by_qualified_name_kind_ : gmap bytes (list Z);
  symbol_id_keys_by_qualified_name_kind_ : gmap bytes (gset Z);
  edge_positions_by_key_ : gmap bytes nat;
  body_edge_positions_by_source_ : gmap Z (list nat);
  definition_ids_by_key_ : gmap bytes Z;
  definition_partitions_by_id_ : gmap Z FactPartitionKey;
  display_names_ : gmap Z bytes;
  next_emission_order_ : N;
  counters_ : FactBatchOperationCounters;
  extraction_limits_ : ExtractionFactLimits;
  identities_ : Identities Store;
  fact_payload_ : SpillableFactBuffer SymbolRecord
}.
Arguments Recorder {Store} _ _ _ _ _ _ _ _ _ _ _ _ _ _ _ _ _ _ _ _ _ _ _ _ _ _ _ _ _ _ _ _ _ _ _ _ _ _ _ _ _ _ _ _ _ _ _.
Arguments producer_ {Store} _.
Arguments completeness_ {Store} _.
Arguments current_partition_ {Store} _.
Arguments partitions_by_file_handle_ {Store} _.
Arguments symbols_ {Store} _.
Arguments declaration_sites_ {Store} _.
Arguments relations_ {Store} _.
Arguments edge_sites_ {Store} _.
Arguments call_args_ {Store} _.
Arguments template_params_ {Store} _.
Arguments template_args_ {Store} _.
Arguments type_nodes_ {Store} _.
Arguments type_edges_ {Store} _.
Arguments parameter_buckets_ {Store} _.
Arguments symbol_types_ {Store} _.
Arguments definitions_ {Store} _.
Arguments definition_edges_ {Store} _.
Arguments includes_ {Store} _.
Arguments macros_ {Store} _.
Arguments diagnostics_ {Store} _.
Arguments evidence_ {Store} _.
Arguments presentation_intents_ {Store} _.
Arguments lifecycle_cleanup_ {Store} _.
Arguments applicability_ {Store} _.
Arguments symbol_order_ {Store} _.
Arguments deferred_external_identity_ {Store} _.
Arguments pending_symbol_references_ {Store} _.
Arguments external_ids_by_key_ {Store} _.
Arguments symbol_ids_by_source_usr_ {Store} _.
Arguments symbol_ids_by_scope_usr_ {Store} _.
Arguments symbol_positions_by_id_ {Store} _.
Arguments candidates_by_name_ {Store} _.
Arguments candidate_keys_by_name_ {Store} _.
Arguments candidates_by_qualified_name_ {Store} _.
Arguments candidate_keys_by_qualified_name_ {Store} _.
Arguments symbol_ids_by_qualified_name_kind_ {Store} _.
Arguments symbol_id_keys_by_qualified_name_kind_ {Store} _.
Arguments edge_positions_by_key_ {Store} _.
Arguments body_edge_positions_by_source_ {Store} _.
Arguments definition_ids_by_key_ {Store} _.
Arguments definition_partitions_by_id_ {Store} _.
Arguments display_names_ {Store} _.
Arguments next_emission_order_ {Store} _.
Arguments counters_ {Store} _.
Arguments extraction_limits_ {Store} _.
Arguments identities_ {Store} _.
Arguments fact_payload_ {Store} _.

(** ** Keys and small helpers *)

Definition note (operation : bytes) (touched : N) (c : FactBatchOperationCounters)
    : FactBatchOperationCounters :=
  let bump n (m : gmap bytes N) := <[operation := add64 (default 0%N (m !! operation)) n]> m in
  Counters (bump 1%N (calls c)) (bump touched (records_touched c)).

(** [++counters_.records_touched[operation]]. *)
Definition touch (operation : bytes) (n : N) (c : FactBatchOperationCounters) : FactBatchOperationCounters :=
  Counters (calls c)
    (<[operation := add64 (default 0%N (records_touched c !! operation)) n]> (records_touched c)).

Definition record_separator : bytes := ["030"%char].
Definition newline : bytes := ["010"%char].

Definition pending_string (r : PendingSymbolReference) : bytes :=
  ps_semantic_universe r ++ us ++ ps_translation_unit r ++ us ++ ps_identity_source r ++ us ++ ps_usr r.

Definition file_path_identity_key (path : bytes) (configuration : ConfigurationIdentity) : bytes :=
  bs "path:" ++ path ++ record_separator ++ semantic_universe configuration ++ record_separator
  ++ translation_unit configuration ++ record_separator ++ normalized_configuration configuration
  ++ record_separator ++ identity_source configuration.

Definition file_source_identity_key (path : bytes) (configuration : ConfigurationIdentity) : bytes :=
  bs "path-source:" ++ path ++ record_separator ++ identity_source configuration.

Definition file_unscoped_identity_key (path : bytes) : bytes := bs "path:" ++ path.

Definition candidate_key (candidate : TypeArgCandidate) : bytes :=
  to_string (tc_id candidate) ++ bs ":" ++ tc_kind_name candidate ++ bs ":"
  ++ (if tc_is_instantiation candidate then bs "1" else bs "0").

(** [append_indexed_unique] on the entries of [key]; [operator[]] creates them. *)
Definition append_indexed_unique {K T} `{Countable K} (key : bytes) (member : K) (value : T)
    (values : gmap bytes (list T)) (membership : gmap bytes (gset K))
    : gmap bytes (list T) * gmap bytes (gset K) :=
  let members := default ∅ (membership !! key) in
  let stored := default [] (values !! key) in
  if decide (member ∈ members) then (<[key := stored]> values, <[key := members]> membership)
  else (<[key := stored ++ [value]]> values, <[key := {[member]} ∪ members]> membership).

(** The text before and after the last ['/'] or ['\'], or [None] without one. *)
Fixpoint split_last_separator (l : bytes) : option (bytes * bytes) :=
  match l with
  | [] => None
  | c :: l =>
      match split_last_separator l with
      | Some (directory, file) => Some (c :: directory, file)
      | None => if bool_decide (c = "/"%char) || bool_decide (c = "\"%char) then Some ([], l) else None
      end
  end.

Definition file_identity_from_path (value component : bytes) : PortableFileIdentity :=
  let within_component :=
    negb (bool_decide (component = [])) && (length component <? length value)%nat
    && bool_decide (take (length component) value = component)
    && (bool_decide (value !! length component = Some "/"%char)
        || bool_decide (value !! length component = Some "\"%char)) in
  let relative := if within_component then drop (length component + 1) value else value in
  let '(directory, file) := default ([], relative) (split_last_separator relative) in
  FileIdentity (if within_component then component else []) directory file.

Definition source_lookup_key (partition : FactPartitionKey) (source usr : bytes) : bytes :=
  let c := pk_configuration partition in
  semantic_universe c ++ newline ++ translation_unit c ++ newline ++ source ++ newline ++ usr.

Definition scope_lookup_key (partition : FactPartitionKey) (usr : bytes) : bytes :=
  let c := pk_configuration partition in
  semantic_universe c ++ newline ++ translation_unit c ++ newline ++ usr.

Definition name_kind_key (name kind : bytes) : bytes := name ++ newline ++ kind.

Definition natural_key (symbol : SymbolRecord) (partition : FactPartitionKey) : SymbolNaturalKey :=
  SymbolKey partition (sr_usr symbol) (sr_local_anchor symbol) (sr_linkage symbol).

Definition edge_key (edge : EdgeRecord) : bytes :=
  to_string (er_src_id edge) ++ bs ":" ++ to_string (er_dst_id edge) ++ bs ":" ++ to_string (er_kind edge)
  ++ bs ":" ++ optional_int (er_base_access edge) ++ bs ":" ++ optional_int (er_is_virtual edge).

(** *** [src/src/ast/kind_map.cpp] *)

Definition kind_names : list (Z * bytes) :=
  [(2, bs "struct"); (3, bs "union"); (4, bs "class"); (5, bs "enum"); (6, bs "member");
   (7, bs "enum-constant"); (8, bs "function"); (9, bs "variable"); (20, bs "typedef");
   (21, bs "method"); (22, bs "namespace"); (24, bs "constructor"); (25, bs "destructor");
   (30, bs "function-template"); (31, bs "class-template"); (36, bs "type-alias")].

Definition cidx_kind_name_from_int (kind : Z) : option bytes :=
  snd <$> head (filter (λ e, e.1 = kind) kind_names).

Definition cidx_kind_int_from_name (name : bytes) : Z :=
  default (-1) (fst <$> head (filter (λ e, e.2 = name) kind_names)).

(** *** Minting *)

Definition nonempty (text : bytes) : option bytes := if decide (text = []) then None else Some text.

(** [if (!field && value) field = value]. *)
Definition fill (field value : option bytes) : option bytes :=
  match field with Some _ => field | None => value end.

Definition merge_mint_enrichment (record : SymbolRecord) (request : MintRequest) : SymbolRecord :=
  record{{ sr_qual_name ::= λ f, fill f (nonempty (mr_qual_name request));
           sr_display_name ::= λ f, fill f (nonempty (mr_display_name request));
           sr_type_info ::= λ f, fill f (mr_type_info request);
           sr_callable_kind ::= λ f, fill f (mr_callable_kind request);
           sr_template_origin ::= λ f, fill f (mr_template_origin request);
           sr_template_form ::= λ f, fill f (mr_template_form request);
           sr_linkage ::= λ f, fill f (mr_linkage request);
           sr_parent_usr ::= λ f, fill f (mr_parent_usr request);
           sr_decl_path ::= λ f, fill f (mr_decl_path request);
           sr_is_instantiation ::= λ b, b || mr_is_instantiation request;
           sr_is_named_instance ::= λ b, b || mr_is_named_instance request }}.

Definition mint_identity_source (request : MintRequest) : option bytes :=
  let source := mr_identity_source request in
  let empty := bool_decide (source = None) || bool_decide (source = Some []) in
  let source :=
    match mr_decl_path request with
    | Some path => if empty && negb (bool_decide (path = [])) then Some path else source
    | None => source
    end in
  if decide (source = Some []) then None else source.

(** The record of [create_minted_symbol]; [file] is the declaring file. *)
Definition minted_record (request : MintRequest) (file : bytes) (source : option bytes) : SymbolRecord :=
  SymbolRec file (mr_usr request) (mr_spelling request) (CInt (cidx_kind_int_from_name (mr_kind_name request)))
    (Some (mr_qual_name request)) (Some (mr_display_name request)) (mr_type_info request) 0 0 0 0
    (mr_decl_line request) (mr_decl_col request) (mr_decl_path request) false false false
    (mr_is_instantiation request) (mr_is_named_instance request) (mr_callable_kind request)
    (mr_template_origin request) (mr_template_form request) (mr_linkage request) None None None false
    [] [] source None None (mr_kind_name request).

(** ** Operations

    A computation that reads and writes the recorder and may throw. *)

Definition recorder (Store A : Type) : Type := FactBatchRecorder Store → result (A * FactBatchRecorder Store).
Definition rret {Store A} (a : A) : recorder Store A := λ s, Ok (a, s).
Definition rthen {Store A B} (m : recorder Store A) (k : A → recorder Store B) : recorder Store B :=
  λ s, let! (a, s) := m s in k a s.
Definition rfail {Store A} (message : bytes) : recorder Store A := λ s, throw message.
Definition rget {Store A} (f : FactBatchRecorder Store → A) : recorder Store A := λ s, Ok (f s, s).
Definition rset {Store} (f : FactBatchRecorder Store → FactBatchRecorder Store) : recorder Store unit :=
  λ s, Ok (tt, f s).

Notation "'let*' x ':=' m 'in' k" := (rthen m (λ x, k))
  (at level 200, x pattern, m at level 100, k at level 200, right associativity) : cidx_scope.
Notation "m ;;* k" := (rthen m (λ _, k)) (at level 100, right associativity) : cidx_scope.

Fixpoint rfor {Store A} (l : list A) (body : A → recorder Store unit) : recorder Store unit :=
  match l with
  | [] => rret tt
  | a :: l => body a ;;* rfor l body
  end.

Section operations.
Context `{IdentityStore Store} (primary_hasher_ : bytes → Z) (attempts : nat).
Implicit Types s : FactBatchRecorder Store.
Abbreviation M := (recorder Store).

Definition counted (operation : string) (touched : nat) : M unit :=
  rset (λ s, s{{ counters_ ::= note (bs operation) (N.of_nat touched) }}).
Definition touched (operation : string) (n : nat) : M unit :=
  rset (λ s, s{{ counters_ ::= touch (bs operation) (N.of_nat n) }}).

(** *** Identities *)

Definition with_identities {A} (f : Identities Store → result (A * Identities Store)) : M A :=
  λ s, let! (a, ids) := f (identities_ s) in Ok (a, s{{ identities_ := ids }}).

Definition find_identity_of (kind : FactIdentityKind) (key : bytes) : M (option Z) :=
  with_identities (λ ids, lookup_identity ids (kind, key)).
Definition handle_of (kind : FactIdentityKind) (key : bytes) : M Z :=
  with_identities (λ ids, identity_handle primary_hasher_ attempts ids (kind, key)).
Definition bind_to (kind : FactIdentityKind) (key : bytes) (handle : Z) : M unit :=
  with_identities (λ ids, let! ids := bind_identity ids (kind, key) handle in Ok (tt, ids)).

(** [if (!lookup_identity(kind, key)) bind_identity(kind, key, handle)]. *)
Definition bind_if_absent (kind : FactIdentityKind) (key : bytes) (handle : Z) : M unit :=
  let* found := find_identity_of kind key in
  match found with
  | Some _ => rret tt
  | None => bind_to kind key handle
  end.

(** *** Settings and partitions *)

Definition no_partition : FactPartitionKey :=
  PartitionKey (FileIdentity [] [] []) (MkConfiguration [] [] [] [] (ConfigurationContent None None [] None None)).

Definition identity_options (limits : ExtractionFactLimits) : SpillableIdentityIndexOptions :=
  IndexOptions (el_max_resident_identity_bytes limits) (el_max_identity_entries limits) 8
    (el_max_total_bytes limits).

Definition payload_options (limits : ExtractionFactLimits) : SpillableFactBufferOptions :=
  BufferOptions fam_symbols (el_spill_threshold_bytes limits) (el_max_total_bytes limits).

Definition set_extraction_limits (limits : ExtractionFactLimits) : M unit :=
  rset (λ s, s{{ extraction_limits_ := limits;
                 identities_ := new_identities (identity_options limits);
                 fact_payload_ := new_buffer (payload_options limits)
                                    (Some encode_symbol_record) (Some decode_symbol_record) }}).

Definition default_limits : ExtractionFactLimits := FactLimits 67108864 536870912 33554432 1000000.

Definition new_recorder (producer : bytes) : FactBatchRecorder Store :=
  Recorder producer complete no_partition ∅ [] [] [] [] [] [] [] [] [] ∅ [] [] [] [] [] [] [] [] [] []
    [] (Deferral false []) [] ∅ ∅ ∅ ∅ ∅ ∅ ∅ ∅ ∅ ∅ ∅ ∅ ∅ ∅ ∅ 0 (Counters ∅ ∅)
    default_limits (new_identities (identity_options default_limits))
    (new_buffer (payload_options default_limits) (Some encode_symbol_record) (Some decode_symbol_record)).

Definition set_completeness (completeness : FactCompleteness) : M unit :=
  rset (λ s, s{{ completeness_ := completeness }}).
Definition set_deferred_external_identity (deferral : DeferredExternalIdentity) : M unit :=
  rset (λ s, s{{ deferred_external_identity_ := deferral }}).

Definition partition_for_file_handle (s : FactBatchRecorder Store) (file_id : Z) : FactPartitionKey :=
  default (current_partition_ s) (partitions_by_file_handle_ s !! file_id).

Definition set_partition (partition : FactPartitionKey) (transient_file_handle : option Z) : M unit :=
  rset (λ s, s{{ current_partition_ := partition }}) ;;*
  let path := portable_path (pk_file partition) in
  let configuration := pk_configuration partition in
  let* natural_handle := handle_of kind_file (bs "file:" ++ partition_string partition) in
  rset (λ s, s{{ partitions_by_file_handle_ ::= <[natural_handle := partition]> }}) ;;*
  let name (handle : Z) : M unit :=
    if decide (path = []) then rret tt
    else
      bind_to kind_file (file_path_identity_key path configuration) handle ;;*
      bind_if_absent kind_file (file_source_identity_key path configuration) handle ;;*
      bind_if_absent kind_file (file_unscoped_identity_key path) handle in
  match transient_file_handle with
  | Some handle =>
      rset (λ s, s{{ partitions_by_file_handle_ ::= <[handle := partition]> }}) ;;* name handle
  | None => name natural_handle
  end.

(** The configuration that a symbol's own fields override. *)
Definition symbol_configuration (symbol : SymbolRecord) (c : ConfigurationIdentity) : ConfigurationIdentity :=
  let c := if decide (sr_semantic_universe symbol = []) then c
           else c{{ semantic_universe := sr_semantic_universe symbol }} in
  let c := if decide (sr_normalized_configuration symbol = []) then c
           else c{{ normalized_configuration := sr_normalized_configuration symbol }} in
  let c := match sr_identity_source symbol with
           | Some source => c{{ identity_source := source }}
           | None => if decide (identity_source c = []) then c{{ identity_source := sr_file symbol }} else c
           end in
  match sr_identity_translation_unit symbol with
  | Some unit => c{{ translation_unit := unit }}
  | None => c
  end.

(** The handle that a file is known by: with its configuration, its source, its path. *)
Definition known_file (path : bytes) (configuration : ConfigurationIdentity) : M (option Z) :=
  let* handle := find_identity_of kind_file (file_path_identity_key path configuration) in
  match handle with
  | Some _ => rret handle
  | None =>
      let* handle := find_identity_of kind_file (file_source_identity_key path configuration) in
      match handle with
      | Some _ => rret handle
      | None => find_identity_of kind_file (file_unscoped_identity_key path)
      end
  end.

Definition partition_for_symbol (symbol : SymbolRecord) : M FactPartitionKey :=
  let* current := rget current_partition_ in
  let configuration := symbol_configuration symbol (pk_configuration current) in
  let file := pk_file current in
  if bool_decide (sr_file symbol = []) || bool_decide (portable_path file = sr_file symbol)
  then rret (PartitionKey file configuration)
  else
    let* handle := known_file (sr_file symbol) configuration in
    match handle with
    | Some handle => rget (λ s, partition_for_file_handle s handle)
    | None => rret (PartitionKey (file_identity_from_path (sr_file symbol) (component_path file)) configuration)
    end.

(** *** Symbols *)

(** [fact_payload_->append(symbol)]. *)
Definition append_payload (symbol : SymbolRecord) : M unit :=
  λ s, let! (_, payload) := SpillBuffer.append (fact_payload_ s) symbol in
       Ok (tt, s{{ fact_payload_ := payload }}).

(** The candidate tables of [emit]. *)
Definition index_candidate (symbol : SymbolRecord) (id : Z) : M unit :=
  let kind := if decide (sr_kind_name symbol = [])
              then default [] (cidx_kind_name_from_int (int_value (sr_kind symbol)))
              else sr_kind_name symbol in
  let candidate := Candidate id kind (sr_is_instantiation symbol) in
  rset (λ s,
    let '(values, members) := append_indexed_unique (sr_spelling symbol) (candidate_key candidate) candidate
                                (candidates_by_name_ s) (candidate_keys_by_name_ s) in
    s{{ candidates_by_name_ := values; candidate_keys_by_name_ := members }}) ;;*
  counted "emit_candidate_membership" 1 ;;*
  match sr_qual_name symbol with
  | None => rret tt
  | Some name =>
      rset (λ s,
        let '(values, members) := append_indexed_unique name (candidate_key candidate) candidate
                                    (candidates_by_qualified_name_ s) (candidate_keys_by_qualified_name_ s) in
        s{{ candidates_by_qualified_name_ := values; candidate_keys_by_qualified_name_ := members }}) ;;*
      counted "emit_candidate_membership" 1 ;;*
      rset (λ s,
        let '(values, members) := append_indexed_unique (name_kind_key name kind) id id
                                    (symbol_ids_by_qualified_name_kind_ s)
                                    (symbol_id_keys_by_qualified_name_kind_ s) in
        s{{ symbol_ids_by_qualified_name_kind_ := values; symbol_id_keys_by_qualified_name_kind_ := members }}) ;;*
      counted "emit_candidate_membership" 1
  end.

Definition emit_symbol (symbol : SymbolRecord) : M unit :=
  let* partition := partition_for_symbol symbol in
  let key := natural_key symbol partition in
  let* id := handle_of kind_symbol (bs "symbol:" ++ symbol_string key) in
  append_payload symbol ;;*
  let* position := rget (λ s, length (symbols_ s)) in
  let* bucket := rget (λ s, default [] (symbol_positions_by_id_ s !! id)) in
  rset (λ s, s{{ symbols_ ::= λ l, l ++ [(partition, symbol)];
                 symbol_positions_by_id_ ::= <[id := bucket ++ [position]]>;
                 display_names_ ::= λ m, match sr_display_name symbol with
                                         | Some display => <[id := display]> m
                                         | None => m
                                         end;
                 symbol_ids_by_source_usr_ ::= λ m,
                   let source := default (sr_file symbol) (sr_identity_source symbol) in
                   let key := source_lookup_key partition source (sr_usr symbol) in
                   match m !! key with Some _ => m | None => <[key := id]> m end;
                 symbol_ids_by_scope_usr_ ::= λ m,
                   let key := scope_lookup_key partition (sr_usr symbol) in
                   <[key := {[id]} ∪ default ∅ (m !! key)]> m }}) ;;*
  index_candidate symbol id ;;*
  let* emission := rget next_emission_order_ in
  let file := pk_file partition in
  let metadata :=
    EmissionMetadata key
      (ApplyOrder (component_path file) (directory_path file) (file_name file) emission
         (N.of_nat (length (bucket ++ [position]) - 1)))
      (symbol_record_key symbol) emission emission in
  rset (λ s, s{{ next_emission_order_ ::= λ n, add64 n 1; symbol_order_ ::= λ l, l ++ [metadata] }}) ;;*
  counted "emit_symbol" 0.

(** [emit] of the other families. *)
Definition emit_evidence (record : EvidenceRecord) : M unit :=
  rset (λ s, s{{ evidence_ ::= λ l, l ++ [(current_partition_ s, record)] }}) ;;* counted "emit_evidence" 0.
Definition emit_declaration_site (record : DeclarationSiteRecord) : M unit :=
  rset (λ s, s{{ declaration_sites_ ::= λ l, l ++ [(ds_partition record, record)] }}) ;;*
  counted "emit_declaration_site" 0.
Definition emit_include (record : IncludeDirectiveRecord) : M unit :=
  rset (λ s, s{{ includes_ ::= λ l, l ++ [(id_partition record, record)] }}) ;;* counted "emit_include" 0.
Definition emit_macro (record : MacroUseRecord) : M unit :=
  rset (λ s, s{{ macros_ ::= λ l, l ++ [(mu_partition record, record)] }}) ;;* counted "emit_macro" 0.
Definition emit_diagnostic (record : DiagnosticFactRecord) : M unit :=
  rset (λ s, s{{ diagnostics_ ::= λ l, l ++ [(dg_partition record, record)] }}) ;;* counted "emit_diagnostic" 0.
Definition emit_lifecycle_cleanup (record : LifecycleCleanupIntent) : M unit :=
  rset (λ s, s{{ lifecycle_cleanup_ ::= λ l, l ++ [(lc_partition record, record)] }}) ;;*
  counted "emit_lifecycle_cleanup" 0.
Definition emit_applicability (record : ApplicabilityOwnershipRecord) : M unit :=
  rset (λ s, s{{ applicability_ ::= λ l, l ++ [(ap_partition record, record)] }}) ;;*
  counted "emit_applicability" 0.
Definition emit_presentation_intent (intent : PresentationIntent) : M unit :=
  rset (λ s, s{{ presentation_intents_ ::= λ l, l ++ [(current_partition_ s, intent)] }}) ;;*
  counted "emit_presentation_intent" 0.

(** *** Lookups *)

(** [symbols_.at(position).record]. *)
Definition symbol_at (position : nat) : M SymbolRecord :=
  λ s, match symbols_ s !! position with
       | Some item => Ok (item.2, s)
       | None => throw (bs "vector::_M_range_check")
       end.

(** The only element of a set, if it has one. *)
Definition only_element (ids : gset Z) : option Z :=
  match elements ids with [id] => Some id | _ => None end.

Definition source_independent_symbol_id (usr : bytes) : M (option Z) :=
  let* scoped := rget (λ s, symbol_ids_by_scope_usr_ s !! scope_lookup_key (current_partition_ s) usr) in
  match scoped ≫= only_element with
  | None => rret None
  | Some candidate =>
      let* positions := rget (λ s, symbol_positions_by_id_ s !! candidate) in
      match positions with
      | None | Some [] => rret None
      | Some (first :: _) =>
          let* record := symbol_at first in
          if is_local (sr_linkage record) then rret None
          else touched "lookup_symbol_exact" 2 ;;* rret (Some candidate)
      end
  end.

(** The lambda [local_lookup] of [resolve_symbol_id]. *)
Definition local_lookup (usr : bytes) (source : option bytes) : M (option Z) :=
  match source with
  | Some text =>
      let* found := rget (λ s, symbol_ids_by_source_usr_ s !! source_lookup_key (current_partition_ s) text usr) in
      match found with
      | Some id => touched "lookup_symbol_exact" 1 ;;* rret (Some id)
      | None => source_independent_symbol_id usr
      end
  | None =>
      let* found := rget (λ s, symbol_ids_by_scope_usr_ s !! scope_lookup_key (current_partition_ s) usr) in
      match elements (default ∅ found) with
      | [] => rret None
      | [id] => touched "lookup_symbol_sourceless" 1 ;;* rret (Some id)
      | _ => touched "lookup_symbol_sourceless" 2 ;;*
             rfail (bs "ambiguous symbol USR within translation unit: " ++ usr)
      end
  end.

Definition defer_external_symbol (usr : bytes) (source : option bytes) : M (option Z) :=
  let* deferral := rget deferred_external_identity_ in
  if negb (enabled deferral) || bool_decide (source = Some (translation_unit_path deferral))
  then rret None
  else
    let* c := rget (λ s, pk_configuration (current_partition_ s)) in
    let reference := PendingReference 0 usr (default [] source) (semantic_universe c) (translation_unit c) in
    let key := pending_string reference in
    let* found := rget (λ s, external_ids_by_key_ s !! key) in
    match found with
    | Some handle => touched "defer_external_symbol" 1 ;;* rret (Some handle)
    | None =>
        let* handle := handle_of kind_symbol (bs "external:" ++ key) in
        rset (λ s, s{{ external_ids_by_key_ ::= <[key := handle]>;
                       pending_symbol_references_ ::= λ l, l ++ [reference{{ ps_handle := handle }}] }}) ;;*
        counted "defer_external_symbol" 0 ;;*
        rret (Some handle)
    end.

Definition resolve_symbol_id (usr : bytes) (identity_source : option bytes) (allow_deferral : bool)
    : M (option Z) :=
  let source := if decide (identity_source = Some []) then None else identity_source in
  counted (if source then "lookup_symbol_exact" else "lookup_symbol_sourceless") 0 ;;*
  let* found := local_lookup usr source in
  match found with
  | Some id => rret (Some id)
  | None => if allow_deferral then defer_external_symbol usr source else rret None
  end.

Definition lookup_symbol_id (usr : bytes) (identity_source : option bytes) : M (option Z) :=
  resolve_symbol_id usr identity_source true.

Definition file_id_for_path (path : bytes) : M (option Z) :=
  counted "lookup_file" 0 ;;*
  let* configuration := rget (λ s, pk_configuration (current_partition_ s)) in
  known_file path configuration.

Definition type_arg_candidates (name : bytes) (qualified : bool) : M (list TypeArgCandidate) :=
  counted "type_arg_candidates" 0 ;;*
  let* found := rget (λ s, (if qualified then candidates_by_qualified_name_ s else candidates_by_name_ s) !! name) in
  match found with
  | None => rret []
  | Some l => touched "type_arg_candidates" (length l) ;;* rret l
  end.

Definition symbol_ids_by_qual_name_kind (qual_name kind_name : bytes) : M (list Z) :=
  counted "symbol_ids_by_qual_name_kind" 0 ;;*
  let* found := rget (λ s, symbol_ids_by_qualified_name_kind_ s !! name_kind_key qual_name kind_name) in
  match found with
  | None => rret []
  | Some l => touched "symbol_ids_by_qual_name_kind" (length l) ;;* rret l
  end.

(** *** Minting *)

(** A symbol record is replaced, and its emission's key with it. *)
Definition write_symbol (position : nat) (record : SymbolRecord) : M unit :=
  rset (λ s, s{{ symbols_ ::= alter (λ item, (item.1, record)) position;
                 symbol_order_ ::= alter (λ m, m{{ se_record_key := symbol_record_key record }}) position }}).

(** [symbols_.at(position)] for every position. *)
Fixpoint symbols_at (positions : list nat) : M (list (nat * SymbolRecord)) :=
  match positions with
  | [] => rret []
  | position :: positions =>
      let* record := symbol_at position in
      let* records := symbols_at positions in
      rret ((position, record) :: records)
  end.

Definition add_mint_declaration (positions : list nat) (request : MintRequest) : M unit :=
  match mr_decl_line request, positions with
  | None, _ | _, [] => rret tt
  | Some _, first :: _ =>
      let* records := symbols_at positions in
      if existsb (λ r, bool_decide (is_Some (sr_decl_line r.2))) records then rret tt
      else
        let* declaration_file :=
          rget (λ s, match mr_decl_file_id request with
                     | Some id => portable_path (pk_file (partition_for_file_handle s id))
                     | None => []
                     end) in
        match find (λ r, (0 <? sr_line r.2)
                         && (bool_decide (declaration_file = [])
                             || bool_decide (sr_file r.2 = declaration_file))) records with
        | Some (position, record) =>
            write_symbol position (record{{ sr_decl_line := mr_decl_line request;
                                            sr_decl_col := mr_decl_col request }})
        | None =>
            let* declaration := symbol_at first in
            emit_symbol (declaration{{ sr_file ::= λ file, if decide (declaration_file = []) then file
                                                            else declaration_file;
                                       sr_line := 0; sr_col := 0; sr_end_line := 0; sr_end_col := 0;
                                       sr_decl_line := mr_decl_line request;
                                       sr_decl_col := mr_decl_col request;
                                       sr_is_definition := false; sr_resolved := false }})
        end
  end.

Definition enrich_minted_symbol (symbol_id : Z) (request : MintRequest) : M unit :=
  let* found := rget (λ s, symbol_positions_by_id_ s !! symbol_id) in
  match found with
  | None => rret tt
  | Some positions =>
      rfor positions (λ position,
        let* record := symbol_at position in
        write_symbol position (merge_mint_enrichment record request)) ;;*
      add_mint_declaration positions request
  end.

Definition create_minted_symbol (request : MintRequest) (source : option bytes) : M Z :=
  let* file := rget (λ s,
    portable_path (pk_file (match mr_decl_file_id request with
                            | Some id => partition_for_file_handle s id
                            | None => current_partition_ s
                            end))) in
  emit_symbol (minted_record request file source) ;;*
  let* created := resolve_symbol_id (mr_usr request) source false in
  match created with
  | Some id => rret id
  | None => rfail (bs "minted symbol is not indexed")
  end.

Definition mint_symbol (request : MintRequest) : M Z :=
  let source := mint_identity_source request in
  let* found := resolve_symbol_id (mr_usr request) source false in
  match found with
  | Some id => enrich_minted_symbol id request ;;* rret id
  | None => create_minted_symbol request source
  end.

(** *** Relations *)

Definition add_edge (edge : EdgeRecord) : M Z :=
  let* partition := rget current_partition_ in
  let natural := partition_string partition ++ edge_key edge in
  let* found := rget (λ s, edge_positions_by_key_ s !! natural) in
  match found with
  | Some position =>
      rset (λ s, s{{ relations_ ::=
        alter (λ item, (item.1, item.2{{ er_count ::= λ n, n + er_count edge }})) position }}) ;;*
      counted "add_edge" 1 ;;*
      handle_of kind_relation (bs "edge:" ++ natural)
  | None =>
      let* id := handle_of kind_relation (bs "edge:" ++ natural) in
      let* position := rget (λ s, length (relations_ s)) in
      rset (λ s, s{{ edge_positions_by_key_ ::= <[natural := position]>;
                     relations_ ::= λ l, l ++ [(partition, edge)];
                     body_edge_positions_by_source_ ::= λ m,
                       if (er_kind edge =? 1) || (er_kind edge =? 7)
                       then <[er_src_id edge := default [] (m !! er_src_id edge) ++ [position]]> m
                       else m }}) ;;*
      counted "add_edge" 0 ;;*
      rret id
  end.

Definition ensure_edge (edge : EdgeRecord) : M Z :=
  let* partition := rget current_partition_ in
  let natural := partition_string partition ++ edge_key edge in
  let* found := rget (λ s, edge_positions_by_key_ s !! natural) in
  match found with
  | Some _ => counted "ensure_edge" 0 ;;* handle_of kind_relation (bs "edge:" ++ natural)
  | None => add_edge edge
  end.

Definition add_edge_site (site : EdgeSiteRecord) : M unit :=
  rset (λ s, s{{ edge_sites_ ::= λ l, l ++ [(partition_for_file_handle s (es_file_id site), site)] }}) ;;*
  counted "add_edge_site" 0.
Definition add_call_arg (arg : CallArgRecord) : M unit :=
  rset (λ s, s{{ call_args_ ::= λ l, l ++ [(partition_for_file_handle s (ca_file_id arg), arg)] }}) ;;*
  counted "add_call_arg" 0.
Definition add_template_param (param : TemplateParamRecord) : M unit :=
  rset (λ s, s{{ template_params_ ::= λ l, l ++ [(current_partition_ s, param)] }}) ;;*
  counted "add_template_param" 0.
Definition add_template_arg (arg : TemplateArgRecord) : M unit :=
  rset (λ s, s{{ template_args_ ::= λ l, l ++ [(current_partition_ s, arg)] }}) ;;*
  counted "add_template_arg" 0.

(** *** Types *)

Definition intern_type_node (node : TypeNodeRecord) : M Z :=
  let* partition := rget current_partition_ in
  let stable := bs "type:" ++ type_string (TypeKey partition (tn_type_key node)) in
  let* found := find_identity_of kind_type stable in
  match found with
  | Some id => counted "intern_type_node" 1 ;;* rret id
  | None =>
      let* id := handle_of kind_type stable in
      rset (λ s, s{{ type_nodes_ ::= λ l, l ++ [(partition, node)] }}) ;;*
      counted "intern_type_node" 0 ;;*
      rret id
  end.

Definition add_type_edge (src_id kind position dst_id : Z) : M unit :=
  rset (λ s, s{{ type_edges_ ::= λ l, l ++ [(current_partition_ s, TypeEdgeRec src_id kind position dst_id)] }}) ;;*
  counted "add_type_edge" 0.
Definition replace_parameters (owner_id : Z) (parameters : list ParameterRecord) : M unit :=
  rset (λ s, s{{ parameter_buckets_ ::= <[owner_id := (current_partition_ s, parameters)]> }}) ;;*
  counted "replace_parameters" (length parameters).
Definition add_symbol_type (symbol_id kind type_id : Z) : M unit :=
  rset (λ s, s{{ symbol_types_ ::= λ l, l ++ [(current_partition_ s, SymbolTypeRec symbol_id kind type_id)] }}) ;;*
  counted "add_symbol_type" 0.

(** *** Definitions *)

Definition get_or_create_definition (symbol_id file_id line col end_line end_col : Z)
    (init_text : option bytes) : M Z :=
  let* partition := rget (λ s, partition_for_file_handle s file_id) in
  let natural :=
    partition_string partition ++ bs ":" ++ to_string symbol_id ++ bs ":" ++ to_string line ++ bs ":"
    ++ to_string col ++ bs ":" ++ to_string end_line ++ bs ":" ++ to_string end_col ++ bs ":"
    ++ optional_text init_text in
  let* found := rget (λ s, definition_ids_by_key_ s !! natural) in
  match found with
  | Some id => counted "get_or_create_definition" 1 ;;* rret id
  | None =>
      let* id := handle_of kind_definition (bs "definition:" ++ natural) in
      rset (λ s, s{{ definition_ids_by_key_ ::= <[natural := id]>;
                     definition_partitions_by_id_ ::= λ m,
                       match m !! id with Some _ => m | None => <[id := partition]> m end;
                     definitions_ ::= λ l, l ++ [(partition,
                       DefinitionFactRec id symbol_id file_id line col end_line end_col init_text)] }}) ;;*
      counted "get_or_create_definition" 0 ;;*
      rret id
  end.

Definition add_def_edge (definition_id destination_id kind : Z) : M unit :=
  rset (λ s, s{{ definition_edges_ ::= λ l,
    l ++ [(default (current_partition_ s) (definition_partitions_by_id_ s !! definition_id),
           DefinitionEdgeRec definition_id destination_id kind)] }}) ;;*
  counted "add_def_edge" 0.

Definition body_edge_count (symbol_id : Z) : M nat :=
  let* count := rget (λ s, length (default [] (body_edge_positions_by_source_ s !! symbol_id))) in
  counted "body_edge_count" count ;;*
  rret count.

(** A position past the end of [relations_] is undefined behaviour: it does not
    occur ([recorder_ok]). *)
Definition copy_body_edges_to_def_edge (definition_id symbol_id : Z) : M unit :=
  let* found := rget (λ s, body_edge_positions_by_source_ s !! symbol_id) in
  match found with
  | None => counted "copy_body_edges_to_def_edge" 0
  | Some positions =>
      counted "copy_body_edges_to_def_edge" (length positions) ;;*
      rfor positions (λ position,
        let* edge := rget (λ s, relations_ s !! position) in
        match edge with
        | Some (_, edge) => add_def_edge definition_id (er_dst_id edge) (er_kind edge)
        | None => rfail (bs "(undefined behaviour)")
        end)
  end.

(** *** Lifecycle and presentation *)

Definition set_current_file_id (file_id : Z) : M unit :=
  rset (λ s, s{{ current_partition_ := partition_for_file_handle s file_id }}).

Definition set_identity_translation_unit_file_id (file_id : Z) : M unit :=
  rset (λ s, s{{ current_partition_ -> pk_configuration -> translation_unit :=
                   portable_path (pk_file (partition_for_file_handle s file_id)) }}).

Definition set_identity_translation_unit_config_id (translation_unit_file_id : Z) : M unit :=
  if 0 <=? translation_unit_file_id
  then set_identity_translation_unit_file_id translation_unit_file_id else rret tt.

Definition delete_for_file (kind : LifecycleCleanupKind) (file_id : Z) : M unit :=
  let* partition := rget (λ s, partition_for_file_handle s file_id) in
  emit_lifecycle_cleanup (CleanupInt partition kind (pk_file partition) []).
Definition delete_edges_for_file : Z → M unit := delete_for_file clean_relations.
Definition delete_definitions_for_file : Z → M unit := delete_for_file clean_definitions.

Definition lookup_display_name (symbol_id : Z) : M (option bytes) :=
  counted "lookup_display_name" 0 ;;* rget (λ s, display_names_ s !! symbol_id).

(** A position past the end of [symbols_] is undefined behaviour: it does not occur
    ([recorder_ok]). *)
Definition update_display_name (symbol_id : Z) (display : bytes) : M unit :=
  rset (λ s, s{{ display_names_ ::= <[symbol_id := display]> }}) ;;*
  let* found := rget (λ s, symbol_positions_by_id_ s !! symbol_id) in
  match found with
  | None => counted "update_display_name" 0
  | Some positions =>
      counted "update_display_name" (length positions) ;;*
      rfor positions (λ position,
        let* item := rget (λ s, symbols_ s !! position) in
        match item with
        | Some (_, record) => write_symbol position (record{{ sr_display_name := Some display }})
        | None => rfail (bs "(undefined behaviour)")
        end)
  end.

(** *** Batches *)

(** [data.symbol_keys.emplace(handle, key)] for the entries of a kind. *)
Definition add_key (kind : FactIdentityKind) (m : gmap Z bytes) (entry : Identity * Z) : gmap Z bytes :=
  if decide (entry.1.1 = kind)
  then match m !! entry.2 with Some _ => m | None => <[entry.2 := entry.1.2]> m end
  else m.

Definition key_map (kind : FactIdentityKind) (entries : gmap Identity Z) : gmap Z bytes :=
  foldl (add_key kind) ∅ (identity_entries entries).

(** [append_type_records]: the buckets in the order of their owners. *)
Definition bucket_parameters (buckets : gmap Z (FactPartitionKey * list ParameterRecord))
    : list (Routed ParameterFactRecord) :=
  mjoin ((λ entry, (λ p, (entry.2.1, ParameterFactRec entry.1 p)) <$> entry.2.2) <$> sorted_entries Z.ltb buckets).

(** What [build_batch] reads of the recorder. *)
Definition recorded (s : FactBatchRecorder Store) : result RecordedFacts :=
  let! entries := store_entries (identity_index_ (identities_ s)) in
  Ok (Recorded (producer_ s) (completeness_ s) (symbols_ s) (declaration_sites_ s) (relations_ s) (edge_sites_ s)
        (call_args_ s) (template_params_ s) (template_args_ s) (type_nodes_ s) (type_edges_ s)
        (bucket_parameters (parameter_buckets_ s)) (symbol_types_ s) (definitions_ s) (definition_edges_ s)
        (includes_ s) (macros_ s) (diagnostics_ s) (evidence_ s) (presentation_intents_ s)
        (lifecycle_cleanup_ s) (applicability_ s) (symbol_order_ s)
        (key_map kind_symbol entries) (key_map kind_relation entries) (key_map kind_type entries)
        (key_map kind_definition entries) (partitions_by_file_handle_ s) (pending_symbol_references_ s)).

Definition recorder_batch (canonical : bool) (s : FactBatchRecorder Store) : result FactBatch :=
  let! facts := recorded s in Ok (build_batch canonical facts).

Definition fact_payload_record_count (s : FactBatchRecorder Store) : result nat :=
  let! records := for_each_in_order (fact_payload_ s) in Ok (length records).
End operations.
