(* ===== verification/RecorderLaws.v ===== *)
(** * The recorder's invariant and the batches it builds

    [recorder_ok s m] is what every operation of [FactRecorder] keeps: [m] is the
    content of the identity store.  [reachable] closes the operations, and the
    properties are about every reachable recorder. *)

From S2P Require Export FactRecorder.
From coqutil Require Import Datatypes.RecordSetters.
Import DoubleBraceUpdate.
Open Scope Z_scope.

(** The identity that an emission stands for. *)
Definition symbol_identity (e : SymbolEmissionMetadata) : Identity :=
  (kind_symbol, bs "symbol:" ++ symbol_string (se_symbol e)).

(** The identity of a reference to another translation unit. *)
Definition external_identity (r : PendingSymbolReference) : Identity :=
  (kind_symbol, bs "external:" ++ pending_string r).

(** The emission of a record carries its key and its USR. *)
Definition describes (item : Routed SymbolRecord) (e : SymbolEmissionMetadata) : Prop :=
  se_record_key e = symbol_record_key item.2 ∧ sk_usr (se_symbol e) = sr_usr item.2.

Section invariant.
Context `{IdentityStoreLaws Store} (primary_hasher_ : bytes → Z) (attempts : nat).
Implicit Types (s : FactBatchRecorder Store) (m : gmap Identity Z).

(** Some record has the identity of this handle. *)
Definition has_record s (id : Z) : Prop := ∃ ps p, symbol_positions_by_id_ s !! id = Some ps ∧ p ∈ ps.

Record recorder_ok s m : Prop := {
  ok_identities : ids_ok (identities_ s) m;
  ok_handles : handles_ok m;
  ok_emissions : Forall2 describes (symbols_ s) (symbol_order_ s);
  ok_buckets p e : symbol_order_ s !! p = Some e →
    ∃ id ps, m !! symbol_identity e = Some id ∧ symbol_positions_by_id_ s !! id = Some ps ∧ p ∈ ps;
  ok_positions id ps p : symbol_positions_by_id_ s !! id = Some ps → p ∈ ps →
    ∃ e, symbol_order_ s !! p = Some e ∧ m !! symbol_identity e = Some id;
  ok_sources key id : symbol_ids_by_source_usr_ s !! key = Some id → has_record s id;
  ok_scopes key ids id : symbol_ids_by_scope_usr_ s !! key = Some ids → id ∈ ids → has_record s id;
  ok_declaration_sites : Forall (λ item, ds_partition item.2 = item.1) (declaration_sites_ s);
  ok_includes : Forall (λ item, id_partition item.2 = item.1) (includes_ s);
  ok_macros : Forall (λ item, mu_partition item.2 = item.1) (macros_ s);
  ok_diagnostics : Forall (λ item, dg_partition item.2 = item.1) (diagnostics_ s);
  ok_lifecycle_cleanup : Forall (λ item, lc_partition item.2 = item.1) (lifecycle_cleanup_ s);
  ok_applicability : Forall (λ item, ap_partition item.2 = item.1) (applicability_ s);
  ok_pending : NoDup (pending_string <$> pending_symbol_references_ s);
  ok_external r : r ∈ pending_symbol_references_ s →
    external_ids_by_key_ s !! pending_string r = Some (ps_handle r) ∧
    m !! external_identity r = Some (ps_handle r);
  ok_edges key p : edge_positions_by_key_ s !! key = Some p → (p < length (relations_ s))%nat;
  ok_body_edges source ps p :
    body_edge_positions_by_source_ s !! source = Some ps → p ∈ ps → (p < length (relations_ s))%nat
}.

(** Closes the fields that an update leaves alone. *)
Ltac keep_ok := let H := fresh in intros H; destruct H; split; try done.

(** More identities do no harm. *)
Lemma recorder_ok_grow s m m' ids :
  recorder_ok s m → m ⊆ m' → ids_ok ids m' → handles_ok m' → recorder_ok (s{{ identities_ := ids }}) m'.
Proof.
  intros [] Hsub Hids Hh. split; try done.
  - intros p e He. destruct (ok_buckets0 p e He) as (id & ps & Hm & Hp & Hin).
    exists id, ps. split; [|done]. by eapply lookup_weaken.
  - intros id ps p Hp Hin. destruct (ok_positions0 id ps p Hp Hin) as (e & He & Hm).
    exists e. split; [done|]. by eapply lookup_weaken.
  - intros r Hr. destruct (ok_external0 r Hr) as [He Hm]. split; [done|]. by eapply lookup_weaken.
Qed.

(** ** Triples

    [triple P c Q]: when [c] starts in a recorder that satisfies [P] and returns,
    its answer and recorder satisfy [Q]. *)
Definition triple {A} (P : FactBatchRecorder Store → Prop) (c : recorder Store A)
    (Q : A → FactBatchRecorder Store → Prop) : Prop :=
  ∀ s a s', P s → c s = Ok (a, s') → Q a s'.

Lemma triple_weaken {A} (P P' : FactBatchRecorder Store → Prop) (c : recorder Store A) Q Q' :
  triple P c Q → (∀ s, P' s → P s) → (∀ a s, Q a s → Q' a s) → triple P' c Q'.
Proof. unfold triple. eauto. Qed.

Lemma triple_ret {A} (a : A) (Q : A → FactBatchRecorder Store → Prop) : triple (Q a) (rret a) Q.
Proof. by intros s a' s' HQ [= <- <-]. Qed.

Lemma triple_then {A B} P (c : recorder Store A) R (k : A → recorder Store B) Q :
  triple P c R → (∀ a, triple (R a) (k a) Q) → triple P (rthen c k) Q.
Proof.
  intros Hc Hk s b s' HP Hs. unfold rthen in Hs. apply rbind_Ok in Hs as ([a s1] & H1 & H2).
  eapply Hk; [|done]. by eapply Hc.
Qed.

Lemma triple_get {A} P (f : FactBatchRecorder Store → A) : triple P (rget f) (λ a s, P s ∧ a = f s).
Proof. by intros s a s' HP [= <- <-]. Qed.

Lemma triple_set P (f : FactBatchRecorder Store → FactBatchRecorder Store) (Q : unit → FactBatchRecorder Store → Prop) :
  (∀ s, P s → Q tt (f s)) → triple P (rset f) Q.
Proof. intros Hf s a s' HP [= <- <-]. by apply Hf. Qed.

Lemma triple_and {A} (P : Prop) R (c : recorder Store A) Q :
  (P → triple R c Q) → triple (λ s, P ∧ R s) c Q.
Proof. intros Hc s a s' [HP HR]. by apply Hc. Qed.

Lemma triple_fail {A} P message (Q : A → FactBatchRecorder Store → Prop) : triple P (rfail message) Q.
Proof. by intros s a s' _ ?. Qed.

Lemma triple_for {A} P (l : list A) (body : A → recorder Store unit) :
  (∀ a, a ∈ l → triple P (body a) (λ _, P)) → triple P (rfor l body) (λ _, P).
Proof.
  induction l as [|a l IH]; intros Hb; [exact (triple_ret tt (λ _, P))|]. cbn [rfor].
  apply (triple_then _ _ (λ _, P)); [apply Hb; by left|]. intros ?. apply IH. intros b Hin. apply Hb. by right.
Qed.

(** *** Operations that keep the invariant and what they do not touch *)

Definition inv s : Prop := ∃ m, recorder_ok s m.
Definition preserves {A} (c : recorder Store A) : Prop := triple inv c (λ _, inv).

Lemma preserves_ret {A} (a : A) : preserves (rret a).
Proof. exact (triple_ret a (λ _, inv)). Qed.
Lemma preserves_then {A B} (c : recorder Store A) (k : A → recorder Store B) :
  preserves c → (∀ a, preserves (k a)) → preserves (rthen c k).
Proof. intros Hc Hk. by eapply triple_then. Qed.
Lemma preserves_get {A} (f : FactBatchRecorder Store → A) : preserves (rget f).
Proof. eapply triple_weaken; [apply triple_get|done|]. by intros a s [? _]. Qed.
Lemma preserves_set f : (∀ s m, recorder_ok s m → recorder_ok (f s) m) → preserves (rset f).
Proof. intros Hf. apply triple_set. intros s [m Hm]. exists m. by apply Hf. Qed.
Lemma preserves_fail {A} message : preserves (rfail message : recorder Store A).
Proof. apply triple_fail. Qed.
Lemma preserves_for {A} (l : list A) (body : A → recorder Store unit) :
  (∀ a, a ∈ l → preserves (body a)) → preserves (rfor l body).
Proof. apply triple_for. Qed.

Lemma preserves_counted operation n : preserves (counted operation n).
Proof. apply preserves_set. intros s m. keep_ok. Qed.
Lemma preserves_touched operation n : preserves (touched operation n).
Proof. apply preserves_set. intros s m. keep_ok. Qed.

(** *** Identities *)

Lemma find_identity_spec s m kind key found s' :
  recorder_ok s m → (kind < 256)%N → find_identity_of kind key s = Ok (found, s') →
  found = m !! (kind, key) ∧ (∃ ids, s' = s{{ identities_ := ids }}) ∧ recorder_ok s' m.
Proof.
  intros Hs Hk. unfold find_identity_of, with_identities.
  destruct (lookup_identity_spec (identities_ s) m (kind, key) (ok_identities _ _ Hs) Hk) as (ids & -> & Hids).
  cbn [rbind]. intros [= <- <-]. split; [done|]. split; [by exists ids|].
  by apply (recorder_ok_grow s m m); [..|apply Hs].
Qed.

Lemma handle_spec s m kind key handle s' :
  recorder_ok s m → (kind < kind_handle)%N → handle_of primary_hasher_ attempts kind key s = Ok (handle, s') →
  ∃ ids m', s' = s{{ identities_ := ids }} ∧ ids_ok ids m' ∧ adds_identity primary_hasher_ m m' (kind, key) handle ∧
            recorder_ok s' m'.
Proof.
  intros Hs Hk Hh. unfold kind_handle in Hk. unfold handle_of, with_identities in Hh.
  apply rbind_Ok in Hh as ([h ids] & Hh & [= <- <-]).
  assert (kind ≠ kind_handle) as Hne by (unfold kind_handle; lia).
  apply (identity_handle_spec _ _ _ m) in Hh as (m' & Hids & Ha); [|apply Hs|cbn; lia|done].
  exists ids, m'. split; [done|]. split; [done|]. split; [done|]. apply (recorder_ok_grow s m); [done|..|done|].
  - by eapply adds_identity_subseteq.
  - eapply adds_identity_handles; [|by apply Hs|done]. done.
Qed.

Lemma bind_spec s m key handle u s' :
  recorder_ok s m → i64_value handle → bind_to kind_file key handle s = Ok (u, s') →
  ∃ ids m', s' = s{{ identities_ := ids }} ∧ recorder_ok s' m'.
Proof.
  intros Hs Hh Hb. unfold bind_to, with_identities in Hb. apply rbind_Ok in Hb as ([[] ids] & Hb & [= <- <-]).
  apply rbind_Ok in Hb as (ids' & Hb & [= <-]).
  apply (bind_identity_spec _ m) in Hb as [Hids Hm]; [|apply Hs|done|done].
  exists ids', (<[(kind_file, key) := handle]> m). split; [done|]. apply (recorder_ok_grow s m); [done| |done|].
  - destruct (m !! (kind_file, key)) as [h|] eqn:E; [|by apply insert_subseteq].
    rewrite <-(Hm h eq_refl), insert_id; done.
  - apply handles_ok_other; [by apply Hs|done|done].
Qed.

Lemma preserves_find kind key : (kind < 256)%N → preserves (find_identity_of kind key).
Proof. intros Hk s found s' [m Hm] Hf. exists m. by apply (find_identity_spec s m kind key found s'). Qed.

Lemma preserves_handle kind key :
  (kind < kind_handle)%N → preserves (handle_of primary_hasher_ attempts kind key).
Proof.
  intros Hk s h s' [m Hm] Hf. destruct (handle_spec s m kind key h s' Hm Hk Hf) as (ids & m' & _ & _ & _ & Hs').
  by exists m'.
Qed.

Lemma preserves_bind key handle : i64_value handle → preserves (bind_to kind_file key handle).
Proof.
  intros Hh s u s' [m Hm] Hf. destruct (bind_spec s m key handle u s' Hm Hh Hf) as (ids & m' & _ & Hs').
  by exists m'.
Qed.

Hint Resolve preserves_ret preserves_get preserves_fail preserves_counted preserves_touched : preserves.

(** Splits a computation into its steps and looks each of them up. *)
Ltac preserve :=
  repeat first
    [ assumption
    | solve [eauto with preserves]
    | apply preserves_then; [|intros ?]
    | apply preserves_find; done
    | apply preserves_handle; done
    | apply preserves_set; intros ? ?; keep_ok
    | apply preserves_for; intros ? ?
    | match goal with |- preserves (match ?x with _ => _ end) => destruct x end
    | match goal with |- preserves (if ?x then _ else _) => destruct x end ].

Lemma preserves_bind_if_absent key handle : i64_value handle → preserves (bind_if_absent kind_file key handle).
Proof. intros Hh. unfold bind_if_absent. preserve. by apply preserves_bind. Qed.

(** *** Settings and partitions *)

(** A handle of [identity_handle] fits 64 bits. *)
Lemma handle_file key :
  triple inv (handle_of primary_hasher_ attempts kind_file key) (λ h s, i64_value h ∧ inv s).
Proof.
  intros s h s' [m Hm] Hf.
  destruct (handle_spec s m kind_file key h s' Hm ltac:(done) Hf) as (ids & m' & _ & _ & Ha & Hs').
  split; [|by exists m']. apply (handle_width m' (ok_handles _ _ Hs') (kind_file, key)).
  by apply (adds_identity_lookup primary_hasher_ m m').
Qed.

Lemma preserves_set_partition partition transient :
  i64_option transient → preserves (set_partition primary_hasher_ attempts partition transient).
Proof.
  intros Ht. unfold set_partition. apply preserves_then; [preserve|]. intros _. cbv zeta.
  eapply triple_then; [apply handle_file|]. intros natural. apply triple_and. intros Hn.
  apply preserves_then; [preserve|]. intros _.
  assert (∀ handle, i64_value handle → preserves
    (if decide (portable_path (pk_file partition) = []) then rret tt
     else bind_to kind_file (file_path_identity_key (portable_path (pk_file partition)) (pk_configuration partition)) handle ;;*
          bind_if_absent kind_file (file_source_identity_key (portable_path (pk_file partition)) (pk_configuration partition)) handle ;;*
          bind_if_absent kind_file (file_unscoped_identity_key (portable_path (pk_file partition))) handle)) as Hname.
  { intros h Hh. destruct (decide _); [preserve|]. apply preserves_then; [by apply preserves_bind|]. intros _.
    apply preserves_then; [by apply preserves_bind_if_absent|]. intros _. by apply preserves_bind_if_absent. }
  destruct transient as [handle|]; [|by apply Hname]. apply preserves_then; [preserve|]. intros _. by apply Hname.
Qed.

(** Only the identities' caches change. *)
Definition same_but_identities s s' : Prop := ∃ ids, s' = s{{ identities_ := ids }}.

Lemma same_but_identities_refl s : same_but_identities s s.
Proof. exists (identities_ s). by destruct s. Qed.

Lemma same_but_identities_trans s1 s2 s3 :
  same_but_identities s1 s2 → same_but_identities s2 s3 → same_but_identities s1 s3.
Proof. intros [a ->] [b ->]. by exists b. Qed.

Lemma known_file_spec s m path configuration found s' :
  recorder_ok s m → known_file path configuration s = Ok (found, s') →
  same_but_identities s s' ∧ recorder_ok s' m.
Proof.
  intros Hs Hf. unfold known_file, rthen in Hf. apply rbind_Ok in Hf as ([h1 s1] & H1 & Hf).
  apply (find_identity_spec s m) in H1 as (_ & Hs1 & Hok1); [|done..].
  destruct h1; [by injection Hf as <- <-|].
  apply rbind_Ok in Hf as ([h2 s2] & H2 & Hf).
  apply (find_identity_spec s1 m) in H2 as (_ & Hs2 & Hok2); [|done..].
  pose proof (same_but_identities_trans s s1 s2 Hs1 Hs2) as Hs12.
  destruct h2; [by injection Hf as <- <-|].
  apply (find_identity_spec s2 m) in Hf as (_ & Hs3 & Hok3); [|done..].
  split; [by eapply same_but_identities_trans|done].
Qed.

Lemma partition_for_symbol_spec s m symbol partition s' :
  recorder_ok s m → partition_for_symbol symbol s = Ok (partition, s') →
  same_but_identities s s' ∧ recorder_ok s' m.
Proof.
  intros Hs Hp. unfold partition_for_symbol in Hp. unfold rthen at 1 in Hp. cbn [rget rbind] in Hp.
  destruct (_ || _).
  { injection Hp as <- <-. split; [apply same_but_identities_refl|done]. }
  unfold rthen in Hp. apply rbind_Ok in Hp as ([h s1] & H1 & Hp).
  apply (known_file_spec s m) in H1; [|done]. destruct h; by injection Hp as <- <-.
Qed.

(** *** Symbols *)

(** The members that the invariant reads. *)
Definition core s :=
  (identities_ s, symbols_ s, symbol_order_ s, symbol_positions_by_id_ s, declaration_sites_ s, includes_ s,
   macros_ s, diagnostics_ s, lifecycle_cleanup_ s, applicability_ s, pending_symbol_references_ s,
   external_ids_by_key_ s, edge_positions_by_key_ s, body_edge_positions_by_source_ s, relations_ s,
   symbol_ids_by_source_usr_ s, symbol_ids_by_scope_usr_ s).

Lemma core_ok s s' m : core s' = core s → recorder_ok s m → recorder_ok s' m.
Proof.
  unfold core. intros E. injection E as E1 E2 E3 E4 E5 E6 E7 E8 E9 E10 E11 E12 E13 E14 E15 E16 E17.
  intros []. split; unfold has_record in *;
    rewrite ?E1, ?E2, ?E3, ?E4, ?E5, ?E6, ?E7, ?E8, ?E9, ?E10, ?E11, ?E12, ?E13, ?E14, ?E15, ?E16, ?E17; done.
Qed.

(** Members of the tuple are read through functions of it, so that equations of
    tuples give equations of members by congruence. *)
Lemma core_order s s' f :
  core s = core s' → core (s{{ symbol_order_ ::= f }}) = core (s'{{ symbol_order_ ::= f }}).
Proof.
  intros E. exact (f_equal (λ '(ids, sy, so, po, ds, inc, mu, dg, lc, ap, pe, ex, ed, bo, re, su, sc),
    (ids, sy, f so, po, ds, inc, mu, dg, lc, ap, pe, ex, ed, bo, re, su, sc)) E).
Qed.

Lemma core_members s s' :
  core s = core s' →
  symbols_ s = symbols_ s' ∧ symbol_order_ s = symbol_order_ s' ∧
  symbol_positions_by_id_ s = symbol_positions_by_id_ s'.
Proof.
  intros E. exact (conj (f_equal (λ '(_, x, _, _, _, _, _, _, _, _, _, _, _, _, _, _, _), x) E)
    (conj (f_equal (λ '(_, _, x, _, _, _, _, _, _, _, _, _, _, _, _, _, _), x) E)
       (f_equal (λ '(_, _, _, x, _, _, _, _, _, _, _, _, _, _, _, _, _), x) E))).
Qed.

(** A computation that leaves these members alone. *)
Definition harmless {A} (c : recorder Store A) : Prop := ∀ s a s', c s = Ok (a, s') → core s' = core s.

Lemma harmless_set f : (∀ s, core (f s) = core s) → harmless (rset f).
Proof. intros Hf s a s' [= _ <-]. apply Hf. Qed.
Lemma harmless_ret {A} (a : A) : harmless (rret a).
Proof. by intros s a' s' [= _ <-]. Qed.
Lemma harmless_then {A B} (c : recorder Store A) (k : A → recorder Store B) :
  harmless c → (∀ a, harmless (k a)) → harmless (rthen c k).
Proof.
  intros Hc Hk s b s' Hs. unfold rthen in Hs. apply rbind_Ok in Hs as ([a s1] & H1 & H2).
  rewrite (Hk _ _ _ _ H2). by eapply Hc.
Qed.

Lemma harmless_counted operation n : harmless (counted operation n).
Proof. by apply harmless_set. Qed.

Lemma harmless_index_candidate symbol id : harmless (index_candidate symbol id).
Proof.
  unfold index_candidate. cbv zeta.
  repeat first [apply harmless_then; [|intros ?] | apply harmless_counted | apply harmless_ret
               | apply harmless_set; intros s; by destruct (append_indexed_unique _ _ _ _ _)
               | match goal with |- harmless (match ?x with _ => _ end) => destruct x end].
Qed.

Lemma harmless_append_payload symbol : harmless (append_payload symbol).
Proof. intros s u s' Hs. apply rbind_Ok in Hs as ([i payload] & _ & [= _ <-]). done. Qed.

(** A record, its position and its emission are added together. *)
Lemma push_symbol_ok s m item e id f g :
  recorder_ok s m → describes item e → m !! symbol_identity e = Some id →
  (∀ t key i, f t !! key = Some i → t !! key = Some i ∨ i = id) →
  (∀ t key ids i, g t !! key = Some ids → i ∈ ids → i = id ∨ ∃ ids0, t !! key = Some ids0 ∧ i ∈ ids0) →
  let bucket := default [] (symbol_positions_by_id_ s !! id) ++ [length (symbols_ s)] in
  recorder_ok (s{{ symbols_ ::= λ l, l ++ [item]; symbol_positions_by_id_ ::= <[id := bucket]>;
                   symbol_order_ ::= λ l, l ++ [e];
                   symbol_ids_by_source_usr_ ::= f; symbol_ids_by_scope_usr_ ::= g }}) m.
Proof.
  intros [] Hd Hm Hf Hg bucket. pose proof (Forall2_length _ _ _ ok_emissions0) as Hlen.
  set (s' := s{{ symbols_ ::= _; symbol_positions_by_id_ ::= _; symbol_order_ ::= _;
                 symbol_ids_by_source_usr_ ::= _; symbol_ids_by_scope_usr_ ::= _ }}).
  assert (has_record s' id ∧ ∀ i, has_record s i → has_record s' i) as [Hnew Hold].
  { split.
    - exists bucket, (length (symbols_ s)). split; [apply lookup_insert_eq|]. apply elem_of_app. right. by left.
    - intros i (ps & p & Hps & Hin). destruct (decide (i = id)) as [->|Hne].
      + exists bucket, p. split; [apply lookup_insert_eq|]. unfold bucket. rewrite Hps. apply elem_of_app. by left.
      + exists ps, p. split; [|done]. change (<[id := bucket]> (symbol_positions_by_id_ s) !! i = Some ps).
        by rewrite lookup_insert_ne. }
  split; try done.
  - apply Forall2_app; [done|by constructor].
  - intros p e0. change ((symbol_order_ s ++ [e]) !! p = Some e0 → ∃ id0 ps, m !! symbol_identity e0 = Some id0 ∧
      <[id := bucket]> (symbol_positions_by_id_ s) !! id0 = Some ps ∧ p ∈ ps).
    intros [He|[Hp He]]%lookup_app_Some.
    + destruct (ok_buckets0 p e0 He) as (id0 & ps & Hm0 & Hps & Hin). exists id0.
      destruct (decide (id0 = id)) as [->|Hne].
      * exists bucket. rewrite lookup_insert_eq. split_and!; [done..|]. unfold bucket. rewrite Hps.
        apply elem_of_app. by left.
      * exists ps. by rewrite lookup_insert_ne.
    + apply list_lookup_singleton_Some in He as [Hp0 <-]. exists id, bucket. rewrite lookup_insert_eq.
      split_and!; [done..|]. apply elem_of_app. right. apply list_elem_of_singleton. lia.
  - intros id0 ps p. change (<[id := bucket]> (symbol_positions_by_id_ s) !! id0 = Some ps → p ∈ ps →
      ∃ e0, (symbol_order_ s ++ [e]) !! p = Some e0 ∧ m !! symbol_identity e0 = Some id0).
    intros [[<- <-]|[Hne Hps]]%lookup_insert_Some Hin.
    + apply elem_of_app in Hin as [Hin| ->%list_elem_of_singleton].
      * destruct (symbol_positions_by_id_ s !! id) as [old|] eqn:E; [|by apply elem_of_nil in Hin].
        destruct (ok_positions0 id old p E Hin) as (e0 & He & Hm0). exists e0. split; [|done].
        by apply lookup_app_l_Some.
      * exists e. split; [|done]. rewrite Hlen. by apply list_lookup_middle.
    + destruct (ok_positions0 id0 ps p Hps Hin) as (e0 & He & Hm0). exists e0. split; [|done].
      by apply lookup_app_l_Some.
  - intros key i. change (f (symbol_ids_by_source_usr_ s) !! key = Some i → has_record s' i).
    intros [Hi| ->]%Hf; [|done]. apply Hold. by eapply ok_sources0.
  - intros key ids i. change (g (symbol_ids_by_scope_usr_ s) !! key = Some ids → i ∈ ids → has_record s' i).
    intros Hids Hi. destruct (Hg _ _ _ _ Hids Hi) as [->|(ids0 & Hids0 & Hi0)]; [done|].
    apply Hold. by eapply ok_scopes0.
Qed.

(** The lookup tables with a new symbol. *)
Definition add_source (key : bytes) (id : Z) (t : gmap bytes Z) : gmap bytes Z :=
  match t !! key with Some _ => t | None => <[key := id]> t end.
Definition add_scope (key : bytes) (id : Z) (t : gmap bytes (gset Z)) : gmap bytes (gset Z) :=
  <[key := {[id]} ∪ default ∅ (t !! key)]> t.

Lemma add_source_elem key id t k i : add_source key id t !! k = Some i → t !! k = Some i ∨ i = id.
Proof. unfold add_source. destruct (t !! key); [by left|]. intros [[_ <-]|[_ ?]]%lookup_insert_Some; auto. Qed.

Lemma add_scope_elem key id t k ids i :
  add_scope key id t !! k = Some ids → i ∈ ids → i = id ∨ ∃ ids0, t !! k = Some ids0 ∧ i ∈ ids0.
Proof.
  unfold add_scope. intros [[<- <-]|[_ ?]]%lookup_insert_Some Hi; [|eauto].
  apply elem_of_union in Hi as [->%elem_of_singleton|Hi]; [by left|].
  destruct (t !! key) as [ids0|]; [eauto|by apply elem_of_empty in Hi].
Qed.

(** [emit] adds the record to the bucket of its identity. *)
Lemma emit_symbol_spec s m symbol u s' :
  recorder_ok s m → emit_symbol primary_hasher_ attempts symbol s = Ok (u, s') →
  ∃ m' partition e,
    recorder_ok s' m' ∧ m ⊆ m' ∧ symbols_ s' = symbols_ s ++ [(partition, symbol)] ∧
    symbol_order_ s' = symbol_order_ s ++ [e] ∧ se_symbol e = natural_key symbol partition ∧
    (∀ id, has_record s id → has_record s' id).
Proof.
  intros Hs He. unfold emit_symbol in He.
  unfold rthen at 1 in He. apply rbind_Ok in He as ([partition s1] & H1 & He).
  apply (partition_for_symbol_spec s m) in H1 as ([ids ->] & Hs1); [|done]. cbv zeta in He.
  unfold rthen at 1 in He. apply rbind_Ok in He as ([id s2] & H2 & He).
  destruct (handle_spec _ m kind_symbol _ id s2 Hs1 ltac:(done) H2) as (ids2 & m' & -> & Hids & Hadd & Hs2).
  unfold rthen at 1 in He. apply rbind_Ok in He as ([u3 s3] & H3 & He).
  apply harmless_append_payload in H3. assert (recorder_ok s3 m') as Hs3 by (by eapply core_ok).
  unfold rthen at 1 in He. cbn [rget rbind] in He. unfold rthen at 1 in He. cbn [rget rbind] in He.
  unfold rthen at 1 in He. cbn [rset rbind] in He.
  unfold rthen at 1 in He. apply rbind_Ok in He as ([u5 s5] & H5 & He). apply harmless_index_candidate in H5.
  unfold rthen at 1 in He. cbn [rget rbind] in He. unfold rthen at 1 in He. cbn [rset rbind] in He.
  apply harmless_counted in He. set (e := EmissionMetadata _ _ _ _ _) in He.
  exists m', partition, e.
  pose proof (push_symbol_ok s3 m' (partition, symbol) e id
    (add_source (source_lookup_key partition (default (sr_file symbol) (sr_identity_source symbol)) (sr_usr symbol)) id)
    (add_scope (scope_lookup_key partition (sr_usr symbol)) id) Hs3) as Hpush.
  cbv zeta in Hpush. match type of Hpush with _ → _ → _ → _ → recorder_ok ?x _ => set (s4 := x) in Hpush end.
  assert (core s' = core s4) as Hcore.
  { rewrite He. transitivity (core (s5{{ symbol_order_ ::= λ l, l ++ [e] }})); [reflexivity|].
    rewrite (core_order _ _ _ H5). reflexivity. }
  assert (recorder_ok s' m') as Hs'.
  { eapply core_ok; [exact Hcore|]. apply Hpush; [done| |intros *; apply add_source_elem|intros *; apply add_scope_elem].
    eapply adds_identity_lookup; [|exact Hadd]. done. }
  split; [done|]. split; [by eapply adds_identity_subseteq|].
  destruct (core_members _ _ H3) as (Es & Eo & Ep). destruct (core_members _ _ Hcore) as (Es' & Eo' & Ep').
  rewrite Es', Eo'. change (symbols_ s4) with (symbols_ s3 ++ [(partition, symbol)]).
  change (symbol_order_ s4) with (symbol_order_ s3 ++ [e]). rewrite Es, Eo. split_and!; [done..|].
  intros i (ps & p & Hps & Hin). unfold has_record. rewrite Ep'.
  change (symbol_positions_by_id_ s4)
    with (<[id := default [] (symbol_positions_by_id_ s3 !! id) ++ [length (symbols_ s3)]]> (symbol_positions_by_id_ s3)).
  rewrite Ep. change (symbol_positions_by_id_ s !! i = Some ps) in Hps. destruct (decide (i = id)) as [->|Hne].
  - rewrite lookup_insert_eq. eexists _, p. split; [done|]. apply elem_of_app. left.
    change (p ∈ default [] (symbol_positions_by_id_ s !! id)). by rewrite Hps.
  - rewrite lookup_insert_ne by done. by exists ps, p.
Qed.

Lemma preserves_emit_symbol symbol : preserves (emit_symbol primary_hasher_ attempts symbol).
Proof.
  intros s u s' [m Hm] He. destruct (emit_symbol_spec s m symbol u s' Hm He) as (m' & _ & _ & Hs' & _).
  by exists m'.
Qed.

(** A record is replaced by one of the same USR, with its key. *)
Lemma write_symbol_ok s m position item record :
  recorder_ok s m → symbols_ s !! position = Some item → sr_usr record = sr_usr item.2 →
  recorder_ok (s{{ symbols_ ::= alter (λ item, (item.1, record)) position;
                   symbol_order_ ::= alter (λ e, e{{ se_record_key := symbol_record_key record }}) position }}) m.
Proof.
  intros [] Hi Hu.
  assert (∀ p e, alter (λ e, e{{ se_record_key := symbol_record_key record }}) position (symbol_order_ s) !! p = Some e →
    ∃ e0, symbol_order_ s !! p = Some e0 ∧ symbol_identity e = symbol_identity e0) as Hback.
  { intros p e He. destruct (decide (p = position)) as [->|Hne].
    - rewrite list_lookup_alter_eq in He. apply fmap_Some in He as (e0 & He & ->). by exists e0.
    - rewrite list_lookup_alter_ne in He by done. by exists e. }
  split; try done.
  - apply Forall2_alter; [done|]. intros x e Hx He [_ Hsk].
    change (symbols_ s !! position = Some x) in Hx. rewrite Hi in Hx. injection Hx as <-.
    split; [done|]. cbn. by rewrite Hu.
  - intros p e (e0 & He & ->)%Hback. by apply ok_buckets0.
  - intros id ps p Hps Hin. destruct (ok_positions0 id ps p Hps Hin) as (e & He & Hm).
    change (∃ e0, alter (λ e, e{{ se_record_key := symbol_record_key record }}) position (symbol_order_ s) !! p = Some e0
            ∧ m !! symbol_identity e0 = Some id).
    destruct (decide (p = position)) as [->|Hne].
    + rewrite list_lookup_alter_eq, He. by eexists.
    + rewrite list_lookup_alter_ne by done. by exists e.
Qed.

Lemma symbol_at_spec s position record s' :
  symbol_at position s = Ok (record, s') → s' = s ∧ ∃ item, symbols_ s !! position = Some item ∧ item.2 = record.
Proof. unfold symbol_at. destruct (symbols_ s !! position) as [item|] eqn:E; [|done]. intros [= <- <-]. eauto. Qed.

Lemma preserves_symbol_at position : preserves (symbol_at position).
Proof. intros s a s' Hinv Ha. by apply symbol_at_spec in Ha as [-> _]. Qed.

Lemma symbols_at_spec s positions records s' :
  symbols_at positions s = Ok (records, s') →
  s' = s ∧ Forall (λ r, ∃ item, symbols_ s !! r.1 = Some item ∧ item.2 = r.2) records.
Proof.
  revert records s'. induction positions as [|p positions IH]; intros records s' Hs; [by injection Hs as <- <-|].
  cbn [symbols_at] in Hs. unfold rthen at 1 in Hs. apply rbind_Ok in Hs as ([r s1] & H1 & Hs).
  apply symbol_at_spec in H1 as [-> Hr]. unfold rthen in Hs. apply rbind_Ok in Hs as ([rs s2] & H2 & Hs).
  apply IH in H2 as [-> Hrs]. injection Hs as <- <-. split; [done|]. by constructor.
Qed.

Lemma preserves_write f position :
  (∀ record, sr_usr (f record) = sr_usr record) →
  preserves (let* record := symbol_at position in write_symbol position (f record)).
Proof.
  intros Hf s u s' [m Hm] Hs. unfold rthen in Hs. apply rbind_Ok in Hs as ([r s1] & H1 & Hs).
  apply symbol_at_spec in H1 as (-> & item & Hi & <-). injection Hs as _ <-. exists m.
  eapply write_symbol_ok; [done|exact Hi|apply Hf].
Qed.

Lemma preserves_add_mint_declaration positions request :
  preserves (add_mint_declaration primary_hasher_ attempts positions request).
Proof.
  unfold add_mint_declaration. destruct (mr_decl_line request) as [line|]; [|preserve].
  destruct positions as [|first positions]; [preserve|].
  intros s u s' Hinv Hs. unfold rthen at 1 in Hs. apply rbind_Ok in Hs as ([records s1] & H1 & Hs).
  apply symbols_at_spec in H1 as [-> Hr]. destruct (existsb _ records); [by injection Hs as _ <-|].
  unfold rthen at 1 in Hs. cbn [rget rbind] in Hs.
  destruct (List.find _ records) as [[p r]|] eqn:Ef.
  - apply List.find_some in Ef as [Hin _]. rewrite Forall_forall in Hr.
    apply list_elem_of_In in Hin. apply Hr in Hin as (item & Hi & Er). cbn [fst snd] in *. subst r.
    injection Hs as _ <-. destruct Hinv as [m Hm]. exists m.
    eapply write_symbol_ok; [done|exact Hi|done].
  - eapply (preserves_then (symbol_at first)); [|intros declaration; apply preserves_emit_symbol|exact Hinv|exact Hs].
    apply preserves_symbol_at.
Qed.

Lemma preserves_enrich id request : preserves (enrich_minted_symbol primary_hasher_ attempts id request).
Proof.
  unfold enrich_minted_symbol. apply preserves_then; [preserve|]. intros [positions|]; [|preserve].
  apply preserves_then; [|intros _; apply preserves_add_mint_declaration].
  apply preserves_for. intros p _. by apply (preserves_write (λ record, merge_mint_enrichment record request)).
Qed.

Lemma preserves_source_independent usr : preserves (source_independent_symbol_id usr).
Proof.
  unfold source_independent_symbol_id. apply preserves_then; [preserve|]. intros scoped.
  destruct (scoped ≫= only_element) as [candidate|]; [|preserve]. apply preserves_then; [preserve|].
  intros [[|first positions]|]; [preserve| |preserve].
  apply preserves_then; [apply preserves_symbol_at|intros record; preserve].
Qed.

Lemma preserves_local_lookup usr source : preserves (local_lookup usr source).
Proof.
  unfold local_lookup. destruct source as [text|]; (apply preserves_then; [preserve|]); intros found.
  - destruct found; [preserve|]. apply preserves_source_independent.
  - destruct (elements (default ∅ found)) as [|id [|id' ids]]; preserve.
Qed.

(** A new reference has a key that no other has. *)
Lemma push_pending_ok s m r handle :
  recorder_ok s m → external_ids_by_key_ s !! pending_string r = None →
  m !! external_identity r = Some handle →
  recorder_ok (s{{ external_ids_by_key_ ::= <[pending_string r := handle]>;
                   pending_symbol_references_ ::= λ l, l ++ [r{{ ps_handle := handle }}] }}) m.
Proof.
  intros [] Hnone Hm. split; try done.
  - change (NoDup (pending_string <$> pending_symbol_references_ s ++ [r{{ ps_handle := handle }}])).
    rewrite fmap_app. apply NoDup_app. split; [done|]. split; [|apply NoDup_singleton].
    intros k (r0 & -> & Hr0)%list_elem_of_fmap Hk%list_elem_of_singleton.
    apply ok_external0 in Hr0 as [Hr0 _]. change (pending_string r0 = pending_string r) in Hk. congruence.
  - intros r0. change (r0 ∈ pending_symbol_references_ s ++ [r{{ ps_handle := handle }}] →
      <[pending_string r := handle]> (external_ids_by_key_ s) !! pending_string r0 = Some (ps_handle r0)
      ∧ m !! external_identity r0 = Some (ps_handle r0)).
    intros [Hr0| ->%list_elem_of_singleton]%elem_of_app.
    + destruct (ok_external0 r0 Hr0) as [He Hm0]. split; [|done].
      rewrite lookup_insert_ne; [done|]. congruence.
    + split; [|done]. apply lookup_insert_eq.
Qed.

Lemma preserves_defer usr source : preserves (defer_external_symbol primary_hasher_ attempts usr source).
Proof.
  unfold defer_external_symbol. apply preserves_then; [preserve|]. intros deferral.
  destruct (_ || _); [preserve|]. intros s found s' [m Hm] Hs.
  unfold rthen at 1 in Hs. cbn [rget rbind] in Hs. cbv zeta in Hs. set (r := PendingReference _ _ _ _ _) in Hs.
  unfold rthen at 1 in Hs. cbn [rget rbind] in Hs.
  destruct (external_ids_by_key_ s !! pending_string r) as [known|] eqn:E.
  { refine (preserves_then _ _ _ _ _ _ _ (ex_intro _ m Hm) Hs); [preserve|intros ?; preserve]. }
  unfold rthen at 1 in Hs. apply rbind_Ok in Hs as ([h s1] & H1 & Hs).
  destruct (handle_spec s m kind_symbol _ h s1 Hm ltac:(done) H1) as (ids & m' & -> & _ & Ha & Hs1).
  unfold rthen at 1 in Hs. cbn [rset rbind] in Hs.
  refine (preserves_then _ _ _ _ _ _ _ (ex_intro _ m' _) Hs); [preserve|intros ?; preserve|].
  apply push_pending_ok; [done|exact E|]. by apply (adds_identity_lookup primary_hasher_ m m').
Qed.

Lemma preserves_resolve usr source allow : preserves (resolve_symbol_id primary_hasher_ attempts usr source allow).
Proof.
  unfold resolve_symbol_id. cbv zeta. apply preserves_then; [preserve|]. intros _.
  apply preserves_then; [apply preserves_local_lookup|]. intros [id|]; [preserve|].
  destruct allow; [apply preserves_defer|preserve].
Qed.

Lemma preserves_mint request : preserves (mint_symbol primary_hasher_ attempts request).
Proof.
  unfold mint_symbol. apply preserves_then; [apply preserves_resolve|]. intros [id|].
  - apply preserves_then; [apply preserves_enrich|]. intros _. preserve.
  - unfold create_minted_symbol. apply preserves_then; [preserve|]. intros file.
    apply preserves_then; [apply preserves_emit_symbol|]. intros _.
    apply preserves_then; [apply preserves_resolve|]. intros [id|]; preserve.
Qed.

(** *** The other operations *)

(** A relation is added with its position. *)
Lemma push_edge_ok s m natural edge partition :
  recorder_ok s m →
  recorder_ok (s{{ edge_positions_by_key_ ::= <[natural := length (relations_ s)]>;
                   relations_ ::= λ l, l ++ [(partition, edge)];
                   body_edge_positions_by_source_ ::= λ b,
                     if (er_kind edge =? 1) || (er_kind edge =? 7)
                     then <[er_src_id edge := default [] (b !! er_src_id edge) ++ [length (relations_ s)]]> b
                     else b }}) m.
Proof.
  intros []. split; try done.
  - intros key p. change (<[natural := length (relations_ s)]> (edge_positions_by_key_ s) !! key = Some p →
      (p < length (relations_ s ++ [(partition, edge)]))%nat). rewrite length_app. cbn [length].
    intros [[_ <-]|[_ Hp]]%lookup_insert_Some; [lia|]. apply ok_edges0 in Hp. lia.
  - intros source ps p. change ((if (er_kind edge =? 1) || (er_kind edge =? 7)
      then <[er_src_id edge := default [] (body_edge_positions_by_source_ s !! er_src_id edge) ++ [length (relations_ s)]]>
             (body_edge_positions_by_source_ s)
      else body_edge_positions_by_source_ s) !! source = Some ps → p ∈ ps →
      (p < length (relations_ s ++ [(partition, edge)]))%nat).
    rewrite length_app. cbn [length]. intros Hps Hin.
    assert (∀ ps0, body_edge_positions_by_source_ s !! source = Some ps0 → p ∈ ps0 → (p < length (relations_ s))%nat) as Hold
      by (intros ps0 H0ps; by eapply ok_body_edges0).
    destruct (_ || _); [|specialize (Hold ps Hps Hin); lia].
    apply lookup_insert_Some in Hps as [[<- <-]|[_ Hps]]; [|specialize (Hold ps Hps Hin); lia].
    apply elem_of_app in Hin as [Hin| ->%list_elem_of_singleton]; [|lia].
    destruct (body_edge_positions_by_source_ s !! er_src_id edge) as [old|]; [|by apply elem_of_nil in Hin].
    specialize (Hold old eq_refl Hin). lia.
Qed.

Lemma alter_edge_ok s m f position : recorder_ok s m → recorder_ok (s{{ relations_ ::= alter f position }}) m.
Proof.
  intros []. assert (length (alter f position (relations_ s)) = length (relations_ s)) as Hl by apply length_alter.
  split; try done; [intros key p Hp|intros source ps p Hps Hin];
    change (p < length (alter f position (relations_ s)))%nat; rewrite Hl;
    [by eapply ok_edges0|by eapply ok_body_edges0].
Qed.

Lemma preserves_add_edge edge : preserves (add_edge primary_hasher_ attempts edge).
Proof.
  unfold add_edge. apply preserves_then; [preserve|]. intros partition. cbv zeta.
  apply preserves_then; [preserve|]. intros [position|].
  - apply preserves_then; [|intros _; preserve]. apply preserves_set. intros s m. apply alter_edge_ok.
  - apply preserves_then; [preserve|]. intros id s a s' [m Hm] Hs.
    unfold rthen at 1 in Hs. cbn [rget rbind] in Hs. unfold rthen at 1 in Hs. cbn [rset rbind] in Hs.
    refine (preserves_then _ _ _ _ _ _ _ (ex_intro _ m _) Hs); [preserve|intros ?; preserve|].
    by apply push_edge_ok.
Qed.

Lemma preserves_ensure_edge edge : preserves (ensure_edge primary_hasher_ attempts edge).
Proof.
  unfold ensure_edge. apply preserves_then; [preserve|]. intros partition. cbv zeta.
  apply preserves_then; [preserve|]. intros [position|]; [preserve|apply preserves_add_edge].
Qed.

Lemma preserves_update_display_name id display : preserves (update_display_name id display).
Proof.
  unfold update_display_name. apply preserves_then; [preserve|]. intros _.
  apply preserves_then; [preserve|]. intros [positions|]; [|preserve].
  apply preserves_then; [preserve|]. intros _. apply preserves_for. intros p _ s u s' [m Hm] Hs.
  unfold rthen at 1 in Hs. cbn [rget rbind] in Hs. destruct (symbols_ s !! p) as [[partition record]|] eqn:E; [|done].
  injection Hs as _ <-. exists m. by eapply write_symbol_ok.
Qed.

Lemma preserves_copy_body_edges definition_id symbol_id :
  preserves (copy_body_edges_to_def_edge definition_id symbol_id).
Proof.
  unfold copy_body_edges_to_def_edge. apply preserves_then; [preserve|]. intros [positions|]; [|preserve].
  apply preserves_then; [preserve|]. intros _. apply preserves_for. intros p _.
  apply preserves_then; [preserve|]. intros [[partition edge]|]; [|preserve]. unfold add_def_edge. preserve.
Qed.

(** A record that names its partition is routed to it. *)
Ltac routed :=
  apply preserves_then;
  [apply preserves_set; intros ? ?; keep_ok; apply Forall_app_2; [done|by constructor]|intros ?; preserve].

Lemma preserves_emit_declaration_site r : preserves (emit_declaration_site r).
Proof. routed. Qed.
Lemma preserves_emit_include r : preserves (emit_include r).
Proof. routed. Qed.
Lemma preserves_emit_macro r : preserves (emit_macro r).
Proof. routed. Qed.
Lemma preserves_emit_diagnostic r : preserves (emit_diagnostic r).
Proof. routed. Qed.
Lemma preserves_emit_cleanup r : preserves (emit_lifecycle_cleanup r).
Proof. routed. Qed.
Lemma preserves_emit_applicability r : preserves (emit_applicability r).
Proof. routed. Qed.

Lemma preserves_delete kind id : preserves (delete_for_file kind id).
Proof. apply preserves_then; [preserve|]. intros partition. apply preserves_emit_cleanup. Qed.

Lemma preserves_unit_config id : preserves (set_identity_translation_unit_config_id id).
Proof. unfold set_identity_translation_unit_config_id. destruct (0 <=? id); preserve. Qed.

(** ** Reachable recorders *)

(** The public operations, with arguments of their C++ widths. *)
Inductive operation : ∀ A, recorder Store A → Prop :=
| op_completeness c : operation unit (set_completeness c)
| op_deferral d : operation unit (set_deferred_external_identity d)
| op_partition p h : i64_option h → operation unit (set_partition primary_hasher_ attempts p h)
| op_emit_symbol r : operation unit (emit_symbol primary_hasher_ attempts r)
| op_emit_evidence r : operation unit (emit_evidence r)
| op_emit_declaration_site r : operation unit (emit_declaration_site r)
| op_emit_include r : operation unit (emit_include r)
| op_emit_macro r : operation unit (emit_macro r)
| op_emit_diagnostic r : operation unit (emit_diagnostic r)
| op_emit_cleanup r : operation unit (emit_lifecycle_cleanup r)
| op_emit_applicability r : operation unit (emit_applicability r)
| op_emit_intent r : operation unit (emit_presentation_intent r)
| op_lookup usr source : operation (option Z) (lookup_symbol_id primary_hasher_ attempts usr source)
| op_mint r : operation Z (mint_symbol primary_hasher_ attempts r)
| op_file path : operation (option Z) (file_id_for_path path)
| op_candidates name q : operation (list TypeArgCandidate) (type_arg_candidates name q)
| op_ids_by_name name kind : operation (list Z) (symbol_ids_by_qual_name_kind name kind)
| op_add_edge r : operation Z (add_edge primary_hasher_ attempts r)
| op_ensure_edge r : operation Z (ensure_edge primary_hasher_ attempts r)
| op_edge_site r : operation unit (add_edge_site r)
| op_call_arg r : operation unit (add_call_arg r)
| op_template_param r : operation unit (add_template_param r)
| op_template_arg r : operation unit (add_template_arg r)
| op_type_node r : operation Z (intern_type_node primary_hasher_ attempts r)
| op_type_edge a b c d : operation unit (add_type_edge a b c d)
| op_parameters id l : operation unit (replace_parameters id l)
| op_symbol_type a b c : operation unit (add_symbol_type a b c)
| op_definition a b c d e f t :
    operation Z (get_or_create_definition primary_hasher_ attempts a b c d e f t)
| op_def_edge a b c : operation unit (add_def_edge a b c)
| op_body_edges id : operation nat (body_edge_count id)
| op_copy_edges a b : operation unit (copy_body_edges_to_def_edge a b)
| op_current_file id : operation unit (set_current_file_id id)
| op_unit_config id : operation unit (set_identity_translation_unit_config_id id)
| op_unit_file id : operation unit (set_identity_translation_unit_file_id id)
| op_delete_edges id : operation unit (delete_edges_for_file id)
| op_delete_definitions id : operation unit (delete_definitions_for_file id)
| op_display_name id : operation (option bytes) (lookup_display_name id)
| op_update_display id t : operation unit (update_display_name id t).

(** Limits are set, if at all, before the first fact. *)
Inductive reachable : FactBatchRecorder Store → Prop :=
| reach_new producer : reachable (new_recorder producer)
| reach_limits producer limits s :
    set_extraction_limits limits (new_recorder producer) = Ok (tt, s) → reachable s
| reach_step A (c : recorder Store A) s a s' :
    reachable s → operation A c → c s = Ok (a, s') → reachable s'.

Lemma new_recorder_ok producer : recorder_ok (new_recorder producer) ∅.
Proof.
  split; first [done | apply new_identities_ok | apply handles_ok_empty | exact (Forall2_nil_2 _)
    | exact (Forall_nil_2 _) | exact NoDup_nil_2 | idtac].
  by intros r Hr%elem_of_nil.
Qed.

Hint Resolve preserves_set_partition preserves_emit_symbol preserves_resolve preserves_mint preserves_add_edge
  preserves_ensure_edge preserves_copy_body_edges preserves_update_display_name preserves_emit_declaration_site
  preserves_emit_include preserves_emit_macro preserves_emit_diagnostic preserves_emit_cleanup
  preserves_emit_applicability preserves_delete preserves_unit_config : preserves.

Lemma operation_preserves A (c : recorder Store A) : operation A c → preserves c.
Proof. destruct 1; try (solve [preserve]); [apply preserves_resolve|apply preserves_delete..]. Qed.

(** The invariant holds of every reachable recorder. *)
Lemma reachable_recorder_ok s : reachable s → inv s.
Proof.
  induction 1 as [producer|producer limits s Hs|A c s a s' _ IH Hc Hs].
  - exists ∅. apply new_recorder_ok.
  - injection Hs as <-. exists ∅. destruct (new_recorder_ok producer). split; try done. apply new_identities_ok.
  - by eapply operation_preserves.
Qed.

(** ** What the batches of a reachable recorder hold *)

Lemma key_map_fold kind (l : list (Identity * Z)) (acc : gmap Z bytes) handle key :
  (∀ k k' h, ((kind, k), h) ∈ l → ((kind, k'), h) ∈ l → k = k') →
  foldl (add_key kind) acc l !! handle = Some key ↔
  acc !! handle = Some key ∨ acc !! handle = None ∧ ((kind, key), handle) ∈ l.
Proof.
  revert acc. induction l as [|[[kind0 key0] h0] l IH]; intros acc Hu; cbn [foldl].
  { split; [by left|]. by intros [?|[_ ?%elem_of_nil]]. }
  rewrite IH by (intros k k' h Hk Hk'; apply (Hu k k' h); by right). clear IH.
  unfold add_key. cbn [fst snd].
  destruct (decide (kind0 = kind)) as [->|Hne].
  2:{ rewrite elem_of_cons. split; [naive_solver|]. intros [?|[? [[=]|?]]]; naive_solver. }
  destruct (acc !! h0) as [k0|] eqn:E0.
  - rewrite elem_of_cons. split; [naive_solver|]. intros [?|[Hn [[= -> ->]|?]]]; [by left|congruence|by right].
  - destruct (decide (handle = h0)) as [->|Hneh].
    + rewrite lookup_insert_eq, E0. split.
      * intros [[= ->]|[? _]]; [|done]. right. split; [done|]. by left.
      * intros [?|[_ [[= ->]|Hin]%elem_of_cons]]; [done|by left|]. left. f_equal.
        apply (Hu key0 key h0); [by left|by right].
    + rewrite lookup_insert_ne by done. split; [naive_solver set_solver|].
      intros [?|[Hn [[= ? ?]|?]%elem_of_cons]]; naive_solver.
Qed.

(** The identity maps of a batch lose nothing. *)
Lemma key_map_spec m kind handle key :
  handles_ok m → own_kind kind → key_map kind m !! handle = Some key ↔ m !! (kind, key) = Some handle.
Proof.
  intros Hm Hk. unfold key_map. rewrite key_map_fold.
  - rewrite lookup_empty. unfold identity_entries. rewrite elem_of_sorted_entries. naive_solver.
  - intros k k' h H1%elem_of_sorted_entries H2%elem_of_sorted_entries. by eapply (handle_unique m Hm).
Qed.

Lemma recorded_facts s m :
  recorder_ok s m →
  ∃ facts, recorded s = Ok facts ∧ routed_by_field facts ∧ rf_symbol_order facts = symbol_order_ s ∧
    rf_symbols facts = symbols_ s ∧
    rf_pending_symbol_references facts = pending_symbol_references_ s ∧
    rf_symbol_keys facts = key_map kind_symbol m ∧ rf_relation_keys facts = key_map kind_relation m ∧
    rf_type_keys facts = key_map kind_type m ∧ rf_definition_keys facts = key_map kind_definition m.
Proof.
  intros []. unfold recorded. rewrite (law_entries _ m) by apply ok_identities0. cbn [rbind].
  eexists. split; [done|]. done.
Qed.

(** *** Minting *)

Lemma core_records s s' id : core s' = core s → has_record s id → has_record s' id.
Proof. intros E. destruct (core_members _ _ E) as (_ & _ & Ep). unfold has_record. by rewrite Ep. Qed.

Lemma harmless_touched operation n : harmless (touched operation n).
Proof. by apply harmless_set. Qed.
Lemma harmless_get {A} (f : FactBatchRecorder Store → A) : harmless (rget f).
Proof. by intros s a s' [= _ <-]. Qed.

(** A handle found in the tables of this batch has a record. *)
Lemma local_lookup_spec s m usr source found s' :
  recorder_ok s m → local_lookup usr source s = Ok (found, s') →
  core s' = core s ∧ ∀ id, found = Some id → has_record s id.
Proof.
  intros Hs Hl. destruct source as [text|]; unfold local_lookup in Hl; unfold rthen at 1 in Hl; cbn [rget rbind] in Hl.
  - destruct (symbol_ids_by_source_usr_ s !! _) as [id|] eqn:E.
    + injection Hl as <- <-. split; [done|]. intros i [= <-]. by eapply ok_sources.
    + unfold source_independent_symbol_id in Hl. unfold rthen at 1 in Hl. cbn [rget rbind] in Hl.
      destruct (symbol_ids_by_scope_usr_ s !! _ ≫= only_element) as [c|] eqn:Ec; [|by injection Hl as <- <-].
      apply bind_Some in Ec as (ids & Eids & Eone). unfold only_element in Eone.
      assert (c ∈ ids) as Hc.
      { apply elem_of_elements. destruct (elements ids) as [|x [|y l]]; [done| |done].
        injection Eone as <-. by left. }
      unfold rthen at 1 in Hl. cbn [rget rbind] in Hl.
      destruct (symbol_positions_by_id_ s !! c) as [[|first ps]|]; [by injection Hl as <- <-| |by injection Hl as <- <-].
      unfold rthen at 1 in Hl. apply rbind_Ok in Hl as ([r s1] & H1 & Hl).
      apply symbol_at_spec in H1 as [-> _]. destruct (is_local _); injection Hl as <- <-; [done|].
      split; [done|]. intros i [= <-]. by eapply ok_scopes.
  - destruct (symbol_ids_by_scope_usr_ s !! _) as [ids|] eqn:E; cbn [from_option id] in Hl.
    2:{ rewrite elements_empty in Hl. by injection Hl as <- <-. }
    destruct (elements ids) as [|x [|y l]] eqn:Ee; [by injection Hl as <- <-| |done].
    injection Hl as <- <-. split; [done|]. intros i [= <-]. eapply ok_scopes; [done|exact E|].
    apply elem_of_elements. rewrite Ee. by left.
Qed.

Lemma resolve_local_spec s m usr source found s' :
  recorder_ok s m → resolve_symbol_id primary_hasher_ attempts usr source false s = Ok (found, s') →
  core s' = core s ∧ ∀ id, found = Some id → has_record s id.
Proof.
  intros Hs Hr. unfold resolve_symbol_id in Hr. cbv zeta in Hr. unfold rthen at 1 in Hr. cbn [rbind counted rset] in Hr.
  unfold rthen in Hr. apply rbind_Ok in Hr as ([f s1] & H1 & Hr).
  match type of H1 with local_lookup _ _ ?t = _ => assert (core t = core s) as E0 by reflexivity end.
  apply (local_lookup_spec _ m) in H1 as [E1 Hf]; [|by eapply core_ok].
  assert (found = f ∧ s' = s1) as [-> ->] by (destruct f; by injection Hr as <- <-).
  split; [by rewrite E1|]. intros i Hi. apply Hf in Hi. exact Hi.
Qed.

Definition keeps_records {A} (c : recorder Store A) : Prop :=
  ∀ s a s' id, inv s → c s = Ok (a, s') → has_record s id → has_record s' id.

Lemma keeps_write position record : keeps_records (write_symbol position record).
Proof. intros s u s' id _ [= _ <-] Hr. exact Hr. Qed.

Lemma enrich_keeps_records id request : keeps_records (enrich_minted_symbol primary_hasher_ attempts id request).
Proof.
  intros s u s' i Hinv Hs Hr. unfold enrich_minted_symbol in Hs. unfold rthen at 1 in Hs. cbn [rget rbind] in Hs.
  destruct (symbol_positions_by_id_ s !! id) as [positions|]; [|by injection Hs as _ <-].
  unfold rthen at 1 in Hs. apply rbind_Ok in Hs as ([u1 s1] & H1 & Hs).
  assert (inv s1 ∧ has_record s1 i) as [Hinv1 Hr1].
  { revert H1. eapply (triple_for (λ s, inv s ∧ has_record s i)); [|done].
    intros p _ s0 u0 s0' [Hi0 Hr0] Hp. split.
    - by eapply (preserves_write (λ record, merge_mint_enrichment record request)).
    - unfold rthen in Hp. apply rbind_Ok in Hp as ([r s2] & H2 & Hp). apply symbol_at_spec in H2 as [-> _].
      by eapply keeps_write. }
  clear H1. unfold add_mint_declaration in Hs. destruct (mr_decl_line request) as [line|]; [|by injection Hs as _ <-].
  destruct positions as [|first positions]; [by injection Hs as _ <-|].
  unfold rthen at 1 in Hs. apply rbind_Ok in Hs as ([records s2] & H2 & Hs).
  apply symbols_at_spec in H2 as [-> _]. destruct (existsb _ records); [by injection Hs as _ <-|].
  unfold rthen at 1 in Hs. cbn [rget rbind] in Hs. destruct (List.find _ records) as [[p r]|].
  - by eapply keeps_write.
  - unfold rthen in Hs. apply rbind_Ok in Hs as ([d s3] & H3 & Hs). apply symbol_at_spec in H3 as [-> _].
    destruct Hinv1 as [m1 Hm1]. destruct (emit_symbol_spec _ m1 _ _ _ Hm1 Hs) as (m' & q & e & _ & _ & _ & _ & _ & Hk).
    by apply Hk.
Qed.

(** [mint_symbol] answers with a handle that has a record. *)
Lemma mint_has_record s request id s' :
  inv s → mint_symbol primary_hasher_ attempts request s = Ok (id, s') → has_record s' id.
Proof.
  intros [m Hm] Hs. unfold mint_symbol in Hs. cbv zeta in Hs. unfold rthen at 1 in Hs.
  apply rbind_Ok in Hs as ([found s1] & H1 & Hs). apply (resolve_local_spec s m) in H1 as [E1 Hf]; [|done].
  assert (recorder_ok s1 m) as Hm1 by (by eapply core_ok). destruct found as [i|].
  - unfold rthen in Hs. apply rbind_Ok in Hs as ([u s2] & H2 & Hs). injection Hs as <- <-.
    eapply enrich_keeps_records; [by exists m|exact H2|]. eapply core_records; [exact E1|]. by apply Hf.
  - unfold create_minted_symbol in Hs. unfold rthen at 1 in Hs. cbn [rget rbind] in Hs.
    unfold rthen at 1 in Hs. apply rbind_Ok in Hs as ([u s2] & H2 & Hs).
    destruct (emit_symbol_spec _ m _ _ _ Hm1 H2) as (m' & q & e & Hm2 & _).
    unfold rthen in Hs. apply rbind_Ok in Hs as ([created s3] & H3 & Hs).
    apply (resolve_local_spec s2 m') in H3 as [E3 Hc]; [|done]. destruct created as [i|]; [|done].
    injection Hs as <- <-. eapply core_records; [exact E3|]. by apply Hc.
Qed.

(** A handle with a record is not the handle of a reference to another unit. *)
Lemma record_not_pending s m id r :
  recorder_ok s m → has_record s id → r ∈ pending_symbol_references_ s → ps_handle r ≠ id.
Proof.
  intros Hm (ps & p & Hps & Hin) Hr <-. destruct (ok_external s m Hm r Hr) as [_ Hx].
  destruct (ok_positions s m Hm _ _ _ Hps Hin) as (e & _ & He).
  assert (own_kind kind_symbol) as Hk by (unfold own_kind, kind_symbol; lia).
  pose proof (handle_unique m (ok_handles s m Hm) kind_symbol _ _ _ Hk He Hx) as E. discriminate E.
Qed.

(** ** Properties *)

(** C15: Whatever sequence of operations reached a recorder, its canonical batch
    exists and has the canonical layout, and the references it defers to the writer
    come in strictly increasing order, each at most once. *)
Theorem recorder_batch_canonical s :
  reachable s →
  ∃ batch, recorder_batch true s = Ok batch ∧ is_canonical batch = true ∧
    fr_symbol_order (fb_records batch) = canonical_symbol_order (symbol_order_ s) ∧
    StronglySorted (λ a b, pending_ltb a b = true) (fb_pending_symbol_references batch) ∧
    fb_pending_symbol_references batch ≡ₚ pending_symbol_references_ s.
Proof.
  intros Hs. destruct (reachable_recorder_ok s Hs) as [m Hm].
  destruct (recorded_facts s m Hm) as (facts & Hf & Hr & Ho & _ & Hp & _).
  unfold recorder_batch. rewrite Hf. cbn [rbind]. eexists. split; [done|].
  split; [by apply canonical_batch_layout|]. rewrite build_batch_order, build_batch_pending, Ho, Hp.
  split; [done|]. split; [|apply (sort_perm pending_ltb)].
  apply (sorted_strict pending_ltb); [apply (sort_sorted pending_ltb)|]. rewrite (sort_perm pending_ltb). eapply NoDup_fmap_1, (ok_pending s m Hm).
Qed.

(** C16: The identity maps of a reachable recorder's batch are lossless: in each of
    the four families a handle stands for exactly one identity and every identity of
    the store is listed; every symbol emission and every deferred reference is named
    by a handle of the symbol map. *)
Theorem recorder_identities_exact s :
  reachable s →
  ∃ entries facts, store_entries (identity_index_ (identities_ s)) = Ok entries ∧ recorded s = Ok facts ∧
    (∀ handle key,
       (rf_symbol_keys facts !! handle = Some key ↔ entries !! (kind_symbol, key) = Some handle) ∧
       (rf_relation_keys facts !! handle = Some key ↔ entries !! (kind_relation, key) = Some handle) ∧
       (rf_type_keys facts !! handle = Some key ↔ entries !! (kind_type, key) = Some handle) ∧
       (rf_definition_keys facts !! handle = Some key ↔ entries !! (kind_definition, key) = Some handle)) ∧
    (∀ e, e ∈ rf_symbol_order facts → ∃ handle,
       rf_symbol_keys facts !! handle = Some (bs "symbol:" ++ symbol_string (se_symbol e))) ∧
    (∀ r, r ∈ rf_pending_symbol_references facts →
       rf_symbol_keys facts !! ps_handle r = Some (bs "external:" ++ pending_string r)).
Proof.
  intros Hs. destruct (reachable_recorder_ok s Hs) as [m Hm].
  destruct (recorded_facts s m Hm) as (facts & Hf & _ & Ho & _ & Hp & E1 & E2 & E3 & E4).
  exists m, facts. split; [apply law_entries, (ok_identities s m Hm)|]. split; [done|].
  pose proof (ok_handles s m Hm) as Hh. assert (own_kind kind_symbol) as Hk by (unfold own_kind, kind_symbol; lia).
  rewrite E1, E2, E3, E4, Ho, Hp. split_and!.
  - intros handle key. split_and!; apply key_map_spec; done.
  - intros e [p He]%list_elem_of_lookup. destruct (ok_buckets s m Hm p e He) as (id & _ & Hid & _).
    exists id. by apply key_map_spec.
  - intros r Hr. apply key_map_spec; [done..|]. by apply (ok_external s m Hm).
Qed.

(** C19: Records are bucketed by identity: in a reachable recorder, a record lies in
    the bucket of a handle exactly when its emission's identity has this handle, and
    the emission of a record carries its current key and its USR, however often the
    record was enriched or renamed. *)
Theorem recorder_buckets_exact s p e id :
  reachable s → symbol_order_ s !! p = Some e →
  (∃ entries, store_entries (identity_index_ (identities_ s)) = Ok entries ∧
     (p ∈ default [] (symbol_positions_by_id_ s !! id) ↔ entries !! symbol_identity e = Some id)) ∧
  (∃ item, symbols_ s !! p = Some item ∧ describes item e).
Proof.
  intros Hs He. destruct (reachable_recorder_ok s Hs) as [m Hm]. split.
  - exists m. split; [apply law_entries, (ok_identities s m Hm)|]. split.
    + intros Hin. destruct (symbol_positions_by_id_ s !! id) as [ps|] eqn:E; [|by apply elem_of_nil in Hin].
      destruct (ok_positions s m Hm id ps p E Hin) as (e' & He' & Hid). congruence.
    + intros Hid. destruct (ok_buckets s m Hm p e He) as (id' & ps & Hid' & Hps & Hin).
      assert (id' = id) as -> by congruence. by rewrite Hps.
  - destruct (Forall2_lookup_r _ _ _ _ _ (ok_emissions s m Hm) He) as (item & Hi & Hd). by exists item.
Qed.

(** C17: Minting never answers with a deferred reference: the handle it returns in a
    reachable recorder has a record of this batch, and no pending reference has the
    same handle. *)
Theorem mint_owns_record s request id s' :
  reachable s → mint_symbol primary_hasher_ attempts request s = Ok (id, s') →
  has_record s' id ∧ Forall (λ r, ps_handle r ≠ id) (pending_symbol_references_ s').
Proof.
  intros Hs Hmint. pose proof (reachable_recorder_ok s Hs) as Hinv.
  pose proof (mint_has_record s request id s' Hinv Hmint) as Hr. split; [done|].
  apply preserves_mint in Hmint as [m Hm]; [|done]. apply Forall_forall. intros r Hp.
  by eapply record_not_pending.
Qed.

(** *** Programs *)

(** A sequence of operations whose answers are not used. *)
Inductive program : recorder Store unit → Prop :=
| program_nil : program (rret tt)
| program_op A (c : recorder Store A) k : operation A c → program k → program (c ;;* k).

Lemma program_reachable c s u s' : program c → reachable s → c s = Ok (u, s') → reachable s'.
Proof.
  intros Hc. revert s. induction Hc as [|A c k Hop _ IH]; intros s Hs Hr; [by injection Hr as _ <-|].
  unfold rthen in Hr. apply rbind_Ok in Hr as ([a s1] & H1 & Hr). eapply IH; [|done]. by eapply reach_step.
Qed.
End invariant.

(** ** A sample recording *)

Abbreviation Recorder_ := (FactBatchRecorder SpillableIdentityIndex).
Definition sample_attempts : nat := 3.
Abbreviation run c := (c (new_recorder (Store := SpillableIdentityIndex) (bs "clang"))).

Definition sample_request : MintRequest :=
  Mint (bs "c:h") (bs "h") (bs "n::h") [] None (bs "function") (Some 7) (Some 4) (Some 2) None false false
    (Some (bs "src/a.cpp")) (Some (bs "external")) None None None (Some (bs "c:n")).

(** Two symbols, one of them twice, a relation counted twice, a macro, a reference
    that is deferred twice. *)
Definition sample_program : recorder SpillableIdentityIndex unit :=
  set_partition stable_fact_hash sample_attempts (sample_partition (bs "a.cpp")) (Some 7) ;;*
  set_deferred_external_identity (Deferral true (bs "src/a.cpp")) ;;*
  emit_symbol stable_fact_hash sample_attempts (sample_symbol (bs "c:f") 5) ;;*
  emit_symbol stable_fact_hash sample_attempts (sample_symbol (bs "c:g") 9) ;;*
  emit_symbol stable_fact_hash sample_attempts (sample_symbol (bs "c:f") 20) ;;*
  lookup_symbol_id stable_fact_hash sample_attempts (bs "c:elsewhere") None ;;*
  lookup_symbol_id stable_fact_hash sample_attempts (bs "c:elsewhere") None ;;*
  add_edge stable_fact_hash sample_attempts (EdgeRec 1 2 1 1 None None) ;;*
  add_edge stable_fact_hash sample_attempts (EdgeRec 1 2 1 4 None None) ;;*
  emit_macro (sample_macro (bs "b.cpp") (bs "M")).2 ;;*
  rret tt.

Lemma sample_program_ok : program stable_fact_hash sample_attempts sample_program.
Proof. repeat (eapply program_op; [constructor; done|]). apply program_nil. Qed.

(** The state that the sample program reaches. *)
Definition sample_state : option Recorder_ :=
  match run sample_program with Ok (_, s) => Some s | Err _ => None end.

Lemma sample_state_reachable s : sample_state = Some s → reachable stable_fact_hash sample_attempts s.
Proof.
  unfold sample_state. destruct (run sample_program) as [[u s0]|] eqn:E; [|done]. intros [= <-].
  eapply program_reachable; [apply sample_program_ok|apply reach_new|exact E].
Qed.

(** A boolean fact about the sample state. *)
Definition in_sample (f : Recorder_ → bool) : bool :=
  match sample_state with Some s => f s | None => false end.

Lemma in_sample_true f : in_sample f = true → ∃ s, sample_state = Some s ∧ f s = true.
Proof. unfold in_sample. destruct sample_state as [s|]; [eauto|done]. Qed.

(** A conjunction of hypotheses, without any conversion. *)
Ltac by_hypotheses :=
  repeat match goal with |- _ ∧ _ => split end; match goal with H : ?P |- ?P => exact H end.

Lemma recorder_batch_canonical_witness :
  ∃ s batch, sample_state = Some s ∧ recorder_batch true s = Ok batch ∧ is_canonical batch = true ∧
    length (symbols_ s) = 3%nat ∧ er_count <$> (relations_ s).*2 = [5] ∧
    length (pending_symbol_references_ s) = 1%nat.
Proof.
  destruct (in_sample_true (λ s, bool_decide (length (symbols_ s) = 3%nat)
    && bool_decide (er_count <$> (relations_ s).*2 = [5])
    && bool_decide (length (pending_symbol_references_ s) = 1%nat))) as (s & Hs & Hf); [by vm_compute|].
  rewrite !andb_true_iff, !bool_decide_eq_true in Hf. destruct Hf as [[H1 H2] H3].
  destruct (recorder_batch_canonical stable_fact_hash sample_attempts s (sample_state_reachable s Hs))
    as (batch & Hb & Hc & _).
  exists s, batch. by_hypotheses.
Defined.

Lemma recorder_identities_exact_witness :
  ∃ s facts, sample_state = Some s ∧ recorded s = Ok facts ∧ size (rf_symbol_keys facts) = 3%nat ∧
    ∀ r, r ∈ rf_pending_symbol_references facts →
      rf_symbol_keys facts !! ps_handle r = Some (bs "external:" ++ pending_string r).
Proof.
  destruct (in_sample_true (λ s, match recorded s with
    | Ok facts => bool_decide (size (rf_symbol_keys facts) = 3%nat) | Err _ => false end)) as (s & Hs & Hf);
    [by vm_compute|].
  destruct (recorder_identities_exact stable_fact_hash sample_attempts s (sample_state_reachable s Hs))
    as (entries & facts & _ & Hr & _ & _ & Hp).
  exists s, facts. rewrite Hr in Hf. apply bool_decide_eq_true in Hf. by_hypotheses.
Defined.

Lemma recorder_buckets_exact_witness :
  ∃ s e id, sample_state = Some s ∧ symbol_order_ s !! 2%nat = Some e ∧
    2%nat ∈ default [] (symbol_positions_by_id_ s !! id) ∧ 0%nat ∈ default [] (symbol_positions_by_id_ s !! id) ∧
    ∃ item, symbols_ s !! 2%nat = Some item ∧ describes item e.
Proof.
  destruct (in_sample_true (λ s, match symbol_order_ s !! 2%nat, map_to_list (symbol_positions_by_id_ s) with
    | Some _, l => existsb (λ b, bool_decide (2%nat ∈ b.2) && bool_decide (0%nat ∈ b.2)
                                 && bool_decide (symbol_positions_by_id_ s !! b.1 = Some b.2)) l
    | None, _ => false end)) as (s & Hs & Hf); [by vm_compute|].
  destruct (symbol_order_ s !! 2%nat) as [e|] eqn:He; [|done].
  apply existsb_exists in Hf as ([id ps] & _ & Hb). rewrite !andb_true_iff, !bool_decide_eq_true in Hb.
  destruct Hb as [[H2 H0] Hps]. cbn [fst snd] in *.
  destruct (recorder_buckets_exact stable_fact_hash sample_attempts s 2 e id (sample_state_reachable s Hs) He)
    as [_ Hitem].
  exists s, e, id. rewrite Hps. by_hypotheses.
Defined.

(** A mint of an unknown symbol. *)
Lemma mint_owns_record_witness :
  ∃ s id s', sample_state = Some s ∧
    mint_symbol stable_fact_hash sample_attempts sample_request s = Ok (id, s') ∧ has_record s' id ∧
    length (symbols_ s') = 4%nat.
Proof.
  destruct (in_sample_true (λ s, match mint_symbol stable_fact_hash sample_attempts sample_request s with
    | Ok (_, s') => bool_decide (length (symbols_ s') = 4%nat) | Err _ => false end)) as (s & Hs & Hf);
    [by vm_compute|].
  destruct (mint_symbol stable_fact_hash sample_attempts sample_request s) as [[id s']|] eqn:Em; [|done].
  apply bool_decide_eq_true in Hf.
  destruct (mint_owns_record stable_fact_hash sample_attempts s sample_request id s' (sample_state_reachable s Hs) Em)
    as [Hr _].
  exists s, id, s'. by_hypotheses.
Defined.

(** The first mint of a symbol drops the parent that the request names; a second
    mint of the same request fills it in. *)
Example first_mint_drops_parent :
  mr_parent_usr sample_request = Some (bs "c:n") ∧
  in_sample (λ s,
    match mint_symbol stable_fact_hash sample_attempts sample_request s with
    | Ok (_, s1) =>
        match mint_symbol stable_fact_hash sample_attempts sample_request s1 with
        | Ok (_, s2) =>
            bool_decide (sr_parent_usr ∘ snd <$> last (symbols_ s1) = Some None)
            && bool_decide (sr_parent_usr ∘ snd <$> last (symbols_ s2) = Some (Some (bs "c:n")))
        | Err _ => false
        end
    | Err _ => false
    end) = true.
Proof. split; [done|]. by vm_compute. Qed.
