(* ===== verification/OwnedHeaders.v ===== *)
(** * Owned-header routes: [src/src/ast/owned_header_plan.cpp] and [fact_route.hpp]

    Before a run, the scheduler decides which translation unit extracts each owned
    header: the unit that discovered it first in the order (unit, ordinal, path).
    The plan lists the main files and the chosen headers in a fixed order and gives
    each a transient handle; [serial_route] is the part of one unit.

    [plan_exact] says which routes a plan has and that the order in which the
    candidates were collected does not matter, [serial_route_exact] what extraction
    is handed. *)

From S2P Require Export FactIdentity.
Open Scope Z_scope.

(** ** Data *)

Record FactRoutePartition := RoutePartition {
  fr_partition : FactPartitionKey;
  fr_transient_file_handle : option Z
}.

Record SerialFactRoute := SerialRoute {
  partitions : list FactRoutePartition;
  main_partition : nat
}.

Inductive PlannedFileRole := role_translation_unit | role_owned_header.

#[export] Instance role_eq_dec : EqDecision PlannedFileRole.
Proof. solve_decision. Defined.

(** The time is a [double] that is only copied: its 64 bits. *)
Record PlannedSourceSnapshot := Snapshot {
  ss_mtime : option Z;
  ss_md5 : option bytes
}.

Record OwnedHeaderRouteCandidate := RouteCandidate {
  oc_role : PlannedFileRole;
  oc_translation_unit : bytes;
  oc_translation_unit_file_id : Z;
  oc_path : bytes;
  oc_discovery_ordinal : N;
  oc_existing_file_id : option Z;
  oc_snapshot : PlannedSourceSnapshot;
  oc_compile_options : option (list bytes);
  oc_driver : option bytes;
  oc_cleanup_symbols : bool;
  oc_partition : FactPartitionKey
}.

Record PlannedFileRoute := FileRoute {
  pr_role : PlannedFileRole;
  pr_translation_unit : bytes;
  pr_translation_unit_file_id : Z;
  pr_path : bytes;
  pr_discovery_ordinal : N;
  pr_existing_file_id : option Z;
  pr_snapshot : PlannedSourceSnapshot;
  pr_compile_options : option (list bytes);
  pr_driver : option bytes;
  pr_cleanup_symbols : bool;
  pr_extraction : FactRoutePartition
}.

Record OwnedHeaderRoutePlan := RoutePlan {
  plan_generation : bytes;
  plan_token_ : bytes;
  plan_routes : list PlannedFileRoute
}.

(** ** Operations *)

(** [std::to_underlying(role)], which is also the order of the roles in a plan. *)
Definition role_order (role : PlannedFileRole) : N :=
  match role with role_translation_unit => 0 | role_owned_header => 1 end.

Definition candidate_order (c : OwnedHeaderRouteCandidate) : bytes * (N * bytes) :=
  (oc_translation_unit c, (oc_discovery_ordinal c, oc_path c)).
Definition candidate_ltb : bytes * (N * bytes) → bytes * (N * bytes) → bool :=
  pair_ltb bytes_ltb (pair_ltb N.ltb bytes_ltb).

(** The key by which the selected candidates are sorted. *)
Definition route_order (c : OwnedHeaderRouteCandidate) : bytes * (N * (N * bytes)) :=
  (oc_translation_unit c, (role_order (oc_role c), (oc_discovery_ordinal c, oc_path c))).
Definition route_ltb : bytes * (N * (N * bytes)) → bytes * (N * (N * bytes)) → bool :=
  pair_ltb bytes_ltb (pair_ltb N.ltb (pair_ltb N.ltb bytes_ltb)).
Definition route_le (a b : OwnedHeaderRouteCandidate) : Prop :=
  route_ltb (route_order b) (route_order a) = false.
#[export] Instance route_le_dec : RelDecision route_le.
Proof. intros a b. unfold route_le. apply _. Defined.

Definition nul : bytes := ["000"%char].

Definition plan_token (generation : bytes) (routes : list PlannedFileRoute) : bytes :=
  to_string (stable_fact_hash (foldl (λ material route,
    material ++ nul ++ to_string (Z.of_N (role_order (pr_role route)))
    ++ nul ++ pr_translation_unit route ++ nul ++ pr_path route
    ++ nul ++ default (bs "<missing>") (ss_md5 (pr_snapshot route))
    ++ nul ++ partition_string (fr_partition (pr_extraction route))) generation routes)).

(** The key of a route's transient handle. *)
Definition route_key (c : OwnedHeaderRouteCandidate) : bytes :=
  oc_translation_unit c ++ nul ++ oc_path c ++ nul ++ partition_string (oc_partition c).

Definition route_of (c : OwnedHeaderRouteCandidate) (handle : Z) : PlannedFileRoute :=
  FileRoute (oc_role c) (oc_translation_unit c) (oc_translation_unit_file_id c) (oc_path c)
    (oc_discovery_ordinal c) (oc_existing_file_id c) (oc_snapshot c) (oc_compile_options c) (oc_driver c)
    (oc_cleanup_symbols c) (RoutePartition (oc_partition c) (Some handle)).

(** [CollisionSafeHandleIndex::find_or_insert] tries until a handle is free; the
    model stops after [attempts]. *)
Definition planned_route (attempts : nat) (c : OwnedHeaderRouteCandidate) (handles : HandleIndex)
    : option (PlannedFileRoute * HandleIndex) :=
  '(handle, handles) ← find_or_insert stable_fact_hash attempts (route_key c) handles;
  Some (route_of c handle, handles).

Fixpoint planned_routes (attempts : nat) (selected : list OwnedHeaderRouteCandidate) (handles : HandleIndex)
    : option (list PlannedFileRoute) :=
  match selected with
  | [] => Some []
  | c :: selected =>
      '(route, handles) ← planned_route attempts c handles;
      routes ← planned_routes attempts selected handles;
      Some (route :: routes)
  end.

(** One round of the selection: main files are kept, a header goes to its least
    candidate. *)
Definition select (acc : list OwnedHeaderRouteCandidate * gmap bytes OwnedHeaderRouteCandidate)
    (c : OwnedHeaderRouteCandidate)
    : result (list OwnedHeaderRouteCandidate * gmap bytes OwnedHeaderRouteCandidate) :=
  let '(selected, headers) := acc in
  if bool_decide (oc_translation_unit c = []) || bool_decide (oc_path c = [])
  then throw (bs "owned-header route requires translation-unit and file identities")
  else
    match oc_role c with
    | role_translation_unit => Ok (selected ++ [c], headers)
    | role_owned_header =>
        match headers !! oc_path c with
        | Some found =>
            if candidate_ltb (candidate_order c) (candidate_order found)
            then Ok (selected, <[oc_path c := c]> headers) else Ok (selected, headers)
        | None => Ok (selected, <[oc_path c := c]> headers)
        end
    end.

Fixpoint select_all (acc : list OwnedHeaderRouteCandidate * gmap bytes OwnedHeaderRouteCandidate)
    (candidates : list OwnedHeaderRouteCandidate)
    : result (list OwnedHeaderRouteCandidate * gmap bytes OwnedHeaderRouteCandidate) :=
  match candidates with
  | [] => Ok acc
  | c :: candidates => let! acc := select acc c in select_all acc candidates
  end.

(** The order of equal keys, which [std::ranges::sort] leaves open, is that of the
    candidates. *)
Definition plan_owned_header_routes (attempts : nat) (generation : bytes)
    (candidates : list OwnedHeaderRouteCandidate) : result OwnedHeaderRoutePlan :=
  let! (selected, headers) := select_all ([], ∅) candidates in
  let selected := merge_sort route_le (selected ++ (sorted_entries bytes_ltb headers).*2) in
  match planned_routes attempts selected empty_index with
  | Some routes => Ok (RoutePlan generation (plan_token generation routes) routes)
  | None => throw (bs "(find_or_insert does not return)")
  end.

Definition serial_step (translation_unit : bytes) (route : SerialFactRoute) (r : PlannedFileRoute)
    : SerialFactRoute :=
  if decide (pr_translation_unit r = translation_unit) then
    SerialRoute (partitions route ++ [pr_extraction r])
      (match pr_role r with
       | role_translation_unit => length (partitions route)
       | role_owned_header => main_partition route
       end)
  else route.

Definition serial_route (plan : OwnedHeaderRoutePlan) (translation_unit : bytes) : SerialFactRoute :=
  foldl (serial_step translation_unit) (SerialRoute [] 0) (plan_routes plan).

(** ** Selection *)

#[local] Notation Candidate := OwnedHeaderRouteCandidate.

Definition named (c : Candidate) : Prop := oc_translation_unit c ≠ [] ∧ oc_path c ≠ [].
#[export] Instance named_dec c : Decision (named c).
Proof. unfold named. apply _. Defined.

Definition is_unit (c : Candidate) : Prop := oc_role c = role_translation_unit.
#[export] Instance is_unit_dec c : Decision (is_unit c).
Proof. unfold is_unit. apply _. Defined.

#[export] Instance candidate_ltb_order : LtbOrder candidate_ltb.
Proof. apply _. Qed.
#[export] Instance route_ltb_order : LtbOrder route_ltb.
Proof. apply _. Qed.

(** [c] is the least of the header candidates [l] for its path. *)
Definition owner_among (l : list Candidate) (c : Candidate) : Prop :=
  c ∈ l ∧ oc_role c = role_owned_header ∧
  ∀ d, d ∈ l → oc_role d = role_owned_header → oc_path d = oc_path c →
    candidate_ltb (candidate_order d) (candidate_order c) = false.

Definition owners_of (l : list Candidate) (headers : gmap bytes Candidate) : Prop :=
  (∀ path c, headers !! path = Some c → oc_path c = path ∧ owner_among l c) ∧
  (∀ c, c ∈ l → oc_role c = role_owned_header → is_Some (headers !! oc_path c)).

Lemma owner_among_app l c d :
  owner_among l c → (oc_role d = role_owned_header → oc_path d = oc_path c →
                     candidate_ltb (candidate_order d) (candidate_order c) = false) →
  owner_among (l ++ [d]) c.
Proof.
  intros (Hc & Hr & Hmin) Hd. split; [set_solver|]. split; [done|].
  intros e [He| ->%list_elem_of_singleton]%elem_of_app; [by apply Hmin|exact Hd].
Qed.

Lemma select_spec l selected headers c acc :
  selected = filter is_unit l → owners_of l headers → select (selected, headers) c = Ok acc →
  named c ∧ acc.1 = filter is_unit (l ++ [c]) ∧ owners_of (l ++ [c]) acc.2.
Proof.
  intros -> [Ho Hd] H. unfold select in H.
  destruct (bool_decide (oc_translation_unit c = []) || bool_decide (oc_path c = [])) eqn:E; [done|].
  bool_split. rewrite filter_app. destruct (oc_role c) eqn:Hr.
  - injection H as <-. rewrite (filter_cons_True _ c) by done. split_and!; [done..|]. cbn. split.
    + intros path d Hpd. destruct (Ho _ _ Hpd) as [? ?]. split; [done|]. apply owner_among_app; [done|congruence].
    + intros d [Hin| ->%list_elem_of_singleton]%elem_of_app Hrd; [by apply Hd|congruence].
  - rewrite (filter_cons_False _ c) by (unfold is_unit; congruence). rewrite filter_nil, app_nil_r.
    assert (∀ path d, headers !! path = Some d → path ≠ oc_path c → oc_path d = path ∧ owner_among (l ++ [c]) d) as Hother.
    { intros path d Hpd Hne. destruct (Ho _ _ Hpd) as [<- ?]. split; [done|]. by apply owner_among_app; [|congruence]. }
    assert (∀ h : gmap bytes Candidate, (∀ p, is_Some (headers !! p) → is_Some (h !! p)) → is_Some (h !! oc_path c) →
      ∀ d, d ∈ l ++ [c] → oc_role d = role_owned_header → is_Some (h !! oc_path d)) as Hdom.
    { intros h Hk Hc d [Hin| ->%list_elem_of_singleton]%elem_of_app Hrd; [by apply Hk, Hd|done]. }
    assert (∀ p, is_Some (headers !! p) → is_Some (<[oc_path c := c]> headers !! p)) as Hins.
    { intros p Hp. apply lookup_insert_is_Some. destruct (decide (oc_path c = p)); eauto. }
    assert (owner_among (l ++ [c]) c → owners_of (l ++ [c]) (<[oc_path c := c]> headers)) as Hnew.
    { intros Hc. split; [|apply Hdom; [done|]; rewrite lookup_insert_eq; eauto].
      intros path d [[<- <-]|[Hne Hpd]]%lookup_insert_Some; [done|by apply Hother]. }
    destruct (headers !! oc_path c) as [found|] eqn:Hf;
      [destruct (candidate_ltb (candidate_order c) (candidate_order found)) eqn:Hlt|];
      injection H as <-; (split; [done|]); (split; [done|]); cbn.
    + apply Hnew. split; [set_solver|]. split; [done|]. destruct (Ho _ _ Hf) as [Hp (_ & _ & Hmin)].
      intros d [Hin| ->%list_elem_of_singleton]%elem_of_app Hrd Hpd; [|apply (ltb_irrefl (ltb := candidate_ltb))].
      destruct (candidate_ltb (candidate_order d) (candidate_order c)) eqn:Hdc; [|done].
      pose proof (ltb_trans (ltb := candidate_ltb) _ _ _ Hdc Hlt) as Hx. rewrite Hmin in Hx by congruence. done.
    + split; [|apply Hdom; [done|by rewrite Hf]]. intros path d Hpd. destruct (decide (path = oc_path c)) as [->|Hne].
      * rewrite Hf in Hpd. injection Hpd as <-. destruct (Ho _ _ Hf) as [? ?]. split; [done|]. by apply owner_among_app.
      * by apply Hother.
    + apply Hnew. split; [set_solver|]. split; [done|].
      intros d [Hin| ->%list_elem_of_singleton]%elem_of_app Hrd Hpd; [|apply (ltb_irrefl (ltb := candidate_ltb))].
      destruct (Hd _ Hin Hrd) as [e He]. congruence.
Qed.

Lemma select_all_spec l acc candidates acc' :
  acc.1 = filter is_unit l → owners_of l acc.2 → select_all acc candidates = Ok acc' →
  Forall named candidates ∧ acc'.1 = filter is_unit (l ++ candidates) ∧ owners_of (l ++ candidates) acc'.2.
Proof.
  revert l acc. induction candidates as [|c candidates IH]; intros l [selected headers] Hs Ho H; cbn in H.
  { injection H as <-. rewrite app_nil_r. done. }
  apply rbind_Ok in H as (acc1 & H1 & H). destruct (select_spec l _ _ _ _ Hs Ho H1) as (Hc & Hs1 & Ho1).
  destruct (IH (l ++ [c]) acc1 Hs1 Ho1 H) as (Hl & Hs2 & Ho2). rewrite <-app_assoc in *. by split; [constructor|].
Qed.

(** Selection fails exactly on a candidate without a name. *)
Definition unnamed_message : bytes := bs "owned-header route requires translation-unit and file identities".

Lemma select_named acc c : named c → is_ok (select acc c) = true.
Proof.
  destruct acc as [selected headers]. intros [H1 H2]. unfold select. rewrite !bool_decide_eq_false_2 by done. cbn.
  destruct (oc_role c); [done|]. by destruct (headers !! oc_path c); [destruct (candidate_ltb _ _)|].
Qed.

Lemma select_unnamed acc c : ¬ named c → select acc c = Err unnamed_message.
Proof.
  destruct acc as [selected headers]. intros Hc. unfold select.
  destruct (bool_decide (oc_translation_unit c = []) || bool_decide (oc_path c = [])) eqn:E; [done|].
  bool_split. by destruct Hc.
Qed.

Lemma select_all_cases acc candidates :
  Forall named candidates ∧ (∃ acc', select_all acc candidates = Ok acc')
  ∨ ¬ Forall named candidates ∧ select_all acc candidates = Err unnamed_message.
Proof.
  revert acc. induction candidates as [|c candidates IH]; intros acc; cbn; [by left; eauto|].
  rewrite Forall_cons. destruct (decide (named c)) as [Hc|Hc].
  - pose proof (select_named acc c Hc) as Hs. destruct (select acc c) as [acc1|]; [|done].
    cbn. destruct (IH acc1) as [[? ?]|[? ?]]; [left|right]; naive_solver.
  - rewrite select_unnamed by done. right. split; [by intros [? _]|done].
Qed.

(** What is selected, before it is sorted. *)
Definition selection (acc : list Candidate * gmap bytes Candidate) : list Candidate :=
  acc.1 ++ (sorted_entries bytes_ltb acc.2).*2.

Lemma elem_of_header_values (headers : gmap bytes Candidate) c :
  c ∈ (sorted_entries bytes_ltb headers).*2 ↔ ∃ path, headers !! path = Some c.
Proof.
  rewrite list_elem_of_fmap. split.
  - intros ([path d] & -> & H). exists path. by apply (elem_of_sorted_entries bytes_ltb) in H.
  - intros [path H]. exists (path, c). split; [done|]. by apply (elem_of_sorted_entries bytes_ltb).
Qed.

Lemma elem_of_selection cs acc c :
  acc.1 = filter is_unit cs → owners_of cs acc.2 →
  c ∈ selection acc ↔ (c ∈ cs ∧ is_unit c) ∨ owner_among cs c ∧ acc.2 !! oc_path c = Some c.
Proof.
  intros Hs [Ho _]. unfold selection. rewrite elem_of_app, Hs, list_elem_of_filter, elem_of_header_values. split.
  - intros [[? ?]|[path Hp]]; [by left|right]. destruct (Ho _ _ Hp) as [<- ?]. done.
  - intros [[? ?]|[_ Hp]]; [by left|right]. eauto.
Qed.

Lemma header_paths_NoDup (cs : list Candidate) (headers : gmap bytes Candidate) :
  owners_of cs headers → NoDup (oc_path <$> (sorted_entries bytes_ltb headers).*2).
Proof.
  intros [Ho _]. rewrite <-list_fmap_compose.
  rewrite (list_fmap_ext _ fst); [rewrite (sorted_entries_perm bytes_ltb); apply NoDup_fst_map_to_list|].
  intros i [path c] Hi%list_elem_of_lookup_2. apply (elem_of_sorted_entries bytes_ltb) in Hi. by apply Ho in Hi as [? _].
Qed.

(** ** Properties *)

Lemma planned_routes_keys attempts selected handles routes :
  planned_routes attempts selected handles = Some routes →
  ∃ hs index, insert_all stable_fact_hash attempts (route_key <$> selected) handles = Some (hs, index) ∧
    routes = zip_with route_of selected hs ∧ length hs = length selected.
Proof.
  revert handles routes. induction selected as [|c selected IH]; intros handles routes H; cbn in H.
  { injection H as <-. by exists [], handles. }
  apply bind_Some in H as ([r handles1] & Hr & H). apply bind_Some in H as (rs & Hrs & H).
  apply bind_Some in Hr as ([h handles2] & Hf & Hr). injection Hr as <- <-. injection H as <-.
  destruct (IH _ _ Hrs) as (hs & index & Hi & -> & Hl). exists (h :: hs), index. cbn.
  by rewrite Hf; cbn; rewrite Hi; cbn; rewrite Hl.
Qed.

Lemma plan_inv attempts generation cs plan :
  plan_owned_header_routes attempts generation cs = Ok plan →
  ∃ acc hs index,
    select_all ([], ∅) cs = Ok acc ∧
    insert_all stable_fact_hash attempts (route_key <$> merge_sort route_le (selection acc)) empty_index = Some (hs, index) ∧
    plan_routes plan = zip_with route_of (merge_sort route_le (selection acc)) hs ∧
    length hs = length (selection acc) ∧
    plan_token_ plan = plan_token generation (plan_routes plan) ∧ plan_generation plan = generation.
Proof.
  intros H. unfold plan_owned_header_routes in H. apply rbind_Ok in H as ([selected headers] & Hs & H).
  destruct (planned_routes _ _ _) as [routes|] eqn:Hr; [|done]. injection H as <-.
  apply planned_routes_keys in Hr as (hs & index & Hi & -> & Hl). exists (selected, headers), hs, index.
  split_and!; [done..| |done|done]. rewrite Hl. apply Permutation_length, merge_sort_Permutation.
Qed.

(** *** The order of the candidates *)

Lemma owner_among_proper cs cs' c : cs ≡ₚ cs' → owner_among cs c → owner_among cs' c.
Proof.
  intros Hp (Hc & Hr & Hmin). split; [by rewrite <-Hp|]. split; [done|]. intros d Hd. apply Hmin. by rewrite Hp.
Qed.

Lemma owner_unique cs c d :
  NoDup (route_order <$> cs) → owner_among cs c → owner_among cs d → oc_path c = oc_path d → c = d.
Proof.
  intros Hnd (Hc & Hrc & Hmc) (Hd & Hrd & Hmd) Hp.
  assert (candidate_order c = candidate_order d) as E.
  { apply (ltb_total (ltb := candidate_ltb)); [by apply Hmd|by apply Hmc]. }
  apply (NoDup_fmap_inj route_order cs); [done..|]. unfold route_order, candidate_order in *.
  injection E as -> -> ->. by rewrite Hrc, Hrd.
Qed.

Lemma owners_unique cs cs' headers headers' :
  cs ≡ₚ cs' → NoDup (route_order <$> cs) → owners_of cs headers → owners_of cs' headers' → headers = headers'.
Proof.
  assert (∀ cs cs' h h' path c, cs ≡ₚ cs' → NoDup (route_order <$> cs) → owners_of cs h → owners_of cs' h' →
    h !! path = Some c → h' !! path = Some c) as Hhalf.
  { intros l l' h h' path c Hp Hnd [Ho _] [Ho' Hd'] Hl. destruct (Ho _ _ Hl) as [<- Hc].
    destruct (Hd' c) as [d Hd]; [rewrite <-Hp; apply Hc|apply Hc|]. destruct (Ho' _ _ Hd) as [Hpd Hown].
    rewrite Hd. f_equal. symmetry. eapply owner_unique; [exact Hnd|exact Hc| |done].
    by eapply owner_among_proper. }
  intros Hp Hnd Ho Ho'. apply map_eq. intros path. apply option_eq. intros c. split.
  - by apply (Hhalf cs cs').
  - apply (Hhalf cs' cs); [done|by rewrite <-Hp|done..].
Qed.

Lemma selection_keys_NoDup cs acc :
  NoDup (route_order <$> cs) → acc.1 = filter is_unit cs → owners_of cs acc.2 →
  NoDup (route_order <$> selection acc).
Proof.
  intros Hnd Hu Ho. apply NoDup_fmap_2_strong.
  - intros a b Ha Hb E. apply (NoDup_fmap_inj route_order cs); [done| | |done].
    + by apply (elem_of_selection cs) in Ha as [[? _]|[(? & _) _]].
    + by apply (elem_of_selection cs) in Hb as [[? _]|[(? & _) _]].
  - unfold selection. rewrite Hu. apply NoDup_app. split; [by eapply NoDup_filter, NoDup_fmap_1|]. split.
    + intros c [Hc _]%list_elem_of_filter [path Hp]%elem_of_header_values.
      destruct (proj1 Ho _ _ Hp) as [_ (_ & Hr & _)]. unfold is_unit in Hc. congruence.
    + eapply NoDup_fmap_1, header_paths_NoDup, Ho.
Qed.

(** A plan does not depend on the order in which the candidates were collected,
    as long as no two of them have the same role, unit, ordinal and path; nor does
    the rejection of a candidate without a name. *)
Lemma plan_order_free attempts generation cs cs' :
  cs ≡ₚ cs' → NoDup (route_order <$> cs) →
  plan_owned_header_routes attempts generation cs = plan_owned_header_routes attempts generation cs'.
Proof.
  intros Hp Hnd. unfold plan_owned_header_routes.
  destruct (select_all_cases ([], ∅) cs) as [[Hn [acc Ha]]|[Hn Ha]];
    destruct (select_all_cases ([], ∅) cs') as [[Hn' [acc' Ha']]|[Hn' Ha']]; rewrite Ha, Ha'; [|by rewrite Hp in Hn..|done].
  cbn [rbind].
  destruct (select_all_spec [] ([], ∅) cs acc) as (_ & Hu & Ho); [done|by split; [|intros ? ?%elem_of_nil]|done|].
  destruct (select_all_spec [] ([], ∅) cs' acc') as (_ & Hu' & Ho'); [done|by split; [|intros ? ?%elem_of_nil]|done|].
  cbn in Hu, Ho, Hu', Ho'. destruct acc as [selected headers], acc' as [selected' headers']. cbn in *.
  rewrite <-(owners_unique cs cs' headers headers') by done.
  assert (merge_sort route_le (selection (selected, headers)) = merge_sort route_le (selection (selected', headers))) as E;
    [|unfold selection in E; cbn [fst snd] in E; by rewrite E].
  assert (selection (selected, headers) ≡ₚ selection (selected', headers)) as Hsel.
  { unfold selection. cbn. by rewrite Hu, Hu', Hp. }
  pose proof (selection_keys_NoDup cs (selected, headers) Hnd Hu Ho) as Hk.
  apply (strict_keys_unique route_order route_ltb).
  - by apply (merge_sort_keys route_order route_ltb).
  - apply (merge_sort_keys route_order route_ltb); [done|]. by rewrite <-Hsel.
  - by rewrite !merge_sort_Permutation.
Qed.

(** C24: A plan routes each main file, and each header exactly once, to the first
    unit that discovered it, in the order of its keys; the transient handles of two
    routes are equal exactly if unit, path and partition are; no plan is made of a
    candidate without a name; and the order in which the candidates were collected
    does not matter, unless two of them have the same role, unit, ordinal and path. *)
Theorem plan_exact attempts generation cs plan :
  plan_owned_header_routes attempts generation cs = Ok plan →
  Forall named cs ∧
  (∀ cs', cs ≡ₚ cs' → NoDup (route_order <$> cs) →
     plan_owned_header_routes attempts generation cs' = Ok plan) ∧
  ∃ selected hs,
    plan_routes plan = zip_with route_of selected hs ∧ length hs = length selected ∧
    StronglySorted route_le selected ∧
    filter is_unit selected ≡ₚ filter is_unit cs ∧
    NoDup (oc_path <$> filter (λ c, ¬ is_unit c) selected) ∧
    (∀ c, c ∈ selected → ¬ is_unit c → owner_among cs c) ∧
    (∀ c, c ∈ cs → ¬ is_unit c → ∃ d, d ∈ selected ∧ ¬ is_unit d ∧ oc_path d = oc_path c) ∧
    (∀ i j c d h h', selected !! i = Some c → selected !! j = Some d → hs !! i = Some h → hs !! j = Some h' →
       (h = h' ↔ route_key c = route_key d)).
Proof.
  intros Hplan. pose proof Hplan as (acc & hs & index & Hs & Hi & Hr & Hl & _)%plan_inv.
  destruct (select_all_spec [] ([], ∅) cs acc) as (Hn & Hu & Ho); [done|by split; [|intros ? ?%elem_of_nil]|done|].
  split; [done|]. split; [by intros cs' Hp Hnd; rewrite <-(plan_order_free _ _ cs)|]. cbn in Hu, Ho.
  assert (∀ c, ¬ is_unit c ↔ oc_role c = role_owned_header) as Hrole by (intros c; unfold is_unit; destruct (oc_role c); naive_solver).
  assert (Forall (λ c, ¬ is_unit c) (sorted_entries bytes_ltb acc.2).*2) as Hh.
  { apply Forall_forall. intros c [path Hp]%elem_of_header_values. destruct (proj1 Ho _ _ Hp) as [_ (_ & ? & _)]. by apply Hrole. }
  assert (Forall is_unit acc.1) as Hf by (rewrite Hu; apply Forall_forall; by intros c [? _]%list_elem_of_filter).
  assert (filter is_unit (selection acc) = acc.1) as Hfu.
  { unfold selection. rewrite filter_app, (filter_all is_unit acc.1) by done.
    rewrite (filter_none is_unit); [by rewrite app_nil_r|done]. }
  assert (filter (λ c, ¬ is_unit c) (selection acc) = (sorted_entries bytes_ltb acc.2).*2) as Hfh.
  { unfold selection. rewrite filter_app, (filter_all _ (snd <$> _)) by done.
    rewrite (filter_none (λ c, ¬ is_unit c) acc.1); [done|]. eapply Forall_impl; [exact Hf|]. naive_solver. }
  exists (merge_sort route_le (selection acc)), hs. split; [done|].
  split; [by rewrite (Permutation_length (merge_sort_Permutation _ _))|].
  assert (∀ c, c ∈ merge_sort route_le (selection acc) ↔ c ∈ selection acc) as Hin by (intros c; by rewrite merge_sort_Permutation).
  split_and!.
  - apply StronglySorted_merge_sort.
    + intros a b c. apply (ltb_le_trans route_ltb).
    + intros a b. apply (ltb_le_total route_ltb).
  - by rewrite merge_sort_Permutation, Hfu, Hu.
  - rewrite merge_sort_Permutation, Hfh. by eapply header_paths_NoDup.
  - intros c Hc Hnu. apply Hin, (elem_of_selection cs) in Hc as [[_ ?]|[? _]]; done.
  - intros c Hc Hnu. apply Hrole in Hnu. destruct (proj2 Ho c Hc Hnu) as [d Hd]. destruct (proj1 Ho _ _ Hd) as [Hp Hown].
    exists d. split; [|split; [apply Hrole, Hown|done]]. apply Hin, (elem_of_selection cs); [done..|]. right. by rewrite Hp.
  - intros i j c d h h' Hc Hd Hh1 Hh2.
    pose proof (insert_all_spec _ _ _ _ _ _ empty_index_ok Hi) as (Hok & Hall & _).
    assert (∀ i c h, merge_sort route_le (selection acc) !! i = Some c → hs !! i = Some h → find (route_key c) index = Some h) as Hat.
    { intros i' c' h0 Hc' Hh'. eapply (Forall2_lookup_lr _ _ _ _ _ _ Hall); [|done]. by rewrite list_lookup_fmap, Hc'. }
    pose proof (Hat _ _ _ Hc Hh1) as E1. pose proof (Hat _ _ _ Hd Hh2) as E2. split.
    + intros <-. apply (ok_bijection _ Hok) in E1, E2. congruence.
    + intros E. congruence.
Qed.

(** *** The routes of a unit *)

Definition of_unit (translation_unit : bytes) (r : PlannedFileRoute) : Prop := pr_translation_unit r = translation_unit.
#[export] Instance of_unit_dec t r : Decision (of_unit t r).
Proof. unfold of_unit. apply _. Defined.

(** A unit is handed the extraction of its own routes, in the plan's order, and
    its main partition is its main file's, the last one if there are several; a unit
    with headers only gets its first header, and without routes nothing valid. *)
Lemma serial_route_exact plan translation_unit :
  let routes := filter (of_unit translation_unit) (plan_routes plan) in
  let route := serial_route plan translation_unit in
  partitions route = pr_extraction <$> routes ∧
  ((main_partition route < length (partitions route))%nat ↔ routes ≠ []) ∧
  (∀ i r, routes !! i = Some r → pr_role r = role_translation_unit →
     ∃ m, routes !! main_partition route = Some m ∧ pr_role m = role_translation_unit ∧
          (i ≤ main_partition route)%nat) ∧
  (Forall (λ r, pr_role r = role_owned_header) routes → main_partition route = 0%nat).
Proof.
  destruct plan as [generation token all]. unfold serial_route. cbn zeta. cbn [plan_routes].
  induction all as [|r all IH] using rev_ind.
  { cbn. split_and!; [done|split; [lia|done]|done|done]. }
  rewrite foldl_app, filter_app. cbn [foldl]. destruct IH as (Hp & Hv & Hm & Hh).
  set (route := foldl _ _ all) in *. unfold serial_step. destruct (decide (pr_translation_unit r = translation_unit)) as [Ht|Ht].
  2:{ rewrite (filter_cons_False _ r), filter_nil, app_nil_r by done. done. }
  rewrite (filter_cons_True _ r), filter_nil by done. cbn [partitions main_partition].
  assert (length (partitions route) = length (filter (of_unit translation_unit) all)) as Hl by (by rewrite Hp, length_fmap).
  split; [by rewrite fmap_app, Hp|]. rewrite length_app. cbn [length].
  destruct (pr_role r) eqn:Hr; split_and!.
  - split; [by destruct (filter _ all)|lia].
  - intros i m Hi Hmr. exists r. apply lookup_lt_Some in Hi. rewrite length_app in Hi. cbn in Hi.
    rewrite Hl, list_lookup_middle by done. split_and!; [done..|lia].
  - rewrite Forall_app, Forall_singleton. intros [_ E]. congruence.
  - split; [by destruct (filter _ all)|]. intros _. destruct (decide (filter (of_unit translation_unit) all = [])) as [E|E].
    + rewrite Hh by (rewrite E; constructor). lia.
    + apply Hv in E. lia.
  - intros i m Hi Hmr. destruct (decide (i < length (filter (of_unit translation_unit) all)))%nat as [Hlt|Hge].
    + rewrite lookup_app_l in Hi by done. destruct (Hm _ _ Hi Hmr) as (m' & Hm' & ? & ?). exists m'.
      split_and!; [|done..]. by apply lookup_app_l_Some.
    + rewrite lookup_app_r in Hi by lia. apply list_lookup_singleton_Some in Hi as [_ <-]. congruence.
  - rewrite Forall_app. intros [H _]. by apply Hh.
Qed.

(** The handles of a plan are positive and fit 64 bits. *)
Lemma plan_handles attempts generation cs plan :
  plan_owned_header_routes attempts generation cs = Ok plan →
  Forall (λ r, ∃ h, fr_transient_file_handle (pr_extraction r) = Some h ∧ 0 < h < 2 ^ 63) (plan_routes plan).
Proof.
  intros (acc & hs & index & _ & Hi & -> & _ & _)%plan_inv.
  pose proof (insert_all_spec _ _ _ _ _ _ empty_index_ok Hi) as (Hok & Hall & _).
  apply Forall_forall. intros r [i Hr]%list_elem_of_lookup. apply lookup_zip_with_Some in Hr as (c & h & -> & Hc & Hh).
  exists h. split; [done|].
  assert (find (route_key c) index = Some h) as E.
  { eapply (Forall2_lookup_lr _ _ _ _ _ _ Hall); [|exact Hh]. by rewrite list_lookup_fmap, Hc. }
  apply (ok_bijection _ Hok) in E. apply (ok_range _ Hok). by rewrite E.
Qed.

(** ** A sample plan: two units that discover one header *)

Definition sample_identity (name : bytes) : FactPartitionKey :=
  PartitionKey (FileIdentity [] (bs "src") name)
    (MkConfiguration (bs "u") name [] [] (ConfigurationContent None None [] None None)).

Definition sample_candidate (role : PlannedFileRole) (unit path : bytes) (ordinal : N) : Candidate :=
  RouteCandidate role unit 1 path ordinal None (Snapshot None (Some (bs "00"))) None None false (sample_identity path).

Definition sample_candidates : list Candidate :=
  [sample_candidate role_owned_header (bs "b.cpp") (bs "h.hpp") 2;
   sample_candidate role_translation_unit (bs "b.cpp") (bs "b.cpp") 0;
   sample_candidate role_owned_header (bs "a.cpp") (bs "h.hpp") 5;
   sample_candidate role_translation_unit (bs "a.cpp") (bs "a.cpp") 0].

Definition sample_routes : option OwnedHeaderRoutePlan :=
  match plan_owned_header_routes 3 (bs "g") sample_candidates with Ok plan => Some plan | Err _ => None end.

Lemma sample_routes_ok : ∃ plan, plan_owned_header_routes 3 (bs "g") sample_candidates = Ok plan ∧
  (λ r, (pr_translation_unit r, pr_path r)) <$> plan_routes plan
  = [(bs "a.cpp", bs "a.cpp"); (bs "a.cpp", bs "h.hpp"); (bs "b.cpp", bs "b.cpp")].
Proof.
  destruct (plan_owned_header_routes 3 (bs "g") sample_candidates) as [plan|] eqn:E.
  - exists plan. split; [done|].
    assert ((λ p, (λ r, (pr_translation_unit r, pr_path r)) <$> plan_routes p) <$> sample_routes
            = Some [(bs "a.cpp", bs "a.cpp"); (bs "a.cpp", bs "h.hpp"); (bs "b.cpp", bs "b.cpp")]) as H by by vm_compute.
    unfold sample_routes in H. rewrite E in H. by injection H.
  - exfalso. revert E. by vm_compute.
Qed.

Lemma plan_exact_witness :
  ∃ plan, plan_owned_header_routes 3 (bs "g") sample_candidates = Ok plan ∧ Forall named sample_candidates ∧
    plan_owned_header_routes 3 (bs "g") (reverse sample_candidates) = Ok plan ∧ length (plan_routes plan) = 3%nat.
Proof.
  destruct sample_routes_ok as (plan & Hp & Hr).
  destruct (plan_exact 3 (bs "g") sample_candidates plan Hp) as (Hn & Horder & _).
  exists plan. split; [exact Hp|]. split; [exact Hn|]. split.
  - apply Horder; [symmetry; apply reverse_Permutation|]. decided.
  - apply (f_equal length) in Hr. by rewrite length_fmap in Hr.
Defined.
