(* ===== verification/PassPorts.v ===== *)
(** * Ports and budgets of extraction passes: [fact_emitters.hpp] and the first part of [pass_registry.cpp]

    A pass reports facts through ports, bundles of operations that a recorder (or a
    test double) implements.  The registry hands it budgeted ports instead: each
    operation charges the pass's metrics before it is forwarded and counts the fact
    afterwards.  Ports over a state [S] are records of computations [io S A], so a
    budgeted port over [S] is a port over [S * PassMetrics]. *)

From S2P Require Export FactRecorder.
From coqutil Require Import Datatypes.RecordSetters.
Import DoubleBraceUpdate.

(** ** Computations that may throw and be caught *)

Inductive FrontendCapability := cap_ast | cap_preprocessor | cap_cfg | cap_templates.

#[export] Instance capability_eq_dec : EqDecision FrontendCapability.
Proof. solve_decision. Defined.

(** The exceptions that extraction tells apart. *)
Inductive exn :=
| PassBudgetExceeded (pass_id dimension : bytes)
| FrontendCapabilityUnavailable (pass_id : bytes) (capability : FrontendCapability)
| FrontendSessionRequired (pass_id : bytes)
| Exception (message : bytes).

Definition what (e : exn) : bytes :=
  match e with
  | PassBudgetExceeded pass_id dimension =>
      bs "pass budget exceeded: " ++ pass_id ++ bs " (" ++ dimension ++ bs ")"
  | FrontendCapabilityUnavailable pass_id _ => bs "frontend capability unavailable for pass: " ++ pass_id
  | FrontendSessionRequired pass_id => bs "frontend session required for pass: " ++ pass_id
  | Exception message => message
  end.

(** A computation returns, throws in a known state, or lets an exception of the
    recorder escape, whose state is not modelled and which no pass catches. *)
Inductive outcome (S A : Type) : Type :=
| Returned (a : A) (s : S)
| Thrown (e : exn) (s : S)
| Escaped (message : bytes).
Arguments Returned {S A} _ _.
Arguments Thrown {S A} _ _.
Arguments Escaped {S A} _.

Definition io (S A : Type) : Type := S → outcome S A.

Definition ioret {S A} (a : A) : io S A := Returned a.
Definition iothrow {S A} (e : exn) : io S A := Thrown e.
Definition iobind {S A B} (m : io S A) (k : A → io S B) : io S B :=
  λ s, match m s with
       | Returned a s => k a s
       | Thrown e s => Thrown e s
       | Escaped message => Escaped message
       end.
Definition iocatch {S A} (m : io S A) (handler : exn → io S A) : io S A :=
  λ s, match m s with
       | Thrown e s => handler e s
       | o => o
       end.
Definition ioset {S} (f : S → S) : io S unit := λ s, Returned tt (f s).
Definition ioget {S A} (f : S → A) : io S A := λ s, Returned (f s) s.

Notation "'do*' x ':=' m 'in' k" := (iobind m (λ x, k))
  (at level 200, x pattern, m at level 100, k at level 200, right associativity) : cidx_scope.
Notation "m ;;; k" := (iobind m (λ _, k)) (at level 100, right associativity) : cidx_scope.

(** ** Metrics *)

Record PassBudget := Budget {
  max_visited_constructs : N;
  max_emitted_facts : N;
  max_diagnostics : N;
  max_whole_tu_traversals : N;
  declared : bool
}.

Record FamilyCounts := FamilyCount {
  attempted : N;
  persisted : N;
  fc_duplicates : N
}.

(** The counters are [size_t]s that count constructs and facts one by one; they are
    unbounded here.  The elapsed time is left out. *)
Record PassMetrics := Metrics {
  visited_constructs : N;
  emitted_facts : N;
  unknown_constructs : N;
  duplicates : N;
  diagnostics : N;
  whole_tu_traversals : N;
  budget_exhausted : bool;
  diagnostic_messages : list bytes;
  fact_families : gmap bytes FamilyCounts;
  pass_id_ : bytes;
  budget_ : PassBudget
}.

(** [PassMetrics metrics; metrics.bind(pass_id, budget);]. *)
Definition bound_metrics (pass_id : bytes) (budget : PassBudget) : PassMetrics :=
  Metrics 0 0 0 0 0 0 false [] ∅ pass_id budget.

Definition enforce (value limit : N) (dimension : string) : io PassMetrics unit :=
  if negb (limit =? 0)%N && (limit <? value)%N then
    ioset (λ m, m{{ budget_exhausted := true;
                    diagnostic_messages ::= λ l, l ++ [bs "budget exceeded: " ++ bs dimension] }}) ;;;
    do* pass_id := ioget pass_id_ in
    iothrow (PassBudgetExceeded pass_id (bs dimension))
  else ioret tt.

Definition note_visited (count : N) : io PassMetrics unit :=
  ioset (λ m, m{{ visited_constructs ::= λ n, (n + count)%N }}) ;;;
  do* m := ioget id in enforce (visited_constructs m) (max_visited_constructs (budget_ m)) "visited".

Definition note_emitted (count : N) : io PassMetrics unit :=
  ioset (λ m, m{{ emitted_facts ::= λ n, (n + count)%N }}) ;;;
  do* m := ioget id in enforce (emitted_facts m) (max_emitted_facts (budget_ m)) "emitted".

Definition note_unknown (count : N) : io PassMetrics unit :=
  ioset (λ m, m{{ unknown_constructs ::= λ n, (n + count)%N }}).
Definition note_duplicate (count : N) : io PassMetrics unit :=
  ioset (λ m, m{{ duplicates ::= λ n, (n + count)%N }}).

Definition note_fact_family (family : bytes) (attempted_ persisted_ duplicates_ : N) : io PassMetrics unit :=
  ioset (λ m, m{{ fact_families ::= λ families,
    let counts := default (FamilyCount 0 0 0) (families !! family) in
    <[family := FamilyCount (attempted counts + attempted_) (persisted counts + persisted_)
                  (fc_duplicates counts + duplicates_)]> families }}).

Definition note_diagnostic (message : bytes) : io PassMetrics unit :=
  ioset (λ m, m{{ diagnostics ::= λ n, (n + 1)%N; diagnostic_messages ::= λ l, l ++ [message] }}) ;;;
  do* m := ioget id in enforce (diagnostics m) (max_diagnostics (budget_ m)) "diagnostics".

(** A budget of 0 traversals means none here. *)
Definition note_whole_tu_traversal (count : N) : io PassMetrics unit :=
  ioset (λ m, m{{ whole_tu_traversals ::= λ n, (n + count)%N }}) ;;;
  do* m := ioget id in
  if (max_whole_tu_traversals (budget_ m) <? whole_tu_traversals m)%N then
    ioset (λ m, m{{ budget_exhausted := true }}) ;;;
    iothrow (PassBudgetExceeded (pass_id_ m) (bs "whole_tu_traversals"))
  else ioret tt.

(** ** Ports *)

Record DeclarationIdentityResolver (S : Type) := Resolver {
  port_lookup_symbol_id : bytes → option bytes → io S (option Z);
  port_mint_symbol : MintRequest → io S Z;
  port_file_id_for_path : bytes → io S (option Z);
  port_type_arg_candidates : bytes → bool → io S (list TypeArgCandidate);
  port_symbol_ids_by_qual_name_kind : bytes → bytes → io S (list Z)
}.

Record RelationFactEmitter (S : Type) := Relations {
  port_add_edge : EdgeRecord → io S Z;
  port_ensure_edge : EdgeRecord → io S Z;
  port_add_edge_site : EdgeSiteRecord → io S unit;
  port_add_call_arg : CallArgRecord → io S unit;
  port_add_template_param : TemplateParamRecord → io S unit;
  port_add_template_arg : TemplateArgRecord → io S unit
}.

Record TypeFactEmitter (S : Type) := Types {
  port_intern_type_node : TypeNodeRecord → io S Z;
  port_add_type_edge : Z → Z → Z → Z → io S unit;
  port_replace_parameters : Z → list ParameterRecord → io S unit;
  port_add_symbol_type : Z → Z → Z → io S unit
}.

Record DefinitionScopeEmitter (S : Type) := Definitions {
  port_get_or_create_definition : Z → Z → Z → Z → Z → Z → option bytes → io S Z;
  port_add_def_edge : Z → Z → Z → io S unit;
  port_body_edge_count : Z → io S nat;
  port_copy_body_edges_to_def_edge : Z → Z → io S unit
}.

Definition EvidenceEmitter (S : Type) : Type := EvidenceRecord → io S unit.
Definition PresentationIntentEmitter (S : Type) : Type := PresentationIntent → io S unit.

Record IndexingLifecycle (S : Type) := Lifecycle {
  port_set_current_file_id : Z → io S unit;
  port_set_identity_translation_unit_config_id : Z → io S unit;
  port_set_identity_translation_unit_file_id : Z → io S unit;
  port_delete_edges_for_file : Z → io S unit;
  port_delete_definitions_for_file : Z → io S unit
}.

Record DeclarationPassPorts (S : Type) := DeclarationPorts {
  dp_resolver : DeclarationIdentityResolver S;
  dp_relations : RelationFactEmitter S;
  dp_types : TypeFactEmitter S
}.

Record StatementFactPorts (S : Type) := StatementPorts {
  sp_resolver : DeclarationIdentityResolver S;
  sp_relations : RelationFactEmitter S;
  sp_types : TypeFactEmitter S;
  sp_evidence : EvidenceEmitter S
}.

Record NamespacePassPorts (S : Type) := NamespacePorts {
  np_resolver : DeclarationIdentityResolver S;
  np_relations : RelationFactEmitter S
}.

Arguments Resolver {S} _ _ _ _ _.
Arguments Relations {S} _ _ _ _ _ _.
Arguments Types {S} _ _ _ _.
Arguments Definitions {S} _ _ _ _.
Arguments Lifecycle {S} _ _ _ _ _.
Arguments DeclarationPorts {S} _ _ _.
Arguments StatementPorts {S} _ _ _ _.
Arguments NamespacePorts {S} _ _.
Arguments port_lookup_symbol_id {S} _ _ _.
Arguments port_mint_symbol {S} _ _.
Arguments port_file_id_for_path {S} _ _.
Arguments port_type_arg_candidates {S} _ _ _.
Arguments port_symbol_ids_by_qual_name_kind {S} _ _ _.
Arguments port_add_edge {S} _ _.
Arguments port_ensure_edge {S} _ _.
Arguments port_add_edge_site {S} _ _.
Arguments port_add_call_arg {S} _ _.
Arguments port_add_template_param {S} _ _.
Arguments port_add_template_arg {S} _ _.
Arguments port_intern_type_node {S} _ _.
Arguments port_add_type_edge {S} _ _ _ _ _.
Arguments port_replace_parameters {S} _ _ _.
Arguments port_add_symbol_type {S} _ _ _ _.
Arguments port_get_or_create_definition {S} _ _ _ _ _ _ _ _.
Arguments port_add_def_edge {S} _ _ _ _.
Arguments port_body_edge_count {S} _ _.
Arguments port_copy_body_edges_to_def_edge {S} _ _ _.
Arguments port_set_current_file_id {S} _ _.
Arguments port_set_identity_translation_unit_config_id {S} _ _.
Arguments port_set_identity_translation_unit_file_id {S} _ _.
Arguments port_delete_edges_for_file {S} _ _.
Arguments port_delete_definitions_for_file {S} _ _.
Arguments dp_resolver {S} _.
Arguments dp_relations {S} _.
Arguments dp_types {S} _.
Arguments sp_resolver {S} _.
Arguments sp_relations {S} _.
Arguments sp_types {S} _.
Arguments sp_evidence {S} _.
Arguments np_resolver {S} _.
Arguments np_relations {S} _.

(** ** Budgeted ports *)

Section budgeted.
Context {S : Type}.

(** A computation on the ports' state, and one on the metrics. *)
Definition on_ports {A} (m : io S A) : io (S * PassMetrics) A :=
  λ '(s, metrics), match m s with
                   | Returned a s => Returned a (s, metrics)
                   | Thrown e s => Thrown e (s, metrics)
                   | Escaped message => Escaped message
                   end.
Definition on_metrics {A} (m : io PassMetrics A) : io (S * PassMetrics) A :=
  λ '(s, metrics), match m metrics with
                   | Returned a metrics => Returned a (s, metrics)
                   | Thrown e metrics => Thrown e (s, metrics)
                   | Escaped message => Escaped message
                   end.

(** [metrics_.note_emitted(count); ports_...; metrics_.note_fact_family(family, count, count)]. *)
Definition charged {A} (family : string) (count : N) (m : io S A) : io (S * PassMetrics) A :=
  on_metrics (note_emitted count) ;;;
  do* a := on_ports m in
  on_metrics (note_fact_family (bs family) count count 0) ;;;
  ioret a.

Definition BudgetedResolver (r : DeclarationIdentityResolver S) : DeclarationIdentityResolver (S * PassMetrics) :=
  Resolver (λ usr source, on_ports (port_lookup_symbol_id r usr source))
    (λ request, charged "symbols" 1 (port_mint_symbol r request))
    (λ path, on_ports (port_file_id_for_path r path))
    (λ name qualified, on_ports (port_type_arg_candidates r name qualified))
    (λ qual_name kind_name, on_ports (port_symbol_ids_by_qual_name_kind r qual_name kind_name)).

Definition BudgetedRelations (r : RelationFactEmitter S) : RelationFactEmitter (S * PassMetrics) :=
  Relations (λ edge, charged "relations" 1 (port_add_edge r edge))
    (λ edge, charged "relations" 1 (port_ensure_edge r edge))
    (λ site, charged "relations" 1 (port_add_edge_site r site))
    (λ arg, charged "relations" 1 (port_add_call_arg r arg))
    (λ param, charged "types" 1 (port_add_template_param r param))
    (λ arg, charged "types" 1 (port_add_template_arg r arg)).

Definition BudgetedTypes (t : TypeFactEmitter S) : TypeFactEmitter (S * PassMetrics) :=
  Types (λ node, charged "types" 1 (port_intern_type_node t node))
    (λ src kind position dst, charged "types" 1 (port_add_type_edge t src kind position dst))
    (λ owner parameters, charged "types" (N.of_nat (length parameters)) (port_replace_parameters t owner parameters))
    (λ symbol kind type, charged "types" 1 (port_add_symbol_type t symbol kind type)).

Definition BudgetedStatementFactPorts (ports : StatementFactPorts S) : StatementFactPorts (S * PassMetrics) :=
  StatementPorts (BudgetedResolver (sp_resolver ports)) (BudgetedRelations (sp_relations ports))
    (BudgetedTypes (sp_types ports)) (λ evidence, charged "evidence" 1 (sp_evidence ports evidence)).

Definition BudgetedDeclarationPassPorts (ports : DeclarationPassPorts S) : DeclarationPassPorts (S * PassMetrics) :=
  DeclarationPorts (BudgetedResolver (dp_resolver ports)) (BudgetedRelations (dp_relations ports))
    (BudgetedTypes (dp_types ports)).

Definition BudgetedNamespacePassPorts (ports : NamespacePassPorts S) : NamespacePassPorts (S * PassMetrics) :=
  NamespacePorts (BudgetedResolver (np_resolver ports)) (BudgetedRelations (np_relations ports)).

Definition BudgetedDefinitionScopeEmitter (d : DefinitionScopeEmitter S) : DefinitionScopeEmitter (S * PassMetrics) :=
  Definitions
    (λ symbol file line col end_line end_col init_text, charged "definitions" 1
       (port_get_or_create_definition d symbol file line col end_line end_col init_text))
    (λ definition destination kind, charged "relations" 1 (port_add_def_edge d definition destination kind))
    (λ symbol, on_ports (port_body_edge_count d symbol))
    (λ definition symbol,
       do* count := on_ports (port_body_edge_count d symbol) in
       charged "relations" (N.of_nat count) (port_copy_body_edges_to_def_edge d definition symbol)).

Definition BudgetedPresentationIntentEmitter (e : PresentationIntentEmitter S)
    : PresentationIntentEmitter (S * PassMetrics) :=
  λ intent, charged "presentation_intents" 1 (e intent).

(** The lifecycle port is handed on as it is. *)
Definition unbudgeted_lifecycle (l : IndexingLifecycle S) : IndexingLifecycle (S * PassMetrics) :=
  Lifecycle (λ file, on_ports (port_set_current_file_id l file))
    (λ unit, on_ports (port_set_identity_translation_unit_config_id l unit))
    (λ file, on_ports (port_set_identity_translation_unit_file_id l file))
    (λ file, on_ports (port_delete_edges_for_file l file))
    (λ file, on_ports (port_delete_definitions_for_file l file)).
End budgeted.

(** ** Sessions *)

(** What a pass may use.  Objects of Clang are represented by their presence. *)
Record FrontendSession (S : Type) := Session {
  ast_context : bool;
  preprocessor : bool;
  declaration_ports : option (DeclarationPassPorts S);
  statement_ports : option (StatementFactPorts S);
  namespace_ports : option (NamespacePassPorts S);
  definition_ports : option (DefinitionScopeEmitter S);
  evidence : option (EvidenceEmitter S);
  presentation_intents : option (PresentationIntentEmitter S);
  lifecycle : option (IndexingLifecycle S);
  cfg_builder : bool;
  template_arguments : bool;
  budget_overrides : gmap bytes PassBudget
}.
Arguments Session {S} _ _ _ _ _ _ _ _ _ _ _ _.
Arguments ast_context {S} _.
Arguments preprocessor {S} _.
Arguments declaration_ports {S} _.
Arguments statement_ports {S} _.
Arguments namespace_ports {S} _.
Arguments definition_ports {S} _.
Arguments evidence {S} _.
Arguments presentation_intents {S} _.
Arguments lifecycle {S} _.
Arguments cfg_builder {S} _.
Arguments template_arguments {S} _.
Arguments budget_overrides {S} _.

Definition supports {S} (session : FrontendSession S) (capability : FrontendCapability) : bool :=
  match capability with
  | cap_ast => ast_context session
  | cap_preprocessor => preprocessor session
  | cap_cfg => cfg_builder session
  | cap_templates => ast_context session && template_arguments session
  end.

(** The session that a pass sees: its ports charge its metrics. *)
Definition pass_session {S} (session : FrontendSession S) : FrontendSession (S * PassMetrics) :=
  let statement := BudgetedStatementFactPorts <$> statement_ports session in
  Session (ast_context session) (preprocessor session)
    (BudgetedDeclarationPassPorts <$> declaration_ports session)
    statement
    (BudgetedNamespacePassPorts <$> namespace_ports session)
    (BudgetedDefinitionScopeEmitter <$> definition_ports session)
    (match statement with
     | Some ports => Some (sp_evidence ports)
     | None => (λ e record, on_ports (e record)) <$> evidence session
     end)
    (BudgetedPresentationIntentEmitter <$> presentation_intents session)
    (unbudgeted_lifecycle <$> lifecycle session)
    (cfg_builder session) (template_arguments session) (budget_overrides session).
