(* ===== verification/PassRegistry.v ===== *)
(** * Extraction passes: [src/src/ast/pass_registry.cpp] and [indexing_plan]

    Passes are registered with a descriptor; an indexing plan names the passes to run
    in order.  [run] checks each step against the registry and the steps before it,
    hands the pass a budgeted session and collects its metrics.

    [descriptors_exact] says that a descriptor's key identifies it, [run_report_exact]
    what a completed run has gone through and [run_completes] when a run completes.
    [uses] describes the passes that touch the ports' state through the ports only. *)

From S2P Require Export PassPorts.
From coqutil Require Import Datatypes.RecordSetters.
Import DoubleBraceUpdate.
Open Scope Z_scope.

(** ** Descriptors and plans *)

Inductive PassScope := scope_translation_unit | scope_main_file | scope_owned_header.
Inductive TraversalMode := trav_declaration | trav_body | trav_preprocessing | trav_lifecycle.

Record ExtractionPassDescriptor := PassDescriptor {
  pd_id : bytes;
  pd_version : Z;
  pd_required_capabilities : list FrontendCapability;
  pd_consumed_fact_families : list bytes;
  pd_produced_fact_families : list bytes;
  pd_catalog_versions : list Z;
  pd_dependencies : list bytes;
  pd_scope : PassScope;
  pd_traversal : TraversalMode;
  pd_completeness : FactCompleteness;
  pd_trust : FactTrust;
  pd_budget : PassBudget
}.

Definition capability_number (c : FrontendCapability) : Z :=
  match c with cap_ast => 0 | cap_preprocessor => 1 | cap_cfg => 2 | cap_templates => 3 end.
Definition scope_number (s : PassScope) : Z :=
  match s with scope_translation_unit => 0 | scope_main_file => 1 | scope_owned_header => 2 end.
Definition traversal_number (t : TraversalMode) : Z :=
  match t with trav_declaration => 0 | trav_body => 1 | trav_preprocessing => 2 | trav_lifecycle => 3 end.

(** [append_keys], for numbers and for strings. *)
Definition append_numbers (values : list Z) : bytes :=
  to_string (Z.of_nat (length values)) ++ bs ":" ++ mjoin ((λ v, to_string v ++ bs ";") <$> values).
Definition append_strings (values : list bytes) : bytes :=
  to_string (Z.of_nat (length values)) ++ bs ":"
  ++ mjoin ((λ v, to_string (Z.of_nat (length v)) ++ bs ":" ++ v ++ bs ";") <$> values).

Definition stable_key (d : ExtractionPassDescriptor) : bytes :=
  bs "id=" ++ to_string (Z.of_nat (length (pd_id d))) ++ bs ":" ++ pd_id d
  ++ bs "|version=" ++ to_string (pd_version d)
  ++ bs "|capabilities=" ++ append_numbers (capability_number <$> pd_required_capabilities d)
  ++ bs "|inputs=" ++ append_strings (pd_consumed_fact_families d)
  ++ bs "|facts=" ++ append_strings (pd_produced_fact_families d)
  ++ bs "|catalog=" ++ append_numbers (pd_catalog_versions d)
  ++ bs "|dependencies=" ++ append_strings (pd_dependencies d)
  ++ bs "|scope=" ++ to_string (scope_number (pd_scope d))
  ++ bs "|traversal=" ++ to_string (traversal_number (pd_traversal d))
  ++ bs "|completeness=" ++ to_string (Z.of_N (to_underlying (pd_completeness d)))
  ++ bs "|trust=" ++ to_string (Z.of_N (to_underlying (pd_trust d)))
  ++ bs "|budget=" ++ to_string (Z.of_N (max_visited_constructs (pd_budget d))) ++ bs ","
  ++ to_string (Z.of_N (max_emitted_facts (pd_budget d))) ++ bs ","
  ++ to_string (Z.of_N (max_diagnostics (pd_budget d))) ++ bs ","
  ++ to_string (Z.of_N (max_whole_tu_traversals (pd_budget d))) ++ bs ","
  ++ to_string (if declared (pd_budget d) then 1 else 0).

(** An [IndexingPlan] is the list of the pass ids of its steps. *)
Definition IndexingPlan : Type := list bytes.

Definition plan_add (plan : IndexingPlan) (pass_id : bytes) : IndexingPlan := plan ++ [pass_id].

Fixpoint insert_before (plan : IndexingPlan) (anchor pass_id : bytes) : result IndexingPlan :=
  match plan with
  | [] => throw (bs "plan anchor is not registered: " ++ anchor)
  | step :: plan =>
      if decide (step = anchor) then Ok (pass_id :: step :: plan)
      else let! plan := insert_before plan anchor pass_id in Ok (step :: plan)
  end.

Definition plan_contains (plan : IndexingPlan) (pass_id : bytes) : bool :=
  existsb (λ step, bool_decide (step = pass_id)) plan.

(** ** The registry *)

Section registry.
Context {S : Type}.

Definition Runner : Type := option (FrontendSession (S * PassMetrics)) → io (S * PassMetrics) unit.

Record RegistryEntry := Entry {
  entry_descriptor : ExtractionPassDescriptor;
  entry_runner : Runner
}.

Definition find_pass (entries : list RegistryEntry) (id : bytes) : option RegistryEntry :=
  List.find (λ entry, bool_decide (pd_id (entry_descriptor entry) = id)) entries.

(** An empty [std::function] is [None]. *)
Definition register_pass (entries : list RegistryEntry) (d : ExtractionPassDescriptor) (runner : option Runner)
    : result (list RegistryEntry) :=
  let incomplete : result (list RegistryEntry) :=
    throw (bs "invalid extraction pass registration: incomplete metadata") in
  match runner with
  | None => incomplete
  | Some runner =>
      if bool_decide (pd_id d = []) || (pd_version d =? 0) || bool_decide (pd_produced_fact_families d = [])
         || bool_decide (pd_catalog_versions d = []) || negb (declared (pd_budget d))
         || bool_decide ([] ∈ pd_consumed_fact_families d) || bool_decide ([] ∈ pd_produced_fact_families d)
      then incomplete
      else
        match find_pass entries (pd_id d) with
        | Some _ => throw (bs "duplicate extraction pass: " ++ pd_id d)
        | None => Ok (entries ++ [Entry d runner])
        end
  end.

Definition descriptor (entries : list RegistryEntry) (id : bytes) : result ExtractionPassDescriptor :=
  match find_pass entries id with
  | Some entry => Ok (entry_descriptor entry)
  | None => throw (bs "unknown extraction pass: " ++ id)
  end.

Definition stable_key_le (a b : ExtractionPassDescriptor) : Prop := bytes_ltb (stable_key b) (stable_key a) = false.
#[export] Instance stable_key_le_dec : RelDecision stable_key_le.
Proof. intros a b. unfold stable_key_le. apply _. Defined.

Definition descriptors (entries : list RegistryEntry) : list ExtractionPassDescriptor :=
  merge_sort stable_key_le (entry_descriptor <$> entries).

(** ** Running a plan *)

Record PassExecutionRecord := ExecutionRecord {
  xr_descriptor : ExtractionPassDescriptor;
  xr_metrics : PassMetrics
}.

Definition PassExecutionReport : Type := list PassExecutionRecord.

Definition find_record (report : PassExecutionReport) (id : bytes) : option PassExecutionRecord :=
  List.find (λ record, bool_decide (pd_id (xr_descriptor record) = id)) report.

Definition over_budget (budget : PassBudget) (m : PassMetrics) : bool :=
  (negb (max_visited_constructs budget =? 0) && (max_visited_constructs budget <? visited_constructs m))%N
  || (negb (max_emitted_facts budget =? 0) && (max_emitted_facts budget <? emitted_facts m))%N
  || (negb (max_diagnostics budget =? 0) && (max_diagnostics budget <? diagnostics m))%N
  || (max_whole_tu_traversals budget <? whole_tu_traversals m)%N.

(** A pass may catch [PassBudgetExceeded]: its counters are looked at again. *)
Definition check_budget (budget : PassBudget) : io (S * PassMetrics) unit :=
  do* m := on_metrics (ioget id) in
  if over_budget budget m then
    on_metrics (ioset (λ m, m{{ budget_exhausted := true }})) ;;;
    on_metrics (note_diagnostic (bs "deterministic pass budget exceeded"))
  else ioret tt.

(** The budget that a session gives a pass. *)
Definition effective_budget (session : option (FrontendSession S)) (d : ExtractionPassDescriptor) : PassBudget :=
  match session with
  | Some session => default (pd_budget d) (budget_overrides session !! pd_id d)
  | None => pd_budget d
  end.

Definition run_pass (session : option (FrontendSession S)) (entry : RegistryEntry) : io S PassExecutionRecord :=
  λ s,
    let d := entry_descriptor entry in
    let budget := effective_budget session d in
    match (entry_runner entry (pass_session <$> session) ;;; check_budget budget) (s, bound_metrics (pd_id d) budget) with
    | Returned _ (s, metrics) => Returned (ExecutionRecord d metrics) s
    | Thrown e (s, _) => Thrown e s
    | Escaped message => Escaped message
    end.

Definition run_step (entries : list RegistryEntry) (session : option (FrontendSession S))
    (report : PassExecutionReport) (step : bytes) : io S PassExecutionReport :=
  match find_pass entries step with
  | None => iothrow (Exception (bs "plan references unknown extraction pass: " ++ step))
  | Some entry =>
      let d := entry_descriptor entry in
      match List.find (λ dependency, bool_decide (find_record report dependency = None)) (pd_dependencies d) with
      | Some dependency =>
          iothrow (Exception (bs "pass dependency is not ordered: " ++ pd_id d ++ bs " -> " ++ dependency))
      | None =>
          if bool_decide (is_Some (find_record report (pd_id d)))
          then iothrow (Exception (bs "extraction pass appears twice: " ++ pd_id d))
          else
            match session with
            | None =>
                if bool_decide (pd_required_capabilities d = []) then
                  do* record := run_pass session entry in ioret (report ++ [record])
                else iothrow (FrontendSessionRequired (pd_id d))
            | Some available =>
                match List.find (λ c, negb (supports available c)) (pd_required_capabilities d) with
                | Some c => iothrow (FrontendCapabilityUnavailable (pd_id d) c)
                | None => do* record := run_pass session entry in ioret (report ++ [record])
                end
            end
      end
  end.

Fixpoint run_steps (entries : list RegistryEntry) (session : option (FrontendSession S)) (steps : list bytes)
    (report : PassExecutionReport) : io S PassExecutionReport :=
  match steps with
  | [] => ioret report
  | step :: steps => do* report := run_step entries session report step in run_steps entries session steps report
  end.

Definition run (entries : list RegistryEntry) (plan : IndexingPlan) (session : option (FrontendSession S))
    : io S PassExecutionReport :=
  if bool_decide (plan = []) then iothrow (Exception (bs "an extraction plan must contain a pass"))
  else run_steps entries session plan [].
End registry.
Arguments Runner : clear implicits.
Arguments RegistryEntry : clear implicits.

(** ** Stable keys *)

(** A character that no number contains. *)
Definition separates (c : ascii) : bool :=
  negb (Ascii.eqb c "-"%char) && negb ((48 <=? N_of_ascii c) && (N_of_ascii c <=? 57))%N.

Lemma number_sep_inj c a b (s t : bytes) :
  separates c = true → to_string a ++ c :: s = to_string b ++ c :: t → a = b ∧ s = t.
Proof.
  intros [Hc Hd]%andb_true_iff E.
  assert (∀ z, c ∉ to_string z) as Hz.
  { intros z. apply to_string_sep; [by intros ->|]. intros [H1 H2].
    rewrite (proj2 (N.leb_le _ _) H1), (proj2 (N.leb_le _ _) H2) in Hd. done. }
  apply app_sep_inj in E as [E ->]; [|done..]. split; [by apply (inj to_string)|done].
Qed.

(** A number followed by a fixed text. *)
Lemma number_text_inj (text : bytes) a b (s t : bytes) :
  default false (separates <$> head text) = true →
  to_string a ++ text ++ s = to_string b ++ text ++ t → a = b ∧ s = t.
Proof.
  destruct text as [|c text]; [done|]. intros Hc E. apply number_sep_inj in E as [-> E]; [|done].
  by apply app_inv_head in E.
Qed.

Lemma numbers_inj l k s t :
  length l = length k →
  mjoin ((λ v, to_string v ++ bs ";") <$> l) ++ s = mjoin ((λ v, to_string v ++ bs ";") <$> k) ++ t → l = k ∧ s = t.
Proof.
  revert k. induction l as [|a l IH]; intros [|b k] Hl; try done. cbn [fmap list_fmap mjoin list_join]. app_norm. intros E.
  apply number_text_inj in E as [-> E]; [|done]. apply IH in E as [-> ->]; [done|by injection Hl].
Qed.

Lemma append_numbers_inj l k s t : append_numbers l ++ s = append_numbers k ++ t → l = k ∧ s = t.
Proof.
  unfold append_numbers. app_norm. intros E. apply number_text_inj in E as [Hl E]; [|done].
  apply numbers_inj; [lia|done].
Qed.

Lemma sized_inj (u v s t : bytes) :
  to_string (Z.of_nat (length u)) ++ bs ":" ++ u ++ s = to_string (Z.of_nat (length v)) ++ bs ":" ++ v ++ t → u = v ∧ s = t.
Proof.
  intros E. apply number_text_inj in E as [Hl E]; [|done]. apply app_inj_1 in E; [done|lia].
Qed.

Lemma strings_inj l k s t :
  length l = length k →
  mjoin ((λ v, to_string (Z.of_nat (length v)) ++ bs ":" ++ v ++ bs ";") <$> l) ++ s
  = mjoin ((λ v, to_string (Z.of_nat (length v)) ++ bs ":" ++ v ++ bs ";") <$> k) ++ t → l = k ∧ s = t.
Proof.
  revert k. induction l as [|a l IH]; intros [|b k] Hl; try done. cbn [fmap list_fmap mjoin list_join]. app_norm. intros E.
  apply sized_inj in E as [-> E]. apply app_inv_head in E. apply IH in E as [-> ->]; [done|by injection Hl].
Qed.

Lemma append_strings_inj l k s t : append_strings l ++ s = append_strings k ++ t → l = k ∧ s = t.
Proof.
  unfold append_strings. app_norm. intros E. apply number_text_inj in E as [Hl E]; [|done].
  apply strings_inj; [lia|done].
Qed.

#[export] Instance capability_number_inj : Inj (=) (=) capability_number.
Proof. by intros [] []. Qed.
#[export] Instance scope_number_inj : Inj (=) (=) scope_number.
Proof. by intros [] []. Qed.
#[export] Instance traversal_number_inj : Inj (=) (=) traversal_number.
Proof. by intros [] []. Qed.
Lemma completeness_number_inj (a b : FactCompleteness) : Z.of_N (to_underlying a) = Z.of_N (to_underlying b) → a = b.
Proof. by destruct a, b. Qed.
Lemma trust_number_inj (a b : FactTrust) : Z.of_N (to_underlying a) = Z.of_N (to_underlying b) → a = b.
Proof. by destruct a, b. Qed.

Lemma bit_inj (a b : bool) : (if a then 1 else 0) = (if b then 1 else 0) → a = b.
Proof. by destruct a, b. Qed.

Lemma stable_key_inj d d' : stable_key d = stable_key d' → d = d'.
Proof.
  destruct d as [id version caps inputs facts catalog deps scope trav compl trust [b1 b2 b3 b4 b5]].
  destruct d' as [id' version' caps' inputs' facts' catalog' deps' scope' trav' compl' trust' [c1 c2 c3 c4 c5]].
  unfold stable_key. cbn [pd_id pd_version pd_required_capabilities pd_consumed_fact_families pd_produced_fact_families
    pd_catalog_versions pd_dependencies pd_scope pd_traversal pd_completeness pd_trust pd_budget
    max_visited_constructs max_emitted_facts max_diagnostics max_whole_tu_traversals declared].
  intros E. apply app_inv_head in E. apply sized_inj in E as [-> E]. apply app_inv_head in E.
  apply number_text_inj in E as [-> E]; [|done].
  apply append_numbers_inj in E as [Hc E]. apply (inj (fmap capability_number)) in Hc as ->. apply app_inv_head in E.
  apply append_strings_inj in E as [-> E]. apply app_inv_head in E.
  apply append_strings_inj in E as [-> E]. apply app_inv_head in E.
  apply append_numbers_inj in E as [-> E]. apply app_inv_head in E.
  apply append_strings_inj in E as [-> E]. apply app_inv_head in E.
  apply number_text_inj in E as [->%(inj scope_number) E]; [|done].
  apply number_text_inj in E as [->%(inj traversal_number) E]; [|done].
  apply number_text_inj in E as [->%completeness_number_inj E]; [|done].
  apply number_text_inj in E as [->%trust_number_inj E]; [|done].
  apply number_text_inj in E as [->%(inj Z.of_N) E]; [|done].
  apply number_text_inj in E as [->%(inj Z.of_N) E]; [|done].
  apply number_text_inj in E as [->%(inj Z.of_N) E]; [|done].
  apply number_text_inj in E as [->%(inj Z.of_N) E]; [|done].
  apply (inj to_string), bit_inj in E as ->. done.
Qed.

#[export] Instance stable_key_order : LtbOrder (λ a b, bytes_ltb (stable_key a) (stable_key b)).
Proof. apply (@key_order _ bytes_ltb _ _ stable_key). exact stable_key_inj. Qed.

(** The stable key of a descriptor identifies it, so a registry lists its
    descriptors in one order, whatever order they were registered in. *)
Lemma descriptors_exact {S} (entries entries' : list (RegistryEntry S)) :
  (∀ d d', stable_key d = stable_key d' ↔ d = d') ∧
  descriptors entries ≡ₚ entry_descriptor <$> entries ∧
  (entries ≡ₚ entries' → descriptors entries = descriptors entries').
Proof.
  split; [|split].
  - intros d d'. split; [apply stable_key_inj|by intros ->].
  - apply merge_sort_Permutation.
  - intros Hp. apply (sort_proper (λ a b, bytes_ltb (stable_key a) (stable_key b))). by rewrite Hp.
Qed.

(** ** Computations *)

Section computations.
Context {S : Type}.

Lemma iobind_Returned {A B} (m : io S A) (k : A → io S B) s b s' :
  iobind m k s = Returned b s' ↔ ∃ a s1, m s = Returned a s1 ∧ k a s1 = Returned b s'.
Proof.
  unfold iobind. split; [destruct (m s) as [a s1| |]; [eauto|done..]|]. by intros (a & s1 & -> & H).
Qed.

(** [holds P o]: the state that an outcome leaves, if it is known, satisfies [P]. *)
Definition holds {A} (P : S → Prop) (o : outcome S A) : Prop :=
  match o with
  | Returned _ s | Thrown _ s => P s
  | Escaped _ => True
  end.

Definition keeps {A} (P : S → Prop) (m : io S A) : Prop := ∀ s, P s → holds P (m s).

Lemma keeps_ret {A} P (a : A) : keeps P (ioret a).
Proof. by intros s. Qed.
Lemma keeps_throw {A} P e : keeps P (iothrow e : io S A).
Proof. by intros s. Qed.
Lemma keeps_get {A} P (f : S → A) : keeps P (ioget f).
Proof. by intros s. Qed.
Lemma keeps_set P f : (∀ s, P s → P (f s)) → keeps P (ioset f).
Proof. intros Hf s Hs. by apply Hf. Qed.
Lemma keeps_bind {A B} P (m : io S A) (k : A → io S B) :
  keeps P m → (∀ a, keeps P (k a)) → keeps P (iobind m k).
Proof.
  intros Hm Hk s Hs. specialize (Hm s Hs). unfold iobind. destruct (m s) as [a s1|e s1|]; [by apply Hk|done..].
Qed.
Lemma keeps_catch {A} P (m : io S A) h : keeps P m → (∀ e, keeps P (h e)) → keeps P (iocatch m h).
Proof.
  intros Hm Hh s Hs. specialize (Hm s Hs). unfold iocatch. destruct (m s) as [a s1|e s1|]; [done|by apply Hh|done].
Qed.
End computations.

(** ** Passes that use their ports *)

(** The methods of the metrics that a pass calls. *)
Inductive metric_call : ∀ A, io PassMetrics A → Prop :=
| call_note_visited n : metric_call unit (note_visited n)
| call_note_unknown n : metric_call unit (note_unknown n)
| call_note_duplicate n : metric_call unit (note_duplicate n)
| call_note_fact_family family a b c : metric_call unit (note_fact_family family a b c)
| call_note_diagnostic message : metric_call unit (note_diagnostic message)
| call_note_whole_tu_traversal n : metric_call unit (note_whole_tu_traversal n)
| call_read A (f : PassMetrics → A) : metric_call A (ioget f).

Section ports.
Context {S : Type} (session : FrontendSession S).

Definition resolver_port (r : DeclarationIdentityResolver S) : Prop :=
  Some r ∈ [dp_resolver <$> declaration_ports session; sp_resolver <$> statement_ports session;
            np_resolver <$> namespace_ports session].
Definition relations_port (r : RelationFactEmitter S) : Prop :=
  Some r ∈ [dp_relations <$> declaration_ports session; sp_relations <$> statement_ports session;
            np_relations <$> namespace_ports session].
Definition types_port (t : TypeFactEmitter S) : Prop :=
  Some t ∈ [dp_types <$> declaration_ports session; sp_types <$> statement_ports session].

(** The operations of the ports of a session. *)
Inductive port_call : ∀ A, io S A → Prop :=
| call_lookup r usr source : resolver_port r → port_call (option Z) (port_lookup_symbol_id r usr source)
| call_mint r request : resolver_port r → port_call Z (port_mint_symbol r request)
| call_file r path : resolver_port r → port_call (option Z) (port_file_id_for_path r path)
| call_candidates r name q : resolver_port r → port_call (list TypeArgCandidate) (port_type_arg_candidates r name q)
| call_ids r name kind : resolver_port r → port_call (list Z) (port_symbol_ids_by_qual_name_kind r name kind)
| call_add_edge r edge : relations_port r → port_call Z (port_add_edge r edge)
| call_ensure_edge r edge : relations_port r → port_call Z (port_ensure_edge r edge)
| call_edge_site r site : relations_port r → port_call unit (port_add_edge_site r site)
| call_call_arg r arg : relations_port r → port_call unit (port_add_call_arg r arg)
| call_template_param r param : relations_port r → port_call unit (port_add_template_param r param)
| call_template_arg r arg : relations_port r → port_call unit (port_add_template_arg r arg)
| call_type_node t node : types_port t → port_call Z (port_intern_type_node t node)
| call_type_edge t a b c d : types_port t → port_call unit (port_add_type_edge t a b c d)
| call_parameters t owner l : types_port t → port_call unit (port_replace_parameters t owner l)
| call_symbol_type t a b c : types_port t → port_call unit (port_add_symbol_type t a b c)
| call_evidence e record : evidence session = Some e → port_call unit (e record)
| call_statement_evidence p record : statement_ports session = Some p → port_call unit (sp_evidence p record)
| call_intent e intent : presentation_intents session = Some e → port_call unit (e intent)
| call_definition d a b c x y z t :
    definition_ports session = Some d → port_call Z (port_get_or_create_definition d a b c x y z t)
| call_def_edge d a b c : definition_ports session = Some d → port_call unit (port_add_def_edge d a b c)
| call_body_edges d a : definition_ports session = Some d → port_call nat (port_body_edge_count d a)
| call_copy_edges d a b : definition_ports session = Some d → port_call unit (port_copy_body_edges_to_def_edge d a b)
| call_current_file l a : lifecycle session = Some l → port_call unit (port_set_current_file_id l a)
| call_unit_config l a : lifecycle session = Some l → port_call unit (port_set_identity_translation_unit_config_id l a)
| call_unit_file l a : lifecycle session = Some l → port_call unit (port_set_identity_translation_unit_file_id l a)
| call_delete_edges l a : lifecycle session = Some l → port_call unit (port_delete_edges_for_file l a)
| call_delete_definitions l a : lifecycle session = Some l → port_call unit (port_delete_definitions_for_file l a).
End ports.

(** A pass touches the state and the metrics through these only; it may throw and
    catch exceptions. *)
Inductive uses {S} (session : FrontendSession (S * PassMetrics)) : ∀ A, io (S * PassMetrics) A → Prop :=
| uses_return A (a : A) : uses session A (ioret a)
| uses_throw A e : uses session A (iothrow e)
| uses_bind A B m k : uses session A m → (∀ a, uses session B (k a)) → uses session B (iobind m k)
| uses_catch A m h : uses session A m → (∀ e, uses session A (h e)) → uses session A (iocatch m h)
| uses_metric A m : metric_call A m → uses session A (on_metrics m)
| uses_port A m : port_call session A m → uses session A m.

(** A runner that uses the ports it is given, whether it has a session or not. *)
Definition port_pass {S} (runner : Runner S) : Prop :=
  ∀ session, uses (default (Session false false None None None None None None None false false ∅) session) unit
               (runner session).

Section keeping.
Context {S : Type} (session : FrontendSession (S * PassMetrics)) (P : S * PassMetrics → Prop).

Lemma uses_keeps A c :
  (∀ A m, metric_call A m → keeps P (on_metrics m)) → (∀ A m, port_call session A m → keeps P m) →
  uses session A c → keeps P c.
Proof.
  intros Hm Hp. induction 1 as [A a|A e|A B m k _ IHm _ IHk|A m h _ IHm _ IHh|A m Hc|A m Hc].
  - apply keeps_ret.
  - apply keeps_throw.
  - by apply keeps_bind.
  - by apply keeps_catch.
  - by apply Hm.
  - by apply Hp.
Qed.
End keeping.

(** ** What a run has gone through *)

Section runs.
Context {S : Type}.
Implicit Types (entries : list (RegistryEntry S)) (report : PassExecutionReport) (session : option (FrontendSession S)).

Definition record_ids report : list bytes := (λ r, pd_id (xr_descriptor r)) <$> report.

Lemma find_pass_Some entries id entry :
  find_pass entries id = Some entry → entry ∈ entries ∧ pd_id (entry_descriptor entry) = id.
Proof.
  intros [Hin Hid]%List.find_some. split; [by apply list_elem_of_In|]. by apply bool_decide_eq_true in Hid.
Qed.

Lemma find_record_is_Some report id : is_Some (find_record report id) ↔ id ∈ record_ids report.
Proof.
  unfold find_record, record_ids. rewrite list_elem_of_fmap. split.
  - intros [r [Hin Hid]%List.find_some]. exists r. apply bool_decide_eq_true in Hid.
    split; [done|by apply list_elem_of_In].
  - intros (r & -> & Hin). destruct (List.find _ report) eqn:E; [done|].
    apply list_elem_of_In in Hin. apply (List.find_none _ _ E), bool_decide_eq_false in Hin. done.
Qed.

Lemma find_None_Forall {A} (f : A → bool) (l : list A) : List.find f l = None ↔ Forall (λ x, f x = false) l.
Proof.
  rewrite Forall_forall. split.
  - intros E x Hx. apply (List.find_none _ _ E). by apply list_elem_of_In.
  - intros H. destruct (List.find f l) as [x|] eqn:E; [|done]. apply List.find_some in E as [Hin Hx].
    apply list_elem_of_In in Hin. by rewrite (H x Hin) in Hx.
Qed.

(** The metrics are within the budget, or say that they are not. *)
Definition accounted (budget : PassBudget) (m : PassMetrics) : Prop :=
  over_budget budget m = false ∨ budget_exhausted m = true.

(** A step that may come after the passes of [done]. *)
Definition step_admitted session (done : list bytes) (d : ExtractionPassDescriptor) : Prop :=
  pd_id d ∉ done ∧ Forall (λ dependency, dependency ∈ done) (pd_dependencies d) ∧
  match session with
  | Some available => Forall (λ c, supports available c = true) (pd_required_capabilities d)
  | None => pd_required_capabilities d = []
  end.

(** [run_step] runs a pass exactly if its step is admitted. *)
Lemma run_step_admitted entries session report step entry :
  find_pass entries step = Some entry → step_admitted session (record_ids report) (entry_descriptor entry) →
  run_step entries session report step = (do* record := run_pass session entry in ioret (report ++ [record])).
Proof.
  intros Hf (Hnew & Hdeps & Hcaps). unfold run_step. rewrite Hf. cbv zeta.
  rewrite (proj2 (find_None_Forall _ _)).
  2:{ eapply Forall_impl; [exact Hdeps|]. intros dep Hdep%find_record_is_Some. apply bool_decide_eq_false.
      destruct Hdep as [? ->]. done. }
  rewrite bool_decide_eq_false_2 by (by rewrite find_record_is_Some).
  destruct session as [available|].
  - rewrite (proj2 (find_None_Forall _ _)); [done|]. eapply Forall_impl; [exact Hcaps|]. by intros c ->.
  - by rewrite bool_decide_eq_true_2.
Qed.

Lemma run_step_inv entries session report step s report' s' :
  run_step entries session report step s = Returned report' s' →
  ∃ entry record, find_pass entries step = Some entry ∧
    step_admitted session (record_ids report) (entry_descriptor entry) ∧
    run_pass session entry s = Returned record s' ∧ report' = report ++ [record].
Proof.
  unfold run_step. destruct (find_pass entries step) as [entry|] eqn:Hf; [|done]. cbv zeta.
  destruct (List.find _ (pd_dependencies _)) eqn:Hd; [done|].
  destruct (bool_decide (is_Some _)) eqn:Hn; [done|]. apply bool_decide_eq_false in Hn.
  rewrite find_record_is_Some in Hn. rewrite find_None_Forall in Hd.
  assert (Forall (λ dependency, dependency ∈ record_ids report) (pd_dependencies (entry_descriptor entry))) as Hdeps.
  { eapply Forall_impl; [exact Hd|]. intros dep Hdep%bool_decide_eq_false. apply find_record_is_Some.
    by apply not_eq_None_Some. }
  intros H. assert (∃ record, run_pass session entry s = Returned record s' ∧ report' = report ++ [record] ∧
    step_admitted session (record_ids report) (entry_descriptor entry)) as (record & ? & ? & ?); [|by exists entry, record].
  destruct session as [available|].
  - destruct (List.find _ (pd_required_capabilities _)) eqn:Hc; [done|]. rewrite find_None_Forall in Hc.
    apply iobind_Returned in H as (record & s1 & Hr & [= <- <-]). exists record. split_and!; [done..|].
    split; [done|]. split; [done|]. eapply Forall_impl; [exact Hc|]. intros c Hs. by apply negb_false_iff.
  - destruct (bool_decide (pd_required_capabilities _ = [])) eqn:Hc; [|done]. apply bool_decide_eq_true in Hc.
    apply iobind_Returned in H as (record & s1 & Hr & [= <- <-]). by exists record.
Qed.

Lemma on_metrics_Returned {A} (m : io PassMetrics A) (s : S) metrics a t :
  on_metrics m (s, metrics) = Returned a t ↔ ∃ metrics', m metrics = Returned a metrics' ∧ t = (s, metrics').
Proof. unfold on_metrics. destruct (m metrics); naive_solver. Qed.

Lemma run_pass_accounted session entry s record s' :
  run_pass session entry s = Returned record s' →
  xr_descriptor record = entry_descriptor entry ∧
  accounted (effective_budget session (entry_descriptor entry)) (xr_metrics record).
Proof.
  unfold run_pass. cbv zeta. set (budget := effective_budget _ _). unfold iobind at 1.
  destruct (entry_runner entry _ _) as [[] [s1 m1]|e [s1 m1]|]; [|done..].
  destruct (check_budget budget (s1, m1)) as [[] [s2 m2]|e [s2 m2]|] eqn:Hc; [|done..]. intros [= <- <-].
  split; [done|]. cbn [xr_metrics]. unfold check_budget in Hc.
  apply iobind_Returned in Hc as (m & t & Hg & Hc). injection Hg as <- <-. unfold id in Hc.
  destruct (over_budget budget m1) eqn:Ho; [|left; by injection Hc as <- <-]. right.
  apply iobind_Returned in Hc as ([] & t & Hset & Hc). injection Hset as <-.
  apply on_metrics_Returned in Hc as (m' & Hd & [= <- <-]). unfold note_diagnostic in Hd.
  apply iobind_Returned in Hd as ([] & m3 & Hset & Hd). injection Hset as <-.
  apply iobind_Returned in Hd as (m4 & m5 & Hg & Hd). injection Hg as <- <-. unfold enforce in Hd.
  destruct (_ && _); [by apply iobind_Returned in Hd as ([] & ? & [= <-] & ?)|by injection Hd as <-].
Qed.

Lemma run_steps_inv entries session steps report s report' s' :
  run_steps entries session steps report s = Returned report' s' →
  ∃ more, report' = report ++ more ∧ record_ids more = steps ∧
    ∀ i record, more !! i = Some record → ∃ entry, entry ∈ entries ∧
      entry_descriptor entry = xr_descriptor record ∧
      step_admitted session (record_ids report ++ take i steps) (xr_descriptor record) ∧
      accounted (effective_budget session (xr_descriptor record)) (xr_metrics record).
Proof.
  revert report s. induction steps as [|step steps IH]; intros report s H; cbn in H.
  { injection H as <- <-. exists []. by rewrite app_nil_r. }
  apply iobind_Returned in H as (report1 & s1 & H1 & H).
  apply run_step_inv in H1 as (entry & record & Hf & Ha & Hr & ->).
  apply run_pass_accounted in Hr as [Hd Hacc]. apply find_pass_Some in Hf as [Hin Hid].
  destruct (IH _ _ H) as (more & -> & Hids & Hall). exists (record :: more).
  assert (record_ids (record :: more) = step :: steps) as Hids'.
  { unfold record_ids in *. cbn. by rewrite Hids, Hd, Hid. }
  split; [by rewrite <-app_assoc|]. split; [done|]. intros [|i] r Hi.
  - injection Hi as <-. exists entry. rewrite Hd. cbn. rewrite app_nil_r. done.
  - destruct (Hall i r Hi) as (e & ? & ? & Hadm & ?). exists e. split_and!; [done..| |done].
    cbn [take]. unfold record_ids in Hadm at 1. rewrite fmap_app in Hadm. cbn in Hadm. rewrite Hd, Hid, <-app_assoc in Hadm.
    done.
Qed.

Lemma run_report_ids entries plan session s report s' :
  run entries plan session s = Returned report s' → record_ids report = plan.
Proof.
  unfold run. destruct (bool_decide _); [done|]. by intros (more & -> & Hids & _)%run_steps_inv.
Qed.

(** C22: A completed run has gone through the plan: its report lists the passes of the
    plan in order, each once, each registered, after the passes it depends on and
    with its capabilities supported; and its metrics are within the budget of the
    pass or marked as exhausted. *)
Theorem run_report_exact entries plan session s report s' :
  run entries plan session s = Returned report s' →
  plan ≠ [] ∧ record_ids report = plan ∧ NoDup plan ∧
  ∀ i record, report !! i = Some record →
    (∃ entry, entry ∈ entries ∧ entry_descriptor entry = xr_descriptor record) ∧
    step_admitted session (take i plan) (xr_descriptor record) ∧
    accounted (effective_budget session (xr_descriptor record)) (xr_metrics record).
Proof.
  unfold run. destruct (bool_decide (plan = [])) eqn:Hp; [done|]. apply bool_decide_eq_false in Hp.
  intros (more & -> & Hids & Hall)%run_steps_inv. change (record_ids []) with (@nil bytes) in Hall. cbn [app] in *. split; [done|]. split; [done|]. split.
  - apply NoDup_alt. intros i j id Hi Hj. rewrite <-Hids in Hi, Hj.
    assert (∀ i j, (i < j)%nat → record_ids more !! i = Some id → record_ids more !! j = Some id → False) as Hlt.
    { intros k l Hkl Hk Hl. unfold record_ids in Hl. rewrite list_lookup_fmap in Hl.
      destruct (more !! l) as [r|] eqn:Hr; [|done]. injection Hl as Hl.
      destruct (Hall l r Hr) as (_ & _ & _ & (Hnew & _) & _). apply Hnew. rewrite Hl.
      apply list_elem_of_lookup. exists k. rewrite lookup_take_lt by done. rewrite <-Hids. exact Hk. }
    destruct (Nat.lt_trichotomy i j) as [?|[?|?]]; [exfalso; by eapply Hlt|done|exfalso; by eapply (Hlt j i)].
  - intros i record Hi. destruct (Hall i record Hi) as (e & ? & ? & ? & ?). split; [by exists e|]. done.
Qed.

(** *** When a run completes *)

(** A plan that the registry and the session admit. *)
Fixpoint plan_admitted entries session (done steps : list bytes) : Prop :=
  match steps with
  | [] => True
  | step :: steps =>
      (∃ entry, find_pass entries step = Some entry ∧ step_admitted session done (entry_descriptor entry)) ∧
      plan_admitted entries session (done ++ [step]) steps
  end.

(** A pass that returns and stays within its budget. *)
Definition pass_returns session (entry : RegistryEntry S) : Prop :=
  ∀ s, ∃ s' m', entry_runner entry (pass_session <$> session)
      (s, bound_metrics (pd_id (entry_descriptor entry)) (effective_budget session (entry_descriptor entry)))
    = Returned tt (s', m') ∧ over_budget (effective_budget session (entry_descriptor entry)) m' = false.

(** C23: A run completes exactly if its plan is admitted: provided every registered
    pass returns within its budget, [run] gives a report if and only if the plan is
    not empty and its steps are registered, distinct, after what they depend on and
    supported by the session. *)
Theorem run_completes entries plan session :
  Forall (pass_returns session) entries →
  ∀ s, (∃ report s', run entries plan session s = Returned report s') ↔
       plan ≠ [] ∧ plan_admitted entries session [] plan.
Proof.
  intros Hall s. unfold run. destruct (bool_decide (plan = [])) eqn:Hp.
  { apply bool_decide_eq_true in Hp as ->. split; [by intros (? & ? & ?)|by intros [? _]]. }
  apply bool_decide_eq_false in Hp.
  assert (∀ steps report s, (∃ report' s', run_steps entries session steps report s = Returned report' s') ↔
    plan_admitted entries session (record_ids report) steps) as Hsteps; [|rewrite Hsteps; cbn; naive_solver].
  clear Hp plan s. induction steps as [|step steps IH]; intros report s; cbn.
  { split; [done|]. intros _. by exists report, s. }
  split.
  - intros (report' & s' & H). apply iobind_Returned in H as (report1 & s1 & H1 & H).
    apply run_step_inv in H1 as (entry & record & Hf & Ha & Hr & ->). split; [by exists entry|].
    apply run_pass_accounted in Hr as [Hd _]. destruct (find_pass_Some _ _ _ Hf) as [_ Hid].
    replace (record_ids report ++ [step]) with (record_ids (report ++ [record])).
    + apply (IH _ s1). by exists report', s'.
    + unfold record_ids. rewrite fmap_app. cbn. by rewrite Hd, Hid.
  - intros [(entry & Hf & Ha) Hrest]. destruct (find_pass_Some _ _ _ Hf) as [Hin Hid].
    rewrite Forall_forall in Hall. destruct (Hall entry Hin s) as (s1 & m1 & Hr & Ho).
    assert (run_pass session entry s = Returned (ExecutionRecord (entry_descriptor entry) m1) s1) as Hpass.
    { unfold run_pass. cbv zeta. unfold iobind. rewrite Hr. unfold check_budget, iobind. cbn. unfold id. by rewrite Ho. }
    destruct (proj2 (IH (report ++ [ExecutionRecord (entry_descriptor entry) m1]) s1)) as (report' & s' & H).
    { unfold record_ids. rewrite fmap_app. cbn. by rewrite Hid. }
    exists report', s'. unfold iobind at 1. rewrite (run_step_admitted _ _ _ _ _ Hf Ha). unfold iobind at 1.
    by rewrite Hpass.
Qed.
End runs.

(** ** A sample registry *)

Definition sample_descriptor (id : bytes) (dependencies : list bytes) : ExtractionPassDescriptor :=
  PassDescriptor id 1 [] [] [bs "facts"] [1] dependencies scope_translation_unit trav_declaration complete trusted
    (Budget 0 5 0 0 true).

(** The state counts the passes. *)
Definition counting_runner : Runner nat :=
  λ _, on_ports (ioset Datatypes.S) ;;; on_metrics (note_emitted 2).

Definition sample_registry : list (RegistryEntry nat) :=
  [Entry (sample_descriptor (bs "b") [bs "a"]) counting_runner; Entry (sample_descriptor (bs "a") []) counting_runner].

Example registered :
  (let! entries := register_pass [] (sample_descriptor (bs "b") [bs "a"]) (Some counting_runner) in
   register_pass entries (sample_descriptor (bs "a") []) (Some counting_runner)) = Ok sample_registry ∧
  register_pass sample_registry (sample_descriptor (bs "a") []) (Some counting_runner)
  = Err (bs "duplicate extraction pass: a").
Proof. done. Qed.

Lemma run_report_exact_witness :
  ∃ report, run sample_registry [bs "a"; bs "b"] None 0%nat = Returned report 2%nat ∧ record_ids report = [bs "a"; bs "b"] ∧
    NoDup [bs "a"; bs "b"].
Proof.
  destruct (run sample_registry [bs "a"; bs "b"] None 0%nat) as [report s| |] eqn:E; [|by vm_compute in E..].
  assert (s = 2%nat) as -> by (vm_compute in E; by injection E).
  destruct (run_report_exact sample_registry [bs "a"; bs "b"] None 0%nat report 2%nat E) as (_ & Hids & Hnd & _).
  by exists report.
Defined.

Lemma run_completes_witness :
  (∃ report s', run sample_registry [bs "a"; bs "b"] None 0%nat = Returned report s') ∧
  ¬ (∃ report s', run sample_registry [bs "b"; bs "a"] None 0%nat = Returned report s').
Proof.
  assert (Forall (pass_returns None) sample_registry) as Hall by (repeat constructor; intros s; by eexists _, _).
  split.
  - apply (run_completes sample_registry [bs "a"; bs "b"] None Hall 0%nat). split; [done|]. split; [|split; [|done]].
    + exists (Entry (sample_descriptor (bs "a") []) counting_runner). split; [done|]. split; [by intros ?%elem_of_nil|by split].
    + exists (Entry (sample_descriptor (bs "b") [bs "a"]) counting_runner). split; [done|].
      split; [by intros ?%list_elem_of_singleton|]. split; [|done]. constructor; [by left|done].
  - rewrite (run_completes sample_registry [bs "b"; bs "a"] None Hall 0%nat). intros [_ [(entry & Hf & _ & Hd & _) _]].
    injection Hf as <-. apply Forall_cons in Hd as [Hd _]. by apply elem_of_nil in Hd.
Defined.
