(* ===== verification/Extraction.v ===== *)
(** * Serial extraction: [src/src/ast/fact_extraction.cpp]

    [extract_serial_fact_batch] makes the recorder the ports of a session, routes it,
    runs the plan and returns the canonical batch or the reason there is none.

    [extraction_exact] says what the result is for passes that use their ports,
    [emission_budget_bounds] that a pass with an emission budget adds no more facts
    than it, whatever the pass catches, and [planned_route_valid] that the routes of
    [OwnedHeaders] are accepted. *)

From S2P Require Export RecorderLaws.
From S2P Require Export OwnedHeaders.
From S2P Require Export PassRegistry.
From coqutil Require Import Datatypes.RecordSetters.
Import DoubleBraceUpdate.
Open Scope Z_scope.

(** ** Results *)

Inductive FactExtractionFailureKind := invalid_route | pass_failed | budget_exceeded | prepublication_failed.

Record FactExtractionFailure := Failure {
  failure_kind : FactExtractionFailureKind;
  failure_pass : bytes;
  failure_detail : bytes
}.

Record SerialFactExtractionResult := ExtractionResult {
  result_batch : option FactBatch;
  result_report : PassExecutionReport;
  result_failure : option FactExtractionFailure
}.

Definition extraction_ok (r : SerialFactExtractionResult) : bool :=
  match result_batch r, result_failure r with Some _, None => true | _, _ => false end.

Definition failed (report : PassExecutionReport) (kind : FactExtractionFailureKind) (pass detail : bytes)
    : SerialFactExtractionResult :=
  ExtractionResult None report (Some (Failure kind pass detail)).

(** The completeness with the greatest number; a report is not empty. *)
Definition report_completeness (report : PassExecutionReport) : FactCompleteness :=
  foldl (λ c record, let d := pd_completeness (xr_descriptor record) in
                     if (to_underlying c <? to_underlying d)%N then d else c) complete report.

Section extraction.
Context `{IdentityStore Store} (attempts : nat).
Abbreviation Rec := (FactBatchRecorder Store).

(** ** The recorder as ports *)

Definition upcast {A} (c : recorder Store A) : io Rec A :=
  λ s, match c s with
       | Ok (a, s) => Returned a s
       | Err message => Escaped message
       end.

Definition recorder_resolver : DeclarationIdentityResolver Rec :=
  Resolver (λ usr source, upcast (lookup_symbol_id stable_fact_hash attempts usr source))
    (λ request, upcast (mint_symbol stable_fact_hash attempts request))
    (λ path, upcast (file_id_for_path path))
    (λ name qualified, upcast (type_arg_candidates name qualified))
    (λ qual_name kind_name, upcast (symbol_ids_by_qual_name_kind qual_name kind_name)).

Definition recorder_relations : RelationFactEmitter Rec :=
  Relations (λ edge, upcast (add_edge stable_fact_hash attempts edge))
    (λ edge, upcast (ensure_edge stable_fact_hash attempts edge))
    (λ site, upcast (add_edge_site site)) (λ arg, upcast (add_call_arg arg))
    (λ param, upcast (add_template_param param)) (λ arg, upcast (add_template_arg arg)).

Definition recorder_types : TypeFactEmitter Rec :=
  Types (λ node, upcast (intern_type_node stable_fact_hash attempts node))
    (λ src kind position dst, upcast (add_type_edge src kind position dst))
    (λ owner parameters, upcast (replace_parameters owner parameters))
    (λ symbol kind type, upcast (add_symbol_type symbol kind type)).

Definition recorder_definitions : DefinitionScopeEmitter Rec :=
  Definitions
    (λ symbol file line col end_line end_col init_text,
       upcast (get_or_create_definition stable_fact_hash attempts symbol file line col end_line end_col init_text))
    (λ definition destination kind, upcast (add_def_edge definition destination kind))
    (λ symbol, upcast (body_edge_count symbol))
    (λ definition symbol, upcast (copy_body_edges_to_def_edge definition symbol)).

Definition recorder_lifecycle : IndexingLifecycle Rec :=
  Lifecycle (λ file, upcast (set_current_file_id file))
    (λ unit, upcast (set_identity_translation_unit_config_id unit))
    (λ file, upcast (set_identity_translation_unit_file_id file))
    (λ file, upcast (delete_edges_for_file file)) (λ file, upcast (delete_definitions_for_file file)).

(** The caller's session with the recorder as its ports. *)
Definition recorder_session (session : FrontendSession Rec) : FrontendSession Rec :=
  Session (ast_context session) (preprocessor session)
    (Some (DeclarationPorts recorder_resolver recorder_relations recorder_types))
    (Some (StatementPorts recorder_resolver recorder_relations recorder_types (λ record, upcast (emit_evidence record))))
    (Some (NamespacePorts recorder_resolver recorder_relations))
    (Some recorder_definitions)
    (Some (λ record, upcast (emit_evidence record)))
    (Some (λ intent, upcast (emit_presentation_intent intent)))
    (Some recorder_lifecycle)
    (cfg_builder session) (template_arguments session) (budget_overrides session).

(** ** Extraction *)

Definition valid_route (route : SerialFactRoute) : bool :=
  negb (bool_decide (partitions route = [])) && (main_partition route <? length (partitions route))%nat.

Definition route_entry (entry : FactRoutePartition) : recorder Store unit :=
  set_partition stable_fact_hash attempts (fr_partition entry) (fr_transient_file_handle entry).

(** Every partition of the route, and the main one last. *)
Definition route_recorder (route : SerialFactRoute) : recorder Store unit :=
  rfor (partitions route) route_entry ;;*
  match partitions route !! main_partition route with
  | Some main => route_entry main
  | None => rret tt
  end.

(** The failure of an exception that the two handlers see. *)
Definition failure_of (e : exn) (kind : FactExtractionFailureKind) (report : PassExecutionReport)
    : SerialFactExtractionResult :=
  match e with
  | PassBudgetExceeded pass dimension => failed report budget_exceeded pass dimension
  | e => failed report kind [] (what e)
  end.

(** A probe looks at the recorder and may throw. *)
Definition PrepublicationProbe : Type := option (Rec → option exn).

(** [set_partition] is called outside the handlers: what it throws is the [Err]. *)
Definition extract_serial_fact_batch (session : FrontendSession Rec) (entries : list (RegistryEntry Rec))
    (plan : IndexingPlan) (route : SerialFactRoute) (before_publication : PrepublicationProbe)
    : result SerialFactExtractionResult :=
  if negb (valid_route route)
  then Ok (failed [] invalid_route [] (bs "serial extraction requires a valid main partition"))
  else
    let! (_, recorder) := route_recorder route (new_recorder (bs "serial-extraction")) in
    match run entries plan (Some (recorder_session session)) recorder with
    | Returned report recorder =>
        let! (_, recorder) := set_completeness (report_completeness report) recorder in
        match before_publication ≫= λ probe, probe recorder with
        | Some e => Ok (failure_of e prepublication_failed report)
        | None =>
            match recorder_batch true recorder with
            | Ok batch => Ok (ExtractionResult (Some batch) report None)
            | Err message => Ok (failed report prepublication_failed [] message)
            end
        end
    | Thrown e _ => Ok (failure_of e pass_failed [])
    | Escaped message => Ok (failed [] pass_failed [] message)
    end.
End extraction.

(** ** Facts that an operation adds *)

Definition parameter_count (buckets : gmap Z (FactPartitionKey * list ParameterRecord)) : nat :=
  map_fold (λ _ bucket n, (length bucket.2 + n)%nat) 0%nat buckets.

(** The records of every family but the cleanup intents of the lifecycle. *)
Definition fact_count {Store} (s : FactBatchRecorder Store) : nat :=
  length (symbols_ s) + length (declaration_sites_ s) + length (relations_ s) + length (edge_sites_ s)
  + length (call_args_ s) + length (template_params_ s) + length (template_args_ s) + length (type_nodes_ s)
  + length (type_edges_ s) + parameter_count (parameter_buckets_ s) + length (symbol_types_ s)
  + length (definitions_ s) + length (definition_edges_ s) + length (includes_ s) + length (macros_ s)
  + length (diagnostics_ s) + length (evidence_ s) + length (presentation_intents_ s) + length (applicability_ s).

Lemma parameter_count_insert buckets owner bucket :
  (parameter_count (<[owner := bucket]> buckets) ≤ parameter_count buckets + length bucket.2)%nat.
Proof.
  unfold parameter_count.
  assert (∀ m : gmap Z (FactPartitionKey * list ParameterRecord), m !! owner = None →
    map_fold (λ _ b n, (length b.2 + n)%nat) 0%nat (<[owner := bucket]> m)
    = (length bucket.2 + map_fold (λ _ b n, (length b.2 + n)%nat) 0%nat m)%nat) as Hfresh.
  { intros m Hm. apply (map_fold_insert_L (λ _ (b : FactPartitionKey * list ParameterRecord) n, (length b.2 + n)%nat)); [|done]. intros. lia. }
  destruct (buckets !! owner) as [old|] eqn:E; [|rewrite Hfresh by done; lia].
  rewrite <-insert_delete_eq, Hfresh by apply lookup_delete_eq.
  rewrite (map_fold_delete_L (λ _ (b : FactPartitionKey * list ParameterRecord) n, (length b.2 + n)%nat) 0%nat owner old buckets) by (done || intros; lia).
  lia.
Qed.

(** The head of an application. *)
Ltac head_of c := lazymatch c with ?f _ => head_of f | _ => c end.

Section adds.
Context `{IdentityStore Store} (attempts : nat).
Implicit Types s : FactBatchRecorder Store.

(** [adds n c]: [c] adds at most [n] facts. *)
Definition adds {A} (n : nat) (c : recorder Store A) : Prop :=
  ∀ s a s', c s = Ok (a, s') → (fact_count s' ≤ fact_count s + n)%nat.

Lemma adds_ret {A} n (a : A) : adds n (rret a).
Proof. intros s a' s' [= _ <-]. lia. Qed.
Lemma adds_get {A} n (f : FactBatchRecorder Store → A) : adds n (rget f).
Proof. intros s a' s' [= _ <-]. lia. Qed.
Lemma adds_fail {A} n message : adds n (rfail message : recorder Store A).
Proof. by intros s a s' ?. Qed.
Lemma adds_set n f : (∀ s, (fact_count (f s) ≤ fact_count s + n)%nat) → adds n (rset f).
Proof. intros Hf s a s' [= _ <-]. apply Hf. Qed.
Lemma adds_weaken {A} n k (c : recorder Store A) : adds n c → (n ≤ k)%nat → adds k c.
Proof. intros Hc Hk s a s' Hs. specialize (Hc _ _ _ Hs). lia. Qed.
Lemma adds_then {A B} n k (c : recorder Store A) (f : A → recorder Store B) :
  adds n c → (∀ a, adds k (f a)) → adds (n + k) (rthen c f).
Proof.
  intros Hc Hf s b s' Hs. unfold rthen in Hs. apply rbind_Ok in Hs as ([a s1] & H1 & H2).
  specialize (Hc _ _ _ H1). specialize (Hf _ _ _ _ H2). lia.
Qed.
Lemma adds_after {A B} n (c : recorder Store A) (f : A → recorder Store B) :
  adds 0 c → (∀ a, adds n (f a)) → adds n (rthen c f).
Proof. apply (adds_then 0 n). Qed.
Lemma adds_before {A B} n (c : recorder Store A) (f : A → recorder Store B) :
  adds n c → (∀ a, adds 0 (f a)) → adds n (rthen c f).
Proof. intros Hc Hf. eapply adds_weaken; [by eapply adds_then|lia]. Qed.
Lemma adds_for {A} n (l : list A) (body : A → recorder Store unit) :
  (∀ a, adds n (body a)) → adds (length l * n) (rfor l body).
Proof.
  intros Hb. induction l as [|a l IH]; [apply adds_ret|]. cbn [rfor length Nat.mul]. by apply adds_then.
Qed.
Lemma adds_for_0 {A} (l : list A) (body : A → recorder Store unit) : (∀ a, adds 0 (body a)) → adds 0 (rfor l body).
Proof. intros Hb. eapply adds_weaken; [by apply adds_for|lia]. Qed.
Lemma adds_identities {A} n f : adds n (with_identities f : recorder Store A).
Proof. intros s a s' Hs. apply rbind_Ok in Hs as ([a' ids] & _ & [= _ <-]). destruct s; unfold fact_count; cbn; lia. Qed.
Lemma adds_payload n r : adds n (append_payload r).
Proof. intros s a s' Hs. apply rbind_Ok in Hs as ([a' p] & _ & [= _ <-]). destruct s; unfold fact_count; cbn; lia. Qed.
Lemma adds_symbol_at n position : adds n (symbol_at position).
Proof. intros s a s' Hs. unfold symbol_at in Hs. destruct (_ !! _); [|done]. injection Hs as _ <-. lia. Qed.

Lemma adds_counted n operation k : adds n (counted operation k).
Proof. apply adds_set. intros s. destruct s; unfold fact_count; cbn; lia. Qed.
Lemma adds_touched n operation k : adds n (touched operation k).
Proof. apply adds_set. intros s. destruct s; unfold fact_count; cbn; lia. Qed.

(** An update of known members. *)
Ltac count_members :=
  let s := fresh in intros s; destruct s; unfold fact_count; cbn;
  repeat match goal with
    | |- context [let '(_, _) := ?x in _] => destruct x; cbn
    | |- context [length (_ ++ _)] => rewrite length_app; cbn
    | |- context [length (alter _ _ _)] => rewrite length_alter
    end; lia.

Ltac add_facts :=
  repeat first
    [ assumption
    | apply adds_ret | apply adds_get | apply adds_fail | apply adds_identities | apply adds_payload
    | apply adds_symbol_at | apply adds_counted | apply adds_touched
    | match goal with |- adds _ (rset _) => apply adds_set; solve [count_members] end
    | match goal with |- adds _ (rfor _ _) => apply adds_for_0; intros ? end
    | match goal with |- adds _ (match ?x with _ => _ end) => destruct x end
    | match goal with |- adds _ (if ?x then _ else _) => destruct x end
    | match goal with |- adds _ (rthen _ _) => first
        [ apply adds_after; [solve [add_facts]|intros ?]
        | apply adds_before; [|intros ?; solve [add_facts]] ] end
    | match goal with |- adds _ ?c => let h := head_of c in unfold h; cbv zeta end ].

Lemma adds_set_partition partition handle : adds 0 (set_partition stable_fact_hash attempts partition handle).
Proof. add_facts. Qed.
Lemma adds_emit_symbol r : adds 1 (emit_symbol stable_fact_hash attempts r).
Proof. add_facts. Qed.
Lemma adds_write_symbol n position r : adds n (write_symbol position r).
Proof. add_facts. Qed.
Lemma adds_resolve usr source allow : adds 0 (resolve_symbol_id stable_fact_hash attempts usr source allow).
Proof. add_facts. Qed.
Lemma adds_symbols_at positions : adds 0 (symbols_at positions : recorder Store _).
Proof. induction positions as [|p positions IH]; cbn [symbols_at]; add_facts. Qed.

(** The other operations of the ports. *)
Lemma adds_lookup usr source : adds 0 (lookup_symbol_id stable_fact_hash attempts usr source).
Proof. apply adds_resolve. Qed.
Lemma adds_file path : adds 0 (file_id_for_path path : recorder Store _).
Proof. add_facts. Qed.
Lemma adds_candidates name q : adds 0 (type_arg_candidates name q : recorder Store _).
Proof. add_facts. Qed.
Lemma adds_ids name kind : adds 0 (symbol_ids_by_qual_name_kind name kind : recorder Store _).
Proof. add_facts. Qed.
Lemma adds_edge edge : adds 1 (add_edge stable_fact_hash attempts edge).
Proof. add_facts. Qed.
Lemma adds_ensure_edge edge : adds 1 (ensure_edge stable_fact_hash attempts edge).
Proof. add_facts. Qed.
Lemma adds_type_node node : adds 1 (intern_type_node stable_fact_hash attempts node).
Proof. add_facts. Qed.
Lemma adds_definition a b c d e f t : adds 1 (get_or_create_definition stable_fact_hash attempts a b c d e f t).
Proof. add_facts. Qed.
Lemma adds_parameters owner l : adds (length l) (replace_parameters owner l : recorder Store _).
Proof.
  unfold replace_parameters. apply adds_before; [|intros ?; apply adds_counted]. apply adds_set. intros s.
  pose proof (parameter_count_insert (parameter_buckets_ s) owner (current_partition_ s, l)).
  destruct s; unfold fact_count; cbn in *. lia.
Qed.
Lemma adds_edge_site site : adds 1 (add_edge_site site : recorder Store _).
Proof. add_facts. Qed.
Lemma adds_call_arg arg : adds 1 (add_call_arg arg : recorder Store _).
Proof. add_facts. Qed.
Lemma adds_template_param param : adds 1 (add_template_param param : recorder Store _).
Proof. add_facts. Qed.
Lemma adds_template_arg arg : adds 1 (add_template_arg arg : recorder Store _).
Proof. add_facts. Qed.
Lemma adds_type_edge a b c d : adds 1 (add_type_edge a b c d : recorder Store _).
Proof. add_facts. Qed.
Lemma adds_symbol_type a b c : adds 1 (add_symbol_type a b c : recorder Store _).
Proof. add_facts. Qed.
Lemma adds_evidence record : adds 1 (emit_evidence record : recorder Store _).
Proof. add_facts. Qed.
Lemma adds_intent intent : adds 1 (emit_presentation_intent intent : recorder Store _).
Proof. add_facts. Qed.
Lemma adds_def_edge a b c : adds 1 (add_def_edge a b c : recorder Store _).
Proof. add_facts. Qed.
Lemma adds_set_current_file file : adds 0 (set_current_file_id file : recorder Store _).
Proof. add_facts. Qed.
Lemma adds_unit_file file : adds 0 (set_identity_translation_unit_file_id file : recorder Store _).
Proof. add_facts. Qed.
Lemma adds_unit_config unit : adds 0 (set_identity_translation_unit_config_id unit : recorder Store _).
Proof. add_facts. Qed.
Lemma adds_delete kind file : adds 0 (delete_for_file kind file : recorder Store _).
Proof. add_facts. Qed.

(** A mint adds the symbol, or one declaration of it. *)
Lemma adds_mint request : adds 1 (mint_symbol stable_fact_hash attempts request).
Proof.
  unfold mint_symbol. cbv zeta. apply adds_after; [apply adds_resolve|]. intros [id|].
  - apply adds_before; [|intros ?; apply adds_ret]. unfold enrich_minted_symbol.
    apply adds_after; [apply adds_get|]. intros [positions|]; [|apply adds_ret].
    apply adds_after.
    { apply adds_for_0. intros position. apply adds_after; [apply adds_symbol_at|]. intros ?. apply adds_write_symbol. }
    intros _. unfold add_mint_declaration. destruct (mr_decl_line request); [|apply adds_ret].
    destruct positions as [|first positions]; [apply adds_ret|].
    apply adds_after; [apply adds_symbols_at|]. intros records. destruct (existsb _ _); [apply adds_ret|].
    apply adds_after; [apply adds_get|]. intros file. destruct (List.find _ _) as [[p r]|]; [apply adds_write_symbol|].
    apply adds_after; [apply adds_symbol_at|]. intros ?. apply adds_emit_symbol.
  - unfold create_minted_symbol. apply adds_after; [apply adds_get|]. intros file.
    apply adds_before; [apply adds_emit_symbol|]. intros _. apply adds_after; [apply adds_resolve|].
    intros [id|]; [apply adds_ret|apply adds_fail].
Qed.

Lemma adds_body_edge_count symbol : adds 0 (body_edge_count symbol : recorder Store nat).
Proof. add_facts. Qed.

(** Copying adds as many edges as are counted. *)
Lemma adds_copy s definition symbol a s' :
  copy_body_edges_to_def_edge definition symbol s = Ok (a, s') →
  (fact_count s' ≤ fact_count s + length (default [] (body_edge_positions_by_source_ s !! symbol)))%nat.
Proof.
  unfold copy_body_edges_to_def_edge. unfold rthen at 1. cbn [rget rbind].
  destruct (body_edge_positions_by_source_ s !! symbol) as [positions|]; cbn [default].
  2:{ intros Hs. apply (adds_counted 0) in Hs. cbn. lia. }
  intros Hs. rewrite <-(Nat.mul_1_r (length _)). revert Hs. apply (adds_after (length positions * 1)); [apply adds_counted|].
  intros _. apply adds_for. intros position. apply adds_after; [apply adds_get|]. intros [[p e]|]; [|apply adds_fail].
  add_facts.
Qed.

Lemma body_edge_count_spec s symbol n s' :
  body_edge_count symbol s = Ok (n, s') →
  n = length (default [] (body_edge_positions_by_source_ s !! symbol)) ∧
  body_edge_positions_by_source_ s' = body_edge_positions_by_source_ s ∧ fact_count s' = fact_count s.
Proof. intros [= <- <-]. by destruct s. Qed.
End adds.

(** ** Passes over a recorder *)

Section passes.
Context `{IdentityStoreLaws Store} (attempts : nat).
Implicit Types s : FactBatchRecorder Store.
Abbreviation reached := (reachable stable_fact_hash attempts).
Abbreviation op := (operation stable_fact_hash attempts).

(** The recorder is reachable; under an emission budget, no more facts than it were
    added to the [base] that the pass started from. *)
Definition tracked (budget : PassBudget) (base : nat) (t : FactBatchRecorder Store * PassMetrics) : Prop :=
  reached t.1 ∧ budget_ t.2 = budget ∧
  (max_emitted_facts budget ≠ 0%N →
   (N.of_nat (fact_count t.1) ≤ N.of_nat base + N.min (emitted_facts t.2) (max_emitted_facts budget))%N).

Section budget.
Variables (budget : PassBudget) (base : nat).
Abbreviation P := (tracked budget base).

Lemma keeps_on_metrics {A} (m : io PassMetrics A) :
  (∀ s, keeps (λ metrics, P (s, metrics)) m) → keeps P (on_metrics m).
Proof.
  intros Hm [s metrics] Ht. specialize (Hm s metrics Ht). unfold on_metrics.
  by destruct (m metrics).
Qed.

Lemma keeps_enforce Q value limit dimension :
  (∀ m, Q m → Q (m{{ budget_exhausted := true;
                     diagnostic_messages ::= λ l, l ++ [bs "budget exceeded: " ++ bs dimension] }})) →
  keeps Q (enforce value limit dimension).
Proof.
  intros HQ. unfold enforce. destruct (_ && _); [|apply keeps_ret].
  apply keeps_bind; [by apply keeps_set|]. intros _. apply keeps_bind; [apply keeps_get|]. intros ?. apply keeps_throw.
Qed.

Lemma metric_call_keeps A m : metric_call A m → keeps P (on_metrics m).
Proof.
  intros Hm. apply keeps_on_metrics. intros s. unfold tracked. cbn [fst snd].
  destruct Hm; try (apply keeps_set; by intros []); try (by apply keeps_get);
    (apply keeps_bind; [apply keeps_set; by intros []|]; intros _; apply keeps_bind; [apply keeps_get|]; intros m);
    try (apply keeps_enforce; by intros []).
  destruct (_ <? _)%N; [|apply keeps_ret]. apply keeps_bind; [apply keeps_set; by intros []|]. intros _. apply keeps_throw.
Qed.

Lemma note_emitted_spec count metrics :
  budget_ metrics = budget →
  match note_emitted count metrics with
  | Returned _ metrics' => budget_ metrics' = budget ∧ emitted_facts metrics' = (emitted_facts metrics + count)%N ∧
      (max_emitted_facts budget ≠ 0%N → (emitted_facts metrics + count ≤ max_emitted_facts budget)%N)
  | Thrown _ metrics' => budget_ metrics' = budget ∧ emitted_facts metrics' = (emitted_facts metrics + count)%N
  | Escaped _ => False
  end.
Proof.
  intros Hb. unfold note_emitted, iobind, ioset, ioget, enforce, id. destruct metrics. cbn in *. subst.
  destruct (_ && _) eqn:E; cbn; [done|]. split; [done|]. split; [done|]. intros Hn.
  apply N.eqb_neq in Hn. rewrite Hn in E. cbn in E. by apply N.ltb_ge in E.
Qed.

(** An operation that is charged for what it adds. *)
Lemma keeps_charged_at {A} family count (c : recorder Store A) s metrics :
  op A c → (∀ a s', c s = Ok (a, s') → (fact_count s' ≤ fact_count s + N.to_nat count)%nat) →
  P (s, metrics) → holds P (charged family count (upcast c) (s, metrics)).
Proof.
  intros Hop Hadd (Hr & Hb & Hc). unfold charged, iobind, on_metrics at 1. cbn [fst snd] in *.
  pose proof (note_emitted_spec count metrics Hb) as Hn.
  destruct (note_emitted count metrics) as [[] m1|e m1|]; [|split; cbn; [done|]..|done].
  - destruct Hn as (Hb1 & He & Hle). unfold on_ports, upcast. destruct (c s) as [[a s1]|] eqn:Hs; [|done].
    specialize (Hadd a s1 eq_refl). cbn. split; [by eapply reach_step|]. split; [by destruct m1|].
    intros Hne. specialize (Hc Hne). specialize (Hle Hne). destruct m1. cbn in *. lia.
  - destruct Hn as [Hb1 He]. split; [done|]. intros Hne. specialize (Hc Hne). lia.
Qed.

Lemma keeps_charged {A} family count (c : recorder Store A) :
  op A c → adds (N.to_nat count) c → keeps P (charged family count (upcast c)).
Proof. intros Hop Hadd [s metrics] Ht. apply keeps_charged_at; [done|apply Hadd|done]. Qed.

Lemma keeps_forwarded {A} (c : recorder Store A) : op A c → adds 0 c → keeps P (on_ports (upcast c)).
Proof.
  intros Hop Hadd [s metrics] (Hr & Hb & Hc). unfold on_ports, upcast. destruct (c s) as [[a s1]|] eqn:Hs; [|done].
  specialize (Hadd _ _ _ Hs). split; cbn in *; [by eapply reach_step|]. split; [done|]. intros Hne. specialize (Hc Hne). lia.
Qed.

Lemma keeps_copy definition symbol :
  keeps P (port_copy_body_edges_to_def_edge (BudgetedDefinitionScopeEmitter (recorder_definitions attempts)) definition symbol).
Proof.
  intros [s metrics] Ht. cbn [port_copy_body_edges_to_def_edge BudgetedDefinitionScopeEmitter recorder_definitions
    port_body_edge_count]. unfold iobind at 1, on_ports at 1, upcast at 1.
  destruct (body_edge_count symbol s) as [[n s1]|] eqn:Hn; [|done].
  assert (P (s1, metrics)) as Ht1.
  { pose proof (keeps_forwarded (body_edge_count symbol) (op_body_edges _ _ _) (adds_body_edge_count _) (s, metrics) Ht) as Hk.
    unfold on_ports, upcast in Hk. by rewrite Hn in Hk. }
  apply body_edge_count_spec in Hn as (-> & Hsame & Hcount).
  apply keeps_charged_at; [constructor| |done]. intros a s' Hs. apply adds_copy in Hs. rewrite Hsame in Hs.
  by rewrite Nat2N.id.
Qed.

Lemma port_call_keeps session A m :
  port_call (pass_session (recorder_session attempts session)) A m → keeps P m.
Proof.
  assert (∀ X (x y : X) l, Some x ∈ l → Forall (λ o, o = Some y) l → x = y) as Hone.
  { intros X x y l Hin Hall. rewrite Forall_forall in Hall. specialize (Hall _ Hin). congruence. }
  destruct 1 as [r ?? Hp|r ? Hp|r ? Hp|r ?? Hp|r ?? Hp|r ? Hp|r ? Hp|r ? Hp|r ? Hp|r ? Hp|r ? Hp
    |t ? Hp|t ???? Hp|t ?? Hp|t ??? Hp|e ? Hp|p ? Hp|e ? Hp|d ??????? Hp|d ??? Hp|d ? Hp|d ?? Hp|l ? Hp|l ? Hp|l ? Hp|l ? Hp|l ? Hp];
    try (apply (Hone _ _ (BudgetedResolver (recorder_resolver attempts))) in Hp as ->; [|by repeat constructor]);
    try (apply (Hone _ _ (BudgetedRelations (recorder_relations attempts))) in Hp as ->; [|by repeat constructor]);
    try (apply (Hone _ _ (BudgetedTypes (recorder_types attempts))) in Hp as ->; [|by repeat constructor]);
    try (injection Hp as <-).
  - exact (keeps_forwarded _ (op_lookup _ _ _ _ ) (adds_lookup _ _ _ )).
  - exact (keeps_charged _ 1%N _ (op_mint _ _ _ ) (adds_mint _ _ )).
  - exact (keeps_forwarded _ (op_file _ _ _ ) (adds_file _ )).
  - exact (keeps_forwarded _ (op_candidates _ _ _ _ ) (adds_candidates _ _ )).
  - exact (keeps_forwarded _ (op_ids_by_name _ _ _ _ ) (adds_ids _ _ )).
  - exact (keeps_charged _ 1%N _ (op_add_edge _ _ _ ) (adds_edge _ _ )).
  - exact (keeps_charged _ 1%N _ (op_ensure_edge _ _ _ ) (adds_ensure_edge _ _ )).
  - exact (keeps_charged _ 1%N _ (op_edge_site _ _ _ ) (adds_edge_site _ )).
  - exact (keeps_charged _ 1%N _ (op_call_arg _ _ _ ) (adds_call_arg _ )).
  - exact (keeps_charged _ 1%N _ (op_template_param _ _ _ ) (adds_template_param _ )).
  - exact (keeps_charged _ 1%N _ (op_template_arg _ _ _ ) (adds_template_arg _ )).
  - exact (keeps_charged _ 1%N _ (op_type_node _ _ _ ) (adds_type_node _ _ )).
  - exact (keeps_charged _ 1%N _ (op_type_edge _ _ _ _ _ _ ) (adds_type_edge _ _ _ _ )).
  - apply keeps_charged; [exact (op_parameters _ _ _ _)|]. rewrite Nat2N.id. exact (adds_parameters _ _).
  - exact (keeps_charged _ 1%N _ (op_symbol_type _ _ _ _ _ ) (adds_symbol_type _ _ _ )).
  - exact (keeps_charged _ 1%N _ (op_emit_evidence _ _ _ ) (adds_evidence _ )).
  - exact (keeps_charged _ 1%N _ (op_emit_evidence _ _ _ ) (adds_evidence _ )).
  - exact (keeps_charged _ 1%N _ (op_emit_intent _ _ _ ) (adds_intent _ )).
  - exact (keeps_charged _ 1%N _ (op_definition _ _ _ _ _ _ _ _ _ ) (adds_definition _ _ _ _ _ _ _ _ )).
  - exact (keeps_charged _ 1%N _ (op_def_edge _ _ _ _ _ ) (adds_def_edge _ _ _ )).
  - exact (keeps_forwarded _ (op_body_edges _ _ _ ) (adds_body_edge_count _ )).
  - apply keeps_copy.
  - exact (keeps_forwarded _ (op_current_file _ _ _ ) (adds_set_current_file _ )).
  - exact (keeps_forwarded _ (op_unit_config _ _ _ ) (adds_unit_config _ )).
  - exact (keeps_forwarded _ (op_unit_file _ _ _ ) (adds_unit_file _ )).
  - exact (keeps_forwarded _ (op_delete_edges _ _ _ ) (adds_delete _ _ )).
  - exact (keeps_forwarded _ (op_delete_definitions _ _ _ ) (adds_delete _ _ )).
Qed.
Lemma check_budget_keeps : keeps P (check_budget budget).
Proof.
  unfold check_budget. apply keeps_bind; [apply (metric_call_keeps PassMetrics _ (call_read _ id))|]. intros m.
  destruct (over_budget budget m); [|apply keeps_ret].
  apply keeps_bind; [apply keeps_on_metrics; intros s; apply keeps_set; by intros []|]. intros _.
  apply (metric_call_keeps unit), call_note_diagnostic.
Qed.
End budget.

Lemma run_pass_tracked session entry s :
  let budget := effective_budget (Some (recorder_session attempts session)) (entry_descriptor entry) in
  port_pass (entry_runner entry) → reached s →
  holds (λ s', reached s' ∧ (max_emitted_facts budget ≠ 0%N →
                 (N.of_nat (fact_count s') ≤ N.of_nat (fact_count s) + max_emitted_facts budget)%N))
    (run_pass (Some (recorder_session attempts session)) entry s).
Proof.
  intros budget Hp Hs. unfold run_pass. cbv zeta. fold budget.
  assert (keeps (tracked budget (fact_count s))
            (entry_runner entry (pass_session <$> Some (recorder_session attempts session)) ;;; check_budget budget)) as Hk.
  { apply keeps_bind; [|intros _; apply check_budget_keeps].
    eapply uses_keeps; [apply metric_call_keeps|apply port_call_keeps|exact (Hp (Some (pass_session (recorder_session attempts session))))]. }
  specialize (Hk (s, bound_metrics (pd_id (entry_descriptor entry)) budget)).
  assert (∀ t, tracked budget (fact_count s) t → reached t.1 ∧ (max_emitted_facts budget ≠ 0%N →
    (N.of_nat (fact_count t.1) ≤ N.of_nat (fact_count s) + max_emitted_facts budget)%N)) as Hend.
  { intros t (Hr & _ & Hc). split; [done|]. intros Hne. specialize (Hc Hne). lia. }
  destruct (iobind _ _ _) as [[] [s1 m1]|e [s1 m1]|]; [..|done]; cbn [holds];
    (apply (Hend (s1, m1)), Hk; split; [done|]; split; [done|]; intros _; cbn [fst snd]; lia).
Qed.

(** C21: A pass with an emission budget of [n > 0] adds at most [n] facts to the
    recorder, whether it returns or throws, whatever it asks for and whichever
    exceptions it catches; the cleanup intents of the lifecycle are not counted. *)
Theorem emission_budget_bounds session entry s n :
  port_pass (entry_runner entry) → reached s →
  max_emitted_facts (effective_budget (Some (recorder_session attempts session)) (entry_descriptor entry)) = n → n ≠ 0%N →
  holds (λ s', (N.of_nat (fact_count s') ≤ N.of_nat (fact_count s) + n)%N)
    (run_pass (Some (recorder_session attempts session)) entry s).
Proof.
  intros Hp Hs <- Hn. pose proof (run_pass_tracked session entry s Hp Hs) as Ht.
  destruct (run_pass _ _ _); [by apply Ht..|done].
Qed.

(** ** Extraction *)

Lemma run_step_reached entries session report step :
  Forall (λ e, port_pass (entry_runner e)) entries →
  keeps reached (run_step entries (Some (recorder_session attempts session)) report step).
Proof.
  intros Hp. unfold run_step. destruct (find_pass entries step) as [entry|] eqn:Hf; [|apply keeps_throw].
  cbv zeta. destruct (List.find _ _); [apply keeps_throw|]. destruct (bool_decide _); [apply keeps_throw|].
  destruct (List.find _ (pd_required_capabilities _)); [apply keeps_throw|].
  apply keeps_bind; [|intros ?; apply keeps_ret]. intros s Hs. apply find_pass_Some in Hf as [Hin _].
  rewrite Forall_forall in Hp. pose proof (run_pass_tracked session entry s (Hp _ Hin) Hs) as Ht.
  destruct (run_pass _ _ _); [by apply Ht..|done].
Qed.

Lemma run_reached entries plan session :
  Forall (λ e, port_pass (entry_runner e)) entries →
  keeps reached (run entries plan (Some (recorder_session attempts session))).
Proof.
  intros Hp. unfold run. destruct (bool_decide _); [apply keeps_throw|]. generalize (@nil PassExecutionRecord).
  induction plan as [|step plan IH]; intros report; cbn [run_steps]; [apply keeps_ret|].
  apply keeps_bind; [by apply run_step_reached|]. intros ?. apply IH.
Qed.

Definition handles_fit (route : SerialFactRoute) : Prop :=
  Forall (λ entry, i64_option (fr_transient_file_handle entry)) (partitions route).

Lemma route_recorder_reached route s u s' :
  handles_fit route → reached s → route_recorder attempts route s = Ok (u, s') → reached s'.
Proof.
  intros Hh Hs Hrt. unfold route_recorder, rthen in Hrt. apply rbind_Ok in Hrt as ([u1 s1] & H1 & Hrt).
  assert (reached s1) as Hs1.
  { clear Hrt. revert s Hs H1. unfold handles_fit in Hh. induction Hh as [|entry l He _ IH]; intros s Hs H1; cbn [rfor] in H1.
    - by injection H1 as _ <-.
    - unfold rthen in H1. apply rbind_Ok in H1 as ([u2 s2] & H2 & H1). apply (IH s2); [|done].
      eapply reach_step; [done| |exact H2]. by apply op_partition. }
  destruct (partitions route !! main_partition route) as [main|] eqn:Hm; [|by injection Hrt as _ <-].
  eapply reach_step; [done| |exact Hrt]. apply op_partition. unfold handles_fit in Hh. rewrite Forall_forall in Hh.
  apply Hh. by eapply list_elem_of_lookup_2.
Qed.

(** The batch of a reachable recorder and its completeness. *)
Lemma recorder_batch_ok s :
  reached s → ∃ batch, recorder_batch true s = Ok batch ∧ is_canonical batch = true ∧
    fb_completeness batch = completeness_ s.
Proof.
  intros Hs. destruct (reachable_recorder_ok _ _ s Hs) as [m Hm].
  destruct (recorded_facts s m Hm) as (facts & Hf & Hr & _).
  assert (rf_completeness facts = completeness_ s) as Hc.
  { unfold recorded in Hf. apply rbind_Ok in Hf as (entries & _ & Hf). by injection Hf as <-. }
  exists (build_batch true facts). unfold recorder_batch. rewrite Hf. split; [done|].
  split; [by apply canonical_batch_layout|]. by rewrite build_batch_completeness.
Qed.

Lemma report_completeness_max report :
  Forall (λ r, (to_underlying (pd_completeness (xr_descriptor r)) ≤ to_underlying (report_completeness report))%N) report.
Proof.
  unfold report_completeness.
  assert (∀ c, (to_underlying c ≤ to_underlying (foldl (λ c record, let d := pd_completeness (xr_descriptor record) in
      if (to_underlying c <? to_underlying d)%N then d else c) c report))%N ∧
    Forall (λ r, (to_underlying (pd_completeness (xr_descriptor r)) ≤ to_underlying (foldl (λ c record,
      let d := pd_completeness (xr_descriptor record) in
      if (to_underlying c <? to_underlying d)%N then d else c) c report))%N) report) as Hmax; [|apply Hmax].
  induction report as [|r report IH]; intros c; cbn [foldl]; cbv zeta; [split; [lia|constructor]|].
  cbv zeta in IH. destruct (to_underlying c <? to_underlying _)%N eqn:E.
  - apply N.ltb_lt in E. destruct (IH (pd_completeness (xr_descriptor r))) as [H1 H2]. split; [lia|]. by constructor.
  - apply N.ltb_ge in E. destruct (IH c) as [H1 H2]. split; [done|]. constructor; [lia|done].
Qed.

(** C20: Extraction gives either a batch or a failure.  A batch is canonical, of the
    worst completeness of the passes, and comes with a report of the whole plan; a
    rejected route is told from a failed pass, whose report is lost, an exceeded
    budget, and a probe that threw, which is the only failure after the passes. *)
Theorem extraction_exact session entries plan route probe r :
  Forall (λ e, port_pass (entry_runner e)) entries → handles_fit route →
  extract_serial_fact_batch attempts session entries plan route probe = Ok r →
  match result_batch r, result_failure r with
  | Some batch, None =>
      valid_route route = true ∧ is_canonical batch = true ∧ record_ids (result_report r) = plan ∧
      Forall (λ x, (to_underlying (pd_completeness (xr_descriptor x)) ≤ to_underlying (fb_completeness batch))%N)
        (result_report r) ∧
      fb_completeness batch = report_completeness (result_report r)
  | None, Some failure =>
      match failure_kind failure with
      | invalid_route => valid_route route = false
      | pass_failed => valid_route route = true ∧ result_report r = []
      | budget_exceeded => valid_route route = true ∧ (result_report r = [] ∨ record_ids (result_report r) = plan)
      | prepublication_failed => probe ≠ None ∧ record_ids (result_report r) = plan
      end
  | _, _ => False
  end.
Proof.
  intros Hp Hh Hx. unfold extract_serial_fact_batch in Hx. destruct (valid_route route) eqn:Hv; cbn [negb] in Hx.
  2:{ by injection Hx as <-. }
  apply rbind_Ok in Hx as ([u s] & Hr & Hx).
  pose proof (route_recorder_reached route _ _ _ Hh (reach_new _ _ (bs "serial-extraction")) Hr) as Hs.
  pose proof (run_reached entries plan session Hp s Hs) as Hk.
  destruct (run entries plan (Some (recorder_session attempts session)) s) as [report s1|e s1|message] eqn:Hrun.
  - apply rbind_Ok in Hx as ([u2 s2] & Hset & Hx).
    assert (reached s2) as Hs2 by (eapply reach_step; [exact Hk|apply op_completeness|exact Hset]).
    assert (completeness_ s2 = report_completeness report) as Hc by (injection Hset as _ <-; by destruct s1).
    assert (record_ids report = plan) as Hids by (by eapply run_report_ids).
    destruct (recorder_batch_ok s2 Hs2) as (batch & Hb & Hcan & Hcomp). rewrite Hb in Hx.
    destruct (probe ≫= λ probe, probe s2) as [e|] eqn:Hpr.
    + assert (probe ≠ None) by (by destruct probe). injection Hx as <-. destruct e; cbn; auto.
    + injection Hx as <-. cbn. rewrite Hcomp, Hc. split_and!; [done..|apply report_completeness_max|done].
  - injection Hx as <-. destruct e; cbn; auto.
  - injection Hx as <-. cbn. auto.
Qed.

(** A unit that the plan of the owned headers routes can be extracted: its serial
    route is accepted and the handles of its partitions are in range; a unit without
    routes is rejected. *)
Lemma planned_route_valid generation cs plan translation_unit :
  plan_owned_header_routes attempts generation cs = Ok plan →
  handles_fit (serial_route plan translation_unit) ∧
  (valid_route (serial_route plan translation_unit) = true ↔
   ∃ r, r ∈ plan_routes plan ∧ pr_translation_unit r = translation_unit).
Proof.
  intros Hplan. destruct (serial_route_exact plan translation_unit) as (Hparts & Hlen & _ & _). split.
  - unfold handles_fit. rewrite Hparts, Forall_fmap. apply Forall_forall. intros r [_ Hr]%list_elem_of_filter.
    pose proof (plan_handles _ _ _ _ Hplan) as Hall. rewrite Forall_forall in Hall.
    destruct (Hall r Hr) as (h & Hh & ?). cbn. rewrite Hh. cbn. unfold i64_value. lia.
  - unfold valid_route. rewrite andb_true_iff, Nat.ltb_lt, Hlen, Hparts, negb_true_iff, bool_decide_eq_false. split.
    + intros [_ Hne]. destruct (filter _ _) as [|r l] eqn:E; [done|]. exists r.
      assert (r ∈ filter (of_unit translation_unit) (plan_routes plan)) as Hin by (rewrite E; by left).
      apply list_elem_of_filter in Hin as [? ?]. done.
    + intros (r & Hr & Ht). assert (r ∈ filter (of_unit translation_unit) (plan_routes plan)) as Hin by (by apply list_elem_of_filter).
      destruct (filter _ _); [by apply elem_of_nil in Hin|done].
Qed.
End passes.

(** ** A sample extraction: one pass with a budget of one fact *)

Abbreviation SampleRecorder := (FactBatchRecorder SpillableIdentityIndex).

(** It mints a symbol and then asks for two relations, catching what is thrown. *)
Definition sample_runner : Runner SampleRecorder :=
  λ session,
    match session ≫= statement_ports with
    | Some ports =>
        do* id := port_mint_symbol (sp_resolver ports) sample_request in
        iocatch
          (port_add_edge (sp_relations ports) (EdgeRec id id 1 1 None None) ;;;
           port_add_edge (sp_relations ports) (EdgeRec id id 7 1 None None) ;;;
           ioret tt)
          (λ _, ioret tt)
    | None => ioret tt
    end.

Lemma sample_runner_ports : port_pass sample_runner.
Proof.
  intros session. unfold sample_runner. destruct session as [session|]; cbn; [|apply uses_return].
  destruct (statement_ports session) as [ports|] eqn:E; [|apply uses_return].
  assert (resolver_port session (sp_resolver ports)) as Hr by (unfold resolver_port; rewrite E; right; by left).
  assert (relations_port session (sp_relations ports)) as Hl by (unfold relations_port; rewrite E; right; by left).
  apply uses_bind; [by apply uses_port, call_mint|]. intros id. apply uses_catch; [|intros ?; apply uses_return].
  apply uses_bind; [by apply uses_port, call_add_edge|]. intros _.
  apply uses_bind; [by apply uses_port, call_add_edge|]. intros _. apply uses_return.
Qed.

Definition sample_pass (limit : N) : ExtractionPassDescriptor :=
  PassDescriptor (bs "edges") 1 [] [] [bs "relations"] [1] [] scope_translation_unit trav_body partial_facts trusted
    (Budget 0 limit 0 0 true).
Definition sample_entry (limit : N) : RegistryEntry SampleRecorder := Entry (sample_pass limit) sample_runner.
Definition sample_session : FrontendSession SampleRecorder :=
  Session false false None None None None None None None false false ∅.
Definition sample_route : SerialFactRoute :=
  SerialRoute [RoutePartition (sample_partition (bs "a.cpp")) (Some 7)] 0.

(** The pass adds the symbol; the relations are refused and the metrics say so. *)
Lemma emission_budget_bounds_witness :
  holds (λ s', (N.of_nat (fact_count s') ≤ 0 + 1)%N)
    (run_pass (Some (recorder_session 3 sample_session)) (sample_entry 1) (new_recorder (bs "t"))) ∧
  match run_pass (Some (recorder_session 3 sample_session)) (sample_entry 1) (new_recorder (bs "t")) with
  | Returned record s' => (fact_count s' =? 1)%nat && budget_exhausted (xr_metrics record)
  | _ => false
  end = true.
Proof.
  split; [|by vm_compute].
  apply (emission_budget_bounds (Store := SpillableIdentityIndex) 3 sample_session (sample_entry 1) (new_recorder (bs "t")) 1);
    [apply sample_runner_ports|apply reach_new|done|done].
Defined.

Definition sample_extraction : option SerialFactExtractionResult :=
  match extract_serial_fact_batch 3 sample_session [sample_entry 0] [bs "edges"] sample_route None with
  | Ok r => Some r
  | Err _ => None
  end.

Lemma extraction_exact_witness :
  ∃ r batch, sample_extraction = Some r ∧ result_batch r = Some batch ∧ is_canonical batch = true ∧
    fb_completeness batch = partial_facts.
Proof.
  assert (match sample_extraction with Some r => extraction_ok r && bool_decide (report_completeness (result_report r) = partial_facts)
          | None => false end = true) as Hok by by vm_compute.
  unfold sample_extraction in *.
  destruct (extract_serial_fact_batch 3 sample_session [sample_entry 0] [bs "edges"] sample_route None) as [r|] eqn:E; [|done].
  assert (Forall (λ e, port_pass (entry_runner e)) [sample_entry 0]) as Hp by (apply Forall_singleton, sample_runner_ports).
  assert (handles_fit sample_route) as Hh by (apply Forall_singleton; cbn; unfold i64_value; lia).
  pose proof (extraction_exact (Store := SpillableIdentityIndex) 3 sample_session [sample_entry 0] [bs "edges"] sample_route None r Hp Hh E) as H.
  apply andb_true_iff in Hok as [Hok Hc]. apply bool_decide_eq_true in Hc. unfold extraction_ok in Hok.
  exists r. destruct (result_batch r) as [batch|]; [|done]. destruct (result_failure r); [done|].
  destruct H as (_ & Hcan & _ & _ & Hcomp). exists batch. split; [done|]. split; [done|]. split; [done|]. congruence.
Defined.
