(* ===== verification/CleanupPlan.v ===== *)
(** * The cleanup plan artifact: [src/src/include_hygiene/plan.cpp] and [plan.hpp]

    A plan, its canonical JSON text, the checked reader [apply] uses on a text
    that may come from anywhere, and the freshness check against the files as
    they are.  The files' content hashes are an argument. *)

From S2P Require Export Json PathUtil Hashing.

Open Scope Z_scope.

(** ** Data *)

Definition kPlanFormatVersion : Z := 1.

Record ValidationRecord := Validation {
  stage : bytes;
  tu_path : bytes;
  config : bytes;
  ok : bool;
  diagnostic : bytes
}.

Inductive PlanState : Type := Accepted | Rejected | ManualReview.

Record PlanItem := Item {
  id : bytes;
  file : bytes;
  abs_path : bytes;
  line : Z;
  col : Z;
  begin_offset : Z;
  end_offset : Z;
  directive_text : bytes;
  resolved_target : bytes;
  classification : bytes;
  state : PlanState;
  reason : bytes;
  owners : list bytes;
  header_symbols : list bytes;
  intersection_count : Z;
  reference_kinds_searched : list bytes;
  macro_uses : list bytes;
  guarded : bool;
  reverse_dependants : list bytes;
  affected_tus : list bytes;
  configs : list bytes;
  validations : list ValidationRecord
}.

Record CleanupPlan := Plan {
  format_version : Z;
  repo_root : bytes;
  db_path : bytes;
  schema_version : Z;
  resolved_at : bytes;
  config_digests : list bytes;
  file_hashes : gmap bytes bytes;
  items : list PlanItem;
  plan_validations : list ValidationRecord;
  limitations : list bytes
}.

Definition plan_state_name (s : PlanState) : bytes :=
  match s with
  | Accepted => bs "validated_for_apply"
  | Rejected => bs "rejected"
  | ManualReview => bs "manual_review"
  end.

Definition plan_state_from (name : bytes) : option PlanState :=
  if bool_decide (name = bs "validated_for_apply") then Some Accepted
  else if bool_decide (name = bs "rejected") then Some Rejected
  else if bool_decide (name = bs "manual_review") then Some ManualReview
  else None.

(** ** Writing *)

Definition str_array (v : list bytes) : Value := VArr (VStr <$> v).

Definition validation_json (r : ValidationRecord) : Value :=
  VObj [(bs "stage", VStr (stage r)); (bs "tu", VStr (tu_path r));
        (bs "config", VStr (config r)); (bs "ok", VBool (ok r));
        (bs "diagnostic", VStr (diagnostic r))].

Definition validations_json (v : list ValidationRecord) : Value := VArr (validation_json <$> v).

Definition evidence_json (it : PlanItem) : Value :=
  VObj [(bs "owners", str_array (owners it));
        (bs "header_symbols", str_array (header_symbols it));
        (bs "intersection_count", VInt (intersection_count it));
        (bs "reference_kinds_searched", str_array (reference_kinds_searched it));
        (bs "macro_uses", str_array (macro_uses it));
        (bs "guarded", VBool (guarded it));
        (bs "reverse_dependants", str_array (reverse_dependants it))].

Definition item_json (it : PlanItem) : Value :=
  VObj [(bs "id", VStr (id it)); (bs "file", VStr (file it)); (bs "line", VInt (line it));
        (bs "col", VInt (col it)); (bs "begin_offset", VInt (begin_offset it));
        (bs "end_offset", VInt (end_offset it));
        (bs "directive_text", VStr (directive_text it));
        (bs "resolved_target", VStr (resolved_target it));
        (bs "classification", VStr (classification it));
        (bs "state", VStr (plan_state_name (state it))); (bs "reason", VStr (reason it));
        (bs "evidence", evidence_json it);
        (bs "affected_tus", str_array (affected_tus it));
        (bs "configs", str_array (configs it));
        (bs "validations", validations_json (validations it))].

Definition hash_json (entry : bytes * bytes) : Value :=
  VObj [(bs "file", VStr entry.1); (bs "sha1", VStr entry.2)].

(** The entries of a [std::map] in iteration order. *)
Definition in_order (m : gmap bytes bytes) : list (bytes * bytes) :=
  omap (λ k, pair k <$> m !! k) (set_list (dom m)).

Definition plan_json (p : CleanupPlan) : Value :=
  VObj [(bs "format_version", VInt (format_version p)); (bs "repo_root", VStr (repo_root p));
        (bs "db_path", VStr (db_path p)); (bs "schema_version", VInt (schema_version p));
        (bs "resolved_at", VStr (resolved_at p));
        (bs "config_digests", str_array (config_digests p));
        (bs "file_hashes", VArr (hash_json <$> in_order (file_hashes p)));
        (bs "limitations", str_array (limitations p));
        (bs "validations", validations_json (plan_validations p));
        (bs "items", VArr (item_json <$> items p))].

Definition serialize (p : CleanupPlan) : bytes := dumps_indent2 (plan_json p).

(** ** Typed readers *)

Definition bad {A} (what : bytes) : result A := Err (bs "cleanup plan: " ++ what).

Fixpoint find_member (o : list (bytes * Value)) (key : bytes) : option Value :=
  match o with
  | [] => None
  | (k, v) :: o => if bool_decide (k = key) then Some v else find_member o key
  end.

Definition member (obj : Value) (key : bytes) : option Value :=
  match obj with VObj o => find_member o key | _ => None end.

(** [Value::T]. *)
Inductive T : Type := Null | Bool | Int | Str | Arr | Obj.

Definition t (v : Value) : T :=
  match v with
  | VNull => Null | VBool _ => Bool | VInt _ => Int | VStr _ => Str | VArr _ => Arr | VObj _ => Obj
  end.

#[export] Instance T_eq_dec : EqDecision T.
Proof. solve_decision. Defined.

Definition require (obj : Value) (key : bytes) (type : T) : result Value :=
  match member obj key with
  | None => bad (bs "missing required field '" ++ key ++ bs "'")
  | Some v =>
      if bool_decide (t v = type) then Ok v
      else bad (bs "field '" ++ key ++ bs "' has the wrong type")
  end.

(** The members [.s], [.i] and [.a] of a value. *)
Definition str_of (v : Value) : bytes := match v with VStr s => s | _ => [] end.
Definition int_of (v : Value) : Z := match v with VInt i => i | _ => 0 end.
Definition arr_of (v : Value) : list Value := match v with VArr a => a | _ => [] end.

Definition opt_str (obj : Value) (key : bytes) : bytes :=
  match member obj key with Some (VStr s) => s | _ => [] end.

Definition opt_int (obj : Value) (key : bytes) : Z :=
  match member obj key with Some (VInt i) => i | _ => 0 end.

Definition opt_bool (obj : Value) (key : bytes) : bool :=
  match member obj key with Some (VBool b) => b | _ => false end.

Definition opt_str_array (obj : Value) (key : bytes) : result (list bytes) :=
  match member obj key with
  | Some (VArr a) =>
      mapR (λ e, match e with
                 | VStr s => Ok s
                 | _ => bad (bs "field '" ++ key ++ bs "' must be an array of strings")
                 end) a
  | _ => Ok []
  end.

Definition read_validation (key : bytes) (e : Value) : result ValidationRecord :=
  match e with
  | VObj _ => Ok (Validation (opt_str e (bs "stage")) (opt_str e (bs "tu"))
                    (opt_str e (bs "config")) (opt_bool e (bs "ok")) (opt_str e (bs "diagnostic")))
  | _ => bad (bs "field '" ++ key ++ bs "' must be an array of objects")
  end.

Definition read_validations (obj : Value) (key : bytes) : result (list ValidationRecord) :=
  match member obj key with
  | Some (VArr a) => mapR (read_validation key) a
  | _ => Ok []
  end.

(** ** Reading a plan *)

(** [static_cast<int>] of a [long long]. *)
Definition to_int (z : Z) : Z := (z + 2 ^ 31) mod 2 ^ 32 - 2 ^ 31.

(** The body of the loop over [file_hashes]; the right operand of the assignment
    is evaluated first. *)
Definition read_hash (m : gmap bytes bytes) (h : Value) : result (gmap bytes bytes) :=
  match h with
  | VObj _ =>
      let! hash := require h (bs "sha1") Str in
      let! file := require h (bs "file") Str in
      Ok (<[str_of file := str_of hash]> m)
  | _ => bad (bs "file_hashes must be an array of objects")
  end.

(** The evidence fields of an item. *)
Record Evidence := Evidence_ {
  ev_owners : list bytes;
  ev_header_symbols : list bytes;
  ev_intersection_count : Z;
  ev_reference_kinds_searched : list bytes;
  ev_macro_uses : list bytes;
  ev_guarded : bool;
  ev_reverse_dependants : list bytes
}.

Definition read_evidence (e : Value) : result Evidence :=
  match member e (bs "evidence") with
  | Some (VObj o) =>
      let ev := VObj o in
      let! owners := opt_str_array ev (bs "owners") in
      let! header_symbols := opt_str_array ev (bs "header_symbols") in
      let! kinds := opt_str_array ev (bs "reference_kinds_searched") in
      let! macro_uses := opt_str_array ev (bs "macro_uses") in
      let! reverse_dependants := opt_str_array ev (bs "reverse_dependants") in
      Ok (Evidence_ owners header_symbols (opt_int ev (bs "intersection_count")) kinds
            macro_uses (opt_bool ev (bs "guarded")) reverse_dependants)
  | _ => Ok (Evidence_ [] [] 0 [] [] false [])
  end.

(** The body of the loop over [items]. *)
Definition read_item (e : Value) : result PlanItem :=
  match e with
  | VObj _ =>
      let! id := require e (bs "id") Str in
      let! file := require e (bs "file") Str in
      let! begin := require e (bs "begin_offset") Int in
      let! end_ := require e (bs "end_offset") Int in
      let! _ := (if (int_of begin <? 0) || (int_of end_ <? int_of begin)
                 then bad (bs "item '" ++ str_of id ++ bs "' has an inverted or negative byte range")
                 else Ok tt) in
      let! directive := require e (bs "directive_text") Str in
      let! state := require e (bs "state") Str in
      match plan_state_from (str_of state) with
      | None => bad (bs "item '" ++ str_of id ++ bs "' has an unknown state '"
                       ++ str_of state ++ bs "'")
      | Some s =>
          let! ev := read_evidence e in
          let! affected := opt_str_array e (bs "affected_tus") in
          let! configs := opt_str_array e (bs "configs") in
          let! validations := read_validations e (bs "validations") in
          Ok (Item (str_of id) (str_of file) [] (opt_int e (bs "line")) (opt_int e (bs "col"))
                (int_of begin) (int_of end_) (str_of directive)
                (opt_str e (bs "resolved_target")) (opt_str e (bs "classification")) s
                (opt_str e (bs "reason")) (ev_owners ev) (ev_header_symbols ev)
                (ev_intersection_count ev) (ev_reference_kinds_searched ev) (ev_macro_uses ev)
                (ev_guarded ev) (ev_reverse_dependants ev) affected configs validations)
      end
  | _ => bad (bs "items must be an array of objects")
  end.

Definition check_version (version : Z) : result unit :=
  if bool_decide (version = kPlanFormatVersion) then Ok tt
  else bad (bs "unsupported format_version " ++ to_string version
              ++ bs " (this build writes and reads version " ++ to_string kPlanFormatVersion
              ++ bs "); regenerate the plan").

(** [deserialize] after the parse. *)
Definition read_plan (root : Value) : result CleanupPlan :=
  match root with
  | VObj _ =>
      let! version := require root (bs "format_version") Int in
      let version := to_int (int_of version) in
      let! _ := check_version version in
      let! repo_root := require root (bs "repo_root") Str in
      let! digests := opt_str_array root (bs "config_digests") in
      let! limitations := opt_str_array root (bs "limitations") in
      let! validations := read_validations root (bs "validations") in
      let! hashes := (match member root (bs "file_hashes") with
                      | Some (VArr a) => foldR read_hash ∅ a
                      | _ => Ok ∅
                      end) in
      let! items := require root (bs "items") Arr in
      let! read := mapR read_item (arr_of items) in
      Ok (Plan version (str_of repo_root) (opt_str root (bs "db_path"))
            (to_int (opt_int root (bs "schema_version"))) (opt_str root (bs "resolved_at"))
            digests hashes read validations limitations)
  | _ => bad (bs "top level must be an object")
  end.

(** [None] is the parser out of fuel, which does not happen. *)
Definition deserialize (text : bytes) : option (result CleanupPlan) :=
  match parse text with
  | None => None
  | Some (Err e) => Some (Err e)
  | Some (Ok root) => Some (read_plan root)
  end.

(** ** Freshness *)

(** The SHA-1 of the content of a readable file. *)
Definition hash_file (sha1 : bytes → bytes) (read_file : bytes → option bytes) (path : bytes) :
    option bytes :=
  (λ content, digest_to_hex (sha1 content)) <$> read_file path.

(** The body of the loop over [file_hashes]. *)
Definition stale_file (hash_file : bytes → option bytes) (root : bytes)
    (entry : bytes * bytes) : list bytes :=
  match hash_file (PathUtil.join root [entry.1]) with
  | None => [bs "file has gone: " ++ entry.1]
  | Some have =>
      if bool_decide (have = entry.2) then []
      else [bs "file changed since the plan was made: " ++ entry.1]
  end.

Definition staleness_reasons (hash_file : bytes → option bytes) (p : CleanupPlan)
    (current_schema_version : Z) : list bytes :=
  (if bool_decide (schema_version p = current_schema_version) then []
   else [bs "index schema changed: plan was made against v" ++ to_string (schema_version p)
           ++ bs ", this build is v" ++ to_string current_schema_version])
  ++ concat (stale_file hash_file (repo_root p) <$> in_order (file_hashes p)).

(** ** The tree of a plan can be stored *)

Definition validation_texts (r : ValidationRecord) : list bytes :=
  [stage r; tu_path r; config r; diagnostic r].

Definition item_texts (it : PlanItem) : list bytes :=
  [id it; file it; directive_text it; resolved_target it; classification it; reason it]
  ++ owners it ++ header_symbols it ++ reference_kinds_searched it ++ macro_uses it
  ++ reverse_dependants it ++ affected_tus it ++ configs it
  ++ concat (validation_texts <$> validations it).

Definition plan_texts (p : CleanupPlan) : list bytes :=
  [repo_root p; db_path p; resolved_at p] ++ config_digests p ++ limitations p
  ++ concat (validation_texts <$> plan_validations p)
  ++ concat ((λ e, [e.1; e.2]) <$> in_order (file_hashes p)).

(** UTF-8 texts, [int64_t] numbers, a byte range. *)
Definition item_ok (it : PlanItem) : Prop :=
  Forall valid_utf8 (item_texts it) ∧
  Forall (λ i, int64_range i = true)
    [line it; col it; begin_offset it; end_offset it; intersection_count it] ∧
  0 <= begin_offset it <= end_offset it.

Definition plan_ok (p : CleanupPlan) : Prop :=
  format_version p = kPlanFormatVersion ∧
  - 2 ^ 31 <= schema_version p < 2 ^ 31 ∧
  Forall valid_utf8 (plan_texts p) ∧ Forall item_ok (items p).

Lemma storable_str_array n v : Forall valid_utf8 v → storable (S n) (str_array v).
Proof.
  intros H. apply storable_arr. rewrite Forall_fmap. eapply Forall_impl; [exact H|].
  intros s. apply storable_str.
Qed.

(** The keys of an object are distinct and ASCII. *)
Ltac object_keys :=
  apply storable_obj;
  [eapply bool_decide_eq_true_1; vm_compute; reflexivity
  |apply ascii_keys; vm_compute; reflexivity
  |repeat (apply Forall_cons; split); [..|by apply Forall_nil]; cbn [snd]].

Lemma storable_validations n v :
  Forall valid_utf8 (concat (validation_texts <$> v)) → storable (S (S n)) (validations_json v).
Proof.
  intros H. apply storable_arr. rewrite Forall_fmap.
  induction v as [|r v IH]; [constructor|]. csimpl in H. decompose_Forall_hyps.
  constructor; [|auto]. object_keys; (by apply storable_str) || apply storable_bool.
Qed.

Lemma storable_state n s : storable n (VStr (plan_state_name s)).
Proof. apply storable_str, valid_utf8_ascii. by destruct s. Qed.

Lemma storable_item n it : item_ok it → storable (S (S (S n))) (item_json it).
Proof.
  intros (Ht & Hi & _). unfold item_texts in Ht.
  rewrite !Forall_app in Ht. destruct_and!. decompose_Forall_hyps.
  object_keys; try (by apply storable_str); try (by apply storable_int);
    try (by apply storable_str_array); [apply storable_state| |by apply storable_validations].
  object_keys; by (apply storable_str_array || apply storable_int || apply storable_bool).
Qed.

Lemma storable_plan p : plan_ok p → storable kMaxDepth (plan_json p).
Proof.
  intros (Hv & Hs & Ht & Hi). unfold plan_texts in Ht.
  rewrite !Forall_app in Ht. destruct_and!. decompose_Forall_hyps.
  change kMaxDepth with (5 + 95)%nat. cbn [Nat.add].
  object_keys; try (by apply storable_str); try (by apply storable_str_array).
  - apply storable_int. by rewrite Hv.
  - apply storable_int. unfold int64_range. bool_split; lia.
  - apply storable_arr. rewrite Forall_fmap.
    match goal with H : Forall _ (concat (_ <$> in_order _)) |- _ => revert H end. clear.
    generalize (in_order (file_hashes p)). induction l as [|e l IH]; intros Hl; [constructor|].
    csimpl in Hl. decompose_Forall_hyps. constructor; [|auto].
    object_keys; by apply storable_str.
  - by apply storable_validations.
  - apply storable_arr. rewrite Forall_fmap. eapply Forall_impl; [exact Hi|].
    intros it. apply storable_item.
Qed.

(** ** Reading the tree back *)

Lemma mapR_fmap {A B C} (f : B → result C) (g : A → B) (h : A → C) l :
  (∀ x, x ∈ l → f (g x) = Ok (h x)) → mapR f (g <$> l) = Ok (h <$> l).
Proof.
  induction l as [|x l IH]; intros H; csimpl; [done|]. rewrite H by by left. cbn [rbind].
  rewrite IH; [done|]. intros y Hy. apply H. by right.
Qed.

Lemma opt_str_array_read obj key v :
  member obj key = Some (str_array v) → opt_str_array obj key = Ok v.
Proof.
  intros H. unfold opt_str_array. rewrite H. unfold str_array.
  rewrite (mapR_fmap _ _ (λ s, s)); [by rewrite list_fmap_id|done].
Qed.

Lemma read_validation_json key r : read_validation key (validation_json r) = Ok r.
Proof. by destruct r. Qed.

Lemma read_validations_read obj key v :
  member obj key = Some (validations_json v) → read_validations obj key = Ok v.
Proof.
  intros H. unfold read_validations. rewrite H. unfold validations_json.
  rewrite (mapR_fmap _ _ (λ r, r)); [by rewrite list_fmap_id|].
  intros r _. apply read_validation_json.
Qed.

Lemma plan_state_round s : plan_state_from (plan_state_name s) = Some s.
Proof. by destruct s. Qed.

Lemma require_read obj key type v :
  member obj key = Some v → t v = type → require obj key type = Ok v.
Proof. intros H1 H2. unfold require. rewrite H1. by rewrite bool_decide_eq_true_2. Qed.

Definition unresolved (it : PlanItem) : PlanItem :=
  Item (id it) (file it) [] (line it) (col it) (begin_offset it) (end_offset it)
    (directive_text it) (resolved_target it) (classification it) (state it) (reason it)
    (owners it) (header_symbols it) (intersection_count it) (reference_kinds_searched it)
    (macro_uses it) (guarded it) (reverse_dependants it) (affected_tus it) (configs it)
    (validations it).

Ltac read_members :=
  repeat match goal with
  | |- context [require ?o ?k ?type] =>
      erewrite (require_read o k type) by reflexivity; cbn [rbind int_of str_of arr_of]
  | |- context [opt_str_array ?o ?k] =>
      erewrite (opt_str_array_read o k) by reflexivity; cbn [rbind]
  | |- context [read_validations ?o ?k] =>
      erewrite (read_validations_read o k) by reflexivity; cbn [rbind]
  end.

Lemma read_evidence_json it :
  read_evidence (item_json it) =
  Ok (Evidence_ (owners it) (header_symbols it) (intersection_count it)
        (reference_kinds_searched it) (macro_uses it) (guarded it) (reverse_dependants it)).
Proof.
  unfold read_evidence.
  change (member (item_json it) (bs "evidence")) with (Some (evidence_json it)).
  unfold evidence_json. cbn zeta. read_members. reflexivity.
Qed.

Lemma read_item_json it :
  0 <= begin_offset it <= end_offset it → read_item (item_json it) = Ok (unresolved it).
Proof.
  intros [H1 H2]. unfold read_item. unfold item_json at 1. read_members.
  rewrite (proj2 (Z.ltb_ge _ _) H1), (proj2 (Z.ltb_ge _ _) H2). cbn [orb rbind].
  read_members. rewrite plan_state_round, read_evidence_json. cbn [rbind]. read_members.
  reflexivity.
Qed.

(** *** The map of hashes *)

Lemma elem_of_in_order m k v : (k, v) ∈ in_order m ↔ m !! k = Some v.
Proof.
  unfold in_order. rewrite list_elem_of_omap. split.
  - intros (k' & _ & H). apply fmap_Some in H as (? & ? & ?). by simplify_eq.
  - intros H. exists k. rewrite H. split; [|done].
    apply elem_of_set_list, elem_of_dom. by exists v.
Qed.

Lemma keys_in_order m : (in_order m).*1 = set_list (dom m).
Proof.
  unfold in_order. assert (∀ k, k ∈ set_list (dom m) → is_Some (m !! k)) as H
    by (intros k; by rewrite elem_of_set_list, elem_of_dom).
  induction (set_list (dom m)) as [|k ks IH]; [done|]. simpl.
  destruct (H k) as [v Hv]; [by left|]. rewrite Hv. csimpl. f_equal. apply IH.
  intros k' Hk. apply H. by right.
Qed.

Definition insert_all (m : gmap bytes bytes) (l : list (bytes * bytes)) : gmap bytes bytes :=
  foldl (λ m e, <[e.1 := e.2]> m) m l.

Lemma insert_all_lookup l : ∀ m k,
  NoDup l.*1 →
  insert_all m l !! k = match (list_to_map l : gmap bytes bytes) !! k with
                        | Some v => Some v | None => m !! k end.
Proof.
  induction l as [|[k' v'] l IH]; intros m k Hnd; [done|]. csimpl in *.
  apply NoDup_cons in Hnd as [Hk' Hnd]. unfold insert_all in *. rewrite IH by done.
  destruct (decide (k' = k)) as [->|Hne].
  - rewrite !lookup_insert_eq, not_elem_of_list_to_map_1 by done. done.
  - by rewrite !lookup_insert_ne.
Qed.

Lemma insert_all_in_order m : insert_all ∅ (in_order m) = m.
Proof.
  assert (NoDup (in_order m).*1) as Hnd by (rewrite keys_in_order; apply NoDup_set_list).
  apply map_eq. intros k. rewrite insert_all_lookup, lookup_empty by done.
  destruct (list_to_map (in_order m) !! k) as [v|] eqn:E.
  - by apply elem_of_list_to_map_2, elem_of_in_order in E.
  - apply not_elem_of_list_to_map_2 in E. rewrite keys_in_order, elem_of_set_list in E.
    by apply not_elem_of_dom in E.
Qed.

Lemma read_hashes_json l m :
  foldR read_hash m (hash_json <$> l) = Ok (insert_all m l).
Proof.
  revert m. induction l as [|[f h] l IH]; intros m; [done|]. csimpl.
  unfold read_hash at 1. unfold hash_json at 1. read_members. apply IH.
Qed.

Lemma to_int_range z : - 2 ^ 31 <= to_int z < 2 ^ 31.
Proof.
  unfold to_int. pose proof (Z.mod_pos_bound (z + 2 ^ 31) (2 ^ 32) ltac:(lia)). lia.
Qed.

Lemma to_int_id z : - 2 ^ 31 <= z < 2 ^ 31 → to_int z = z.
Proof. intros H. unfold to_int. rewrite Z.mod_small; lia. Qed.

Lemma read_plan_json p :
  plan_ok p →
  read_plan (plan_json p) =
  Ok (Plan (format_version p) (repo_root p) (db_path p) (schema_version p) (resolved_at p)
        (config_digests p) (file_hashes p) (unresolved <$> items p) (plan_validations p)
        (limitations p)).
Proof.
  intros (Hv & Hs & _ & Hi). unfold read_plan. unfold plan_json at 1. read_members.
  rewrite Hv. change (to_int kPlanFormatVersion) with kPlanFormatVersion.
  unfold check_version. rewrite bool_decide_eq_true_2 by done. cbn [rbind]. read_members.
  change (member (plan_json p) (bs "file_hashes"))
    with (Some (VArr (hash_json <$> in_order (file_hashes p)))). cbv beta iota.
  rewrite read_hashes_json, insert_all_in_order. cbn [rbind]. read_members.
  rewrite (mapR_fmap _ _ unresolved).
  - cbn [rbind]. change (opt_int (plan_json p) (bs "schema_version")) with (schema_version p).
    by rewrite to_int_id.
  - intros it Hit. apply read_item_json. rewrite Forall_forall in Hi. by apply Hi.
Qed.

(** ** Properties *)

(** C38: A plan written to disk reads back as itself, every field, hash and piece
    of evidence; only the resolved absolute paths, which [apply] computes, are
    not stored.  The plan must be one the format can hold: its format version is
    the current one, the schema version is an [int], the numbers are [int64_t]
    with [0 <= begin_offset <= end_offset], and every text is valid UTF-8 (invalid
    bytes are written as other characters, see [latin1_not_restored]). *)
Theorem plan_round_trip p :
  plan_ok p →
  deserialize (serialize p) =
  Some (Ok (Plan (format_version p) (repo_root p) (db_path p) (schema_version p) (resolved_at p)
              (config_digests p) (file_hashes p) (unresolved <$> items p) (plan_validations p)
              (limitations p))).
Proof.
  intros Hp. unfold deserialize, serialize. rewrite storable_parse by by apply storable_plan.
  f_equal. by apply read_plan_json.
Qed.

Definition sample_item : PlanItem :=
  Item (bs "i1") (bs "src/a.c") [] 3 1 10 28 (bs "#include <b.h>") (bs "/r/b.h") (bs "unused")
    Accepted [] [bs "f"] [bs "g"; bs "h"] 0 [bs "call"] [] true [] [bs "a.c"] [bs "c0"]
    [Validation (bs "before") (bs "a.c") (bs "c0") true []].

Definition sample_plan : CleanupPlan :=
  Plan 1 (bs "/r") (bs "/r/index.db") 12 (bs "2024") [bs "c0"]
    (<[bs "src/b.c" := bs "01"]> (<[bs "src/a.c" := bs "ff"]> ∅)) [sample_item] [] [bs "none"].

Lemma sample_plan_ok : plan_ok sample_plan.
Proof.
  split; [done|]. split; [simpl; lia|]. split; [apply ascii_keys; vm_compute; reflexivity|].
  constructor; [|constructor]. split; [apply ascii_keys; vm_compute; reflexivity|].
  split; [repeat constructor|simpl; lia].
Qed.

Lemma plan_round_trip_witness :
  deserialize (serialize sample_plan) = Some (Ok sample_plan).
Proof. rewrite plan_round_trip; [reflexivity|apply sample_plan_ok]. Defined.

(** A directive line with bytes that are not UTF-8, as of a Latin-1 comment, does
    not read back: a lead byte without its continuation comes back as the
    character of its low bits, here a tab, and a byte that leads nothing as
    U+FFFD.  [apply] compares the text with the file and refuses the item. *)
Example latin1_not_restored :
  let text := bs "#include <b.h> // caf" ++ [byte_of 233; " "%char; byte_of 160] in
  let item := Item (bs "i1") (bs "src/a.c") [] 3 1 10 34 text (bs "/r/b.h") (bs "unused")
    Accepted [] [] [] 0 [] [] true [] [] [] [] in
  let plan := Plan 1 (bs "/r") (bs "/r/index.db") 12 (bs "2024") [] ∅ [item] [] [] in
  match deserialize (serialize plan) with
  | Some (Ok back) => directive_text <$> items back
  | _ => []
  end = [bs "#include <b.h> // caf" ++ (byte_of <$> [9; 32; 239; 191; 189])].
Proof. vm_compute. reflexivity. Qed.

(** The text of a plan of another format. *)
Definition with_version (v : Z) (p : CleanupPlan) : CleanupPlan :=
  Plan v (repo_root p) (db_path p) (schema_version p) (resolved_at p) (config_digests p)
    (file_hashes p) (items p) (plan_validations p) (limitations p).

(** The version is narrowed before it is compared: a version of another format
    that agrees with 1 modulo 2^32 is taken for 1. *)
Example version_narrowed :
  deserialize (serialize (with_version 4294967297 sample_plan)) = Some (Ok sample_plan).
Proof. vm_compute. reflexivity. Qed.

Lemma plan_state_from_name name s : plan_state_from name = Some s → name = plan_state_name s.
Proof. unfold plan_state_from. intros H. repeat case_bool_decide; simplify_eq; done. Qed.

Lemma require_inv obj key type v :
  require obj key type = Ok v → member obj key = Some v ∧ t v = type.
Proof.
  unfold require. destruct (member obj key); [|done]. case_bool_decide; [|done].
  intros [= <-]. done.
Qed.

Lemma read_item_checked e it :
  read_item e = Ok it →
  0 <= begin_offset it <= end_offset it ∧ abs_path it = [] ∧
  member e (bs "id") = Some (VStr (id it)) ∧ member e (bs "file") = Some (VStr (file it)) ∧
  member e (bs "begin_offset") = Some (VInt (begin_offset it)) ∧
  member e (bs "end_offset") = Some (VInt (end_offset it)) ∧
  member e (bs "directive_text") = Some (VStr (directive_text it)) ∧
  member e (bs "state") = Some (VStr (plan_state_name (state it))).
Proof.
  intros H. destruct e; try discriminate H. unfold read_item in H. ok_inv.
  destruct ((_ <? _) || _) eqn:Hr in E3; [discriminate E3|]. apply orb_false_iff in Hr as [H1%Z.ltb_ge H2%Z.ltb_ge].
  destruct (plan_state_from _) as [s|] eqn:Hs; [|discriminate H]. ok_inv.
  repeat match goal with
  | H : require _ _ _ = Ok ?v |- _ => apply require_inv in H as [? ?]; destruct v; try discriminate
  end.
  cbn [int_of str_of] in *. apply plan_state_from_name in Hs. subst.
  split_and!; (done || lia).
Qed.

(** A text is accepted only as a plan of this format, with the repository
    root and every item's identity, file, directive, state and byte range (a
    real one, never inverted or negative) read from its own fields, in order;
    and no accepted item carries an absolute path of the text's choosing. *)
Theorem accepted_plan_checked text p :
  deserialize text = Some (Ok p) →
  ∃ root a,
    parse text = Some (Ok root) ∧ format_version p = kPlanFormatVersion ∧
    - 2 ^ 31 <= schema_version p < 2 ^ 31 ∧
    member root (bs "repo_root") = Some (VStr (repo_root p)) ∧
    member root (bs "items") = Some (VArr a) ∧
    Forall2 (λ e it,
      0 <= begin_offset it <= end_offset it ∧ abs_path it = [] ∧
      member e (bs "id") = Some (VStr (id it)) ∧ member e (bs "file") = Some (VStr (file it)) ∧
      member e (bs "begin_offset") = Some (VInt (begin_offset it)) ∧
      member e (bs "end_offset") = Some (VInt (end_offset it)) ∧
      member e (bs "directive_text") = Some (VStr (directive_text it)) ∧
      member e (bs "state") = Some (VStr (plan_state_name (state it)))) a (items p).
Proof.
  unfold deserialize. destruct (parse text) as [[root|]|]; [|done|done]. intros [= H].
  destruct root; try discriminate H. unfold read_plan in H. cbv zeta in H. ok_inv.
  unfold check_version in E0. case_bool_decide; [|discriminate E0].
  repeat match goal with
  | H : require _ _ _ = Ok ?v |- _ => apply require_inv in H as [? ?]; destruct v; try discriminate
  end.
  eexists _, _. split; [done|]. split; [done|]. split; [|split; [done|split; [done|]]].
  - apply to_int_range.
  - cbn [arr_of items] in *. eapply Forall2_impl; [by apply mapR_Forall2|].
    intros e it. apply read_item_checked.
Qed.

Lemma accepted_plan_checked_witness :
  ∃ root a, parse (serialize sample_plan) = Some (Ok root) ∧
    member root (bs "items") = Some (VArr a) ∧ length a = 1%nat.
Proof.
  destruct (accepted_plan_checked (serialize sample_plan) sample_plan) as (root & a & H).
  - vm_compute. reflexivity.
  - exists root, a. destruct H as (? & _ & _ & _ & ? & Hf). split_and!; [done|done|].
    apply Forall2_length in Hf. exact Hf.
Defined.

(** A plan is fresh exactly when the schema version is the current one and
    every recorded file still has its recorded hash: a missing file, a changed
    file or another schema is always reported. *)
Theorem fresh_iff_unchanged sha1 read_file p current :
  staleness_reasons (hash_file sha1 read_file) p current = [] ↔
  schema_version p = current ∧
  ∀ file want, file_hashes p !! file = Some want →
    hash_file sha1 read_file (PathUtil.join (repo_root p) [file]) = Some want.
Proof.
  unfold staleness_reasons. rewrite app_nil. split.
  - intros [Hs Hf]. case_bool_decide; [|done]. split; [done|]. intros f want H'.
    apply elem_of_in_order in H'.
    assert (stale_file (hash_file sha1 read_file) (repo_root p) (f, want) = []) as Hst.
    { clear Hs. induction (in_order (file_hashes p)) as [|e l IH]; [by apply elem_of_nil in H'|].
      csimpl in Hf. apply app_nil in Hf as [He Hl]. apply elem_of_cons in H' as [->|H']; auto. }
    unfold stale_file in Hst. cbn [fst snd] in Hst.
    destruct (hash_file _ _ _) as [have|]; [|done]. case_bool_decide; [|done]. by subst.
  - intros [Hs Hf]. rewrite bool_decide_eq_true_2 by done. split; [done|].
    assert (∀ e, e ∈ in_order (file_hashes p) → stale_file (hash_file sha1 read_file) (repo_root p) e = []) as He.
    { intros [f want] H%elem_of_in_order. unfold stale_file. cbn [fst snd].
      rewrite (Hf _ _ H). by rewrite bool_decide_eq_true_2. }
    clear Hf. induction (in_order (file_hashes p)) as [|e l IH]; [done|]. csimpl.
    rewrite He by by left. apply IH. intros e' H'. apply He. by right.
Qed.
