(* ===== verification/Tables.v ===== *)
(** * Tables of an SQL database

    What the storage layer's statements do to a table with a [UNIQUE] or primary
    key: [INSERT ... ON CONFLICT DO UPDATE], [INSERT OR IGNORE], [DELETE ...
    WHERE] and [SELECT ... WHERE], on the list of the rows in rowid order; and,
    for a table with an [INTEGER PRIMARY KEY], the id [RETURNING id] gives.  A
    component's table is an instance of [Keyed] (and of [HasId]); the laws are
    in [KeyedLaws] and [TableLaws]. *)

From S2P Require Export Bytes.

Open Scope Z_scope.

(** ** Keyed tables *)

Class Keyed (R K : Type) : Type := {
  row_key : R → K;
  (** [DO UPDATE SET]: the existing row, then the [excluded] one. *)
  on_conflict : R → R → R
}.

Class KeyedLaws (R K : Type) `{Keyed R K} : Prop := {
  key_on_conflict old new : row_key (on_conflict old new) = row_key old
}.

Section keyed.
Context {R K : Type} `{Keyed R K} `{EqDecision K}.
Implicit Types (rows : list R) (r new : R).

Definition keys rows : list K := row_key <$> rows.

(** The updated row and the table, when a row has the key. *)
Fixpoint update_conflict rows new : option (R * list R) :=
  match rows with
  | [] => None
  | r :: rows =>
      if decide (row_key r = row_key new) then Some (on_conflict r new, on_conflict r new :: rows)
      else prod_map (λ r, r) (cons r) <$> update_conflict rows new
  end.

(** An upsert into a table without rowid. *)
Definition put rows new : list R :=
  match update_conflict rows new with Some (_, rows) => rows | None => rows ++ [new] end.

Lemma update_conflict_None rows new :
  update_conflict rows new = None ↔ row_key new ∉ keys rows.
Proof.
  induction rows as [|r rows IH]; cbn; [split; [intros _; apply not_elem_of_nil|done]|].
  case_decide as Hk.
  - split; [done|]. intros Hn. destruct Hn. rewrite Hk. by left.
  - rewrite fmap_None, IH, not_elem_of_cons. naive_solver.
Qed.

Lemma update_conflict_Some rows new r' rows' :
  update_conflict rows new = Some (r', rows') →
  ∃ pre old post, rows = pre ++ old :: post ∧ row_key old = row_key new ∧
    r' = on_conflict old new ∧ rows' = pre ++ on_conflict old new :: post.
Proof.
  revert rows'. induction rows as [|r rows IH]; intros rows'; cbn; [done|].
  case_decide as Hk.
  - intros [= <- <-]. by exists [], r, rows.
  - intros Hm. apply fmap_Some in Hm as ([r0 rest] & E & Heq). injection Heq as -> ->.
    destruct (IH _ E) as (pre & old & post & -> & ? & ? & ->).
    by exists (r :: pre), old, post.
Qed.

Lemma filter_keys_NoDup (P : R → Prop) `{∀ r, Decision (P r)} rows :
  NoDup (keys rows) → NoDup (keys (filter P rows)).
Proof. intros Hk. eapply sublist_NoDup; [exact Hk|]. apply fmap_sublist, sublist_filter. Qed.

Context `{!KeyedLaws R K}.

Lemma put_keys rows new k : k ∈ keys (put rows new) ↔ k = row_key new ∨ k ∈ keys rows.
Proof.
  unfold put, keys. destruct (update_conflict rows new) as [[r' rows']|] eqn:E.
  - apply update_conflict_Some in E as (pre & old & post & -> & Hk & _ & ->).
    rewrite !fmap_app, !fmap_cons, key_on_conflict, Hk, !elem_of_app, !elem_of_cons. naive_solver.
  - rewrite fmap_app, elem_of_app, fmap_cons, elem_of_cons, fmap_nil, elem_of_nil. naive_solver.
Qed.

Lemma put_NoDup rows new : NoDup (keys rows) → NoDup (keys (put rows new)).
Proof.
  unfold put. intros Hk. destruct (update_conflict rows new) as [[r' rows']|] eqn:E.
  - apply update_conflict_Some in E as (pre & old & post & -> & _ & _ & ->).
    unfold keys in *. rewrite fmap_app, fmap_cons in *. by rewrite key_on_conflict.
  - apply update_conflict_None in E. unfold keys in *. rewrite fmap_app.
    apply NoDup_app; split_and!; [done| |apply NoDup_singleton].
    intros k Hk' Hin. by apply list_elem_of_singleton in Hin as ->.
Qed.

(** What a [put] leaves: the row of the key, and every row of another key. *)
Lemma put_elem rows new r :
  r ∈ put rows new →
  r ∈ rows ∨ r = new ∧ row_key new ∉ keys rows ∨
  ∃ old, old ∈ rows ∧ row_key old = row_key new ∧ r = on_conflict old new.
Proof.
  unfold put. destruct (update_conflict rows new) as [[r' rows']|] eqn:E.
  - apply update_conflict_Some in E as (pre & old & post & -> & Hk & _ & ->).
    rewrite !elem_of_app, !elem_of_cons. intros [?|[->|?]]; [by left; auto| |by left; auto].
    right; right. exists old. rewrite !elem_of_app, !elem_of_cons. auto.
  - apply update_conflict_None in E. rewrite elem_of_app, list_elem_of_singleton.
    intros [?| ->]; [by left|]. right; left. done.
Qed.
End keyed.

(** ** Tables with an id *)

Class HasId (R : Type) : Type := {
  row_id : R → Z;
  with_id : Z → R → R
}.

Class TableLaws (R K : Type) `{Keyed R K} `{HasId R} : Prop := {
  table_keyed :: KeyedLaws R K;
  id_with_id i r : row_id (with_id i r) = i;
  key_with_id i r : row_key (with_id i r) = row_key r;
  id_on_conflict old new : row_id (on_conflict old new) = row_id old
}.

Section table.
Context {R K : Type} `{Keyed R K} `{HasId R} `{EqDecision K}.
Implicit Types (rows : list R) (r new : R).

(** The rowid SQLite gives to a new row: one more than the largest. *)
Definition next_id rows : Z := foldr (λ r m, Z.max (row_id r) m) 0 rows + 1.

(** The id [RETURNING] gives, and the table. *)
Definition upsert rows new : Z * list R :=
  match update_conflict rows new with
  | Some (r, rows) => (row_id r, rows)
  | None => (next_id rows, rows ++ [with_id (next_id rows) new])
  end.

(** [INSERT], which fails on a row of the same key. *)
Definition insert_row rows new : result (list R) :=
  match update_conflict rows new with
  | Some _ => Err (bs "UNIQUE constraint failed")
  | None => Ok (rows ++ [with_id (next_id rows) new])
  end.

(** [INSERT OR IGNORE]. *)
Definition insert_or_ignore rows new : list R :=
  match update_conflict rows new with
  | Some _ => rows
  | None => rows ++ [with_id (next_id rows) new]
  end.

Definition ids rows : list Z := row_id <$> rows.
Definition has_id rows (i : Z) : bool := existsb (λ r, row_id r =? i) rows.

(** [SELECT ... WHERE id = ?]. *)
Fixpoint by_id rows (i : Z) : option R :=
  match rows with
  | [] => None
  | r :: rows => if row_id r =? i then Some r else by_id rows i
  end.

(** The constraints of the table. *)
Record unique_table rows : Prop := {
  unique_ids : NoDup (ids rows);
  unique_keys : NoDup (keys rows);
  positive_ids : Forall (λ i, 0 < i) (ids rows)
}.

(** What an upsert leaves: the row of the key under the returned id, and every
    row of another key. *)
Record upserted rows new (i : Z) (rows' : list R) : Prop := {
  up_row : ∃ r, r ∈ rows' ∧ row_id r = i ∧ row_key r = row_key new ∧
    (r = with_id i new ∧ row_key new ∉ keys rows ∧ i ∉ ids rows
     ∨ ∃ old, old ∈ rows ∧ row_id old = i ∧ r = on_conflict old new);
  up_others r : row_key r ≠ row_key new → r ∈ rows' ↔ r ∈ rows
}.

Context `{!TableLaws R K}.

Lemma has_id_elem rows i : has_id rows i = true ↔ i ∈ ids rows.
Proof.
  unfold has_id, ids. rewrite existsb_exists, list_elem_of_fmap.
  setoid_rewrite Z.eqb_eq. setoid_rewrite <- list_elem_of_In. naive_solver.
Qed.

Lemma next_id_fresh rows i : i ∈ ids rows → i < next_id rows.
Proof.
  unfold next_id. induction rows as [|r rows IH]; cbn; [by intros ?%elem_of_nil|].
  intros [->|Hi]%elem_of_cons; [lia|]. specialize (IH Hi). lia.
Qed.

Lemma next_id_positive rows : 0 < next_id rows.
Proof. unfold next_id. induction rows; simpl; lia. Qed.

(** An upsert keeps the ids of the others and the keys. *)
Lemma upsert_ids rows new i rows' :
  upsert rows new = (i, rows') → ∀ j, j ∈ ids rows' ↔ j = i ∨ j ∈ ids rows.
Proof.
  unfold upsert, ids. destruct (update_conflict rows new) as [[r0 rows0]|] eqn:E; intros [= <- <-] j.
  - apply update_conflict_Some in E as (pre & old & post & -> & _ & -> & ->).
    rewrite !fmap_app, !fmap_cons, id_on_conflict, !elem_of_app, !elem_of_cons. naive_solver.
  - rewrite fmap_app, elem_of_app, fmap_cons, id_with_id, elem_of_cons, fmap_nil, elem_of_nil.
    naive_solver.
Qed.

Lemma upsert_unique rows new i rows' :
  upsert rows new = (i, rows') → unique_table rows → unique_table rows'.
Proof.
  unfold upsert. intros E [Hi Hk Hp].
  destruct (update_conflict rows new) as [[r0 rows0]|] eqn:Eu; injection E as <- <-.
  - apply update_conflict_Some in Eu as (pre & old & post & -> & _ & _ & ->).
    unfold ids, keys in *. rewrite fmap_app, fmap_cons in Hi, Hp. rewrite fmap_app, fmap_cons in Hk.
    split; unfold ids, keys; rewrite fmap_app, fmap_cons, ?id_on_conflict, ?key_on_conflict; done.
  - apply update_conflict_None in Eu. split; unfold ids, keys in *; rewrite !fmap_app; cbn.
    + apply NoDup_app; split_and!; [done| |apply NoDup_singleton].
      intros j Hj Hj'. apply list_elem_of_singleton in Hj' as ->.
      rewrite id_with_id in Hj. apply next_id_fresh in Hj. lia.
    + apply NoDup_app; split_and!; [done| |apply NoDup_singleton].
      intros k Hj Hj'. apply list_elem_of_singleton in Hj' as ->. by rewrite key_with_id in Hj.
    + apply Forall_app; split; [done|]. constructor; [|constructor].
      rewrite id_with_id. apply next_id_positive.
Qed.

Lemma upsert_spec rows new i rows' :
  upsert rows new = (i, rows') → unique_table rows → upserted rows new i rows'.
Proof.
  unfold upsert. intros E [Hi Hk Hp].
  destruct (update_conflict rows new) as [[r0 rows0]|] eqn:Eu; injection E as <- <-.
  - apply update_conflict_Some in Eu as (pre & old & post & -> & Hkey & -> & ->).
    split.
    + exists (on_conflict old new). rewrite id_on_conflict, key_on_conflict.
      split_and!; [rewrite elem_of_app, elem_of_cons; auto|done|done|].
      right. exists old. split_and!; [rewrite elem_of_app, elem_of_cons; auto|done|done].
    + intros r Hr. rewrite !elem_of_app, !elem_of_cons.
      assert (r ≠ on_conflict old new) by (intros ->; by rewrite key_on_conflict in Hr).
      assert (r ≠ old) by (intros ->; done). naive_solver.
  - apply update_conflict_None in Eu. split.
    + exists (with_id (next_id rows) new). rewrite id_with_id, key_with_id.
      split_and!; [rewrite elem_of_app, elem_of_cons; auto|done|done|].
      left. split_and!; [done|done|]. intros Hin%next_id_fresh. lia.
    + intros r Hr. rewrite elem_of_app, list_elem_of_singleton.
      assert (r ≠ with_id (next_id rows) new) by (intros ->; by rewrite key_with_id in Hr).
      naive_solver.
Qed.

Lemma unique_filter (P : R → Prop) `{∀ r, Decision (P r)} rows :
  unique_table rows → unique_table (filter P rows).
Proof.
  intros [Hi Hk Hp]. split; unfold ids, keys in *.
  - eapply sublist_NoDup; [exact Hi|]. apply fmap_sublist, sublist_filter.
  - by apply filter_keys_NoDup.
  - rewrite Forall_forall in *. intros i Hi'. apply Hp. revert Hi'.
    rewrite !list_elem_of_fmap. setoid_rewrite list_elem_of_filter. naive_solver.
Qed.

Lemma by_id_Some rows i r : unique_table rows → by_id rows i = Some r ↔ r ∈ rows ∧ row_id r = i.
Proof.
  intros [Hi _ _]. induction rows as [|x rows IH]; cbn.
  - split; [done|]. by intros [?%elem_of_nil _].
  - cbn in Hi. apply NoDup_cons in Hi as [Hx Hi]. rewrite elem_of_cons.
    destruct (Z.eqb_spec (row_id x) i) as [Hxi|Hxi].
    + split; [intros [= ->]; auto|]. intros [[->|Hr] Hri]; [done|].
      destruct Hx. rewrite Hxi, <- Hri. by apply list_elem_of_fmap_2.
    + rewrite IH by done. naive_solver.
Qed.

(** An insertion that succeeds is an upsert of a new key. *)
Lemma insert_row_upsert rows new rows' :
  insert_row rows new = Ok rows' →
  upsert rows new = (next_id rows, rows') ∧ row_key new ∉ keys rows ∧
  rows' = rows ++ [with_id (next_id rows) new].
Proof.
  unfold insert_row, upsert. destruct (update_conflict rows new) as [[r0 rows0]|] eqn:E; [done|].
  intros [= <-]. by rewrite <- update_conflict_None.
Qed.

(** Where a row of the new table comes from. *)
Lemma upsert_elem rows new i rows' r :
  upsert rows new = (i, rows') → r ∈ rows' →
  r ∈ rows ∨ r = with_id i new ∨
  ∃ old, old ∈ rows ∧ row_key old = row_key new ∧ r = on_conflict old new.
Proof.
  unfold upsert. destruct (update_conflict rows new) as [[r0 rows0]|] eqn:E; intros [= <- <-].
  - apply update_conflict_Some in E as (pre & old & post & -> & Hk & _ & ->).
    rewrite !elem_of_app, !elem_of_cons. intros [?|[->|?]]; [by left; auto| |by left; auto].
    right; right. exists old. rewrite !elem_of_app, !elem_of_cons. auto.
  - rewrite elem_of_app, list_elem_of_singleton. intros [?|?]; auto.
Qed.

Lemma upsert_id_elem rows new i rows' : upsert rows new = (i, rows') → i ∈ ids rows'.
Proof. intros Hup. apply (upsert_ids _ _ _ _ Hup). by left. Qed.

Lemma upsert_ids_mono rows new i rows' j : upsert rows new = (i, rows') → j ∈ ids rows → j ∈ ids rows'.
Proof. intros Hup Hj. apply (upsert_ids _ _ _ _ Hup). by right. Qed.

Lemma ignore_unique rows new : unique_table rows → unique_table (insert_or_ignore rows new).
Proof.
  intros Hu. unfold insert_or_ignore. destruct (update_conflict rows new) eqn:E; [done|].
  apply (upsert_unique rows new (next_id rows)); [|done]. unfold upsert. by rewrite E.
Qed.

Lemma ignore_elem rows new r :
  r ∈ insert_or_ignore rows new → r ∈ rows ∨ r = with_id (next_id rows) new.
Proof.
  unfold insert_or_ignore. destruct (update_conflict rows new); [by left|].
  rewrite elem_of_app, list_elem_of_singleton. tauto.
Qed.

Lemma elem_of_ids rows i : i ∈ ids rows ↔ ∃ r, r ∈ rows ∧ row_id r = i.
Proof. unfold ids. rewrite list_elem_of_fmap. naive_solver. Qed.
End table.

#[global] Arguments keys : simpl never.
#[global] Arguments ids : simpl never.
