(* ===== verification/CompileDb.v ===== *)
(** * Compile commands: [src/src/compiledb/compiledb.cpp]

    The stripping of a compiler command line to the flags a parse wants, the
    healing of stored flags, the driver and version heuristics, the encoding of
    include paths under labels and its decoding, and the normalised descriptor
    of a translation unit's configuration.  Reading [compile_commands.json] is
    Clang's; the regular expressions are written out as the automata they
    denote. *)

From S2P Require Export PathUtil Json.

Open Scope Z_scope.

(** ** Tokens *)

Definition mem (l : list bytes) (s : bytes) : bool := bool_decide (s ∈ l).

Definition kDrop : list bytes := bs <$>
  ["-c"; "--"; "-M"; "-MM"; "-MD"; "-MMD"; "-MG"; "-MP"; "-MV"; "-Werror"; "-pedantic-errors";
   "-shared"; "-static"; "-rdynamic"; "-pie"; "-no-pie"; "-s"; "-pipe"; "-nostdlib";
   "-nodefaultlibs"; "-nostartfiles"; "-static-libgcc"; "-shared-libgcc"; "-static-libstdc++"]%string.

Definition kDropWithArg : list bytes := bs <$>
  ["-o"; "-MF"; "-MT"; "-MQ"; "-dependency-file"; "--serialize-diagnostics"; "-Xlinker"; "-T";
   "-L"; "-l"]%string.

Definition kDropPrefix : list bytes := bs <$>
  ["-Werror="; "-Wp,-M"; "-MF"; "-MT"; "-MQ"; "-l"; "-L"; "-Wl,"; "-Wa,"; "-fuse-ld=";
   "-fmodules-cache-path="]%string.

Definition has_drop_prefix (tok : bytes) : bool := existsb (λ prefix, starts_with prefix tok) kDropPrefix.

(** [[A-Za-z]] and [[0-9]]. *)
Definition is_alpha (c : ascii) : bool :=
  ((65 <=? zb c) && (zb c <=? 90)) || ((97 <=? zb c) && (zb c <=? 122)).

(** [^[A-Za-z_][A-Za-z0-9_-]*=]. *)
Definition is_env_assignment (tok : bytes) : bool :=
  match tok with
  | [] => false
  | c :: rest =>
      (is_alpha c || bool_decide (c = "_"%char)) &&
      match drop_while (λ c, is_alpha c || is_digit c || mem [bs "_"; bs "-"] [c]) rest with
      | c :: _ => bool_decide (c = "="%char)
      | [] => false
      end
  end.

Definition kLaunchers : list bytes := bs <$>
  ["ccache"; "sccache"; "distcc"; "icecc"; "icerun"; "env"; "time"; "nice"]%string.

Definition is_launcher (tok : bytes) : bool := mem kLaunchers (basename tok).

Definition abs_against (p base : bytes) : bytes :=
  if isabs p then p else normpath (PathUtil.join base [p]).

Definition db_dir_from_arg (db_arg : bytes) : bytes :=
  let kJson := bs "compile_commands.json" in
  let n := (length db_arg - length kJson)%nat in
  if bool_decide (length kJson ≤ length db_arg)%nat && bool_decide (drop n db_arg = kJson)
  then match take n db_arg with [] => bs "." | dir => dir end
  else db_arg.

(** The loop of [command_start]: the number of prefix tokens. *)
Fixpoint prefix_length (args : list bytes) : nat :=
  match args with
  | tok :: args =>
      if is_env_assignment tok || is_launcher tok then S (prefix_length args) else 0
  | [] => 0
  end.

Definition command_start (args : list bytes) : nat :=
  let i := prefix_length args in
  if bool_decide (i < length args)%nat then i else 0%nat.

Definition driver (argv : list bytes) (directory : bytes) : bytes :=
  match argv with
  | [] => []
  | _ =>
      let argv0 := default [] (argv !! command_start argv) in
      if contains slash argv0 then abs_against argv0 directory else argv0
  end.

(** ** Stripping *)

(** The rules [strip_for_libclang] and [sanitize] share: what is dropped alone,
    with its argument, or kept. *)
Inductive drop_rule : Type := drop_token | drop_with_arg | keep_token.

Definition drop_rule_of (tok : bytes) : drop_rule :=
  if mem kDrop tok then drop_token
  else if mem kDropWithArg tok then drop_with_arg
  else if has_drop_prefix tok then drop_token
  else keep_token.

Definition include_flags : list bytes := [bs "-I"; bs "-isystem"; bs "-iquote"].

(** A token against the include flags, in their order: the flag alone, or glued
    to its value. *)
Inductive flag_match : Type := flag_alone (flag : bytes) | flag_glued (flag value : bytes) | no_flag.

Fixpoint match_flag (flags : list bytes) (tok : bytes) : flag_match :=
  match flags with
  | [] => no_flag
  | flag :: flags =>
      if bool_decide (tok = flag) then flag_alone flag
      else if bool_decide (length flag < length tok)%nat && starts_with flag tok
      then flag_glued flag (drop (length flag) tok)
      else match_flag flags tok
  end.

Definition indirected (s : bytes) : bool := contains "<" s || contains "$" s.

(** The [while (i < argv.size())] loop of [strip_for_libclang]. *)
Fixpoint strip_loop (src : list bytes) (directory : bytes) (argv : list bytes) : list bytes :=
  match argv with
  | [] => []
  | tok :: argv =>
      match drop_rule_of tok with
      | drop_token => strip_loop src directory argv
      | drop_with_arg =>
          match argv with _ :: argv => strip_loop src directory argv | [] => [] end
      | keep_token =>
          if mem src tok then strip_loop src directory argv
          else
            match match_flag include_flags tok with
            | flag_alone flag =>
                match argv with
                | arg :: argv =>
                    flag :: (if indirected arg then arg else abs_against arg directory)
                      :: strip_loop src directory argv
                | [] => [flag; abs_against [] directory]
                end
            | flag_glued flag val =>
                (if indirected val then tok else flag ++ abs_against val directory)
                  :: strip_loop src directory argv
            | no_flag => tok :: strip_loop src directory argv
            end
      end
  end.

Definition strip_for_libclang (argv : list bytes) (filename directory : bytes) : list bytes :=
  let argv' := match argv with [] => [] | _ => drop (S (command_start argv)) argv end in
  strip_loop [filename; basename filename] directory argv'.

Fixpoint sanitize_loop (stored : list bytes) : list bytes :=
  match stored with
  | [] => []
  | tok :: stored =>
      match drop_rule_of tok with
      | drop_token => sanitize_loop stored
      | drop_with_arg => match stored with _ :: stored => sanitize_loop stored | [] => [] end
      | keep_token => tok :: sanitize_loop stored
      end
  end.

Definition has_prefix_token (stored : list bytes) : bool :=
  match stored with tok :: _ => is_env_assignment tok || is_launcher tok | [] => false end.

Definition sanitize (stored : list bytes) : list bytes :=
  sanitize_loop (if has_prefix_token stored then drop (S (command_start stored)) stored else stored).

(** ** Versions *)

(** [([._-]?[0-9])*] after a digit: the states of [^v?[0-9]+([._-][0-9]+)*$]. *)
Fixpoint version_digits (in_digits : bool) (s : bytes) : bool :=
  match s with
  | [] => in_digits
  | c :: s =>
      if is_digit c then version_digits true s
      else in_digits && mem [bs "."; bs "_"; bs "-"] [c] && version_digits false s
  end.

Definition is_version_segment (seg : bytes) : bool :=
  match seg with
  | c :: rest => if decide (c = "v"%char) then version_digits false rest else version_digits false seg
  | [] => false
  end.

Definition split_base_version (root : bytes) : bytes * bytes :=
  let normed := normpath root in
  let '(base, seg) := PathUtil.split normed in
  if bool_decide (seg = []) || bool_decide (base = []) || bool_decide (base = bs "/")
  then (normed, [])
  else if is_version_segment seg then (base, seg) else (normed, []).

(** [flush]: [std::stoll] throws when the number is out of range. *)
Definition flush (out : list Z) (cur : bytes) : result (list Z) :=
  match cur with
  | [] => Ok out
  | _ =>
      if forallb is_digit cur then
        match strtoll cur with
        | Some n => Ok (out ++ [n])
        | None => throw (bs "stoll")
        end
      else Ok out
  end.

Fixpoint version_loop (v cur : bytes) (out : list Z) : result (list Z) :=
  match v with
  | [] => flush out cur
  | c :: v =>
      if mem [bs "."; bs "_"; bs "-"] [c]
      then let! out := flush out cur in version_loop v [] out
      else version_loop v (cur ++ [c]) out
  end.

Definition version_key (version : bytes) : result (list Z) :=
  version_loop (match version with
                | c :: rest => if decide (c = "v"%char) then rest else version
                | [] => version
                end) [] [].

(** ** Labels *)

(** [map_include_values]; [fn] may throw. *)
Fixpoint map_include_values (fn : bytes → result bytes) (options : list bytes) : result (list bytes) :=
  match options with
  | [] => Ok []
  | tok :: options =>
      match match_flag include_flags tok with
      | flag_alone flag =>
          match options with
          | val :: options =>
              let! val := fn val in
              let! out := map_include_values fn options in
              Ok (tok :: val :: out)
          | [] => Ok [tok]
          end
      | flag_glued flag val =>
          let! val := fn val in
          let! out := map_include_values fn options in
          Ok ((flag ++ val) :: out)
      | no_flag =>
          let! out := map_include_values fn options in
          Ok (tok :: out)
      end
  end.

Fixpoint include_values (options : list bytes) : list bytes :=
  match options with
  | [] => []
  | tok :: options =>
      match match_flag include_flags tok with
      | flag_alone _ =>
          match options with
          | val :: options => val :: include_values options
          | [] => [[]]
          end
      | flag_glued _ val => val :: include_values options
      | no_flag => include_values options
      end
  end.

Definition resolve_value (h : host) (labels : LabelResolver) (val : bytes) : result bytes :=
  if negb (contains "<" val) && negb (contains "$" val)
     && (bool_decide (val = []) || negb (bool_decide (head val = Some "~"%char)))
  then Ok val
  else abspath h (resolve_fs_path h val labels).

Definition resolve_options (h : host) (lk : option (bytes → option bytes)) (autoderive : bool)
    (options : list bytes) : result (list bytes) :=
  map_include_values (resolve_value h {| PathUtil.lookup := lk; PathUtil.autoderive := autoderive |}) options.

Record AliasEntry := Alias { alias_name : bytes; alias_path : bytes; versioned : bool }.

(** Longest path first, then the name. *)
Definition alias_le (a b : AliasEntry) : Prop :=
  (if decide (length (alias_path a) = length (alias_path b))
   then ltb_le bytes_ltb (alias_name a) (alias_name b)
   else (length (alias_path b) < length (alias_path a))%nat).

#[export] Instance alias_le_dec : RelDecision alias_le.
Proof. intros a b. unfold alias_le. case_decide; apply _. Defined.

Definition build_label_map (h : host) (labels : list AliasEntry)
    (lk : option (bytes → option bytes)) : result (list AliasEntry) :=
  let resolver := {| PathUtil.lookup := lk; PathUtil.autoderive := false |} in
  let! out := mapR (λ e,
    let! rp := abspath h (resolve_fs_path h (alias_path e) resolver) in
    Ok (Alias (alias_name e) rp (versioned e))) labels in
  Ok (merge_sort alias_le out).

(** The version segment and the remainder of [rem]. *)
Definition split_version (rem : bytes) : bytes * bytes :=
  match rem with
  | c :: tail =>
      if decide (c = slash) then
        let head := match break_at slash tail with Some (u, _) => u | None => tail end in
        if negb (bool_decide (head = [])) && is_version_segment head
        then (head, match break_at slash tail with Some (_, v) => slash :: v | None => [] end)
        else ([], rem)
      else ([], rem)
  | [] => ([], [])
  end.

Fixpoint match_alias (absval : bytes) (label_map : list AliasEntry) : option (bytes * bytes * bytes) :=
  match label_map with
  | [] => None
  | e :: label_map =>
      let rp := alias_path e in
      if bool_decide (absval = rp) || starts_with (rp ++ [slash]) absval then
        let rem := drop (length rp) absval in
        let '(vseg, rem) := if versioned e then split_version rem else ([], rem) in
        Some (alias_name e, vseg, rem)
      else match_alias absval label_map
  end.

Definition alias_value (label_map : list AliasEntry) (val : bytes) : bytes :=
  if indirected val || negb (isabs val) then val
  else match match_alias (normpath val) label_map with
       | None => val
       | Some (name, _, rem) => "<"%char :: name ++ ">"%char :: rem
       end.

Definition alias_options (label_map : list AliasEntry) (options : list bytes) : result (list bytes) :=
  map_include_values (λ val, Ok (alias_value label_map val)) options.

(** ** The normalised configuration *)

Inductive TranslationUnitConfigState : Type :=
| registered | unregistered | ambiguous | stale | unavailable.

#[export] Instance TranslationUnitConfigState_eq_dec : EqDecision TranslationUnitConfigState.
Proof. solve_decision. Defined.

Record TranslationUnitConfig := TuConfig {
  tc_driver : option bytes;
  tc_working_dir : option bytes;
  tc_language : option bytes;
  tc_standard : option bytes;
  tc_target : option bytes;
  tc_abi_options : list bytes;
  tc_sysroot : option bytes;
  tc_resource_dir : option bytes;
  tc_include_paths : list bytes;
  tc_macro_state : list bytes;
  tc_relevant_environment : list bytes;
  tc_generated_inputs : list bytes;
  tc_diagnostics_policy : option bytes;
  tc_arguments : list bytes;
  tc_state : TranslationUnitConfigState
}.

(** [std::ranges::find(arguments, "-x")] and the argument after it. *)
Fixpoint after_x (arguments : list bytes) : option bytes :=
  match arguments with
  | arg :: arguments => if bool_decide (arg = bs "-x") then head arguments else after_x arguments
  | [] => None
  end.

Definition arguments_select_cxx (arguments : list bytes) : bool :=
  mem arguments (bs "--driver-mode=g++") || mem arguments (bs "-xc++") ||
  match after_x arguments with Some lang => starts_with (bs "c++") lang | None => false end.

(** The inner loop of [last_option_value] over the names: [arg] stays the
    argument the iteration started with, [args] is what follows [i]. *)
Fixpoint option_names (names : list bytes) (arg : bytes) (args : list bytes) (value : option bytes) :
    list bytes * option bytes :=
  match names with
  | [] => (args, value)
  | name :: names =>
      if starts_with (name ++ bs "=") arg
      then option_names names arg args (Some (drop (S (length name)) arg))
      else match args with
           | next :: args' =>
               if bool_decide (arg = name) then option_names names arg args' (Some next)
               else option_names names arg args value
           | [] => option_names names arg args value
           end
  end.

(** The inner loop of [append_flag_values]. *)
Fixpoint flag_values (flags : list bytes) (arg : bytes) (args : list bytes) (out : list bytes) :
    list bytes * list bytes :=
  match flags with
  | [] => (args, out)
  | flag :: flags =>
      match args with
      | next :: args' =>
          if bool_decide (arg = flag) then flag_values flags arg args' (out ++ [next])
          else if starts_with flag arg && bool_decide (length flag < length arg)%nat
          then flag_values flags arg args (out ++ [drop (length flag) arg])
          else flag_values flags arg args out
      | [] =>
          if starts_with flag arg && bool_decide (length flag < length arg)%nat
          then flag_values flags arg args (out ++ [drop (length flag) arg])
          else flag_values flags arg args out
      end
  end.

(** The outer loops; an iteration leaves at most the arguments it was given. *)
Fixpoint each_argument {A} (body : bytes → list bytes → A → list bytes * A) (fuel : nat)
    (args : list bytes) (acc : A) : A :=
  match fuel, args with
  | S fuel, arg :: args => let '(args, acc) := body arg args acc in each_argument body fuel args acc
  | _, _ => acc
  end.

Definition last_option_value (args names : list bytes) : option bytes :=
  each_argument (option_names names) (length args) args None.

Definition append_flag_values (args out flags : list bytes) : list bytes :=
  each_argument (flag_values flags) (length args) args out.

Definition environment_names : list bytes := bs <$>
  ["CPATH"; "C_INCLUDE_PATH"; "CPLUS_INCLUDE_PATH"; "OBJC_INCLUDE_PATH"; "SDKROOT";
   "MACOSX_DEPLOYMENT_TARGET"; "CIDX_RESOURCE_DIR"]%string.

Definition environment_inputs (getenv : bytes → option bytes) : list bytes :=
  omap (λ name, (λ value, name ++ bs "=" ++ value) <$> getenv name) environment_names.

(** The body of the last loop of [resolve_translation_unit_config]: the macros
    and the ABI options. *)
Definition macro_abi_step (arg : bytes) (args : list bytes) (acc : list bytes * list bytes) :
    list bytes * (list bytes * list bytes) :=
  let '(macros, abi) := acc in
  let '(args, macros) :=
    if bool_decide (arg = bs "-D") || bool_decide (arg = bs "-U") then
      match args with
      | next :: args => (args, macros ++ [arg ++ next])
      | [] => ([], macros)
      end
    else if starts_with (bs "-D") arg || starts_with (bs "-U") arg
    then (args, macros ++ [arg])
    else (args, macros) in
  let is_abi := starts_with (bs "-m") arg || starts_with (bs "-fabi") arg
    || mem (bs <$> ["-fshort-wchar"; "-fshort-enums"; "-fno-exceptions"; "-fno-rtti"]%string) arg in
  (args, (macros, if is_abi then abi ++ [arg] else abi)).

Definition resolve_translation_unit_config (getenv : bytes → option bytes)
    (driver working_dir : option bytes) (arguments : list bytes)
    (language resource_dir diagnostics_policy : option bytes) : TranslationUnitConfig :=
  let '(macros, abi) := each_argument macro_abi_step (length arguments) arguments ([], []) in
  TuConfig driver working_dir
    (Some (match language with
           | Some l => l
           | None => if arguments_select_cxx arguments then bs "c++" else bs "c"
           end))
    (last_option_value arguments [bs "-std"; bs "--std"])
    (last_option_value arguments [bs "-target"; bs "--target"])
    abi
    (last_option_value arguments [bs "-isysroot"; bs "--sysroot"])
    resource_dir
    (append_flag_values arguments [] [bs "-I"; bs "-isystem"; bs "-iquote"; bs "-F"])
    macros
    (environment_inputs getenv)
    (append_flag_values arguments [] [bs "-include"; bs "-imacros"; bs "-include-pch"])
    (Some (default (bs "error-limit=0") diagnostics_policy))
    arguments registered.

(** A precompiled header is recorded with a spurious input: [-include] is
    matched as glued before [-include-pch] is matched alone. *)
Example include_pch_inputs :
  append_flag_values [bs "-include-pch"; bs "a.pch"] [] [bs "-include"; bs "-imacros"; bs "-include-pch"]
  = [bs "-pch"; bs "a.pch"].
Proof. vm_compute. reflexivity. Qed.

Example strip_sample :
  strip_for_libclang (bs <$> ["CCACHE_DIR=/x"; "ccache"; "g++"; "-Iinc"; "-isystem"; "/usr/./i"; "-o";
      "a.o"; "-c"; "src/a.cpp"; "-DX=1"]%string) (bs "src/a.cpp") (bs "/w") =
  bs <$> ["-I/w/inc"; "-isystem"; "/usr/./i"; "-DX=1"]%string.
Proof. vm_compute. reflexivity. Qed.

Example version_sample :
  version_key (bs "v18-0-0-275") = Ok [18; 0; 0; 275] ∧ is_version_segment (bs "v18-0.0") = true ∧
  is_version_segment (bs "18-") = false.
Proof. vm_compute. done. Qed.

(** ** Healing *)

Lemma sanitize_loop_kept l :
  Forall (λ tok, drop_rule_of tok = keep_token) l → sanitize_loop l = l.
Proof. induction 1 as [|tok l Htok _ IH]; [done|]. cbn [sanitize_loop]. by rewrite Htok, IH. Qed.

Lemma sanitize_loop_keeps l : Forall (λ tok, drop_rule_of tok = keep_token) (sanitize_loop l).
Proof.
  induction l as [l IH] using (induction_ltof1 _ length). unfold ltof in IH.
  destruct l as [|tok l]; [constructor|]. cbn [sanitize_loop].
  destruct (drop_rule_of tok) eqn:E.
  - apply IH. simpl. lia.
  - destruct l; [constructor|]. apply IH. simpl. lia.
  - constructor; [done|]. apply IH. simpl. lia.
Qed.

Lemma keep_abs p : isabs p = true → drop_rule_of p = keep_token.
Proof.
  destruct p as [|c q]; [done|]. simpl. intros H%bool_decide_eq_true. subst c.
  vm_compute. reflexivity.
Qed.

Lemma keep_flag_abs flag p :
  flag ∈ include_flags → isabs p = true → drop_rule_of (flag ++ p) = keep_token.
Proof.
  intros Hf Hp. destruct p as [|c q]; [done|]. simpl in Hp. apply bool_decide_eq_true in Hp. subst c.
  unfold include_flags in Hf. rewrite !elem_of_cons, elem_of_nil in Hf.
  destruct Hf as [->|[->|[->|[]]]]; vm_compute; reflexivity.
Qed.

Lemma keep_flag flag : flag ∈ include_flags → drop_rule_of flag = keep_token.
Proof.
  unfold include_flags. rewrite !elem_of_cons, elem_of_nil.
  intros [->|[->|[->|[]]]]; vm_compute; reflexivity.
Qed.

Lemma match_flag_spec flags tok :
  match match_flag flags tok with
  | flag_alone flag => flag ∈ flags ∧ tok = flag
  | flag_glued flag val => flag ∈ flags ∧ tok = flag ++ val ∧ val ≠ []
  | no_flag => tok ∉ flags
  end.
Proof.
  induction flags as [|flag flags IH]; cbn [match_flag]; [apply not_elem_of_nil|].
  case_bool_decide as Hf; [split; [by left|done]|].
  destruct (_ && _) eqn:E.
  - bool_split. apply starts_with_spec in H0 as [v ->]. rewrite drop_app_length.
    split_and!; [by left|done|]. intros ->. rewrite app_nil_r in H. lia.
  - destruct (match_flag flags tok); rewrite !elem_of_cons; try tauto.
Qed.

Lemma abs_against_abs p base : isabs base = true → isabs (abs_against p base) = true.
Proof.
  intros Hb. unfold abs_against. destruct (isabs p) eqn:Hp; [done|].
  rewrite isabs_normpath. unfold PathUtil.join, join_one. cbn [foldl]. rewrite Hp.
  destruct base as [|c base]; [done|]. destruct (_ || _); by simpl in *.
Qed.

(** Every token [strip_for_libclang] emits is one healing keeps. *)
Lemma strip_loop_keeps src directory argv :
  isabs directory = true → Forall (λ tok, indirected tok = false) argv →
  Forall (λ tok, drop_rule_of tok = keep_token) (strip_loop src directory argv).
Proof.
  intros Hd. induction argv as [l IH] using (induction_ltof1 _ length). unfold ltof in IH.
  destruct l as [|tok argv]; intros Hind; [constructor|]. cbn [strip_loop].
  apply Forall_cons in Hind as [Htok Hind].
  destruct (drop_rule_of tok) eqn:E; [by apply IH; [simpl; lia|]| |].
  { destruct argv; [constructor|]. apply IH; [simpl; lia|by inversion Hind]. }
  destruct (mem src tok); [by apply IH; [simpl; lia|]|].
  pose proof (match_flag_spec include_flags tok) as Hm.
  destruct (match_flag include_flags tok) as [flag|flag val|]; [destruct argv as [|arg argv]|..].
  - constructor; [apply keep_flag, Hm|]. constructor; [|constructor]. by apply keep_abs, abs_against_abs.
  - apply Forall_cons in Hind as [-> Hind]. constructor; [apply keep_flag, Hm|].
    constructor; [by apply keep_abs, abs_against_abs|]. apply IH; [simpl; lia|done].
  - destruct Hm as (Hf & -> & _). unfold indirected, contains in *. bool_split.
    rewrite !elem_of_app in *. rewrite !bool_decide_eq_false_2 by tauto. cbn [orb].
    constructor; [by apply keep_flag_abs, abs_against_abs|]. apply IH; [simpl; lia|done].
  - constructor; [done|]. apply IH; [simpl; lia|done].
Qed.

(** ** Labels round trip *)

Lemma initial_slashes_ext s r :
  ¬ Forall (λ c, c = slash) s → initial_slashes (s ++ r) = initial_slashes s.
Proof.
  intros Hs. destruct s as [|c1 [|c2 [|c3 s]]]; simpl; repeat case_decide; try done; subst;
    destruct Hs; repeat constructor; done.
Qed.

Lemma all_slashes_comps s i : Forall (λ c, c = slash) s → foldl (norm_step i) [] (split_components s) = [].
Proof.
  intros Hs. assert (split_components s = replicate (S (length s)) []) as ->.
  { induction Hs as [|c s -> _ IH]; [done|]. cbn [split_components]. by rewrite decide_True, IH. }
  generalize (S (length s)). intros n. induction n; [done|]. by simpl.
Qed.

(** Normalising the front of a path does not change what the whole names. *)
Lemma normpath_prefix s t :
  isabs s = true → ¬ Forall (λ c, c = slash) (normpath s) →
  normpath (s ++ slash :: t) = normpath (normpath s ++ slash :: t).
Proof.
  intros Habs Hn.
  assert (¬ Forall (λ c, c = slash) s) as Hs.
  { intros Hs. destruct Hn. assert (norm_comps s = []) as Hc by by apply all_slashes_comps.
    destruct s as [|c s]; [done|]. rewrite normpath_render, Hc by done. unfold render.
    cbn [join_with]. rewrite app_nil_r. rewrite isabs_initial in Habs.
    apply bool_decide_eq_true in Habs.
    destruct (initial_slashes (c :: s)) as [|n]; [done|]. by apply Forall_replicate. }
  apply normpath_eq.
  - by rewrite !initial_slashes_ext, normpath_initial.
  - unfold norm_comps. rewrite !split_components_slash, !foldl_app, !initial_slashes_ext by done.
    rewrite normpath_initial. f_equal. pose proof (normpath_comps s) as Hc.
    unfold norm_comps in Hc. by rewrite normpath_initial in Hc.
Qed.

(** *** Matching *)

Definition names_path (e : AliasEntry) (p rem : bytes) : Prop :=
  p = alias_path e ++ rem ∧ (rem = [] ∨ ∃ t, rem = slash :: t).

Lemma match_alias_spec p label_map n v r :
  match_alias p label_map = Some (n, v, r) →
  ∃ e, e ∈ label_map ∧ alias_name e = n ∧ (versioned e = false → names_path e p r).
Proof.
  induction label_map as [|e l IH]; cbn [match_alias]; [done|].
  destruct (_ || _) eqn:E.
  - intros Hm. exists e. split; [by left|]. destruct (versioned e) eqn:Hv.
    + destruct (split_version _) as [v' r']. injection Hm as <- <- <-. by split.
    + injection Hm as <- <- <-. split; [done|]. intros _. unfold names_path. bool_split.
      destruct E as [->%bool_decide_eq_true|[t ->]%starts_with_spec].
      * rewrite drop_ge by done. split; [by rewrite app_nil_r|by left].
      * rewrite <- app_assoc, drop_app_length. split; [done|right; by exists t].
  - intros Hm. destruct (IH Hm) as (e' & ? & ?). exists e'. split; [by right|done].
Qed.

(** *** Rewriting the values of the include flags *)

Lemma match_glued flag v :
  flag ∈ include_flags → v ≠ [] → match_flag include_flags (flag ++ v) = flag_glued flag v.
Proof.
  unfold include_flags. rewrite !elem_of_cons, elem_of_nil. intros Hf Hv. destruct v as [|c v]; [done|].
  assert (∀ f, bool_decide (length f < length (f ++ c :: v))%nat = true) as Hl
    by (intros f; apply bool_decide_eq_true; rewrite length_app; simpl; lia).
  assert (∀ f, bool_decide (f ++ c :: v = f) = false) as Hne.
  { intros f. apply bool_decide_eq_false. intros E%(f_equal length). rewrite length_app in E. simpl in E. lia. }
  assert (∀ f, starts_with f (f ++ c :: v) = true) as Hst
    by (intros f; apply starts_with_spec; eauto).
  destruct Hf as [->|[->|[->|[]]]]; cbn [match_flag].
  - by rewrite Hne, Hl, Hst, drop_app_length.
  - rewrite (bool_decide_eq_false_2 (_ = bs "-I")) by done.
    replace (starts_with (bs "-I") (bs "-isystem" ++ c :: v)) with false by done.
    rewrite andb_false_r. by rewrite Hne, Hl, Hst, drop_app_length.
  - rewrite (bool_decide_eq_false_2 (_ = bs "-I")), (bool_decide_eq_false_2 (_ = bs "-isystem")) by done.
    replace (starts_with (bs "-I") (bs "-iquote" ++ c :: v)) with false by done.
    replace (starts_with (bs "-isystem") (bs "-iquote" ++ c :: v)) with false by done.
    rewrite !andb_false_r. by rewrite Hne, Hl, Hst, drop_app_length.
Qed.

Lemma match_alone flag : flag ∈ include_flags → match_flag include_flags flag = flag_alone flag.
Proof.
  unfold include_flags. rewrite !elem_of_cons, elem_of_nil.
  intros [->|[->|[->|[]]]]; vm_compute; reflexivity.
Qed.

(** Rewriting twice composes the rewritings of the values. *)
Lemma map_include_values_compose f g opts :
  Forall (λ v, g v ≠ []) (include_values opts) → Forall (λ v, v ≠ []) (include_values opts) →
  ∃ enc, map_include_values (λ v, Ok (g v)) opts = Ok enc ∧
    map_include_values f enc = map_include_values (λ v, f (g v)) opts.
Proof.
  induction opts as [l IH] using (induction_ltof1 _ length). unfold ltof in IH.
  destruct l as [|tok opts]; intros Hg Hne; [by exists []|].
  cbn [map_include_values include_values] in *.
  pose proof (match_flag_spec include_flags tok) as Hm.
  destruct (match_flag include_flags tok) as [flag|flag val|] eqn:E.
  - destruct opts as [|val opts]; [by apply Forall_cons in Hne as [? _]|].
    apply Forall_cons in Hg as [Hgv Hg]. apply Forall_cons in Hne as [Hv Hne].
    destruct (IH opts) as (enc & He & Hf); [simpl; lia|done|done|].
    rewrite He. cbn [rbind]. eexists. split; [done|]. cbn [map_include_values]. rewrite E.
    by rewrite Hf.
  - apply Forall_cons in Hg as [Hgv Hg]. apply Forall_cons in Hne as [Hv Hne].
    destruct (IH opts) as (enc & He & Hf); [simpl; lia|done|done|].
    rewrite He. cbn [rbind]. eexists. split; [done|]. cbn [map_include_values].
    destruct Hm as (Hflag & _ & _). rewrite match_glued by done. by rewrite Hf.
  - destruct (IH opts) as (enc & He & Hf); [simpl; lia|done|done|].
    rewrite He. cbn [rbind]. eexists. split; [done|]. cbn [map_include_values]. by rewrite E, Hf.
Qed.

Lemma map_include_values_ext f g opts :
  Forall (λ v, f v = g v) (include_values opts) →
  map_include_values f opts = map_include_values g opts.
Proof.
  induction opts as [l IH] using (induction_ltof1 _ length). unfold ltof in IH.
  destruct l as [|tok opts]; [done|]. cbn [map_include_values include_values].
  destruct (match_flag include_flags tok) as [flag|flag val|].
  - destruct opts as [|val opts]; [done|]. intros [-> Hf]%Forall_cons. rewrite IH; [done|simpl; lia|done].
  - intros [-> Hf]%Forall_cons. rewrite IH; [done|simpl; lia|done].
  - intros Hf. rewrite IH; [done|simpl; lia|done].
Qed.

(** *** The bytes of a normalised path are the path's *)

Lemma split_components_bytes (c : ascii) p : c ∉ p → Forall (λ x, c ∉ x) (split_components p).
Proof.
  induction p as [|d p IH]; cbn [split_components].
  - intros _. constructor; [apply not_elem_of_nil|constructor].
  - intros [Hd Hp]%not_elem_of_cons. specialize (IH Hp). case_decide.
    + constructor; [apply not_elem_of_nil|done].
    + destruct (split_components p) as [|x xs]; 
        [constructor; [|constructor]; apply not_elem_of_cons; auto using not_elem_of_nil|].
      apply Forall_cons in IH as [Hx Hxs]. constructor; [by apply not_elem_of_cons|done].
Qed.

Lemma norm_fold_bytes (c : ascii) i comps acc :
  Forall (λ x, c ∉ x) comps → Forall (λ x, c ∉ x) acc →
  Forall (λ x, c ∉ x) (foldl (norm_step i) acc comps).
Proof.
  intros H. revert acc. induction H as [|x comps Hx _ IH]; intros acc Hacc; [done|].
  apply IH. unfold norm_step. destruct (_ || _); [done|]. destruct (_ || _ || _).
  - apply Forall_app. by repeat constructor.
  - induction Hacc as [|y [|z acc] Hy Hacc IHa]; [constructor|constructor|].
    cbn [removelast]. by constructor.
Qed.

Lemma join_with_bytes (c : ascii) sep l : c ∉ sep → Forall (λ x, c ∉ x) l → c ∉ join_with sep l.
Proof.
  intros Hs. induction 1 as [|x [|y l] Hx Hl IH]; [apply not_elem_of_nil|done|].
  change (join_with sep (x :: y :: l)) with (x ++ sep ++ join_with sep (y :: l)).
  rewrite !elem_of_app. tauto.
Qed.

Lemma normpath_bytes (c : ascii) p : c ∉ p → c ≠ slash → c ≠ "."%char → c ∉ normpath p.
Proof.
  intros Hp Hs Hd. destruct (decide (p = [])) as [->|Hne].
  { change (normpath []) with ["."%char]. by rewrite list_elem_of_singleton. }
  rewrite normpath_render by done. unfold render.
  assert (c ∉ replicate (initial_slashes p) slash ++ join_with [slash] (norm_comps p)) as H.
  { rewrite elem_of_app. intros [[-> _]%elem_of_replicate|H]; [done|]. revert H.
    apply join_with_bytes; [by rewrite list_elem_of_singleton|].
    apply norm_fold_bytes; [by apply split_components_bytes|constructor]. }
  destruct (replicate _ _ ++ _); [|done]. change dot with ["."%char].
  by rewrite list_elem_of_singleton.
Qed.

(** *** A plain path, and one under a label *)

Definition plain (v : bytes) : Prop := isabs v = true ∧ "<"%char ∉ v ∧ "$"%char ∉ v.

Lemma plain_normpath v : plain v → plain (normpath v).
Proof.
  intros (Ha & Hl & Hd). split_and!; [by rewrite isabs_normpath|by apply normpath_bytes..].
Qed.

Lemma expanduser_abs h v : isabs v = true → expanduser h v = v.
Proof.
  destruct v as [|c v]; [done|]. simpl. intros H%bool_decide_eq_true. subst c. done.
Qed.

Lemma expandvars_plain h v : "$"%char ∉ v → expandvars h v = v.
Proof. intros H. unfold expandvars, contains. by rewrite bool_decide_eq_false_2. Qed.

Lemma abspath_absolute h v : isabs v = true → abspath h v = Ok (normpath v).
Proof. unfold abspath. by intros ->. Qed.

Lemma resolve_plain h v labels : plain v → resolve_fs_path h v labels = normpath v.
Proof.
  intros (Ha & Hl & Hd). unfold resolve_fs_path, label_expand, contains.
  rewrite bool_decide_eq_false_2 by done. by rewrite expandvars_plain, expanduser_abs.
Qed.

Lemma break_at_absent c s : c ∉ s → break_at c s = None.
Proof.
  induction s as [|d s IH]; [done|]. intros [? ?]%not_elem_of_cons. cbn [break_at].
  rewrite decide_False by congruence. by rewrite IH.
Qed.

Lemma break_at_first c u v : c ∉ u → break_at c (u ++ c :: v) = Some (u, v).
Proof.
  induction u as [|d u IH]; cbn [break_at app]; [by rewrite decide_True|].
  intros [? ?]%not_elem_of_cons. rewrite decide_False by congruence. by rewrite IH.
Qed.

Lemma label_expand_hit lk auto name rem stored :
  ">"%char ∉ name → "<"%char ∉ rem → lk name = Some stored →
  label_expand ("<"%char :: name ++ ">"%char :: rem)
    {| PathUtil.lookup := Some lk; PathUtil.autoderive := auto |} = stored ++ rem.
Proof.
  intros Hn Hr Hlk. unfold label_expand, contains.
  rewrite bool_decide_eq_true_2 by by left. cbn [length label_expand_from break_at].
  rewrite decide_True by done. rewrite break_at_first by done. cbn [app].
  unfold expand_label. cbn [PathUtil.lookup]. rewrite Hlk. f_equal.
  destruct (length (name ++ _)); cbn [label_expand_from]; [done|]. by rewrite break_at_absent.
Qed.

(** A registered label: an exact one (no version), whose stored path is plain and
    not the root. *)
Record label_ok (lk : bytes → option bytes) (e : AliasEntry) : Prop := {
  lo_exact : versioned e = false;
  lo_plain : plain (alias_path e);
  lo_name : ">"%char ∉ alias_name e;
  lo_lookup : lk (alias_name e) = Some (alias_path e);
  lo_proper : ¬ Forall (λ c, c = slash) (normpath (alias_path e))
}.

Lemma build_label_map_spec h labels lk0 lk label_map :
  Forall (label_ok lk) labels → build_label_map h labels lk0 = Ok label_map →
  ∀ e, e ∈ label_map → ∃ l, l ∈ labels ∧ e = Alias (alias_name l) (normpath (alias_path l)) false.
Proof.
  intros Hok Hb e He. unfold build_label_map in Hb. cbv zeta in Hb.
  rewrite (mapR_ok _ (λ l, Alias (alias_name l) (normpath (alias_path l)) false)) in Hb.
  - cbn [rbind] in Hb. injection Hb as <-. rewrite merge_sort_Permutation in He.
    apply list_elem_of_fmap in He as (l & -> & Hl). by exists l.
  - intros l Hl. rewrite Forall_forall in Hok. destruct (Hok l Hl) as [Hv Hp _ _ _].
    rewrite resolve_plain, abspath_absolute, normpath_idem, Hv; [done| |done].
    rewrite isabs_normpath. apply Hp.
Qed.

Definition canonical (label_map : list AliasEntry) (v : bytes) : bytes :=
  match match_alias (normpath v) label_map with Some _ => normpath v | None => v end.

Lemma plain_not_indirected v : plain v → indirected v = false.
Proof.
  intros (_ & Hl & Hd). unfold indirected, contains. by rewrite !bool_decide_eq_false_2.
Qed.

Lemma decode_encoded h labels lk0 lk label_map v :
  Forall (label_ok lk) labels → build_label_map h labels lk0 = Ok label_map → plain v →
  resolve_value h {| PathUtil.lookup := Some lk; PathUtil.autoderive := true |}
    (alias_value label_map v) = Ok (canonical label_map v).
Proof.
  intros Hok Hb Hv. unfold alias_value, canonical.
  rewrite plain_not_indirected by done. destruct Hv as (Ha & Hl & Hd). rewrite Ha. cbn [negb orb].
  destruct (match_alias (normpath v) label_map) as [[[n vs] rem]|] eqn:Hm.
  - apply match_alias_spec in Hm as (e & He & Hname & Hp).
    eapply build_label_map_spec in He as (l & Hlab & ->); [|done|done]. cbn in Hname, Hp. subst n.
    rewrite Forall_forall in Hok. destruct (Hok l Hlab) as [_ Hpl Hgt Hlk Hprop].
    destruct (Hp eq_refl) as [Heq Hrem]. cbn [alias_path] in Heq.
    assert (plain (normpath v)) as (_ & Hl' & Hd') by by apply plain_normpath.
    rewrite Heq in Hl', Hd'. rewrite elem_of_app in Hl', Hd'.
    unfold resolve_value, contains. rewrite bool_decide_eq_true_2 by by left. cbn [negb andb].
    unfold resolve_fs_path. rewrite (label_expand_hit lk true _ _ (alias_path l)) by tauto.
    destruct Hpl as (Hal & Hll & Hdl).
    rewrite expandvars_plain by (rewrite elem_of_app; tauto).
    assert (isabs (alias_path l ++ rem) = true) as Hab
      by (rewrite isabs_app; [done|]; intros E; by rewrite E in Hal).
    rewrite expanduser_abs by done. rewrite abspath_absolute by by rewrite isabs_normpath.
    rewrite normpath_idem. f_equal. rewrite <- (normpath_idem v), Heq.
    destruct Hrem as [->|[t ->]]; [by rewrite !app_nil_r, normpath_idem|by apply normpath_prefix].
  - unfold resolve_value, contains. rewrite !bool_decide_eq_false_2 by done. cbn [negb andb].
    destruct v as [|c v]; [done|]. simpl in Ha. apply bool_decide_eq_true in Ha. by subst c.
Qed.

(** ** Version keys *)

(** The segments between separators. *)
Fixpoint segments (v cur : bytes) : list bytes :=
  match v with
  | [] => [cur]
  | c :: v =>
      if mem [bs "."; bs "_"; bs "-"] [c] then cur :: segments v [] else segments v (cur ++ [c])
  end.

(** A segment that is a number too large for [long long]. *)
Definition overflows (seg : bytes) : Prop :=
  seg ≠ [] ∧ forallb is_digit seg = true ∧ strtoll seg = None.

Lemma flush_spec out cur :
  match flush out cur with
  | Ok out' => ¬ overflows cur ∧ ∃ l, out' = out ++ l ∧ Forall (λ n, int64_range n = true) l
  | Err _ => overflows cur
  end.
Proof.
  unfold flush, overflows. destruct cur as [|c cur].
  - split; [by intros [? _]|]. exists []. split; [by rewrite app_nil_r|constructor].
  - destruct (forallb is_digit (c :: cur)) eqn:E.
    + destruct (strtoll (c :: cur)) as [n|] eqn:En; [|done].
      split; [by intros (_ & _ & ?)|]. exists [n]. split; [done|].
      constructor; [|constructor]. by eapply strtoll_range.
    + split; [by intros (_ & ? & _)|]. exists []. split; [by rewrite app_nil_r|constructor].
Qed.

Lemma version_loop_spec v cur out :
  match version_loop v cur out with
  | Ok out' => Forall (λ seg, ¬ overflows seg) (segments v cur) ∧
      ∃ l, out' = out ++ l ∧ Forall (λ n, int64_range n = true) l
  | Err _ => Exists overflows (segments v cur)
  end.
Proof.
  revert cur out. induction v as [|c v IH]; intros cur out; cbn [version_loop segments].
  - pose proof (flush_spec out cur). destruct (flush out cur); [|by left].
    destruct H. split; [by constructor|done].
  - destruct (mem _ _); [|apply IH]. pose proof (flush_spec out cur) as Hf.
    destruct (flush out cur) as [out1|]; cbn [rbind]; [|by left].
    destruct Hf as (Hn & l & -> & Hl). specialize (IH [] (out ++ l)).
    destruct (version_loop v [] (out ++ l)); [|by right].
    destruct IH as (Hs & l' & -> & Hl'). split; [by constructor|]. exists (l ++ l').
    rewrite <- app_assoc. split; [done|]. by apply Forall_app.
Qed.

(** ** Properties *)

(** Encoding include paths under labels and decoding them gives the same
    flags back, every path under a registered label normalised and every other
    token untouched: for plain absolute paths and exact labels, whatever the
    labels' order and nesting. *)
Theorem label_round_trip h labels lk0 lk label_map options :
  Forall (label_ok lk) labels → build_label_map h labels lk0 = Ok label_map →
  Forall plain (include_values options) →
  ∃ enc, alias_options label_map options = Ok enc ∧
    resolve_options h (Some lk) true enc =
    map_include_values (λ v, Ok (canonical label_map v)) options.
Proof.
  intros Hok Hb Hp. unfold alias_options, resolve_options.
  assert (∀ v, plain v → v ≠ []) as Hne by by intros v (Ha & _) ->.
  destruct (map_include_values_compose
    (resolve_value h {| PathUtil.lookup := Some lk; PathUtil.autoderive := true |})
    (alias_value label_map) options) as (enc & He & Hd).
  - eapply Forall_impl; [exact Hp|]. intros v Hv. unfold alias_value.
    destruct (_ || _); [by apply Hne|]. destruct (match_alias _ _) as [[[??]?]|]; [done|by apply Hne].
  - eapply Forall_impl; [exact Hp|]. exact Hne.
  - exists enc. split; [done|]. rewrite Hd. apply map_include_values_ext.
    eapply Forall_impl; [exact Hp|]. intros v Hv. by eapply decode_encoded.
Qed.

Definition sample_lookup (name : bytes) : option bytes :=
  if bool_decide (name = bs "sys") then Some (bs "/usr//inc") else None.
Definition sample_host_none : host := Host (Err []) (λ _, None) None (λ _, None).

Lemma label_round_trip_witness :
  resolve_options sample_host_none (Some sample_lookup) true
    (bs <$> ["-I<sys>/b"; "-isystem"; "/opt"; "-g"]%string) =
  Ok (bs <$> ["-I/usr/inc/b"; "-isystem"; "/opt"; "-g"]%string).
Proof.
  destruct (label_round_trip sample_host_none [Alias (bs "sys") (bs "/usr//inc") false] None sample_lookup
    [Alias (bs "sys") (bs "/usr/inc") false]
    (bs <$> ["-I/usr/inc/a/../b"; "-isystem"; "/opt"; "-g"]%string)) as (enc & He & Hd).
  - constructor; [|constructor]. split; [done|split_and!; [done|decided..]|decided|done|decided].
  - vm_compute. reflexivity.
  - apply Forall_cons. split; [split_and!; [done|decided..]|].
    apply Forall_cons. split; [split_and!; [done|decided..]|constructor].
  - vm_compute in He. injection He as <-. etransitivity; [exact Hd|]. vm_compute. reflexivity.
Defined.

(** What an import stores is what healing keeps: with an absolute directory
    and no indirected path, re-applying the drop rules to the stripped flags
    changes nothing, unless they begin like a command prefix; and healing never
    leaves a flag the rules drop. *)
Theorem import_survives_healing argv filename directory stored :
  isabs directory = true → Forall (λ tok, indirected tok = false) argv →
  has_prefix_token (strip_for_libclang argv filename directory) = false →
  sanitize (strip_for_libclang argv filename directory) = strip_for_libclang argv filename directory ∧
  Forall (λ tok, drop_rule_of tok = keep_token) (sanitize stored).
Proof.
  intros Hd Hi Hp. split; [|apply sanitize_loop_keeps]. unfold sanitize. rewrite Hp.
  apply sanitize_loop_kept, strip_loop_keeps; [done|].
  destruct argv; [constructor|]. by apply Forall_drop.
Qed.

Lemma import_survives_healing_witness :
  sanitize (strip_for_libclang (bs <$> ["cc"; "-Ii"; "-o"; "x"; "-Wall"]%string) (bs "a.c") (bs "/w"))
  = bs <$> ["-I/w/i"; "-Wall"]%string.
Proof.
  destruct (import_survives_healing (bs <$> ["cc"; "-Ii"; "-o"; "x"; "-Wall"]%string) (bs "a.c") (bs "/w") [])
    as [H _]; [done|repeat constructor|done|]. rewrite H. vm_compute. reflexivity.
Defined.

(** The version key holds only [long long] numbers, and it fails exactly
    when a numeric segment does not fit in one. *)
Theorem version_key_bounds version :
  let v := match version with c :: rest => if decide (c = "v"%char) then rest else version | [] => [] end in
  match version_key version with
  | Ok l => Forall (λ n, int64_range n = true) l ∧ Forall (λ seg, ¬ overflows seg) (segments v [])
  | Err _ => Exists overflows (segments v [])
  end.
Proof.
  assert (version_key version = version_loop
    match version with c :: rest => if decide (c = "v"%char) then rest else version | [] => [] end [] []) as ->
    by by destruct version.
  cbv zeta. pose proof (version_loop_spec match version with
    c :: rest => if decide (c = "v"%char) then rest else version | [] => [] end [] []) as H.
  destruct (version_loop _ [] []); [|done]. destruct H as (Hs & l & -> & Hl). by split.
Qed.
