(* ===== verification/IncludeStore.v ===== *)
(** * The include tier of the index: [src/src/storage/storage_include.cpp]

    The tables of translation unit configurations, include configurations,
    edges, directive sites and macro uses, with the foreign keys of
    [storage_schema.cpp], and every statement the file runs on them.  A
    statement that would break a foreign key throws.  SHA-1 and the environment
    are arguments. *)

From S2P Require Export Tables CompileDb JsonMin IncludeGraph Hashing.

Open Scope Z_scope.

(** ** The canonical text of a configuration *)

Definition json_escape (ch : ascii) : bytes :=
  if decide (ch = quote) then [backslash; quote]
  else if decide (ch = backslash) then [backslash; backslash]
  else if decide (ch = "008"%char) then bs "\b"
  else if decide (ch = "012"%char) then bs "\f"
  else if decide (ch = "010"%char) then bs "\n"
  else if decide (ch = "013"%char) then bs "\r"
  else if decide (ch = "009"%char) then bs "\t"
  else if zb ch <? 32
       then bs "\u00" ++ [hex_digit (Z.shiftr (zb ch) 4); hex_digit (Z.land (zb ch) 15)]
  else [ch].

Definition json_quote (value : bytes) : bytes := quote :: mbind json_escape value ++ [quote].

Definition json_array (values : list bytes) : bytes :=
  "["%char :: join_with (bs ",") (json_quote <$> values) ++ bs "]".

Definition config_state_name (state : TranslationUnitConfigState) : bytes :=
  match state with
  | registered => bs "registered"
  | unregistered => bs "unregistered"
  | ambiguous => bs "ambiguous"
  | stale => bs "stale"
  | unavailable => bs "unavailable"
  end.

Definition config_state (name : bytes) : TranslationUnitConfigState :=
  if bool_decide (name = bs "registered") then registered
  else if bool_decide (name = bs "unregistered") then unregistered
  else if bool_decide (name = bs "ambiguous") then ambiguous
  else if bool_decide (name = bs "stale") then stale
  else unavailable.

(** The fourteen fields, a list as its array and a text quoted. *)
Definition canonical_config_json (c : TranslationUnitConfig) : bytes :=
  let text (o : option bytes) := json_quote (default [] o) in
  "["%char :: join_with (bs ",")
    [text (tc_driver c); text (tc_working_dir c); text (tc_language c); text (tc_standard c);
     text (tc_target c); json_array (tc_abi_options c); text (tc_sysroot c);
     text (tc_resource_dir c); json_array (tc_include_paths c); json_array (tc_macro_state c);
     json_array (tc_relevant_environment c); json_array (tc_generated_inputs c);
     text (tc_diagnostics_policy c); json_array (tc_arguments c)] ++ bs "]".

Definition translation_unit_config_hash (sha1 : bytes → bytes) (c : TranslationUnitConfig) : bytes :=
  digest_to_hex (sha1 (canonical_config_json c)).

(** ** The tables *)

(** [translation_unit_config]; the lists are JSON text. *)
Record ConfigRow := Config {
  cfg_id : Z;
  descriptor_hash : bytes;
  descriptor_json : bytes;
  cfg_driver : option bytes;
  cfg_working_dir : option bytes;
  cfg_language : option bytes;
  cfg_standard : option bytes;
  cfg_target : option bytes;
  cfg_abi_options : bytes;
  cfg_sysroot : option bytes;
  cfg_resource_dir : option bytes;
  cfg_include_paths : bytes;
  cfg_macro_state : bytes;
  cfg_relevant_environment : bytes;
  cfg_generated_inputs : bytes;
  cfg_diagnostics_policy : option bytes;
  cfg_arguments : bytes;
  cfg_state : bytes
}.

Definition with_cfg_id (i : Z) (r : ConfigRow) : ConfigRow :=
  Config i (descriptor_hash r) (descriptor_json r) (cfg_driver r) (cfg_working_dir r)
    (cfg_language r) (cfg_standard r) (cfg_target r) (cfg_abi_options r) (cfg_sysroot r)
    (cfg_resource_dir r) (cfg_include_paths r) (cfg_macro_state r) (cfg_relevant_environment r)
    (cfg_generated_inputs r) (cfg_diagnostics_policy r) (cfg_arguments r) (cfg_state r).

(** [ON CONFLICT(descriptor_hash)]: every column but the id and the key. *)
#[export] Instance config_keyed : Keyed ConfigRow bytes := {
  row_key := descriptor_hash;
  on_conflict old new :=
    Config (cfg_id old) (descriptor_hash old) (descriptor_json new) (cfg_driver new)
      (cfg_working_dir new) (cfg_language new) (cfg_standard new) (cfg_target new)
      (cfg_abi_options new) (cfg_sysroot new) (cfg_resource_dir new) (cfg_include_paths new)
      (cfg_macro_state new) (cfg_relevant_environment new) (cfg_generated_inputs new)
      (cfg_diagnostics_policy new) (cfg_arguments new) (cfg_state new)
}.
#[export] Instance config_has_id : HasId ConfigRow := { row_id := cfg_id; with_id := with_cfg_id }.

(** [translation_unit]; the state defaults to [registered]. *)
Record TuRow := Tu { tu_id : Z; tu_file : Z; tu_config : Z; tu_state : bytes }.
#[export] Instance tu_keyed : Keyed TuRow (Z * Z) :=
  { row_key r := (tu_file r, tu_config r); on_conflict old _ := old }.
#[export] Instance tu_has_id : HasId TuRow :=
  { row_id := tu_id; with_id i r := Tu i (tu_file r) (tu_config r) (tu_state r) }.

(** [file_config], without rowid. *)
Record FileConfigRow := FileConfig {
  fc_file : Z;
  fc_config : Z;
  fc_role : bytes;
  fc_state : bytes;
  fc_reason : option bytes
}.
#[export] Instance file_config_keyed : Keyed FileConfigRow (Z * Z * bytes) := {
  row_key r := (fc_file r, fc_config r, fc_role r);
  on_conflict old new := FileConfig (fc_file old) (fc_config old) (fc_role old) (fc_state new) (fc_reason new)
}.

(** [include_config]. *)
Record IncludeConfigRow := IncludeCfg {
  ic_id : Z;
  ic_tu_file_id : Z;
  ic_digest : bytes;
  ic_driver : option bytes;
  ic_working_dir : option bytes;
  ic_arguments : option bytes;
  ic_lang_mode : option bytes;
  ic_resource_dir : option bytes;
  ic_translation_unit_config_id : option Z
}.
#[export] Instance include_config_keyed : Keyed IncludeConfigRow (Z * bytes) := {
  row_key r := (ic_tu_file_id r, ic_digest r);
  on_conflict old new :=
    IncludeCfg (ic_id old) (ic_tu_file_id old) (ic_digest old) (ic_driver new) (ic_working_dir new)
      (ic_arguments new) (ic_lang_mode new) (ic_resource_dir new) (ic_translation_unit_config_id new)
}.
#[export] Instance include_config_has_id : HasId IncludeConfigRow := {
  row_id := ic_id;
  with_id i r :=
    IncludeCfg i (ic_tu_file_id r) (ic_digest r) (ic_driver r) (ic_working_dir r)
      (ic_arguments r) (ic_lang_mode r) (ic_resource_dir r) (ic_translation_unit_config_id r)
}.

(** [include_edge]: the count accumulates, a known target is never nulled. *)
#[export] Instance edge_keyed : Keyed IncludeEdge (Z * bytes * Z) := {
  row_key e := (src_file_id e, row_dst_path e, config_id e);
  on_conflict old new :=
    IncludeEdgeRow (edge_id old) (src_file_id old)
      (match row_dst_file_id new with Some f => Some f | None => row_dst_file_id old end)
      (row_dst_path old) (config_id old) (row_is_system new) (row_is_generated new)
      (row_count old + row_count new)
}.
#[export] Instance edge_has_id : HasId IncludeEdge := {
  row_id := edge_id;
  with_id i e :=
    IncludeEdgeRow i (src_file_id e) (row_dst_file_id e) (row_dst_path e) (config_id e)
      (row_is_system e) (row_is_generated e) (row_count e)
}.

(** [include_site]. *)
Record IncludeSite := Site {
  site_id : Z;
  site_edge_id : Z;
  site_line : Z;
  site_col : Z;
  site_begin_offset : Z;
  site_end_offset : Z;
  site_spelling : bytes;
  site_is_angled : bool;
  site_directive : Z;
  cond_fingerprint : bytes;
  site_resolved : bool;
  site_guarded : bool
}.
Definition with_site_id (i : Z) (s : IncludeSite) : IncludeSite :=
  Site i (site_edge_id s) (site_line s) (site_col s) (site_begin_offset s) (site_end_offset s)
    (site_spelling s) (site_is_angled s) (site_directive s) (cond_fingerprint s) (site_resolved s)
    (site_guarded s).
#[export] Instance site_keyed : Keyed IncludeSite (Z * Z) := {
  row_key s := (site_edge_id s, site_begin_offset s);
  on_conflict old new :=
    Site (site_id old) (site_edge_id old) (site_line new) (site_col new) (site_begin_offset old)
      (site_end_offset new) (site_spelling new) (site_is_angled new) (site_directive new)
      (cond_fingerprint new) (site_resolved new) (site_guarded new)
}.
#[export] Instance site_has_id : HasId IncludeSite := { row_id := site_id; with_id := with_site_id }.

(** [include_macro_use], without rowid. *)
Record IncludeMacroUse := MacroUse {
  mu_src_file_id : Z;
  mu_def_path : bytes;
  mu_name : bytes;
  mu_config_id : Z;
  mu_count : Z
}.
#[export] Instance macro_keyed : Keyed IncludeMacroUse (Z * bytes * bytes * Z) := {
  row_key m := (mu_src_file_id m, mu_def_path m, mu_name m, mu_config_id m);
  on_conflict old new :=
    MacroUse (mu_src_file_id old) (mu_def_path old) (mu_name old) (mu_config_id old)
      (mu_count old + mu_count new)
}.

#[export] Instance config_laws : TableLaws ConfigRow bytes.
Proof. by repeat split. Qed.
#[export] Instance tu_laws : TableLaws TuRow (Z * Z).
Proof. by repeat split. Qed.
#[export] Instance file_config_laws : KeyedLaws FileConfigRow (Z * Z * bytes).
Proof. by repeat split. Qed.
#[export] Instance include_config_laws : TableLaws IncludeConfigRow (Z * bytes).
Proof. by repeat split. Qed.
#[export] Instance edge_laws : TableLaws IncludeEdge (Z * bytes * Z).
Proof. by repeat split. Qed.
#[export] Instance site_laws : TableLaws IncludeSite (Z * Z).
Proof. by repeat split. Qed.
#[export] Instance macro_laws : KeyedLaws IncludeMacroUse (Z * bytes * bytes * Z).
Proof. by repeat split. Qed.

(** The database, with the ids of the [file] table. *)
Record IncludeDb := Db {
  db_files : gset Z;
  db_configs : list ConfigRow;
  db_tus : list TuRow;
  db_file_configs : list FileConfigRow;
  db_include_configs : list IncludeConfigRow;
  db_edges : list IncludeEdge;
  db_sites : list IncludeSite;
  db_macros : list IncludeMacroUse
}.

(** ** Writing *)

(** A foreign key that references nothing. *)
Definition constraint_failed {A} : result A := Err (bs "FOREIGN KEY constraint failed").
Definition references (b : bool) : result unit := if b then Ok tt else constraint_failed.

Definition has_file (db : IncludeDb) (f : Z) : bool := bool_decide (f ∈ db_files db).
Definition has_file_opt (db : IncludeDb) (f : option Z) : bool :=
  match f with Some f => has_file db f | None => true end.

Section writing.
Context (sha1 : bytes → bytes) (getenv : bytes → option bytes).

(** [if (!input.field.empty()) c.field = input.field] and its optional form. *)
Definition prefer {A} (input c : list A) : list A := match input with [] => c | _ => input end.
Definition prefer_opt {A} (input c : option A) : option A := match input with Some _ => input | None => c end.

(** The configuration [add_translation_unit_config] stores. *)
Definition normalised (input : TranslationUnitConfig) : TranslationUnitConfig :=
  let c := resolve_translation_unit_config getenv (tc_driver input) (tc_working_dir input)
             (tc_arguments input) (tc_language input) (tc_resource_dir input)
             (tc_diagnostics_policy input) in
  TuConfig (tc_driver c) (tc_working_dir c) (tc_language c)
    (prefer_opt (tc_standard input) (tc_standard c)) (prefer_opt (tc_target input) (tc_target c))
    (prefer (tc_abi_options input) (tc_abi_options c))
    (prefer_opt (tc_sysroot input) (tc_sysroot c)) (tc_resource_dir c)
    (prefer (tc_include_paths input) (tc_include_paths c))
    (prefer (tc_macro_state input) (tc_macro_state c))
    (prefer (tc_relevant_environment input) (tc_relevant_environment c))
    (prefer (tc_generated_inputs input) (tc_generated_inputs c))
    (tc_diagnostics_policy c) (tc_arguments c) (tc_state input).

(** The bound columns. *)
Definition config_row (c : TranslationUnitConfig) : ConfigRow :=
  Config 0 (translation_unit_config_hash sha1 c) (canonical_config_json c) (tc_driver c)
    (tc_working_dir c) (tc_language c) (tc_standard c) (tc_target c) (json_array (tc_abi_options c))
    (tc_sysroot c) (tc_resource_dir c) (json_array (tc_include_paths c))
    (json_array (tc_macro_state c)) (json_array (tc_relevant_environment c))
    (json_array (tc_generated_inputs c)) (tc_diagnostics_policy c) (json_array (tc_arguments c))
    (config_state_name (tc_state c)).

Definition with_configs (db : IncludeDb) (rows : list ConfigRow) : IncludeDb :=
  Db (db_files db) rows (db_tus db) (db_file_configs db) (db_include_configs db) (db_edges db)
    (db_sites db) (db_macros db).

Definition add_translation_unit_config (input : TranslationUnitConfig) (db : IncludeDb) : Z * IncludeDb :=
  let '(id, rows) := upsert (db_configs db) (config_row (normalised input)) in
  (id, with_configs db rows).

Definition add_file_config (a : FileConfigRow) (db : IncludeDb) : result IncludeDb :=
  if negb (bool_decide (fc_role a = bs "translation_unit")) && negb (bool_decide (fc_role a = bs "header"))
  then throw (bs "unknown file configuration role: " ++ fc_role a)
  else
    let! _ := references (has_file db (fc_file a) && has_id (db_configs db) (fc_config a)) in
    Ok (Db (db_files db) (db_configs db) (db_tus db) (put (db_file_configs db) a)
          (db_include_configs db) (db_edges db) (db_sites db) (db_macros db)).

(** An [IncludeConfig] as the caller gives it. *)
Record IncludeConfig := IncludeConfig_ {
  inc_tu_file_id : Z;
  inc_digest : bytes;
  inc_driver : option bytes;
  inc_working_dir : option bytes;
  inc_arguments : list bytes;
  inc_lang_mode : option bytes;
  inc_resource_dir : option bytes
}.

Definition normalized_from_include (c : IncludeConfig) : TranslationUnitConfig :=
  resolve_translation_unit_config getenv (inc_driver c) (inc_working_dir c) (inc_arguments c)
    (inc_lang_mode c) (inc_resource_dir c) (Some (bs "error-limit=0")).

Definition add_include_config (c : IncludeConfig) (db : IncludeDb) : result (Z * IncludeDb) :=
  let '(normalized_id, db) := add_translation_unit_config (normalized_from_include c) db in
  let! _ := references (has_file db (inc_tu_file_id c)) in
  let '(id, rows) := upsert (db_include_configs db)
    (IncludeCfg 0 (inc_tu_file_id c) (inc_digest c) (inc_driver c) (inc_working_dir c)
       (Some (encode_string_array (inc_arguments c))) (inc_lang_mode c) (inc_resource_dir c)
       (Some normalized_id)) in
  let tus := insert_or_ignore (db_tus db) (Tu 0 (inc_tu_file_id c) normalized_id (bs "registered")) in
  let db := Db (db_files db) (db_configs db) tus (db_file_configs db) rows (db_edges db)
              (db_sites db) (db_macros db) in
  let! db := add_file_config (FileConfig (inc_tu_file_id c) normalized_id (bs "translation_unit")
                               (config_state_name registered) None) db in
  Ok (id, db).

Definition add_include_edge (e : IncludeEdge) (db : IncludeDb) : result (Z * IncludeDb) :=
  let! _ := references (has_file db (src_file_id e) && has_file_opt db (row_dst_file_id e)
                          && has_id (db_include_configs db) (config_id e)) in
  let '(id, rows) := upsert (db_edges db) e in
  Ok (id, Db (db_files db) (db_configs db) (db_tus db) (db_file_configs db) (db_include_configs db)
            rows (db_sites db) (db_macros db)).

Definition add_include_site (s : IncludeSite) (db : IncludeDb) : result (Z * IncludeDb) :=
  let! _ := references (has_id (db_edges db) (site_edge_id s)) in
  let '(id, rows) := upsert (db_sites db) s in
  Ok (id, Db (db_files db) (db_configs db) (db_tus db) (db_file_configs db) (db_include_configs db)
            (db_edges db) rows (db_macros db)).

Definition add_include_macro_use (m : IncludeMacroUse) (db : IncludeDb) : result IncludeDb :=
  let! _ := references (has_file db (mu_src_file_id m) && has_id (db_include_configs db) (mu_config_id m)) in
  Ok (Db (db_files db) (db_configs db) (db_tus db) (db_file_configs db) (db_include_configs db)
        (db_edges db) (db_sites db) (put (db_macros db) m)).
End writing.

(** *** Files *)

(** storage_files.cpp, [add_file] of a file whose configuration changed: its
    units are stale. *)
Definition mark_stale (f : Z) (db : IncludeDb) : IncludeDb :=
  Db (db_files db) (db_configs db)
    ((λ t, if tu_file t =? f then Tu (tu_id t) (tu_file t) (tu_config t) (bs "stale") else t) <$> db_tus db)
    ((λ r, if (fc_file r =? f) && bool_decide (fc_role r = bs "translation_unit")
           then FileConfig (fc_file r) (fc_config r) (fc_role r) (bs "stale")
                  (Some (bs "translation-unit configuration changed"))
           else r) <$> db_file_configs db)
    (db_include_configs db) (db_edges db) (db_sites db) (db_macros db).

(** ** Deleting *)

Record IncludeDeletionStats := DeletionStats { direct : nat; cascade : nat }.

(** [SELECT id FROM include_config WHERE tu_file_id = ?]. *)
Definition configs_of_tu (db : IncludeDb) (f : Z) : list Z :=
  ids (filter (λ c, ic_tu_file_id c = f) (db_include_configs db)).

Definition edges_of_tu (db : IncludeDb) (f : Z) : list Z :=
  ids (filter (λ e, config_id e ∈ configs_of_tu db f) (db_edges db)).

(** [DELETE ... WHERE P RETURNING]: the rows that stay and the number deleted. *)
Definition delete_where {R} (P : R → Prop) `{∀ r, Decision (P r)} (rows : list R) : list R * nat :=
  (filter (λ r, ¬ P r) rows, length (filter P rows)).

(** The normalised configurations of the unit's include configurations. *)
Definition normalized_ids (db : IncludeDb) (f : Z) : list Z :=
  remove_dups (omap ic_translation_unit_config_id
    (filter (λ c, ic_tu_file_id c = f) (db_include_configs db))).

(** [NOT EXISTS] in the three tables. *)
Definition unsupported (db : IncludeDb) (config_id' : Z) : bool :=
  let normalised_by i := existsb (λ c, (ic_id c =? i) &&
    bool_decide (ic_translation_unit_config_id c = Some config_id')) (db_include_configs db) in
  negb (existsb (λ t, tu_config t =? config_id') (db_tus db)) &&
  negb (existsb (λ e, normalised_by (config_id e)) (db_edges db)) &&
  negb (existsb (λ m, normalised_by (mu_config_id m)) (db_macros db)).

(** The body of the loop over [config_ids]. *)
Definition retire_headers (st : IncludeDb * nat) (config_id' : Z) : IncludeDb * nat :=
  let '(db, deleted) := st in
  let '(rows, n) := delete_where (λ r, fc_config r = config_id' ∧ fc_role r = bs "header" ∧
                                       unsupported db config_id' = true) (db_file_configs db) in
  (Db (db_files db) (db_configs db) (db_tus db) rows (db_include_configs db) (db_edges db)
     (db_sites db) (db_macros db), (deleted + n)%nat).

Definition delete_include_configs_for_tu (f : Z) (db : IncludeDb) : IncludeDeletionStats * IncludeDb :=
  let config_ids := normalized_ids db f in
  let '(tus, n1) := delete_where (λ t, tu_file t = f) (db_tus db) in
  let '(file_configs, n2) :=
    delete_where (λ r, fc_file r = f ∧ fc_role r = bs "translation_unit") (db_file_configs db) in
  let '(sites, c1) := delete_where (λ s, site_edge_id s ∈ edges_of_tu db f) (db_sites db) in
  let '(edges, c2) := delete_where (λ e, config_id e ∈ configs_of_tu db f) (db_edges db) in
  let '(macros, c3) := delete_where (λ m, mu_config_id m ∈ configs_of_tu db f) (db_macros db) in
  let '(include_configs, n3) := delete_where (λ c, ic_tu_file_id c = f) (db_include_configs db) in
  let '(db, n4) := foldl retire_headers
    (Db (db_files db) (db_configs db) tus file_configs include_configs edges sites macros, 0%nat)
    config_ids in
  (DeletionStats (n1 + n2 + n3 + n4) (c1 + c2 + c3), db).

(** [DELETE FROM file WHERE id = f], of [delete_file], [delete_directory] and
    [delete_component], with what the foreign keys of storage_schema.cpp make of
    it: the rows of the file go, with the rows of its configurations and the sites
    of the edges that go; an edge to the file forgets its target. *)
Definition lost_edge (f : Z) (db : IncludeDb) (e : IncludeEdge) : Prop :=
  src_file_id e = f ∨ config_id e ∈ configs_of_tu db f.

#[export] Instance lost_edge_dec f db e : Decision (lost_edge f db e).
Proof. unfold lost_edge. apply _. Defined.

Definition forget_target (f : Z) (e : IncludeEdge) : IncludeEdge :=
  if bool_decide (row_dst_file_id e = Some f)
  then IncludeEdgeRow (edge_id e) (src_file_id e) None (row_dst_path e) (config_id e) (row_is_system e)
         (row_is_generated e) (row_count e)
  else e.

Definition delete_file (f : Z) (db : IncludeDb) : IncludeDb :=
  Db (db_files db ∖ {[f]}) (db_configs db)
    (filter (λ t, tu_file t ≠ f) (db_tus db))
    (filter (λ r, fc_file r ≠ f) (db_file_configs db))
    (filter (λ c, ic_tu_file_id c ≠ f) (db_include_configs db))
    (forget_target f <$> filter (λ e, ¬ lost_edge f db e) (db_edges db))
    (filter (λ s, site_edge_id s ∉ ids (filter (lost_edge f db) (db_edges db))) (db_sites db))
    (filter (λ m, mu_src_file_id m ≠ f ∧ mu_config_id m ∉ configs_of_tu db f) (db_macros db)).

(** ** Reading *)

(** A lexicographic step: [ltb] first, then [rest]. *)
Definition then_by {A} (ltb rest : A → A → bool) (a b : A) : bool :=
  if ltb a b then true else if ltb b a then false else rest a b.

(** [JOIN include_config c ON c.id = e.config_id], the digest with the edge. *)
Definition join_config (db : IncludeDb) (edges : list IncludeEdge) : list (IncludeEdge * IncludeConfigRow) :=
  omap (λ e, pair e <$> by_id (db_include_configs db) (config_id e)) edges.

Definition by_digest (a b : IncludeEdge * IncludeConfigRow) : bool :=
  bytes_ltb (ic_digest a.2) (ic_digest b.2).
Definition by_dst_path (a b : IncludeEdge * IncludeConfigRow) : bool :=
  bytes_ltb (row_dst_path a.1) (row_dst_path b.1).
Definition by_src (a b : IncludeEdge * IncludeConfigRow) : bool :=
  src_file_id a.1 <? src_file_id b.1.

Definition system_ok (include_system : bool) (e : IncludeEdge) : bool :=
  include_system || negb (row_is_system e).

Definition select_edges (db : IncludeDb) (where_ : IncludeEdge * IncludeConfigRow → bool)
    (order : IncludeEdge * IncludeConfigRow → IncludeEdge * IncludeConfigRow → bool) : list IncludeEdge :=
  fst <$> sort order (filter (λ p, where_ p = true) (join_config db (db_edges db))).

Definition include_edges_from (db : IncludeDb) (src : Z) (include_system : bool) : list IncludeEdge :=
  select_edges db (λ p, (src_file_id p.1 =? src) && system_ok include_system p.1)
    (then_by by_dst_path by_digest).

Definition include_edges_from_config (db : IncludeDb) (src cfg : Z) (include_system : bool) :
    list IncludeEdge :=
  select_edges db (λ p, (src_file_id p.1 =? src) &&
      bool_decide (ic_translation_unit_config_id p.2 = Some cfg) && system_ok include_system p.1)
    (then_by by_dst_path by_digest).

Definition include_edges_to (db : IncludeDb) (dst : Z) : list IncludeEdge :=
  select_edges db (λ p, bool_decide (row_dst_file_id p.1 = Some dst)) (then_by by_src by_digest).

Definition include_edges_to_path (db : IncludeDb) (dst : bytes) : list IncludeEdge :=
  select_edges db (λ p, bool_decide (row_dst_path p.1 = dst)) (then_by by_src by_digest).

Definition all_include_edges (db : IncludeDb) (include_system : bool) : list IncludeEdge :=
  select_edges db (λ p, system_ok include_system p.1)
    (then_by by_src (then_by by_dst_path by_digest)).

Definition include_sites_for (db : IncludeDb) (edge : Z) : list IncludeSite :=
  sort (λ a b, site_begin_offset a <? site_begin_offset b)
    (filter (λ s, site_edge_id s = edge) (db_sites db)).

Definition include_macro_uses (db : IncludeDb) (src : Z) (def_path : bytes) : list IncludeMacroUse :=
  sort (then_by (λ a b, bytes_ltb (mu_name a) (mu_name b)) (λ a b, mu_config_id a <? mu_config_id b))
    (filter (λ m, mu_src_file_id m = src ∧ mu_def_path m = def_path) (db_macros db)).

Definition include_configs_for_tu (db : IncludeDb) (f : Z) : list IncludeConfigRow :=
  sort (λ a b, bytes_ltb (ic_digest a) (ic_digest b))
    (filter (λ c, ic_tu_file_id c = f) (db_include_configs db)).

Definition include_config_by_id (db : IncludeDb) (i : Z) : option IncludeConfigRow :=
  by_id (db_include_configs db) i.

Definition translation_unit_config_id_by_hash (db : IncludeDb) (hash : bytes) : option Z :=
  cfg_id <$> head (filter (λ c, descriptor_hash c = hash) (db_configs db)).

Definition include_graph_populated (db : IncludeDb) : bool :=
  negb (bool_decide (db_include_configs db = [])).

Definition include_tier_covers_file (db : IncludeDb) (f : Z) : bool :=
  existsb (λ c, ic_tu_file_id c =? f) (db_include_configs db) ||
  existsb (λ e, src_file_id e =? f) (db_edges db) ||
  existsb (λ e, bool_decide (row_dst_file_id e = Some f)) (db_edges db).

Definition file_configs_for (db : IncludeDb) (f : Z) : list FileConfigRow :=
  sort (then_by (λ a b, fc_config a <? fc_config b) (λ a b, bytes_ltb (fc_role a) (fc_role b)))
    (filter (λ r, fc_file r = f) (db_file_configs db)).

(** A configuration read back: its row's id and descriptor, the decoded columns
    and the state of its association with a file. *)
Record StoredConfig := Stored {
  sc_id : Z;
  sc_descriptor_hash : bytes;
  sc_descriptor_json : bytes;
  sc_config : TranslationUnitConfig;
  sc_association_state : TranslationUnitConfigState
}.

Definition decoded (text : bytes) : result (list bytes) :=
  match decode_string_array text with Some r => r | None => Err [] end.

Definition config_from_row (r : ConfigRow) (association : bytes) : result StoredConfig :=
  let! abi_options := decoded (cfg_abi_options r) in
  let! include_paths := decoded (cfg_include_paths r) in
  let! macro_state := decoded (cfg_macro_state r) in
  let! relevant_environment := decoded (cfg_relevant_environment r) in
  let! generated_inputs := decoded (cfg_generated_inputs r) in
  let! arguments := decoded (cfg_arguments r) in
  Ok (Stored (cfg_id r) (descriptor_hash r) (descriptor_json r)
        (TuConfig (cfg_driver r) (cfg_working_dir r) (cfg_language r) (cfg_standard r) (cfg_target r)
           abi_options (cfg_sysroot r) (cfg_resource_dir r) include_paths macro_state
           relevant_environment generated_inputs (cfg_diagnostics_policy r) arguments
           (config_state (cfg_state r)))
        (config_state association)).

Definition translation_unit_config_by_id (db : IncludeDb) (i : Z) : result (option StoredConfig) :=
  match by_id (db_configs db) i with
  | None => Ok None
  | Some r => let! c := config_from_row r (bs "registered") in Ok (Some c)
  end.

(** [JOIN file_config f ...]: at most one row has the unit's key. *)
Definition association (db : IncludeDb) (t : TuRow) : option bytes :=
  fc_state <$> find (λ r, (fc_file r =? tu_file t) && (fc_config r =? tu_config t) &&
                          bool_decide (fc_role r = bs "translation_unit")) (db_file_configs db).

(** The configurations of the file's units, by descriptor hash. *)
Definition translation_unit_configs_for_file (db : IncludeDb) (f : Z) : result (list StoredConfig) :=
  mapR (λ p, config_from_row p.1 p.2)
    (sort (λ a b, bytes_ltb (descriptor_hash a.1) (descriptor_hash b.1))
       (omap (λ t, row ← by_id (db_configs db) (tu_config t); state ← association db t; Some (row, state))
          (filter (λ t, tu_file t = f) (db_tus db)))).

(** *** The edges of every configuration *)

Definition covered (db : IncludeDb) (src cfg : Z) : bool :=
  existsb (λ c, (cfg_id c =? cfg) && bool_decide (cfg_state c = bs "registered")) (db_configs db) &&
  existsb (λ r, (fc_file r =? src) && (fc_config r =? cfg) && bool_decide (fc_role r = bs "header")
                && bool_decide (fc_state r = bs "registered")) (db_file_configs db).

(** [for (edge : edges) current.emplace(edge.dst_path, edge)]. *)
Definition edge_map (edges : list IncludeEdge) : gmap bytes IncludeEdge :=
  foldl (λ m e, emplace m (row_dst_path e) e) ∅ edges.

(** The loop over the declared configurations; [None] is the early return. *)
Fixpoint common_edges (db : IncludeDb) (src : Z) (include_system : bool) (configs : list Z)
    (common : option (gmap bytes IncludeEdge)) : option (gmap bytes IncludeEdge) :=
  match configs with
  | [] => Some (default ∅ common)
  | cfg :: configs =>
      if covered db src cfg then
        let current := edge_map (include_edges_from_config db src cfg include_system) in
        common_edges db src include_system configs
          (Some match common with
                | None => current
                | Some common => filter (λ p, is_Some (current !! p.1)) common
                end)
      else None
  end.

(** [ConfiguredIncludeEdges]. *)
Record ConfiguredIncludeEdges := Configured { edges : list IncludeEdge; coverage_complete : bool }.

Definition invariant_include_edges (db : IncludeDb) (src : Z) (declared : list Z) (include_system : bool) :
    ConfiguredIncludeEdges :=
  match declared with
  | [] => Configured [] false
  | _ =>
      match common_edges db src include_system declared None with
      | None => Configured [] false
      | Some common => Configured (omap (λ path, common !! path) (set_list (dom common))) true
      end
  end.

(** ** Edges that count their directives *)

(** The sites of an edge, and what makes its count cover them: a header that a file
    includes twice is counted twice. *)
Definition sites_of (db : IncludeDb) (i : Z) : list IncludeSite := filter (λ s, site_edge_id s = i) (db_sites db).

Definition covers (db : IncludeDb) (e : IncludeEdge) : Prop :=
  Z.of_nat (length (sites_of db (edge_id e))) <= row_count e.

Definition counted (db : IncludeDb) : Prop := ∀ e, e ∈ db_edges db → covers db e.

(** ** Well-formed stores *)

Record store_wf (db : IncludeDb) : Prop := {
  wf_configs : unique_table (db_configs db);
  wf_tus : unique_table (db_tus db);
  wf_file_configs : NoDup (keys (db_file_configs db));
  wf_include_configs : unique_table (db_include_configs db);
  wf_edges : unique_table (db_edges db);
  wf_sites : unique_table (db_sites db);
  wf_macros : NoDup (keys (db_macros db));
  fk_tus t : t ∈ db_tus db → tu_file t ∈ db_files db ∧ tu_config t ∈ ids (db_configs db);
  fk_file_configs r : r ∈ db_file_configs db →
    fc_file r ∈ db_files db ∧ fc_config r ∈ ids (db_configs db) ∧
    (fc_role r = bs "translation_unit" ∨ fc_role r = bs "header");
  fk_include_configs c : c ∈ db_include_configs db →
    ic_tu_file_id c ∈ db_files db ∧
    ∀ i, ic_translation_unit_config_id c = Some i → i ∈ ids (db_configs db);
  fk_edges e : e ∈ db_edges db →
    src_file_id e ∈ db_files db ∧ (∀ f, row_dst_file_id e = Some f → f ∈ db_files db) ∧
    config_id e ∈ ids (db_include_configs db);
  fk_sites s : s ∈ db_sites db → site_edge_id s ∈ ids (db_edges db);
  fk_macros m : m ∈ db_macros db →
    mu_src_file_id m ∈ db_files db ∧ mu_config_id m ∈ ids (db_include_configs db)
}.

Definition empty_db : IncludeDb := Db ∅ [] [] [] [] [] [] [].

Lemma empty_wf : store_wf empty_db.
Proof. split; cbn; try by repeat constructor. all: intros x Hx; by apply elem_of_nil in Hx. Qed.

(** A reference that holds, after a statement guarded by it. *)
Lemma references_ok b u : references b = Ok u → b = true.
Proof. by destruct b. Qed.

Lemma has_file_elem db f : has_file db f = true ↔ f ∈ db_files db.
Proof. unfold has_file. apply bool_decide_eq_true. Qed.

Lemma has_file_opt_elem db o : has_file_opt db o = true → ∀ f, o = Some f → f ∈ db_files db.
Proof. intros H f ->. by apply has_file_elem. Qed.

(** An id of the table is one of the upserted table. *)
Ltac still_there E := apply (upsert_ids_mono _ _ _ _ _ E); done.

Lemma add_configs_wf sha1 getenv input i db db' :
  add_translation_unit_config sha1 getenv input db = (i, db') → store_wf db →
  store_wf db' ∧ i ∈ ids (db_configs db') ∧ db_files db' = db_files db.
Proof.
  unfold add_translation_unit_config. destruct (upsert _ _) as [j rows] eqn:E. intros [= <- <-] Hwf.
  split; [|split; [exact (upsert_id_elem _ _ _ _ E)|done]].
  destruct Hwf as [? ? ? ? ? ? ? Ht Hf Hc ? ? ?]. split; cbn; try done.
  - exact (upsert_unique _ _ _ _ E ltac:(done)).
  - intros t [? ?]%Ht. split; [done|still_there E].
  - intros r (? & ? & ?)%Hf. split_and!; [done|still_there E|done].
  - intros c [? Hi]%Hc. split; [done|]. intros k Hk%Hi. still_there E.
Qed.

Lemma add_file_config_wf a db db' :
  add_file_config a db = Ok db' → store_wf db → store_wf db'.
Proof.
  unfold add_file_config. destruct (negb _ && negb _) eqn:Hrole; [done|].
  destruct (references _) eqn:Hr; [|done]. intros [= <-] Hwf.
  apply references_ok, andb_prop in Hr as [Hfile%has_file_elem Hcfg%has_id_elem].
  destruct Hwf as [? ? ? ? ? ? ? ? Hf ? ? ? ?]. split; cbn; try done; [by apply put_NoDup|].
  intros r [Hin|[[-> _]|(old & Hin%Hf & _ & ->)]]%put_elem; [by apply Hf| |done].
  split_and!; [done|done|].
  apply andb_false_iff in Hrole. rewrite !negb_false_iff, !bool_decide_eq_true in Hrole. tauto.
Qed.

Lemma add_include_config_wf sha1 getenv c i db db' :
  add_include_config sha1 getenv c db = Ok (i, db') → store_wf db → store_wf db'.
Proof.
  unfold add_include_config. destruct (add_translation_unit_config _ _ _ _) as [n db1] eqn:E1.
  intros E Hwf. apply add_configs_wf in E1 as (Hwf1 & Hn & Hfiles); [|done].
  destruct (references _) eqn:Hr; [|done]. apply references_ok, has_file_elem in Hr. cbn in E.
  destruct (upsert _ _) as [j rows] eqn:Eu.
  destruct (add_file_config _ _) as [db2|] eqn:E2; [|done]. injection E as <- <-.
  eapply add_file_config_wf; [exact E2|].
  destruct Hwf1 as [? ? ? ? ? ? ? Ht ? Hc He ? Hm]. split; cbn; try done.
  - by apply ignore_unique.
  - exact (upsert_unique _ _ _ _ Eu ltac:(done)).
  - intros t [Hin| ->]%ignore_elem; [by apply Ht|done].
  - intros x [Hin|[->|(old & [Hin _]%Hc & _ & ->)]]%(upsert_elem _ _ _ _ _ Eu); cbn.
    + by apply Hc.
    + split; [done|]. by intros k [= <-].
    + split; [done|]. by intros k [= <-].
  - intros e (? & ? & ?)%He. split_and!; [done|done|still_there Eu].
  - intros m [? ?]%Hm. split; [done|still_there Eu].
Qed.

Lemma add_include_edge_wf e i db db' :
  add_include_edge e db = Ok (i, db') → store_wf db → store_wf db'.
Proof.
  unfold add_include_edge. destruct (references _) eqn:Hr; [|done]. cbn.
  destruct (upsert _ _) as [j rows] eqn:Eu. intros [= <- <-] Hwf.
  apply references_ok, andb_prop in Hr as [[Hs Hd]%andb_prop Hcfg%has_id_elem].
  apply has_file_elem in Hs. pose proof (has_file_opt_elem _ _ Hd) as Hdst.
  destruct Hwf as [? ? ? ? ? ? ? ? ? ? He Hsites ?]. split; cbn; try done.
  - exact (upsert_unique _ _ _ _ Eu ltac:(done)).
  - intros x [Hin|[->|(old & (? & Hold & ?)%He & _ & ->)]]%(upsert_elem _ _ _ _ _ Eu); cbn.
    + by apply He.
    + done.
    + split_and!; [done| |done]. intros f. destruct (row_dst_file_id e); [|apply Hold].
      intros [= ->]. by apply Hdst.
  - intros s Hin%Hsites. still_there Eu.
Qed.

Lemma add_include_site_wf s i db db' :
  add_include_site s db = Ok (i, db') → store_wf db → store_wf db'.
Proof.
  unfold add_include_site. destruct (references _) eqn:Hr; [|done]. cbn.
  destruct (upsert _ _) as [j rows] eqn:Eu. intros [= <- <-] Hwf.
  apply references_ok, has_id_elem in Hr.
  destruct Hwf as [? ? ? ? ? ? ? ? ? ? ? Hs ?]. split; cbn; try done.
  - exact (upsert_unique _ _ _ _ Eu ltac:(done)).
  - intros x [Hin|[->|(old & Hin%Hs & _ & ->)]]%(upsert_elem _ _ _ _ _ Eu); [by apply Hs|done|done].
Qed.

Lemma add_include_macro_use_wf m db db' :
  add_include_macro_use m db = Ok db' → store_wf db → store_wf db'.
Proof.
  unfold add_include_macro_use. destruct (references _) eqn:Hr; [|done]. intros [= <-] Hwf.
  apply references_ok, andb_prop in Hr as [Hfile%has_file_elem Hcfg%has_id_elem].
  destruct Hwf as [? ? ? ? ? ? ? ? ? ? ? ? Hm]. split; cbn; try done; [by apply put_NoDup|].
  intros x [Hin|[[-> _]|(old & Hin%Hm & _ & ->)]]%put_elem; [by apply Hm|done|done].
Qed.

(** ** What deleting a unit removes *)

(** The configurations the loop retires, one after the other, are retired at
    once: whether one is supported does not depend on [file_config]. *)
Definition header_of (db : IncludeDb) (retired : list Z) (r : FileConfigRow) : Prop :=
  fc_role r = bs "header" ∧ fc_config r ∈ retired ∧ unsupported db (fc_config r) = true.

#[export] Instance header_of_dec db retired r : Decision (header_of db retired r).
Proof. unfold header_of. apply _. Defined.

Lemma filter_length_split {R} (P : R → Prop) `{∀ r, Decision (P r)} (rows : list R) :
  (length (filter P rows) + length (filter (λ r, ¬ P r) rows) = length rows)%nat.
Proof. by rewrite <- length_app, filter_app_complement. Qed.

Lemma retire_fold retired : ∀ db n db' n',
  foldl retire_headers (db, n) retired = (db', n') →
  db' = Db (db_files db) (db_configs db) (db_tus db)
          (filter (λ r, ¬ header_of db retired r) (db_file_configs db))
          (db_include_configs db) (db_edges db) (db_sites db) (db_macros db) ∧
  (n' + length (db_file_configs db') = n + length (db_file_configs db))%nat.
Proof.
  induction retired as [|c retired IH]; intros db n db' n'; cbn.
  - intros [= <- <-]. split; [|done]. destruct db; cbn. f_equal. symmetry.
    apply filter_all, Forall_forall. intros r _ (_ & Hin & _). by apply elem_of_nil in Hin.
  - intros E%IH. cbn in E. destruct E as [-> En]. split.
    + f_equal. rewrite list_filter_filter. apply list_filter_iff. intros r.
      unfold header_of, unsupported. cbn. rewrite elem_of_cons. naive_solver.
    + pose proof (filter_length_split (λ r, fc_config r = c ∧ fc_role r = bs "header" ∧
                                         unsupported db c = true) (db_file_configs db)).
      cbn in *. lia.
Qed.

(** The database with the rows of the unit gone, before the loop. *)
Definition without_unit (f : Z) (db : IncludeDb) : IncludeDb :=
  Db (db_files db) (db_configs db) (filter (λ t, tu_file t ≠ f) (db_tus db))
    (filter (λ r, ¬ (fc_file r = f ∧ fc_role r = bs "translation_unit")) (db_file_configs db))
    (filter (λ c, ic_tu_file_id c ≠ f) (db_include_configs db))
    (filter (λ e, config_id e ∉ configs_of_tu db f) (db_edges db))
    (filter (λ s, site_edge_id s ∉ edges_of_tu db f) (db_sites db))
    (filter (λ m, mu_config_id m ∉ configs_of_tu db f) (db_macros db)).

Lemma delete_shape f db stats db' :
  delete_include_configs_for_tu f db = (stats, db') →
  db' = Db (db_files db) (db_configs db) (db_tus (without_unit f db))
          (filter (λ r, ¬ header_of (without_unit f db) (normalized_ids db f) r)
             (db_file_configs (without_unit f db)))
          (db_include_configs (without_unit f db)) (db_edges (without_unit f db))
          (db_sites (without_unit f db)) (db_macros (without_unit f db)) ∧
  (direct stats + length (db_tus db') + length (db_file_configs db') + length (db_include_configs db')
   = length (db_tus db) + length (db_file_configs db) + length (db_include_configs db))%nat ∧
  (cascade stats + length (db_sites db') + length (db_edges db') + length (db_macros db')
   = length (db_sites db) + length (db_edges db) + length (db_macros db))%nat.
Proof.
  unfold delete_include_configs_for_tu, delete_where. destruct (foldl _ _ _) as [db1 n4] eqn:E.
  intros [= <- <-]. apply retire_fold in E as [-> En]. split; [done|].
  pose proof (filter_length_split (λ t, tu_file t = f) (db_tus db)).
  pose proof (filter_length_split (λ r, fc_file r = f ∧ fc_role r = bs "translation_unit") (db_file_configs db)).
  pose proof (filter_length_split (λ c, ic_tu_file_id c = f) (db_include_configs db)).
  pose proof (filter_length_split (λ e, config_id e ∈ configs_of_tu db f) (db_edges db)).
  pose proof (filter_length_split (λ s, site_edge_id s ∈ edges_of_tu db f) (db_sites db)).
  pose proof (filter_length_split (λ m, mu_config_id m ∈ configs_of_tu db f) (db_macros db)).
  cbv beta in *. cbn in *. lia.
Qed.

Lemma ids_filter_not {R} `{HasId R} (P Q : R → Prop)
    `{∀ r, Decision (P r)} `{∀ r, Decision (Q r)} (rows : list R) i :
  (∀ r, Q r ↔ ¬ P r) → i ∈ ids rows → i ∉ ids (filter P rows) → i ∈ ids (filter Q rows).
Proof.
  intros HQ (r & Hr & <-)%elem_of_ids Hi. apply elem_of_ids. exists r. split; [|done].
  apply list_elem_of_filter. split; [|done]. apply HQ. intros Hp. apply Hi, elem_of_ids.
  exists r. split; [|done]. by apply list_elem_of_filter.
Qed.

Lemma delete_wf f stats db db' :
  delete_include_configs_for_tu f db = (stats, db') → store_wf db → store_wf db'.
Proof.
  intros (-> & _ & _)%delete_shape [? ? ? ? ? ? ? Ht Hf Hc He Hs Hm].
  split; cbn -[bs]; try by apply unique_filter. 1: done. all: try by repeat apply filter_keys_NoDup.
  - by intros t [_ ?%Ht]%list_elem_of_filter.
  - by intros r [_ [_ ?%Hf]%list_elem_of_filter]%list_elem_of_filter.
  - by intros c [_ ?%Hc]%list_elem_of_filter.
  - intros e [Hn (? & ? & ?)%He]%list_elem_of_filter. split_and!; [done|done|].
    by refine (ids_filter_not (λ c, ic_tu_file_id c = f) _ _ _ _ _ _).
  - intros s [Hn ?%Hs]%list_elem_of_filter.
    by refine (ids_filter_not (λ e, config_id e ∈ configs_of_tu db f) _ _ _ _ _ _).
  - intros m [Hn [? ?]%Hm]%list_elem_of_filter. split; [done|].
    by refine (ids_filter_not (λ c, ic_tu_file_id c = f) _ _ _ _ _ _).
Qed.

(** ** Files *)

Lemma add_file_wf f db : store_wf db →
  store_wf (Db ({[f]} ∪ db_files db) (db_configs db) (db_tus db) (db_file_configs db)
              (db_include_configs db) (db_edges db) (db_sites db) (db_macros db)).
Proof. intros [? ? ? ? ? ? ? Ht Hf Hc He Hs Hm]. split; cbn; try done; set_solver. Qed.

(** A table whose rows are rewritten, keys and ids kept. *)
Lemma unique_fmap {R K} `{Keyed R K} `{HasId R} (g : R → R) rows :
  (∀ r, row_id (g r) = row_id r) → (∀ r, row_key (g r) = row_key r) →
  unique_table rows → unique_table (g <$> rows).
Proof.
  intros Hi Hk [Hui Huk Hp].
  assert (ids (g <$> rows) = ids rows) as Ei.
  { unfold ids. rewrite <- list_fmap_compose. apply list_fmap_ext. intros ? r _. apply Hi. }
  assert (keys (g <$> rows) = keys rows) as Ek.
  { unfold keys. rewrite <- list_fmap_compose. apply list_fmap_ext. intros ? r _. apply Hk. }
  split; by rewrite ?Ei, ?Ek.
Qed.

Lemma mark_stale_wf f db : store_wf db → store_wf (mark_stale f db).
Proof.
  intros [? ? Hfk ? ? ? ? Ht Hf Hc He Hs Hm]. split; cbn -[bs]; try done.
  - apply unique_fmap; [..|done]; intros t; by case_match.
  - assert (∀ g : FileConfigRow → FileConfigRow, (∀ r, row_key (g r) = row_key r) →
      NoDup (keys (g <$> db_file_configs db))) as Hg.
    { intros g Hg. unfold keys. rewrite <- list_fmap_compose.
      rewrite (list_fmap_ext _ row_key) by (intros ? r _; apply Hg). exact Hfk. }
    apply Hg. intros r. by case_match.
  - intros t (t0 & -> & ?%Ht)%list_elem_of_fmap. by case_match.
  - intros r (r0 & -> & ?%Hf)%list_elem_of_fmap. by case_match.
Qed.

Lemma forget_target_row f e :
  edge_id (forget_target f e) = edge_id e ∧ src_file_id (forget_target f e) = src_file_id e ∧
  row_dst_path (forget_target f e) = row_dst_path e ∧ config_id (forget_target f e) = config_id e ∧
  row_count (forget_target f e) = row_count e.
Proof. unfold forget_target. by case_match. Qed.

Lemma ids_forget_target f edges : ids (forget_target f <$> edges) = ids edges.
Proof.
  unfold ids. rewrite <- list_fmap_compose. apply list_fmap_ext. intros ? e _. apply forget_target_row.
Qed.

Lemma delete_file_wf f db : store_wf db → store_wf (delete_file f db).
Proof.
  intros [? ? ? ? Hue ? ? Ht Hf Hc He Hs Hm]. split; cbn -[bs]; try by apply unique_filter. 1: done.
  all: try by apply filter_keys_NoDup.
  - apply unique_fmap; [| |by apply unique_filter]; intros e; cbn;
      destruct (forget_target_row f e) as (? & ? & ? & ? & _); congruence.
  - intros t [? [? ?]%Ht]%list_elem_of_filter. split; [set_solver|done].
  - intros r [? (? & ? & ?)%Hf]%list_elem_of_filter. split_and!; [set_solver|done|done].
  - intros c [? [? ?]%Hc]%list_elem_of_filter. split; [set_solver|done].
  - intros e (e0 & -> & [Hl (Hsrc & Hdst & Hcfg)%He]%list_elem_of_filter)%list_elem_of_fmap.
    destruct (forget_target_row f e0) as (_ & -> & _ & -> & _). unfold lost_edge in Hl.
    split_and!; [set_solver| |].
    + intros g. unfold forget_target. case_bool_decide as Hg; [done|]. intros Hg'. specialize (Hdst g Hg').
      assert (g ≠ f) by congruence. set_solver.
    + refine (ids_filter_not (λ c, ic_tu_file_id c = f) _ _ _ _ Hcfg _); [done|].
      intros Hin. apply Hl. by right.
  - intros s [Hn Hin%Hs]%list_elem_of_filter. rewrite ids_forget_target.
    by refine (ids_filter_not (lost_edge f db) _ _ _ _ Hin _).
  - intros m [[Hne Hn] [Hsrc Hcfg]%Hm]%list_elem_of_filter. split; [set_solver|].
    by refine (ids_filter_not (λ c, ic_tu_file_id c = f) _ _ _ _ Hcfg _).
Qed.

(** A configuration is in use: a unit, an edge or a macro use has it. *)
Definition supported (db : IncludeDb) (cfg : Z) : Prop :=
  (∃ t, t ∈ db_tus db ∧ tu_config t = cfg) ∨
  ∃ c, c ∈ db_include_configs db ∧ ic_translation_unit_config_id c = Some cfg ∧
    ((∃ e, e ∈ db_edges db ∧ config_id e = ic_id c) ∨ ∃ m, m ∈ db_macros db ∧ mu_config_id m = ic_id c).

(** What deleting the unit [f] leaves, and the rows it counts. *)
Record deleted (f : Z) (db : IncludeDb) (stats : IncludeDeletionStats) (db' : IncludeDb) : Prop := {
  del_files : db_files db' = db_files db;
  del_configs : db_configs db' = db_configs db;
  del_tus t : t ∈ db_tus db' ↔ t ∈ db_tus db ∧ tu_file t ≠ f;
  del_include_configs c : c ∈ db_include_configs db' ↔ c ∈ db_include_configs db ∧ ic_tu_file_id c ≠ f;
  del_edges e : e ∈ db_edges db' ↔ e ∈ db_edges db ∧ config_id e ∈ ids (db_include_configs db');
  del_macros m : m ∈ db_macros db' ↔ m ∈ db_macros db ∧ mu_config_id m ∈ ids (db_include_configs db');
  del_sites s : s ∈ db_sites db' ↔ s ∈ db_sites db ∧ site_edge_id s ∈ ids (db_edges db');
  del_file_configs r : r ∈ db_file_configs db' ↔ r ∈ db_file_configs db ∧
    ¬ (fc_role r = bs "translation_unit" ∧ fc_file r = f) ∧
    ¬ (fc_role r = bs "header" ∧ ¬ supported db' (fc_config r) ∧
       ∃ c, c ∈ db_include_configs db ∧ ic_tu_file_id c = f ∧
            ic_translation_unit_config_id c = Some (fc_config r));
  del_direct : (direct stats + length (db_tus db') + length (db_file_configs db') +
                length (db_include_configs db')
                = length (db_tus db) + length (db_file_configs db) + length (db_include_configs db))%nat;
  del_cascade : (cascade stats + length (db_sites db') + length (db_edges db') + length (db_macros db')
                 = length (db_sites db) + length (db_edges db) + length (db_macros db))%nat
}.

Lemma unsupported_spec db cfg : unsupported db cfg = true ↔ ¬ supported db cfg.
Proof.
  unfold unsupported, supported. rewrite !andb_true_iff, !negb_true_iff, <-!not_true_iff_false, !existsb_exists.
  setoid_rewrite existsb_exists. setoid_rewrite andb_true_iff. setoid_rewrite Z.eqb_eq.
  setoid_rewrite bool_decide_eq_true. setoid_rewrite <- list_elem_of_In. naive_solver.
Qed.

(** The two sides of a cascade: the ids of the rows that go and of those that
    stay. *)
Lemma ids_filter_split {R K} `{Keyed R K} `{HasId R} (P : R → Prop) `{∀ r, Decision (P r)} rows i :
  unique_table rows → i ∈ ids rows →
  i ∉ ids (filter P rows) ↔ i ∈ ids (filter (λ r, ¬ P r) rows).
Proof.
  intros [Hi _ _] Hin. split; [by intros; refine (ids_filter_not P _ _ _ _ _ _)|].
  intros (r & [Hr Hin']%list_elem_of_filter & <-)%elem_of_ids (r' & [Hr' Hin'']%list_elem_of_filter & E)%elem_of_ids.
  assert (r' = r) as ->; [|done]. by apply (NoDup_fmap_inj row_id rows).
Qed.

Lemma kept_reference {R K} `{Keyed R K} `{HasId R} (P : R → Prop) `{∀ r, Decision (P r)} rows i (A : Prop) :
  unique_table rows → (A → i ∈ ids rows) →
  (i ∉ ids (filter P rows) ∧ A) ↔ A ∧ i ∈ ids (filter (λ r, ¬ P r) rows).
Proof.
  intros Hu HA. split.
  - intros [Hn Ha]. split; [done|]. apply ids_filter_split; auto.
  - intros [Ha Hn]. split; [|done]. revert Hn. apply ids_filter_split; auto.
Qed.

Lemma elem_normalized db f cfg :
  cfg ∈ normalized_ids db f ↔
  ∃ c, c ∈ db_include_configs db ∧ ic_tu_file_id c = f ∧ ic_translation_unit_config_id c = Some cfg.
Proof.
  unfold normalized_ids. rewrite elem_of_remove_dups, list_elem_of_omap.
  setoid_rewrite list_elem_of_filter. naive_solver.
Qed.

(** C35: Deleting the include configurations of a file leaves exactly the rows that
    do not depend on it: its units, its own file configurations and its include
    configurations go, with the edges and macro uses of those configurations and
    the sites of those edges; a header's file configuration goes if and only if
    one of the unit's configurations declared it and nothing left uses that
    configuration.  The statistics count the rows removed. *)
Theorem delete_exact f db stats db' (Hwf : store_wf db) :
  delete_include_configs_for_tu f db = (stats, db') → deleted f db stats db'.
Proof.
  intros (-> & Hd & Hc)%delete_shape. destruct Hwf as [_ _ _ Hui Hue _ _ _ _ _ He Hs Hm].
  split; try done; cbn -[bs header_of]; intros x; rewrite ?list_elem_of_filter; try tauto.
  - apply kept_reference; [done|]. by intros (_ & _ & ?)%He.
  - apply kept_reference; [done|]. by intros [_ ?]%Hm.
  - by apply kept_reference; [|apply Hs].
  - rewrite <- unsupported_spec. unfold header_of. rewrite elem_normalized. cbn -[bs]. tauto.
Qed.

(** ** The canonical text identifies the configuration *)

Lemma json_escape_eq ch : json_escape ch = escape_byte ch.
Proof. by destruct ch as [[] [] [] [] [] [] [] []]. Qed.

Lemma json_quote_eq value : json_quote value = quote :: escape_bytes value ++ [quote].
Proof.
  unfold json_quote. f_equal. f_equal. induction value as [|c value IH]; [done|].
  cbn [escape_bytes]. rewrite <- IH, <- json_escape_eq. done.
Qed.

Lemma json_array_eq values : json_array values = encode_string_array values.
Proof.
  unfold json_array, encode_string_array. f_equal. f_equal.
  assert (∀ vs b, encode_items b vs = match vs with [] => [] | _ =>
            (if b then [] else bs ",") ++ join_with (bs ",") (json_quote <$> vs) end) as Hitems.
  { induction vs as [|v vs IH]; intros b; [done|]. cbn [encode_items]. rewrite IH.
    rewrite fmap_cons, json_quote_eq. destruct vs as [|w vs]; cbn -[bs escape_bytes].
    - by destruct b; cbn; rewrite ?app_nil_r, <- ?app_assoc.
    - by destruct b; cbn; rewrite <- ?app_assoc. }
  rewrite Hitems. by destruct values.
Qed.

(** Neither text is a proper prefix of another. *)
Lemma json_quote_prefix v w t u : json_quote v ++ t = json_quote w ++ u → v = w ∧ t = u.
Proof.
  rewrite !json_quote_eq. cbn [app]. rewrite <- !app_assoc. cbn [app]. intros E.
  pose proof (min_parse_string_encode v 0 t) as Ev. rewrite E, min_parse_string_encode in Ev.
  injection Ev. auto.
Qed.

(** A bracketed list of texts none of which is a proper prefix of another. *)
Lemma join_prefix {A B} (emit : A → bytes) (key : A → B)
    (Hprefix : ∀ a b t u, emit a ++ t = emit b ++ u → key a = key b ∧ t = u)
    (Hhead : ∀ a t, head (emit a ++ t) ≠ Some "]"%char) : ∀ xs ys t u,
  join_with (bs ",") (emit <$> xs) ++ bs "]" ++ t = join_with (bs ",") (emit <$> ys) ++ bs "]" ++ u →
  key <$> xs = key <$> ys ∧ t = u.
Proof.
  assert (∀ x xs, ∃ z, join_with (bs ",") (emit <$> x :: xs) = emit x ++ z) as Hcons.
  { intros x [|y xs]; [exists []; cbn; by rewrite app_nil_r|]. by eexists. }
  induction xs as [|x xs IH]; intros [|y ys] t u E.
  - by injection E.
  - destruct (Hcons y ys) as [z Hz]. rewrite Hz, <- app_assoc in E.
    destruct (Hhead y (z ++ bs "]" ++ u)). by rewrite <- E.
  - destruct (Hcons x xs) as [z Hz]. rewrite Hz, <- app_assoc in E.
    destruct (Hhead x (z ++ bs "]" ++ t)). by rewrite E.
  - destruct xs as [|x' xs], ys as [|y' ys].
    + apply Hprefix in E as [Hk [= ->]]. cbn. by rewrite Hk.
    + cbn [join_with fmap list_fmap] in E. rewrite <- app_assoc in E. by apply Hprefix in E as [_ [=]].
    + cbn [join_with fmap list_fmap] in E. rewrite <- app_assoc in E. by apply Hprefix in E as [_ [=]].
    + change (join_with (bs ",") (emit <$> x :: x' :: xs))
        with (emit x ++ bs "," ++ join_with (bs ",") (emit <$> x' :: xs)) in E.
      change (join_with (bs ",") (emit <$> y :: y' :: ys))
        with (emit y ++ bs "," ++ join_with (bs ",") (emit <$> y' :: ys)) in E.
      rewrite <- !app_assoc in E. apply Hprefix in E as [Hk E]. apply (app_inv_head (bs ",")) in E.
      apply (IH (y' :: ys)) in E as [Hks ->]. split; [|done]. exact (f_equal2 cons Hk Hks).
Qed.

Lemma json_quote_head v t c : head (json_quote v ++ t) = Some c → c = quote.
Proof. unfold json_quote. cbn. congruence. Qed.

Lemma json_array_prefix v w t u : json_array v ++ t = json_array w ++ u → v = w ∧ t = u.
Proof.
  unfold json_array. cbn [app]. rewrite <- !app_assoc. intros [= E].
  apply (join_prefix json_quote id json_quote_prefix) in E; [by rewrite !list_fmap_id in E|].
  intros a x Hx. by apply json_quote_head in Hx.
Qed.

(** A field of the descriptor. *)
Inductive field := Text (o : option bytes) | Texts (l : list bytes).

(** The fields in the descriptor's order: all but the state. *)
Definition fields (c : TranslationUnitConfig) : list field :=
  [Text (tc_driver c); Text (tc_working_dir c); Text (tc_language c); Text (tc_standard c);
   Text (tc_target c); Texts (tc_abi_options c); Text (tc_sysroot c); Text (tc_resource_dir c);
   Texts (tc_include_paths c); Texts (tc_macro_state c); Texts (tc_relevant_environment c);
   Texts (tc_generated_inputs c); Text (tc_diagnostics_policy c); Texts (tc_arguments c)].

(** An absent text is the empty text. *)
Definition normal (f : field) : field :=
  match f with Text o => Text (Some (default [] o)) | Texts l => Texts l end.

Definition emit (f : field) : bytes :=
  match f with Text o => json_quote (default [] o) | Texts l => json_array l end.

(** The texts of the fields that [normal] leaves as they are. *)
Lemma emit_prefix f g t u : emit f ++ t = emit g ++ u → normal f = normal g ∧ t = u.
Proof.
  destruct f as [o|l], g as [o'|l']; cbn [emit normal]; intros E; [|done..|].
  - apply json_quote_prefix in E as [-> ->]. done.
  - apply json_array_prefix in E as [-> ->]. done.
Qed.

Lemma emit_head f t : head (emit f ++ t) ≠ Some "]"%char.
Proof. destruct f as [o|l]; [|done]. intros Hx. by apply json_quote_head in Hx. Qed.

Lemma canonical_fields c :
  canonical_config_json c = "["%char :: join_with (bs ",") (emit <$> fields c) ++ bs "]".
Proof. done. Qed.

Lemma emit_normal (xs : list field) : emit <$> xs = emit <$> (normal <$> xs).
Proof. induction xs as [|[] xs IH]; [done|..]; rewrite !fmap_cons, IH; done. Qed.

(** The descriptor text, and so what its hash identifies, determines the
    fourteen fields and is determined by them: two configurations have the same
    text if and only if their fields agree, an absent text counting as an empty
    one.  The registration state is not part of it. *)
Theorem descriptor_identifies c d :
  canonical_config_json c = canonical_config_json d ↔ normal <$> fields c = normal <$> fields d.
Proof.
  rewrite !canonical_fields. split.
  - intros E. apply (app_inv_head ["["%char]) in E.
    by apply (join_prefix emit normal emit_prefix emit_head _ _ [] []) in E as [E _].
  - intros E. by rewrite (emit_normal (fields c)), E, <- emit_normal.
Qed.

(** ** Witnesses *)

Definition sample_config (tu : Z) : IncludeConfig :=
  IncludeConfig_ tu (bs "digest") (Some (bs "c++")) (Some (bs "/w")) [bs "c++"; bs "-DA=1"; bs "a.cpp"] (Some (bs "c++")) None.

Definition no_env (_ : bytes) : option bytes := None.

(** Files 1 and 2 are units, 3 a header of both. *)
Definition sample_files : IncludeDb := Db ({[3]} ∪ ({[2]} ∪ ({[1]} ∪ ∅))) [] [] [] [] [] [] [].

Definition sample_writes : result IncludeDb :=
  let! r1 := add_include_config id no_env (sample_config 1) sample_files in
  let! r2 := add_include_config id no_env (sample_config 2) r1.2 in
  let! e1 := add_include_edge (IncludeEdgeRow 0 1 (Some 3) (bs "h.h") r1.1 false false 1) r2.2 in
  let! e2 := add_include_edge (IncludeEdgeRow 0 2 (Some 3) (bs "h.h") r2.1 false false 1) e1.2 in
  let! s1 := add_include_site (Site 0 e1.1 1 1 0 15 (bs "h.h") false 0 [] true false) e2.2 in
  let! db := add_include_macro_use (MacroUse 1 (bs "h.h") (bs "M") r1.1 2) s1.2 in
  add_file_config (FileConfig 3 1 (bs "header") (bs "registered") None) db.

Definition sample_db : IncludeDb := match sample_writes with Ok db => db | Err _ => empty_db end.

Lemma sample_wf : store_wf sample_db.
Proof.
  assert (sample_writes = Ok sample_db) as E by (vm_compute; reflexivity).
  revert E. generalize sample_db. intros db E. unfold sample_writes in E.
  pose proof (add_file_wf 3 _ (add_file_wf 2 _ (add_file_wf 1 _ empty_wf))) as Hwf.
  apply rbind_Ok in E as ([c1 d1] & E1 & E). apply add_include_config_wf in E1; [|done].
  apply rbind_Ok in E as ([c2 d2] & E2 & E). apply add_include_config_wf in E2; [|done].
  apply rbind_Ok in E as ([e1 d3] & E3 & E). apply add_include_edge_wf in E3; [|done].
  apply rbind_Ok in E as ([e2 d4] & E4 & E). apply add_include_edge_wf in E4; [|done].
  apply rbind_Ok in E as ([s1 d5] & E5 & E). apply add_include_site_wf in E5; [|done].
  apply rbind_Ok in E as (d6 & E6 & E). apply add_include_macro_use_wf in E6; [|done].
  by apply add_file_config_wf in E.
Qed.

(** Deleting unit 1 keeps the header's configuration: unit 2 has it too. *)
Lemma delete_exact_witness :
  ∃ db', delete_include_configs_for_tu 1 sample_db = (DeletionStats 3 3, db') ∧
         deleted 1 sample_db (DeletionStats 3 3) db'.
Proof.
  eexists. assert (delete_include_configs_for_tu 1 sample_db = (DeletionStats 3 3, _)) as E
    by (vm_compute; reflexivity).
  split; [exact E|]. exact (delete_exact _ _ _ _ sample_wf E).
Defined.
