(* ===== verification/IncludeFacts.v ===== *)
(** * Writing the include facts of a unit: [src/src/ast/include_facts.cpp]

    [persist_include_facts] replaces what the index holds for a translation unit
    by the directives and macro uses its preprocessor observed, with the caches
    and the statistics of [IncludePersistenceState].  Collecting the facts is
    Clang's callbacks and is not modelled; the lookup of a file by its path is an
    argument.  An edge counts its directives: [counted] is the invariant that its
    count covers the sites recorded for it. *)

From S2P Require Export IncludeStore.

Open Scope Z_scope.

(** ** Facts *)

Record IncludeFact := IncludeFact_ {
  if_src_path : bytes;
  if_dst_path : bytes;
  if_spelling : bytes;
  if_is_angled : bool;
  if_line : Z;
  if_col : Z;
  if_begin_offset : Z;
  if_end_offset : Z;
  if_directive : Z;
  if_cond_fingerprint : bytes;
  if_resolved : bool;
  if_is_system : bool;
  if_guarded : bool
}.

Record MacroUseFact := MacroUseFact_ { mf_src_path : bytes; mf_def_path : bytes; mf_name : bytes }.

Record IncludeFacts := IncludeFacts_ { includes : list IncludeFact; macro_uses : list MacroUseFact }.

(** Counters of a [uint64_t]. *)
Record IncludeFactStats := Stats {
  attempted : Z;
  inserted_or_updated : Z;
  ignored : Z;
  duplicates : Z;
  stats_deleted : Z;
  cascade_deleted : Z;
  path_resolution_queries : Z
}.

(** [IncludePersistenceState], the database included. *)
Record IncludePersistenceState := Persist {
  ps_db : IncludeDb;
  ps_stats : IncludeFactStats;
  path_ids : gmap bytes (option Z);
  file_applicability : gset Z;
  edge_identities : gset (Z * bytes);
  site_identities : gset (Z * bytes * Z);
  macro_identities : gset (Z * bytes * bytes)
}.

(** ** Updates of the state *)

Definition with_db (f : IncludeDb → result IncludeDb) (s : IncludePersistenceState) :
    result IncludePersistenceState :=
  let! db := f (ps_db s) in
  Ok (Persist db (ps_stats s) (path_ids s) (file_applicability s) (edge_identities s) (site_identities s)
        (macro_identities s)).

Definition with_stats (f : IncludeFactStats → IncludeFactStats) (s : IncludePersistenceState) :
    IncludePersistenceState :=
  Persist (ps_db s) (f (ps_stats s)) (path_ids s) (file_applicability s) (edge_identities s)
    (site_identities s) (macro_identities s).

Definition attempt (n : Z) (s : IncludeFactStats) : IncludeFactStats :=
  Stats (attempted s + n) (inserted_or_updated s) (ignored s) (duplicates s) (stats_deleted s)
    (cascade_deleted s) (path_resolution_queries s).

Definition write (n : Z) (s : IncludeFactStats) : IncludeFactStats :=
  Stats (attempted s + n) (inserted_or_updated s + n) (ignored s) (duplicates s) (stats_deleted s)
    (cascade_deleted s) (path_resolution_queries s).

Definition query_path (s : IncludeFactStats) : IncludeFactStats :=
  Stats (attempted s) (inserted_or_updated s) (ignored s) (duplicates s) (stats_deleted s)
    (cascade_deleted s) (path_resolution_queries s + 1).

Definition note_file (f : Z) (s : IncludePersistenceState) : IncludePersistenceState :=
  Persist (ps_db s) (ps_stats s) (path_ids s) ({[f]} ∪ file_applicability s) (edge_identities s)
    (site_identities s) (macro_identities s).

Definition note_edge (k : Z * bytes) (s : IncludePersistenceState) : IncludePersistenceState :=
  Persist (ps_db s) (ps_stats s) (path_ids s) (file_applicability s) ({[k]} ∪ edge_identities s)
    (site_identities s) (macro_identities s).

Definition note_site (k : Z * bytes * Z) (s : IncludePersistenceState) : IncludePersistenceState :=
  Persist (ps_db s) (ps_stats s) (path_ids s) (file_applicability s) (edge_identities s)
    ({[k]} ∪ site_identities s) (macro_identities s).

Definition note_macro (k : Z * bytes * bytes) (s : IncludePersistenceState) : IncludePersistenceState :=
  Persist (ps_db s) (ps_stats s) (path_ids s) (file_applicability s) (edge_identities s)
    (site_identities s) ({[k]} ∪ macro_identities s).

(** ** Writing *)

Section persist.
Context (sha1 : bytes → bytes) (getenv : bytes → option bytes) (h : host) (get_file : bytes → option Z).

(** [IncludePersistenceState::file_id_for]. *)
Definition file_id_for (path : bytes) (s : IncludePersistenceState) :
    result (option Z * IncludePersistenceState) :=
  match path with
  | [] => Ok (None, s)
  | _ =>
      let! abs := abspath h path in
      match path_ids s !! abs with
      | Some id => Ok (id, s)
      | None =>
          let id := get_file abs in
          let s := with_stats query_path s in
          Ok (id, Persist (ps_db s) (ps_stats s) (<[abs := id]> (path_ids s)) (file_applicability s)
                    (edge_identities s) (site_identities s) (macro_identities s))
      end
  end.

Definition record_header_applicability (file_id : option Z) (config_id' : Z) (db : IncludeDb) :
    result IncludeDb :=
  match file_id with
  | Some f => add_file_config (FileConfig f config_id' (bs "header") (bs "registered") None) db
  | None => Ok db
  end.

(** [persist_include_edge_and_site]: the edge with count 1, then its site. *)
Definition write_directive (edge : IncludeEdge) (site : Z → IncludeSite) (db : IncludeDb) : result IncludeDb :=
  let! (i, db) := add_include_edge edge db in
  let! (_, db) := add_include_site (site i) db in
  Ok db.

Definition persist_include_edge_and_site (normalized_id : Z) (fact : IncludeFact) (config_id' source_id : Z)
    (s : IncludePersistenceState) : result IncludePersistenceState :=
  let! dst_path := if if_resolved fact then abspath h (if_dst_path fact) else Ok (if_spelling fact) in
  let! (dst_file_id, s) := if if_resolved fact then file_id_for (if_dst_path fact) s else Ok (None, s) in
  let s := match dst_file_id with Some f => note_file f (with_stats (attempt 1) s) | None => s end in
  let! s := with_db (record_header_applicability dst_file_id normalized_id) s in
  let edge := IncludeEdgeRow 0 source_id dst_file_id dst_path config_id' (if_is_system fact) false 1 in
  let! s := with_db (write_directive edge (λ edge_id,
    Site 0 edge_id (if_line fact) (if_col fact) (if_begin_offset fact) (if_end_offset fact) (if_spelling fact)
      (if_is_angled fact) (if_directive fact) (if_cond_fingerprint fact) (if_resolved fact) (if_guarded fact))) s in
  let s := with_stats (write 2) s in
  Ok (note_site (source_id, dst_path, if_begin_offset fact) (note_edge (source_id, dst_path) s)).

Definition persist_include_fact (normalized_id config_id' : Z) (s : IncludePersistenceState) (fact : IncludeFact) :
    result IncludePersistenceState :=
  match if_src_path fact with
  | [] => Ok s
  | path =>
      let! (source_id, s) := file_id_for path s in
      match source_id with
      | None => Ok (with_stats (attempt 1) s)
      | Some f =>
          let! s := with_db (record_header_applicability (Some f) normalized_id) s in
          let s := note_file f (with_stats (attempt 1) s) in
          persist_include_edge_and_site normalized_id fact config_id' f s
      end
  end.

Definition persist_macro_use (config_id' : Z) (s : IncludePersistenceState) (fact : MacroUseFact) :
    result IncludePersistenceState :=
  let! (source_id, s) := file_id_for (mf_src_path fact) s in
  match source_id with
  | None => Ok (with_stats (attempt 1) s)
  | Some f =>
      let! def_path := abspath h (mf_def_path fact) in
      let! s := with_db (add_include_macro_use (MacroUse f def_path (mf_name fact) config_id' 1)) s in
      Ok (note_macro (f, def_path, mf_name fact) (with_stats (write 1) s))
  end.

(** [include_config_digest]: each part is followed by a NUL. *)
Definition include_config_digest (c : IncludeConfig) : bytes :=
  let part (o : option bytes) := default [] o ++ ["000"%char] in
  digest_to_hex (sha1 (part (inc_driver c) ++ part (inc_working_dir c) ++ part (inc_lang_mode c) ++
                       part (inc_resource_dir c) ++ mbind (λ a, a ++ ["000"%char]) (inc_arguments c))).

Definition with_digest (c : IncludeConfig) : IncludeConfig :=
  IncludeConfig_ (inc_tu_file_id c) (include_config_digest c) (inc_driver c) (inc_working_dir c)
    (inc_arguments c) (inc_lang_mode c) (inc_resource_dir c).

(** The subtractions of the statistics wrap around at 64 bits. *)
Definition wrap64 (z : Z) : Z := z mod 2 ^ 64.

Definition persist_include_facts (facts : IncludeFacts) (config : IncludeConfig) (db : IncludeDb) :
    result (IncludeFactStats * IncludeDb) :=
  let cfg := with_digest config in
  let '(deletion, db) := delete_include_configs_for_tu (inc_tu_file_id cfg) db in
  let! (config_id', db) := add_include_config sha1 getenv cfg db in
  match include_config_by_id db config_id' ≫= ic_translation_unit_config_id with
  | None => throw (bs "include config has no normalized identity")
  | Some normalized_id =>
      let stats := Stats 4 4 0 0 (Z.of_nat (direct deletion)) (Z.of_nat (cascade deletion)) 0 in
      let! s := foldR (persist_include_fact normalized_id config_id') (Persist db stats ∅ ∅ ∅ ∅ ∅)
                  (includes facts) in
      let! s := foldR (persist_macro_use config_id') s (macro_uses facts) in
      let st := ps_stats s in
      let inserted := inserted_or_updated st + Z.of_nat (size (file_applicability s)) in
      let unique_facts := 4 + Z.of_nat (size (file_applicability s)) + Z.of_nat (size (edge_identities s)) +
                          Z.of_nat (size (site_identities s)) + Z.of_nat (size (macro_identities s)) in
      Ok (Stats (attempted st) inserted (wrap64 (attempted st - inserted)) (wrap64 (attempted st - unique_facts))
            (stats_deleted st) (cascade_deleted st) (path_resolution_queries st), ps_db s)
  end.
End persist.

(** ** The count of an edge covers its sites *)

(** The invariant of a store that the program wrote. *)
Definition sound_store (db : IncludeDb) : Prop := store_wf db ∧ counted db.

Lemma empty_sound : sound_store empty_db.
Proof. split; [apply empty_wf|]. by intros e ?%elem_of_nil. Qed.

(** A statement that touches neither edges nor sites. *)
Lemma counted_same db db' :
  db_edges db' = db_edges db → db_sites db' = db_sites db → counted db → counted db'.
Proof. unfold counted, covers, sites_of. by intros -> ->. Qed.

(** Rows that go never make a count too small. *)
Lemma sites_of_filter (P : IncludeSite → Prop) `{∀ s, Decision (P s)} db db' i :
  db_sites db' = filter P (db_sites db) → (length (sites_of db' i) ≤ length (sites_of db i))%nat.
Proof.
  unfold sites_of. intros ->. apply sublist_length. rewrite !list_filter_filter.
  rewrite (list_filter_iff _ (λ s, P s ∧ site_edge_id s = i)) by (intros s; tauto).
  rewrite <- list_filter_filter. apply sublist_filter.
Qed.

Lemma add_edge_count e i db db' :
  add_include_edge e db = Ok (i, db') → store_wf db → counted db → 1 <= row_count e →
  db_sites db' = db_sites db ∧
  ∀ x, x ∈ db_edges db' → Z.of_nat (length (sites_of db' (edge_id x))) + (if edge_id x =? i then 1 else 0)
    <= row_count x.
Proof.
  unfold add_include_edge. destruct (references _); [|done]. cbn.
  destruct (upsert _ _) as [j rows] eqn:Eu. intros [= <- <-] Hwf Hc H1. split; [done|]. cbn -[sites_of].
  intros x Hx. change (sites_of _ (edge_id x)) with (sites_of db (edge_id x)).
  destruct (upsert_spec _ _ _ _ Eu (wf_edges _ Hwf)) as [(y & Hy & Hyi & Hyk & Hcase) Hother].
  pose proof (upsert_unique _ _ _ _ Eu (wf_edges _ Hwf)) as [Hids Hkeys _].
  destruct (decide (row_key x = row_key e)) as [Hk|Hk].
  - assert (x = y) as -> by (apply (NoDup_fmap_inj row_key rows); [done|done|done|congruence]).
    change (edge_id y) with (row_id y). rewrite Hyi, Z.eqb_refl.
    destruct Hcase as [(-> & _ & Hnew)|(old & Hold & <- & ->)]; cbn -[sites_of].
    + assert (sites_of db j = []) as ->; [|cbn; lia].
      apply elem_of_nil_inv. intros s [Hs Hin]%list_elem_of_filter. apply Hnew. rewrite <- Hs.
      by apply (fk_sites _ Hwf).
    + specialize (Hc old Hold). unfold covers in Hc. lia.
  - apply Hother in Hx as Hin; [|done]. specialize (Hc x Hin). unfold covers in Hc.
    destruct (Z.eqb_spec (edge_id x) j) as [Hj|]; [|lia].
    exfalso. apply Hk. assert (x = y) as ->; [|done].
    apply (NoDup_fmap_inj row_id rows); [done|done|done|]. cbn in *. congruence.
Qed.

(** An upserted site adds at most one to the sites of its edge. *)
Lemma put_sites_length rows new i rows' k :
  upsert rows new = (i, rows') →
  (length (filter (λ s, site_edge_id s = k) rows') ≤
   length (filter (λ s, site_edge_id s = k) rows) + if (site_edge_id new =? k)%Z then 1 else 0)%nat.
Proof.
  unfold upsert. destruct (update_conflict rows new) as [[r0 rows0]|] eqn:E; intros [= _ <-].
  - apply update_conflict_Some in E as (pre & old & post & -> & Hk & _ & ->).
    rewrite !filter_app, !length_app, !filter_cons. cbn.
    destruct (decide (site_edge_id old = k)); cbn; lia.
  - rewrite filter_app, length_app, filter_cons, filter_nil. cbn.
    destruct (decide _) as [Hd|Hd]; cbn; [rewrite Hd, Z.eqb_refl; lia|]. lia.
Qed.

Lemma write_directive_sound edge site db db' :
  (∀ i, site_edge_id (site i) = i) → 1 <= row_count edge →
  write_directive edge site db = Ok db' → sound_store db → sound_store db'.
Proof.
  unfold write_directive. intros Hs H1 E [Hwf Hc].
  apply rbind_Ok in E as ([i db1] & E1 & E). apply rbind_Ok in E as ([j db2] & E2 & [= <-]).
  pose proof (add_include_edge_wf _ _ _ _ E1 Hwf) as Hwf1. split; [by eapply add_include_site_wf|].
  destruct (add_edge_count _ _ _ _ E1 Hwf Hc H1) as [_ Hc1].
  unfold add_include_site in E2. destruct (references _); [|done]. cbn in E2.
  destruct (upsert _ _) as [k rows] eqn:Eu. injection E2 as <- <-. intros x Hx. specialize (Hc1 x Hx).
  unfold covers, sites_of in *. cbn in *. pose proof (put_sites_length _ _ _ _ (edge_id x) Eu) as Hl.
  rewrite Hs in Hl. destruct (Z.eqb_spec i (edge_id x)), (Z.eqb_spec (edge_id x) i); try congruence; lia.
Qed.

Lemma add_file_config_sound a db db' : add_file_config a db = Ok db' → sound_store db → sound_store db'.
Proof.
  intros E [Hwf Hc]. split; [by eapply add_file_config_wf|]. unfold add_file_config in E.
  case_match; [done|]. ok_inv. by apply (counted_same db).
Qed.

Lemma add_include_config_sound sha1 getenv c i db db' :
  add_include_config sha1 getenv c db = Ok (i, db') → sound_store db → sound_store db'.
Proof.
  intros E [Hwf Hc]. split; [by eapply add_include_config_wf|]. unfold add_include_config in E.
  destruct (add_translation_unit_config _ _ _ _) as [n db1] eqn:E1.
  unfold add_translation_unit_config in E1. destruct (upsert _ _) as [m rows1]. injection E1 as <- <-.
  ok_inv. destruct (upsert _ _) as [j rows]. ok_inv. unfold add_file_config in *.
  repeat (case_match; [done|]). ok_inv. by apply (counted_same db).
Qed.

Lemma add_macro_sound m db db' : add_include_macro_use m db = Ok db' → sound_store db → sound_store db'.
Proof.
  intros E [Hwf Hc]. split; [by eapply add_include_macro_use_wf|]. unfold add_include_macro_use in E. ok_inv.
  by apply (counted_same db).
Qed.

Lemma delete_unit_sound f stats db db' :
  delete_include_configs_for_tu f db = (stats, db') → sound_store db → sound_store db'.
Proof.
  intros E [Hwf Hc]. split; [by eapply delete_wf|]. apply delete_shape in E as (-> & _ & _).
  intros e He. cbn in He. apply list_elem_of_filter in He as [_ He]. specialize (Hc e He). unfold covers in *.
  pose proof (sites_of_filter (λ s, site_edge_id s ∉ edges_of_tu db f) db
    (Db (db_files db) [] [] [] [] [] (db_sites (without_unit f db)) []) (edge_id e) eq_refl) as Hl.
  change (sites_of _ (edge_id e)) with (sites_of (Db (db_files db) [] [] [] [] [] (db_sites (without_unit f db)) []) (edge_id e)).
  lia.
Qed.

(** ** Persisting keeps the store sound *)

Section sound.
Context (sha1 : bytes → bytes) (getenv : bytes → option bytes) (h : host) (get_file : bytes → option Z).

Lemma with_db_sound f s s' :
  (∀ db db', f db = Ok db' → sound_store db → sound_store db') →
  with_db f s = Ok s' → sound_store (ps_db s) → sound_store (ps_db s').
Proof. unfold with_db. intros Hf E Hs. ok_inv. cbn. by eapply Hf. Qed.

Lemma file_id_for_db path s r : file_id_for h get_file path s = Ok r → ps_db r.2 = ps_db s.
Proof.
  unfold file_id_for. destruct path; [by intros [= <-]|]. intros E. ok_inv. case_match; ok_inv; done.
Qed.

Lemma record_header_sound o c db db' :
  record_header_applicability o c db = Ok db' → sound_store db → sound_store db'.
Proof. destruct o; cbn; [apply add_file_config_sound|by intros [= <-]]. Qed.

Lemma persist_directive_sound n fact c f s s' :
  persist_include_edge_and_site h get_file n fact c f s = Ok s' → sound_store (ps_db s) → sound_store (ps_db s').
Proof.
  unfold persist_include_edge_and_site. intros E Hs.
  apply rbind_Ok in E as (dst_path & _ & E). apply rbind_Ok in E as ([dst s1] & E1 & E).
  assert (ps_db s1 = ps_db s) as Hdb.
  { destruct (if_resolved fact); [by eapply (file_id_for_db _ s (dst, s1))|by injection E1 as _ <-]. }
  apply rbind_Ok in E as (s2 & E2 & E). apply rbind_Ok in E as (s3 & E3 & E). injection E as <-. cbn.
  apply (with_db_sound _ _ _ (record_header_sound _ _)) in E2; [|by destruct dst; cbn; rewrite Hdb].
  eapply with_db_sound; [|exact E3|exact E2]. intros db db'. by apply write_directive_sound.
Qed.

Lemma persist_include_sound n c s fact s' :
  persist_include_fact h get_file n c s fact = Ok s' → sound_store (ps_db s) → sound_store (ps_db s').
Proof.
  unfold persist_include_fact. destruct (if_src_path fact) as [|x p]; [by intros [= <-]|].
  intros E Hs. apply rbind_Ok in E as ([source s1] & E1 & E). apply file_id_for_db in E1. cbn in E1.
  rewrite <- E1 in Hs. destruct source as [f|]; [|by ok_inv].
  apply rbind_Ok in E as (s2 & E2 & E). apply persist_directive_sound in E; [done|]. cbn.
  by eapply (with_db_sound _ _ _ (record_header_sound _ _)).
Qed.

Lemma persist_macro_sound c s fact s' :
  persist_macro_use h get_file c s fact = Ok s' → sound_store (ps_db s) → sound_store (ps_db s').
Proof.
  unfold persist_macro_use. intros E Hs. apply rbind_Ok in E as ([source s1] & E1 & E).
  apply file_id_for_db in E1. cbn in E1. rewrite <- E1 in Hs. destruct source as [f|]; [|by ok_inv].
  ok_inv. cbn. by eapply (with_db_sound _ _ _ (add_macro_sound _)).
Qed.

Lemma foldR_sound {A} (f : IncludePersistenceState → A → result IncludePersistenceState) l s s' :
  (∀ s a s', f s a = Ok s' → sound_store (ps_db s) → sound_store (ps_db s')) →
  foldR f s l = Ok s' → sound_store (ps_db s) → sound_store (ps_db s').
Proof.
  intros Hf E Hs. revert s E Hs. induction l as [|a l IH]; intros s E Hs; cbn in E; ok_inv; [done|].
  eapply IH; [exact E|]. by eapply Hf.
Qed.

Lemma persist_facts_sound facts config stats db db' :
  persist_include_facts sha1 getenv h get_file facts config db = Ok (stats, db') →
  sound_store db → sound_store db'.
Proof.
  unfold persist_include_facts. destruct (delete_include_configs_for_tu _ _) as [deletion db1] eqn:Ed.
  intros E Hs. apply delete_unit_sound in Ed; [|done].
  apply rbind_Ok in E as ([c db2] & E1 & E). apply add_include_config_sound in E1; [|done].
  destruct (_ ≫= ic_translation_unit_config_id) as [n|]; [|done].
  apply rbind_Ok in E as (s1 & E2 & E). apply rbind_Ok in E as (s2 & E3 & E). injection E as <- <-.
  eapply (foldR_sound _ _ _ _ (λ s a, persist_macro_sound _ s a)); [exact E3|].
  by eapply (foldR_sound _ _ _ _ (λ s a, persist_include_sound _ _ s a)).
Qed.
End sound.
