(* ===== verification/IncludePublish.v ===== *)
(** * Publishing the includes of a batch: [src/src/storage/fact_batch_writer.cpp]

    [publish_includes] and the statements of [publish_applicability] that write
    [file_config]: the statements that turn the staged rows of a fact batch into
    the include tier.  The staging tables are lists in the order of their
    ordinals, the file map a finite map, and the tables of components,
    directories and files the lists [component_root], [directories] and [files].
    The unit's main route, with its file and its configuration, is an argument
    ([Publication]); the counters of the report, and the generations and rows of
    [fact_applicability], which no table of the include tier depends on, are left
    out. *)

From S2P Require Export IncludeFacts.

Open Scope Z_scope.

(** ** The staging tables *)

(** A row of [cidx_batch_aux] of the family of includes, its columns by their
    meaning: [t0] to [t5], then [i0] to [i9]. *)
Record AuxInclude := Aux {
  aux_handle : Z;               (* file_handle *)
  aux_dst_path : bytes;         (* t0 *)
  aux_spelling : bytes;         (* t1 *)
  aux_cond : bytes;             (* t2 *)
  aux_component : option bytes; (* t3 *)
  aux_directory : option bytes; (* t4 *)
  aux_file_name : option bytes; (* t5 *)
  aux_line : Z;                 (* i0 *)
  aux_col : Z;                  (* i1 *)
  aux_begin : Z;                (* i2 *)
  aux_end : Z;                  (* i3 *)
  aux_directive : Z;            (* i4 *)
  aux_angled : bool;            (* i5 *)
  aux_resolved : bool;          (* i6 *)
  aux_system : bool;            (* i7 *)
  aux_guarded : bool;           (* i8 *)
  aux_dst_handle : option Z     (* i9 *)
}.

(** A row of the family of macros: [t0], [t1] and [i0]. *)
Record AuxMacro := AuxMacro_ { am_handle : Z; am_def_path : bytes; am_name : bytes; am_count : Z }.

(** A row of the family of applicability: [i0], [i1] and [t0]. *)
Record AuxApplicability := AuxApplicability_ {
  ap_handle : Z;
  ap_role : Z;
  ap_state : Z;
  ap_reason : option bytes
}.

(** [cidx_batch_file_map] of the batch: the file and whether its route is
    planned, by handle. *)
Definition FileMap := gmap Z (Z * bool).

(** The rows the targets are looked up in: [WITH component_root], [directory] and
    [file]. *)
Record SourceTree := Tree {
  component_root : list (Z * bytes);
  directories : list (Z * Z * bytes);
  files : list (Z * Z * bytes)
}.

(** What the include configuration is published with. *)
Record Publication := Publication_ {
  pb_main_file : Z;
  pb_digest : bytes;
  pb_driver : option bytes;
  pb_working_dir : option bytes;
  pb_arguments : list bytes;
  pb_lang_mode : option bytes;
  pb_resource_dir : option bytes;
  pb_configuration_id : Z
}.

(** ** Targets *)

(** [JOIN cidx_batch_file_map src ON ... src.planned=1]. *)
Definition planned_file (fm : FileMap) (handle : Z) : option Z :=
  match fm !! handle with
  | Some (f, true) => Some f
  | _ => None
  end.

(** [SELECT file_id FROM cidx_batch_file_map WHERE planned=1]. *)
Definition planned_ids (fm : FileMap) : list Z :=
  omap (λ p : Z * (Z * bool), if p.2.2 then Some p.2.1 else None) (map_to_list fm).

(** [CASE WHEN t GLOB '[0-9]*' THEN CAST(t AS INTEGER) END]: the digits that
    begin the text, saturated at 64 bits. *)
Definition cast_integer (t : bytes) : option Z :=
  match take_while is_digit t with
  | [] => None
  | digits => Some (default (2 ^ 63 - 1) (strtoll digits))
  end.

(** [LEFT JOIN]: one row of nulls when nothing matches. *)
Definition left_join {A B} (matches : list A) (k : A → list (option B)) : list (option B) :=
  match matches with [] => [None] | _ => mbind k matches end.

(** The [persisted.id] of the rows the three joins make of [a]. *)
Definition persisted (tree : SourceTree) (a : AuxInclude) : list (option Z) :=
  left_join (filter (λ c, Some c.2 = aux_component a) (component_root tree)) (λ c,
  left_join (filter (λ d, d.1.2 = c.1 ∧ Some d.2 = aux_directory a) (directories tree)) (λ d,
  left_join (filter (λ f, f.1.2 = d.1.1 ∧ Some f.2 = aux_file_name a) (files tree)) (λ f,
  [Some f.1.1]))).

(** [COALESCE(dst.file_id, CASE WHEN ..., persisted.id)], per joined row. *)
Definition file_of (fm : FileMap) (handle : Z) : option Z := fst <$> fm !! handle.

Definition coalesce {A} (a b : option A) : option A := match a with Some _ => a | None => b end.

Definition targets (fm : FileMap) (tree : SourceTree) (a : AuxInclude) : list (option Z) :=
  coalesce (coalesce (aux_dst_handle a ≫= file_of fm) (aux_component a ≫= cast_integer)) <$> persisted tree a.

(** [MIN], which ignores nulls. *)
Definition least (l : list (option Z)) : option Z :=
  foldr (λ x m, match x, m with Some a, Some b => Some (Z.min a b) | Some a, None => Some a | None, m => m end) None l.

(** ** Statements *)

(** The rows of the planned files of the configuration that the publication owns. *)
Definition owned_edge (fm : FileMap) (cfg : Z) (e : IncludeEdge) : Prop :=
  config_id e = cfg ∧ src_file_id e ∈ planned_ids fm.
Definition owned_macro (fm : FileMap) (cfg : Z) (m : IncludeMacroUse) : Prop :=
  mu_config_id m = cfg ∧ mu_src_file_id m ∈ planned_ids fm.

#[export] Instance owned_edge_dec fm cfg e : Decision (owned_edge fm cfg e).
Proof. unfold owned_edge. apply _. Defined.
#[export] Instance owned_macro_dec fm cfg m : Decision (owned_macro fm cfg m).
Proof. unfold owned_macro. apply _. Defined.

(** The upsert of [include_config]; a negative configuration is stored as null. *)
Definition publish_config (p : Publication) (db : IncludeDb) : result (Z * IncludeDb) :=
  let normalized := if 0 <=? pb_configuration_id p then Some (pb_configuration_id p) else None in
  let! _ := references (has_file db (pb_main_file p) &&
              match normalized with Some i => has_id (db_configs db) i | None => true end) in
  let '(id, rows) := upsert (db_include_configs db)
    (IncludeCfg 0 (pb_main_file p) (pb_digest p) (pb_driver p) (pb_working_dir p)
       (Some (encode_string_array (pb_arguments p))) (pb_lang_mode p) (pb_resource_dir p) normalized) in
  Ok (id, Db (db_files db) (db_configs db) (db_tus db) (db_file_configs db) rows (db_edges db) (db_sites db)
            (db_macros db)).

(** [UPDATE cidx_batch_aux SET t3=...]: a row without a destination handle
    remembers the target its edge has. *)
Definition remember (fm : FileMap) (cfg : Z) (db : IncludeDb) (a : AuxInclude) : AuxInclude :=
  let known :=
    f ← planned_file fm (aux_handle a);
    e ← find (λ e, bool_decide (row_key e = (f, aux_dst_path a, cfg))) (db_edges db);
    row_dst_file_id e in
  match aux_dst_handle a, known with
  | None, Some d =>
      Aux (aux_handle a) (aux_dst_path a) (aux_spelling a) (aux_cond a) (Some (to_string d)) (aux_directory a)
        (aux_file_name a) (aux_line a) (aux_col a) (aux_begin a) (aux_end a) (aux_directive a) (aux_angled a)
        (aux_resolved a) (aux_system a) (aux_guarded a) (aux_dst_handle a)
  | _, _ => a
  end.

(** The two deletions, with the cascade from edges to sites. *)
Definition delete_owned (fm : FileMap) (cfg : Z) (db : IncludeDb) : IncludeDb :=
  Db (db_files db) (db_configs db) (db_tus db) (db_file_configs db) (db_include_configs db)
    (filter (λ e, ¬ owned_edge fm cfg e) (db_edges db))
    (filter (λ s, site_edge_id s ∉ ids (filter (owned_edge fm cfg) (db_edges db))) (db_sites db))
    (filter (λ m, ¬ owned_macro fm cfg m) (db_macros db)).

(** The key a row is grouped by, when its file is planned. *)
Definition edge_group (fm : FileMap) (a : AuxInclude) : option (Z * bytes) :=
  (λ f, (f, aux_dst_path a)) <$> planned_file fm (aux_handle a).

Definition in_group (fm : FileMap) (g : Z * bytes) (rows : list AuxInclude) : list AuxInclude :=
  filter (λ a, edge_group fm a = Some g) rows.

(** The row [GROUP BY] makes of a group: [COUNT] over the joined rows, [MIN] over
    their targets, [MAX] of the system flags. *)
Definition group_edge_row (fm : FileMap) (tree : SourceTree) (cfg : Z) (rows : list AuxInclude)
    (g : Z * bytes) : IncludeEdge :=
  let joined := in_group fm g rows ≫= targets fm tree in
  IncludeEdgeRow 0 g.1 (least joined) g.2 cfg (existsb aux_system (in_group fm g rows)) false
    (Z.of_nat (length joined)).

Definition insert_edge (e : IncludeEdge) (db : IncludeDb) : result IncludeDb :=
  let! _ := references (has_file db (src_file_id e) && has_file_opt db (row_dst_file_id e)
                          && has_id (db_include_configs db) (config_id e)) in
  let! rows := insert_row (db_edges db) e in
  Ok (Db (db_files db) (db_configs db) (db_tus db) (db_file_configs db) (db_include_configs db) rows
        (db_sites db) (db_macros db)).

Definition site_row (edge : Z) (a : AuxInclude) : IncludeSite :=
  Site 0 edge (aux_line a) (aux_col a) (aux_begin a) (aux_end a) (aux_spelling a) (aux_angled a)
    (aux_directive a) (aux_cond a) (aux_resolved a) (aux_guarded a).

Definition insert_site (s : IncludeSite) (db : IncludeDb) : result IncludeDb :=
  let! _ := references (has_id (db_edges db) (site_edge_id s)) in
  let! rows := insert_row (db_sites db) s in
  Ok (Db (db_files db) (db_configs db) (db_tus db) (db_file_configs db) (db_include_configs db) (db_edges db)
        rows (db_macros db)).

(** [JOIN include_edge e ON ...]: the key has at most one edge. *)
Definition insert_site_of (fm : FileMap) (cfg : Z) (db : IncludeDb) (a : AuxInclude) : result IncludeDb :=
  match g ← edge_group fm a; find (λ e, bool_decide (row_key e = (g, cfg))) (db_edges db) with
  | Some e => insert_site (site_row (edge_id e) a) db
  | None => Ok db
  end.

Definition macro_group (fm : FileMap) (a : AuxMacro) : option (Z * bytes * bytes) :=
  (λ f, (f, am_def_path a, am_name a)) <$> planned_file fm (am_handle a).

Definition insert_macro (m : IncludeMacroUse) (db : IncludeDb) : result IncludeDb :=
  if bool_decide (row_key m ∈ keys (db_macros db)) then throw (bs "UNIQUE constraint failed")
  else add_include_macro_use m db.

Definition group_macro_row (fm : FileMap) (cfg : Z) (rows : list AuxMacro) (g : Z * bytes * bytes) :
    IncludeMacroUse :=
  MacroUse g.1.1 g.1.2 g.2 cfg
    (foldr (λ a n, am_count a + n) 0 (filter (λ a, macro_group fm a = Some g) rows)).

(** [GROUP BY] yields the groups in the order of their keys. *)
Definition edge_groups (fm : FileMap) (rows : list AuxInclude) : list (Z * bytes) :=
  sort_unique (pair_ltb Z.ltb bytes_ltb) (omap (edge_group fm) rows).

Definition macro_groups (fm : FileMap) (rows : list AuxMacro) : list (Z * bytes * bytes) :=
  sort_unique (pair_ltb (pair_ltb Z.ltb bytes_ltb) bytes_ltb) (omap (macro_group fm) rows).

(** [publish_includes]: the staged rows after the update, and the database. *)
Definition publish_includes (tree : SourceTree) (fm : FileMap) (p : Publication) (rows : list AuxInclude)
    (macros : list AuxMacro) (db : IncludeDb) : result (list AuxInclude * IncludeDb) :=
  let! (cfg, db) := publish_config p db in
  let rows := remember fm cfg db <$> rows in
  let db := delete_owned fm cfg db in
  let! db := foldR (λ db g, insert_edge (group_edge_row fm tree cfg rows g) db) db (edge_groups fm rows) in
  let! db := foldR (insert_site_of fm cfg) db rows in
  let! db := foldR (λ db g, insert_macro (group_macro_row fm cfg macros g) db) db (macro_groups fm macros) in
  Ok (rows, db).

(** *** Applicability *)

Definition applicability_state (i : Z) : TranslationUnitConfigState :=
  if i =? 0 then registered else if i =? 1 then unregistered else if i =? 2 then ambiguous
  else if i =? 3 then stale else unavailable.

(** The first statement selects the units' rows, [i0 = 0]. *)
Definition unit_applicability (fm : FileMap) (cfg : Z) (a : AuxApplicability) : option FileConfigRow :=
  if ap_role a =? 0 then
    (λ f, FileConfig f cfg (bs "translation_unit") (config_state_name (applicability_state (ap_state a)))
            (ap_reason a)) <$> file_of fm (ap_handle a)
  else None.

(** The files the second one registers as headers: the sources of the include
    rows and their targets. *)
Definition header_files (tree : SourceTree) (fm : FileMap) (rows : list AuxInclude) : list Z :=
  let with_destination a := bool_decide (is_Some (aux_dst_handle a)) || bool_decide (is_Some (aux_file_name a)) in
  sort_unique Z.ltb
    (omap (λ a, file_of fm (aux_handle a)) rows ++
     omap id (filter (λ a, with_destination a = true) rows ≫= targets fm tree)).

(** The two insertions of [publish_applicability] into [file_config]. *)
Definition publish_file_configs (tree : SourceTree) (fm : FileMap) (p : Publication) (rows : list AuxInclude)
    (units : list AuxApplicability) (db : IncludeDb) : result IncludeDb :=
  let cfg := pb_configuration_id p in
  if cfg <? 0 then Ok db else
    let! db := foldR (λ db r, add_file_config r db) db (omap (unit_applicability fm cfg) units) in
    foldR (λ db f, add_file_config (FileConfig f cfg (bs "header") (bs "registered") None) db) db
      (header_files tree fm rows).

(** The two calls of the writer, one after the other. *)
Definition publish (tree : SourceTree) (fm : FileMap) (p : Publication) (rows : list AuxInclude)
    (macros : list AuxMacro) (units : list AuxApplicability) (db : IncludeDb) : result IncludeDb :=
  let! (rows, db) := publish_includes tree fm p rows macros db in
  publish_file_configs tree fm p rows units db.

(** ** Laws *)

Definition edge_for (fm : FileMap) (cfg : Z) (db : IncludeDb) (a : AuxInclude) : option IncludeEdge :=
  g ← edge_group fm a; find (λ e, bool_decide (row_key e = (g, cfg))) (db_edges db).

Lemma edge_group_Some fm a g :
  edge_group fm a = Some g ↔ planned_file fm (aux_handle a) = Some g.1 ∧ aux_dst_path a = g.2.
Proof.
  unfold edge_group. rewrite fmap_Some. destruct g as [f p]; cbn. naive_solver.
Qed.

Lemma planned_file_ids fm h f : planned_file fm h = Some f → f ∈ planned_ids fm.
Proof.
  unfold planned_file, planned_ids. intros Hp. apply list_elem_of_omap.
  destruct (fm !! h) as [[g []]|] eqn:E; [|done..]. injection Hp as ->.
  exists (h, (f, true)). split; [by apply elem_of_map_to_list|done].
Qed.

Lemma find_key {R K} `{Keyed R K} `{HasId R} `{EqDecision K} (rows : list R) k r :
  unique_table rows → find (λ r, bool_decide (row_key r = k)) rows = Some r ↔ r ∈ rows ∧ row_key r = k.
Proof.
  intros [_ Hk _]. split.
  - intros [Hin Hr]%find_some. by apply list_elem_of_In in Hin; bool_split.
  - intros [Hin Hr]. destruct (find _ rows) as [r'|] eqn:E.
    + apply find_some in E as [Hin' Hr']. apply list_elem_of_In in Hin'. bool_split. f_equal.
      apply (NoDup_fmap_inj row_key rows); [done|done|done|congruence].
    + apply list_elem_of_In, (find_none _ _ E) in Hin. by bool_split.
Qed.

Lemma edge_for_Some fm cfg db a e :
  store_wf db → edge_for fm cfg db a = Some e ↔
  e ∈ db_edges db ∧ config_id e = cfg ∧ edge_group fm a = Some (src_file_id e, row_dst_path e).
Proof.
  intros Hwf. unfold edge_for. destruct (edge_group fm a) as [[f p]|]; cbn; [|split; [done|by intros (_ & _ & ?)]].
  rewrite (find_key _ _ _ (wf_edges _ Hwf)). cbn. naive_solver.
Qed.

(** *** Insertions *)

Lemma insert_edge_add e db db' :
  insert_edge e db = Ok db' →
  add_include_edge e db = Ok (next_id (db_edges db), db') ∧ row_key e ∉ keys (db_edges db) ∧
  db' = Db (db_files db) (db_configs db) (db_tus db) (db_file_configs db) (db_include_configs db)
          (db_edges db ++ [with_id (next_id (db_edges db)) e]) (db_sites db) (db_macros db).
Proof.
  unfold insert_edge, add_include_edge. intros E. apply rbind_Ok in E as (u & -> & E).
  apply rbind_Ok in E as (rows & (Eu & Hk & ->)%insert_row_upsert & [= <-]). cbn [rbind]. by rewrite Eu.
Qed.

Lemma insert_site_add s db db' :
  insert_site s db = Ok db' →
  add_include_site s db = Ok (next_id (db_sites db), db') ∧
  db' = Db (db_files db) (db_configs db) (db_tus db) (db_file_configs db) (db_include_configs db)
          (db_edges db) (db_sites db ++ [with_id (next_id (db_sites db)) s]) (db_macros db).
Proof.
  unfold insert_site, add_include_site. intros E. apply rbind_Ok in E as (u & -> & E).
  apply rbind_Ok in E as (rows & (Eu & Hk & ->)%insert_row_upsert & [= <-]). cbn [rbind]. by rewrite Eu.
Qed.

(** The groups inserted, each under a new id. *)
Lemma insert_edges_spec (mk : Z * bytes → IncludeEdge) gs db db' :
  foldR (λ db g, insert_edge (mk g) db) db gs = Ok db' → store_wf db →
  store_wf db' ∧ ∃ new,
    db' = Db (db_files db) (db_configs db) (db_tus db) (db_file_configs db) (db_include_configs db)
            (db_edges db ++ new) (db_sites db) (db_macros db) ∧
    Forall2 (λ g e, ∃ i, e = with_id i (mk g) ∧ i ∉ ids (db_edges db)) gs new.
Proof.
  revert db. induction gs as [|g gs IH]; intros db E Hwf; cbn in E.
  - injection E as <-. split; [done|]. exists []. rewrite app_nil_r. split; [by destruct db|constructor].
  - apply rbind_Ok in E as (db1 & E1 & E). apply insert_edge_add in E1 as (E1 & _ & ->).
    pose proof (add_include_edge_wf _ _ _ _ E1 Hwf) as Hwf1.
    destruct (IH _ E Hwf1) as (Hwf' & new & -> & Hnew). split; [done|]. cbn in *.
    eexists (_ :: new). rewrite <- app_assoc. split; [done|]. constructor.
    + exists (next_id (db_edges db)). split; [done|]. intros Hin%next_id_fresh. lia.
    + eapply Forall2_impl; [exact Hnew|]. intros g' e (i & -> & Hi). exists i. split; [done|].
      intros Hin. apply Hi. unfold ids in *. rewrite fmap_app, elem_of_app. by left.
Qed.

(** The sites inserted: those of the rows whose edge is there, in their order. *)
Lemma insert_sites_spec fm cfg rows db db' :
  foldR (insert_site_of fm cfg) db rows = Ok db' → store_wf db →
  store_wf db' ∧ ∃ new,
    db' = Db (db_files db) (db_configs db) (db_tus db) (db_file_configs db) (db_include_configs db)
            (db_edges db) (db_sites db ++ new) (db_macros db) ∧
    ∀ i, with_site_id 0 <$> filter (λ s, site_edge_id s = i) new =
         site_row i <$> filter (λ a, edge_id <$> edge_for fm cfg db a = Some i) rows.
Proof.
  revert db. induction rows as [|a rows IH]; intros db E Hwf; cbn in E.
  - injection E as <-. split; [done|]. exists []. rewrite app_nil_r. by destruct db.
  - apply rbind_Ok in E as (db1 & E1 & E). unfold insert_site_of in E1.
    change (g ← edge_group fm a; find _ _) with (edge_for fm cfg db a) in E1.
    destruct (edge_for fm cfg db a) as [e|] eqn:Ee.
    + apply insert_site_add in E1 as (E1 & ->). pose proof (add_include_site_wf _ _ _ _ E1 Hwf) as Hwf1.
      destruct (IH _ E Hwf1) as (Hwf' & new & -> & Hnew). split; [done|]. cbn in *.
      eexists (_ :: new). rewrite <- app_assoc. split; [done|]. intros i.
      rewrite !filter_cons. cbn. specialize (Hnew i).
      destruct (decide (edge_id e = i)) as [<-|Hne].
      * rewrite decide_True by (by rewrite Ee). rewrite !fmap_cons, Hnew. done.
      * rewrite decide_False by (rewrite Ee; cbn; congruence). exact Hnew.
    + injection E1 as <-. destruct (IH _ E Hwf) as (Hwf' & new & -> & Hnew). split; [done|].
      exists new. split; [done|]. intros i. rewrite filter_cons, decide_False by (by rewrite Ee). apply Hnew.
Qed.

Lemma insert_macros_spec (mk : Z * bytes * bytes → IncludeMacroUse) gs db db' :
  foldR (λ db g, insert_macro (mk g) db) db gs = Ok db' → store_wf db →
  store_wf db' ∧
  db' = Db (db_files db) (db_configs db) (db_tus db) (db_file_configs db) (db_include_configs db)
          (db_edges db) (db_sites db) (db_macros db ++ (mk <$> gs)).
Proof.
  revert db. induction gs as [|g gs IH]; intros db E Hwf; cbn in E.
  - injection E as <-. rewrite app_nil_r. by destruct db.
  - apply rbind_Ok in E as (db1 & E1 & E). unfold insert_macro in E1. case_bool_decide as Hk; [done|].
    pose proof (add_include_macro_use_wf _ _ _ E1 Hwf) as Hwf1. destruct (IH _ E Hwf1) as [Hwf' ->].
    split; [done|]. unfold add_include_macro_use in E1. ok_inv. cbn. f_equal.
    assert (put (db_macros db) (mk g) = db_macros db ++ [mk g]) as ->.
    { unfold put. by rewrite (proj2 (update_conflict_None _ _) Hk). }
    by rewrite <- app_assoc.
Qed.

(** *** The statements before them *)

Lemma publish_config_shape p cfg db db' :
  publish_config p db = Ok (cfg, db') → ∃ rows,
  db' = Db (db_files db) (db_configs db) (db_tus db) (db_file_configs db) rows (db_edges db) (db_sites db)
          (db_macros db).
Proof. unfold publish_config. intros E. ok_inv. destruct (upsert _ _). ok_inv. eauto. Qed.

Lemma publish_config_wf p cfg db db' : publish_config p db = Ok (cfg, db') → store_wf db → store_wf db'.
Proof.
  unfold publish_config. intros E Hwf. apply rbind_Ok in E as (u & Hr & E).
  destruct (upsert _ _) as [i rows] eqn:Eu. injection E as <- <-.
  apply references_ok, andb_prop in Hr as [Hmain%has_file_elem Hcfg].
  assert (∀ j, (if 0 <=? pb_configuration_id p then Some (pb_configuration_id p) else None) = Some j →
            j ∈ ids (db_configs db)) as Hj.
  { intros j Hj. destruct (0 <=? pb_configuration_id p); [|done]. injection Hj as <-. by apply has_id_elem. }
  destruct Hwf as [? ? ? ? ? ? ? ? ? Hc He ? Hm]. split; cbn; try done.
  - exact (upsert_unique _ _ _ _ Eu ltac:(done)).
  - intros x [Hin|[->|(old & [Hin _]%Hc & _ & ->)]]%(upsert_elem _ _ _ _ _ Eu); cbn; [by apply Hc|done|done].
  - intros e (? & ? & ?)%He. split_and!; [done|done|still_there Eu].
  - intros m [? ?]%Hm. split; [done|still_there Eu].
Qed.

Lemma delete_owned_wf fm cfg db : store_wf db → store_wf (delete_owned fm cfg db).
Proof.
  intros [? ? ? ? ? ? ? ? ? ? He Hs Hm]. split; cbn; try done; try by apply unique_filter.
  - by apply filter_keys_NoDup.
  - by intros e [_ ?%He]%list_elem_of_filter.
  - intros s [Hn ?%Hs]%list_elem_of_filter.
    by refine (ids_filter_not (owned_edge fm cfg) _ _ _ _ _ _).
  - by intros m [_ ?%Hm]%list_elem_of_filter.
Qed.

(** ** What a publication leaves *)

(** The rows after publishing under the configuration [cfg]: the planned files
    have one edge per header they include, with what its directives say together,
    and one site per directive; the rest is as before. *)
Record published (fm : FileMap) (tree : SourceTree) (cfg : Z) (rows : list AuxInclude)
    (macros : list AuxMacro) (db db' : IncludeDb) : Prop := {
  pub_others : db_files db' = db_files db ∧ db_configs db' = db_configs db ∧ db_tus db' = db_tus db ∧
    db_file_configs db' = db_file_configs db ∧ db_include_configs db' = db_include_configs db;
  pub_kept e : ¬ owned_edge fm cfg e → e ∈ db_edges db' ↔ e ∈ db_edges db;
  pub_kept_sites e : e ∈ db_edges db → ¬ owned_edge fm cfg e → sites_of db' (edge_id e) = sites_of db (edge_id e);
  pub_edge e : e ∈ db_edges db' → owned_edge fm cfg e →
    let g := (src_file_id e, row_dst_path e) in
    in_group fm g rows ≠ [] ∧ with_id 0 e = group_edge_row fm tree cfg rows g ∧
    with_site_id 0 <$> sites_of db' (edge_id e) = site_row (edge_id e) <$> in_group fm g rows;
  pub_every a g : a ∈ rows → edge_group fm a = Some g →
    ∃ e, e ∈ db_edges db' ∧ row_key e = (g, cfg);
  pub_macro m : m ∈ db_macros db' ↔
    m ∈ db_macros db ∧ ¬ owned_macro fm cfg m ∨
    ∃ g, g ∈ macro_groups fm macros ∧ m = group_macro_row fm cfg macros g
}.

Lemma elem_of_groups fm rows g : g ∈ edge_groups fm rows ↔ ∃ a, a ∈ rows ∧ edge_group fm a = Some g.
Proof. unfold edge_groups. by rewrite elem_of_sort_unique, list_elem_of_omap. Qed.

Lemma group_owned fm tree cfg rows g i :
  g ∈ edge_groups fm rows → owned_edge fm cfg (with_id i (group_edge_row fm tree cfg rows g)).
Proof.
  intros (a & _ & [Hp _]%edge_group_Some)%elem_of_groups. split; [done|]. cbn. by eapply planned_file_ids.
Qed.

(** The database once the edges are in place. *)
Lemma edges_published fm tree cfg rows db db3 :
  foldR (λ db g, insert_edge (group_edge_row fm tree cfg rows g) db) (delete_owned fm cfg db)
    (edge_groups fm rows) = Ok db3 → store_wf db →
  store_wf db3 ∧
  (db_files db3 = db_files db ∧ db_configs db3 = db_configs db ∧ db_tus db3 = db_tus db ∧
   db_file_configs db3 = db_file_configs db ∧ db_include_configs db3 = db_include_configs db ∧
   db_sites db3 = db_sites (delete_owned fm cfg db) ∧ db_macros db3 = db_macros (delete_owned fm cfg db)) ∧
  (∀ e, ¬ owned_edge fm cfg e → e ∈ db_edges db3 ↔ e ∈ db_edges db) ∧
  (∀ e, e ∈ db_edges db3 → owned_edge fm cfg e → ∃ g, g ∈ edge_groups fm rows ∧
     with_id 0 e = group_edge_row fm tree cfg rows g ∧ sites_of db3 (edge_id e) = []) ∧
  (∀ g, g ∈ edge_groups fm rows → ∃ i, with_id i (group_edge_row fm tree cfg rows g) ∈ db_edges db3).
Proof.
  intros E Hwf. pose proof (delete_owned_wf fm cfg db Hwf) as Hwf2.
  apply insert_edges_spec in E as (Hwf3 & new & -> & Hnew); [|done].
  split; [done|]. split; [done|]. cbn [db_edges db_sites delete_owned] in *.
  assert (∀ e, e ∈ new → ∃ g i, g ∈ edge_groups fm rows ∧ e = with_id i (group_edge_row fm tree cfg rows g) ∧
    i ∉ ids (filter (λ e, ¬ owned_edge fm cfg e) (db_edges db))) as Hin.
  { intros e He. apply list_elem_of_lookup in He as [k Hk].
    destruct (Forall2_lookup_r _ _ _ _ _ Hnew Hk) as (g & Hg & i & -> & Hi).
    exists g, i. split_and!; [by eapply list_elem_of_lookup_2|done|done]. }
  split_and!.
  - intros e Hn. rewrite elem_of_app, list_elem_of_filter. split; [|tauto]. intros [[_ ?]|He]; [done|].
    destruct (Hin e He) as (g & i & Hg & -> & _). exfalso. by apply Hn, group_owned.
  - intros e [[? _]%list_elem_of_filter|He]%elem_of_app Ho; [done|].
    destruct (Hin e He) as (g & i & Hg & -> & Hi). exists g. split; [done|]. split; [done|].
    apply elem_of_nil_inv. intros s [Hs Hs']%list_elem_of_filter. cbn in Hs, Hs'. apply Hi. rewrite <- Hs.
    by apply (fk_sites _ Hwf2).
  - intros g Hg. apply list_elem_of_lookup in Hg as [k Hk].
    destruct (Forall2_lookup_l _ _ _ _ _ Hnew Hk) as (e & He & i & -> & _).
    exists i. apply elem_of_app. right. by eapply list_elem_of_lookup_2.
Qed.

Lemma sites_of_same db db' i : db_sites db' = db_sites db → sites_of db' i = sites_of db i.
Proof. unfold sites_of. by intros ->. Qed.

(** The rows whose edge is [e]. *)
Lemma edge_for_id fm cfg db e (rows : list AuxInclude) :
  store_wf db → e ∈ db_edges db →
  filter (λ a, edge_id <$> edge_for fm cfg db a = Some (edge_id e)) rows =
  if decide (config_id e = cfg) then in_group fm (src_file_id e, row_dst_path e) rows else [].
Proof.
  intros Hwf He.
  assert (∀ a, edge_id <$> edge_for fm cfg db a = Some (edge_id e) ↔
    config_id e = cfg ∧ edge_group fm a = Some (src_file_id e, row_dst_path e)) as Hiff.
  { intros a. rewrite fmap_Some. setoid_rewrite edge_for_Some; [|done]. split.
    - intros (e' & (He' & Hc & Hg) & Hid). assert (e = e') as ->; [|done].
      apply (NoDup_fmap_inj row_id (db_edges db)); [apply Hwf|done|done|done].
    - intros [Hc Hg]. by exists e. }
  case_decide as Hc; unfold in_group.
  - apply list_filter_iff. intros a. rewrite Hiff. tauto.
  - apply filter_none, Forall_forall. intros a _ [? _]%Hiff. done.
Qed.

Lemma in_group_nil fm g rows : in_group fm g rows = [] ↔ g ∉ edge_groups fm rows.
Proof.
  unfold in_group. rewrite elem_of_groups. split.
  - intros Hn (a & Ha & Hg). assert (a ∈ filter (λ a, edge_group fm a = Some g) rows) as Hin
      by by apply list_elem_of_filter. rewrite Hn in Hin. by apply elem_of_nil in Hin.
  - intros Hn. apply filter_none, Forall_forall. eauto.
Qed.

Lemma published_after fm tree cfg rows macros db db3 db4 db5 :
  store_wf db →
  foldR (λ db g, insert_edge (group_edge_row fm tree cfg rows g) db) (delete_owned fm cfg db)
    (edge_groups fm rows) = Ok db3 →
  foldR (insert_site_of fm cfg) db3 rows = Ok db4 →
  foldR (λ db g, insert_macro (group_macro_row fm cfg macros g) db) db4 (macro_groups fm macros) = Ok db5 →
  store_wf db5 ∧ published fm tree cfg rows macros db db5.
Proof.
  intros Hwf E3 E4 E5.
  destruct (edges_published _ _ _ _ _ _ E3 Hwf) as (Hwf3 & (? & ? & ? & ? & ? & Hs3 & Hm3) & Hkept & Hnew & Hevery).
  destruct (insert_sites_spec _ _ _ _ _ E4 Hwf3) as (Hwf4 & sites & -> & Hsites).
  destruct (insert_macros_spec _ _ _ _ E5 Hwf4) as [Hwf5 ->]. split; [done|].
  assert (∀ i, sites_of (Db (db_files db3) (db_configs db3) (db_tus db3) (db_file_configs db3)
      (db_include_configs db3) (db_edges db3) (db_sites db3 ++ sites)
      (db_macros db3 ++ (group_macro_row fm cfg macros <$> macro_groups fm macros))) i =
    sites_of db3 i ++ filter (λ s, site_edge_id s = i) sites) as Happ.
  { intros i. unfold sites_of. cbn. by rewrite filter_app. }
  split; cbn -[sites_of in_group group_edge_row]; try rewrite Happ.
  - done.
  - exact Hkept.
  - intros e He Ho. apply Hkept in He as He3; [|done]. specialize (Hsites (edge_id e)).
    rewrite edge_for_id in Hsites by done. rewrite Happ.
    assert (filter (λ s, site_edge_id s = edge_id e) sites = []) as ->.
    { apply (fmap_nil_inv (with_site_id 0)). rewrite Hsites. case_decide as Hc; [|done].
      assert (in_group fm (src_file_id e, row_dst_path e) rows = []) as ->; [|done].
      apply in_group_nil. intros (a & _ & [Hp _]%edge_group_Some)%elem_of_groups. apply Ho. split; [done|].
      by eapply planned_file_ids. }
    rewrite app_nil_r. unfold sites_of. rewrite Hs3. cbn. rewrite list_filter_filter.
    apply list_filter_iff. intros s. split; [tauto|]. intros Hse. split; [done|]. rewrite Hse.
    intros (x & Hx & Hid)%elem_of_ids. apply list_elem_of_filter in Hx as [Hxo Hx].
    assert (x = e) as ->; [|done]. apply (NoDup_fmap_inj row_id (db_edges db)); [apply Hwf|done|done|done].
  - intros e He Ho. destruct (Hnew e He Ho) as (g & Hg & Hrow & Hnil).
    assert (g = (src_file_id e, row_dst_path e)) as ->.
    { destruct g. by injection Hrow as -> _ -> _. }
    split; [by rewrite in_group_nil; auto|]. split; [exact Hrow|]. rewrite Happ, Hnil. cbn [app].
    rewrite Hsites, edge_for_id by done. by rewrite decide_True by apply Ho.
  - intros a g Ha Hg. destruct (Hevery g) as [i Hi]; [apply elem_of_groups; eauto|].
    eexists. split; [exact Hi|]. by destruct g.
  - intros m. rewrite Hm3. cbn. rewrite elem_of_app, list_elem_of_filter, list_elem_of_fmap.
    split; [intros [[]|(g & ? & ?)]|intros [[]|(g & ? & ?)]]; eauto.
Qed.

(** *** Remembered targets *)




Lemma left_join_ne {A B} (l : list A) (k : A → list (option B)) : (∀ a, k a ≠ []) → left_join l k ≠ [].
Proof.
  intros Hk. destruct l as [|a l]; [done|]. cbn. intros [Ha _]%app_nil. by apply (Hk a).
Qed.

Lemma persisted_ne tree a : persisted tree a ≠ [].
Proof. do 3 (apply left_join_ne; intros ?). done. Qed.

Lemma targets_ne fm tree a : targets fm tree a ≠ [].
Proof. intros Hn%fmap_nil_inv. by apply persisted_ne in Hn. Qed.





(** *** Soundness *)

Lemma length_targets fm tree rows : (length rows ≤ length (rows ≫= targets fm tree))%nat.
Proof.
  induction rows as [|a rows IH]; [done|]. rewrite bind_cons, length_app.
  assert (length (targets fm tree a) ≠ 0%nat) by (intros ?%nil_length_inv; by eapply targets_ne).
  cbn [length]. lia.
Qed.

Lemma published_counted fm tree cfg rows macros db db' :
  published fm tree cfg rows macros db db' → counted db → counted db'.
Proof.
  intros Hpub Hc e He. unfold covers. destruct (decide (owned_edge fm cfg e)) as [Ho|Hn].
  - destruct (pub_edge _ _ _ _ _ _ _ Hpub e He Ho) as (_ & Hrow & Hsites).
    apply (f_equal length) in Hsites. rewrite !length_fmap in Hsites. rewrite Hsites.
    assert (row_count e = Z.of_nat (length (in_group fm (src_file_id e, row_dst_path e) rows ≫= targets fm tree)))
      as -> by exact (f_equal row_count Hrow).
    pose proof (length_targets fm tree (in_group fm (src_file_id e, row_dst_path e) rows)). lia.
  - apply (pub_kept _ _ _ _ _ _ _ Hpub) in He as He0; [|done].
    rewrite (pub_kept_sites _ _ _ _ _ _ _ Hpub e He0 Hn). by apply Hc.
Qed.

Lemma publish_includes_sound tree fm p rows macros rows' db db' :
  publish_includes tree fm p rows macros db = Ok (rows', db') → sound_store db → sound_store db'.
Proof.
  unfold publish_includes. intros E [Hwf Hc]. apply rbind_Ok in E as ([cfg db1] & E1 & E).
  pose proof (publish_config_wf _ _ _ _ E1 Hwf) as Hwf1.
  destruct (publish_config_shape _ _ _ _ E1) as (cfgs & Hdb1).
  apply rbind_Ok in E as (db3 & E3 & E). apply rbind_Ok in E as (db4 & E4 & E).
  apply rbind_Ok in E as (db5 & E5 & E). injection E as <- <-.
  destruct (published_after _ _ _ _ _ _ _ _ _ Hwf1 E3 E4 E5) as [Hwf5 Hpub]. split; [done|].
  eapply published_counted; [exact Hpub|]. by apply (counted_same db); rewrite ?Hdb1.
Qed.

Lemma add_file_configs_sound {A} (f : A → FileConfigRow) l db db' :
  foldR (λ db a, add_file_config (f a) db) db l = Ok db' → sound_store db → sound_store db'.
Proof.
  revert db. induction l as [|a l IH]; intros db E Hs; cbn in E; [by injection E as <-|].
  apply rbind_Ok in E as (db1 & E1 & E). eapply IH; [exact E|]. by eapply add_file_config_sound.
Qed.

Lemma publish_sound tree fm p rows macros units db db' :
  publish tree fm p rows macros units db = Ok db' → sound_store db → sound_store db'.
Proof.
  unfold publish. intros E Hs. apply rbind_Ok in E as ([rows' db1] & E1 & E).
  apply publish_includes_sound in E1; [|done]. unfold publish_file_configs in E.
  case_match; [by injection E as <-|]. apply rbind_Ok in E as (db2 & E2 & E).
  apply (add_file_configs_sound id) in E2; [|done]. by apply (add_file_configs_sound _ _ _ _ E).
Qed.

(** ** The theorem *)



(** ** Witness *)

(** File 1 includes [h.h] twice, and its publisher knows the handle of [h.h]; then
    it is published again with one directive whose target is not known. *)
Definition sample_map : FileMap := <[10 := (1, true)]> (<[30 := (3, false)]> ∅).

Definition sample_tree : SourceTree := Tree [(1, bs "/w")] [(1, 1, [])] [(1, 1, bs "a.cpp"); (3, 1, bs "h.h")].

Definition sample_publication : Publication :=
  Publication_ 1 (bs "digest") (Some (bs "c++")) None [] (Some (bs "c++")) None (-1).

Definition sample_directive (begin_ : Z) (handle : option Z) : AuxInclude :=
  Aux 10 (bs "/w/h.h") (bs "h.h") [] None None None 1 1 begin_ (begin_ + 15) 1 false true false true handle.

Definition sample_published : result (list AuxInclude * IncludeDb) :=
  let! (_, db) := publish_includes sample_tree sample_map sample_publication
                    [sample_directive 0 (Some 30); sample_directive 15 (Some 30)]
                    [AuxMacro_ 10 (bs "/w/h.h") (bs "M") 2; AuxMacro_ 10 (bs "/w/h.h") (bs "M") 3] sample_files in
  publish_includes sample_tree sample_map sample_publication [sample_directive 0 None]
    [AuxMacro_ 10 (bs "/w/h.h") (bs "M") 4] db.


