(* ===== verification/IncludeReach.v ===== *)
(** * The include tiers the program writes

    Every part of the program that writes the tables of the include tier is a step:
    the registration of a file (storage_files.cpp), its invalidation and its
    deletion, the statements of storage_include.cpp that other parts call,
    [persist_include_facts] and the publication of a batch.  A reachable tier is
    well-formed and its counts cover its sites, which is what the classification
    of a repeated directive relies on. *)

From S2P Require Export IncludePublish.

Open Scope Z_scope.

Section reach.
Context (sha1 : bytes → bytes) (getenv : bytes → option bytes) (h : host).

(** Deleting a directory or a component deletes its files, one after the other. *)
Inductive step : IncludeDb → IncludeDb → Prop :=
| step_add_file f db :
    step db (Db ({[f]} ∪ db_files db) (db_configs db) (db_tus db) (db_file_configs db)
               (db_include_configs db) (db_edges db) (db_sites db) (db_macros db))
| step_mark_stale f db : step db (mark_stale f db)
| step_delete_file f db : step db (delete_file f db)
| step_config input i db db' : add_translation_unit_config sha1 getenv input db = (i, db') → step db db'
| step_file_config a db db' : add_file_config a db = Ok db' → step db db'
| step_include_config c i db db' : add_include_config sha1 getenv c db = Ok (i, db') → step db db'
| step_delete_unit f stats db db' : delete_include_configs_for_tu f db = (stats, db') → step db db'
| step_persist get_file facts config stats db db' :
    persist_include_facts sha1 getenv h get_file facts config db = Ok (stats, db') → step db db'
| step_publish tree fm p rows macros units db db' :
    publish tree fm p rows macros units db = Ok db' → step db db'.

Lemma delete_file_sound f db : sound_store db → sound_store (delete_file f db).
Proof.
  intros [Hwf Hc]. split; [by apply delete_file_wf|].
  intros e (e0 & -> & [_ He]%list_elem_of_filter)%list_elem_of_fmap. specialize (Hc e0 He). unfold covers in *.
  destruct (forget_target_row f e0) as (-> & _ & _ & _ & ->).
  pose proof (sites_of_filter (λ s, site_edge_id s ∉ ids (filter (lost_edge f db) (db_edges db))) db
    (delete_file f db) (edge_id e0) eq_refl). lia.
Qed.

Lemma step_sound db db' : step db db' → sound_store db → sound_store db'.
Proof.
  intros [f ?|f ?|f ?|input i ? ? E|a ? ? E|c i ? ? E|f stats ? ? E|get_file facts config stats ? ? E
         |tree fm p rows macros units ? ? E] Hs.
  - destruct Hs as [Hwf Hc]. split; [by apply add_file_wf|by apply (counted_same db0)].
  - destruct Hs as [Hwf Hc]. split; [by apply mark_stale_wf|by apply (counted_same db0)].
  - by apply delete_file_sound.
  - destruct Hs as [Hwf Hc]. pose proof E as E'. apply add_configs_wf in E' as [? _]; [|done]. split; [done|].
    unfold add_translation_unit_config in E. destruct (upsert _ _). injection E as _ <-.
    by apply (counted_same db0).
  - by eapply add_file_config_sound.
  - by eapply add_include_config_sound.
  - by eapply delete_unit_sound.
  - by eapply persist_facts_sound.
  - by eapply publish_sound.
Qed.

(** C34: Every include tier the program can write, from an empty index and by any
    sequence of registrations, invalidations and deletions of files, of retired and
    persisted units and of publications, is well-formed: ids and keys are unique,
    every unit, file configuration, include configuration, edge, directive site and
    macro use references rows that exist, whatever was deleted under it; and the
    count of an edge is at least the number of its sites, so an edge with two
    directives never counts one. *)
Theorem reachable_stores_sound db (Hreach : rtc step empty_db db) :
  store_wf db ∧ counted db.
Proof.
  assert (∀ db0, rtc step db0 db → sound_store db0 → sound_store db) as Hrtc.
  { intros db0 Hr. induction Hr as [|? ? ? Hs _ IH]; [done|]. intros H0. by eapply IH, step_sound. }
  exact (Hrtc _ Hreach empty_sound).
Qed.
End reach.

(** ** Witness *)

(** [/w/a.cpp] includes [h.h] on two lines, the second of them seen twice. *)
Definition sample_fact (line begin_ : Z) : IncludeFact :=
  IncludeFact_ (bs "/w/a.cpp") (bs "/w/h.h") (bs "h.h") false line 1 begin_ (begin_ + 15) 1 [] true false true.

Definition sample_facts : IncludeFacts :=
  IncludeFacts_ [sample_fact 1 0; sample_fact 2 15; sample_fact 2 15]
    [MacroUseFact_ (bs "/w/a.cpp") (bs "/w/h.h") (bs "M")].

Definition sample_paths (p : bytes) : option Z :=
  if bool_decide (p = bs "/w/a.cpp") then Some 1 else if bool_decide (p = bs "/w/h.h") then Some 3 else None.

Definition sample_persisted : result (IncludeFactStats * IncludeDb) :=
  persist_include_facts id no_env sample_host sample_paths sample_facts (sample_config 1) sample_files.

(** Then the header is deleted, and the unit published again. *)
Definition sample_tier : result IncludeDb :=
  let! (_, db) := sample_persisted in
  publish sample_tree sample_map sample_publication [sample_directive 0 None] []
    [AuxApplicability_ 10 0 0 None] (delete_file 3 (mark_stale 1 db)).

Lemma sample_tier_reached db : sample_tier = Ok db → rtc (step id no_env sample_host) empty_db db.
Proof.
  intros E. apply rbind_Ok in E as ([stats db1] & E1 & E).
  do 3 (eapply rtc_l; [apply step_add_file|]). eapply rtc_l; [by eapply step_persist|].
  eapply rtc_l; [apply (step_mark_stale _ _ _ 1)|]. eapply rtc_l; [apply (step_delete_file _ _ _ 3)|].
  eapply rtc_l; [by eapply step_publish|]. apply rtc_refl.
Qed.

(** The statistics and the rows of the sample: three directives, two sites. *)
Example sample_statistics :
  match sample_persisted with
  | Ok (stats, db) =>
      attempted stats = 17 ∧ inserted_or_updated stats = 13 ∧ duplicates stats = 7 ∧
      row_count <$> db_edges db = [3] ∧ length (db_sites db) = 2%nat ∧ path_resolution_queries stats = 2
  | Err _ => False
  end.
Proof. vm_compute. split_and!; reflexivity. Qed.

Lemma reachable_stores_sound_witness : ∃ db,
  sample_tier = Ok db ∧ (row_dst_file_id <$> db_edges db) = [None; None] ∧ store_wf db.
Proof.
  destruct sample_tier as [db|] eqn:E; [|vm_compute in E; done].
  destruct (reachable_stores_sound id no_env sample_host db (sample_tier_reached _ E)) as [Hwf _].
  exists db. split; [reflexivity|]. split; [|exact Hwf]. vm_compute in E. injection E as <-. reflexivity.
Defined.
