(* ===== verification/Validator.v ===== *)
(** * Removal validation: [src/src/include_hygiene/validator.cpp]

    Cutting byte ranges out of a file, the translation units an edit affects and
    their compilation with the edited buffers laid over the disk.  Clang is the
    argument [compile]; [list_files] and [get_file] are the file table of the
    index. *)

From S2P Require Export CleanupPlan IncludeStore.

Open Scope Z_scope.

(** ** Data *)

Record Removal := Removal_ { rm_path : bytes; rm_begin : Z; rm_end : Z }.

Record TuTarget := Target {
  tgt_path : bytes;
  config_digest : bytes;
  tgt_descriptor_hash : bytes;
  tgt_arguments : list bytes;
  tgt_working_dir : bytes
}.

#[export] Instance Removal_eq_dec : EqDecision Removal.
Proof. solve_decision. Defined.
#[export] Instance TuTarget_eq_dec : EqDecision TuTarget.
Proof. solve_decision. Defined.

(** The contents of the files. *)
Abbreviation disk := (gmap bytes bytes).

(** [read_file]: an unreadable file is empty. *)
Definition read_file (d : disk) (path : bytes) : bytes := default [] (d !! path).

(** ** Cutting *)

(** [std::string::erase]. *)
Definition erase (s : bytes) (b n : nat) : bytes := take b s ++ drop (b + n) s.

(** The loop over the sorted removals; [last_begin] as in the code. *)
Fixpoint removal_loop (last_begin : Z) (out : bytes) (removals : list Removal) : bytes :=
  match removals with
  | [] => out
  | r :: removals =>
      if (rm_begin r <? 0) || (Z.of_nat (length out) <? rm_end r) || (rm_end r <? rm_begin r)
      then removal_loop last_begin out removals
      else if (0 <=? last_begin) && (last_begin <? rm_end r)
      then removal_loop last_begin out removals
      else
        removal_loop (rm_begin r)
          (erase out (Z.to_nat (rm_begin r)) (Z.to_nat (rm_end r - rm_begin r))) removals
  end.

Definition begins_later (a b : Removal) : bool := rm_begin b <? rm_begin a.

Definition apply_removals (content : bytes) (removals : list Removal) : bytes :=
  removal_loop (-1) content (sort begins_later removals).

(** [overlay_for]: the removals of each file, in their order. *)
Definition of_file (path : bytes) (removals : list Removal) : list Removal :=
  filter (λ r, rm_path r = path) removals.

Definition overlay_for (d : disk) (removals : list Removal) : gmap bytes bytes :=
  foldr (λ r m, <[rm_path r := apply_removals (read_file d (rm_path r)) (of_file (rm_path r) removals)]> m)
    ∅ removals.

(** ** The affected translation units *)

(** A loop whose body returns a list to append, or [nullopt] from the function. *)
Fixpoint collect {A B} (f : A → result (option (list B))) (l : list A) : result (option (list B)) :=
  match l with
  | [] => Ok (Some [])
  | a :: l =>
      let! x := f a in
      match x with
      | None => Ok None
      | Some x => let! rest := collect f l in Ok (app x <$> rest)
      end
  end.

Section affected.
Context (list_files : list (Z * bytes)) (get_file : bytes → option Z) (db : IncludeDb).

(** [IncludeGraph::load(db_, false)]. *)
Definition include_graph : IncludeGraph :=
  load list_files (all_include_edges db false) (λ i, ic_digest <$> include_config_by_id db i).

(** The body of the loop over a file's configurations. *)
Definition tu_target (root : bytes) (c : IncludeConfigRow) : result (option (list TuTarget)) :=
  match ic_translation_unit_config_id c with
  | None => Ok None
  | Some i =>
      match by_id (db_configs db) i with
      | None => Ok None
      | Some row =>
          let! descriptor := config_from_row row (bs "registered") in
          match tc_state (sc_config descriptor) with
          | registered =>
              Ok (Some [Target root (ic_digest c) (sc_descriptor_hash descriptor)
                          (tc_arguments (sc_config descriptor))
                          (default (bs ".") (tc_working_dir (sc_config descriptor)))])
          | _ => Ok None
          end
      end
  end.

(** The body of the loop over the roots. *)
Definition root_targets (root : bytes) : result (option (list TuTarget)) :=
  match get_file root with
  | None => Ok (Some [])
  | Some f => collect (tu_target root) (include_configs_for_tu db f)
  end.

Definition roots_of (abs_path : bytes) : list bytes :=
  sort_unique bytes_ltb (abs_path :: default [] (transitive_to include_graph abs_path 0)).

Definition target_ltb (a b : TuTarget) : bool :=
  if bytes_ltb (tgt_path a) (tgt_path b) then true
  else if bytes_ltb (tgt_path b) (tgt_path a) then false
  else bytes_ltb (config_digest a) (config_digest b).

Definition affected_tus (abs_path : bytes) : result (option (list TuTarget)) :=
  let! out := collect root_targets (roots_of abs_path) in
  match out with
  | None | Some [] => Ok None
  | Some out => Ok (Some (sort target_ltb out))
  end.
End affected.

(** ** Compiling *)

Section compiling.
(** The return code and the first error of compiling a target, with the files of
    the disk and the overlay over them. *)
Context (compile : disk → gmap bytes bytes → TuTarget → Z * bytes).

Definition validate_one (d : disk) (edited : gmap bytes bytes) (stage : bytes) (t : TuTarget) :
    ValidationRecord :=
  let '(rc, first) := compile d edited t in
  let ok := (rc =? 0) && bool_decide (first = []) in
  Validation stage (tgt_path t) (config_digest t) ok
    (if ok then []
     else if bool_decide (first = []) then bs "compilation failed (no diagnostic captured)"
     else first).

Definition validate (d : disk) (targets : list TuTarget) (edited : gmap bytes bytes) (stage : bytes) :
    list ValidationRecord :=
  validate_one d edited stage <$> targets.
End compiling.

Definition all_ok (records : list ValidationRecord) : bool := forallb ok records.

(** ** What cutting leaves *)

(** Position [i] is in one of the ranges. *)
Definition inside (rs : list Removal) (i : Z) : bool :=
  existsb (λ r, (rm_begin r <=? i) && (i <? rm_end r)) rs.

(** The bytes of [s], the first at position [i], at positions in no range. *)
Fixpoint cut_from (i : Z) (s : bytes) (rs : list Removal) : bytes :=
  match s with
  | [] => []
  | c :: s => (if inside rs i then [] else [c]) ++ cut_from (i + 1) s rs
  end.

Definition cut (s : bytes) (rs : list Removal) : bytes := cut_from 0 s rs.

Lemma cut_app i s t rs : cut_from i (s ++ t) rs = cut_from i s rs ++ cut_from (i + Z.of_nat (length s)) t rs.
Proof.
  revert i. induction s as [|c s IH]; intros i; cbn -[Z.of_nat]; [f_equal; lia|].
  rewrite IH, <- app_assoc. do 2 f_equal. f_equal. lia.
Qed.

Lemma cut_ext i s rs rs' :
  (∀ j, i <= j < i + Z.of_nat (length s) → inside rs j = inside rs' j) → cut_from i s rs = cut_from i s rs'.
Proof.
  revert i. induction s as [|c s IH]; intros i Hj; cbn; [done|].
  rewrite (Hj i) by (cbn; lia). f_equal. apply IH. intros j ?. apply Hj. cbn. lia.
Qed.

Lemma cut_none i s rs :
  (∀ j, i <= j < i + Z.of_nat (length s) → inside rs j = false) → cut_from i s rs = s.
Proof.
  revert i. induction s as [|c s IH]; intros i Hj; cbn; [done|].
  rewrite (Hj i) by (cbn; lia). cbn. f_equal. apply IH. intros j ?. apply Hj. cbn. lia.
Qed.

Lemma cut_every i s rs :
  (∀ j, i <= j < i + Z.of_nat (length s) → inside rs j = true) → cut_from i s rs = [].
Proof.
  revert i. induction s as [|c s IH]; intros i Hj; cbn; [done|].
  rewrite (Hj i) by (cbn; lia). apply IH. intros j ?. apply Hj. cbn. lia.
Qed.

Lemma inside_cons r rs i : inside (r :: rs) i = (rm_begin r <=? i) && (i <? rm_end r) || inside rs i.
Proof. done. Qed.

Lemma inside_below rs last i :
  Forall (λ r, last <= rm_begin r) rs → i < last → inside rs i = false.
Proof.
  intros Hrs Hi. induction Hrs as [|r rs Hr _ IH]; [done|]. rewrite inside_cons, IH.
  destruct (Z.leb_spec (rm_begin r) i); [lia|done].
Qed.

(** Cutting a range that ends where those already cut begin. *)
Lemma cut_erase content chosen r last :
  0 <= rm_begin r <= rm_end r → rm_end r <= last <= Z.of_nat (length content) →
  Forall (λ c, last <= rm_begin c) chosen →
  erase (cut content chosen) (Z.to_nat (rm_begin r)) (Z.to_nat (rm_end r - rm_begin r))
  = cut content (r :: chosen).
Proof.
  intros Hr Hlast Hch.
  assert (∃ A B C, content = A ++ B ++ C ∧ Z.of_nat (length A) = rm_begin r ∧
            Z.of_nat (length A + length B) = rm_end r) as (A & B & C & -> & HA & HB).
  { exists (take (Z.to_nat (rm_begin r)) content),
      (take (Z.to_nat (rm_end r - rm_begin r)) (drop (Z.to_nat (rm_begin r)) content)),
      (drop (Z.to_nat (rm_end r - rm_begin r)) (drop (Z.to_nat (rm_begin r)) content)).
    rewrite !take_drop. split; [done|]. rewrite !length_take, !length_drop. lia. }
  unfold cut. rewrite !cut_app.
  rewrite (cut_none 0 A chosen), (cut_none _ B chosen)
    by (intros j ?; apply (inside_below _ last); [done|lia]).
  rewrite (cut_none 0 A (r :: chosen)), (cut_every _ B (r :: chosen)).
  - unfold erase. replace (Z.to_nat (rm_begin r)) with (length A) by lia.
    rewrite take_app_length. f_equal.
    replace (length A + Z.to_nat (rm_end r - rm_begin r))%nat with (length (A ++ B)) by (rewrite length_app; lia).
    rewrite app_assoc, drop_app_length. cbn [app]. apply cut_ext. intros j Hj.
    rewrite inside_cons. destruct (Z.ltb_spec j (rm_end r)); [lia|]. by rewrite andb_false_r.
  - intros j Hj. rewrite inside_cons. destruct (Z.leb_spec (rm_begin r) j), (Z.ltb_spec j (rm_end r)); done || lia.
  - intros j Hj. rewrite inside_cons, (inside_below _ last) by (done || lia).
    destruct (Z.leb_spec (rm_begin r) j); [lia|done].
Qed.

Definition disjoint_ranges (a b : Removal) : Prop := rm_end a <= rm_begin b ∨ rm_end b <= rm_begin a.
Definition same_range (a b : Removal) : Prop := rm_begin a = rm_begin b ∧ rm_end a = rm_end b.

(** Nonempty ranges of the content, any two of which coincide or are disjoint. *)
Record proper_ranges (content : bytes) (rs : list Removal) : Prop := {
  ranges_inside r : r ∈ rs → 0 <= rm_begin r < rm_end r ∧ rm_end r <= Z.of_nat (length content);
  ranges_apart r s : r ∈ rs → s ∈ rs → same_range r s ∨ disjoint_ranges r s
}.

Lemma length_cut_from i s rs : (length (cut_from i s rs) ≤ length s)%nat.
Proof. revert i. induction s as [|c s IH]; intros i; cbn; [lia|]. specialize (IH (i + 1)). destruct (inside rs i); cbn; lia. Qed.

Lemma cut_keeps_prefix content chosen last :
  last <= Z.of_nat (length content) → Forall (λ c, last <= rm_begin c) chosen →
  last <= Z.of_nat (length (cut content chosen)).
Proof.
  intros Hl Hch. rewrite <- (take_drop (Z.to_nat last) content). unfold cut. rewrite cut_app, length_app.
  rewrite cut_none; [rewrite length_take; lia|].
  intros j Hj. rewrite length_take in Hj. apply (inside_below _ last); [done|lia].
Qed.

(** The ranges cut so far: the last one begins at [last]. *)
Record cutting (content : bytes) (last : Z) (chosen : list Removal) : Prop := {
  cutting_last : chosen = [] ∧ last = -1 ∨ ∃ c cs, chosen = c :: cs ∧ rm_begin c = last ∧ 0 <= last;
  cutting_below : Forall (λ c, last <= rm_begin c) chosen;
  cutting_fits : Forall (λ c, rm_begin c <= Z.of_nat (length content)) chosen;
  cutting_apart : ForallOrdPairs disjoint_ranges chosen
}.

Lemma cutting_start content : cutting content (-1) [].
Proof. split; [by left|constructor..]. Qed.

Lemma cutting_next content last chosen r :
  cutting content last chosen → 0 <= rm_begin r <= rm_end r → rm_end r <= Z.of_nat (length content) →
  (0 <= last → rm_end r <= last) → cutting content (rm_begin r) (r :: chosen).
Proof.
  intros [Hl Hb Hf Ha] Hr Hlen Hlast.
  assert (Forall (λ c, rm_end r <= rm_begin c) chosen) as Hend.
  { destruct Hl as [[-> _]|(c & cs & -> & _ & Hpos)]; [constructor|].
    eapply Forall_impl; [exact Hb|]. intros x Hx. cbv beta in *. specialize (Hlast Hpos). lia. }
  split; [right; exists r, chosen; split_and!; done || lia|..].
  - constructor; [lia|]. eapply Forall_impl; [exact Hend|]. intros x Hx. cbv beta in *. lia.
  - constructor; [lia|done].
  - constructor; [|done]. eapply Forall_impl; [exact Hend|]. intros x Hx. by left.
Qed.

Lemma proper_sub content rs rs' : rs' ⊆ rs → proper_ranges content rs → proper_ranges content rs'.
Proof. intros Hsub [Hi Ha]. split; intros; [apply Hi|apply Ha]; set_solver. Qed.

(** Both reasons to [continue]. *)
Definition skips (last : Z) (out : bytes) (r : Removal) : bool :=
  (rm_begin r <? 0) || (Z.of_nat (length out) <? rm_end r) || (rm_end r <? rm_begin r)
  || (0 <=? last) && (last <? rm_end r).

Lemma removal_loop_cons last out r rs :
  removal_loop last out (r :: rs) =
  if skips last out r then removal_loop last out rs
  else removal_loop (rm_begin r) (erase out (Z.to_nat (rm_begin r)) (Z.to_nat (rm_end r - rm_begin r))) rs.
Proof. cbn [removal_loop]. unfold skips. by destruct (_ || _ || _), (_ && _). Qed.

(** Skipping a proper range: it has been cut already. *)
Lemma skipped_range content last chosen r rs :
  cutting content last chosen → (0 <= last → rm_begin r <= last) →
  proper_ranges content (chosen ++ r :: rs) →
  skips last (cut content chosen) r = true → ∃ c, c ∈ chosen ∧ same_range r c.
Proof.
  unfold skips. intros [Hl Hb Hf _] Hr [Hi Ha] Hskip. destruct (Hi r) as [Hr1 Hr2]; [set_solver|].
  destruct Hl as [[-> ->]|(c & cs & -> & Hc & Hpos)].
  { unfold cut in Hskip. rewrite cut_none in Hskip by done. rewrite !orb_true_iff, !Z.ltb_lt in Hskip. cbn in Hskip. naive_solver lia. }
  destruct (decide (rm_end r <= last)) as [Hend|Hend].
  - assert (last <= Z.of_nat (length (cut content (c :: cs)))).
    { apply cut_keeps_prefix; [|done]. apply Forall_cons in Hf as [? _]. lia. }
    rewrite !orb_true_iff, andb_true_iff, !Z.ltb_lt in Hskip. naive_solver lia.
  - exists c. split; [by left|]. specialize (Hr Hpos).
    destruct (Ha r c) as [?|[?|?]]; [set_solver..|done|lia|].
    destruct (Hi c) as [? _]; [set_solver|]. lia.
Qed.

(** The removals processed in any order of descending offsets. *)
Lemma removal_loop_cuts content rs : ∀ last chosen,
  cutting content last chosen →
  Forall (λ r, 0 <= last → rm_begin r <= last) rs → StronglySorted (λ a b, rm_begin b <= rm_begin a) rs →
  ∃ more, removal_loop last (cut content chosen) rs = cut content (more ++ chosen) ∧
    ForallOrdPairs disjoint_ranges (more ++ chosen) ∧ more ⊆ rs ∧
    (proper_ranges content (chosen ++ rs) → ∀ r, r ∈ rs → ∃ c, c ∈ more ++ chosen ∧ same_range r c).
Proof.
  induction rs as [|r rs IH]; intros last chosen Hcut Hbelow Hsorted.
  { exists []. split_and!; [done|apply Hcut|set_solver|]. by intros _ x ?%elem_of_nil. }
  apply Forall_cons in Hbelow as [Hr Hbelow]. apply StronglySorted_inv in Hsorted as [Hsorted Hmax].
  rewrite removal_loop_cons. destruct (skips last (cut content chosen) r) eqn:Hskip.
  - destruct (IH last chosen) as (more & -> & Ha & Hsub & Hm); [done..|].
    exists more. split_and!; [done|done|set_solver|].
    intros Hp x [->|Hx]%elem_of_cons.
    + destruct (skipped_range content last chosen r rs) as (c & ? & ?); [done..|].
      exists c. split; [set_solver|done].
    + apply Hm; [|done]. revert Hp. apply proper_sub. set_solver.
  - unfold skips in Hskip. rewrite !orb_false_iff, andb_false_iff, !Z.ltb_ge, Z.leb_gt in Hskip.
    destruct Hskip as [[[Hpos Hlen] Hle] Hend].
    pose proof (length_cut_from 0 content chosen) as Hlc. unfold cut in Hlen.
    destruct (IH (rm_begin r) (r :: chosen)) as (more & E & Ha & Hsub & Hm).
    + apply (cutting_next _ last); [done|lia|lia|lia].
    + eapply Forall_impl; [exact Hmax|]. done.
    + done.
    + exists (more ++ [r]). rewrite <- !app_assoc. cbn [app].
      rewrite <- E. split_and!; [f_equal|done|set_solver|].
      * apply (cut_erase _ _ _ (if 0 <=? last then last else Z.of_nat (length content))); [lia|..].
        -- destruct (Z.leb_spec 0 last); [|lia]. destruct Hcut as [[[-> ->]|(c & cs & -> & <- & _)] _ Hf _]; [lia|].
           apply Forall_cons in Hf as [? _]. lia.
        -- destruct (Z.leb_spec 0 last); [apply Hcut|].
           destruct Hcut as [[[-> _]|(c & cs & -> & <- & ?)] _ _ _]; [constructor|lia].
      * intros Hp x [->|Hx]%elem_of_cons; [exists r; split; [set_solver|done]|].
        apply Hm; [|done]. revert Hp. apply proper_sub. set_solver.
Qed.

Lemma sorted_later removals : StronglySorted (λ a b, rm_begin b <= rm_begin a) (sort begins_later removals).
Proof.
  assert (Transitive (ltb_le begins_later)).
  { intros a b c. unfold ltb_le, begins_later. rewrite !Z.ltb_ge. lia. }
  assert (Total (ltb_le begins_later)).
  { intros a b. unfold ltb_le, begins_later. rewrite !Z.ltb_ge. lia. }
  eapply StronglySorted_impl_elem; [|apply (StronglySorted_merge_sort (ltb_le begins_later))].
  intros a b _ _. unfold ltb_le, begins_later. by rewrite Z.ltb_ge.
Qed.

Lemma cut_same content rs rs' :
  (∀ r, r ∈ rs → ∃ c, c ∈ rs' ∧ same_range r c) → (∀ c, c ∈ rs' → ∃ r, r ∈ rs ∧ same_range c r) →
  cut content rs = cut content rs'.
Proof.
  intros H1 H2. apply cut_ext. intros j _. apply eq_true_iff_eq. unfold inside. rewrite !existsb_exists.
  split; intros (r & Hr%list_elem_of_In & Hj).
  - destruct (H1 _ Hr) as (c & Hc & [Hb He]). exists c. rewrite <- list_elem_of_In, <- Hb, <- He. done.
  - destruct (H2 _ Hr) as (c & Hc & [Hb He]). exists c. rewrite <- list_elem_of_In, <- Hb, <- He. done.
Qed.

(** C8: Cutting removals out of a file deletes exactly bytes of disjoint ranges
    among them, however the ranges overlap and whatever their bounds and the
    order the sort gives to equal offsets; when the ranges are nonempty, inside
    the file and pairwise equal or disjoint, it deletes exactly the bytes in
    some range. *)
Theorem removals_exact content removals sorted :
  sorted ≡ₚ removals → StronglySorted (λ a b, rm_begin b <= rm_begin a) sorted →
  (∃ chosen, removal_loop (-1) content sorted = cut content chosen ∧ chosen ⊆ removals ∧
    ForallOrdPairs disjoint_ranges chosen) ∧
  (proper_ranges content removals →
    removal_loop (-1) content sorted = cut content removals ∧
    apply_removals content removals = cut content removals).
Proof.
  intros Hperm Hs. assert (content = cut content []) as Hc by (symmetry; by apply cut_none).
  assert (∀ l, l ≡ₚ removals → StronglySorted (λ a b, rm_begin b <= rm_begin a) l →
    ∃ chosen, removal_loop (-1) content l = cut content chosen ∧ chosen ⊆ removals ∧
      ForallOrdPairs disjoint_ranges chosen ∧
      (proper_ranges content removals → cut content chosen = cut content removals)) as Hrun.
  { intros l Hl Hsl. destruct (removal_loop_cuts content l (-1) []) as (more & E & Ha & Hsub & Hm);
      [apply cutting_start|apply Forall_forall; intros; lia|done|].
    rewrite <- Hc, app_nil_r in *. exists more. split_and!; [done|by rewrite <- Hl|done|].
    intros Hp. symmetry. apply cut_same.
    - intros r. rewrite <- Hl. apply Hm. revert Hp. apply proper_sub. by rewrite Hl.
    - intros c Hin. exists c. split; [|done]. rewrite <- Hl. by apply Hsub. }
  destruct (Hrun sorted) as (chosen & E & Hsub & Ha & Hp); [done..|].
  split; [eauto|]. intros Hpr. split; [by rewrite E, Hp|].
  destruct (Hrun (sort begins_later removals)) as (ch' & E' & _ & _ & Hp'); [apply merge_sort_Permutation|apply sorted_later|].
  unfold apply_removals. by rewrite E', Hp'.
Qed.

Lemma removals_exact_witness :
  let content := bs "abcdefgh" in
  let removals := [Removal_ (bs "f") 1 3; Removal_ (bs "f") 5 6; Removal_ (bs "g") 1 3] in
  proper_ranges content removals ∧ apply_removals content removals = bs "adegh".
Proof.
  intros content removals.
  assert (proper_ranges content removals) as Hp.
  { assert (∀ r, r ∈ removals → r = Removal_ (bs "f") 1 3 ∨ r = Removal_ (bs "f") 5 6 ∨ r = Removal_ (bs "g") 1 3)
      as Hin by (intros r; unfold removals; rewrite !elem_of_cons, elem_of_nil; tauto).
    split.
    - intros r [-> | [-> | ->]]%Hin; cbn; lia.
    - intros r s [-> | [-> | ->]]%Hin [-> | [-> | ->]]%Hin; unfold same_range, disjoint_ranges; cbn; lia. }
  split; [exact Hp|].
  destruct (removals_exact content removals (sort begins_later removals)) as [_ Hex].
  - apply merge_sort_Permutation.
  - apply sorted_later.
  - destruct (Hex Hp) as [_ ->]. vm_compute. reflexivity.
Defined.

(** ** The targets of an edit *)

Lemma collect_Some {A B} (f : A → result (option (list B))) l out :
  collect f l = Ok (Some out) →
  (∀ a, a ∈ l → ∃ p, f a = Ok (Some p) ∧ p ⊆ out) ∧
  (∀ x, x ∈ out → ∃ a p, a ∈ l ∧ f a = Ok (Some p) ∧ x ∈ p).
Proof.
  revert out. induction l as [|a l IH]; intros out; cbn [collect].
  { intros [= <-]. split; [by intros a ?%elem_of_nil|by intros x ?%elem_of_nil]. }
  destruct (f a) as [[p|]|] eqn:Ea; [|done..]. cbn [rbind].
  destruct (collect f l) as [[rest|]|]; [|done..]. cbn. intros [= <-].
  destruct (IH _ eq_refl) as [H1 H2]. split.
  - intros b [->|Hb]%elem_of_cons; [exists p; split; [done|set_solver]|].
    destruct (H1 _ Hb) as (q & ? & ?). exists q. split; [done|set_solver].
  - intros x [Hx|Hx]%elem_of_app; [exists a, p; split_and!; [by left|done|done]|].
    destruct (H2 _ Hx) as (b & q & ? & ? & ?). exists b, q. split_and!; [by right|done|done].
Qed.

Section affected_spec.
Context (list_files : list (Z * bytes)) (get_file : bytes → option Z) (db : IncludeDb).

(** The index knows the configuration [c] of the file [root], and it is
    registered. *)
Definition compiled_as (root : bytes) (c : IncludeConfigRow) (t : TuTarget) : Prop :=
  ∃ i row descriptor, ic_translation_unit_config_id c = Some i ∧ by_id (db_configs db) i = Some row ∧
    config_from_row row (bs "registered") = Ok descriptor ∧ tc_state (sc_config descriptor) = registered ∧
    t = Target root (ic_digest c) (sc_descriptor_hash descriptor) (tc_arguments (sc_config descriptor))
          (default (bs ".") (tc_working_dir (sc_config descriptor))).

(** [root] is the file or a file that includes it, whatever the depth. *)
Definition reaches (root path : bytes) : Prop :=
  root = path ∨ ∃ n, nsteps (included_by (include_graph list_files db)) n path root.

Lemma tu_target_Some root c ts :
  tu_target db root c = Ok (Some ts) → ∃ t, ts = [t] ∧ compiled_as root c t.
Proof.
  unfold tu_target, compiled_as. destruct (ic_translation_unit_config_id c) as [i|]; [|done].
  destruct (by_id (db_configs db) i) as [row|] eqn:Er; [|done].
  destruct (config_from_row row _) as [d|] eqn:Ed; [|done]. cbn [rbind].
  destruct (tc_state (sc_config d)) eqn:Es; [|done..]. intros [= <-]. eexists. split; [done|]. by exists i, row, d.
Qed.

Lemma elem_of_roots path root :
  root ∈ roots_of list_files db path ↔ reaches root path.
Proof.
  unfold roots_of, reaches. rewrite elem_of_sort_unique, elem_of_cons.
  destruct (reachable_spec (in_ (include_graph list_files db)) false path 0) as (l & Hl & _ & Hin).
  unfold transitive_to. rewrite Hl. cbn [default]. rewrite Hin.
  destruct (decide (root = path)) as [->|Hne]; [naive_solver|]. split.
  - intros [?|[_ (n & Hn & _)]]; [by left|]. right. exists n. exact Hn.
  - intros [?|[n Hn]]; [by left|]. right. split; [done|]. exists n. split; [exact Hn|]. left. lia.
Qed.

Lemma elem_of_configs f c :
  c ∈ include_configs_for_tu db f ↔ c ∈ db_include_configs db ∧ ic_tu_file_id c = f.
Proof.
  unfold include_configs_for_tu, sort. rewrite (merge_sort_Permutation _), list_elem_of_filter. tauto.
Qed.

(** C7: The units to compile after an edit are exactly the indexed configurations
    of the file and of every file that includes it at any depth; if they are
    given at all there is one, and every such configuration is registered.  An
    edit that no recorded compile command covers is never given an empty list of
    units, which would prove it for free. *)
Theorem affected_exact path ts :
  affected_tus list_files get_file db path = Ok (Some ts) →
  ts ≠ [] ∧
  (∀ t, t ∈ ts ↔ ∃ root f c, reaches root path ∧ get_file root = Some f ∧
    c ∈ db_include_configs db ∧ ic_tu_file_id c = f ∧ compiled_as root c t) ∧
  (∀ root f c, reaches root path → get_file root = Some f → c ∈ db_include_configs db →
    ic_tu_file_id c = f → ∃ t, t ∈ ts ∧ tgt_path t = root ∧ config_digest t = ic_digest c).
Proof.
  unfold affected_tus. destruct (collect _ _) as [[out|]|] eqn:E; [|done..]. cbn [rbind].
  intros Hts. apply collect_Some in E as [Hall Hfrom].
  assert (ts = sort target_ltb out ∧ out ≠ []) as [-> Hne] by (destruct out; [done|by injection Hts as <-]).
  assert (∀ root f c, reaches root path → get_file root = Some f → c ∈ db_include_configs db →
    ic_tu_file_id c = f → ∃ t, t ∈ out ∧ compiled_as root c t) as Hcov.
  { intros root f c Hr%elem_of_roots Hf Hc Htu. destruct (Hall _ Hr) as (p & Hp & Hsub).
    unfold root_targets in Hp. rewrite Hf in Hp. apply collect_Some in Hp as [Hcs _].
    destruct (Hcs c) as (q & Hq & Hqsub); [by apply elem_of_configs|].
    apply tu_target_Some in Hq as (t & -> & Ht). exists t. split; [set_solver|done]. }
  split_and!.
  - intros Hnil. apply Hne. apply Permutation_nil_r. rewrite <- Hnil. symmetry. apply merge_sort_Permutation.
  - intros t. unfold sort. rewrite (merge_sort_Permutation _). split.
    + intros (root & p & Hr & Hp & Ht)%Hfrom. unfold root_targets in Hp.
      destruct (get_file root) as [f|] eqn:Hf; [|injection Hp as <-; by apply elem_of_nil in Ht].
      apply collect_Some in Hp as [_ Hp]. destruct (Hp _ Ht) as (c & q & Hc & Hq & Hin).
      apply tu_target_Some in Hq as (t' & -> & Hcomp). apply list_elem_of_singleton in Hin as ->.
      apply elem_of_configs in Hc as [? ?]. exists root, f, c. split_and!; [by apply elem_of_roots|done..].
    + intros (root & f & c & Hr & Hf & Hc & Htu & Hcomp).
      destruct (Hcov root f c) as (t' & Hin & Hcomp'); [done..|].
      unfold compiled_as in *. assert (t' = t) as <-; [|done]. naive_solver congruence.
  - intros root f c Hr Hf Hc Htu. destruct (Hcov root f c) as (t & Hin & Hcomp); [done..|].
    exists t. unfold sort. rewrite (merge_sort_Permutation _).
    destruct Hcomp as (? & ? & ? & _ & _ & _ & _ & ->). done.
Qed.
End affected_spec.

(** The file table of [sample_db]. *)
Definition sample_list : list (Z * bytes) := [(1, bs "/a.cpp"); (2, bs "/b.cpp"); (3, bs "h.h")].
Definition sample_get (path : bytes) : option Z :=
  fst <$> head (filter (λ f, f.2 = path) sample_list).

(** Both units include the header. *)
Lemma affected_exact_witness : ∃ ts,
  affected_tus sample_list sample_get sample_db (bs "h.h") = Ok (Some ts) ∧
  tgt_path <$> ts = [bs "/a.cpp"; bs "/b.cpp"] ∧ ts ≠ [].
Proof.
  eexists. assert (affected_tus sample_list sample_get sample_db (bs "h.h") = Ok (Some _)) as E
    by (vm_compute; reflexivity).
  split; [exact E|]. split; [vm_compute; reflexivity|].
  exact (proj1 (affected_exact _ _ _ _ _ E)).
Defined.
