(* ===== verification/Analysis.v ===== *)
(** * Include classification: [src/src/include_hygiene/analysis.cpp]

    The verdict on every direct include of the index, merged over the
    configurations it was seen in.  The symbol tables of the index are the
    interface [SymbolStore]; the include tier is [IncludeStore]. *)

From S2P Require Export Validator.

Open Scope Z_scope.

(** ** Data *)

Inductive Classification : Type := Duplicate | UnusedByReference | Used | ManualReview.

#[export] Instance Classification_eq_dec : EqDecision Classification.
Proof. solve_decision. Defined.

Definition classification_name (c : Classification) : bytes :=
  match c with
  | Duplicate => bs "duplicate"
  | UnusedByReference => bs "unused_by_reference"
  | Used => bs "used"
  | ManualReview => bs "manual_review"
  end.

Record Evidence := Evidence_ { ev_owner : bytes; ev_target : bytes; ev_relation : bytes }.

#[export] Instance Evidence_eq_dec : EqDecision Evidence.
Proof. solve_decision. Defined.

(** [IncludeCandidate]: where the directive is, and the verdict on it. *)
Record Directive := Directive_ {
  dir_id : bytes;
  dir_src_path : bytes;
  dir_dst_path : bytes;
  dir_spelling : bytes;
  dir_is_angled : bool;
  dir_line : Z;
  dir_col : Z;
  dir_begin_offset : Z;
  dir_end_offset : Z;
  dir_text : bytes;
  dir_cond_fingerprint : bytes;
  dir_kind : Z
}.

Record IncludeCandidate := Candidate {
  c_directive : Directive;
  c_guarded : bool;
  cls : Classification;
  caveats : list bytes;
  c_owners : list bytes;
  c_header_symbols : list bytes;
  c_intersection_count : Z;
  evidence : list Evidence;
  c_macro_uses : list bytes;
  c_reverse_dependants : list bytes;
  c_configs : list bytes
}.

(** [candidate_id]. *)
Definition candidate_id (sha1 : bytes → bytes) (src_path : bytes) (begin_offset : Z) : bytes :=
  take 12 (digest_to_hex (sha1 (src_path ++ [nul] ++ to_string begin_offset))).

(** [read_range]: up to the end of the file. *)
Definition read_range (d : disk) (path : bytes) (begin end_ : Z) : bytes :=
  match d !! path with
  | None => []
  | Some content =>
      if (begin <? 0) || (end_ <? begin) then []
      else take (Z.to_nat (end_ - begin)) (drop (Z.to_nat begin) content)
  end.

(** ** The symbol tables *)

Record Symbol := Symbol_ { qual_name : option bytes; spelling : bytes }.

(** The queries of the semantic tier. *)
Class SymbolStore : Type := {
  symbol_ids_for_file : Z → list Z;
  lookup_symbol_by_id : Z → option Symbol;
  edge_targets_from : list Z → list Z;
  def_edge_targets_for_file : Z → list Z;
  type_ids_used_by : list Z → list Z;
  symbols_named_by_types : list Z → list Z;
  (** [graph_edges(o, out, {}, false, 1000)]: target and kind. *)
  graph_edges_out : Z → list (Z * Z);
  (** The entries of [edge_kinds_map()], in order. *)
  edge_kinds : list (bytes * Z)
}.

Definition display_name_of (s : Symbol) : bytes :=
  match qual_name s with
  | Some (c :: q) => c :: q
  | _ => spelling s
  end.

Section analysis.
Context `{!SymbolStore}.

Definition names_of (ids : list Z) : list bytes :=
  sort_unique bytes_ltb (display_name_of <$> omap lookup_symbol_by_id ids).

Record SourceContext := SourceContext_ {
  ctx_owners : list Z;
  owner_names : list bytes;
  refs : gset Z
}.

Definition build_source_context (src_file_id : Z) : SourceContext :=
  let owners := symbol_ids_for_file src_file_id in
  SourceContext_ owners (names_of owners)
    (list_to_set (edge_targets_from owners) ∪ list_to_set (def_edge_targets_for_file src_file_id)
     ∪ list_to_set (symbols_named_by_types (type_ids_used_by owners))).

(** The first owner with an edge to the target; the display name and the kind. *)
Fixpoint relation_of_edges (owners : list Z) (target : Z) : option (bytes * bytes) :=
  match owners with
  | [] => None
  | o :: owners =>
      match head (filter (λ row, row.1 = target) (graph_edges_out o)) with
      | Some (_, kind) =>
          Some (from_option display_name_of [] (lookup_symbol_by_id o),
                default (bs "edge") (fst <$> head (filter (λ k, k.2 = kind) edge_kinds)))
      | None => relation_of_edges owners target
      end
  end.

Definition relation_for (owners : list Z) (target : Z) : bytes * bytes :=
  match relation_of_edges owners target with
  | Some found => found
  | None => (from_option display_name_of [] (head owners ≫= lookup_symbol_by_id), bs "type")
  end.

(** [std::tie(owner, target, relation)]. *)
Definition evidence_ltb (a b : Evidence) : bool :=
  lex_ltb bytes_ltb [ev_owner a; ev_target a; ev_relation a] [ev_owner b; ev_target b; ev_relation b].

(** ** One directive *)

Definition kIncludeDirectiveIncludeNext : Z := 2.
Definition kIncludeDirectiveImport : Z := 3.
Definition kIncludeDirectiveIncludeMacros : Z := 4.

Definition caveat (b : bool) (text : bytes) : list bytes := if b then [text] else [].

(** The caveats collected before any verdict. *)
Definition directive_caveats (e : IncludeEdge) (s : IncludeSite) (macro_uses : list bytes) : list bytes :=
  caveat (negb (site_resolved s)) (bs "directive did not resolve to a file") ++
  (if site_directive s =? kIncludeDirectiveIncludeNext
   then [bs "#include_next depends on search-path position"]
   else if site_directive s =? kIncludeDirectiveImport
   then [bs "#import has no multiple-include contract here"]
   else if site_directive s =? kIncludeDirectiveIncludeMacros
   then [bs "__include_macros is a preprocessor-internal directive"]
   else []) ++
  caveat (negb (bool_decide (cond_fingerprint s = [])))
    (bs "inside a conditional region: only proven for this configuration") ++
  caveat (row_is_system e) (bs "system header: its internals are not indexed") ++
  caveat (bool_decide (row_dst_file_id e = None))
    (bs "target is not owned by any component: its symbols are not indexed") ++
  caveat (negb (bool_decide (macro_uses = [])))
    (bs "source expands macro(s) defined in this header").

Definition x_macro_caveat (count : Z) : bytes :=
  bs "UNGUARDED header included " ++ to_string count ++
  bs " times in this file: re-inclusion is intentional (X-macro), so no occurrence can be removed automatically".

Definition own_header_caveat : bytes :=
  bs "this file defines symbol(s) this header declares (its own header): removal cannot be proven safe automatically".

Definition evidence_for (ctx : SourceContext) (id : Z) : option Evidence :=
  (λ sym, let '(owner, relation) := relation_for (ctx_owners ctx) id in
          Evidence_ owner (display_name_of sym) relation) <$> lookup_symbol_by_id id.

Definition classify (db : IncludeDb) (graph : IncludeGraph) (ctx : SourceContext) (e : IncludeEdge)
    (s : IncludeSite) (is_repeat : bool) (at_ : Directive) (configs : list bytes) : IncludeCandidate :=
  let macro_uses := sort bytes_ltb (mu_name <$> include_macro_uses db (src_file_id e) (row_dst_path e)) in
  let caveats := directive_caveats e s macro_uses in
  if negb (site_guarded s) && (1 <? row_count e) then
    Candidate at_ (site_guarded s) ManualReview (caveats ++ [x_macro_caveat (row_count e)])
      (owner_names ctx) [] 0 [] macro_uses [] configs
  else if is_repeat then
    Candidate at_ (site_guarded s) Duplicate caveats (owner_names ctx) [] 0 [] macro_uses [] configs
  else
    let header_symbols := match row_dst_file_id e with Some f => symbol_ids_for_file f | None => [] end in
    let names := names_of header_symbols in
    let hit := filter (λ id, id ∈ refs ctx) header_symbols in
    let count := Z.of_nat (length hit) in
    if negb (bool_decide (hit = [])) then
      Candidate at_ (site_guarded s) Used caveats (owner_names ctx) names count
        (sort evidence_ltb (omap (evidence_for ctx) hit)) macro_uses [] configs
    else
      let caveats := caveats ++
        caveat (existsb (λ id, bool_decide (id ∈ ctx_owners ctx)) header_symbols) own_header_caveat in
      Candidate at_ (site_guarded s) (if bool_decide (caveats = []) then UnusedByReference else ManualReview)
        caveats (owner_names ctx) names count [] macro_uses
        (default [] (transitive_to graph (dir_src_path at_) 0)) configs.

(** ** Merging *)

Definition combine_class (a b : Classification) : Classification :=
  if bool_decide (a = Used) || bool_decide (b = Used) then Used
  else if bool_decide (a = ManualReview) || bool_decide (b = ManualReview) then ManualReview
  else if bool_decide (a = b) then a
  else ManualReview.

Definition merge_two (d c : IncludeCandidate) : IncludeCandidate :=
  Candidate (c_directive d) (c_guarded d && c_guarded c) (combine_class (cls d) (cls c))
    (caveats d ++ caveats c) (c_owners d ++ c_owners c) (c_header_symbols d ++ c_header_symbols c)
    (Z.max (c_intersection_count d) (c_intersection_count c)) (evidence d ++ evidence c)
    (c_macro_uses d ++ c_macro_uses c) (c_reverse_dependants d ++ c_reverse_dependants c)
    (c_configs d ++ c_configs c).

Definition merge_candidate (into : gmap bytes IncludeCandidate) (c : IncludeCandidate) :
    gmap bytes IncludeCandidate :=
  let id := dir_id (c_directive c) in
  match into !! id with
  | None => <[id := c]> into
  | Some d => <[id := merge_two d c]> into
  end.

Definition finalize_merged (c : IncludeCandidate) : IncludeCandidate :=
  let tidy := sort_unique bytes_ltb in
  Candidate (c_directive c) (c_guarded c) (cls c) (tidy (caveats c)) (tidy (c_owners c))
    (tidy (c_header_symbols c)) (c_intersection_count c) (sort_unique evidence_ltb (evidence c))
    (tidy (c_macro_uses c)) (tidy (c_reverse_dependants c)) (tidy (c_configs c)).

(** ** The whole index *)

Record AnalysisOptions := AnalysisOptions_ {
  scope_paths : list bytes;
  want_duplicates : bool;
  want_unused : bool
}.

Record AnalysisResult := AnalysisResult_ {
  candidates : list IncludeCandidate;
  include_graph_empty : bool;
  uncovered_scope : list bytes
}.

Section analyze.
Context (sha1 : bytes → bytes) (d : disk) (h : host).
Context (list_files : list (Z * bytes)) (get_file : bytes → option Z) (db : IncludeDb).

(** The directives seen: target, configuration and conditional region. *)
Abbreviation seen_sites := (gset (bytes * Z * bytes)).

Definition directive_at (src_path : bytes) (e : IncludeEdge) (s : IncludeSite) : Directive :=
  Directive_ (candidate_id sha1 src_path (site_begin_offset s)) src_path (row_dst_path e)
    (site_spelling s) (site_is_angled s) (site_line s) (site_col s) (site_begin_offset s)
    (site_end_offset s) (read_range d src_path (site_begin_offset s) (site_end_offset s))
    (cond_fingerprint s) (site_directive s).

(** The body of the loop over a file's directives. *)
Definition visit_site (graph : IncludeGraph) (ctx : SourceContext) (src_path : bytes)
    (st : seen_sites * gmap bytes IncludeCandidate) (o : IncludeEdge * IncludeSite) :
    seen_sites * gmap bytes IncludeCandidate :=
  let '(seen, merged) := st in
  let '(e, s) := o in
  let key := (row_dst_path e, config_id e, cond_fingerprint s) in
  let configs := match include_config_by_id db (config_id e) with
                 | Some cfg => [ic_digest cfg]
                 | None => []
                 end in
  ({[key]} ∪ seen,
   merge_candidate merged
     (classify db graph ctx e s (bool_decide (key ∈ seen)) (directive_at src_path e s) configs)).

(** The occurrences of directives, edge by edge. *)
Definition occurrences (edges : list IncludeEdge) : list (IncludeEdge * IncludeSite) :=
  edges ≫= λ e, pair e <$> include_sites_for db (edge_id e).

Definition merged_candidates (graph : IncludeGraph) (src_id : Z) (src_path : bytes)
    (edges : list IncludeEdge) : gmap bytes IncludeCandidate :=
  snd (foldl (visit_site graph (build_source_context src_id) src_path) (∅, ∅) (occurrences edges)).

Definition kept (opts : AnalysisOptions) (c : IncludeCandidate) : bool :=
  (if bool_decide (cls c = Duplicate) then want_duplicates opts else want_unused opts)
  || bool_decide (cls c = Used).

(** The body of the loop over [by_src]. *)
Definition file_candidates (opts : AnalysisOptions) (graph : IncludeGraph) (src_id : Z)
    (src_path : bytes) (edges : list IncludeEdge) : list IncludeCandidate :=
  let merged := merged_candidates graph src_id src_path edges in
  filter (λ c, kept opts c = true)
    (finalize_merged <$> omap (λ id, merged !! id) (set_list (dom merged))).

(** [std::tie(src_path, begin_offset, configs)]. *)
Definition candidate_ltb (a b : IncludeCandidate) : bool :=
  then_by (λ a b, bytes_ltb (dir_src_path (c_directive a)) (dir_src_path (c_directive b)))
    (then_by (λ a b, dir_begin_offset (c_directive a) <? dir_begin_offset (c_directive b))
       (λ a b, lex_ltb bytes_ltb (c_configs a) (c_configs b))) a b.

(** The edges of each source file in scope, by file id. *)
Definition group_edge (paths : gmap Z bytes) (scope : list bytes) (by_src : gmap Z (list IncludeEdge))
    (e : IncludeEdge) : gmap Z (list IncludeEdge) :=
  match paths !! src_file_id e with
  | None => by_src
  | Some p =>
      if negb (bool_decide (scope = [])) && negb (bool_decide (p ∈ scope)) then by_src
      else <[src_file_id e := default [] (by_src !! src_file_id e) ++ [e]]> by_src
  end.

Definition covered_by_index (path : bytes) : bool :=
  match get_file path with
  | Some f => include_tier_covers_file db f
  | None => false
  end.

Definition analyze (opts : AnalysisOptions) : result AnalysisResult :=
  if negb (include_graph_populated db) then Ok (AnalysisResult_ [] true [])
  else
    let graph := include_graph list_files db in
    let! scope := mapR (abspath h) (scope_paths opts) in
    let uncovered := sort_unique bytes_ltb (filter (λ p, covered_by_index p = false) scope) in
    let paths := foldl (λ m row, emplace m row.1 row.2) ∅ list_files in
    let by_src := foldl (group_edge paths scope) ∅ (all_include_edges db true) in
    let found := sort Z.ltb (elements (dom by_src)) ≫= λ src_id,
      file_candidates opts graph src_id (default [] (paths !! src_id)) (default [] (by_src !! src_id)) in
    Ok (AnalysisResult_ (sort candidate_ltb found) false uncovered).
End analyze.
End analysis.

(** ** Soundness of the removable verdicts *)

Section soundness.
Context `{!SymbolStore}.
Context (sha1 : bytes → bytes) (d : disk) (h : host).
Context (list_files : list (Z * bytes)) (get_file : bytes → option Z) (db : IncludeDb).

(** Nothing speaks against the directive in this occurrence: a reason to keep
    it would be a caveat, a reference or an unguarded repetition. *)
Record clean_unused (src_id : Z) (e : IncludeEdge) (s : IncludeSite) : Prop := {
  clean_resolved : site_resolved s = true;
  clean_kind : site_directive s ∉ [kIncludeDirectiveIncludeNext; kIncludeDirectiveImport;
                                   kIncludeDirectiveIncludeMacros];
  clean_unconditional : cond_fingerprint s = [];
  clean_user_header : row_is_system e = false;
  clean_no_macros : include_macro_uses db (src_file_id e) (row_dst_path e) = [];
  clean_once : site_guarded s = true ∨ row_count e <= 1;
  clean_unreferenced : ∃ f, row_dst_file_id e = Some f ∧
    ∀ id, id ∈ symbol_ids_for_file f →
      id ∉ symbol_ids_for_file src_id ∧
      id ∉ edge_targets_from (symbol_ids_for_file src_id) ∧
      id ∉ def_edge_targets_for_file src_id ∧
      id ∉ symbols_named_by_types (type_ids_used_by (symbol_ids_for_file src_id))
}.

Lemma caveat_nil b t : caveat b t = [] → b = false.
Proof. by destruct b. Qed.

Lemma classify_cls_unused graph src_id e s rep at_ cfgs :
  cls (classify db graph (build_source_context src_id) e s rep at_ cfgs) = UnusedByReference →
  clean_unused src_id e s.
Proof.
  unfold classify. destruct (negb (site_guarded s) && (1 <? row_count e)) eqn:Ex; [done|].
  destruct rep; [done|]. case_bool_decide as Hhit; cbn [negb]; [|done].
  case_bool_decide as Hcav; [|done]. intros _.
  apply app_nil in Hcav as [Hcav Hown%caveat_nil]. unfold directive_caveats in Hcav.
  apply app_nil in Hcav as [Hres%caveat_nil Hcav]. apply app_nil in Hcav as [Hkind Hcav].
  apply app_nil in Hcav as [Hcond%caveat_nil Hcav]. apply app_nil in Hcav as [Hsys%caveat_nil Hcav].
  apply app_nil in Hcav as [Hdst%caveat_nil Hmac%caveat_nil].
  apply negb_false_iff in Hres. apply negb_false_iff, bool_decide_eq_true in Hcond.
  apply bool_decide_eq_false in Hdst. apply negb_false_iff, bool_decide_eq_true in Hmac.
  destruct (row_dst_file_id e) as [f|] eqn:Ef; [|done]. split; [done| |done|done| |..].
  - rewrite !elem_of_cons, elem_of_nil.
    destruct (Z.eqb_spec (site_directive s) kIncludeDirectiveIncludeNext); [done|].
    destruct (Z.eqb_spec (site_directive s) kIncludeDirectiveImport); [done|].
    destruct (Z.eqb_spec (site_directive s) kIncludeDirectiveIncludeMacros); [done|]. tauto.
  - apply (fmap_nil_inv mu_name). apply Permutation_nil_r. rewrite <- Hmac. symmetry. apply merge_sort_Permutation.
  - destruct (site_guarded s); [by left|]. right. cbn in Ex. by apply Z.ltb_ge in Ex.
  - exists f. split; [done|]. intros id Hid.
    assert (id ∉ symbol_ids_for_file src_id) as Ho.
    { intros Hin. rewrite <- not_true_iff_false, existsb_exists in Hown. apply Hown. exists id.
      split; [by apply list_elem_of_In|]. by apply bool_decide_eq_true. }
    assert (id ∉ refs (build_source_context src_id)) as Hr.
    { intros Hin. assert (id ∈ filter (λ id, id ∈ refs (build_source_context src_id)) (symbol_ids_for_file f)) as Hf
        by by apply list_elem_of_filter.
      rewrite Hhit in Hf. by apply elem_of_nil in Hf. }
    cbn in Hr. rewrite !elem_of_union, !elem_of_list_to_set in Hr. tauto.
Qed.

Lemma classify_cls_duplicate graph ctx e s rep at_ cfgs :
  cls (classify db graph ctx e s rep at_ cfgs) = Duplicate →
  rep = true ∧ (site_guarded s = true ∨ row_count e <= 1).
Proof.
  unfold classify. destruct (negb (site_guarded s) && (1 <? row_count e)) eqn:Ex; [done|].
  destruct rep; [|by repeat case_bool_decide].
  intros _. split; [done|]. destruct (site_guarded s); [by left|]. right. cbn in Ex. by apply Z.ltb_ge in Ex.
Qed.

Lemma classify_directive graph ctx e s rep at_ cfgs :
  c_directive (classify db graph ctx e s rep at_ cfgs) = at_.
Proof. unfold classify. by repeat case_match. Qed.

Abbreviation occurrence := (IncludeEdge * IncludeSite)%type.

Definition site_key (o : occurrence) : bytes * Z * bytes :=
  (row_dst_path o.1, config_id o.1, cond_fingerprint o.2).

(** The candidate of an occurrence that comes after those of [pre]. *)
Definition verdict (graph : IncludeGraph) (src_id : Z) (path : bytes) (pre : list occurrence)
    (o : occurrence) : IncludeCandidate :=
  classify db graph (build_source_context src_id) o.1 o.2 (bool_decide (site_key o ∈ site_key <$> pre))
    (directive_at sha1 d path o.1 o.2)
    (match include_config_by_id db (config_id o.1) with Some cfg => [ic_digest cfg] | None => [] end).

Definition removable (c : Classification) : Prop := c = UnusedByReference ∨ c = Duplicate.

(** The merged candidates after the occurrences [pre]. *)
Record merged_from (graph : IncludeGraph) (src_id : Z) (path : bytes) (pre : list occurrence)
    (st : gset (bytes * Z * bytes) * gmap bytes IncludeCandidate) : Prop := {
  mf_seen : st.1 = list_to_set (site_key <$> pre);
  mf_covers o : o ∈ pre → is_Some (st.2 !! candidate_id sha1 path (site_begin_offset o.2));
  mf_directive id m : st.2 !! id = Some m →
    dir_id (c_directive m) = id ∧ dir_src_path (c_directive m) = path;
  mf_verdict id m : st.2 !! id = Some m → removable (cls m) →
    ∀ pre1 o post, pre = pre1 ++ o :: post → candidate_id sha1 path (site_begin_offset o.2) = id →
      cls (verdict graph src_id path pre1 o) = cls m
}.

Lemma combine_removable a b : removable (combine_class a b) → a = combine_class a b ∧ b = combine_class a b.
Proof. by destruct a, b; cbn; intros [|]. Qed.

Lemma snoc_middle {A} (pre pre1 post : list A) x o :
  pre ++ [x] = pre1 ++ o :: post → (post = [] ∧ pre = pre1 ∧ x = o) ∨ ∃ post', post = post' ++ [x] ∧ pre = pre1 ++ o :: post'.
Proof.
  destruct (snoc_cases post) as [->|(post' & y & ->)].
  - intros [-> [= ->]]%app_inj_2; [by left|done].
  - rewrite app_comm_cons, app_assoc. intros [-> [= ->]]%app_inj_2; [|done]. right. by exists post'.
Qed.

Lemma visit_merges graph src_id path pre o st :
  merged_from graph src_id path pre st →
  merged_from graph src_id path (pre ++ [o])
    (visit_site sha1 d db graph (build_source_context src_id) path st o).
Proof.
  destruct st as [seen merged], o as [e s]. intros [Hseen Hcov Hdir Hver]. cbn in Hseen. subst seen.
  cbn [fst snd] in *. unfold visit_site.
  assert (bool_decide ((row_dst_path e, config_id e, cond_fingerprint s) ∈
            (list_to_set (site_key <$> pre) : gset (bytes * Z * bytes)))
          = bool_decide (site_key (e, s) ∈ site_key <$> pre)) as Hkey
    by (apply bool_decide_ext, elem_of_list_to_set).
  rewrite Hkey. fold (verdict graph src_id path pre (e, s)).
  set (c := verdict graph src_id path pre (e, s)). set (id := candidate_id sha1 path (site_begin_offset s)).
  assert (c_directive c = directive_at sha1 d path e s) as Hc by apply classify_directive.
  change (classify _ _ _ _ _ _ _ _) with c.
  unfold merge_candidate. rewrite Hc. change (dir_id (directive_at sha1 d path e s)) with id.
  set (new := from_option (λ x, merge_two x c) c (merged !! id)).
  assert (match merged !! id with None => <[id := c]> merged | Some x => <[id := merge_two x c]> merged end
          = <[id := new]> merged) as -> by (unfold new; by destruct (merged !! id)).
  assert (c_directive new = directive_at sha1 d path e s ∨ ∃ x, merged !! id = Some x ∧ c_directive new = c_directive x)
    as Hnew by (unfold new; destruct (merged !! id); eauto).
  assert (∀ x, merged !! id = Some x → removable (cls new) → cls x = cls new ∧ cls c = cls new) as Hboth.
  { intros x Hx. unfold new. rewrite Hx. cbn. intros [? ?]%combine_removable. done. }
  split; cbn [fst snd].
  - rewrite fmap_app, list_to_set_app_L. set_solver.
  - intros o [Ho| ->%list_elem_of_singleton]%elem_of_app.
    + apply lookup_insert_is_Some'. right. by apply Hcov.
    + apply lookup_insert_is_Some'. by left.
  - intros id' m' [[<- <-]|[_ Hm]]%lookup_insert_Some; [|by apply Hdir].
    destruct Hnew as [-> | (x & Hx & ->)]; [done|by apply Hdir].
  - intros id' m' Hl Hrem pre1 o post [(-> & <- & <-)|(post' & -> & Hpre)]%snoc_middle Hid.
    + apply lookup_insert_Some in Hl as [[_ <-]|[Hne _]]; [|done].
      unfold new in *. destruct (merged !! id) as [x|] eqn:Hx; [|done]. by apply (Hboth x).
    + apply lookup_insert_Some in Hl as [[<- <-]|[_ Hm]]; [|by eapply Hver].
      destruct (Hcov o) as [x Hx]; [rewrite Hpre; set_solver|]. rewrite Hid in Hx.
      destruct (Hboth x Hx Hrem) as [<- _]. eapply Hver; [done| |done|done].
      destruct (Hboth x Hx Hrem) as [-> _]. done.
Qed.

Lemma merged_from_all graph src_id path pre :
  merged_from graph src_id path pre
    (foldl (visit_site sha1 d db graph (build_source_context src_id) path) (∅, ∅) pre).
Proof.
  induction pre as [|o pre IH] using rev_ind.
  - split; cbn; [done|by intros o ?%elem_of_nil|by intros id m ?%lookup_empty_Some..].
  - rewrite foldl_app. by apply visit_merges.
Qed.

(** The edges of a source file in scope. *)
Lemma grouped_edges paths scope rows src_id : ∀ by_src,
  default [] (foldl (group_edge paths scope) by_src rows !! src_id) =
  default [] (by_src !! src_id) ++
  filter (λ e, src_file_id e = src_id ∧
               (is_Some (paths !! src_id) ∧ (scope = [] ∨ default [] (paths !! src_id) ∈ scope))) rows.
Proof.
  induction rows as [|x rows IH]; intros by_src; cbn [foldl]; [by rewrite filter_nil, app_nil_r|].
  rewrite IH. unfold group_edge. destruct (decide (src_file_id x = src_id)) as [Hx|Hne].
  - subst src_id. destruct (paths !! src_file_id x) as [p|] eqn:Hp.
    + destruct (negb (bool_decide (scope = [])) && negb (bool_decide (p ∈ scope))) eqn:Hs.
      * apply andb_prop in Hs as [Hs1%negb_true_iff%bool_decide_eq_false Hs2%negb_true_iff%bool_decide_eq_false].
        rewrite filter_cons_False; [done|]. cbn. intros [_ [_ [?|?]]]; done.
      * apply andb_false_iff in Hs. rewrite !negb_false_iff, !bool_decide_eq_true in Hs.
        rewrite lookup_insert_eq, filter_cons_True by (cbn; eauto). cbn. by rewrite <- app_assoc.
    + rewrite filter_cons_False; [done|]. intros [_ [[? ?] _]]. done.
  - rewrite filter_cons_False by (by intros [? _]). f_equal.
    destruct (paths !! src_file_id x) as [p|]; [|done]. case_match; [done|].
    by rewrite lookup_insert_ne.
Qed.

(** Where an element of a flattened list stands. *)
Lemma bind_split {A B} (f : A → list B) l pre o post :
  l ≫= f = pre ++ o :: post →
  ∃ l1 x l2 q1 q2, l = l1 ++ x :: l2 ∧ f x = q1 ++ o :: q2 ∧ pre = (l1 ≫= f) ++ q1.
Proof.
  revert pre. induction l as [|a l IH]; intros pre; cbn; [by destruct pre|].
  intros E. apply app_eq_app in E as (k & [[Hf Hr]|[Hp Hr]]).
  - destruct k as [|y k].
    + destruct (IH []) as (l1 & x & l2 & q1 & q2 & -> & Hx & Hq); [exact (eq_sym Hr)|].
      exists (a :: l1), x, l2, q1, q2. split_and!; [done|done|].
      transitivity (f a ++ ((l1 ≫= f) ++ q1)); [by rewrite <- Hq, Hf, !app_nil_r|by rewrite app_assoc].
    + injection Hr as <- Hr. by exists [], a, l, pre, k.
  - destruct (IH k) as (l1 & x & l2 & q1 & q2 & -> & Hx & ->); [done|].
    exists (a :: l1), x, l2, q1, q2. split_and!; [done|done|]. cbn. by rewrite Hp, <- app_assoc.
Qed.

Lemma elem_of_edges order where_ e :
  e ∈ select_edges db where_ order → e ∈ db_edges db.
Proof.
  unfold select_edges, join_config, sort. rewrite (merge_sort_Permutation _), list_elem_of_fmap.
  intros ([x y] & -> & [_ Hin]%list_elem_of_filter). apply list_elem_of_omap in Hin as (z & Hz & Hs).
  by apply fmap_Some in Hs as (c & _ & [= -> ->]).
Qed.

Lemma selected_keys order where_ :
  NoDup (keys (db_edges db)) → NoDup (row_key <$> select_edges db where_ order).
Proof.
  intros Hk. unfold select_edges, sort. rewrite (merge_sort_Permutation _).
  eapply sublist_NoDup; [exact Hk|]. unfold keys, join_config. generalize (db_edges db). clear.
  induction l as [|e l IH]; cbn; [constructor|].
  destruct (by_id _ _) as [c|]; cbn; [|by apply sublist_cons].
  case_match; [by apply sublist_skip|by apply sublist_cons].
Qed.

Lemma sites_sorted edge :
  StronglySorted (λ a b, site_begin_offset a <= site_begin_offset b) (include_sites_for db edge).
Proof.
  set (ltb := λ a b, site_begin_offset a <? site_begin_offset b).
  assert (Transitive (ltb_le ltb)).
  { intros a b c. unfold ltb_le, ltb. rewrite !Z.ltb_ge. lia. }
  assert (Total (ltb_le ltb)).
  { intros a b. unfold ltb_le, ltb. rewrite !Z.ltb_ge. lia. }
  eapply StronglySorted_impl_elem; [|apply (StronglySorted_merge_sort (ltb_le ltb))].
  intros a b _ _. unfold ltb_le, ltb. by rewrite Z.ltb_ge.
Qed.

Lemma elem_of_sites edge s : s ∈ include_sites_for db edge ↔ s ∈ db_sites db ∧ site_edge_id s = edge.
Proof. unfold include_sites_for, sort. rewrite (merge_sort_Permutation _), list_elem_of_filter. tauto. Qed.

(** The site [s] repeats an earlier directive of the file for the same header,
    configuration and conditional region. *)
Definition repeats (e : IncludeEdge) (s : IncludeSite) : Prop :=
  ∃ s', s' ∈ include_sites_for db (edge_id e) ∧ cond_fingerprint s' = cond_fingerprint s ∧
    site_begin_offset s' < site_begin_offset s.

Lemma sites_before edge pre s post s' :
  NoDup (keys (db_sites db)) → include_sites_for db edge = pre ++ s :: post → s' ∈ pre →
  site_begin_offset s' < site_begin_offset s.
Proof.
  intros Hk E Hin. pose proof (sites_sorted edge) as Hs. rewrite E in Hs.
  apply StronglySorted_app in Hs as (Hle & _ & _).
  assert (site_begin_offset s' <= site_begin_offset s) as Hle' by (apply Hle; [done|by left]).
  assert (site_begin_offset s' ≠ site_begin_offset s) as Hne; [|lia]. intros Heq.
  assert (NoDup (include_sites_for db edge)) as Hnd.
  { unfold include_sites_for, sort. rewrite (merge_sort_Permutation _). apply NoDup_filter.
    by apply (NoDup_fmap_1 row_key). }
  assert (s' = s) as ->.
  { assert (s ∈ include_sites_for db edge ∧ s' ∈ include_sites_for db edge) as [H1 H2]
      by (rewrite E; set_solver).
    apply elem_of_sites in H1 as [H1 He1]. apply elem_of_sites in H2 as [H2 He2].
    apply (NoDup_fmap_inj row_key (db_sites db)); [done..|]. cbn. congruence. }
  rewrite E in Hnd. apply NoDup_app in Hnd as (_ & Hd & _). apply (Hd _ Hin). by left.
Qed.

(** A repetition in the order of the scan is one in the file. *)
Lemma scan_repeats edges pre e s post :
  NoDup (keys (db_sites db)) → NoDup (row_key <$> edges) →
  (∀ x, x ∈ edges → src_file_id x = src_file_id e) → occurrences db edges = pre ++ (e, s) :: post →
  site_key (e, s) ∈ site_key <$> pre → repeats e s.
Proof.
  intros Hks Hke Hsrc E. apply bind_split in E as (l1 & x & l2 & q1 & q2 & Hl & Hx & ->).
  assert (∃ s1 s2, include_sites_for db (edge_id x) = s1 ++ s :: s2 ∧ q1 = pair x <$> s1 ∧ x = e)
    as (s1 & s2 & Hs & -> & ->).
  { apply fmap_app_inv in Hx as (s1 & s2 & -> & Hx & Hs). symmetry in Hx.
    apply fmap_cons_inv in Hx as (y & s3 & [= -> ->] & _ & ->). by exists s1, s3. }
  intros ([e' s'] & Heq & Hin)%list_elem_of_fmap. injection Heq as Hdst Hcfg Hcond.
  assert (e' ∈ edges ∧ (e' ∈ l1 ∨ e' = e ∧ s' ∈ s1)) as [He' Hwhere].
  { apply elem_of_app in Hin as [Hin|Hin].
    - apply list_elem_of_bind in Hin as (y & Hy & Hyl). apply list_elem_of_fmap in Hy as (z & [= -> _] & _).
      rewrite Hl. set_solver.
    - apply list_elem_of_fmap in Hin as (z & [= -> ->] & Hz). rewrite Hl. set_solver. }
  assert (e' = e) as ->.
  { apply (NoDup_fmap_inj row_key edges); [done|done|rewrite Hl; set_solver|]. cbn.
    rewrite (Hsrc e' He'). congruence. }
  destruct Hwhere as [Hl1|[_ Hs']].
  - rewrite Hl, fmap_app, fmap_cons in Hke. apply NoDup_app in Hke as (_ & Hd & _).
    destruct (Hd (row_key e)); [by apply list_elem_of_fmap_2|by left].
  - exists s'. split_and!; [rewrite Hs; set_solver|done|]. by eapply sites_before.
Qed.

(** The edges of a source file. *)
Definition edges_of (src_id : Z) : list IncludeEdge :=
  filter (λ e, src_file_id e = src_id) (all_include_edges db true).

(** A reported candidate and the file whose scan gave it. *)
Lemma analyzed_candidate opts res c :
  analyze sha1 d h list_files get_file db opts = Ok res → c ∈ candidates res →
  ∃ src_id path m, file_path list_files src_id = Some path ∧
    merged_candidates sha1 d db (include_graph list_files db) src_id path (edges_of src_id)
      !! dir_id (c_directive c) = Some m ∧ c = finalize_merged m.
Proof.
  unfold analyze. destruct (include_graph_populated db); cbn [negb]; [|intros [= <-]; by intros ?%elem_of_nil].
  destruct (mapR (abspath h) (scope_paths opts)) as [scope|]; [|done]. cbn [rbind]. intros [= <-].
  cbn [candidates]. unfold sort at 1. rewrite (merge_sort_Permutation _).
  intros (src_id & Hc & _)%list_elem_of_bind.
  unfold file_candidates in Hc. apply list_elem_of_filter in Hc as [_ Hc].
  apply list_elem_of_fmap in Hc as (m & -> & Hm). apply list_elem_of_omap in Hm as (id & _ & Hm).
  pose proof (paths_spec list_files ∅ src_id) as Hpaths. rewrite lookup_empty in Hpaths.
  set (paths := foldl (λ m row, emplace m row.1 row.2) ∅ list_files) in *.
  rewrite (grouped_edges paths scope _ src_id ∅), lookup_empty in Hm. cbn [default from_option app] in Hm.
  set (edges := filter _ _) in Hm.
  assert (∃ path, paths !! src_id = Some path ∧ edges = edges_of src_id) as (path & Hp & He).
  { destruct (decide (is_Some (paths !! src_id) ∧ (scope = [] ∨ default [] (paths !! src_id) ∈ scope)))
      as [[[path Hp] Hs]|Hn].
    - exists path. split; [done|]. apply list_filter_iff. intros e. rewrite Hp in *. naive_solver.
    - assert (edges = []) as Hnil.
      { apply elem_of_nil_inv. intros e. unfold edges. rewrite list_elem_of_filter. naive_solver. }
      rewrite Hnil in Hm. unfold merged_candidates in Hm. cbn in Hm. by apply lookup_empty_Some in Hm. }
  rewrite Hp, He in Hm. cbn [default from_option] in Hm. exists src_id, path, m. split; [by rewrite <- Hp|].
  pose proof (merged_from_all (include_graph list_files db) src_id path (occurrences db (edges_of src_id)))
    as [_ _ Hdir _].
  destruct (Hdir _ _ Hm) as [Hid _]. cbn. by rewrite Hid.
Qed.

(** Two directives of an edge are two of its count. *)
Lemma repeats_counted e s :
  counted db → e ∈ db_edges db → s ∈ include_sites_for db (edge_id e) → repeats e s → 1 < row_count e.
Proof.
  intros Hc He [Hs Hse]%elem_of_sites (s' & [Hs' Hse']%elem_of_sites & _ & Hlt).
  specialize (Hc e He). unfold covers in Hc.
  enough (2 <= length (sites_of db (edge_id e)))%nat by lia.
  assert (s ∈ sites_of db (edge_id e) ∧ s' ∈ sites_of db (edge_id e)) as [H1 H2]
    by (split; by apply list_elem_of_filter).
  destruct (sites_of db (edge_id e)) as [|x [|y l]]; [by apply elem_of_nil in H1| |cbn; lia].
  apply list_elem_of_singleton in H1, H2. subst. lia.
Qed.

(** C4: A directive reported as removable is removable in every configuration it
    was indexed in.  On a store that is well-formed and whose edges count their
    directives, as those the program writes are, each occurrence of a directive
    reported as unused is resolved, unconditional, not a macro provider, of a
    header that is guarded or included once, and no symbol its header declares is
    owned by the file or referenced from it by an edge, a body or a type; each
    occurrence of one reported as a duplicate repeats an earlier directive of the
    file for the same header, configuration and conditional region, and the header
    is guarded. *)
Theorem removable_sound opts res c :
  store_wf db → counted db → analyze sha1 d h list_files get_file db opts = Ok res → c ∈ candidates res →
  let path := dir_src_path (c_directive c) in
  ∃ src_id, file_path list_files src_id = Some path ∧
    ∀ e s, e ∈ all_include_edges db true → src_file_id e = src_id → s ∈ include_sites_for db (edge_id e) →
      candidate_id sha1 path (site_begin_offset s) = dir_id (c_directive c) →
      (cls c = UnusedByReference → clean_unused src_id e s) ∧
      (cls c = Duplicate → repeats e s ∧ site_guarded s = true).
Proof.
  intros Hwf Hcount Hres Hc path. destruct (analyzed_candidate _ _ _ Hres Hc) as (src_id & p & m & Hfile & Hm & ->).
  pose proof (merged_from_all (include_graph list_files db) src_id p (occurrences db (edges_of src_id)))
    as [_ _ Hdir Hver].
  destruct (Hdir _ _ Hm) as [Hid Hpath]. subst path. cbn in *. rewrite Hpath. exists src_id. split; [done|].
  intros e s He Hsrc Hs Hcand.
  assert ((e, s) ∈ occurrences db (edges_of src_id)) as (pre & post & Hocc)%list_elem_of_split.
  { unfold occurrences. apply list_elem_of_bind. exists e. split; [by apply list_elem_of_fmap_2|].
    by apply list_elem_of_filter. }
  split; intros Hcls.
  - pose proof (Hver _ _ Hm (or_introl Hcls) _ _ _ Hocc Hcand) as Hv. rewrite Hcls in Hv.
    unfold verdict in Hv. by apply classify_cls_unused in Hv.
  - pose proof (Hver _ _ Hm (or_intror Hcls) _ _ _ Hocc Hcand) as Hv. rewrite Hcls in Hv.
    unfold verdict in Hv. apply classify_cls_duplicate in Hv as [Hrep%bool_decide_eq_true Hg].
    assert (repeats e s) as Hr.
    { eapply scan_repeats; [apply Hwf| | |exact Hocc|done].
      + eapply sublist_NoDup; [|apply fmap_sublist, sublist_filter]. apply selected_keys, Hwf.
      + intros x Hx. apply list_elem_of_filter in Hx as [-> _]. by symmetry. }
    split; [done|]. destruct Hg as [?|Hg]; [done|].
    cbn in Hg. assert (1 < row_count e); [|lia]. eapply repeats_counted; [done| |done|done]. by eapply elem_of_edges.
Qed.
End soundness.

(** ** Witness *)

(** [/b.cpp] includes [h.h] twice, and uses nothing of it. *)
Definition repeated_writes : result IncludeDb :=
  let! r0 := add_include_edge (IncludeEdgeRow 0 2 (Some 3) (bs "h.h") 2 false false 1) sample_db in
  let! r1 := add_include_site (Site 0 2 1 1 0 15 (bs "h.h") false 1 [] true true) r0.2 in
  let! r2 := add_include_site (Site 0 2 2 1 15 30 (bs "h.h") false 1 [] true true) r1.2 in
  Ok r2.2.

Definition repeated_db : IncludeDb := match repeated_writes with Ok db => db | Err _ => empty_db end.

Lemma repeated_wf : store_wf repeated_db.
Proof.
  assert (repeated_writes = Ok repeated_db) as E by (vm_compute; reflexivity). revert E. generalize repeated_db.
  intros db E. apply rbind_Ok in E as ([i0 db0] & E0 & E). apply rbind_Ok in E as ([i1 db1] & E1 & E).
  apply rbind_Ok in E as ([i2 db2] & E2 & [= <-]).
  eapply add_include_site_wf; [exact E2|]. eapply add_include_site_wf; [exact E1|].
  eapply add_include_edge_wf; [exact E0|]. exact sample_wf.
Qed.

Lemma repeated_counted : counted repeated_db.
Proof.
  assert (Forall (covers repeated_db) (db_edges repeated_db)) as H
    by (vm_compute; repeat (apply Forall_cons; split; [discriminate|]); constructor).
  intros e He. by apply (proj1 (Forall_forall _ _) H).
Qed.

Lemma sample_path i : file_path sample_list i = Some (bs "/b.cpp") → i = 2.
Proof.
  unfold sample_list. cbn [file_path]. repeat case_decide; [|done|..]; intros E; exfalso; revert E; discriminate.
Qed.

Definition sample_symbols : SymbolStore := {|
  symbol_ids_for_file f := [f * 10];
  lookup_symbol_by_id _ := Some (Symbol_ None (bs "s"));
  edge_targets_from _ := [7];
  def_edge_targets_for_file _ := [];
  type_ids_used_by _ := [];
  symbols_named_by_types _ := [];
  graph_edges_out _ := [];
  edge_kinds := []
|}.

Definition sample_disk : disk :=
  <[bs "/b.cpp" := bs "#include <h.h>" ++ ["010"%char] ++ bs "#include <h.h>" ++ ["010"%char] ++ bs "int main() {}"]> ∅.

Definition sample_analysis : result AnalysisResult :=
  @analyze sample_symbols (@reverse ascii) sample_disk sample_host sample_list sample_get repeated_db
    (AnalysisOptions_ [] true true).

Lemma removable_sound_witness : ∃ res c1 c2,
  sample_analysis = Ok res ∧ c1 ∈ candidates res ∧ c2 ∈ candidates res ∧
  cls c1 = UnusedByReference ∧ cls c2 = Duplicate ∧
  (∃ src_id, file_path sample_list src_id = Some (bs "/b.cpp")) ∧
  ∃ e s, e ∈ all_include_edges repeated_db true ∧ s ∈ include_sites_for repeated_db (edge_id e) ∧
    @repeats repeated_db e s ∧ site_guarded s = true.
Proof.
  destruct sample_analysis as [res|] eqn:E; [|vm_compute in E; done].
  assert (∃ x y z, candidates res = [x; y; z] ∧ cls y = UnusedByReference ∧ cls z = Duplicate ∧
    dir_src_path (c_directive y) = bs "/b.cpp" ∧ dir_src_path (c_directive z) = bs "/b.cpp" ∧
    dir_id (c_directive z) = candidate_id (@reverse ascii) (bs "/b.cpp") 15)
    as (x & y & z & Hl & Hy & Hz & Hpy & Hpz & Hid).
  { vm_compute in E. injection E as <-. cbn [candidates]. do 3 eexists. split_and!; [reflexivity..]. }
  exists res, y, z. rewrite Hl. split_and!; [done|by right; left|by right; right; left|done|done|..].
  - assert (y ∈ candidates res) as Hin by (rewrite Hl; by right; left).
    destruct (@removable_sound sample_symbols (@reverse ascii) sample_disk sample_host sample_list sample_get
                repeated_db _ _ y repeated_wf repeated_counted E Hin) as (src_id & Hsrc & _).
    exists src_id. by rewrite <- Hpy.
  - assert (z ∈ candidates res) as Hin by (rewrite Hl; by right; right; left).
    destruct (@removable_sound sample_symbols (@reverse ascii) sample_disk sample_host sample_list sample_get
                repeated_db _ _ z repeated_wf repeated_counted E Hin) as (src_id & Hsrc & Hall).
    rewrite Hpz in Hsrc, Hall. assert (src_id = 2) as -> by (by apply sample_path).
    assert (∃ e s, e ∈ all_include_edges repeated_db true ∧ src_file_id e = 2 ∧
      s ∈ include_sites_for repeated_db (edge_id e) ∧ site_begin_offset s = 15) as (e & s & He & Hsrc2 & Hs & Hb).
    { exists (IncludeEdgeRow 2 2 (Some 3) (bs "h.h") 2 false false 2),
        (Site 3 2 2 1 15 30 (bs "h.h") false 1 [] true true).
      split_and!; [apply list_elem_of_In; vm_compute; auto 6|reflexivity
                  |apply list_elem_of_In; vm_compute; auto 6|reflexivity]. }
    exists e, s. destruct (Hall e s He Hsrc2 Hs) as [_ Hdup]; [by rewrite Hb, Hid|].
    destruct (Hdup Hz) as [Hr Hg]. by split_and!.
Defined.
