(* ===== verification/Planner.v ===== *)
(** * Building a cleanup plan: [src/src/include_hygiene/planner.cpp]

    Candidates are validated one after the other in a world where the accepted
    ones before are gone, then the accepted set is proved together. *)

From S2P Require Export Analysis.

Open Scope Z_scope.

#[export] Instance PlanState_eq_dec : EqDecision PlanState.
Proof. solve_decision. Defined.

(** ** Paths *)

(** The components between slashes, without the empty ones; [cur] as in the
    code. *)
Fixpoint components_loop (cur : bytes) (path : bytes) : list bytes :=
  match path with
  | [] => if decide (cur = []) then [] else [cur]
  | c :: path =>
      if decide (c = slash) then
        if decide (cur = []) then components_loop cur path else cur :: components_loop [] path
      else components_loop (cur ++ [c]) path
  end.

Definition dir_components (path : bytes) : list bytes := components_loop [] path.

(** [while (i < root.size() && i < dir.size() && root[i] == dir[i])]. *)
Fixpoint shared (root dir : list bytes) : list bytes :=
  match root, dir with
  | r :: root, x :: dir => if decide (r = x) then r :: shared root dir else []
  | _, _ => []
  end.

(** The loop over the paths; [None] is the return of ["/"]. *)
Fixpoint root_loop (root : list bytes) (paths : list bytes) : option (list bytes) :=
  match paths with
  | [] => Some root
  | p :: paths =>
      match shared root (dir_components (dirname p)) with
      | [] => None
      | root => root_loop root paths
      end
  end.

Definition rooted (components : list bytes) : bytes := components ≫= cons slash.

Definition common_root (paths : list bytes) : bytes :=
  match paths with
  | [] => [slash]
  | p :: _ =>
      match root_loop (dir_components (dirname p)) paths with
      | None => [slash]
      | Some root => rooted root
      end
  end.

Definition relative_to (root abs : bytes) : bytes :=
  if negb (bool_decide (root = [slash])) && starts_with (root ++ [slash]) abs
  then drop (length root + 1) abs
  else if bool_decide (root = [slash]) && starts_with [slash] abs
  then drop 1 abs
  else abs.

Definition searched_kinds : list bytes :=
  [bs "calls"; bs "inherits"; bs "contains"; bs "specializes"; bs "instantiates"; bs "overrides";
   bs "uses"; bs "field_of"; bs "method_of"; bs "construct-value"; bs "construct-temp";
   bs "construct-heap"; bs "construct-copy"; bs "construct-move"; bs "factory-construct";
   bs "destroy"; bs "friend"; bs "dispatch_calls"; bs "alias_of"; bs "returns"; bs "of_type";
   bs "underlying_type"; bs "parameter_type"; bs "template_argument_type"].

Definition plan_limitations : list bytes :=
  [bs "Compile success is not proof of behavioral equivalence: a header removed for a static registration, a configuration-changing macro, or a pragma can still compile and change the program.";
   bs "Only configurations recorded in the index were validated. A build configuration cidx has never indexed is not covered.";
   bs "A zero-reference result is only as complete as the indexed files and the semantic edge kinds listed in reference_kinds_searched.";
   bs "Items marked manual_review are real findings with no automatic proof; they are never applied."].

Definition kSchemaVersion : Z := 41.

(** ** Building *)

Section planner.
Context (sha1 : bytes → bytes) (compile : disk → gmap bytes bytes → TuTarget → Z * bytes).
Context (list_files : list (Z * bytes)) (get_file : bytes → option Z) (db : IncludeDb) (d : disk).
Context (iso_now : bytes).

Definition targets_of (path : bytes) : result (option (list TuTarget)) :=
  affected_tus list_files get_file db path.

(** The items, the configuration digests and the accepted removals so far. *)
Record building := Building {
  b_items : list PlanItem;
  b_digests : gset bytes;
  b_accepted : list Removal
}.

(** The fields of an item that come from the candidate; the rest is the state,
    the reason, the units and the validations. *)
Definition item_of (root : bytes) (c : IncludeCandidate) (s : PlanState) (reason : bytes)
    (tus : list bytes) (validations : list ValidationRecord) : PlanItem :=
  let at_ := c_directive c in
  Item (dir_id at_) (relative_to root (dir_src_path at_)) (dir_src_path at_) (dir_line at_) (dir_col at_)
    (dir_begin_offset at_) (dir_end_offset at_) (dir_text at_) (dir_dst_path at_)
    (classification_name (cls c)) s reason (c_owners c) (c_header_symbols c) (c_intersection_count c)
    searched_kinds (c_macro_uses c) (c_guarded c) (c_reverse_dependants c) tus (c_configs c) validations.

Definition removal_of (c : IncludeCandidate) : Removal :=
  let at_ := c_directive c in Removal_ (dir_src_path at_) (dir_begin_offset at_) (dir_end_offset at_).

(** Why the first failed record refuses the removal. *)
Definition breaks (validations : list ValidationRecord) : bytes :=
  from_option (λ v, bs "removal breaks " ++ tu_path v ++ bs ": " ++ diagnostic v) []
    (head (filter (λ v, ok v = false) validations)).

(** The item of a candidate that is not [Used], and the accepted removals after
    it. *)
Definition judge (root : bytes) (accepted : list Removal) (c : IncludeCandidate) :
    result (PlanItem * list Removal) :=
  if bool_decide (cls c = ManualReview) then
    Ok (item_of root c CleanupPlan.ManualReview
          (default (bs "no automatic proof is available") (head (caveats c))) [] [], accepted)
  else
    let! targets := targets_of (dir_src_path (c_directive c)) in
    match targets with
    | None =>
        Ok (item_of root c CleanupPlan.ManualReview
              (bs "no recorded compile command reaches this file, so removal cannot be validated") [] [],
            accepted)
    | Some targets =>
        let tus := sort_unique bytes_ltb (tgt_path <$> targets) in
        let trial := accepted ++ [removal_of c] in
        let validations := validate compile d targets (overlay_for d trial) (bs "candidate") in
        if all_ok validations then Ok (item_of root c Accepted [] tus validations, trial)
        else Ok (item_of root c Rejected (breaks validations) tus validations, accepted)
    end.

(** The body of the loop over the candidates. *)
Definition plan_candidate (root : bytes) (b : building) (c : IncludeCandidate) : result building :=
  if bool_decide (cls c = Used) then Ok b
  else
    let! r := judge root (b_accepted b) c in
    Ok (Building (b_items b ++ [r.1]) (b_digests b ∪ list_to_set (c_configs c)) r.2).

(** [seen.insert({tu_path, config_digest}).second]. *)
Fixpoint add_unseen (seen : gset (bytes * bytes)) (targets : list TuTarget) :
    gset (bytes * bytes) * list TuTarget :=
  match targets with
  | [] => (seen, [])
  | x :: targets =>
      let key := (tgt_path x, config_digest x) in
      if decide (key ∈ seen) then add_unseen seen targets
      else let '(seen, rest) := add_unseen ({[key]} ∪ seen) targets in (seen, x :: rest)
  end.

(** The loop over the accepted removals. *)
Fixpoint combined_targets (seen : gset (bytes * bytes)) (accepted : list Removal) :
    result (list TuTarget) :=
  match accepted with
  | [] => Ok []
  | r :: accepted =>
      let! targets := targets_of (rm_path r) in
      let '(seen, fresh) := add_unseen seen (default [] targets) in
      let! rest := combined_targets seen accepted in
      Ok (fresh ++ rest)
  end.

Definition with_outcome (it : PlanItem) (s : PlanState) (why : bytes) : PlanItem :=
  Item (id it) (file it) (abs_path it) (line it) (col it) (begin_offset it) (end_offset it)
    (directive_text it) (resolved_target it) (classification it) s why (owners it)
    (header_symbols it) (intersection_count it) (reference_kinds_searched it) (macro_uses it)
    (guarded it) (reverse_dependants it) (CleanupPlan.affected_tus it) (CleanupPlan.configs it) (validations it).

Definition demote (it : PlanItem) : PlanItem :=
  match state it with
  | Accepted => with_outcome it Rejected (bs "the combined removal set does not compile together")
  | _ => it
  end.

(** The combined proof: the records and the items. *)
Definition prove_together (items : list PlanItem) (accepted : list Removal) :
    result (list ValidationRecord * list PlanItem) :=
  match accepted with
  | [] => Ok ([], items)
  | _ =>
      let! all := combined_targets ∅ accepted in
      let records := validate compile d all (overlay_for d accepted) (bs "combined") in
      Ok (records, if all_ok records then items else demote <$> items)
  end.

(** [std::tie(file, begin_offset, configs)]. *)
Definition item_ltb : PlanItem → PlanItem → bool :=
  then_by (λ a b, bytes_ltb (file a) (file b))
    (then_by (λ a b, begin_offset a <? begin_offset b)
       (λ a b, lex_ltb bytes_ltb (CleanupPlan.configs a) (CleanupPlan.configs b))).

(** The hash of every readable file, by relative path. *)
Definition file_hashes_of (root : bytes) (files : list bytes) : gmap bytes bytes :=
  foldl (λ m f, match hash_file sha1 (λ p, d !! p) f with
                | Some hash => <[relative_to root f := hash]> m
                | None => m
                end) ∅ files.

Definition build_plan (res : AnalysisResult) (db_path : bytes) : result CleanupPlan :=
  let files := sort_unique bytes_ltb ((λ c, dir_src_path (c_directive c)) <$> candidates res) in
  let root := common_root files in
  let! b := foldR (plan_candidate root) (Building [] ∅ []) (candidates res) in
  let! r := prove_together (b_items b) (b_accepted b) in
  Ok (Plan kPlanFormatVersion root db_path kSchemaVersion iso_now (set_list (b_digests b))
        (file_hashes_of root files) (sort item_ltb r.2) r.1 plan_limitations).

(** ** What an accepted item has behind it *)

Definition item_removal (it : PlanItem) : Removal :=
  Removal_ (abs_path it) (begin_offset it) (end_offset it).

Definition accepted_items (l : list PlanItem) : list PlanItem := filter (λ it, state it = Accepted) l.

(** The item was compiled without the removals of [before] and its own. *)
Record validated (res : AnalysisResult) (before : list PlanItem) (it : PlanItem) : Prop := {
  val_candidate : ∃ c, c ∈ candidates res ∧ removable (cls c) ∧ item_removal it = removal_of c ∧
    id it = dir_id (c_directive c) ∧ directive_text it = dir_text (c_directive c) ∧
    CleanupPlan.configs it = c_configs c;
  val_compiled : ∃ ts, targets_of (abs_path it) = Ok (Some ts) ∧
    validations it = validate compile d ts (overlay_for d (item_removal <$> before ++ [it])) (bs "candidate") ∧
    all_ok (validations it) = true
}.

Record building_ok (res : AnalysisResult) (b : building) : Prop := {
  bo_accepted : b_accepted b = item_removal <$> accepted_items (b_items b);
  bo_validated l1 it l2 : accepted_items (b_items b) = l1 ++ it :: l2 → validated res l1 it
}.

Lemma accepted_snoc l it :
  accepted_items (l ++ [it]) = accepted_items l ++ (if decide (state it = Accepted) then [it] else []).
Proof. unfold accepted_items. by rewrite filter_app. Qed.

Lemma building_skip res b it ds :
  building_ok res b → state it ≠ Accepted → building_ok res (Building (b_items b ++ [it]) ds (b_accepted b)).
Proof.
  intros [Ha Hv] Hs. split; cbn [b_items b_accepted]; rewrite accepted_snoc, decide_False, app_nil_r by done; done.
Qed.

Lemma plan_candidate_ok root res b c b' :
  c ∈ candidates res → building_ok res b → plan_candidate root b c = Ok b' → building_ok res b'.
Proof.
  intros Hc Hb. unfold plan_candidate. case_bool_decide as Hused; [by intros [= <-]|].
  unfold judge. case_bool_decide as Hman; [intros [= <-]; by apply building_skip|].
  destruct (targets_of _) as [[ts|]|] eqn:Ets; [|intros [= <-]; by apply building_skip|done].
  cbn [rbind]. destruct (all_ok _) eqn:Eok; intros [= <-]; [|by apply building_skip].
  destruct Hb as [Ha Hv]. cbn [fst snd]. set (it := item_of _ _ _ _ _ _).
  assert (item_removal it = removal_of c) as Hrm by done.
  split; cbn [b_items b_accepted]; rewrite accepted_snoc, decide_True by done.
  - by rewrite fmap_app, Ha, <- Hrm.
  - intros l1 x l2 [(-> & <- & <-)|(l3 & -> & El)]%snoc_middle; [|by eapply Hv].
    split; [|].
    + exists c. split_and!; [done| |done..]. unfold removable. destruct (cls c); naive_solver.
    + exists ts. rewrite fmap_app, <- Ha. split_and!; [done|done|exact Eok].
Qed.

Lemma add_unseen_spec targets seen seen' fresh :
  add_unseen seen targets = (seen', fresh) →
  (∀ k, k ∈ seen' ↔ k ∈ seen ∨ k ∈ (λ x, (tgt_path x, config_digest x)) <$> targets) ∧
  (∀ k, k ∈ seen' → k ∈ seen ∨ k ∈ (λ x, (tgt_path x, config_digest x)) <$> fresh).
Proof.
  revert seen fresh. induction targets as [|x targets IH]; intros seen fresh; cbn [add_unseen].
  { intros [= <- <-]. set_solver. }
  case_decide as Hx; [|destruct (add_unseen ({[(tgt_path x, config_digest x)]} ∪ seen) targets) as [s1 rest] eqn:E].
  - intros [H1 H2]%IH. rewrite fmap_cons. split; [set_solver|done].
  - intros [= <- <-]. apply IH in E as [H1 H2]. rewrite !fmap_cons. split; [set_solver|].
    intros k Hk%H2. set_solver.
Qed.

Lemma combined_targets_cover accepted : ∀ seen all,
  combined_targets seen accepted = Ok all →
  ∀ r ts t, r ∈ accepted → targets_of (rm_path r) = Ok (Some ts) → t ∈ ts →
    (tgt_path t, config_digest t) ∈ seen ∨
    ∃ x, x ∈ all ∧ tgt_path x = tgt_path t ∧ config_digest x = config_digest t.
Proof.
  induction accepted as [|r accepted IH]; intros seen all; cbn [combined_targets];
    [by intros _ ? ? ? ?%elem_of_nil|].
  destruct (targets_of (rm_path r)) as [o|] eqn:Eo; [|done]. cbn [rbind].
  destruct (add_unseen seen (default [] o)) as [seen' fresh] eqn:Eu.
  destruct (combined_targets seen' accepted) as [rest|] eqn:Er; [|done]. intros [= <-].
  apply add_unseen_spec in Eu as [Hs1 Hs2].
  assert (∀ k, k ∈ seen' → k ∈ seen ∨ ∃ x, x ∈ fresh ++ rest ∧ (tgt_path x, config_digest x) = k) as Hk.
  { intros k [?|(x & -> & Hx)%list_elem_of_fmap]%Hs2; [by left|]. right. exists x. split; [set_solver|done]. }
  intros q ts t Hq Hts Ht.
  assert ((tgt_path t, config_digest t) ∈ seen' ∨
          ∃ x, x ∈ rest ∧ tgt_path x = tgt_path t ∧ config_digest x = config_digest t) as [Hin|(x & ? & ? & ?)].
  { apply elem_of_cons in Hq as [->|Hq]; [|by eapply IH]. left. rewrite Eo in Hts. injection Hts as ->.
    apply Hs1. right. apply list_elem_of_fmap. by exists t. }
  - apply Hk in Hin as [?|(x & Hx & [= ? ?])]; [by left|]. right. by exists x.
  - right. exists x. split_and!; [set_solver|done..].
Qed.

(** C2: What a plan accepts has been proved.  The accepted items, in the order of
    validation, were each compiled in every unit their file affects, without
    their own bytes and those of the items accepted before, and passed; each is a
    candidate the analysis reported removable; and all of them together were
    compiled in every affected unit and passed, so that a set whose members are
    removable one by one but not together accepts nothing. *)
Theorem accepted_proved res db_path plan :
  build_plan res db_path = Ok plan →
  ∃ accepted, accepted ≡ₚ accepted_items (items plan) ∧
    (∀ before it after, accepted = before ++ it :: after → validated res before it) ∧
    (accepted ≠ [] → ∃ all,
      plan_validations plan = validate compile d all (overlay_for d (item_removal <$> accepted)) (bs "combined") ∧
      all_ok (plan_validations plan) = true ∧
      ∀ it ts t, it ∈ accepted → targets_of (abs_path it) = Ok (Some ts) → t ∈ ts →
        ∃ x, x ∈ all ∧ tgt_path x = tgt_path t ∧ config_digest x = config_digest t).
Proof.
  unfold build_plan. set (root := common_root _). generalize root. clear root. intros root.
  destruct (foldR _ _ _) as [b|] eqn:Eb; [|done]. cbn [rbind].
  assert (building_ok res b) as [Ha Hv].
  { eapply (foldR_inv _ (λ _, building_ok res)); [|split; cbn|exact Eb].
    - intros pre c b1 b2 Hb1 E Hc. by eapply plan_candidate_ok.
    - reflexivity.
    - by intros [|] ? ? [=]. }
  destruct (prove_together _ _) as [[records its]|] eqn:Ep; [|done]. intros [= <-]. cbn [items plan_validations fst snd].
  unfold prove_together in Ep. rewrite Ha in Ep.
  assert (∀ l, accepted_items (sort item_ltb l) ≡ₚ accepted_items l) as Hperm
    by (intros l; unfold accepted_items, sort; by rewrite (merge_sort_Permutation _)).
  destruct (accepted_items (b_items b)) as [|x l] eqn:El; cbn [fmap list_fmap] in Ep.
  { injection Ep as <- <-. exists []. rewrite Hperm, El. split_and!; [done|by intros [|] ? ? [=]|done]. }
  change (item_removal x :: _) with (item_removal <$> (x :: l)) in Ep. rewrite <- El in *.
  destruct (combined_targets ∅ _) as [all|] eqn:Ec; [|done]. cbn [rbind] in Ep.
  set (rs := validate _ _ _ _ _) in Ep. destruct (all_ok rs) eqn:Eok; injection Ep as <- <-.
  - exists (accepted_items (b_items b)). rewrite Hperm. split_and!; [done|exact Hv|]. intros _.
    exists all. split_and!; [done|done|]. intros it ts t Hit Hts Ht.
    destruct (combined_targets_cover _ _ _ Ec (item_removal it) ts t) as [?|?]; [|done|done|set_solver|done].
    by apply list_elem_of_fmap_2.
  - exists []. rewrite Hperm. assert (accepted_items (demote <$> b_items b) = []) as ->.
    { apply elem_of_nil_inv. intros it [Hs (y & -> & _)%list_elem_of_fmap]%list_elem_of_filter.
      unfold demote in Hs. by destruct (state y) eqn:Ey; [cbn in Hs|rewrite Ey in Hs..]. }
    split_and!; [done|by intros [|] ? ? [=]|done].
Qed.
End planner.

(** ** The paths of a plan *)

(** A component: not empty and without a slash. *)
Abbreviation component := (λ c : bytes, c ≠ [] ∧ slash ∉ c).

Lemma components_loop_spec path : ∀ cur,
  slash ∉ cur → Forall component (components_loop cur path).
Proof.
  induction path as [|c path IH]; intros cur Hcur; cbn [components_loop].
  - case_decide; [constructor|by repeat constructor].
  - case_decide as Hc; [case_decide|].
    + by apply IH.
    + constructor; [done|]. apply IH, not_elem_of_nil.
    + apply IH. rewrite elem_of_app, list_elem_of_singleton. naive_solver.
Qed.

Lemma root_loop_spec paths : ∀ root cs,
  Forall component root → root_loop root paths = Some cs → Forall component cs ∧ (cs ≠ [] ∨ paths = []).
Proof.
  assert (∀ root dir, Forall component root → Forall component (shared root dir)) as Hshared.
  { induction root as [|r root IH]; intros [|x dir] Hr; cbn [shared]; try by constructor.
    apply Forall_cons in Hr as [? ?]. case_decide; [constructor; [done|by apply IH]|constructor]. }
  induction paths as [|p paths IH]; intros root cs Hr; cbn [root_loop]; [intros [= <-]; by split; [|right]|].
  destruct (shared root (dir_components (dirname p))) as [|r rs] eqn:E; [done|].
  assert (Forall component (r :: rs)) as Hrs by (rewrite <- E; by apply Hshared).
  intros Hcs. destruct (IH _ _ Hrs Hcs) as [? [?|Hnil]]; [by split; [|left]|].
  subst paths. injection Hcs as <-. split; [done|by left].
Qed.

Lemma rooted_last cs : cs ≠ [] → Forall component cs → ∃ u c, rooted cs = u ++ [c] ∧ c ≠ slash ∧ u ≠ [].
Proof.
  intros Hne Hcs. destruct (snoc_cases cs) as [->|(cs' & c & ->)]; [done|].
  apply Forall_app in Hcs as [_ [[Hc Hs] _]%Forall_cons].
  destruct (snoc_cases c) as [->|(c' & x & ->)]; [done|].
  exists (rooted cs' ++ slash :: c'), x. unfold rooted. rewrite bind_app. cbn. rewrite app_nil_r, <- app_assoc.
  split_and!; [done| |by intros [_ ?]%app_nil]. intros ->. apply Hs. set_solver.
Qed.

Lemma common_root_shape files :
  common_root files = [slash] ∨ ∃ u c, common_root files = u ++ [c] ∧ c ≠ slash ∧ u ≠ [].
Proof.
  unfold common_root. destruct files as [|p files]; [by left|].
  destruct (root_loop _ _) as [cs|] eqn:E; [|by left]. right.
  apply root_loop_spec in E as [Hcs [Hne|?]]; [by apply rooted_last|done|].
  apply components_loop_spec, not_elem_of_nil.
Qed.

(** The relative path of a file, joined to the root of the plan, is the file
    again: execution edits the very file that was analysed.  For an absolute
    path without empty components, whatever the other files of the plan. *)
Theorem plan_paths_resolve files p :
  isabs p = true → (∀ u v, p ≠ u ++ slash :: slash :: v) →
  PathUtil.join (common_root files) [relative_to (common_root files) p] = p.
Proof.
  intros Habs Hslash. assert (PathUtil.join (common_root files) [p] = p) as Hself.
  { cbn. unfold join_one. by rewrite Habs. }
  destruct (common_root_shape files) as [Hr|(u & c & Hr & Hc & Hu)]; unfold relative_to; rewrite Hr in *.
  - rewrite (bool_decide_eq_true_2 ([slash] = [slash])) by done. cbn [negb andb].
    destruct p as [|x p]; [done|]. cbn [isabs] in Habs. apply bool_decide_eq_true in Habs as ->.
    rewrite (proj2 (starts_with_spec [slash] (slash :: p))) by (by exists p).
    cbn [drop PathUtil.join foldl]. unfold join_one.
    rewrite drop_0. destruct (isabs p) eqn:Ep; [|reflexivity]. destruct p as [|y p]; [done|].
    apply bool_decide_eq_true in Ep as ->. by destruct (Hslash [] p).
  - assert (u ++ [c] ≠ [slash]) as Hne by (intros E; destruct u; [done|by destruct u]).
    rewrite bool_decide_eq_false_2 by done. cbn [negb andb].
    destruct (starts_with _ p) eqn:Es; [|exact Hself]. apply starts_with_spec in Es as [t ->].
    replace (length (u ++ [c]) + 1)%nat with (length ((u ++ [c]) ++ [slash])) by (rewrite length_app; done).
    rewrite drop_app_length. cbn [PathUtil.join foldl]. unfold join_one.
    destruct (isabs t) eqn:Et.
    + destruct t as [|y t]; [done|]. apply bool_decide_eq_true in Et as ->.
      destruct (Hslash (u ++ [c]) t). by rewrite <- app_assoc.
    + rewrite bool_decide_eq_false_2 by (by intros [_ ?]%app_nil).
      rewrite bool_decide_eq_false_2; [by rewrite <- !app_assoc|]. rewrite last_snoc. congruence.
Qed.

Lemma plan_paths_resolve_witness :
  PathUtil.join (common_root [bs "/w/src/a.cpp"; bs "/w/include/b.h"])
    [relative_to (common_root [bs "/w/src/a.cpp"; bs "/w/include/b.h"]) (bs "/w/include/b.h")]
  = bs "/w/include/b.h".
Proof.
  apply plan_paths_resolve; [reflexivity|]. intros u v. vm_compute. intros E.
  repeat (destruct u as [|? u]; [discriminate E|injection E as _ E]). destruct u; discriminate E.
Defined.

(** ** Witness *)

(** Everything compiles, except a unit whose overlay is empty. *)
Definition sample_compile (d : disk) (edited : gmap bytes bytes) (t : TuTarget) : Z * bytes :=
  if bool_decide ((edited ∪ d) !! tgt_path t = Some []) then (1, bs "empty unit") else (0, []).

Definition sample_result : AnalysisResult :=
  match sample_analysis with Ok res => res | Err _ => AnalysisResult_ [] true [] end.

Definition sample_build : result CleanupPlan :=
  build_plan (@reverse ascii) sample_compile sample_list sample_get repeated_db sample_disk (bs "now")
    sample_result (bs "/index.db").

Lemma accepted_proved_witness : ∃ plan,
  sample_build = Ok plan ∧ length (accepted_items (items plan)) = 2%nat ∧
  all_ok (plan_validations plan) = true.
Proof.
  destruct sample_build as [plan|] eqn:E; [|vm_compute in E; done].
  assert (length (accepted_items (items plan)) = 2%nat) as Hl.
  { vm_compute in E. injection E as <-. vm_compute. reflexivity. }
  exists plan. split_and!; [done|done|].
  destruct (accepted_proved _ _ _ _ _ _ _ _ _ _ E) as (accepted & Hp & _ & Hall).
  destruct Hall as (all & _ & Hok & _); [|exact Hok].
  intros ->. by rewrite <- Hp in Hl.
Defined.
