(* ===== verification/Executor.v ===== *)
(** * Executing a cleanup plan: [src/src/include_hygiene/executor.cpp]

    The only code that edits source files.  The disk is a map from paths to
    contents; the system calls' answers, Clang and clang-format are arguments. *)

From S2P Require Export Planner.

Open Scope Z_scope.

(** ** Writing one file *)

(** What [::write] answers; past the listed answers it writes what is left. *)
Inductive written : Type := Wrote (n : nat) | Interrupted | WriteFailed.

(** The answers of the system calls while one file is written. *)
Record syscalls := Syscalls {
  sys_lstat : option (bool * Z);  (* a symbolic link?, the number of hard links *)
  sys_mkstemp : option bytes;     (* the name of the temporary file *)
  sys_writes : list written;
  sys_fsync : bool;
  sys_fchmod : bool;
  sys_close : bool;
  sys_rename : bool;
  sys_unlink : bool               (* asked only on an error; the source ignores it *)
}.

(** [write_all] from offset [off]: whether it succeeds, and the contents of the
    file after each write. *)
Fixpoint write_all (answers : list written) (content : bytes) (off : nat) : bool * list bytes :=
  if (off <? length content)%nat then
    match answers with
    | [] => (true, [content])
    | Wrote n :: answers =>
        let off := (off + n `min` (length content - off))%nat in
        let '(ok, states) := write_all answers content off in
        (ok, take off content :: states)
    | Interrupted :: answers => write_all answers content off
    | WriteFailed :: _ => (false, [])
    end
  else (true, []).

(** The states of the disk on the way, the last one and the error. *)
Definition write_atomic (sys : syscalls) (path content : bytes) (d : disk) :
    list disk * disk * option bytes :=
  match sys_lstat sys with
  | None => ([], d, Some (bs "cannot stat " ++ path))
  | Some (true, _) =>
      ([], d, Some (bs "refusing to edit a symlink: " ++ path ++
                    bs " (rename would replace the link with a regular file)"))
  | Some (false, links) =>
      if 1 <? links then
        ([], d, Some (bs "refusing to edit a hard-linked file: " ++ path ++
                      bs " (rename would detach it from its other name(s))"))
      else
        match sys_mkstemp sys with
        | None => ([], d, Some (bs "cannot create a temporary file next to " ++ path))
        | Some tmp =>
            let '(ok, contents) := write_all (sys_writes sys) content 0 in
            let states := (λ c, <[tmp := c]> d) <$> [] :: contents in
            let last_content := default [] (last contents) in
            let left := <[tmp := last_content]> d in
            let fail msg := (states, if sys_unlink sys then delete tmp left else left, Some msg) in
            if negb ok then fail (bs "write failed: " ++ tmp)
            else if negb (sys_fsync sys) then fail (bs "fsync failed: " ++ tmp)
            else if negb (sys_fchmod sys) then fail (bs "cannot set permissions on " ++ tmp)
            else if negb (sys_close sys) then fail (bs "close failed: " ++ tmp)
            else if negb (sys_rename sys) then fail (bs "rename failed: " ++ tmp ++ bs " -> " ++ path)
            else (states, <[path := last_content]> (delete tmp left), None)
        end
  end.

(** ** Data *)

Record ExecuteOptions := ExecuteOptions_ { dry_run : bool; only : list bytes }.

Record ExecuteResult := ExecuteResult_ {
  x_ok : bool;
  x_refusals : list bytes;
  x_edited_files : list bytes;
  x_removed : nat;
  x_skipped : nat;
  x_validations : list ValidationRecord;
  x_reindexed : list bytes
}.

(** The disk, and the files whose index rows are current. *)
Record world := World { w_disk : disk; w_indexed : gset Z }.

(** A refusal with the records so far. *)
Definition refuse (refusals : list bytes) (skipped : nat) (validations : list ValidationRecord) : ExecuteResult :=
  ExecuteResult_ false refusals [] 0 skipped validations [].

(** ** The checks on one item *)

(** The loop over the components of the relative path. *)
Fixpoint no_dotdot (cur : bytes) (rel : bytes) : bool :=
  match rel with
  | [] => negb (bool_decide (cur = bs ".."))
  | c :: rel =>
      if decide (c = slash) then negb (bool_decide (cur = bs "..")) && no_dotdot [] rel
      else no_dotdot (cur ++ [c]) rel
  end.

Definition within_repo (rel : bytes) : bool :=
  match rel with
  | [] => false
  | c :: _ => negb (bool_decide (c = slash)) && no_dotdot [] rel
  end.

(** [std::string::substr] with both arguments cast to [size_t]; it throws past
    the end. *)
Definition substr (s : bytes) (pos count : Z) : result bytes :=
  if (pos <? 0) || (Z.of_nat (length s) <? pos) then Err (bs "basic_string::substr")
  else
    let rest := drop (Z.to_nat pos) s in
    Ok (if count <? 0 then rest else take (Z.to_nat count) rest).

(** The removal of a chosen item, or the refusal. *)
Definition check_item (plan : CleanupPlan) (d : disk) (it : PlanItem) : result (bytes + Removal) :=
  if negb (within_repo (file it)) then
    Ok (inl (bs "item " ++ id it ++ bs " names a path outside the repository root: " ++ file it))
  else if negb (bool_decide (is_Some (file_hashes plan !! file it))) then
    Ok (inl (bs "plan carries no content hash for " ++ file it ++ bs " (item " ++ id it ++
             bs "): it cannot be proven current, so it is refused"))
  else
    let abs := PathUtil.join (repo_root plan) [file it] in
    let content := read_file d abs in
    let mismatch := bs "the bytes at " ++ file it ++ bs ":" ++ to_string (line it) ++
                    bs " are not the directive this plan reviewed (item " ++ id it ++ bs ")" in
    if Z.of_nat (length content) <? end_offset it then Ok (inl mismatch)
    else
      let! text := substr content (begin_offset it) (end_offset it - begin_offset it) in
      if bool_decide (text = directive_text it) then Ok (inr (Removal_ abs (begin_offset it) (end_offset it)))
      else Ok (inl mismatch).

(** The refusals and the removals of the chosen items, in order. *)
Definition lefts {A B} (l : list (A + B)) : list A :=
  omap (λ x, match x with inl a => Some a | inr _ => None end) l.
Definition rights {A B} (l : list (A + B)) : list B :=
  omap (λ x, match x with inr b => Some b | inl _ => None end) l.

(** [by_id.emplace(c.id, &c)]. *)
Definition candidates_by_id (l : list IncludeCandidate) : gmap bytes IncludeCandidate :=
  foldl (λ m c, emplace m (dir_id (c_directive c)) c) ∅ l.

(** The finding still stands in the fresh analysis. *)
Definition still_removable (fresh : gmap bytes IncludeCandidate) (it : PlanItem) : bool :=
  match fresh !! id it with
  | None => false
  | Some c =>
      (bool_decide (cls c = UnusedByReference) || bool_decide (cls c = Duplicate)) &&
      (dir_begin_offset (c_directive c) =? begin_offset it) &&
      (dir_end_offset (c_directive c) =? end_offset it) &&
      bool_decide (dir_text (c_directive c) = directive_text it)
  end.

(** [std::ranges::unique] on the unit and the configuration. *)
Fixpoint unique_targets (l : list TuTarget) : list TuTarget :=
  match l with
  | x :: (y :: _) as rest =>
      if bool_decide (tgt_path x = tgt_path y) && bool_decide (config_digest x = config_digest y)
      then match unique_targets rest with
           | _ :: tl => x :: tl
           | [] => [x]
           end
      else x :: unique_targets rest
  | _ => l
  end.

(** ** The stages *)

(** A stage throws, returns from [execute], or goes on. *)
Definition stage (A : Type) : Type := result (ExecuteResult + A).

Definition sbind {A B} (m : stage A) (k : A → stage B) : stage B :=
  match m with
  | Err e => Err e
  | Ok (inl res) => Ok (inl res)
  | Ok (inr a) => k a
  end.

#[local] Notation "'let?' x ':=' m 'in' k" := (sbind m (λ x, k))
  (at level 200, x name, m at level 100, k at level 200).

(** [if (!res.refusals.empty()) return res;]. *)
Definition unless_refused (refusals : list bytes) (skipped : nat) (validations : list ValidationRecord) : stage () :=
  match refusals with
  | [] => Ok (inr ())
  | _ => Ok (inl (refuse refusals skipped validations))
  end.

Section execute.
Context `{!SymbolStore}.
Context (sha1 : bytes → bytes) (h : host).
Context (compile : disk → gmap bytes bytes → TuTarget → Z * bytes).
Context (clang_format_cleanup : bytes → bytes → list Removal → result bytes).
Context (sys : bytes → syscalls).
Context (list_files : list (Z * bytes)) (get_file : bytes → option Z) (db : IncludeDb).
Context (plan : CleanupPlan) (opts : ExecuteOptions).

(** Step 1. *)
Definition check_fresh (d : disk) : stage () :=
  match staleness_reasons (hash_file sha1 (λ p, d !! p)) plan kSchemaVersion with
  | [] => Ok (inr ())
  | reasons =>
      Ok (inl (refuse (reasons ++ [bs "regenerate the plan with `cidx include plan` and review it again"]) 0 []))
  end.

(** Step 2: the chosen items. *)
Definition chosen (it : PlanItem) : bool :=
  bool_decide (state it = Accepted) && (bool_decide (only opts = []) || bool_decide (id it ∈ only opts)).

Definition chosen_items : list PlanItem := filter (λ it, chosen it = true) (items plan).
Definition skipped_count : nat := length (filter (λ it, chosen it = false) (items plan)).

Definition unknown_ids : list bytes :=
  (λ i, bs "--only names an id that is not in this plan: " ++ i) <$>
  filter (λ i, existsb (λ it, bool_decide (id it = i)) (items plan) = false) (only opts).

Definition select_items : stage (list PlanItem) :=
  let? _ := unless_refused unknown_ids skipped_count [] in
  match chosen_items with
  | [] => Ok (inl (ExecuteResult_ true [] [] 0 skipped_count [] []))
  | l => Ok (inr l)
  end.

Definition check_items (d : disk) (l : list PlanItem) : stage (list Removal) :=
  let! checked := mapR (check_item plan d) l in
  let? _ := unless_refused (lefts checked) skipped_count [] in
  Ok (inr (rights checked)).

(** Step 2b. *)
Definition touched (removals : list Removal) : list bytes := sort_unique bytes_ltb (rm_path <$> removals).

Definition gone (it : PlanItem) : bytes :=
  bs "the current index no longer classifies item " ++ id it ++ bs " (" ++ file it ++ bs ":" ++
  to_string (line it) ++ bs ") as a removable finding: re-run `cidx include plan`".

Definition rederive (d : disk) (l : list PlanItem) (removals : list Removal) : stage () :=
  let! fresh := analyze sha1 d h list_files get_file db (AnalysisOptions_ (touched removals) true true) in
  let by_id := candidates_by_id (candidates fresh) in
  unless_refused (gone <$> filter (λ it, still_removable by_id it = false) l) skipped_count [].

(** Step 3: the units of every touched file. *)
Definition file_targets (f : bytes) : result (bytes + list TuTarget) :=
  let! t := targets_of list_files get_file db f in
  Ok match t with
     | None => inl (bs "no compile command reaches " ++ f ++
                    bs ": this edit cannot be proven, so it will not be applied")
     | Some ts => inr ts
     end.

Definition all_targets (removals : list Removal) : stage (list TuTarget) :=
  let! found := mapR file_targets (touched removals) in
  let? _ := unless_refused (lefts found) skipped_count [] in
  Ok (inr (unique_targets (sort target_ltb (mjoin (rights found))))).

(** Every configuration is one the plan was reviewed against. *)
Definition check_configs (targets : list TuTarget) : stage () :=
  if forallb (λ t, bool_decide (config_digest t ∈ config_digests plan)) targets then Ok (inr ())
  else Ok (inl (refuse [bs "a build configuration reaching these files is not one the plan was reviewed against: regenerate the plan with `cidx include plan`"] skipped_count [])).

Definition failed_records (what : bytes) (after : bytes) (records : list ValidationRecord) : list bytes :=
  (λ v, what ++ tu_path v ++ bs ": " ++ diagnostic v ++ after) <$> filter (λ v, ok v = false) records.

Definition prove_combined (d : disk) (removals : list Removal) (targets : list TuTarget) :
    stage (list ValidationRecord) :=
  let records := validate compile d targets (overlay_for d removals) (bs "combined") in
  if all_ok records then Ok (inr records)
  else Ok (inl (refuse (failed_records (bs "combined validation failed for ") [] records) skipped_count records)).

(** Steps 4 to 7: the final buffers, file by file. *)
Fixpoint final_buffers (d : disk) (removals : list Removal) (records : list ValidationRecord)
    (files : list bytes) : stage (gmap bytes bytes) :=
  match files with
  | [] => Ok (inr ∅)
  | f :: files =>
      match clang_format_cleanup f (read_file d f) (of_file f removals) with
      | Err err => Ok (inl (refuse [err] skipped_count records))
      | Ok out => let? rest := final_buffers d removals records files in Ok (inr (<[f := out]> rest))
      end
  end.

(** Step 8. *)
Definition preflight (d : disk) (targets : list TuTarget) (finals : gmap bytes bytes)
    (records : list ValidationRecord) : stage (list ValidationRecord) :=
  let found := validate compile d targets finals (bs "preflight") in
  let? _ := unless_refused (failed_records (bs "preflight failed for ") [] found) skipped_count
              (records ++ found) in
  Ok (inr (records ++ found)).

(** Step 9: the files written, the disk after them and the error. *)
Fixpoint write_files (d : disk) (files : list (bytes * bytes)) : list bytes * disk * option bytes :=
  match files with
  | [] => ([], d, None)
  | (path, content) :: files =>
      match write_atomic (sys path) path content d with
      | (_, d, Some err) => ([], d, Some err)
      | (_, d, None) =>
          let '(edited, d, err) := write_files d files in (path :: edited, d, err)
      end
  end.

(** Step 11: the files whose rows are stale. *)
Definition stale_files (removals : list Removal) : result (list bytes) :=
  let! found := mapR (targets_of list_files get_file db) (touched removals) in
  Ok (sort_unique bytes_ltb
        (touched removals ++ (tgt_path <$> mjoin (default [] <$> found)))).

(** Everything before the first write: the buffers, the units and the records. *)
Definition prepare (d : disk) :
    stage (list PlanItem * list Removal * list TuTarget * gmap bytes bytes * list ValidationRecord) :=
  let? _ := check_fresh d in
  let? l := select_items in
  let? removals := check_items d l in
  let? _ := rederive d l removals in
  let? targets := all_targets removals in
  let? _ := check_configs targets in
  let? records := prove_combined d removals targets in
  let? finals := final_buffers d removals records (touched removals) in
  let? records := preflight d targets finals records in
  Ok (inr (l, removals, targets, finals, records)).

Definition execute (w : world) : result (ExecuteResult * world) :=
  let! ready := prepare (w_disk w) in
  match ready with
  | inl res => Ok (res, w)
  | inr (l, removals, targets, finals, records) =>
      if dry_run opts then
        Ok (ExecuteResult_ true [] (in_order finals).*1 (length l) skipped_count records [], w)
      else
        let '(edited, d, err) := write_files (w_disk w) (in_order finals) in
        match err with
        | Some err =>
            Ok (ExecuteResult_ false [err] edited 0 skipped_count records [], World d (w_indexed w))
        | None =>
            let after := validate compile d targets ∅ (bs "post_write") in
            let records := records ++ after in
            match failed_records (bs "POST-WRITE validation failed for ")
                    (bs " -- the tree has been edited; review it") after with
            | [] =>
                let! outdated := stale_files removals in
                let known := omap (λ f, pair f <$> get_file f) outdated in
                Ok (ExecuteResult_ true [] edited (length l) skipped_count records known.*1,
                    World d (w_indexed w ∖ list_to_set known.*2))
            | refusals =>
                Ok (ExecuteResult_ false refusals edited (length l) skipped_count records [],
                    World d (w_indexed w))
            end
        end
  end.
End execute.

(** ** Writing is atomic *)

Lemma write_all_complete answers content off states :
  write_all answers content off = (true, states) → last (take off content :: states) = Some content.
Proof.
  revert off states. induction answers as [|[n| |] answers IH]; intros off states; cbn [write_all];
    (destruct (Nat.ltb_spec off (length content)); [|intros [= <-]; cbn; by rewrite take_ge]).
  - by intros [= <-].
  - destruct (write_all answers content _) as [ok sts] eqn:E. intros [= -> <-].
    apply IH in E. cbn [last] in *. exact E.
  - apply IH.
  - done.
Qed.

(** The answers of the system calls are about this disk: the file is there, and
    the temporary name is new. *)
Definition answers_about (d : disk) (sys : syscalls) (path : bytes) : Prop :=
  (∀ st, sys_lstat sys = Some st → is_Some (d !! path)) ∧
  (∀ tmp, sys_mkstemp sys = Some tmp → d !! tmp = None).

(** What an error leaves: nothing new, or the temporary sibling, holding the
    first bytes of the content, which [::unlink] refused to remove. *)
Definition error_leaves (sys : syscalls) (content : bytes) (d d' : disk) : Prop :=
  d' = d ∨ ∃ tmp n, sys_mkstemp sys = Some tmp ∧ sys_unlink sys = false ∧ d' = <[tmp := take n content]> d.

Lemma write_all_prefixes answers content off ok states :
  write_all answers content off = (ok, states) → Forall (λ c, ∃ n, c = take n content) states.
Proof.
  revert off ok states. induction answers as [|[n| |] answers IH]; intros off ok states; cbn [write_all];
    (destruct (off <? length content)%nat; [|by intros [= _ <-]]).
  - intros [= _ <-]. repeat constructor. exists (length content). by rewrite firstn_all.
  - destruct (write_all answers content _) as [o sts] eqn:E. intros [= _ <-].
    constructor; [eauto|by eapply IH].
  - apply IH.
  - by intros [= _ <-].
Qed.

Lemma write_all_last answers content ok states :
  write_all answers content 0 = (ok, states) → ∃ n, default [] (last states) = take n content.
Proof.
  intros Hw%write_all_prefixes. destruct (last states) as [c|] eqn:E; [|by exists 0%nat].
  rewrite Forall_forall in Hw. apply Hw, last_Some_elem_of, E.
Qed.

Lemma write_atomic_final sys path content d states d' err :
  answers_about d sys path → write_atomic sys path content d = (states, d', err) →
  (∃ links, err = None ∧ d' = <[path := content]> d ∧ sys_lstat sys = Some (false, links) ∧ links <= 1) ∨
  (∃ why, err = Some why ∧ error_leaves sys content d d').
Proof.
  intros [_ Hnew]. unfold write_atomic.
  assert (error_leaves sys content d d) as Hd by by left.
  destruct (sys_lstat sys) as [[[] links]|]; [by intros [= _ <- <-]; eauto| |by intros [= _ <- <-]; eauto].
  destruct (Z.ltb_spec 1 links); [by intros [= _ <- <-]; eauto|].
  destruct (sys_mkstemp sys) as [tmp|] eqn:Et; [|by intros [= _ <- <-]; eauto].
  specialize (Hnew _ eq_refl).
  destruct (write_all _ _ _) as [ok contents] eqn:Ew.
  destruct (write_all_last _ _ _ _ Ew) as [n Hn].
  assert (error_leaves sys content d
    (if sys_unlink sys then delete tmp (<[tmp := default [] (last contents)]> d)
     else <[tmp := default [] (last contents)]> d)) as Hf.
  { rewrite Hn. destruct (sys_unlink sys) eqn:Eu; [left; by rewrite delete_insert_id|right; eauto]. }
  destruct ok; cbn [negb]; [|intros [= _ <- <-]; eauto].
  destruct (sys_fsync sys); cbn [negb]; [|intros [= _ <- <-]; eauto].
  destruct (sys_fchmod sys); cbn [negb]; [|intros [= _ <- <-]; eauto].
  destruct (sys_close sys); cbn [negb]; [|intros [= _ <- <-]; eauto].
  destruct (sys_rename sys); cbn [negb]; [|intros [= _ <- <-]; eauto].
  intros [= _ <- <-]. left. exists links. rewrite delete_insert_id by done. split_and!; [done| |done|lia].
  f_equal. apply write_all_complete in Ew. destruct contents; cbn [last] in *; [by injection Ew|by rewrite Ew].
Qed.

Lemma write_atomic_states sys path content d states d' err s :
  write_atomic sys path content d = (states, d', err) → s ∈ states →
  ∃ tmp c, sys_mkstemp sys = Some tmp ∧ s = <[tmp := c]> d.
Proof.
  unfold write_atomic. destruct (sys_lstat sys) as [[[] links]|]; [by intros [= <- _ _] ?%elem_of_nil| |by intros [= <- _ _] ?%elem_of_nil].
  destruct (1 <? links); [by intros [= <- _ _] ?%elem_of_nil|].
  destruct (sys_mkstemp sys) as [tmp|]; [|by intros [= <- _ _] ?%elem_of_nil].
  destruct (write_all _ _ _) as [ok contents].
  intros E. assert (states = (λ c, <[tmp := c]> d) <$> [] :: contents) as ->.
  { destruct ok; cbn [negb] in E; [|by injection E as <- _ _].
    repeat (case_match; [by injection E as <- _ _|]). by injection E as <- _ _. }
  intros (c & -> & _)%list_elem_of_fmap. by exists tmp, c.
Qed.

(** C6: Replacing a file is atomic.  Whatever the system calls answer, in every
    state of the disk on the way each file has its old content, the file itself
    included, and only the temporary sibling, a name that was free, differs.  At
    the end the file has the whole new content and everything else is as before;
    or an error is returned and every file is what it was, and the disk is what it
    was unless [::unlink], whose answer the source ignores, failed: then the
    temporary sibling stays behind with the first bytes of the content.  A link is
    never replaced. *)
Theorem replacement_atomic sys path content d states d' err :
  answers_about d sys path → write_atomic sys path content d = (states, d', err) →
  (∀ s p, s ∈ states → is_Some (d !! p) → s !! p = d !! p) ∧
  match err with
  | None => d' = <[path := content]> d ∧ ∃ links, sys_lstat sys = Some (false, links) ∧ links <= 1
  | Some _ =>
      (∀ p, is_Some (d !! p) → d' !! p = d !! p) ∧
      (d' = d ∨ ∃ tmp n, sys_mkstemp sys = Some tmp ∧ d !! tmp = None ∧ sys_unlink sys = false ∧
                         d' = <[tmp := take n content]> d)
  end.
Proof.
  intros Ha E. assert (∀ tmp c p, sys_mkstemp sys = Some tmp → is_Some (d !! p) → <[tmp := c]> d !! p = d !! p) as Hne.
  { intros tmp c p Ht Hp. apply lookup_insert_ne. intros ->. destruct Ha as [_ Hnew].
    rewrite (Hnew _ Ht) in Hp. by destruct Hp. }
  split.
  - intros s p Hs Hp. destruct (write_atomic_states _ _ _ _ _ _ _ _ E Hs) as (tmp & c & Ht & ->). by apply Hne.
  - destruct (write_atomic_final _ _ _ _ _ _ _ Ha E) as [(links & -> & -> & ? & ?)|(why & -> & Hl)]; [eauto|].
    destruct Hl as [->|(tmp & n & Ht & Hu & ->)]; [by split; [|left]|].
    split; [by eauto|right]. destruct Ha as [_ Hnew]. exists tmp, n. by rewrite (Hnew _ Ht).
Qed.

Lemma replacement_atomic_witness :
  let sys := Syscalls (Some (false, 1)) (Some (bs "/.cidx-apply-1")) [Wrote 2; Interrupted] true true true true true in
  let d := <[bs "/a" := bs "old"]> ∅ in
  ∃ states d', write_atomic sys (bs "/a") (bs "new!") d = (states, d', None) ∧
    d' !! bs "/a" = Some (bs "new!") ∧ length states = 3%nat ∧
    ∀ s, s ∈ states → s !! bs "/a" = Some (bs "old").
Proof.
  intros sys d. assert (answers_about d sys (bs "/a")) as Ha.
  { split; [|by intros tmp [= <-]]. intros st _. exists (bs "old"). apply lookup_insert_eq. }
  assert ((write_atomic sys (bs "/a") (bs "new!") d).2 = None) as Herr by (vm_compute; reflexivity).
  assert (length (write_atomic sys (bs "/a") (bs "new!") d).1.1 = 3%nat) as Hl by (vm_compute; reflexivity).
  destruct (write_atomic sys (bs "/a") (bs "new!") d) as [[states d'] err] eqn:E. cbn [fst snd] in Herr, Hl. subst err.
  destruct (replacement_atomic _ _ _ _ _ _ _ Ha E) as [Hs He].
  exists states, d'. destruct He as [-> _]. split_and!; [done|apply lookup_insert_eq|done|].
  intros s Hin. rewrite (Hs s (bs "/a") Hin) by (exists (bs "old"); apply lookup_insert_eq).
  apply lookup_insert_eq.
Defined.

(** ** What execution has proved when it writes *)

Lemma sbind_inr {A B} (m : stage A) (k : A → stage B) b :
  sbind m k = Ok (inr b) → ∃ a, m = Ok (inr a) ∧ k a = Ok (inr b).
Proof. destruct m as [[res|a]|]; [done|eauto|done]. Qed.

Lemma unless_refused_inr refusals n records u :
  unless_refused refusals n records = Ok (inr u) → refusals = [].
Proof. by destruct refusals. Qed.

Lemma lefts_nil {A B} (l : list (A + B)) : lefts l = [] → l = inr <$> rights l.
Proof.
  induction l as [|[a|b] l IH]; cbn; [done|done|]. intros Hl. f_equal. by apply IH.
Qed.

(** Each element of a checked list, and its result. *)
Lemma checked_all {A B C} (f : A → result (B + C)) l checked :
  mapR f l = Ok checked → lefts checked = [] → Forall2 (λ a c, f a = Ok (inr c)) l (rights checked).
Proof.
  intros Hm%mapR_Forall2 Hl%lefts_nil. rewrite Hl in Hm. by apply Forall2_fmap_r in Hm.
Qed.

Ltac stage_inv H :=
  repeat match type of H with
  | sbind _ _ = Ok (inr _) =>
      let a := fresh "a" in let E := fresh "E" in
      apply sbind_inr in H as (a & E & H)
  | rbind ?m _ = Ok _ =>
      let a := fresh "a" in let E := fresh "E" in
      destruct m as [a|] eqn:E; [cbn [rbind] in H|done]
  end.

Section proofs.
Context `{!SymbolStore}.
Context (sha1 : bytes → bytes) (h : host).
Context (compile : disk → gmap bytes bytes → TuTarget → Z * bytes).
Context (clang_format_cleanup : bytes → bytes → list Removal → result bytes).
Context (sys : bytes → syscalls).
Context (list_files : list (Z * bytes)) (get_file : bytes → option Z) (db : IncludeDb).
Context (plan : CleanupPlan) (opts : ExecuteOptions).

(** The item names a file of the repository whose hash the plan has, and the
    file has the reviewed directive at the item's range. *)
Record checked_item (d : disk) (it : PlanItem) (r : Removal) : Prop := {
  ck_state : state it = Accepted;
  ck_selected : only opts = [] ∨ id it ∈ only opts;
  ck_inside : within_repo (file it) = true;
  ck_hashed : is_Some (file_hashes plan !! file it);
  ck_removal : r = Removal_ (PathUtil.join (repo_root plan) [file it]) (begin_offset it) (end_offset it);
  ck_range : 0 <= begin_offset it ∧ end_offset it <= Z.of_nat (length (read_file d (rm_path r)));
  ck_text : substr (read_file d (rm_path r)) (begin_offset it) (end_offset it - begin_offset it)
            = Ok (directive_text it)
}.

(** Every proof that stands before a write. *)
Record prepared (d : disk) (l : list PlanItem) (removals : list Removal) (targets : list TuTarget)
    (finals : gmap bytes bytes) : Prop := {
  pr_fresh : staleness_reasons (hash_file sha1 (λ p, d !! p)) plan kSchemaVersion = [];
  pr_chosen : l = chosen_items plan opts;
  pr_items : Forall2 (checked_item d) l removals;
  pr_rederived : ∃ fresh,
    analyze sha1 d h list_files get_file db (AnalysisOptions_ (touched removals) true true) = Ok fresh ∧
    ∀ it, it ∈ l → still_removable (candidates_by_id (candidates fresh)) it = true;
  pr_targets : ∃ tss, targets = unique_targets (sort target_ltb (mjoin tss)) ∧
    Forall2 (λ f ts, targets_of list_files get_file db f = Ok (Some ts)) (touched removals) tss;
  pr_configs : ∀ t, t ∈ targets → config_digest t ∈ config_digests plan;
  pr_combined : all_ok (validate compile d targets (overlay_for d removals) (bs "combined")) = true;
  pr_finals f out : finals !! f = Some out ↔
    f ∈ touched removals ∧ clang_format_cleanup f (read_file d f) (of_file f removals) = Ok out;
  pr_dom f : f ∈ touched removals → is_Some (finals !! f);
  pr_preflight : all_ok (validate compile d targets finals (bs "preflight")) = true
}.

Lemma check_item_inr d it r :
  chosen opts it = true → check_item plan d it = Ok (inr r) → checked_item d it r.
Proof.
  unfold chosen. intros [Hst%bool_decide_eq_true Hsel]%andb_prop.
  rewrite orb_true_iff, !bool_decide_eq_true in Hsel. unfold check_item.
  destruct (within_repo (file it)) eqn:Hw; [cbn [negb]|done].
  case_bool_decide as Hh; [cbn [negb]|done].
  destruct (Z.ltb_spec (Z.of_nat (length (read_file d (PathUtil.join (repo_root plan) [file it])))) (end_offset it)); [done|].
  destruct (substr _ _ _) as [text|] eqn:Es; [cbn [rbind]|done]. case_bool_decide as Ht; [|done].
  intros [= <-]. subst text. split; cbn [rm_path]; try done. split; [|done].
  unfold substr in Es. destruct (Z.ltb_spec (begin_offset it) 0); done.
Qed.

Lemma final_buffers_inr d removals records files finals :
  final_buffers clang_format_cleanup plan opts d removals records files = Ok (inr finals) →
  (∀ f out, finals !! f = Some out ↔
    f ∈ files ∧ clang_format_cleanup f (read_file d f) (of_file f removals) = Ok out) ∧
  (∀ f, f ∈ files → is_Some (finals !! f)).
Proof.
  revert finals. induction files as [|g files IH]; intros finals; cbn [final_buffers].
  { intros [= <-]. split; [intros f out; rewrite lookup_empty; set_solver|set_solver]. }
  destruct (clang_format_cleanup g _ _) as [out|] eqn:Eg; [|done].
  intros (rest & Er & [= <-])%sbind_inr. destruct (IH _ Er) as [H1 H2]. split.
  - intros f o. destruct (decide (f = g)) as [->|Hne].
    + rewrite lookup_insert_eq, Eg. set_solver.
    + rewrite lookup_insert_ne, H1, elem_of_cons by done. naive_solver.
  - intros f [->|Hf]%elem_of_cons; [rewrite lookup_insert_eq; eauto|].
    destruct (decide (f = g)) as [->|Hne]; [rewrite lookup_insert_eq; eauto|]. rewrite lookup_insert_ne by done. auto.
Qed.

Lemma failed_none what after records : failed_records what after records = [] → all_ok records = true.
Proof.
  unfold failed_records, all_ok. intros Hn%fmap_nil_inv. apply forallb_forall. intros v Hv%list_elem_of_In.
  destruct (ok v) eqn:E; [done|]. assert (v ∈ filter (λ v, ok v = false) records) as Hin
    by by apply list_elem_of_filter.
  rewrite Hn in Hin. by apply elem_of_nil in Hin.
Qed.

Lemma check_fresh_inr d u :
  check_fresh sha1 plan d = Ok (inr u) → staleness_reasons (hash_file sha1 (λ p, d !! p)) plan kSchemaVersion = [].
Proof. unfold check_fresh. by destruct (staleness_reasons _ _ _). Qed.

Lemma select_items_inr l :
  select_items plan opts = Ok (inr l) → l = chosen_items plan opts.
Proof.
  unfold select_items. intros (u & _ & E)%sbind_inr. destruct (chosen_items plan opts); [done|]. by injection E.
Qed.

Lemma check_items_inr d removals :
  check_items plan opts d (chosen_items plan opts) = Ok (inr removals) →
  Forall2 (checked_item d) (chosen_items plan opts) removals.
Proof.
  unfold check_items. intros E. stage_inv E. injection E as <-. apply unless_refused_inr in E1.
  eapply Forall2_elem; [exact (checked_all _ _ _ E0 E1)|].
  intros it r Hit. apply check_item_inr. by apply list_elem_of_filter in Hit as [? _].
Qed.

Lemma rederive_inr d l removals u :
  rederive sha1 h list_files get_file db plan opts d l removals = Ok (inr u) →
  ∃ fresh, analyze sha1 d h list_files get_file db (AnalysisOptions_ (touched removals) true true) = Ok fresh ∧
    ∀ it, it ∈ l → still_removable (candidates_by_id (candidates fresh)) it = true.
Proof.
  unfold rederive. intros E. stage_inv E. exists a. split; [done|]. intros it Hit.
  apply unless_refused_inr, fmap_nil_inv in E. apply not_false_iff_true. intros Hf.
  assert (it ∈ filter (λ it, still_removable (candidates_by_id (candidates a)) it = false) l) as Hin
    by by apply list_elem_of_filter.
  rewrite E in Hin. by apply elem_of_nil in Hin.
Qed.

Lemma all_targets_inr removals targets :
  all_targets list_files get_file db plan opts removals = Ok (inr targets) →
  ∃ tss, targets = unique_targets (sort target_ltb (mjoin tss)) ∧
    Forall2 (λ f ts, targets_of list_files get_file db f = Ok (Some ts)) (touched removals) tss.
Proof.
  unfold all_targets. intros E. stage_inv E. injection E as <-. apply unless_refused_inr in E1.
  exists (rights a). split; [done|]. eapply Forall2_impl; [by eapply checked_all|].
  intros f ts Hf. unfold file_targets in Hf. destruct (targets_of _ _ _ f) as [[x|]|]; [|done..].
  by injection Hf as ->.
Qed.

Lemma check_configs_inr targets u :
  check_configs plan opts targets = Ok (inr u) → ∀ t, t ∈ targets → config_digest t ∈ config_digests plan.
Proof.
  unfold check_configs. destruct (forallb _ _) eqn:E; [|done]. intros _ t Ht. rewrite forallb_forall in E.
  apply list_elem_of_In in Ht. by apply E, bool_decide_eq_true in Ht.
Qed.

Lemma prove_combined_inr d removals targets records :
  prove_combined compile plan opts d removals targets = Ok (inr records) →
  all_ok (validate compile d targets (overlay_for d removals) (bs "combined")) = true.
Proof. unfold prove_combined. by destruct (all_ok _). Qed.

Lemma preflight_inr d targets finals records records' :
  preflight compile plan opts d targets finals records = Ok (inr records') →
  all_ok (validate compile d targets finals (bs "preflight")) = true.
Proof. unfold preflight. intros (u & E%unless_refused_inr%failed_none & _)%sbind_inr. done. Qed.

Lemma prepare_prepared d l removals targets finals records :
  prepare sha1 h compile clang_format_cleanup list_files get_file db plan opts d
    = Ok (inr (l, removals, targets, finals, records)) →
  prepared d l removals targets finals.
Proof.
  unfold prepare. intros E. stage_inv E. injection E as -> -> -> -> _.
  apply check_fresh_inr in E0. apply select_items_inr in E1 as ->. apply check_items_inr in E2.
  apply rederive_inr in E3. apply all_targets_inr in E4. apply prove_combined_inr in E6.
  apply final_buffers_inr in E7 as [Hf Hd]. apply preflight_inr in E8.
  split; try done. by eapply check_configs_inr.
Qed.

(** A new file that a failed replacement left: the temporary sibling of a file,
    which [::unlink] refused to remove. *)
Definition leftover (d : disk) (p : bytes) : Prop :=
  d !! p = None ∧ ∃ q, sys_mkstemp (sys q) = Some p ∧ sys_unlink (sys q) = false.

(** Writing files that are there, one after the other. *)
Lemma write_files_disk files : ∀ d edited d' err,
  (∀ p, answers_about d (sys p) p) → write_files sys d files = (edited, d', err) →
  (∀ p, d' !! p = d !! p ∨ (∃ out, (p, out) ∈ files ∧ d' !! p = Some out) ∨ (err ≠ None ∧ leftover d p)) ∧
  (err = None → ∀ p, answers_about d' (sys p) p).
Proof.
  induction files as [|[path out] files IH]; intros d edited d' err Ha; cbn [write_files].
  { intros [= _ <- _]. split; [by left|done]. }
  destruct (write_atomic (sys path) path out d) as [[states d1] err1] eqn:E1.
  destruct (write_atomic_final _ _ _ _ _ _ _ (Ha path) E1) as [(links & -> & -> & Hl & _)|(why & -> & Hwhy)].
  2:{ intros [= _ <- <-]. split; [|done]. intros p. destruct Hwhy as [->|(tmp & n & Ht & Hu & ->)]; [by left|].
      destruct (decide (p = tmp)) as [->|Hne]; [|left; by apply lookup_insert_ne].
      right; right. split; [done|]. split; [by apply (Ha path)|eauto]. }
  destruct (Ha path) as [Hst Hnew]. destruct (Hst _ Hl) as [old Hold].
  assert (∀ p, answers_about (<[path := out]> d) (sys p) p) as Ha1.
  { intros p. destruct (Ha p) as [H1 H2]. split.
    - intros st Hst'. apply lookup_insert_is_Some'. right. by eapply H1.
    - intros tmp Ht. destruct (decide (tmp = path)) as [->|Hne]; [by rewrite (H2 _ Ht) in Hold|].
      rewrite lookup_insert_ne by done. by apply H2. }
  destruct (write_files sys _ files) as [[ed d2] err2] eqn:E2. intros [= _ <- <-].
  destruct (IH _ _ _ _ Ha1 E2) as [Hd Ha2]. split; [|done]. intros p.
  destruct (Hd p) as [Hp|[(o & Hin & Hp)|(He & Hp & Hq)]].
  - destruct (decide (p = path)) as [->|Hne].
    + right; left. exists out. rewrite Hp, lookup_insert_eq. split; [by left|done].
    + left. by rewrite Hp, lookup_insert_ne.
  - right; left. exists o. split; [by right|done].
  - right; right. apply lookup_insert_None in Hp as [Hp _]. done.
Qed.

(** C1: Nothing is written before it is proved.  When execution changes the disk,
    the plan was fresh, every item applied is an accepted and selected one whose
    file lies in the repository, is recorded with its hash and has the reviewed
    bytes at its range, the index still reports it removable, every affected unit
    has a configuration the plan was reviewed against, and compiled both with the
    directives cut and with the very buffers written; and each file is as before
    or has its proved buffer.  Nothing else appears but a temporary sibling, in
    whose place no file was, which a failed replacement could not unlink.  In every
    other case, refusals and the dry run included, disk and index are untouched. *)
Theorem writes_are_proved w res w' :
  (∀ p, answers_about (w_disk w) (sys p) p) →
  execute sha1 h compile clang_format_cleanup sys list_files get_file db plan opts w = Ok (res, w') →
  w' = w ∨
  ∃ l removals targets finals, dry_run opts = false ∧
    prepared (w_disk w) l removals targets finals ∧
    ∀ p, w_disk w' !! p = w_disk w !! p ∨ (∃ out, finals !! p = Some out ∧ w_disk w' !! p = Some out) ∨
      (x_ok res = false ∧ leftover (w_disk w) p).
Proof.
  intros Ha. unfold execute.
  destruct (prepare _ _ _ _ _ _ _ _ _ _) as [[r|[[[[l removals] targets] finals] records]]|] eqn:Ep; [|..|done].
  { intros [= _ <-]. by left. }
  cbn [rbind]. destruct (dry_run opts) eqn:Edry; [intros [= _ <-]; by left|].
  destruct (write_files sys (w_disk w) (in_order finals)) as [[edited d'] err] eqn:Ew. intros E. right.
  exists l, removals, targets, finals. split_and!; [done|by eapply prepare_prepared|].
  assert (w_disk w' = d' ∧ (err ≠ None → x_ok res = false)) as [-> Hok].
  { destruct err; [by injection E as <- <-|]. destruct (failed_records _ _ _) eqn:Ef; [|by injection E as <- <-].
    destruct (stale_files _ _ _ _); [|done]. by injection E as <- <-. }
  intros p. destruct (write_files_disk _ _ _ _ _ Ha Ew) as [Hd _].
  destruct (Hd p) as [?|[(out & Hin & ?)|[He ?]]]; [by left| |by auto]. right; left. exists out. split; [|done].
  by apply elem_of_in_order.
Qed.

(** ** Execution succeeds *)

(** The system calls that replace the file succeed, whatever the short writes
    and interruptions. *)
Record willing (sys : syscalls) : Prop := {
  will_lstat : ∃ links, sys_lstat sys = Some (false, links) ∧ links <= 1;
  will_mkstemp : is_Some (sys_mkstemp sys);
  will_writes : WriteFailed ∉ sys_writes sys;
  will_flags : sys_fsync sys && sys_fchmod sys && sys_close sys && sys_rename sys = true
}.

Lemma write_all_willing answers content off :
  WriteFailed ∉ answers → (write_all answers content off).1 = true.
Proof.
  revert off. induction answers as [|[n| |] answers IH]; intros off; cbn [write_all];
    (destruct (off <? length content)%nat; [|done]); [done|..]; rewrite not_elem_of_cons; intros [? Hn].
  - specialize (IH (off + n `min` (length content - off))%nat Hn). by destruct (write_all _ _ _).
  - by apply IH.
  - done.
Qed.

Lemma write_atomic_willing sys0 path content d :
  answers_about d sys0 path → willing sys0 →
  ∃ states, write_atomic sys0 path content d = (states, <[path := content]> d, None).
Proof.
  intros Ha [(links & Hl & Hle) [tmp Ht] Hw Hflags].
  destruct (write_atomic sys0 path content d) as [[states d'] err] eqn:E.
  destruct (write_atomic_final _ _ _ _ _ _ _ Ha E) as [(? & -> & -> & _)|(why & -> & _)]; [eauto|].
  exfalso. unfold write_atomic in E. rewrite Hl, Ht in E. destruct (Z.ltb_spec 1 links); [lia|].
  pose proof (write_all_willing _ content 0 Hw) as Hok. destruct (write_all _ _ _) as [o cs]. cbn in Hok. subst o.
  apply andb_prop in Hflags as [[[Hf1 Hf2]%andb_prop Hf3]%andb_prop Hf4].
  rewrite Hf1, Hf2, Hf3, Hf4 in E. by cbn [negb] in E.
Qed.

Lemma write_files_willing files : ∀ d,
  (∀ p, answers_about d (sys p) p) → (∀ p, p ∈ files.*1 → willing (sys p)) →
  write_files sys d files = (files.*1, insert_all d files, None).
Proof.
  induction files as [|[path out] files IH]; intros d Ha Hw; [done|]. cbn [write_files].
  assert (willing (sys path)) as Hp by (apply Hw; by left).
  destruct (write_files sys d [(path, out)]) as [[ed d1] err1] eqn:E1.
  destruct (write_files_disk _ _ _ _ _ Ha E1) as [_ Ha1].
  destruct (write_atomic_willing _ _ out _ (Ha path) Hp) as [states Ew].
  cbn [write_files] in E1. rewrite Ew in *. injection E1 as <- <- <-.
  rewrite IH; [done|by apply Ha1|]. intros p Hin. apply Hw. by right.
Qed.

Lemma insert_all_union (m : gmap bytes bytes) (d : disk) : insert_all d (in_order m) = m ∪ d.
Proof.
  assert (NoDup (in_order m).*1) as Hnd by (rewrite keys_in_order; apply NoDup_set_list).
  apply map_eq. intros k. rewrite insert_all_lookup by done.
  assert ((list_to_map (in_order m) : gmap bytes bytes) !! k = m !! k) as ->.
  { rewrite <- (insert_all_in_order m) at 2. rewrite insert_all_lookup, lookup_empty by done.
    by destruct (list_to_map (in_order m) !! k). }
  rewrite lookup_union. by destruct (m !! k), (d !! k).
Qed.

Lemma unique_targets_sub l : unique_targets l ⊆ l.
Proof.
  induction l as [|x l IH]; [done|]. destruct l as [|y l]; [done|].
  change (unique_targets (x :: y :: l)) with
    (if bool_decide (tgt_path x = tgt_path y) && bool_decide (config_digest x = config_digest y)
     then match unique_targets (y :: l) with _ :: tl => x :: tl | [] => [x] end
     else x :: unique_targets (y :: l)).
  destruct (_ && _); [|set_solver]. destruct (unique_targets (y :: l)); set_solver.
Qed.

Lemma all_ok_none what after records : all_ok records = true → failed_records what after records = [].
Proof.
  unfold failed_records, all_ok. intros Hall. rewrite forallb_forall in Hall.
  assert (filter (λ v, ok v = false) records = []) as ->; [|done]. apply elem_of_nil_inv.
  intros v [Hv Hin%list_elem_of_In]%list_elem_of_filter. by rewrite (Hall v Hin) in Hv.
Qed.

Lemma all_ok_stage d d' edited edited' targets st st' :
  (∀ t, compile d edited t = compile d' edited' t) →
  all_ok (validate compile d targets edited st) = all_ok (validate compile d' targets edited' st').
Proof.
  intros Hc. unfold all_ok, validate. induction targets as [|t targets IH]; [done|].
  rewrite !fmap_cons. cbn [forallb]. rewrite IH. f_equal. unfold validate_one. rewrite Hc.
  by destruct (compile d' edited' t).
Qed.

Lemma Forall2_mapR {A B} (f : A → result B) l k : Forall2 (λ a b, f a = Ok b) l k → mapR f l = Ok k.
Proof. induction 1 as [|a b l k Hab _ IH]; cbn [mapR]; [done|]. by rewrite Hab, IH. Qed.

(** C3: Once everything is proved, only the operating system can stop an edit.
    When Clang sees an overlay as it would see the files and every replacement
    goes through, whatever the short writes and interruptions, execution ends
    with success: it has written the proved buffers to exactly the touched files,
    the validation of the written tree cannot fail, and the rows of every touched
    file and of every unit compiled for it are marked for indexing. *)
Theorem proved_plan_applied w l removals targets finals records :
  (∀ d edited t, compile d edited t = compile (edited ∪ d) ∅ t) →
  (∀ p, answers_about (w_disk w) (sys p) p) →
  (∀ p, p ∈ touched removals → willing (sys p)) → dry_run opts = false →
  prepare sha1 h compile clang_format_cleanup list_files get_file db plan opts (w_disk w)
    = Ok (inr (l, removals, targets, finals, records)) →
  ∃ res w', execute sha1 h compile clang_format_cleanup sys list_files get_file db plan opts w = Ok (res, w') ∧
    x_ok res = true ∧ x_refusals res = [] ∧ x_removed res = length l ∧
    x_edited_files res = touched removals ∧ w_disk w' = finals ∪ w_disk w ∧
    ∀ f i, f ∈ touched removals ∨ f ∈ tgt_path <$> targets → get_file f = Some i →
      f ∈ x_reindexed res ∧ i ∉ w_indexed w'.
Proof.
  intros Hview Ha Hwill Hdry Ep. unfold execute. rewrite Ep. cbn [rbind]. rewrite Hdry.
  apply prepare_prepared in Ep as [_ _ _ _ (tss & -> & Htss) _ _ Hfin Hdom Hpre].
  assert ((in_order finals).*1 = touched removals) as Hkeys.
  { rewrite keys_in_order. apply (strict_unique bytes_ltb); [apply set_list_strict|apply sort_unique_strict, _|].
    intros p. rewrite elem_of_set_list, elem_of_dom. split; [|by auto]. intros [out Hout]. by apply Hfin in Hout as [? _]. }
  rewrite write_files_willing; [|done|by rewrite Hkeys]. rewrite insert_all_union, Hkeys.
  rewrite all_ok_none.
  2:{ rewrite <- Hpre. symmetry. apply all_ok_stage. intros t. by rewrite Hview. }
  unfold stale_files. rewrite (Forall2_mapR _ _ (Some <$> tss)) by by apply Forall2_fmap_r.
  cbn [rbind]. assert (default [] <$> (Some <$> tss) = tss) as ->.
  { rewrite <- list_fmap_compose. apply list_fmap_id. }
  do 2 eexists. split; [done|]. cbn [x_ok x_refusals x_removed x_edited_files x_reindexed w_disk w_indexed].
  split_and!; [done..|]. intros f i Hf Hi.
  assert ((f, i) ∈ omap (λ f, pair f <$> get_file f)
            (sort_unique bytes_ltb (touched removals ++ (tgt_path <$> mjoin tss)))) as Hin.
  { apply list_elem_of_omap. exists f. rewrite Hi. split; [|done]. apply elem_of_sort_unique.
    apply elem_of_app. destruct Hf as [?|(t & -> & Ht%unique_targets_sub)%list_elem_of_fmap]; [by left|].
    right. apply list_elem_of_fmap_2. revert Ht. unfold sort. by rewrite (merge_sort_Permutation _). }
  split; [by apply (list_elem_of_fmap_2 fst) in Hin|].
  apply (list_elem_of_fmap_2 snd) in Hin. cbn in Hin. rewrite elem_of_difference, elem_of_list_to_set. tauto.
Qed.
End proofs.

(** ** Witnesses *)

Definition sample_sys (path : bytes) : syscalls :=
  if bool_decide (path = bs "/b.cpp")
  then Syscalls (Some (false, 1)) (Some (bs "/.cidx-apply-x")) [Interrupted; Wrote 3] true true true true true
  else Syscalls None None [] true true true true true.

Definition sample_cleanup (_ original : bytes) (removals : list Removal) : result bytes :=
  Ok (apply_removals original removals).

Definition built_plan : CleanupPlan :=
  match sample_build with
  | Ok p => p
  | Err _ => Plan 1 [] [] 0 [] [] ∅ [] [] []
  end.

Definition sample_world : world := World sample_disk {[2]}.

Definition sample_prepare :=
  @prepare sample_symbols (@reverse ascii) sample_host sample_compile sample_cleanup sample_list sample_get
    repeated_db built_plan (ExecuteOptions_ false []) sample_disk.

(** What the sample execution prepares. *)
Definition sample_ready :=
  match sample_prepare with
  | Ok (inr ready) => ready
  | _ => ([], [], [], ∅, [])
  end.

Lemma sample_prepared : sample_prepare = Ok (inr sample_ready).
Proof. vm_compute. reflexivity. Qed.

Lemma sample_answers p : answers_about (w_disk sample_world) (sample_sys p) p.
Proof.
  unfold sample_sys. case_bool_decide as Hp; [subst p|by split].
  split; [intros st _; by eexists|by intros tmp [= <-]].
Qed.

Lemma sample_willing p : p ∈ touched sample_ready.1.1.1.2 → willing (sample_sys p).
Proof.
  assert (touched sample_ready.1.1.1.2 = [bs "/b.cpp"]) as -> by (vm_compute; reflexivity).
  intros ->%list_elem_of_singleton. split; [by exists 1|by eexists| |done].
  change (sys_writes _) with [Interrupted; Wrote 3]. rewrite !not_elem_of_cons. split_and!; [done|done|apply not_elem_of_nil].
Qed.

Lemma sample_view (d : disk) (edited : gmap bytes bytes) t :
  sample_compile d edited t = sample_compile (edited ∪ d) ∅ t.
Proof. unfold sample_compile. by rewrite map_empty_union. Qed.

Lemma proved_plan_applied_witness : ∃ res w',
  @execute sample_symbols (@reverse ascii) sample_host sample_compile sample_cleanup sample_sys sample_list
    sample_get repeated_db built_plan (ExecuteOptions_ false []) sample_world = Ok (res, w') ∧
  x_ok res = true ∧ x_removed res = 2%nat ∧ 2 ∉ w_indexed w'.
Proof.
  assert (length sample_ready.1.1.1.1 = 2%nat) as Hl by (vm_compute; reflexivity).
  assert (bs "/b.cpp" ∈ touched sample_ready.1.1.1.2) as Hin
    by (apply (bool_decide_eq_true_1 _); vm_compute; reflexivity).
  pose proof sample_prepared as Hp. pose proof sample_willing as Hw.
  destruct sample_ready as [[[[l rs] ts] fs] recs]. cbn [fst snd] in *.
  destruct (@proved_plan_applied sample_symbols (@reverse ascii) sample_host sample_compile sample_cleanup
    sample_sys sample_list sample_get repeated_db built_plan (ExecuteOptions_ false []) sample_world
    l rs ts fs recs sample_view sample_answers Hw eq_refl Hp) as (res & w' & E & Hok & _ & Hrem & _ & _ & Hmark).
  exists res, w'. split_and!; [exact E|exact Hok|congruence|].
  apply (Hmark (bs "/b.cpp") 2); [by left|]. vm_compute. reflexivity.
Defined.

(** The sample disk changes, and so what was written had been proved. *)
Lemma writes_are_proved_witness : ∃ res w' l removals targets finals,
  @execute sample_symbols (@reverse ascii) sample_host sample_compile sample_cleanup sample_sys sample_list
    sample_get repeated_db built_plan (ExecuteOptions_ false []) sample_world = Ok (res, w') ∧
  w_disk w' !! bs "/b.cpp" = Some (bs "int main() {}") ∧
  @prepared sample_symbols (@reverse ascii) sample_host sample_compile sample_cleanup sample_list sample_get
    repeated_db built_plan (ExecuteOptions_ false []) sample_disk l removals targets finals.
Proof.
  destruct (@execute sample_symbols (@reverse ascii) sample_host sample_compile sample_cleanup sample_sys
    sample_list sample_get repeated_db built_plan (ExecuteOptions_ false []) sample_world)
    as [[res w']|] eqn:E; [|vm_compute in E; done].
  assert (w_disk w' !! bs "/b.cpp" = Some (bs "int main() {}")) as Hw.
  { transitivity (match @execute sample_symbols (@reverse ascii) sample_host sample_compile sample_cleanup sample_sys
      sample_list sample_get repeated_db built_plan (ExecuteOptions_ false []) sample_world with
      | Ok (_, w) => w_disk w !! bs "/b.cpp" | Err _ => None end); [by rewrite E|vm_compute; reflexivity]. }
  destruct (@writes_are_proved sample_symbols (@reverse ascii) sample_host sample_compile sample_cleanup
    sample_sys sample_list sample_get repeated_db built_plan (ExecuteOptions_ false []) sample_world res w'
    sample_answers E) as [->|(l & rs & ts & fs & _ & Hp & _)].
  - exfalso. vm_compute in Hw. discriminate Hw.
  - exists res, w', l, rs, ts, fs. split; [reflexivity|]. split; [exact Hw|exact Hp].
Defined.

(** A write that fails after another went through: an error with an edited
    file. *)
Example partial_write :
  let sys p := if bool_decide (p = bs "/a") then Syscalls (Some (false, 1)) (Some (bs "/.t")) [] true true true true true
               else Syscalls (Some (false, 2)) None [] true true true true true in
  let d := <[bs "/a" := bs "1"]> (<[bs "/b" := bs "2"]> ∅) in
  let '(edited, d', err) := write_files sys d [(bs "/a", bs "x"); (bs "/b", bs "y")] in
  edited = [bs "/a"] ∧ is_Some err ∧ d' !! bs "/a" = Some (bs "x").
Proof. vm_compute. split; [reflexivity|]. split; [by eexists|reflexivity]. Qed.

(** A short write, then a failing [::write], then a failing [::unlink]: the source
    file is intact and the temporary sibling stays behind. *)
Example temporary_left_behind :
  let sys := Syscalls (Some (false, 1)) (Some (bs "/.t")) [Wrote 2; WriteFailed] true true true true false in
  let d := <[bs "/a" := bs "old"]> ∅ in
  write_atomic sys (bs "/a") (bs "new!") d =
    ([<[bs "/.t" := []]> d; <[bs "/.t" := bs "ne"]> d], <[bs "/.t" := bs "ne"]> d, Some (bs "write failed: /.t")).
Proof. reflexivity. Qed.
