(* ===== verification/DiffSyntax.v ===== *)
(** * The syntax model and the edit script of cidx-diff

    [diff/syntax_ir.hpp], the sealing of fingerprints of [diff/analyze.cpp] and
    the edit script of [diff/compare.cpp]: [SynNode], [EditOp], the capped sink
    [OpSink], the longest common subsequence [lcs_pairs] that anchors the
    children, and the mutually recursive [diff_node], [diff_children] and
    [diff_gap].  SHA-1 is an argument of the sealing; [int] counters stay below
    the cap, and list positions are [nat]. *)

From S2P Require Export Bytes.
From S2P Require Import Hashing.
Open Scope Z_scope.

(** ** Data *)

Record SrcRange := mkRange { sr_line : Z; sr_col : Z; sr_end_line : Z; sr_end_col : Z }.

Inductive SynNode := mkSyn {
  sn_kind : bytes;
  sn_label : bytes;
  sn_detail : bytes;
  sn_range : SrcRange;
  sn_children : list SynNode;
  sn_fingerprint : bytes
}.

Record EditOp := mkOp {
  eo_op : bytes;
  eo_node : bytes;
  eo_detail : bytes;
  eo_left_range : option SrcRange;
  eo_right_range : option SrcRange
}.

#[export] Instance SrcRange_inhabited : Inhabited SrcRange := populate (mkRange 0 0 0 0).
#[export] Instance SynNode_inhabited : Inhabited SynNode :=
  populate (mkSyn [] [] [] inhabitant [] []).

Definition kLcsLimit : nat := 512.
Definition kEditCap : Z := 1000.

(** Induction over the tree, with the hypothesis for every child. *)
Section syn_ind.
Variable P : SynNode → Prop.
Hypothesis P_node : ∀ k l d r cs f, Forall P cs → P (mkSyn k l d r cs f).

Fixpoint SynNode_tree_ind (n : SynNode) : P n :=
  match n with
  | mkSyn k l d r cs f =>
      P_node k l d r cs f
        ((fix go (cs : list SynNode) : Forall P cs :=
            match cs with
            | [] => Forall_nil_2 P
            | c :: cs => Forall_cons_2 P c cs (SynNode_tree_ind c) (go cs)
            end) cs)
  end.
End syn_ind.

(** ** Sealing *)

Definition us : ascii := "031"%char.
Definition rs : ascii := "030"%char.

(** The bytes [seal] hashes. *)
Definition seal_message (kind label : bytes) (children : list bytes) : bytes :=
  kind ++ [us] ++ label ++ concat ((λ f, rs :: f) <$> children).

Definition seal (sha1 : bytes → bytes) (n : SynNode) : SynNode :=
  mkSyn (sn_kind n) (sn_label n) (sn_detail n) (sn_range n) (sn_children n)
    (digest_to_hex (sha1 (seal_message (sn_kind n) (sn_label n) (sn_fingerprint <$> sn_children n)))).

(** The label of the node itself is left out. *)
Definition structural_fingerprint (sha1 : bytes → bytes) (n : SynNode) : bytes :=
  digest_to_hex (sha1 (sn_kind n ++ concat ((λ f, rs :: f) <$> (sn_fingerprint <$> sn_children n)))).

(** A tree built by sealing each node once its children are sealed. *)
Fixpoint sealed (sha1 : bytes → bytes) (n : SynNode) : Prop :=
  sn_fingerprint n = sn_fingerprint (seal sha1 n) ∧
  (fix go (cs : list SynNode) : Prop :=
     match cs with [] => True | c :: cs => sealed sha1 c ∧ go cs end) (sn_children n).

Lemma sealed_unfold sha1 n :
  sealed sha1 n ↔ sn_fingerprint n = sn_fingerprint (seal sha1 n) ∧ Forall (sealed sha1) (sn_children n).
Proof.
  destruct n as [k l d r cs f]. simpl. apply and_iff_compat_l.
  induction cs as [|c cs IH]; [done|]. by rewrite Forall_cons, IH.
Qed.

(** ** The sink *)

Record OpSink := mkSink { sk_ops : list EditOp; sk_total : Z; sk_truncated : bool }.

Definition sink_add (s : OpSink) (op : EditOp) : OpSink :=
  if kEditCap <=? sk_total s then mkSink (sk_ops s) (sk_total s) true
  else mkSink (sk_ops s ++ [op]) (sk_total s + 1) (sk_truncated s).

Definition describe (n : SynNode) : bytes :=
  match sn_detail n with [] => sn_kind n | d => d end.

Definition arrow_str : bytes := bs " -> ".

(** A shared leading word, up to the first blank of [l], is not repeated. *)
Definition merged_detail (l r : bytes) : bytes :=
  match break_at " " l with
  | Some (word, _) =>
      let sp := length word in
      if (sp <? length r)%nat && bool_decide (take (S sp) r = take (S sp) l)
      then l ++ arrow_str ++ drop (S sp) r
      else l ++ arrow_str ++ r
  | None => l ++ arrow_str ++ r
  end.

Definition is_decl_name (detail : bytes) : bool := starts_with (bs "name ") detail.

Definition one_sided_op (n : SynNode) (left : bool) : EditOp :=
  mkOp (if left then bs "removed" else bs "added") (sn_kind n) (sn_detail n)
    (if left then Some (sn_range n) else None) (if left then None else Some (sn_range n)).

Definition one_sided (n : SynNode) (left : bool) (s : OpSink) : OpSink :=
  sink_add s (one_sided_op n left).

(** ** Longest common subsequence *)

Section lcs.
Variables l r : list SynNode.
Let n := length l.
Let m := length r.

Definition same_fingerprint (i j : nat) : bool :=
  bool_decide (sn_fingerprint (l !!! i) = sn_fingerprint (r !!! j)).

(** [at(i, j)] of the flat table. *)
Definition cell (i j : nat) : nat := (i * (m + 1) + j)%nat.
Definition dp_at (dp : list nat) (i j : nat) : nat := dp !!! cell i j.

Definition dp_cell (dp : list nat) (i j : nat) : nat :=
  if same_fingerprint i j then S (dp_at dp (S i) (S j))
  else Nat.max (dp_at dp (S i) j) (dp_at dp i (S j)).

(** One row, from the last column down. *)
Definition dp_row (i : nat) (dp : list nat) : list nat :=
  foldr (λ j dp, <[cell i j := dp_cell dp i j]> dp) dp (seq 0 m).

(** Every row, from the last one up. *)
Definition dp_table : list nat :=
  foldr dp_row (replicate ((n + 1) * (m + 1)) 0%nat) (seq 0 n).

(** [while (i < n && j < m)], which one of the indices of each round advances. *)
Fixpoint lcs_walk (fuel : nat) (dp : list nat) (i j : nat) : list (nat * nat) :=
  match fuel with
  | O => []
  | S fuel =>
      if (i <? n)%nat && (j <? m)%nat then
        if same_fingerprint i j then (i, j) :: lcs_walk fuel dp (S i) (S j)
        else if (dp_at dp i (S j) <=? dp_at dp (S i) j)%nat then lcs_walk fuel dp (S i) j
        else lcs_walk fuel dp i (S j)
      else []
  end.

Definition lcs_pairs : list (nat * nat) := lcs_walk (n + m) dp_table 0 0.
End lcs.

(** ** The edit script *)

(** [diff_gap] pairs the runs position by position, the surplus is removed or
    added.  [visit i] is [diff_node] of the left child at [i]. *)
Section gap.
Variable visit : nat → SynNode → OpSink → OpSink.
Variables l r : list SynNode.

Fixpoint gap_added (count rb : nat) (s : OpSink) : OpSink :=
  match count with
  | O => s
  | S count => gap_added count (S rb) (one_sided (r !!! rb) false s)
  end.

Fixpoint gap_removed (count lb : nat) (s : OpSink) : OpSink :=
  match count with
  | O => s
  | S count => gap_removed count (S lb) (one_sided (l !!! lb) true s)
  end.

Fixpoint gap_paired (nl nr lb rb : nat) (s : OpSink) : OpSink :=
  match nl, nr with
  | S nl, S nr => gap_paired nl nr (S lb) (S rb) (visit lb (r !!! rb) s)
  | nl, O => gap_removed nl lb s
  | O, nr => gap_added nr rb s
  end.

Definition diff_gap (lb le rb re : nat) (s : OpSink) : OpSink :=
  gap_paired (le - lb) (re - rb) lb rb s.

(** The runs before, between and after the anchors. *)
Fixpoint diff_anchors (pairs : list (nat * nat)) (i j : nat) (s : OpSink) : OpSink :=
  match pairs with
  | [] => diff_gap i (length l) j (length r) s
  | (ai, aj) :: pairs => diff_anchors pairs (S ai) (S aj) (diff_gap i ai j aj s)
  end.

Definition diff_children (s : OpSink) : OpSink :=
  if (kLcsLimit <? length l)%nat || (kLcsLimit <? length r)%nat
  then diff_gap 0 (length l) 0 (length r) s
  else diff_anchors (lcs_pairs l r) 0 0 s.
End gap.

Definition replaced_op (l r : SynNode) : EditOp :=
  mkOp (bs "replaced") (sn_kind l) (describe l ++ arrow_str ++ describe r)
    (Some (sn_range l)) (Some (sn_range r)).

Definition label_op (l r : SynNode) : EditOp :=
  let detail_differs := negb (bool_decide (sn_detail l = sn_detail r)) in
  if detail_differs && is_decl_name (sn_detail l) && is_decl_name (sn_detail r)
  then mkOp (bs "renamed") (sn_kind l) (merged_detail (sn_detail l) (sn_detail r))
         (Some (sn_range l)) (Some (sn_range r))
  else mkOp (bs "changed") (sn_kind l)
         (if detail_differs then merged_detail (sn_detail l) (sn_detail r)
          else sn_label l ++ arrow_str ++ sn_label r)
         (Some (sn_range l)) (Some (sn_range r)).

Fixpoint diff_node (l r : SynNode) (s : OpSink) {struct l} : OpSink :=
  if bool_decide (sn_fingerprint l = sn_fingerprint r) then s
  else if negb (bool_decide (sn_kind l = sn_kind r)) then sink_add s (replaced_op l r)
  else
    let s := if negb (bool_decide (sn_label l = sn_label r)) then sink_add s (label_op l r) else s in
    let visits := diff_node <$> sn_children l in
    diff_children (λ i, nth i visits (λ _ s, s)) (sn_children l) (sn_children r) s.

(** ** The alignment is a longest one

    [aligned l r i j ps]: the pairs of [ps] have the same fingerprint, are in
    range, and both their indices increase, from [i] and [j] on. *)

Fixpoint aligned (l r : list SynNode) (i j : nat) (ps : list (nat * nat)) : Prop :=
  match ps with
  | [] => True
  | (a, b) :: ps =>
      (i ≤ a < length l)%nat ∧ (j ≤ b < length r)%nat ∧
      same_fingerprint l r a b = true ∧ aligned l r (S a) (S b) ps
  end.

(** The length of a longest common subsequence, by its recursion equation. *)
Section lcs_length.
Context {A : Type} `{EqDecision A}.

Fixpoint lcs_length (s : list A) : list A → nat :=
  fix go (t : list A) : nat :=
    match s, t with
    | [], _ => 0%nat
    | _, [] => 0%nat
    | x :: s', y :: t' =>
        if decide (x = y) then S (lcs_length s' t') else Nat.max (lcs_length s' t) (go t')
    end.

Lemma lcs_length_nil_l t : lcs_length [] t = 0%nat.
Proof. by destruct t. Qed.

Lemma lcs_length_nil_r s : lcs_length s [] = 0%nat.
Proof. by destruct s. Qed.

Lemma lcs_length_cons x s y t :
  lcs_length (x :: s) (y :: t) =
  if decide (x = y) then S (lcs_length s t)
  else Nat.max (lcs_length s (y :: t)) (lcs_length (x :: s) t).
Proof. done. Qed.

(** One more element on one side adds at most one to the length. *)
Lemma lcs_length_step s t :
  (∀ x, lcs_length s t ≤ lcs_length (x :: s) t ≤ S (lcs_length s t))%nat
  ∧ (∀ y, lcs_length s t ≤ lcs_length s (y :: t) ≤ S (lcs_length s t))%nat.
Proof.
  revert t. induction s as [|a s IHs]; intros t.
  { split; [|intros y; rewrite !lcs_length_nil_l; lia].
    intros x. rewrite lcs_length_nil_l. induction t as [|b t IHt]; [rewrite lcs_length_nil_r; lia|].
    rewrite lcs_length_cons. case_decide; rewrite !lcs_length_nil_l; lia. }
  induction t as [|b t IHt].
  { split; [intros x; rewrite !lcs_length_nil_r; lia|].
    intros y. rewrite lcs_length_cons, !lcs_length_nil_r.
    destruct (IHs []) as [_ IH]. specialize (IH y). rewrite lcs_length_nil_r in IH.
    case_decide; lia. }
  destruct IHt as [IHl IHr]. destruct (IHs t) as [H1 H2]. destruct (IHs (b :: t)) as [H3 H4].
  split.
  - intros x. specialize (IHl x). specialize (IHr b). specialize (H3 a).
    rewrite (lcs_length_cons x). case_decide; lia.
  - intros y. specialize (IHr y). specialize (H4 y). specialize (H3 a). specialize (IHr).
    rewrite (lcs_length_cons a s y). case_decide; lia.
Qed.

Lemma lcs_length_drop s t i j :
  (lcs_length (drop i s) (drop j t) ≤ lcs_length s t)%nat.
Proof.
  assert (∀ k (u v : list A), lcs_length (drop k u) v ≤ lcs_length u v)%nat as Hl.
  { intros k u v. revert k. induction u as [|x u IH]; intros [|k]; try done.
    rewrite skipn_cons. etrans; [apply IH|]. apply (lcs_length_step u v). }
  assert (∀ k (u v : list A), lcs_length u (drop k v) ≤ lcs_length u v)%nat as Hr.
  { intros k u v. revert k. induction v as [|y v IH]; intros [|k]; try done.
    rewrite skipn_cons. etrans; [apply IH|]. apply (lcs_length_step u v). }
  etrans; [apply Hl|apply Hr].
Qed.
End lcs_length.

Lemma aligned_weaken l r i j i' j' ps :
  (i' ≤ i)%nat → (j' ≤ j)%nat → aligned l r i j ps → aligned l r i' j' ps.
Proof.
  destruct ps as [|[a b] ps]; [done|]. simpl. intros ?? (? & ? & ? & ?). split_and!; lia || done.
Qed.

Section lcs_proof.
Variables l r : list SynNode.
Let fps (l : list SynNode) : list bytes := sn_fingerprint <$> l.

(** The length the table holds at [(i, j)]. *)
Let best (i j : nat) : nat := lcs_length (drop i (fps l)) (drop j (fps r)).

Lemma drop_fps (k : list SynNode) i :
  (i < length k)%nat → drop i (fps k) = sn_fingerprint (k !!! i) :: drop (S i) (fps k).
Proof.
  intros Hi. apply drop_S. unfold fps. rewrite list_lookup_fmap.
  by rewrite (list_lookup_lookup_total_lt k i Hi).
Qed.

Lemma best_in i j :
  (i < length l)%nat → (j < length r)%nat →
  best i j = if same_fingerprint l r i j then S (best (S i) (S j))
             else Nat.max (best (S i) j) (best i (S j)).
Proof.
  intros Hi Hj. unfold best, same_fingerprint.
  rewrite (drop_fps l i Hi), (drop_fps r j Hj), lcs_length_cons.
  by case_decide; case_bool_decide.
Qed.

Lemma best_end i j : (length l ≤ i)%nat ∨ (length r ≤ j)%nat → best i j = 0%nat.
Proof.
  unfold best. intros [H|H].
  - rewrite drop_ge by (unfold fps; by rewrite length_fmap). apply lcs_length_nil_l.
  - rewrite (drop_ge (fps r)) by (unfold fps; by rewrite length_fmap). apply lcs_length_nil_r.
Qed.

Lemma best_mono i j i' j' : (i ≤ i')%nat → (j ≤ j')%nat → (best i' j' ≤ best i j)%nat.
Proof.
  intros Hi Hj. unfold best.
  replace i' with (i + (i' - i))%nat by lia. replace j' with (j + (j' - j))%nat by lia.
  rewrite <-!drop_drop. apply lcs_length_drop.
Qed.

(** No alignment is longer than the table says. *)
Lemma aligned_best i j ps : aligned l r i j ps → (length ps ≤ best i j)%nat.
Proof.
  revert i j. induction ps as [|[a b] ps IH]; intros i j; simpl; [lia|].
  intros (Ha & Hb & Hs & Hps). apply IH in Hps.
  etrans; [|apply (best_mono i j a b); lia].
  rewrite best_in, Hs by lia. lia.
Qed.
(** What the table holds once the rows from [i] on, and of row [i - 1] the
    cells from [j] on, are filled. *)
Let filled (i j : nat) (dp : list nat) : Prop :=
  length dp = ((length l + 1) * (length r + 1))%nat
  ∧ ∀ a b, (a ≤ length l)%nat → (b ≤ length r)%nat →
      (i ≤ a)%nat ∨ b = length r ∨ (S a = i ∧ j ≤ b)%nat → dp_at r dp a b = best a b.

Lemma cell_inj a b a' b' :
  (b ≤ length r)%nat → (b' ≤ length r)%nat → cell r a b = cell r a' b' → a = a' ∧ b = b'.
Proof. unfold cell. intros. assert (a = a') as -> by nia. split; [done|lia]. Qed.

Lemma dp_cell_filled i j dp :
  (i < length l)%nat → (j < length r)%nat → filled (S i) (S j) dp →
  filled (S i) j (<[cell r i j := dp_cell l r dp i j]> dp).
Proof.
  intros Hi Hj [Hlen Hdp]. split; [by rewrite length_insert|].
  intros a b Ha Hb Hab. unfold dp_at.
  destruct (decide (a = i ∧ b = j)) as [[-> ->]|Hne].
  - rewrite list_lookup_total_insert_eq by (rewrite Hlen; unfold cell; nia).
    unfold dp_cell. rewrite best_in by done.
    rewrite (Hdp (S i) (S j)) by lia.
    rewrite (Hdp (S i) j) by lia.
    rewrite (Hdp i (S j)) by lia. done.
  - rewrite list_lookup_total_insert_ne.
    + apply Hdp; [done|done|]. destruct Hab as [?|[?|[[= ->] ?]]]; [by left|by auto|].
      right; right. split; [done|]. destruct (decide (b = j)) as [->|]; [by destruct Hne|lia].
    + intros [-> ->]%cell_inj; [by apply Hne|lia|done].
Qed.

Lemma dp_table_filled : filled 0 (length r) (dp_table l r).
Proof.
  unfold dp_table. apply (foldr_seq_down (λ i dp, filled i (length r) dp)).
  - split; [by rewrite length_replicate|]. intros a b Ha Hb Hab.
    unfold dp_at. rewrite best_end by (destruct Hab as [?|[?|?]]; lia).
    apply list_lookup_total_correct, lookup_replicate_2. unfold cell. nia.
  - intros i dp Hi Hdp. assert (filled (S i) 0 (dp_row l r i dp)) as [Hlen Hrow].
    { unfold dp_row. apply (foldr_seq_down (λ j dp, filled (S i) j dp)); [done|].
      intros j dp' Hj. by apply dp_cell_filled. }
    split; [done|]. intros a b Ha Hb Hab. apply Hrow; [done..|]. lia.
Qed.

Lemma lcs_walk_spec dp fuel i j :
  filled 0 (length r) dp → (length l - i + (length r - j) ≤ fuel)%nat →
  aligned l r i j (lcs_walk l r fuel dp i j)
  ∧ length (lcs_walk l r fuel dp i j) = best i j.
Proof.
  intros [_ Hdp]. revert i j. induction fuel as [|fuel IH]; intros i j Hf; simpl.
  { rewrite best_end by lia. done. }
  destruct (Nat.ltb_spec i (length l)); simpl; [|rewrite best_end by lia; done].
  destruct (Nat.ltb_spec j (length r)); simpl; [|rewrite best_end by lia; done].
  rewrite best_in by done. destruct (same_fingerprint l r i j) eqn:E.
  - destruct (IH (S i) (S j)) as [Hal Hlen]; [lia|]. simpl. rewrite Hlen. by split_and!; try lia.
  - rewrite !Hdp by lia. destruct (Nat.leb_spec (best i (S j)) (best (S i) j)).
    + destruct (IH (S i) j) as [Hal Hlen]; [lia|]. rewrite Hlen. split; [|lia].
      eapply aligned_weaken; [| |exact Hal]; lia.
    + destruct (IH i (S j)) as [Hal Hlen]; [lia|]. rewrite Hlen. split; [|lia].
      eapply aligned_weaken; [| |exact Hal]; lia.
Qed.

Lemma lcs_pairs_spec : aligned l r 0 0 (lcs_pairs l r) ∧ length (lcs_pairs l r) = best 0 0.
Proof. apply lcs_walk_spec; [apply dp_table_filled|lia]. Qed.
End lcs_proof.

(** C31: [lcs_pairs] returns a common subsequence of the children's fingerprints,
    as index pairs that increase on both sides, and no common subsequence is
    longer; the flat table and the walk over it lose nothing. *)
Theorem lcs_pairs_longest l r :
  aligned l r 0 0 (lcs_pairs l r)
  ∧ ∀ ps, aligned l r 0 0 ps → (length ps ≤ length (lcs_pairs l r))%nat.
Proof.
  destruct (lcs_pairs_spec l r) as [Ha Hl]. split; [done|].
  intros ps Hps. rewrite Hl. by apply aligned_best.
Qed.

(** ** What the script says *)

(** [f] adds the operations [ops], in order, to whatever sink it is given. *)
Definition emits (f : OpSink → OpSink) (ops : list EditOp) : Prop :=
  ∀ s, f s = foldl sink_add s ops.

Lemma emits_none : emits (λ s, s) [].
Proof. done. Qed.

Lemma emits_one op : emits (λ s, sink_add s op) [op].
Proof. done. Qed.

Lemma emits_comp f g ops ops' :
  emits f ops → emits g ops' → emits (λ s, g (f s)) (ops ++ ops').
Proof. intros Hf Hg s. by rewrite foldl_app, <-Hf. Qed.

(** The sink keeps the first operations up to the cap. *)
Lemma sink_add_capped s ops :
  0 <= sk_total s <= kEditCap →
  foldl sink_add s ops =
    mkSink (sk_ops s ++ take (Z.to_nat (kEditCap - sk_total s)) ops)
      (Z.min kEditCap (sk_total s + Z.of_nat (length ops)))
      (sk_truncated s || (kEditCap <? sk_total s + Z.of_nat (length ops))).
Proof.
  revert s. induction ops as [|op ops IH]; intros [os t tr] Hs; cbn [sk_ops sk_total sk_truncated] in *.
  - cbn [foldl length Z.of_nat]. rewrite take_nil, app_nil_r, Z.add_0_r, Z.min_r by lia.
    replace (kEditCap <? t) with false by lia. by rewrite orb_false_r.
  - rewrite length_cons. cbn [foldl sink_add sk_total sk_ops sk_truncated].
    unfold sink_add at 2. cbn [sk_ops sk_total sk_truncated].
    destruct (Z.leb_spec kEditCap t).
    + rewrite IH by (simpl; lia). cbn [sk_ops sk_total sk_truncated].
      replace (Z.to_nat (kEditCap - t)) with 0%nat by lia. rewrite !take_0.
      destruct (Z.ltb_spec kEditCap (t + Z.of_nat (S (length ops)))); [|lia].
      rewrite orb_true_r. f_equal. lia.
    + rewrite IH by (simpl; lia). cbn [sk_ops sk_total sk_truncated].
      replace (Z.to_nat (kEditCap - t)) with (S (Z.to_nat (kEditCap - (t + 1)))) by lia.
      rewrite <-app_assoc. f_equal; [lia|]. do 2 f_equal. lia.
Qed.

Section gap_script.
Variable visit : nat → SynNode → OpSink → OpSink.
Variables l r : list SynNode.

(** What is known of the two sides, when the script says something. *)
Variable ok : Prop.

(** Children at positions that correspond have the same fingerprint. *)
Let agree (count lb rb : nat) : Prop :=
  ∀ k, (k < count)%nat → sn_fingerprint (l !!! (lb + k)%nat) = sn_fingerprint (r !!! (rb + k)%nat).

Hypothesis visit_emits : ∀ i j, (i < length l)%nat → (j < length r)%nat →
  ∃ ops, emits (visit i (r !!! j)) ops
    ∧ (ok → ops = [] → sn_fingerprint (l !!! i) = sn_fingerprint (r !!! j)).

Lemma gap_removed_emits count lb :
  ∃ ops, emits (gap_removed l count lb) ops ∧ (ops = [] → count = 0%nat).
Proof.
  revert lb. induction count as [|count IH]; intros lb; [by exists []|].
  destruct (IH (S lb)) as (ops & Hops & _). exists (one_sided_op (l !!! lb) true :: ops).
  split; [|done]. intros s. apply Hops.
Qed.

Lemma gap_added_emits count rb :
  ∃ ops, emits (gap_added r count rb) ops ∧ (ops = [] → count = 0%nat).
Proof.
  revert rb. induction count as [|count IH]; intros rb; [by exists []|].
  destruct (IH (S rb)) as (ops & Hops & _). exists (one_sided_op (r !!! rb) false :: ops).
  split; [|done]. intros s. apply Hops.
Qed.

Lemma gap_paired_emits nl nr lb rb :
  (lb + nl ≤ length l)%nat → (rb + nr ≤ length r)%nat →
  ∃ ops, emits (gap_paired visit l r nl nr lb rb) ops
    ∧ (ok → ops = [] → nl = nr ∧ agree nl lb rb).
Proof.
  revert nr lb rb. induction nl as [|nl IH]; intros [|nr] lb rb Hl Hr; simpl.
  - exists []. split; [done|]. intros _ _. split; [done|]. intros k Hk. lia.
  - destruct (gap_added_emits (S nr) rb) as (ops & Hops & Hn). exists ops. split; [done|].
    intros _ Ho. by apply Hn in Ho.
  - destruct (gap_removed_emits (S nl) lb) as (ops & Hops & Hn). exists ops. split; [done|].
    intros _ Ho. by apply Hn in Ho.
  - destruct (visit_emits lb rb) as (ops & Hops & Hv); [lia..|].
    destruct (IH nr (S lb) (S rb)) as (ops' & Hops' & Hp); [lia..|].
    exists (ops ++ ops'). split; [by apply emits_comp|].
    intros Hok [Ho Ho']%app_nil. apply Hv in Ho; [|done]. apply Hp in Ho' as [-> Ha]; [|done].
    split; [done|].
    intros [|k] Hk; [by rewrite !Nat.add_0_r|]. rewrite !Nat.add_succ_r.
    apply Ha. lia.
Qed.

Lemma diff_anchors_emits ps i j :
  aligned l r i j ps → (i ≤ length l)%nat → (j ≤ length r)%nat →
  ∃ ops, emits (diff_anchors visit l r ps i j) ops
    ∧ (ok → ops = [] → (length l - i = length r - j)%nat ∧ agree (length l - i) i j).
Proof.
  revert i j. induction ps as [|[a b] ps IH]; intros i j; cbn [aligned diff_anchors]; intros Hal Hi Hj.
  { apply gap_paired_emits; lia. }
  destruct Hal as (Ha & Hb & Hs & Hps).
  destruct (gap_paired_emits (a - i) (b - j) i j) as (ops & Hops & Hg); [lia..|].
  destruct (IH (S a) (S b)) as (ops' & Hops' & Hp); [done|lia|lia|].
  exists (ops ++ ops'). split; [by apply (emits_comp (diff_gap visit l r i a j b))|].
  intros Hok [Ho Ho']%app_nil. apply Hg in Ho as [Heq Hag]; [|done].
  apply Hp in Ho' as [Heq' Hag']; [|done].
  apply bool_decide_eq_true in Hs. split; [lia|]. intros k Hk.
  destruct (decide (k < a - i)%nat) as [|Hge]; [by apply Hag|].
  destruct (decide (k = a - i)%nat) as [->|Hne].
  - replace (i + (a - i))%nat with a by lia. by replace (j + (a - i))%nat with b by lia.
  - specialize (Hag' (k - S (a - i))%nat ltac:(lia)).
    replace (S a + (k - S (a - i)))%nat with (i + k)%nat in Hag' by lia.
    by replace (S b + (k - S (a - i)))%nat with (j + k)%nat in Hag' by lia.
Qed.

Lemma diff_children_emits :
  ∃ ops, emits (diff_children visit l r) ops
    ∧ (ok → ops = [] → sn_fingerprint <$> l = sn_fingerprint <$> r).
Proof.
  assert (∃ ops, emits (diff_children visit l r) ops
    ∧ (ok → ops = [] → length l = length r ∧ agree (length l) 0 0)) as (ops & Hops & He).
  { unfold diff_children. destruct (_ || _).
    - unfold diff_gap. rewrite !Nat.sub_0_r. apply gap_paired_emits; lia.
    - destruct (diff_anchors_emits (lcs_pairs l r) 0 0) as (ops & Hops & He);
        [apply lcs_pairs_spec|lia|lia|]. exists ops. by rewrite !Nat.sub_0_r in He. }
  exists ops. split; [done|]. intros Hok Ho. destruct (He Hok Ho) as [Hlen Ha]. apply list_eq. intros k.
  rewrite !list_lookup_fmap. destruct (decide (k < length l)%nat) as [Hk|Hk].
  - rewrite !list_lookup_lookup_total_lt by lia. simpl. f_equal. by apply Ha.
  - by rewrite !lookup_ge_None_2 by lia.
Qed.
End gap_script.

(** The recursion of [diff_node] goes through the children of [l]. *)
Lemma diff_node_eq l r s :
  diff_node l r s =
  if bool_decide (sn_fingerprint l = sn_fingerprint r) then s
  else if negb (bool_decide (sn_kind l = sn_kind r)) then sink_add s (replaced_op l r)
  else diff_children (λ i, nth i (diff_node <$> sn_children l) (λ _ s, s)) (sn_children l)
         (sn_children r)
         (if negb (bool_decide (sn_label l = sn_label r)) then sink_add s (label_op l r) else s).
Proof. by destruct l. Qed.

Lemma visit_child l i :
  (i < length (sn_children l))%nat →
  nth i (diff_node <$> sn_children l) (λ _ s, s) = diff_node (sn_children l !!! i).
Proof.
  intros Hi. apply nth_lookup_Some with (d := λ _ s, s).
  by rewrite list_lookup_fmap, (list_lookup_lookup_total_lt _ _ Hi).
Qed.

Lemma diff_node_emits sha1 l r :
  ∃ ops, emits (diff_node l r) ops
    ∧ (sn_fingerprint l = sn_fingerprint r → ops = [])
    ∧ (sealed sha1 l ∧ sealed sha1 r → ops = [] → sn_fingerprint l = sn_fingerprint r).
Proof.
  revert r. induction l as [k lb d rg cs f IH] using SynNode_tree_ind. intros r.
  set (l := mkSyn k lb d rg cs f).
  destruct (decide (sn_fingerprint l = sn_fingerprint r)) as [Hf|Hf].
  { exists []. split; [|done]. intros s. by rewrite diff_node_eq, bool_decide_true. }
  destruct (decide (sn_kind l = sn_kind r)) as [Hk|Hk].
  2:{ exists [replaced_op l r]. split; [|done]. intros s.
      by rewrite diff_node_eq, (bool_decide_false _ Hf), (bool_decide_false _ Hk). }
  set (relabel := if decide (sn_label l = sn_label r) then [] else [label_op l r]).
  destruct (diff_children_emits (λ i, nth i (diff_node <$> cs) (λ _ s, s)) cs (sn_children r)
    (sealed sha1 l ∧ sealed sha1 r)) as (ops & Hops & Hn).
  { intros i j Hi Hj. rewrite (visit_child l) by done.
    eapply Forall_lookup_1 in IH; [|by apply list_lookup_lookup_total_lt].
    destruct (IH (sn_children r !!! j)) as (ops & Hops & _ & Hs). exists ops. split; [done|].
    intros [[_ Hsl]%sealed_unfold [_ Hsr]%sealed_unfold]. apply Hs. split.
    - eapply Forall_lookup_1; [exact Hsl|]. by apply list_lookup_lookup_total_lt.
    - eapply Forall_lookup_1; [exact Hsr|]. by apply list_lookup_lookup_total_lt. }
  exists (relabel ++ ops). split_and!.
  - intros s. rewrite diff_node_eq, (bool_decide_false _ Hf), (bool_decide_true _ Hk), foldl_app.
    cbn [negb]. rewrite Hops. f_equal. unfold relabel. by case_decide; case_bool_decide.
  - done.
  - intros Hsd [Hrel Ho]%app_nil. apply Hn in Ho; [|done].
    destruct Hsd as [[-> _]%sealed_unfold [-> _]%sealed_unfold]. cbn.
    unfold relabel in Hrel. case_decide as Hlb; [|done].
    change (digest_to_hex (sha1 (seal_message (sn_kind l) (sn_label l) (sn_fingerprint <$> cs)))
      = digest_to_hex (sha1 (seal_message (sn_kind r) (sn_label r) (sn_fingerprint <$> sn_children r)))).
    by rewrite Hk, Hlb, Ho.
Qed.

(** C30: the edit operations of two subtrees are one script, which does not depend
    on the sink: the sink keeps its first operations while the comparison has
    fewer than [kEditCap] of them, counts them, and is marked truncated exactly
    when the script does not fit; on sealed trees the script is empty only when
    the fingerprints are equal, so a capped or empty list of edits never stands
    for an unnoticed change. *)
Theorem edit_script_capped sha1 l r :
  ∃ ops,
    (∀ s, 0 <= sk_total s <= kEditCap →
       diff_node l r s =
         mkSink (sk_ops s ++ take (Z.to_nat (kEditCap - sk_total s)) ops)
           (Z.min kEditCap (sk_total s + Z.of_nat (length ops)))
           (sk_truncated s || (kEditCap <? sk_total s + Z.of_nat (length ops))))
    ∧ (sn_fingerprint l = sn_fingerprint r → ops = [])
    ∧ (sealed sha1 l → sealed sha1 r → ops = [] → sn_fingerprint l = sn_fingerprint r).
Proof.
  destruct (diff_node_emits sha1 l r) as (ops & Hops & He & Hs). exists ops. split_and!.
  - intros s Hcap. by rewrite Hops, sink_add_capped.
  - done.
  - auto.
Qed.

(** An inserted statement and a renamed callee: two operations, with the
    identity for SHA-1. *)
Section sample.
Let r0 := mkRange 0 0 0 0.
Let leaf (k lb d : string) := seal id (mkSyn (bs k) (bs lb) (bs d) r0 [] []).
Let body (cs : list SynNode) := seal id (mkSyn (bs "CompoundStmt") [] [] r0 cs []).

Example sample_script :
  sk_ops (diff_node (body [leaf "Decl" "x" "name x"; leaf "Call" "reserve" "callee reserve"])
                    (body [leaf "Null" "-" "null"; leaf "Decl" "x" "name x";
                           leaf "Call" "resize" "callee resize"])
            (mkSink [] 0 false)) =
    [one_sided_op (leaf "Null" "-" "null") false;
     mkOp (bs "changed") (bs "Call") (bs "callee reserve -> resize") (Some r0) (Some r0)].
Proof. vm_compute. reflexivity. Qed.
End sample.
