(* ===== verification/DiffMatch.v ===== *)
(** * Entity matching of cidx-diff

    [Matcher], [match_entities] and [compute_edits] of [diff/compare.cpp] over
    the entities of [diff/syntax_ir.hpp]: the tiers usr, signature, name and
    fingerprint pair the two sides greedily in source order, what is left is
    removed or added.  A pointer to an entity is the entity, [nullptr] is
    [None]. *)

From S2P Require Export DiffSyntax.
From S2P Require Import Prelude.
Open Scope Z_scope.

(** ** Data *)

Inductive Entity := mkEntity {
  en_kind : bytes;
  en_name : bytes;
  en_signature : bytes;
  en_usr : bytes;
  en_range : SrcRange;
  en_syntax : SynNode;
  en_fingerprint : bytes;
  en_is_definition : bool;
  en_slice : bytes;
  en_members : list Entity;
  en_behaviour : Z;
  en_profile : Z
}.

Record Unsupported := mkUnsupported { un_what : bytes; un_range : SrcRange; un_side : bytes }.

Record EntityPair := mkPair {
  ep_left : option Entity;
  ep_right : option Entity;
  ep_member : bool;
  ep_status : bytes;
  ep_match : bytes;
  ep_confidence : Z;
  ep_edits : list EditOp;
  ep_subtree_differs : bool;
  ep_truncated : bool;
  ep_verdict : bytes;
  ep_evidence : bytes;
  ep_detail : bytes;
  ep_changes : list bytes;
  ep_unsupported : list Unsupported
}.

#[export] Instance Entity_inhabited : Inhabited Entity :=
  populate (mkEntity [] [] [] [] inhabitant inhabitant [] false [] [] (-1) (-1)).

(** A fresh [EntityPair] with its two sides, status, tier and confidence. *)
Definition new_pair (l r : option Entity) (status tier : bytes) (conf : Z) : EntityPair :=
  mkPair l r false status tier conf [] false false [] [] [] [] [].

Definition strip_ws (s : bytes) : bytes :=
  filter (λ c, c ≠ " "%char ∧ c ≠ "009"%char ∧ c ≠ "010"%char ∧ c ≠ "013"%char) s.

(** ** The matcher *)

Record Matcher := mkMatcher { lu : list bool; ru : list bool; pairs : list EntityPair }.

Section matcher.
Variables left right : list Entity.

Definition new_matcher : Matcher :=
  mkMatcher (replicate (length left) false) (replicate (length right) false) [].

Definition pair_up (i j : nat) (tier : bytes) (conf : Z) (status : bytes) (m : Matcher) : Matcher :=
  mkMatcher (<[i := true]> (lu m)) (<[j := true]> (ru m))
    (pairs m ++ [new_pair (Some (left !!! i)) (Some (right !!! j)) status tier conf]).

(** [std::map<std::string, int>] of the occurrences of the non-empty keys. *)
Definition count_keys (key : Entity → bytes) (es : list Entity) : gmap bytes Z :=
  foldl (λ cnt e, let k := key e in
           if bool_decide (k = []) then cnt else <[k := default 0 (cnt !! k) + 1]> cnt) ∅ es.

Section tier.
Variable key : Entity → bytes.
Variables (name : bytes) (conf : Z) (status : bytes) (unique_key : bool).

Definition lcount : gmap bytes Z := if unique_key then count_keys key left else ∅.
Definition rcount : gmap bytes Z := if unique_key then count_keys key right else ∅.

(** The first right entity, from [j] on, that is free and has the key [k]. *)
Fixpoint first_free (m : Matcher) (k : bytes) (count j : nat) : option nat :=
  match count with
  | O => None
  | S count =>
      if negb (ru m !!! j : bool) && bool_decide (key (right !!! j) = k) then Some j
      else first_free m k count (S j)
  end.

Definition tier_step (m : Matcher) (i : nat) : Matcher :=
  if (lu m !!! i : bool) then m
  else
    let k := key (left !!! i) in
    if bool_decide (k = []) then m
    else if unique_key && (negb (default 0 (lcount !! k) =? 1) || negb (default 0 (rcount !! k) =? 1))
    then m
    else match first_free m k (length right) 0 with
         | Some j => pair_up i j name conf status m
         | None => m
         end.

Definition tier (m : Matcher) : Matcher := foldl tier_step m (seq 0 (length left)).
End tier.

(** ** Keys of the tiers *)

Definition usr_key (e : Entity) : bytes := en_usr e.
Definition signature_key (e : Entity) : bytes :=
  match en_signature e with [] => [] | s => en_kind e ++ [us] ++ strip_ws s end.
Definition name_key (e : Entity) : bytes :=
  match en_name e with [] => [] | n => en_kind e ++ [us] ++ n end.
Definition fingerprint_key (e : Entity) : bytes := en_kind e ++ [us] ++ en_fingerprint e.

Definition matched : bytes := bs "matched".
Definition renamed : bytes := bs "renamed".

(** The pairing, before the one-sided rows. *)
Definition run_tiers (match_mode : bytes) (force_pair : bool) : Matcher :=
  let m := tier usr_key (bs "usr") 100 matched false new_matcher in
  let m := tier signature_key (bs "signature") 95 matched false m in
  let m := if bool_decide (match_mode = bs "heuristic")
           then tier fingerprint_key (bs "fingerprint") 70 renamed true
                  (tier name_key (bs "name") 85 matched true m)
           else m in
  if force_pair && (length left =? 1)%nat && (length right =? 1)%nat
       && negb (lu m !!! 0%nat : bool) && negb (ru m !!! 0%nat : bool)
  then pair_up 0 0 [] 0 matched m else m.

(** The entities the mask leaves out, in order. *)
Fixpoint unmarked (mask : list bool) (es : list Entity) : list Entity :=
  match mask, es with
  | b :: mask, e :: es => if b then unmarked mask es else e :: unmarked mask es
  | _, _ => []
  end.

Definition removed_row (e : Entity) : EntityPair := new_pair (Some e) None (bs "removed") [] 0.
Definition added_row (e : Entity) : EntityPair := new_pair None (Some e) (bs "added") [] 0.

Definition match_entities (match_mode : bytes) (force_pair : bool) : list EntityPair :=
  let m := run_tiers match_mode force_pair in
  pairs m ++ (removed_row <$> unmarked (lu m) left) ++ (added_row <$> unmarked (ru m) right).
End matcher.

(** ** Edits of a pair *)

Definition set_edits (p : EntityPair) (edits : list EditOp) (differs truncated : bool) : EntityPair :=
  mkPair (ep_left p) (ep_right p) (ep_member p) (ep_status p) (ep_match p) (ep_confidence p)
    edits differs truncated (ep_verdict p) (ep_evidence p) (ep_detail p) (ep_changes p)
    (ep_unsupported p).

(** The one operation of a row with a missing side. *)
Definition entity_op (e : Entity) (left : bool) : EditOp :=
  mkOp (if left then bs "removed" else bs "added") (sn_kind (en_syntax e))
    (en_kind e ++ bs " " ++ en_name e)
    (if left then Some (en_range e) else None) (if left then None else Some (en_range e)).

(** [compute_edits]: the pair and the shared count of operations.  A row has at
    least one side. *)
Definition compute_edits (p : EntityPair) (total : Z) : EntityPair * Z :=
  let sink := mkSink (ep_edits p) total false in
  let '(differs, sink) :=
    match ep_left p, ep_right p with
    | Some l, Some r =>
        (negb (bool_decide (sn_fingerprint (en_syntax l) = sn_fingerprint (en_syntax r))),
         diff_node (en_syntax l) (en_syntax r) sink)
    | Some l, None => (true, sink_add sink (entity_op l true))
    | None, Some r => (true, sink_add sink (entity_op r false))
    | None, None => (true, sink)
    end in
  (set_edits p (sk_ops sink) differs (sk_truncated sink), sk_total sink).

(** ** Masks *)

Lemma unmarked_mark mask es i e :
  mask !! i = Some false → es !! i = Some e →
  unmarked mask es ≡ₚ e :: unmarked (<[i := true]> mask) es.
Proof.
  revert es i. induction mask as [|b mask IH]; intros [|x es] [|i]; try done; simpl.
  - intros [= ->] [= ->]. done.
  - intros Hm He. destruct b; [by apply IH|]. rewrite (IH es i Hm He). apply Permutation_swap.
Qed.

Lemma unmarked_fresh es : unmarked (replicate (length es) false) es = es.
Proof. induction es as [|e es IH]; simpl; [done|]. by rewrite IH. Qed.

Lemma elem_of_unmarked mask es e :
  e ∈ unmarked mask es ↔ ∃ i, mask !! i = Some false ∧ es !! i = Some e.
Proof.
  revert es. induction mask as [|b mask IH]; intros [|x es]; simpl.
  1-3: split; [by intros ?%not_elem_of_nil|]; intros ([|?] & ? & ?); done.
  destruct b; rewrite ?elem_of_cons, IH; split.
  - intros (i & ? & ?). by exists (S i).
  - intros ([|i] & ? & ?); [done|by exists i].
  - intros [->|(i & ? & ?)]; [by exists 0%nat|by exists (S i)].
  - intros ([|i] & ? & ?); [simplify_eq/=; by left|right; by exists i].
Qed.

(** ** Counted keys *)

(** How many entities have the key [k]. *)
Definition occurrences (key : Entity → bytes) (es : list Entity) (k : bytes) : nat :=
  length (filter (λ e, key e = k) es).

Lemma count_keys_spec key es k :
  k ≠ [] → default 0 (count_keys key es !! k) = Z.of_nat (occurrences key es k).
Proof.
  intros Hk. unfold count_keys, occurrences. induction es as [|e es IH] using rev_ind; [done|].
  rewrite foldl_app, filter_app, length_app, Nat2Z.inj_add, <-IH. simpl.
  rewrite filter_cons. destruct (decide (key e = k)) as [<-|Hne]; simpl.
  - rewrite bool_decide_false by done. by rewrite lookup_insert_eq.
  - case_bool_decide; [lia|]. rewrite lookup_insert_ne by done. simpl. lia.
Qed.

(** ** The invariant of the matcher *)

Section matching.
Variables left right : list Entity.

(** Why a row pairs its two sides. *)
Definition paired_by (key : Entity → bytes) (unique_key : bool) (a b : Entity) : Prop :=
  key a = key b ∧ key a ≠ [] ∧
  (unique_key = true → occurrences key left (key a) = 1%nat ∧ occurrences key right (key a) = 1%nat).

Variable good : EntityPair → Prop.

Definition matcher_ok (m : Matcher) : Prop :=
  length (lu m) = length left ∧ length (ru m) = length right
  ∧ omap ep_left (pairs m) ++ unmarked (lu m) left ≡ₚ left
  ∧ omap ep_right (pairs m) ++ unmarked (ru m) right ≡ₚ right
  ∧ Forall good (pairs m).

(** Marks are never taken back. *)
Definition grows (m m' : Matcher) : Prop :=
  (∀ i, lu m' !! i = Some false → lu m !! i = Some false)
  ∧ (∀ j, ru m' !! j = Some false → ru m !! j = Some false).

#[local] Instance grows_preorder : PreOrder grows.
Proof.
  split; [done|]. intros m1 m2 m3 [? ?] [? ?]. split; auto.
Qed.

(** No free pair among the first [n] left entities could still be paired. *)
Definition settled (key : Entity → bytes) (unique_key : bool) (n : nat) (m : Matcher) : Prop :=
  ∀ i j a b, (i < n)%nat → lu m !! i = Some false → ru m !! j = Some false →
    left !! i = Some a → right !! j = Some b → ¬ paired_by key unique_key a b.

Lemma settled_grows key u n m m' : grows m m' → settled key u n m → settled key u n m'.
Proof. intros [Hl Hr] Hs i j a b Hi Hlu Hru. apply Hs; auto. Qed.

Lemma matcher_ok_new : matcher_ok (new_matcher left right).
Proof.
  unfold matcher_ok, new_matcher. cbn [lu ru pairs omap].
  rewrite !length_replicate, !unmarked_fresh. done.
Qed.

Lemma pair_up_ok i j name conf status m :
  matcher_ok m → lu m !! i = Some false → ru m !! j = Some false →
  good (new_pair (Some (left !!! i)) (Some (right !!! j)) status name conf) →
  matcher_ok (pair_up left right i j name conf status m) ∧ grows m (pair_up left right i j name conf status m).
Proof.
  intros (Hll & Hlr & Hpl & Hpr & Hg) Hi Hj Hgood. split.
  - unfold matcher_ok, pair_up. cbn [lu ru pairs]. rewrite !length_insert, !omap_app.
    split_and!; [done|done| | |].
    + rewrite <-Hpl at 3. rewrite <-app_assoc. f_equiv. symmetry. apply unmarked_mark; [done|].
      apply list_lookup_lookup_total_lt. rewrite <-Hll. by eapply lookup_lt_Some.
    + rewrite <-Hpr at 3. rewrite <-app_assoc. f_equiv. symmetry. apply unmarked_mark; [done|].
      apply list_lookup_lookup_total_lt. rewrite <-Hlr. by eapply lookup_lt_Some.
    + apply Forall_app. split; [done|]. by repeat constructor.
  - split; intros k; unfold pair_up; cbn [lu ru].
    + destruct (decide (i = k)) as [->|]; [|by rewrite list_lookup_insert_ne].
      by rewrite list_lookup_insert_eq by (by eapply lookup_lt_Some).
    + destruct (decide (j = k)) as [->|]; [|by rewrite list_lookup_insert_ne].
      by rewrite list_lookup_insert_eq by (by eapply lookup_lt_Some).
Qed.

Section one_tier.
Variable key : Entity → bytes.
Variables (name : bytes) (conf : Z) (status : bytes) (unique_key : bool).
Hypothesis tier_good : ∀ a b, a ∈ left → b ∈ right → paired_by key unique_key a b →
  good (new_pair (Some a) (Some b) status name conf).

Let step := tier_step left right key name conf status unique_key.

Lemma first_free_Some m k count j j' :
  length (ru m) = length right → first_free right key m k count j = Some j' →
  (j + count)%nat = length right → ru m !! j' = Some false ∧ key (right !!! j') = k.
Proof.
  intros Hlen. revert j. induction count as [|count IH]; intros j; simpl; [done|].
  destruct (negb _ && _) eqn:E; [|intros H Hj; apply (IH (S j) H); lia].
  intros [= <-] Hj. bool_split. split; [|done].
  rewrite (list_lookup_lookup_total_lt (ru m) j) by lia. by f_equal.
Qed.

Lemma first_free_None m k count j :
  first_free right key m k count j = None → (j + count)%nat = length right →
  ∀ j', (j ≤ j')%nat → ru m !! j' = Some false → (j' < length right)%nat → key (right !!! j') ≠ k.
Proof.
  revert j. induction count as [|count IH]; intros j; simpl; [lia|].
  destruct (negb _ && _) eqn:E; [done|]. intros H Hj j' Hle Hf Hlt Hk.
  destruct (decide (j' = j)) as [->|Hne]; [|apply (IH (S j) H ltac:(lia) j'); [lia|done..]].
  apply (list_lookup_total_correct (ru m)) in Hf.
  rewrite Hf, (bool_decide_true _ Hk) in E. discriminate E.
Qed.

(** The test of the counts is the uniqueness of the key on both sides. *)
Lemma unique_test k :
  k ≠ [] →
  unique_key && (negb (default 0 (lcount left key unique_key !! k) =? 1)
                 || negb (default 0 (rcount right key unique_key !! k) =? 1)) = false ↔
  (unique_key = true → occurrences key left k = 1%nat ∧ occurrences key right k = 1%nat).
Proof.
  intros Hk. unfold lcount, rcount. destruct unique_key; simpl; [|done].
  rewrite !count_keys_spec by done. rewrite orb_false_iff, !negb_false_iff, !Z.eqb_eq. lia.
Qed.

Lemma tier_step_ok i m :
  (i < length left)%nat → matcher_ok m → settled key unique_key i m →
  matcher_ok (step m i) ∧ grows m (step m i) ∧ settled key unique_key (S i) (step m i).
Proof.
  intros Hi Hm Hs. pose proof Hm as (Hll & Hlr & _).
  pose proof (list_lookup_lookup_total_lt left i Hi) as Hle.
  assert (∀ m', matcher_ok m' → grows m m' →
    (∀ j b, lu m' !! i = Some false → ru m' !! j = Some false → right !! j = Some b →
       ¬ paired_by key unique_key (left !!! i) b) →
    matcher_ok m' ∧ grows m m' ∧ settled key unique_key (S i) m') as Hgo.
  { intros m' Hm' Hg Hn. split_and!; [done|done|]. intros i' j a b Hi' Hlu Hru Ha Hb.
    destruct (decide (i' = i)) as [->|]; [|eapply settled_grows; [done..| |done|done|done|done]; lia].
    rewrite Hle in Ha. simplify_eq. by apply (Hn j). }
  unfold step, tier_step. destruct (lu m !!! i : bool) eqn:El.
  { apply Hgo; [done|done|]. intros j b Hlu.
    apply (list_lookup_total_correct (lu m)) in Hlu. congruence. }
  case_bool_decide as Hk.
  { apply Hgo; [done|done|]. by intros j b _ _ _ (_ & ? & _). }
  destruct (unique_key && _) eqn:Eu.
  { apply Hgo; [done|done|]. intros j b _ _ _ (_ & _ & Hu).
    apply (unique_test _ Hk) in Hu. congruence. }
  pose proof (proj1 (unique_test _ Hk) Eu) as Hu.
  destruct (first_free _ _ _ _ _ _) as [j|] eqn:Ef.
  - destruct (first_free_Some _ _ _ _ _ Hlr Ef) as [Hru Hkj]; [lia|].
    assert (lu m !! i = Some false) as Hlu
      by (rewrite (list_lookup_lookup_total_lt (lu m)) by lia; by f_equal).
    assert (j < length right)%nat as Hj by (rewrite <-Hlr; by eapply lookup_lt_Some).
    destruct (pair_up_ok i j name conf status m) as [Hok Hg]; [done..| |].
    { apply tier_good; [by eapply list_elem_of_lookup_2| |].
      - eapply list_elem_of_lookup_2. by apply list_lookup_lookup_total_lt.
      - split_and!; [by rewrite Hkj|done|done]. }
    apply Hgo; [done|done|]. intros j' b. cbn [pair_up lu].
    by rewrite list_lookup_insert_eq by lia.
  - apply Hgo; [done|done|]. intros j b _ Hru Hb (Hkb & _).
    eapply (first_free_None _ _ _ _ Ef); [lia|apply Nat.le_0_l|exact Hru| |].
    + by eapply lookup_lt_Some.
    + by rewrite (list_lookup_total_correct _ _ _ Hb).
Qed.

Lemma tier_ok m :
  matcher_ok m →
  let m' := tier left right key name conf status unique_key m in
  matcher_ok m' ∧ grows m m' ∧ settled key unique_key (length left) m'.
Proof.
  intros Hm. unfold tier. fold step.
  assert (∀ n, (n ≤ length left)%nat →
    matcher_ok (foldl step m (seq 0 n)) ∧ grows m (foldl step m (seq 0 n))
    ∧ settled key unique_key n (foldl step m (seq 0 n))) as Hn; [|by apply Hn].
  induction n as [|n IH]; intros Hle.
  { split_and!; [done|done|]. intros i j a b Hi. lia. }
  destruct IH as (H1 & H2 & H3); [lia|]. rewrite seq_S, foldl_app. simpl.
  destruct (tier_step_ok n (foldl step m (seq 0 n))) as (? & ? & ?); [lia|done..|].
  split_and!; [done|by etrans|done].
Qed.
End one_tier.
End matching.

(** ** The rows of a matching *)

(** What a row says of its sides, and why. *)
Definition row_reason (left right : list Entity) (match_mode : bytes) (force_pair : bool)
    (p : EntityPair) : Prop :=
  let labelled status tier conf :=
    ep_status p = status ∧ ep_match p = tier ∧ ep_confidence p = conf in
  match ep_left p, ep_right p with
  | Some a, Some b =>
      paired_by left right usr_key false a b ∧ labelled matched (bs "usr") 100
      ∨ paired_by left right signature_key false a b ∧ labelled matched (bs "signature") 95
      ∨ match_mode = bs "heuristic" ∧ paired_by left right name_key true a b
        ∧ labelled matched (bs "name") 85
      ∨ match_mode = bs "heuristic" ∧ paired_by left right fingerprint_key true a b
        ∧ labelled renamed (bs "fingerprint") 70
      ∨ force_pair = true ∧ left = [a] ∧ right = [b] ∧ labelled matched [] 0
  | Some _, None => labelled (bs "removed") [] 0
  | None, Some _ => labelled (bs "added") [] 0
  | None, None => False
  end.

(** The sides that no tier of the mode would still pair. *)
Definition unpairable (left right : list Entity) (match_mode : bytes) (a b : Entity) : Prop :=
  ¬ paired_by left right usr_key false a b ∧ ¬ paired_by left right signature_key false a b
  ∧ (match_mode = bs "heuristic" →
     ¬ paired_by left right name_key true a b ∧ ¬ paired_by left right fingerprint_key true a b).

(** No row of a matching has a verdict or markers yet. *)
Definition unjudged (p : EntityPair) : Prop :=
  ep_verdict p = [] ∧ ep_changes p = [] ∧ ep_unsupported p = [] ∧ ep_edits p = [].

Section run.
Variables (left right : list Entity) (match_mode : bytes) (force_pair : bool).
Let good (p : EntityPair) : Prop :=
  (∃ a, ep_left p = Some a) ∧ (∃ b, ep_right p = Some b) ∧ row_reason left right match_mode force_pair p
  ∧ unjudged p.
Let ok := matcher_ok left right good.

Lemma good_new a b status tier conf :
  row_reason left right match_mode force_pair (new_pair (Some a) (Some b) status tier conf) →
  good (new_pair (Some a) (Some b) status tier conf).
Proof. intros H. split_and!; [by exists a|by exists b|done..]. Qed.

(** The free entities of the two sides are unpairable. *)
Let free_unpairable (m : Matcher) : Prop :=
  ∀ i j a b, lu m !! i = Some false → ru m !! j = Some false →
    left !! i = Some a → right !! j = Some b → unpairable left right match_mode a b.

Lemma force_pair_ok m :
  ok m → free_unpairable m →
  let m' := if force_pair && (length left =? 1)%nat && (length right =? 1)%nat
                 && negb (lu m !!! 0%nat : bool) && negb (ru m !!! 0%nat : bool)
            then pair_up left right 0 0 [] 0 matched m else m in
  ok m' ∧ free_unpairable m'.
Proof.
  intros Hm Hu. destruct (_ && _) eqn:E; [|done]. bool_split.
  assert (∀ es : list Entity, (length es =? 1)%nat = true → es = [es !!! 0%nat]) as Hone
    by (by intros [|e [|]]).
  pose proof Hm as (Hll & Hlr & _). rewrite Nat.eqb_eq in *.
  destruct (pair_up_ok left right good 0 0 [] 0 matched m) as [Hok [Hg Hg']]; [done| | | |].
  - rewrite (list_lookup_lookup_total_lt (lu m)) by lia. by f_equal.
  - rewrite (list_lookup_lookup_total_lt (ru m)) by lia. by f_equal.
  - apply good_new. do 4 right.
    split; [done|]. split; [by apply Hone, Nat.eqb_eq|]. by split; [apply Hone, Nat.eqb_eq|].
  - split; [done|]. intros i j a' b' Hi Hj. apply Hu; auto.
Qed.

Lemma run_tiers_ok :
  ok (run_tiers left right match_mode force_pair)
  ∧ free_unpairable (run_tiers left right match_mode force_pair).
Proof.
  unfold run_tiers. cbv zeta.
  destruct (tier_ok left right good usr_key (bs "usr") 100 matched false)
    with (m := new_matcher left right) as (H1 & _ & S1).
  { intros a b _ _ Hp. apply good_new. left. done. }
  { apply matcher_ok_new. }
  set (m1 := tier _ _ usr_key _ _ _ _ _) in *.
  destruct (tier_ok left right good signature_key (bs "signature") 95 matched false)
    with (m := m1) as (H2 & G2 & S2); [intros a b _ _ Hp; apply good_new; right; left; done|done|].
  set (m2 := tier _ _ signature_key _ _ _ _ _) in *.
  apply force_pair_ok; case_bool_decide as Hmode; [|done| |].
  all: try (destruct (tier_ok left right good name_key (bs "name") 85 matched true)
    with (m := m2) as (H3 & G3 & S3); [intros a b _ _ Hp; apply good_new; do 2 right; left; done|done|];
    set (m3 := tier _ _ name_key _ _ _ _ _) in *;
    destruct (tier_ok left right good fingerprint_key (bs "fingerprint") 70 renamed true)
    with (m := m3) as (H4 & G4 & S4); [intros a b _ _ Hp; apply good_new; do 3 right; left; done|done|];
    set (m4 := tier _ _ fingerprint_key _ _ _ _ _) in *).
  - done.
  - intros i j a b Hi Hj Ha Hb. pose proof (lookup_lt_Some _ _ _ Ha) as Hlt.
    assert (settled left right usr_key false (length left) m4) as S1'
      by (apply (settled_grows _ _ _ _ _ _ _ G4), (settled_grows _ _ _ _ _ _ _ G3),
            (settled_grows _ _ _ _ _ _ _ G2), S1).
    assert (settled left right signature_key false (length left) m4) as S2'
      by (apply (settled_grows _ _ _ _ _ _ _ G4), (settled_grows _ _ _ _ _ _ _ G3), S2).
    assert (settled left right name_key true (length left) m4) as S3'
      by (apply (settled_grows _ _ _ _ _ _ _ G4), S3).
    split_and!; [by eapply S1'|by eapply S2'|]. intros _. split; [by eapply S3'|by eapply S4].
  - intros i j a b Hi Hj Ha Hb. pose proof (lookup_lt_Some _ _ _ Ha) as Hlt.
    assert (settled left right usr_key false (length left) m2) as S1'
      by (apply (settled_grows _ _ _ _ _ _ _ G2), S1).
    split_and!; [by eapply S1'|by eapply S2|done].
Qed.
End run.

Lemma omap_side_rows (f : EntityPair → option Entity) (g : Entity → EntityPair) (es : list Entity) :
  (∀ e, f (g e) = Some e) → omap f (g <$> es) = es.
Proof. intros Hf. induction es as [|e es IH]; [done|]. csimpl. by rewrite Hf, IH. Qed.

Lemma omap_no_side (f : EntityPair → option Entity) (g : Entity → EntityPair) (es : list Entity) :
  (∀ e, f (g e) = None) → omap f (g <$> es) = [].
Proof. intros Hf. induction es as [|e es IH]; [done|]. csimpl. by rewrite Hf. Qed.

(** Every entity of each side is in exactly one row. *)
Lemma match_sides left right match_mode force_pair :
  omap ep_left (match_entities left right match_mode force_pair) ≡ₚ left
  ∧ omap ep_right (match_entities left right match_mode force_pair) ≡ₚ right.
Proof.
  unfold match_entities.
  destruct (run_tiers_ok left right match_mode force_pair) as [(_ & _ & Hl & Hr & _) _].
  rewrite !omap_app, (omap_side_rows _ removed_row), (omap_no_side _ added_row) by done.
  rewrite (omap_side_rows _ added_row), (omap_no_side _ removed_row), app_nil_r by done. done.
Qed.

Lemma match_unjudged left right match_mode force_pair :
  Forall unjudged (match_entities left right match_mode force_pair).
Proof.
  unfold match_entities.
  destruct (run_tiers_ok left right match_mode force_pair) as [(_ & _ & _ & _ & Hg) _].
  rewrite !Forall_app, !Forall_fmap. split_and!; [|by apply Forall_true..].
  eapply Forall_impl; [exact Hg|]. by intros p (_ & _ & _ & ?).
Qed.

(** C28: a matching lists every entity of each side in exactly one row; every
    two-sided row has the key its tier names, with the confidence of the tier,
    and a unique key in the heuristic tiers; and no removed and added pair of
    rows could still have been paired by a tier of the mode. *)
Theorem matching_exact left right match_mode force_pair :
  let rows := match_entities left right match_mode force_pair in
  omap ep_left rows ≡ₚ left ∧ omap ep_right rows ≡ₚ right
  ∧ Forall (row_reason left right match_mode force_pair) rows
  ∧ (∀ p q a b, p ∈ rows → q ∈ rows → ep_left p = Some a → ep_right p = None →
       ep_left q = None → ep_right q = Some b → unpairable left right match_mode a b).
Proof.
  intros rows. split; [apply match_sides|]. split; [apply match_sides|].
  unfold rows, match_entities.
  destruct (run_tiers_ok left right match_mode force_pair) as [(_ & _ & _ & _ & Hg) Hu].
  set (m := run_tiers _ _ _ _) in *. split.
  - rewrite !Forall_app, !Forall_fmap. split_and!; [|by apply Forall_true..].
    eapply Forall_impl; [exact Hg|]. by intros p (_ & _ & ? & _).
  - rewrite Forall_forall in Hg.
    intros p q a b Hp Hq Hpl Hpr Hql Hqr. rewrite !elem_of_app, !list_elem_of_fmap in Hp, Hq.
    destruct Hp as [Hp|[(x & -> & Hx)|(x & -> & _)]]; [|simplify_eq/=|done].
    { apply Hg in Hp as (_ & [? ?] & _). congruence. }
    destruct Hq as [Hq|[(y & -> & _)|(y & -> & Hy)]]; [|done|simplify_eq/=].
    { apply Hg in Hq as ([? ?] & _). congruence. }
    apply elem_of_unmarked in Hx as (i & Hi & Ha), Hy as (j & Hj & Hb). by eapply Hu.
Qed.
