(* ===== verification/DiffConfig.v ===== *)
(** * The configuration delta of cidx-diff

    [classify_options] and [config_delta] of [diff/target.cpp]: the options that
    bear on the meaning of a translation unit, by class and in their order, and
    their differences between the two sides.  Resolving the stored configuration
    of a side goes through the index and Clang and is not modelled; a
    [ParseConfig] is what it yields. *)

From S2P Require Export Bytes.
Open Scope Z_scope.

Record OptionClasses := mkClasses {
  standard : option bytes;
  target : option bytes;
  definitions : list bytes;
  includes : list bytes;
  other : list bytes
}.

Record ParseConfig := mkConfig {
  pc_file : bytes;
  pc_db : bytes;
  pc_tu : option bytes;
  pc_parse_file : bytes;
  pc_restrict_to_file : bool;
  pc_driver : option bytes;
  pc_config_hash : option bytes;
  pc_args : list bytes;
  pc_classes : OptionClasses
}.

Record ConfigDelta := mkDelta {
  identical : bool;
  delta_standard : option (bytes * bytes);
  delta_target : option (bytes * bytes);
  delta_driver : option (bytes * bytes);
  definitions_added : list bytes;
  definitions_removed : list bytes;
  definitions_reordered : bool;
  includes_changed : bool;
  options_left_only : list bytes;
  options_right_only : list bytes;
  options_reordered : bool
}.

Definition no_classes : OptionClasses := mkClasses None None [] [] [].

Definition set_standard (v : bytes) (c : OptionClasses) : OptionClasses :=
  mkClasses (Some v) (target c) (definitions c) (includes c) (other c).
Definition set_target (v : bytes) (c : OptionClasses) : OptionClasses :=
  mkClasses (standard c) (Some v) (definitions c) (includes c) (other c).
Definition add_definition (v : bytes) (c : OptionClasses) : OptionClasses :=
  mkClasses (standard c) (target c) (definitions c ++ [v]) (includes c) (other c).
Definition add_include (v : bytes) (c : OptionClasses) : OptionClasses :=
  mkClasses (standard c) (target c) (definitions c) (includes c ++ [v]) (other c).
Definition add_other (v : bytes) (c : OptionClasses) : OptionClasses :=
  mkClasses (standard c) (target c) (definitions c) (includes c) (other c ++ [v]).

(** [s == t] on literals. *)
Definition eqs (s : string) (a : bytes) : bool := bool_decide (a = bs s).

(** The class of an option that takes its value from the next one. *)
Definition spaced_class (a : bytes) : option (bytes → OptionClasses → OptionClasses) :=
  if eqs "-target" a || eqs "--target" a then Some set_target
  else if eqs "-D" a || eqs "-U" a then Some (λ v, add_definition (a ++ v))
  else if eqs "-I" a || eqs "-isystem" a || eqs "-iquote" a || eqs "-F" a
  then Some (λ v, add_include (a ++ bs " " ++ v))
  else None.

(** The class of an option that stands alone. *)
Definition glued_class (a : bytes) (c : OptionClasses) : OptionClasses :=
  if starts_with (bs "-std=") a then set_standard (drop 5 a) c
  else if starts_with (bs "--std=") a then set_standard (drop 6 a) c
  else if starts_with (bs "--target=") a then set_target (drop 9 a) c
  else if (2 <? length a)%nat && (starts_with (bs "-D") a || starts_with (bs "-U") a)
  then add_definition a c
  else if (8 <? length a)%nat && starts_with (bs "-isystem") a
  then add_include (bs "-isystem " ++ drop 8 a) c
  else if (7 <? length a)%nat && starts_with (bs "-iquote") a
  then add_include (bs "-iquote " ++ drop 7 a) c
  else if (2 <? length a)%nat && (starts_with (bs "-I") a || starts_with (bs "-F") a)
  then add_include (take 2 a ++ bs " " ++ drop 2 a) c
  else add_other a c.

(** The loop; a dangling option that wants a value is classified as other. *)
Fixpoint classify_from (options : list bytes) (c : OptionClasses) : OptionClasses :=
  match options with
  | [] => c
  | a :: rest =>
      match spaced_class a with
      | Some set =>
          match rest with
          | v :: rest => classify_from rest (set v c)
          | [] => add_other a c
          end
      | None => classify_from rest (glued_class a c)
      end
  end.

Definition classify_options (options : list bytes) : OptionClasses :=
  classify_from options no_classes.

(** Multiset difference of two option lists, sorted. *)
Definition only_in (a b : list bytes) : list bytes :=
  set_difference bytes_ltb (sort bytes_ltb a) (sort bytes_ltb b).

Definition txt (v : option bytes) : bytes := default [] v.

Definition text_delta (l r : option bytes) : option (bytes * bytes) :=
  if bool_decide (txt l = txt r) then None else Some (txt l, txt r).

Definition reordered (only_l only_r l r : list bytes) : bool :=
  bool_decide (only_l = []) && bool_decide (only_r = []) && negb (bool_decide (l = r)).

Definition config_delta (left right : ParseConfig) : ConfigDelta :=
  let lc := pc_classes left in
  let rc := pc_classes right in
  let standard_ := text_delta (standard lc) (standard rc) in
  let target_ := text_delta (target lc) (target rc) in
  let driver_ := text_delta (pc_driver left) (pc_driver right) in
  let added := only_in (definitions rc) (definitions lc) in
  let removed := only_in (definitions lc) (definitions rc) in
  let defs_reordered := reordered added removed (definitions lc) (definitions rc) in
  let includes_ := negb (bool_decide (includes lc = includes rc)) in
  let left_only := only_in (other lc) (other rc) in
  let right_only := only_in (other rc) (other lc) in
  let opts_reordered := reordered left_only right_only (other lc) (other rc) in
  mkDelta
    (bool_decide (standard_ = None) && bool_decide (target_ = None) && bool_decide (driver_ = None)
     && bool_decide (added = []) && bool_decide (removed = []) && negb defs_reordered
     && negb includes_ && bool_decide (left_only = []) && bool_decide (right_only = [])
     && negb opts_reordered)
    standard_ target_ driver_ added removed defs_reordered includes_ left_only right_only
    opts_reordered.

(** ** Laws *)

Lemma text_delta_None l r : text_delta l r = None ↔ txt l = txt r.
Proof. unfold text_delta. by case_bool_decide. Qed.

Lemma only_in_self a : only_in a a = [].
Proof. apply (set_difference_self bytes_ltb). Qed.

(** No one-sided option and no reordering leaves equal sequences. *)
Lemma same_options l r :
  only_in l r = [] ∧ only_in r l = [] ∧ reordered (only_in l r) (only_in r l) l r = false ↔ l = r.
Proof.
  split.
  - intros (H1 & H2 & H3). unfold reordered in H3. rewrite H1, H2 in H3.
    rewrite !bool_decide_true in H3 by done. simpl in H3. bool_split. done.
  - intros ->. rewrite only_in_self. unfold reordered. by rewrite (bool_decide_true (r = r)).
Qed.

(** The one-sided lists are the multiset difference: what the sides share, and
    nothing in both lists. *)
Lemma only_in_split l r :
  (∃ common, l ≡ₚ only_in l r ++ common ∧ r ≡ₚ only_in r l ++ common)
  ∧ (∀ x, x ∈ only_in l r → x ∉ only_in r l).
Proof.
  destruct (set_difference_split bytes_ltb (sort bytes_ltb l) (sort bytes_ltb r))
    as [(c & Hl & Hr) Hd]; [apply sort_sorted; apply _..|].
  split; [|done]. exists c. by rewrite <-Hl, <-Hr, !sort_perm.
Qed.

(** The delta is identical exactly when the two sides have the same standard,
    target and driver, an absent one counting as empty, and the same sequences of
    definitions, include directories and remaining options: an option that is
    added, removed or moved is never overlooked. *)
Theorem config_identical_exact left right :
  let lc := pc_classes left in
  let rc := pc_classes right in
  identical (config_delta left right) = true ↔
  txt (standard lc) = txt (standard rc) ∧ txt (target lc) = txt (target rc)
  ∧ txt (pc_driver left) = txt (pc_driver right)
  ∧ definitions lc = definitions rc ∧ includes lc = includes rc ∧ other lc = other rc.
Proof.
  intros lc rc. unfold config_delta. fold lc rc. cbn [identical].
  rewrite <-!text_delta_None, <-(same_options (definitions lc)), <-(same_options (other lc)).
  rewrite !andb_true_iff, !negb_true_iff, negb_false_iff, !bool_decide_eq_true.
  replace (reordered (only_in (definitions rc) (definitions lc)) (only_in (definitions lc) (definitions rc))
    (definitions lc) (definitions rc)) with
    (reordered (only_in (definitions lc) (definitions rc)) (only_in (definitions rc) (definitions lc))
    (definitions lc) (definitions rc))
    by (unfold reordered; f_equal; apply andb_comm).
  tauto.
Qed.

(** Spaced and glued spellings classify alike, and order is kept. *)
Example sample_classes :
  classify_options (bs <$> ["-D"; "X=1"; "-UY"; "-I"; "inc"; "-isystemsys"; "--std=c++20"; "-target"; "t"; "-D"])
  = mkClasses (Some (bs "c++20")) (Some (bs "t")) (bs <$> ["-DX=1"; "-UY"])
      (bs <$> ["-I inc"; "-isystem sys"]) (bs <$> ["-D"]).
Proof. vm_compute. reflexivity. Qed.
