(* ===== verification/DiffVerdict.v ===== *)
(** * The verdicts of cidx-diff

    [Verdicts] and [compare_sides] of [diff/compare.cpp] over the semantic model
    of [diff/behaviour_ir.hpp]: the contradictions of two signatures or two class
    profiles, the verdict on a pair of callables, records or other entities, and
    the aggregate of a comparison.  The recursion into the members of a record is
    fuelled by the depth of the left entity.  Reading a whole file is an argument;
    an index into the behaviours or profiles of a side is in range by
    construction, and one that is not has no model here. *)

From S2P Require Export DiffMatch DiffConfig.
Open Scope Z_scope.

(** ** Data *)

Definition kEquivalent : bytes := bs "equivalent".
Definition kDifferent : bytes := bs "different".
Definition kUnknown : bytes := bs "unknown".

Definition kIdenticalSourceAndConfig : bytes := bs "identical-source-and-config".
Definition kNormalizedIr : bytes := bs "normalized-ir".
Definition kSummaryContradiction : bytes := bs "summary-contradiction".
Definition kUnsupportedOrIncomplete : bytes := bs "unsupported-or-incomplete".
Definition kNoDifference : bytes := bs "no behavioral difference established".

Record BehaviourIR := mkBehaviour {
  ir_signature : bytes;
  return_type : bytes;
  param_types : list bytes;
  param_defaults : list bytes;
  quals : bytes;
  is_noexcept : bool;
  is_virtual : bool;
  storage : bytes;
  is_inline : bool;
  constexpr_kind : bytes;
  is_noreturn : bool;
  is_static_method : bool;
  access : bytes;
  is_explicit : bool;
  is_deleted : bool;
  is_defaulted : bool;
  is_final : bool;
  is_pure : bool;
  is_override : bool;
  has_body : bool;
  blocks : list bytes;
  ir_unsupported : list Unsupported
}.

Record ClassProfile := mkProfile {
  bases : list bytes;
  fields : list bytes;
  methods : list bytes;
  polymorphic : bool;
  abstract : bool;
  template_params : list bytes;
  nested : list bytes;
  extras : list bytes;
  profile_unsupported : list Unsupported;
  profile_fingerprint : bytes
}.

Record SideAnalysis := mkSide {
  sa_config : ParseConfig;
  entities : list Entity;
  behaviours : list BehaviourIR;
  profiles : list ClassProfile
}.

Record Comparison := mkComparison {
  c_pairs : list EntityPair;
  syntax_changed : bool;
  edit_count : Z;
  c_truncated : bool;
  c_verdict : bytes;
  c_evidence : bytes;
  c_detail : bytes;
  assumptions : list bytes;
  unsupported_count : Z
}.

(** ** Contradictions *)

Definition bool_str (b : bool) : bytes := if b then bs "true" else bs "false".
Definition or_dash (s : bytes) : bytes := match s with [] => bs "-" | _ => s end.

(** One row when the two values differ. *)
Definition differs {A} `{EqDecision A} (l r : A) (row : bytes) : list bytes :=
  if bool_decide (l = r) then [] else [row].

Definition text_row (label l r : bytes) : bytes := label ++ bs ": " ++ l ++ arrow_str ++ r.
Definition text_change (label l r : bytes) : list bytes := differs l r (text_row label l r).
Definition dash_change (label l r : bytes) : list bytes :=
  differs l r (text_row label (or_dash l) (or_dash r)).
Definition bool_change (label : bytes) (l r : bool) : list bytes :=
  differs l r (text_row label (bool_str l) (bool_str r)).

(** The rows of a loop over the positions of two lists of one length. *)
Fixpoint each_position (row : Z → bytes → bytes → list bytes) (i : Z) (l r : list bytes) : list bytes :=
  match l, r with
  | a :: l, b :: r => row i a b ++ each_position row (i + 1) l r
  | _, _ => []
  end.

Definition param_type_change (i : Z) (l r : bytes) : list bytes :=
  differs l r (bs "parameter " ++ to_string i ++ bs " type: " ++ l ++ arrow_str ++ r).
Definition default_change (i : Z) (l r : bytes) : list bytes :=
  differs l r (bs "default argument of parameter " ++ to_string i ++ bs " changed").

Definition signature_changes (l r : BehaviourIR) : list bytes :=
  text_change (bs "return type") (return_type l) (return_type r)
  ++ (if bool_decide (length (param_types l) = length (param_types r))
      then each_position param_type_change 1 (param_types l) (param_types r)
      else [text_row (bs "parameter count") (to_string (Z.of_nat (length (param_types l))))
              (to_string (Z.of_nat (length (param_types r))))])
  ++ (if bool_decide (length (param_defaults l) = length (param_defaults r))
      then each_position default_change 1 (param_defaults l) (param_defaults r) else [])
  ++ dash_change (bs "qualifiers") (quals l) (quals r)
  ++ bool_change (bs "noexcept") (is_noexcept l) (is_noexcept r)
  ++ bool_change (bs "virtual") (is_virtual l) (is_virtual r)
  ++ dash_change (bs "storage class") (storage l) (storage r)
  ++ bool_change (bs "inline") (is_inline l) (is_inline r)
  ++ dash_change (bs "constexpr") (constexpr_kind l) (constexpr_kind r)
  ++ bool_change (bs "noreturn") (is_noreturn l) (is_noreturn r)
  ++ bool_change (bs "static method") (is_static_method l) (is_static_method r)
  ++ dash_change (bs "access") (access l) (access r)
  ++ bool_change (bs "explicit") (is_explicit l) (is_explicit r)
  ++ bool_change (bs "deleted") (is_deleted l) (is_deleted r)
  ++ bool_change (bs "defaulted") (is_defaulted l) (is_defaulted r)
  ++ bool_change (bs "final") (is_final l) (is_final r)
  ++ bool_change (bs "pure") (is_pure l) (is_pure r)
  ++ bool_change (bs "override") (is_override l) (is_override r).

(** [++cnt[s]] for every dropped row. *)
Definition drop_counts (rows : list bytes) : gmap bytes Z :=
  foldl (λ cnt s, <[s := default 0 (cnt !! s) + 1]> cnt) ∅ rows.

(** The rows of a sequence that are left after the dropped ones. *)
Fixpoint keep_rows (cnt : gmap bytes Z) (rows : list bytes) : list bytes :=
  match rows with
  | [] => []
  | s :: rows =>
      match cnt !! s with
      | Some k => if 0 <? k then keep_rows (<[s := k - 1]> cnt) rows else s :: keep_rows cnt rows
      | None => s :: keep_rows cnt rows
      end
  end.

Definition keep_common (rows dropped : list bytes) : list bytes := keep_rows (drop_counts dropped) rows.

(** The rows that name the difference of two sequences. *)
Definition seq_changes (cat : bytes) (l r : list bytes) : list bytes :=
  if bool_decide (l = r) then []
  else
    let removed := only_in l r in
    let added := only_in r l in
    (if bool_decide (keep_common l removed = keep_common r added) then [] else [cat ++ bs " reordered"])
    ++ ((λ s, cat ++ bs " removed: " ++ s) <$> removed)
    ++ ((λ s, cat ++ bs " added: " ++ s) <$> added).

Definition profile_changes (l r : ClassProfile) : list bytes :=
  seq_changes (bs "base") (bases l) (bases r)
  ++ seq_changes (bs "field") (fields l) (fields r)
  ++ seq_changes (bs "method") (methods l) (methods r)
  ++ seq_changes (bs "template parameter") (template_params l) (template_params r)
  ++ seq_changes (bs "nested record") (nested l) (nested r)
  ++ seq_changes (bs "declaration") (extras l) (extras r)
  ++ bool_change (bs "polymorphic") (polymorphic l) (polymorphic r)
  ++ bool_change (bs "abstract") (abstract l) (abstract r).

(** ** The verdict on a pair *)

Definition set_changes (p : EntityPair) (changes : list bytes) : EntityPair :=
  mkPair (ep_left p) (ep_right p) (ep_member p) (ep_status p) (ep_match p) (ep_confidence p)
    (ep_edits p) (ep_subtree_differs p) (ep_truncated p) (ep_verdict p) (ep_evidence p) (ep_detail p)
    changes (ep_unsupported p).

Definition add_unsupported (p : EntityPair) (us : list Unsupported) : EntityPair :=
  mkPair (ep_left p) (ep_right p) (ep_member p) (ep_status p) (ep_match p) (ep_confidence p)
    (ep_edits p) (ep_subtree_differs p) (ep_truncated p) (ep_verdict p) (ep_evidence p) (ep_detail p)
    (ep_changes p) (ep_unsupported p ++ us).

Definition set_member (p : EntityPair) : EntityPair :=
  mkPair (ep_left p) (ep_right p) true (ep_status p) (ep_match p) (ep_confidence p)
    (ep_edits p) (ep_subtree_differs p) (ep_truncated p) (ep_verdict p) (ep_evidence p) (ep_detail p)
    (ep_changes p) (ep_unsupported p).

(** [Verdicts::set]. *)
Definition set_verdict (p : EntityPair) (verdict evidence detail : bytes) : EntityPair :=
  mkPair (ep_left p) (ep_right p) (ep_member p) (ep_status p) (ep_match p) (ep_confidence p)
    (ep_edits p) (ep_subtree_differs p) (ep_truncated p) verdict evidence detail (ep_changes p)
    (ep_unsupported p).

(** [Verdicts::attach]. *)
Definition attach (p : EntityPair) (markers : list Unsupported) (side : bytes) : EntityPair :=
  add_unsupported p ((λ u, mkUnsupported (un_what u) (un_range u) side) <$> markers).

Definition unknown (p : EntityPair) (reason : bytes) : EntityPair :=
  set_verdict p kUnknown kUnsupportedOrIncomplete (reason ++ kNoDifference).

Definition is_nil {A} (l : list A) : bool := match l with [] => true | _ => false end.

(** The verdict when the changes and unsupported markers of the pair decide. *)
Definition contradiction_verdict (p : EntityPair) (what : bytes) (otherwise : EntityPair) : EntityPair :=
  if negb (is_nil (ep_changes p)) then set_verdict p kDifferent kSummaryContradiction what
  else if negb (is_nil (ep_unsupported p)) then unknown p (bs "unsupported constructs; ")
  else otherwise.

Section verdicts.
Variables ls rs : SideAnalysis.
Variable config_identical : bool.
Variable match_mode : bytes.

Definition behaviour_of (s : SideAnalysis) (e : Entity) : option BehaviourIR :=
  if 0 <=? en_behaviour e then behaviours s !! Z.to_nat (en_behaviour e) else None.

Definition profile_of (s : SideAnalysis) (e : Entity) : option ClassProfile :=
  if 0 <=? en_profile e then profiles s !! Z.to_nat (en_profile e) else None.

(** [p.left->slice == p.right->slice]; both sides are present. *)
Definition same_slice (p : EntityPair) : bool :=
  match ep_left p, ep_right p with
  | Some l, Some r => bool_decide (en_slice l = en_slice r)
  | _, _ => false
  end.

Definition equivalent_with_evidence (p : EntityPair) (ir_detail : bytes) : EntityPair :=
  if config_identical && same_slice p
  then set_verdict p kEquivalent kIdenticalSourceAndConfig (bs "identical source and configuration")
  else set_verdict p kEquivalent kNormalizedIr ir_detail.

Definition callable_verdict (p : EntityPair) (lb rb : BehaviourIR) : EntityPair :=
  let p := set_changes p (signature_changes lb rb) in
  let p := attach (attach p (ir_unsupported lb) (bs "left")) (ir_unsupported rb) (bs "right") in
  contradiction_verdict p (bs "signature contradiction")
    (if negb (bool_decide (has_body lb = has_body rb)) then unknown p (bs "body on one side only; ")
     else if negb (has_body lb) && negb (has_body rb)
     then set_verdict p kEquivalent
            (if config_identical && same_slice p then kIdenticalSourceAndConfig else kNormalizedIr)
            (bs "declaration only (no body in this translation unit)")
     else if bool_decide (blocks lb = blocks rb)
     then equivalent_with_evidence p (bs "identical canonical signature and normalized IR")
     else unknown p (bs "normalized IR differs; ")).

(** A member row that does not support the equivalence of the record. *)
Definition member_breaks (mp : EntityPair) : bool :=
  bool_decide (ep_left mp = None) || bool_decide (ep_right mp = None)
  || negb (bool_decide (ep_verdict mp = kEquivalent)).

Definition record_verdict (p : EntityPair) (lp rp : ClassProfile) (members : list EntityPair) : EntityPair :=
  let p := set_changes p (profile_changes lp rp) in
  let p := attach (attach p (profile_unsupported lp) (bs "left")) (profile_unsupported rp) (bs "right") in
  let p := add_unsupported p (concat (ep_unsupported <$> members)) in
  contradiction_verdict p (bs "class profile contradiction")
    (if existsb member_breaks members then unknown p (bs "member bodies differ; ")
     else if negb config_identical then unknown p (bs "configuration differs; ")
     else equivalent_with_evidence p (bs "identical class profile and member bodies")).

Definition generic_verdict (p : EntityPair) : EntityPair :=
  if negb (ep_subtree_differs p) then equivalent_with_evidence p (bs "identical normalized syntax")
  else unknown p (bs "syntax differs; ").

(** The members of a record pair, each with its edits, then its verdict; the
    members share one count of operations. *)
Fixpoint judge_members (judge : EntityPair → EntityPair) (total : Z) (rows : list EntityPair)
    : list EntityPair :=
  match rows with
  | [] => []
  | mp :: rows =>
      let '(mp, total) := compute_edits (set_member mp) total in
      judge mp :: judge_members judge total rows
  end.

(** [judge]: the judged pair and the member rows of a record pair. *)
Fixpoint judge (fuel : nat) (p : EntityPair) : EntityPair * list EntityPair :=
  match fuel with
  | O => (p, [])
  | S fuel =>
      match ep_left p, ep_right p with
      | Some l, Some r =>
          match behaviour_of ls l, behaviour_of rs r with
          | Some lb, Some rb => (callable_verdict p lb rb, [])
          | _, _ =>
              match profile_of ls l, profile_of rs r with
              | Some lp, Some rp =>
                  let members := judge_members (λ mp, (judge fuel mp).1) 0
                    (match_entities (en_members l) (en_members r) match_mode false) in
                  (record_verdict p lp rp members, members)
              | _, _ => (generic_verdict p, [])
              end
          end
      | _, _ => (set_verdict p kDifferent kSummaryContradiction (bs "entity " ++ ep_status p), [])
      end
  end.

(** The nesting of the members of an entity. *)
Fixpoint depth (e : Entity) : nat :=
  S ((fix go (es : list Entity) : nat :=
        match es with [] => 0%nat | e :: es => Nat.max (depth e) (go es) end) (en_members e)).

(** Fuel for a pair: one step for the pair, and one for each level of members;
    an added member, which has no left side, takes one step. *)
Definition pair_depth (p : EntityPair) : nat :=
  match ep_left p with Some l => S (depth l) | None => 1%nat end.

Definition judge_pair (p : EntityPair) : EntityPair * list EntityPair := judge (pair_depth p) p.
End verdicts.

(** ** The comparison *)

(** Edits of the top rows, which share one count. *)
Fixpoint edit_rows (total : Z) (rows : list EntityPair) : list EntityPair * Z :=
  match rows with
  | [] => ([], total)
  | p :: rows =>
      let '(p, total) := compute_edits p total in
      let '(rows, total) := edit_rows total rows in
      (p :: rows, total)
  end.

Definition one_sided_row (p : EntityPair) : bool :=
  bool_decide (ep_left p = None) || bool_decide (ep_right p = None).

Definition different_row (p : EntityPair) : bool :=
  negb (one_sided_row p) && bool_decide (ep_verdict p = kDifferent).

Definition count (f : EntityPair → bool) (rows : list EntityPair) : Z :=
  Z.of_nat (length (filter (λ p, f p = true) rows)).

Definition verdict3 : Type := bytes * bytes * bytes.

(** Verdict, evidence and detail of the whole comparison. *)
Definition overall (read_all : bytes → option bytes) (left right : SideAnalysis) (symbol identical : bool)
    (tops : list EntityPair) (unsupported_count : Z) : verdict3 :=
  let added_removed := count one_sided_row tops in
  let different_count := count different_row tops in
  match tops with
  | front :: _ =>
      if symbol then (ep_verdict front, ep_evidence front, ep_detail front)
      else if (0 <? added_removed) || (0 <? different_count)
      then (kDifferent, kSummaryContradiction,
            to_string added_removed ++ bs " added/removed, " ++ to_string different_count ++ bs " different")
      else if forallb (λ p, bool_decide (ep_verdict p = kEquivalent)) tops && (unsupported_count =? 0)
      then if identical
           then (kEquivalent,
                 if forallb (λ p, bool_decide (ep_evidence p = kIdenticalSourceAndConfig)) tops
                 then kIdenticalSourceAndConfig else kNormalizedIr,
                 bs "all entities equivalent")
           else (kUnknown, kUnsupportedOrIncomplete, bs "configuration differs; " ++ kNoDifference)
      else (kUnknown, kUnsupportedOrIncomplete, kNoDifference)
  | [] =>
      let lbytes := read_all (pc_file (sa_config left)) in
      let rbytes := read_all (pc_file (sa_config right)) in
      if identical && negb (bool_decide (lbytes = None)) && negb (bool_decide (rbytes = None))
           && bool_decide (lbytes = rbytes)
      then (kEquivalent, kIdenticalSourceAndConfig,
            bs "identical source and configuration (no indexed entities)")
      else (kUnknown, kUnsupportedOrIncomplete, bs "no indexed entities to compare")
  end.

(** The judged top rows of a comparison and the member rows. *)
Definition judged_rows (left right : SideAnalysis) (match_mode : bytes) (delta : ConfigDelta)
    (symbol : bool) : list (EntityPair * list EntityPair) :=
  judge_pair left right (identical delta) match_mode
    <$> (edit_rows 0 (match_entities (entities left) (entities right) match_mode symbol)).1.

Definition compare_sides (read_all : bytes → option bytes) (left right : SideAnalysis)
    (match_mode : bytes) (delta : ConfigDelta) (scope : bytes) : Comparison :=
  let symbol := bool_decide (scope = bs "symbol") in
  let '(edited, total) :=
    edit_rows 0 (match_entities (entities left) (entities right) match_mode symbol) in
  let judged := judge_pair left right (identical delta) match_mode <$> edited in
  let tops := fst <$> judged in
  let member_rows := if symbol then concat (snd <$> judged) else [] in
  let unsupported_count := foldr Z.add 0 ((λ p, Z.of_nat (length (ep_unsupported p))) <$> tops) in
  let '(verdict, evidence, detail) :=
    overall read_all left right symbol (identical delta) tops unsupported_count in
  mkComparison (tops ++ member_rows) (existsb ep_subtree_differs edited) total
    (existsb ep_truncated edited) verdict evidence detail
    (if bool_decide (verdict = kEquivalent)
     then [bs "same-standard-library"; bs "no-undefined-behavior"] else [])
    unsupported_count.

(** ** Changes name every difference *)

Lemma differs_nil {A} `{EqDecision A} (l r : A) row : differs l r row = [] ↔ l = r.
Proof. unfold differs. by case_bool_decide. Qed.

Lemma each_position_nil row i l r :
  (∀ i a b, row i a b = [] ↔ a = b) → length l = length r →
  each_position row i l r = [] ↔ l = r.
Proof.
  intros Hrow. revert i r. induction l as [|a l IH]; intros i [|b r]; try done.
  simpl. intros [= Hlen]. rewrite app_nil, Hrow, IH by done.
  split; [by intros [-> ->]|by intros [= -> ->]].
Qed.

Lemma keep_common_nil rows : keep_common rows [] = rows.
Proof.
  unfold keep_common, drop_counts. simpl. induction rows as [|s rows IH]; simpl; [done|].
  by rewrite lookup_empty, IH.
Qed.

Lemma seq_changes_nil cat l r : seq_changes cat l r = [] ↔ l = r.
Proof.
  unfold seq_changes. case_bool_decide as Heq; [done|]. split; [|done].
  intros [Hre [Hrm Had]%app_nil]%app_nil. apply fmap_nil_inv in Hrm, Had.
  rewrite Hrm, Had, !keep_common_nil in Hre. by rewrite bool_decide_false in Hre.
Qed.

(** What the signature rows compare; defaults only between lists of one length. *)
Definition same_signature (l r : BehaviourIR) : Prop :=
  return_type l = return_type r ∧ param_types l = param_types r
  ∧ (length (param_defaults l) = length (param_defaults r) → param_defaults l = param_defaults r)
  ∧ quals l = quals r ∧ is_noexcept l = is_noexcept r ∧ is_virtual l = is_virtual r
  ∧ storage l = storage r ∧ is_inline l = is_inline r ∧ constexpr_kind l = constexpr_kind r
  ∧ is_noreturn l = is_noreturn r ∧ is_static_method l = is_static_method r ∧ access l = access r
  ∧ is_explicit l = is_explicit r ∧ is_deleted l = is_deleted r ∧ is_defaulted l = is_defaulted r
  ∧ is_final l = is_final r ∧ is_pure l = is_pure r ∧ is_override l = is_override r.

Definition same_profile (l r : ClassProfile) : Prop :=
  bases l = bases r ∧ fields l = fields r ∧ methods l = methods r
  ∧ template_params l = template_params r ∧ nested l = nested r ∧ extras l = extras r
  ∧ polymorphic l = polymorphic r ∧ abstract l = abstract r.

Lemma params_nil l r :
  (if bool_decide (length (param_types l) = length (param_types r))
   then each_position param_type_change 1 (param_types l) (param_types r)
   else [text_row (bs "parameter count") (to_string (Z.of_nat (length (param_types l))))
           (to_string (Z.of_nat (length (param_types r))))]) = [] ↔ param_types l = param_types r.
Proof.
  case_bool_decide as Hlen.
  - apply each_position_nil; [|done]. intros. apply differs_nil.
  - split; [done|]. intros Heq. by rewrite Heq in Hlen.
Qed.

Lemma defaults_nil l r :
  (if bool_decide (length (param_defaults l) = length (param_defaults r))
   then each_position default_change 1 (param_defaults l) (param_defaults r) else []) = [] ↔
  (length (param_defaults l) = length (param_defaults r) → param_defaults l = param_defaults r).
Proof.
  case_bool_decide as Hlen; [|done]. rewrite each_position_nil; [naive_solver| |done].
  intros. apply differs_nil.
Qed.

Lemma signature_changes_nil l r : signature_changes l r = [] ↔ same_signature l r.
Proof.
  unfold signature_changes, same_signature, text_change, dash_change, bool_change.
  by rewrite !app_nil, !differs_nil, params_nil, defaults_nil.
Qed.

Lemma profile_changes_nil l r : profile_changes l r = [] ↔ same_profile l r.
Proof.
  unfold profile_changes, same_profile, bool_change.
  by rewrite !app_nil, !differs_nil, !seq_changes_nil.
Qed.

(** A pair of callables gets no signature row exactly when every compared part
    of the signatures agrees, a pair of records no profile row exactly when every
    sequence and flag of the profiles agrees: a reordering alone gives a row. *)
Theorem changes_exact lb rb lp rp :
  (signature_changes lb rb = [] ↔ same_signature lb rb)
  ∧ (profile_changes lp rp = [] ↔ same_profile lp rp).
Proof. split; [apply signature_changes_nil|apply profile_changes_nil]. Qed.

(** ** Soundness of the verdicts *)

Section soundness.
Variables ls rs : SideAnalysis.
Variable config_identical : bool.
Variable match_mode : bytes.
Notation judge := (judge ls rs config_identical match_mode).

(** What [equivalent] stands for, from the entities alone. *)
Inductive equivalent_entities (l r : Entity) : Prop :=
| equivalent_callables lb rb :
    behaviour_of ls l = Some lb → behaviour_of rs r = Some rb →
    same_signature lb rb → ir_unsupported lb = [] → ir_unsupported rb = [] →
    has_body lb = has_body rb → (has_body lb = true → blocks lb = blocks rb) →
    equivalent_entities l r
| equivalent_records lp rp lms rms :
    profile_of ls l = Some lp → profile_of rs r = Some rp →
    same_profile lp rp → profile_unsupported lp = [] → profile_unsupported rp = [] →
    config_identical = true →
    lms ≡ₚ en_members l → rms ≡ₚ en_members r → Forall2 equivalent_entities lms rms →
    equivalent_entities l r
| equivalent_syntax :
    behaviour_of ls l = None ∨ behaviour_of rs r = None →
    profile_of ls l = None ∨ profile_of rs r = None →
    sn_fingerprint (en_syntax l) = sn_fingerprint (en_syntax r) →
    equivalent_entities l r.

(** A row before its verdict. *)
Definition pending (p : EntityPair) : Prop :=
  ep_verdict p = [] ∧ ep_changes p = [] ∧ ep_unsupported p = []
  ∧ ∀ l r, ep_left p = Some l → ep_right p = Some r →
      ep_subtree_differs p = negb (bool_decide (sn_fingerprint (en_syntax l) = sn_fingerprint (en_syntax r))).

(** Two rows with the same sides, status and match. *)
Definition same_sides (p q : EntityPair) : Prop := ep_left p = ep_left q ∧ ep_right p = ep_right q.

Lemma compute_edits_pending p total :
  unjudged p → pending (compute_edits p total).1 ∧ same_sides (compute_edits p total).1 p.
Proof.
  intros (Hv & Hc & Hu & _). unfold compute_edits, pending, same_sides.
  destruct (ep_left p) as [l|] eqn:El, (ep_right p) as [r|] eqn:Er; cbn;
    rewrite El, Er; split_and!; try done; naive_solver.
Qed.

(** The verdict functions leave the sides alone. *)
Lemma contradiction_sides p what q p0 :
  same_sides p p0 → same_sides q p0 → same_sides (contradiction_verdict p what q) p0.
Proof. unfold contradiction_verdict. by repeat case_match. Qed.

Lemma evidence_sides p d p0 :
  same_sides p p0 → same_sides (equivalent_with_evidence config_identical p d) p0.
Proof. unfold equivalent_with_evidence. by case_match. Qed.

Lemma callable_sides p lb rb : same_sides (callable_verdict config_identical p lb rb) p.
Proof.
  apply contradiction_sides; [done|]. do 2 (case_match; [done|]).
  case_match; [by apply evidence_sides|done].
Qed.

Lemma record_sides p lp rp ms : same_sides (record_verdict config_identical p lp rp ms) p.
Proof.
  apply contradiction_sides; [done|]. repeat (case_match; [done|]). by apply evidence_sides.
Qed.

Lemma generic_sides p : same_sides (generic_verdict config_identical p) p.
Proof. unfold generic_verdict. case_match; [|done]. by apply evidence_sides. Qed.

(** A contradiction verdict is [equivalent] only by the last case. *)
Lemma contradiction_equivalent p what q :
  ep_verdict (contradiction_verdict p what q) = kEquivalent →
  ep_changes p = [] ∧ ep_unsupported p = [] ∧ ep_verdict q = kEquivalent.
Proof.
  unfold contradiction_verdict. destruct (ep_changes p), (ep_unsupported p); simpl; try done.
Qed.

Lemma judge_sides n p : same_sides (judge n p).1 p.
Proof.
  destruct n as [|n]; simpl; [done|].
  destruct (ep_left p) as [l|] eqn:El, (ep_right p) as [r|] eqn:Er; try done.
  destruct (behaviour_of ls l), (behaviour_of rs r); [apply callable_sides|..];
    destruct (profile_of ls l), (profile_of rs r); first [apply record_sides|apply generic_sides].
Qed.

Lemma callable_verdict_sound p lb rb l r :
  pending p → ep_left p = Some l → ep_right p = Some r →
  behaviour_of ls l = Some lb → behaviour_of rs r = Some rb →
  ep_verdict (callable_verdict config_identical p lb rb) = kEquivalent → equivalent_entities l r.
Proof.
  intros (_ & _ & Hu & _) Hl Hr Hlb Hrb Hv. unfold callable_verdict in Hv.
  apply contradiction_equivalent in Hv as (Hch & Hun & Hv). cbn in Hch, Hun.
  rewrite Hu in Hun. apply app_nil in Hun as [Hul Hur].
  apply fmap_nil_inv in Hul, Hur.
  apply signature_changes_nil in Hch.
  destruct (bool_decide (has_body lb = has_body rb)) eqn:Eb; simpl in Hv; [|done].
  apply bool_decide_eq_true in Eb. eapply equivalent_callables; try done.
  intros Hbody. rewrite <-Eb, Hbody in Hv. simpl in Hv. by case_bool_decide.
Qed.

(** The sides of rows that each have two related sides. *)
Lemma two_sided_rows (R : Entity → Entity → Prop) rows :
  Forall (λ p, ∃ l r, ep_left p = Some l ∧ ep_right p = Some r ∧ R l r) rows →
  Forall2 R (omap ep_left rows) (omap ep_right rows).
Proof.
  induction 1 as [|p rows (l & r & Hl & Hr & HR) _ IH]; [constructor|].
  csimpl. rewrite Hl, Hr. by constructor.
Qed.

Lemma judge_members_rows n total rows :
  Forall unjudged rows →
  Forall2 (λ q p, ∃ mp, q = (judge n mp).1 ∧ pending mp ∧ same_sides mp p)
    (judge_members (λ mp, (judge n mp).1) total rows) rows.
Proof.
  intros Hrows. revert total. induction Hrows as [|p rows Hp _ IH]; intros total; simpl; [constructor|].
  destruct (compute_edits_pending (set_member p) total Hp) as [Hpend Hs].
  destruct (compute_edits (set_member p) total) as [mp total'] eqn:E. cbn [fst] in *.
  constructor; [|apply IH]. by exists mp.
Qed.

Lemma omap_sides (f : EntityPair → option Entity) rows rows' :
  Forall2 (λ q p, f q = f p) rows rows' → omap f rows = omap f rows'.
Proof. induction 1 as [|q p ?? Heq _ IH]; [done|]. csimpl. by rewrite Heq, IH. Qed.

Lemma generic_verdict_sound p l r :
  pending p → ep_left p = Some l → ep_right p = Some r →
  behaviour_of ls l = None ∨ behaviour_of rs r = None →
  profile_of ls l = None ∨ profile_of rs r = None →
  ep_verdict (generic_verdict config_identical p) = kEquivalent → equivalent_entities l r.
Proof.
  intros (_ & _ & _ & Hd) Hl Hr Hb Hp. unfold generic_verdict. rewrite (Hd l r Hl Hr), negb_involutive.
  case_bool_decide; [|done]. intros _. by apply equivalent_syntax.
Qed.

Lemma record_verdict_sound n p lp rp l r :
  (∀ q, pending q → ep_verdict (judge n q).1 = kEquivalent →
     ∃ l r, ep_left q = Some l ∧ ep_right q = Some r ∧ equivalent_entities l r) →
  pending p → profile_of ls l = Some lp → profile_of rs r = Some rp →
  ep_verdict (record_verdict config_identical p lp rp
    (judge_members (λ mp, (judge n mp).1) 0
       (match_entities (en_members l) (en_members r) match_mode false))) = kEquivalent →
  equivalent_entities l r.
Proof.
  intros IH (_ & _ & Hu & _) Hlp Hrp Hv. set (rows := match_entities _ _ _ _) in Hv.
  unfold record_verdict in Hv. apply contradiction_equivalent in Hv as (Hch & Hun & Hv).
  cbn in Hch, Hun. rewrite Hu in Hun. apply app_nil in Hun as [[Hul Hur]%app_nil _].
  apply fmap_nil_inv in Hul, Hur. apply profile_changes_nil in Hch.
  destruct (existsb member_breaks _) eqn:Eb; [done|].
  destruct config_identical eqn:Ec; simpl in Hv; [|done].
  rewrite <-not_true_iff_false, existsb_exists in Eb.
  pose proof (match_unjudged (en_members l) (en_members r) match_mode false) as Hun.
  pose proof (judge_members_rows n 0 rows Hun) as Hrows.
  pose proof (match_sides (en_members l) (en_members r) match_mode false) as [Hml Hmr].
  fold rows in Hml, Hmr. rewrite <-Ec in *.
  eapply (equivalent_records _ _ lp rp (omap ep_left rows) (omap ep_right rows)); try done.
  apply two_sided_rows. apply Forall_forall. intros q Hq.
  apply list_elem_of_lookup_1 in Hq as [i Hi].
  destruct (Forall2_lookup_r _ _ _ _ _ Hrows Hi) as (q' & Hq' & mp & -> & Hpend & Hl & Hr).
  destruct (IH mp Hpend) as (l' & r' & Hl' & Hr' & Heq); [|exists l', r'; split_and!; congruence].
  destruct (decide (ep_verdict (judge n mp).1 = kEquivalent)) as [|Hne]; [done|]. destruct Eb.
  exists (judge n mp).1. split; [by apply list_elem_of_In, list_elem_of_lookup; exists i|].
  unfold member_breaks. by rewrite (bool_decide_false _ Hne), orb_true_r.
Qed.

Lemma judge_sound n p :
  pending p → ep_verdict (judge n p).1 = kEquivalent →
  ∃ l r, ep_left p = Some l ∧ ep_right p = Some r ∧ equivalent_entities l r.
Proof.
  revert p. induction n as [|n IH]; intros p Hp; simpl.
  { intros Hv. destruct Hp as (Hv' & _). by rewrite Hv' in Hv. }
  destruct (ep_left p) as [l|] eqn:El, (ep_right p) as [r|] eqn:Er; try done.
  intros Hv. exists l, r. split_and!; [done|done|].
  destruct (behaviour_of ls l) as [lb|] eqn:Elb, (behaviour_of rs r) as [rb|] eqn:Erb.
  { by eapply callable_verdict_sound. }
  all: assert (behaviour_of ls l = None ∨ behaviour_of rs r = None) as Hnb by auto.
  all: revert Hv; destruct (profile_of ls l) as [lp|] eqn:Elp, (profile_of rs r) as [rp|] eqn:Erp;
    cbn [fst]; intros Hv.
  all: first [by eapply record_verdict_sound | eapply generic_verdict_sound; eauto].
Qed.
(** *** The recursion into the members ends *)

Lemma depth_member l e : e ∈ en_members l → (depth e < depth l)%nat.
Proof.
  destruct l as [k n sg u rg sy f d sl ms b pr]. simpl.
  induction ms as [|m ms IH]; [by intros ?%not_elem_of_nil|].
  intros [->|He]%elem_of_cons; [lia|]. specialize (IH He). lia.
Qed.

Lemma member_left l r p e :
  p ∈ match_entities (en_members l) (en_members r) match_mode false → ep_left p = Some e →
  e ∈ en_members l.
Proof.
  intros Hp He. rewrite <-(proj1 (match_sides (en_members l) (en_members r) match_mode false)).
  apply list_elem_of_omap. by exists p.
Qed.

Lemma judge_members_ext f g total rows :
  (∀ p q, p ∈ rows → same_sides q p → f q = g q) → Forall unjudged rows →
  judge_members f total rows = judge_members g total rows.
Proof.
  intros Hfg Hrows. revert total Hfg. induction Hrows as [|p rows Hp _ IH]; intros total Hfg; simpl; [done|].
  destruct (compute_edits_pending (set_member p) total Hp) as [_ Hs].
  destruct (compute_edits (set_member p) total) as [mp total']. cbn [fst] in Hs. f_equal.
  - apply (Hfg p); [by left|done].
  - apply IH. intros p' q Hp'. apply Hfg. by right.
Qed.

Lemma judge_fuel n m p : (pair_depth p ≤ n)%nat → (pair_depth p ≤ m)%nat → judge n p = judge m p.
Proof.
  revert m p. induction n as [|n IH]; intros m p Hn Hm.
  { unfold pair_depth in Hn. case_match; lia. }
  destruct m as [|m]; [unfold pair_depth in Hm; case_match; lia|]. simpl.
  destruct (ep_left p) as [l|] eqn:El, (ep_right p) as [r|] eqn:Er; try done.
  unfold pair_depth in Hn, Hm. rewrite El in Hn, Hm.
  rewrite (judge_members_ext (λ mp, (judge n mp).1) (λ mp, (judge m mp).1)); [done| |apply match_unjudged].
  intros q q' Hq [Hl _]. f_equal.
  assert (pair_depth q' ≤ depth l)%nat as Hd.
  { unfold pair_depth. rewrite Hl. destruct (ep_left q) as [e|] eqn:Ee.
    - apply (depth_member l), (member_left l r q); done.
    - destruct l. simpl. lia. }
  apply IH; lia.
Qed.

(** *** Different verdicts *)

Lemma contradiction_different p what q :
  ep_changes q = ep_changes p → ep_verdict q ≠ kDifferent →
  ep_verdict (contradiction_verdict p what q) = kDifferent ↔
  ep_changes (contradiction_verdict p what q) ≠ [].
Proof.
  intros Hq Hv. unfold contradiction_verdict. destruct (ep_changes p) eqn:Ec; simpl.
  - destruct (ep_unsupported p); simpl; [|by rewrite Ec]. rewrite Hq. naive_solver.
  - rewrite Ec. naive_solver.
Qed.

Lemma evidence_verdict p d :
  ep_changes (equivalent_with_evidence config_identical p d) = ep_changes p
  ∧ ep_verdict (equivalent_with_evidence config_identical p d) ≠ kDifferent.
Proof. unfold equivalent_with_evidence. by case_match. Qed.

Lemma judge_different n p :
  pending p → (0 < n)%nat →
  ep_verdict (judge n p).1 = kDifferent ↔
  ep_left p = None ∨ ep_right p = None ∨ ep_changes (judge n p).1 ≠ [].
Proof.
  intros (_ & Hc & _) Hn. destruct n as [|n]; [lia|]. simpl.
  destruct (ep_left p) as [l|] eqn:El; [|naive_solver].
  destruct (ep_right p) as [r|] eqn:Er; [|naive_solver].
  assert (∀ q, (ep_verdict q = kDifferent ↔ ep_changes q ≠ []) →
    ep_verdict q = kDifferent ↔ Some l = None ∨ Some r = None ∨ ep_changes q ≠ []) as Hgo
    by naive_solver.
  destruct (behaviour_of ls l), (behaviour_of rs r);
    [|destruct (profile_of ls l), (profile_of rs r)..]; apply Hgo; cbn [fst].
  1: { apply contradiction_different; repeat (case_match; try apply evidence_verdict); done. }
  all: try (apply contradiction_different; repeat (case_match; try apply evidence_verdict); done).
  all: unfold generic_verdict; case_match; [|simpl; by rewrite Hc];
    destruct (evidence_verdict p (bs "identical normalized syntax")) as [-> ?]; rewrite Hc; naive_solver.
Qed.
End soundness.

(** ** The whole comparison *)

Section comparison.
Variable read_all : bytes → option bytes.
Variables left right : SideAnalysis.
Variable match_mode : bytes.
Variable delta : ConfigDelta.
Notation judge1 := (judge_pair left right (identical delta) match_mode).

Lemma edit_rows_pending total rows :
  Forall unjudged rows → Forall2 (λ q p, pending q ∧ same_sides q p) (edit_rows total rows).1 rows.
Proof.
  intros Hrows. revert total. induction Hrows as [|p rows Hp _ IH]; intros total; simpl; [constructor|].
  destruct (compute_edits_pending p total Hp) as [Hpend Hs].
  destruct (compute_edits p total) as [q total']. specialize (IH total').
  destruct (edit_rows total' rows) as [qs total'']. by constructor.
Qed.

(** The top rows come from the matching, edited and judged. *)
Lemma top_rows symbol q :
  q ∈ fst <$> judged_rows left right match_mode delta symbol →
  ∃ p p0, q = (judge1 p).1 ∧ pending p ∧ same_sides p p0
    ∧ p0 ∈ match_entities (entities left) (entities right) match_mode symbol.
Proof.
  intros ([q' rows] & -> & (p & Hq & Hp)%list_elem_of_fmap)%list_elem_of_fmap.
  pose proof (edit_rows_pending 0 _ (match_unjudged (entities left) (entities right) match_mode symbol))
    as Hrows.
  apply list_elem_of_lookup_1 in Hp as [i Hi].
  destruct (Forall2_lookup_l _ _ _ _ _ Hrows Hi) as (p0 & Hp0 & Hpend & Hs).
  exists p, p0. rewrite <-Hq. split_and!; [done|done|done|]. by eapply list_elem_of_lookup_2.
Qed.

Lemma top_sides symbol :
  omap ep_left (fst <$> judged_rows left right match_mode delta symbol) ≡ₚ entities left
  ∧ omap ep_right (fst <$> judged_rows left right match_mode delta symbol) ≡ₚ entities right.
Proof.
  destruct (match_sides (entities left) (entities right) match_mode symbol) as [Hl Hr].
  pose proof (edit_rows_pending 0 _ (match_unjudged (entities left) (entities right) match_mode symbol))
    as Hrows.
  unfold judged_rows. rewrite <-list_fmap_compose.
  split; (etrans; [|eassumption]); apply reflexive_eq, omap_sides, Forall2_fmap_l; (eapply Forall2_impl; [exact Hrows|]);
    intros q p [_ [H1 H2]]; cbn; unfold judge_pair;
    destruct (judge_sides left right (identical delta) match_mode (pair_depth q) q) as [H3 H4]; congruence.
Qed.

(** [compare_sides] by its rows. *)
Lemma compare_verdict scope :
  let symbol := bool_decide (scope = bs "symbol") in
  let tops := fst <$> judged_rows left right match_mode delta symbol in
  let c := compare_sides read_all left right match_mode delta scope in
  let uc := foldr Z.add 0 ((λ p, Z.of_nat (length (ep_unsupported p))) <$> tops) in
  (c_verdict c, c_evidence c, c_detail c)
    = overall read_all left right symbol (identical delta) tops uc
  ∧ c_pairs c = tops ++ (if symbol then concat (snd <$> judged_rows left right match_mode delta symbol) else []).
Proof.
  intros symbol tops c uc. subst c. unfold compare_sides. fold symbol.
  subst tops uc. unfold judged_rows.
  destruct (edit_rows 0 _) as [edited total]. cbn [fst].
  destruct (overall _ _ _ _ _ _ _) as [[v e] d]. done.
Qed.

Lemma count_positive f rows : 0 < count f rows ↔ ∃ p, p ∈ rows ∧ f p = true.
Proof.
  unfold count. split.
  - intros Hc. destruct (filter _ rows) as [|p l] eqn:E; [simpl in Hc; lia|].
    exists p. assert (p ∈ filter (λ p, f p = true) rows) as Hp by (rewrite E; by left).
    apply list_elem_of_filter in Hp as [? ?]. done.
  - intros (p & Hp & Hf). assert (p ∈ filter (λ p, f p = true) rows) as Hin
      by (by apply list_elem_of_filter).
    destruct (filter _ rows); [by apply not_elem_of_nil in Hin|simpl; lia].
Qed.
End comparison.

(** C5: a comparison says [equivalent] only for one of three reasons: neither side
    has an entity, and under an identical configuration the bytes of the two files
    are equal; or two files whose entities correspond one to one under an
    identical configuration, each pair with the same signature and normalized
    body, the same profile and equivalent members, or the same syntax, and no
    unsupported construct in any of them; or, for two selected symbols, such a
    pair of one entity from each side. *)
Theorem equivalent_sound read_all left right match_mode delta scope :
  c_verdict (compare_sides read_all left right match_mode delta scope) = kEquivalent →
  let equivalent := equivalent_entities left right (identical delta) in
  entities left = [] ∧ entities right = [] ∧ identical delta = true
    ∧ (∃ content, read_all (pc_file (sa_config left)) = Some content
        ∧ read_all (pc_file (sa_config right)) = Some content)
  ∨ scope ≠ bs "symbol" ∧ identical delta = true
    ∧ (∃ ls rs, ls ≡ₚ entities left ∧ rs ≡ₚ entities right ∧ Forall2 equivalent ls rs)
  ∨ scope = bs "symbol"
    ∧ (∃ l r, l ∈ entities left ∧ r ∈ entities right ∧ equivalent l r).
Proof.
  intros Hv equivalent.
  destruct (compare_verdict read_all left right match_mode delta scope) as [Ho _].
  set (symbol := bool_decide (scope = bs "symbol")) in *.
  pose proof (top_sides left right match_mode delta symbol) as [Hl Hr].
  pose proof (top_rows left right match_mode delta symbol) as Htop.
  set (tops := fst <$> judged_rows left right match_mode delta symbol) in *.
  assert (∀ q, q ∈ tops → ep_verdict q = kEquivalent →
    ∃ l r, ep_left q = Some l ∧ ep_right q = Some r ∧ equivalent l r) as Hsound.
  { intros q Hq Hqv. destruct (Htop q Hq) as (p & p0 & -> & Hp & _).
    unfold judge_pair in *.
    destruct (judge_sides left right (identical delta) match_mode (pair_depth p) p) as [-> ->].
    by eapply judge_sound. }
  apply (f_equal (λ v : verdict3, v.1.1)) in Ho. cbn [fst] in Ho. rewrite Hv in Ho. clear Hv. unfold overall in Ho.
  destruct tops as [|front tops'] eqn:Et; cbn [fst] in Ho.
  - left. apply Permutation_nil in Hl, Hr. split; [done|]. split; [done|].
    destruct (_ && _) eqn:E in Ho; [|done]. bool_split. split; [done|].
    destruct (read_all (pc_file (sa_config left))) as [content|] eqn:Ec; [|done]. by exists content.
  - right. rewrite <-Et in *. subst symbol. case_bool_decide as Hs; cbn [fst] in Ho.
    + right. split; [done|].
      destruct (Hsound front) as (l & r & Hfl & Hfr & He); [rewrite Et; by left|by symmetry|].
      exists l, r. rewrite <-Hl, <-Hr. split_and!; [| |done]; apply list_elem_of_omap; exists front;
        (split; [rewrite Et; by left|done]).
    + left. split; [done|]. case_on_hyp Ho; [done|].
      destruct (forallb _ tops && _) eqn:Ef in Ho; [|done]. bool_split.
      destruct (identical delta) eqn:Ei; [|done]. split; [done|].
      exists (omap ep_left tops), (omap ep_right tops). split_and!; [done|done|].
      apply two_sided_rows, Forall_forall. intros q Hq. apply Hsound; [done|].
      rewrite forallb_forall in H. specialize (H q). rewrite bool_decide_eq_true in H.
      by apply H, list_elem_of_In.
Qed.

(** C29: two files are [different] exactly when some row names the difference: an
    entity that one side lacks, or a pair whose signatures or class profiles
    contradict each other. *)
Theorem different_exact read_all left right match_mode delta scope :
  scope ≠ bs "symbol" →
  let c := compare_sides read_all left right match_mode delta scope in
  c_verdict c = kDifferent ↔
  ∃ p, p ∈ c_pairs c ∧ (ep_left p = None ∨ ep_right p = None ∨ ep_changes p ≠ []).
Proof.
  intros Hs c. destruct (compare_verdict read_all left right match_mode delta scope) as [Ho Hc].
  fold c in Ho, Hc. rewrite (bool_decide_false _ Hs), app_nil_r in *. rewrite Hc. clear Hc.
  apply (f_equal (λ v : verdict3, v.1.1)) in Ho. cbn [fst] in Ho. rewrite Ho. clear Ho c.
  pose proof (top_rows left right match_mode delta false) as Htop.
  set (tops := fst <$> judged_rows left right match_mode delta false) in *.
  assert (∀ q, q ∈ tops →
    one_sided_row q = true ∨ different_row q = true ↔
    ep_left q = None ∨ ep_right q = None ∨ ep_changes q ≠ []) as Hrow.
  { intros q Hq. destruct (Htop q Hq) as (p & p0 & -> & Hp & _). unfold judge_pair.
    assert (0 < pair_depth p)%nat as Hd by (unfold pair_depth; case_match; lia).
    pose proof (judge_different left right (identical delta) match_mode _ p Hp Hd) as Hj.
    destruct (judge_sides left right (identical delta) match_mode (pair_depth p) p) as [Hl Hr].
    unfold different_row, one_sided_row. rewrite andb_true_iff, negb_true_iff, orb_false_iff,
      !orb_true_iff, !bool_decide_eq_true, !bool_decide_eq_false, Hl, Hr.
    destruct (ep_left p), (ep_right p); naive_solver. }
  assert ((0 <? count one_sided_row tops) || (0 <? count different_row tops) = true ↔
    ∃ p, p ∈ tops ∧ (ep_left p = None ∨ ep_right p = None ∨ ep_changes p ≠ [])) as Hcount.
  { rewrite orb_true_iff, !Z.ltb_lt, !count_positive. split.
    - intros [(p & Hp & Hf)|(p & Hp & Hf)]; exists p; (split; [done|]); apply Hrow; auto.
    - intros (p & Hp & Hf). apply Hrow in Hf as [?|?]; [left|right|done]; by exists p. }
  rewrite <-Hcount. unfold overall. destruct tops as [|front tops'] eqn:Et.
  - destruct (_ && _ : bool); cbn [fst]; split; intros E; discriminate E.
  - destruct ((0 <? _) || _); [by split|].
    split; [|intros E; discriminate E]. destruct (forallb _ _ && _); [destruct (identical delta)|];
      cbn [fst]; intros E; discriminate E.
Qed.

(** Judging a pair ends: any fuel from the depth of its left entity on gives
    the same verdict and the same member rows. *)
Theorem judge_terminates ls rs config_identical match_mode n p :
  (pair_depth p ≤ n)%nat →
  judge ls rs config_identical match_mode n p = judge_pair ls rs config_identical match_mode p.
Proof. intros Hn. by apply judge_fuel. Qed.

(** ** A comparison *)

Definition sample_rg : SrcRange := mkRange 1 1 2 1.
Definition sample_syn (lb : string) : SynNode := DiffSyntax.seal id (mkSyn (bs "Decl") (bs lb) (bs "name f") sample_rg [] []).
Definition sample_void_ir (blocks : list bytes) : BehaviourIR :=
  mkBehaviour (bs "void()") (bs "void") [] [] [] false false [] false [] false false [] false false false false false
    false true blocks [].
Definition sample_fn (usr lb : string) : Entity :=
  mkEntity (bs "function") (bs "f") (bs "f()") (bs usr) sample_rg (sample_syn lb) (bs lb) true (bs "src") [] 0 (-1).
Definition sample_holder (ms : list Entity) : Entity :=
  mkEntity (bs "struct") (bs "S") [] (bs "u:S") sample_rg (sample_syn "S") (bs "S") true (bs "struct") ms (-1) 0.
Definition sample_no_profile : ClassProfile := mkProfile [] [] [] false false [] [] [] [] [].
Definition sample_config (f : string) : ParseConfig := mkConfig (bs f) [] None (bs f) false None None [] no_classes.
Definition sample_side (f : string) (es : list Entity) (ir : string) : SideAnalysis :=
  mkSide (sample_config f) es [sample_void_ir [bs ir]] [sample_no_profile].
Definition sample_delta : ConfigDelta := config_delta (sample_config "l.cpp") (sample_config "r.cpp").
Definition sample_contents (f : bytes) : option bytes := Some f.

(** A record with a member, and the same under another spelling of the file. *)
Definition sample_left : SideAnalysis := sample_side "l.cpp" [sample_holder [sample_fn "u:f" "f"]] "ret".
Definition sample_right : SideAnalysis := sample_side "r.cpp" [sample_holder [sample_fn "u:f" "f"]] "ret".
Definition sample_same : Comparison :=
  compare_sides sample_contents sample_left sample_right (bs "heuristic") sample_delta (bs "file").

(** A member is missing on the left: the row of the record says why. *)
Example added_member :
  let c := compare_sides sample_contents (sample_side "l.cpp" [sample_holder []] "ret")
             (sample_side "r.cpp" [sample_holder [sample_fn "u:f" "f"]] "ret") (bs "strict") sample_delta (bs "symbol") in
  c_verdict c = kUnknown ∧ c_detail c = bs "member bodies differ; no behavioral difference established"
  ∧ ep_verdict <$> c_pairs c = [kUnknown; kDifferent].
Proof. vm_compute. auto. Qed.

(** The evidence says identical source though the bytes of the files differ:
    with entities on both sides only the slices of the entities are compared. *)
Example identical_source_other_bytes :
  c_verdict sample_same = kEquivalent ∧ c_evidence sample_same = kIdenticalSourceAndConfig
  ∧ sample_contents (bs "l.cpp") ≠ sample_contents (bs "r.cpp").
Proof. split_and!; [vm_compute; reflexivity..|discriminate]. Qed.

Lemma equivalent_sound_witness :
  ∃ ls rs, ls ≡ₚ entities sample_left ∧ rs ≡ₚ entities sample_right
    ∧ Forall2 (equivalent_entities sample_left sample_right (identical sample_delta)) ls rs.
Proof.
  assert (c_verdict (compare_sides sample_contents sample_left sample_right (bs "heuristic")
    sample_delta (bs "file")) = kEquivalent) as Hv by (vm_compute; reflexivity).
  destruct (equivalent_sound sample_contents sample_left sample_right (bs "heuristic") sample_delta
    (bs "file") Hv) as [(He & _)|[(_ & _ & H)|(Hs & _)]].
  - discriminate He.
  - exact H.
  - discriminate Hs.
Defined.

Lemma different_exact_witness :
  let c := compare_sides sample_contents (sample_side "l.cpp" [sample_fn "u:f" "f"] "ret")
             (sample_side "r.cpp" [sample_fn "u:g" "g"; sample_fn "u:f" "f"] "ret") (bs "strict") sample_delta (bs "file") in
  c_verdict c = kDifferent
  ∧ ∃ p, p ∈ c_pairs c ∧ (ep_left p = None ∨ ep_right p = None ∨ ep_changes p ≠ []).
Proof.
  intros c. assert (c_verdict c = kDifferent) as Hv by (vm_compute; reflexivity).
  split; [exact Hv|]. apply (different_exact sample_contents _ _ (bs "strict") sample_delta (bs "file")); [discriminate|].
  exact Hv.
Defined.

Lemma judge_terminates_witness :
  let p := new_pair (Some (sample_holder [sample_fn "u:f" "f"])) (Some (sample_holder [])) (bs "matched") [] 0 in
  pair_depth p = 3%nat ∧
  judge (sample_side "l.cpp" [] "x") (sample_side "r.cpp" [] "x") true (bs "strict") 7 p
  = judge_pair (sample_side "l.cpp" [] "x") (sample_side "r.cpp" [] "x") true (bs "strict") p.
Proof.
  intros p. split; [reflexivity|]. apply judge_terminates.
  change (3 ≤ 7)%nat. lia.
Defined.
