(* ===== verification/DiffSelect.v ===== *)
(** * The entities of a side of cidx-diff and their selection

    The Clang-free part of [diff/analyze.cpp]: [dedupe_entities], which collapses
    the declarations of one USR to a definition, [flatten], [line_selector] and
    [select_entity] with its tiers (USR, signature, name, innermost line). *)

From S2P Require Export DiffMatch.
Open Scope Z_scope.

(** [Selector] of [diff/analyze.hpp]. *)
Record Selector := mkSelector { raw : bytes; sel_kind : option bytes }.

(** ** One row per USR *)

Record Deduped := mkDeduped { out : list Entity; by_usr : gmap bytes nat }.

(** The loop body shared by [dedupe_entities] and [select_entity]. *)
Definition dedupe_step (d : Deduped) (e : Entity) : Deduped :=
  if bool_decide (en_usr e = []) then mkDeduped (out d ++ [e]) (by_usr d)
  else
    match by_usr d !! en_usr e with
    | None => mkDeduped (out d ++ [e]) (<[en_usr e := length (out d)]> (by_usr d))
    | Some k =>
        if en_is_definition e && negb (en_is_definition (out d !!! k))
        then mkDeduped (<[k := e]> (out d)) (by_usr d) else d
    end.

Definition dedupe_entities (es : list Entity) : list Entity :=
  out (foldl dedupe_step (mkDeduped [] ∅) es).

(** An entity, then its members, depth first. *)
Fixpoint flatten1 (e : Entity) : list Entity :=
  e :: (fix go (es : list Entity) : list Entity :=
          match es with [] => [] | m :: es => flatten1 m ++ go es end) (en_members e).

Definition flatten (es : list Entity) : list Entity := concat (flatten1 <$> es).

(** ** Selectors *)

Definition is_digit (c : ascii) : bool :=
  (48 <=? N_of_ascii c)%N && (N_of_ascii c <=? 57)%N.

(** [std::stoi] of at most nine digits. *)
Definition stoi (s : bytes) : Z :=
  foldl (λ n c, 10 * n + (Z.of_N (N_of_ascii c) - 48)) 0 s.

Definition line_selector (s : bytes) : option Z :=
  if negb (starts_with (bs "line:") s) then None
  else
    let num := drop 5 s in
    if bool_decide (num = []) || (9 <? length num)%nat || negb (forallb is_digit num) then None
    else Some (stoi num).

Definition usr_hits (cands : list Entity) (sel : Selector) : list Entity :=
  filter (λ e, en_usr e ≠ [] ∧ en_usr e = raw sel) cands.

Definition signature_hits (cands : list Entity) (sel : Selector) : list Entity :=
  filter (λ e, en_signature e ≠ [] ∧ strip_ws (en_signature e) = strip_ws (raw sel)) cands.

Definition kind_allowed (sel : Selector) (e : Entity) : Prop :=
  match sel_kind sel with Some k => en_kind e = k | None => True end.

#[export] Instance kind_allowed_dec sel e : Decision (kind_allowed sel e).
Proof. unfold kind_allowed. destruct (sel_kind sel); apply _. Defined.

Definition name_hits (cands : list Entity) (sel : Selector) : list Entity :=
  filter (λ e, (en_name e ≠ [] ∧ en_name e = raw sel) ∧ kind_allowed sel e) cands.

(** The innermost entities around a line: [best] is the least span so far, -1
    before the first hit. *)
Definition line_step (line : Z) (acc : Z * list Entity) (e : Entity) : Z * list Entity :=
  let '(best, hits) := acc in
  if (line <? sr_line (en_range e)) || (sr_end_line (en_range e) <? line) then acc
  else
    let span := sr_end_line (en_range e) - sr_line (en_range e) in
    let '(best, hits) := if (best <? 0) || (span <? best) then (span, []) else (best, hits) in
    (best, if span =? best then hits ++ [e] else hits).

Definition line_hits (cands : list Entity) (sel : Selector) : list Entity :=
  match line_selector (raw sel) with
  | Some line => (foldl (line_step line) (-1, []) cands).2
  | None => []
  end.

(** The first tier with a hit. *)
Definition or_else (hits : list Entity) (next : list Entity) : list Entity :=
  match hits with [] => next | _ => hits end.

Definition selector_hits (cands : list Entity) (sel : Selector) : list Entity :=
  or_else (usr_hits cands sel)
    (or_else (signature_hits cands sel)
       (or_else (name_hits cands sel) (line_hits cands sel))).

Definition fmt_range (r : SrcRange) : bytes :=
  to_string (sr_line r) ++ bs ":" ++ to_string (sr_col r) ++ bs "-"
  ++ to_string (sr_end_line r) ++ bs ":" ++ to_string (sr_end_col r).

Definition candidate_line (e : Entity) : bytes :=
  ["010"%char] ++ bs "  " ++ en_kind e ++ bs " "
  ++ (match en_signature e with [] => en_name e | s => s end) ++ bs " "
  ++ (match en_usr e with [] => bs "-" | u => u end) ++ bs " L" ++ fmt_range (en_range e).

Definition select_entity (top : list Entity) (sel : Selector) (file : bytes) : result Entity :=
  match selector_hits (dedupe_entities (flatten top)) sel with
  | [] => throw (bs "selector '" ++ raw sel ++ bs "' matches nothing in " ++ file)
  | [e] => Ok e
  | hits =>
      throw (bs "selector '" ++ raw sel ++ bs "' is ambiguous in " ++ file ++ bs "; candidates:"
               ++ concat (candidate_line <$> hits))
  end.

(** ** Deduplication *)

(** The map points at the only entity of each USR it has seen. *)
Definition deduped_ok (seen : list Entity) (d : Deduped) : Prop :=
  (∀ u k, by_usr d !! u = Some k ↔ u ≠ [] ∧ ∃ e, out d !! k = Some e ∧ en_usr e = u)
  ∧ (∀ e, e ∈ out d → e ∈ seen)
  ∧ (∀ e, e ∈ seen → en_usr e = [] → e ∈ out d)
  ∧ (∀ e, e ∈ seen → en_usr e ≠ [] →
       ∃ e', e' ∈ out d ∧ en_usr e' = en_usr e
         ∧ (en_is_definition e = true → en_is_definition e' = true)).

Lemma elem_of_insert_inv (l : list Entity) k e x : x ∈ <[k := e]> l → x ∈ l ∨ x = e.
Proof.
  intros (i & Hi)%list_elem_of_lookup. destruct (decide (k = i)) as [->|].
  - apply list_lookup_insert_Some in Hi as [(_ & -> & _)|(? & Hi)]; [by right|done].
  - rewrite list_lookup_insert_ne in Hi by done. left. by eapply list_elem_of_lookup_2.
Qed.

Lemma elem_of_insert_other (l : list Entity) k e0 e x :
  l !! k = Some e0 → x ∈ l → en_usr x ≠ en_usr e0 → x ∈ <[k := e]> l.
Proof.
  intros He0 (i & Hi)%list_elem_of_lookup Hne. apply list_elem_of_lookup. exists i.
  rewrite list_lookup_insert_ne; [done|]. congruence.
Qed.

(** Appending an entity keeps the positions of the others. *)
Lemma dedupe_append seen d e m :
  deduped_ok seen d →
  (∀ u k, m !! u = Some k ↔ u ≠ [] ∧ ∃ e', (out d ++ [e]) !! k = Some e' ∧ en_usr e' = u) →
  deduped_ok (seen ++ [e]) (mkDeduped (out d ++ [e]) m).
Proof.
  intros (_ & Hin & Hno & Hdef) Hm. split_and!; cbn [out by_usr]; [done| | |].
  - intros x. rewrite !elem_of_app. naive_solver.
  - intros x. rewrite !elem_of_app. naive_solver.
  - intros x [Hx| ->%list_elem_of_singleton]%elem_of_app Hne.
    + destruct (Hdef x Hx Hne) as (e' & ? & ?). exists e'. rewrite elem_of_app. auto.
    + exists e. rewrite elem_of_app. split; [right; by left|done].
Qed.

(** A definition takes the place of the declaration of its USR. *)
Lemma dedupe_replace seen d e k e0 :
  deduped_ok seen d → out d !! k = Some e0 → en_usr e ≠ [] → en_usr e0 = en_usr e →
  en_is_definition e = true →
  deduped_ok (seen ++ [e]) (mkDeduped (<[k := e]> (out d)) (by_usr d)).
Proof.
  intros (Hm & Hin & Hno & Hdef) He0 Hu Hu0 Hd. pose proof (lookup_lt_Some _ _ _ He0) as Hk.
  split_and!; cbn [out by_usr].
  - intros u j. rewrite Hm. destruct (decide (j = k)) as [->|Hj].
    + rewrite list_lookup_insert_eq by done.
      split; intros [? (e' & He' & <-)]; (split; [done|]); simplify_eq; eauto.
    + by rewrite list_lookup_insert_ne.
  - intros x [Hx| ->]%elem_of_insert_inv; rewrite elem_of_app; [left; by apply Hin|].
    right. by left.
  - intros x [Hx| ->%list_elem_of_singleton]%elem_of_app Hne; [|congruence].
    eapply elem_of_insert_other; [done|by apply Hno|congruence].
  - intros x Hx Hne. destruct (decide (en_usr x = en_usr e)) as [Heq|Heq].
    + exists e. split; [|done]. apply list_elem_of_lookup. exists k. by rewrite list_lookup_insert_eq.
    + apply elem_of_app in Hx as [Hx| ->%list_elem_of_singleton]; [|done].
      destruct (Hdef x Hx Hne) as (e' & He' & Hu' & ?). exists e'. split; [|done].
      eapply elem_of_insert_other; [done|done|congruence].
Qed.

Lemma dedupe_step_ok seen d e : deduped_ok seen d → deduped_ok (seen ++ [e]) (dedupe_step d e).
Proof.
  intros Hd. pose proof Hd as (Hm & Hin & Hno & Hdef). unfold dedupe_step. case_bool_decide as Hu.
  { apply dedupe_append; [done|]. intros u k. rewrite Hm.
    split; (intros [Hne (e' & He' & Hu')]; split; [done|]); exists e'.
    - split; [by apply lookup_app_l_Some|done].
    - apply lookup_app_Some in He' as [He'|[_ He']]; [done|].
      apply list_lookup_singleton_Some in He' as [_ <-]. congruence. }
  destruct (by_usr d !! en_usr e) as [k|] eqn:Ek.
  - apply Hm in Ek as [_ (e0 & He0 & Hu0)]. rewrite (list_lookup_total_correct _ _ _ He0).
    destruct (en_is_definition e && negb (en_is_definition e0)) eqn:Ed.
    { bool_split. by eapply dedupe_replace. }
    split_and!; [done| | |].
    + intros x Hx. rewrite elem_of_app. auto.
    + intros x [Hx| ->%list_elem_of_singleton]%elem_of_app Hne; [by apply Hno|done].
    + intros x [Hx| ->%list_elem_of_singleton]%elem_of_app Hne; [by apply Hdef|].
      exists e0. split_and!; [by eapply list_elem_of_lookup_2|done|]. intros Ht. rewrite Ht in Ed.
      by destruct (en_is_definition e0).
  - apply dedupe_append; [done|]. intros u j. destruct (decide (u = en_usr e)) as [->|Hne].
    + rewrite lookup_insert_eq. split.
      * intros [= <-]. split; [done|]. exists e. by rewrite lookup_app_r, Nat.sub_diag by lia.
      * intros [_ (e' & He' & Hu')]. f_equal. apply lookup_app_Some in He' as [He'|[Hle He']].
        -- assert (by_usr d !! en_usr e = Some j) as Hj by (apply Hm; eauto). congruence.
        -- apply list_lookup_singleton_Some in He' as [? _]. lia.
    + rewrite lookup_insert_ne, Hm by done.
      split; (intros [? (e' & He' & Hu')]; split; [done|]); exists e'.
      * split; [by apply lookup_app_l_Some|done].
      * apply lookup_app_Some in He' as [He'|[_ He']]; [done|].
        apply list_lookup_singleton_Some in He' as [_ <-]. congruence.
Qed.

Lemma dedupe_ok es : ∃ m, deduped_ok es (mkDeduped (dedupe_entities es) m).
Proof.
  assert (deduped_ok es (foldl dedupe_step (mkDeduped [] ∅) es)) as Hd.
  { induction es as [|e es IH] using rev_ind.
    - split_and!; cbn [out by_usr foldl]; [|by intros e ?%not_elem_of_nil..].
      intros u k. rewrite lookup_empty, lookup_nil. naive_solver.
    - rewrite foldl_app. by apply dedupe_step_ok. }
  unfold dedupe_entities. destruct (foldl _ _ _) as [o m]. by exists m.
Qed.

(** Two rows of one USR are one row. *)
Lemma dedupe_unique es i j a b :
  dedupe_entities es !! i = Some a → dedupe_entities es !! j = Some b →
  en_usr a = en_usr b → en_usr a ≠ [] → i = j.
Proof.
  intros Hi Hj Hu Hne. destruct (dedupe_ok es) as (m & Hm & _). cbn [out by_usr] in Hm.
  assert (m !! en_usr a = Some i) as H1 by (apply Hm; eauto).
  assert (m !! en_usr a = Some j) as H2 by (apply Hm; rewrite Hu in *; eauto). congruence.
Qed.

(** ** Selection *)

Definition covers (line : Z) (e : Entity) : Prop :=
  sr_line (en_range e) <= line <= sr_end_line (en_range e).

Definition line_span (e : Entity) : Z := sr_end_line (en_range e) - sr_line (en_range e).

(** The hits of the line tier are the covering entities of least span. *)
Definition innermost (line : Z) (seen : list Entity) (acc : Z * list Entity) : Prop :=
  (∀ e, e ∈ acc.2 ↔ e ∈ seen ∧ covers line e ∧ line_span e = acc.1)
  ∧ (∀ e, e ∈ seen → covers line e → 0 <= acc.1 <= line_span e)
  ∧ (0 <= acc.1 ∨ acc.1 = -1).

Lemma line_step_innermost line seen acc e :
  innermost line seen acc → innermost line (seen ++ [e]) (line_step line acc e).
Proof.
  destruct acc as [best hits]. intros (Hh & Hmin & Hb). unfold line_step. cbn [fst snd] in *.
  destruct (_ || _) eqn:Ec.
  { assert (¬ covers line e) as Hc by (unfold covers; lia).
    split_and!; cbn [fst snd]; [| |done]; intros x; rewrite elem_of_app, list_elem_of_singleton.
    - rewrite Hh. naive_solver.
    - intros [?| ->] ?; [auto|done]. }
  assert (covers line e) as Hc by (unfold covers; lia).
  fold (line_span e). assert (0 <= line_span e) as Hspan by (unfold covers, line_span in *; lia).
  destruct ((best <? 0) || (line_span e <? best)) eqn:Eb.
  - rewrite Z.eqb_refl. split_and!; cbn [fst snd app]; [| |lia]; intros x;
      rewrite elem_of_app, ?list_elem_of_singleton.
    + split; [intros ->; auto|]. intros ([Hx|Hx] & Hcx & Hs); [|done].
      specialize (Hmin x Hx Hcx). lia.
    + intros [Hx| ->] Hcx; [specialize (Hmin x Hx Hcx); lia|lia].
  - split_and!; cbn [fst snd]; [| |lia]; intros x; rewrite elem_of_app, list_elem_of_singleton.
    + destruct (Z.eqb_spec (line_span e) best); rewrite ?elem_of_app, ?list_elem_of_singleton, Hh; naive_solver.
    + intros [Hx| ->] Hcx; [by apply Hmin|lia].
Qed.

Lemma line_hits_innermost cands line :
  innermost line cands (foldl (line_step line) (-1, []) cands).
Proof.
  induction cands as [|e es IH] using rev_ind.
  - split_and!; cbn; [|by intros e ?%not_elem_of_nil|by right].
    intros e. split; [by intros ?%not_elem_of_nil|by intros [?%not_elem_of_nil _]].
  - rewrite foldl_app. by apply line_step_innermost.
Qed.

Lemma or_else_elem hits next (e : Entity) : e ∈ or_else hits next → e ∈ hits ∨ e ∈ next.
Proof. destruct hits; simpl; auto. Qed.

Lemma hits_cands cands sel e : e ∈ selector_hits cands sel → e ∈ cands.
Proof.
  unfold selector_hits. intros [H|[H|[H|H]%or_else_elem]%or_else_elem]%or_else_elem.
  1-3: by apply list_elem_of_filter in H as [_ ?].
  unfold line_hits in H. destruct (line_selector _) as [line|]; [|by apply not_elem_of_nil in H].
  destruct (line_hits_innermost cands line) as [Hh _]. by apply Hh in H as [? _].
Qed.

Lemma select_Ok top sel file e :
  select_entity top sel file = Ok e ↔ selector_hits (dedupe_entities (flatten top)) sel = [e].
Proof. unfold select_entity. destruct (selector_hits _ _) as [|? [|]]; naive_solver. Qed.

Lemma singleton_by_index (l : list Entity) e :
  e ∈ l → (∀ i j a b, l !! i = Some a → l !! j = Some b → i = j) → l = [e].
Proof.
  intros He Hu. destruct l as [|a [|b l]]; [by apply not_elem_of_nil in He| |].
  - by apply list_elem_of_singleton in He as ->.
  - by specialize (Hu 0%nat 1%nat a b eq_refl eq_refl).
Qed.

(** The candidates of one USR are at most one row. *)
Lemma usr_hits_single es sel e :
  e ∈ usr_hits (dedupe_entities es) sel → usr_hits (dedupe_entities es) sel = [e].
Proof.
  intros He. apply singleton_by_index; [done|]. unfold usr_hits.
  generalize (dedupe_unique es). generalize (dedupe_entities es). intros l Hu.
  assert (length (filter (λ e, en_usr e ≠ [] ∧ en_usr e = raw sel) l) ≤ 1)%nat as Hlen.
  { clear He. induction l as [|x l IH]; [simpl; lia|]. rewrite filter_cons. case_decide as Hx.
    - destruct (filter _ l) as [|y l'] eqn:E; [simpl; lia|].
      assert (y ∈ y :: l') as Hy by by left. rewrite <-E in Hy.
      apply list_elem_of_filter in Hy as [[Hyn Hys] (j & Hj)%list_elem_of_lookup].
      destruct Hx as [Hx Hxs]. assert (0%nat = S j); [|done].
      apply (Hu 0%nat (S j) x y); [done|exact Hj|congruence..].
    - apply IH. intros i j a b Ha Hb Hab Hne.
      pose proof (Hu (S i) (S j) a b Ha Hb Hab Hne) as Hij. by injection Hij. }
  intros i j a b Ha%lookup_lt_Some Hb%lookup_lt_Some. lia.
Qed.

(** A USR that the file declares always selects, without ambiguity, an entity
    of that USR, a definition when there is one; a selected entity is declared in
    the file; and a line that no other tier matches selects the one entity around
    it that is strictly shorter than every other candidate around it. *)
Theorem selection_exact top sel file :
  (∀ e0, e0 ∈ flatten top → en_usr e0 = raw sel → raw sel ≠ [] →
     ∃ e, select_entity top sel file = Ok e ∧ en_usr e = raw sel
       ∧ (en_is_definition e0 = true → en_is_definition e = true))
  ∧ (∀ e, select_entity top sel file = Ok e → e ∈ flatten top)
  ∧ (let cands := dedupe_entities (flatten top) in
     ∀ e line, select_entity top sel file = Ok e → line_selector (raw sel) = Some line →
       usr_hits cands sel = [] → signature_hits cands sel = [] → name_hits cands sel = [] →
       covers line e ∧ ∀ e', e' ∈ cands → covers line e' → e' ≠ e → line_span e < line_span e').
Proof.
  destruct (dedupe_ok (flatten top)) as (m & _ & Hin & _ & Hdef). cbn [out by_usr] in *. split_and!.
  - intros e0 He0 Hu Hne. destruct (Hdef e0 He0) as (e & He & Hue & Hd); [by rewrite Hu|].
    exists e. rewrite select_Ok. split_and!; [|congruence|done]. unfold selector_hits.
    rewrite (usr_hits_single _ _ e); [done|]. apply list_elem_of_filter. split; [|done].
    rewrite Hue, Hu. done.
  - intros e He%select_Ok. apply Hin, (hits_cands _ sel). rewrite He. by left.
  - set (cands := dedupe_entities (flatten top)). intros e line He%select_Ok Hl Hu Hs Hn.
    fold cands in He. unfold selector_hits in He.
    rewrite Hu, Hs, Hn in He. unfold line_hits in He. simpl in He. rewrite Hl in He.
    destruct (line_hits_innermost cands line) as (Hh & Hmin & _). rewrite He in Hh.
    destruct (proj1 (Hh e)) as (_ & Hc & Hspan); [by left|]. split; [done|].
    intros e' He' Hc' Hne. destruct (Hmin e' He' Hc') as [_ Hle].
    destruct (decide (line_span e' = line_span e)) as [Heq|]; [|lia].
    destruct Hne. apply list_elem_of_singleton, Hh. split_and!; [done|done|congruence].
Qed.

Example line_selectors :
  line_selector (bs "line:42") = Some 42 ∧ line_selector (bs "line:") = None
  ∧ line_selector (bs "line:1234567890") = None ∧ line_selector (bs "f") = None.
Proof. vm_compute. auto. Qed.
